(* ===== verification/_CoqProject ===== *)
-Q . S2P
Prelude.v
Bytes.v
Testing.v
Crypto.v
U256.v
Pow.v
Difficulty.v
PowTheorems.v
Wire.v
Transaction.v
Merkle.v
Block.v
Utxo.v
Script.v
Sighash.v
Journal.v
CoreTests.v
Store.v
DiskStore.v
DiskExamples.v
Chain.v
ChainTx.v
ChainInv.v
ChainReorg.v
ChainProps.v
ChainTheorems.v
ChainEvents.v
ChainExamples.v
ChainExtend.v
ChainFindings.v
Mempool.v
MempoolInv.v
MempoolEvict.v
MempoolSync.v
MempoolTheorems.v
MempoolExamples.v
Message.v
Envelope.v
Framing.v
Handshake.v
Capacity.v
Handles.v
Relay.v
RelayTheorems.v
RelayExamples.v
TypedState.v
TypedNode.v
Peer.v
Peers.v
PeersTyped.v
PeersInv.v
PeersTheorems.v
PeersShutdown.v
PeersDrive.v
PeersExamples.v
Wallet.v
WalletTheorems.v
WalletExamples.v
Miner.v
Cli.v
CliMining.v
TestSupport.v
ChainTests.v
MempoolTests.v
NetTests.v
RelayTests.v
WalletTests.v
DiskTests.v
CliWallet.v
CliNode.v
CliOutput.v
CliDispatch.v
Shutdown.v
CliExamples.v
