(* ===== verification/Prelude.v ===== *)
(** * A verification library for the bitrst node

    bitrst (src/) is a small Bitcoin node in Rust: a full validation core (bitrst-core), its
    cryptographic wrappers (bitrst-crypto), a script interpreter (bitrst-script), a
    peer-to-peer layer (bitrst-net), a watching and signing wallet (bitrst-wallet), a nonce
    search (bitrst-miner) and a command line over them (src/src/cli).  This library models
    them as they are written and proves what makes them correct.

    ** How the parts interact

    A peer's bytes are cut into frames (Framing, Envelope) whose payloads are decoded
    (Message, over the readers of Wire, Transaction and Block).  After the version handshake
    (Handshake; Capacity limits the inbound connections) every message goes to Relay, which
    calls the chain and the pool through their lock-protected handles (Handles).  Each
    connection is a task (Peer); the manager (Peers) keeps the table of peers, takes the
    events of the tasks and broadcasts what they announce.  The chain
    (Chain) validates a block (Pow, Difficulty, Merkle, Block, Utxo, Sighash, Script),
    extends its active branch, keeps side branches and orphans, or reorganizes; it records
    what happened in a journal (Journal).  The pool (Mempool) admits transactions against the
    chain's UTXO set and is brought up to date by the events of the journal; so is the wallet
    (Wallet).  The miner (Miner) looks for a header that Pow accepts.  The commands (Cli,
    CliWallet, CliNode) mine a chain of their own in memory and work on it; the dispatch
    (CliDispatch) chooses one and turns its result into an exit status, and the shutdown
    signal (Shutdown) ends a running node.

    ** Files and sources (below src/crates/<crate>/src/)

    - Prelude: outcomes of a Rust call, the state-and-error monad, the iteration order of hash
      maps, lemmas on lists and maps.  Bytes: bytes, machine integers, little-endian codecs.
    - Crypto: bitrst-crypto.  The crates sha2, ripemd, secp256k1 and bs58 are the class
      [CryptoLib], with their documented laws in [CryptoLaws]; [toy_crypto] is a concrete
      instance that satisfies them, used by the examples.
    - U256, Pow, Difficulty: uint256.rs, pow.rs, difficulty.rs of bitrst-core; PowTheorems has
      their properties.
    - Wire, Transaction, Merkle, Block: wire.rs, transaction.rs and limits.rs, merkle.rs,
      block.rs and time.rs.
    - Utxo: utxo.rs.  Script: bitrst-script.  Sighash: sighash.rs.
    - Journal: chain_events.rs, chain_event_journal.rs, disconnected_block_journal.rs.
    - Store: store.rs; [BlockStore] is the trait with its laws, [memory_block_store] implements
      it.  DiskStore: store/disk.rs, over a root directory in which any call may fail and the
      power may be lost; DiskExamples runs it.
    - Chain: chain.rs, one definition per method.  ChainTx: the transaction check of a block
      and the replay of blocks.  ChainInv, ChainReorg, ChainProps: the invariant, the
      reorganization, the calls as a whole.  ChainTheorems: the properties.  ChainExamples:
      concrete chains and the witnesses.  ChainExtend: which blocks extend the tip.
      ChainFindings: behaviours that look unintended.  ChainEvents: what a call adds to the
      journal of events.
    - Mempool: mempool.rs.  MempoolInv, MempoolEvict, MempoolSync: the invariant, the
      eviction, the synchronization.  MempoolTheorems, MempoolExamples: as for the chain.
    - Message: constants.rs, error.rs, message.rs, codec/ of bitrst-net.  Envelope: envelope.rs.
      Framing: framing.rs.  Handshake: handshake.rs and the handshake loop of peer.rs.
      Capacity: inbound_capacity.rs.
    - Handles: chain_handle.rs and mempool_handle.rs of bitrst-core.  Relay: relay.rs.
      RelayTheorems, RelayExamples: as for the chain.
    - TypedState, TypedNode, PeersTyped: the ranges and limits that every block, transaction
      and message in a node keeps.
    - Peer: peer.rs, the task of one connection.  Peers: peers.rs and seeds.rs, the world of
      all tasks, the accept loop and the manager.  PeersInv: bounds and shared state.
      PeersShutdown: the end of the manager.  PeersDrive: the calls of its owner, and its
      drop.  PeersTheorems, PeersExamples: as for the chain.
    - Wallet: bitrst-wallet.  WalletTheorems, WalletExamples: as for the chain.
    - Miner: bitrst-miner.
    - Cli, CliWallet, CliNode (src/src/cli/): args.rs, error.rs, chain.rs, mine.rs and tip.rs;
      secret.rs and wallet/; node.rs.  CliMining: why mined blocks are connected.
      CliOutput: what a command writes.  CliDispatch: mod.rs, wallet/mod.rs, lib.rs and
      main.rs.  Shutdown: shutdown.rs.  CliExamples: as for the chain.
    - TestSupport: testutil.rs.  Testing, CoreTests, ChainTests, MempoolTests, NetTests,
      RelayTests, WalletTests, DiskTests: the unit tests of the crates, run on the model.

    ** State and operations

    A struct is a record with the source's fields, an enum an inductive type, a [HashMap] or
    [HashSet] a [gmap] or [gset].  A method on [&mut self] is a computation in
    [SM S E A = S → Result E A * S]: the state it leaves is returned with an error too, since
    the Rust object keeps the changes made before a [?].  [Panic] is the third outcome: a
    failed index or [expect].  Integers are [Z] with the wrap-around of a release build
    written out.  Where the source iterates over a hash map the order is the parameter
    [HashOrder], so that the theorems hold for any order.

    Concurrency appears as step relations: [Capacity.cap_step] interleaves the atomic
    accesses of any number of tasks, [Handshake.hs_step] the deliveries of two peers,
    [Peers.world_step] all tasks of a node with its manager.  A
    handle's call holds the lock throughout, so it is one step on the protected value, with
    poisoning.  Time is an argument ([now]).

    ** What the theorems show

    - Chain: every reachable chain satisfies its invariant; the UTXO set is contained in the
      replay of the active blocks, and equal to it as long as no branch repeats a transaction
      identifier, which the code does not check ([ChainFindings.repeated_coinbase_is_lost]);
      value is only created by coinbases; the active tip has the most work; the block on
      which a call fails leaves the state as it was; each outcome of connecting a block is
      characterised.
    - Consensus rules: proof of work, retargeting, the work formula and its defect; Merkle
      commitments up to collisions; the transaction check; P2PKH spending; what a signature
      commits to.
    - Codecs: a block, a peer message and a frame decode from exactly the bytes that encode
      them (canonical ones, but for the [version] message); framing does not depend on how a socket cuts the stream.
    - Pool: its invariant, admission, eviction, removal and revalidation, the end of every
      loop; a valid pool is the body of a block the chain would accept.
    - Peers: the handshake in every interleaving, the limit on inbound connections, the
      invariant of the node under any message and under any interleaving of all its peers,
      the protocol of one task, bounded queues, whom a broadcast reaches in every run, bounded
      and unrepeated requests; what a node says is well-typed and can be decoded; what a
      shutdown leaves; however a node ends, it winds down by steps of its own.
    - Storage: the file store survives failing calls and power losses (as long as its root
      directory does, which the code does not see to when it creates it), and without them
      behaves as the store in memory, for blocks within the limits of the decoder.
    - Wallet and miner: the wallet's view is the watched part of the replay of the active
      blocks, so of the UTXO set when no identifier is repeated; what it signs is accepted; the nonce search is exact.
    - Command line: the mine command mines; what the wallet commands print they accept; a node
      starts from, and stays in, good states; the exit status tells whether the command
      succeeded; a signal to shut down is not lost.
    - Unit tests: the statements of a test are a definition that returns when every assertion
      of the test holds, and the kernel evaluates it.  They tie the model to the behaviour the
      authors of the code expect, on their own inputs.

    ** Bounds and fuel

    Loops whose end depends on the data carry fuel; running out of it is [Panic], and a
    theorem excludes it.  The search for a fork point has one step per indexed block
    and one more, the disconnection one per active block and one more, the orphan queue one
    per stored orphan ([ChainTheorems.chain_loops_terminate]); the search for descendants has
    one step per spent outpoint and one more, every other loop of the pool one per entry (or
    candidate; [MempoolTheorems.pool_calls_return]); a read of [n] bytes
    has fuel [n], since each successful read yields at least one byte; the nonce search has
    the source's own bound.  The searches of the test builders have no bound in the source;
    [TestSupport.solve_ends] says that 2^32 attempts are enough when any nonce succeeds.

    ** Not modelled

    - Sockets and timers: what a read or a write returns, and when a timeout fires, is any
      value the step relation allows; whether binding or connecting succeeds is a parameter.
    - The handler of a peer's message (peer.rs:222, relay.rs:205-219 and 260) takes the locks
      of the chain and the pool several times; here it is one step on both, so what another
      task does between two of its lock acquisitions is left out.  (Each call of the handler
      preserves the invariants from any reachable chain and pool.)
    - An aborted task ends in a later step of its own and may go on until then; the handler
      that it leaves on a blocking thread is a further step, which may happen more often than
      the one time it can in the program.  No panic of a task outside its handlers is
      modelled; that [shutdown] meets one is always possible.
    - Of the directories above the root of the file store, only whether the root has reached
      the disk.
    - The parser of the arguments (the crate clap) and the texts of the errors are parameters;
      that the handler of the signal of the process is installed is assumed.
    - The progress messages of a node on the error stream.
    - The tests that compare with a real digest, curve point or base58 text, or that use
      serde, sockets, threads, timers or megabytes of input; tests/integration.rs. *)

From stdpp Require Import prelude gmap strings list sorting fin_maps.

(** ** Outcomes of a Rust call

    [Ok] and [Err] are the two constructors of [std::result::Result]; [Panic] is the
    third way a call can end (an out-of-range index, a failed [expect]).  The error type
    comes first, so that [Result E] is a monad. *)
Inductive Result (E A : Type) : Type :=
| Ok (a : A)
| Err (e : E)
| Panic.
Arguments Ok {E A} a.
Arguments Err {E A} e.
Arguments Panic {E A}.

#[global] Instance Result_eq_dec {E A} `{EqDecision E, EqDecision A} : EqDecision (Result E A).
Proof. solve_decision. Defined.

(** The [?] operator on results. *)
Definition rbind {E A B} (m : Result E A) (f : A → Result E B) : Result E B :=
  match m with Ok a => f a | Err e => Err e | Panic => Panic end.

(** [Result::map_err]. *)
Definition map_err {E E' A} (f : E → E') (m : Result E A) : Result E' A :=
  match m with Ok a => Ok a | Err e => Err (f e) | Panic => Panic end.

(** [Option::ok_or]. *)
Definition ok_or {E A} (o : option A) (e : E) : Result E A :=
  match o with Some a => Ok a | None => Err e end.

(** An indexing expression: the element, or a panic. *)
Definition index_or_panic {E A} (o : option A) : Result E A :=
  match o with Some a => Ok a | None => Panic end.

(** [Result::is_ok]. *)
Definition is_ok {E A} (m : Result E A) : bool :=
  match m with Ok _ => true | _ => false end.

(** ** Methods taking [&mut self]

    A method that can fail returns its outcome together with the state it leaves,
    whatever the outcome: an early return keeps the mutations made before it. *)
Definition SM (S E A : Type) : Type := S → Result E A * S.

Definition sret {S E A} (a : A) : SM S E A := λ s, (Ok a, s).
Definition sthrow {S E A} (e : E) : SM S E A := λ s, (Err e, s).
Definition spanic {S E A} : SM S E A := λ s, (Panic, s).
Definition sget {S E} : SM S E S := λ s, (Ok s, s).
Definition smodify {S E} (f : S → S) : SM S E unit := λ s, (Ok tt, f s).
Definition slift {S E A} (m : Result E A) : SM S E A := λ s, (m, s).
Definition sbind {S E A B} (m : SM S E A) (f : A → SM S E B) : SM S E B :=
  λ s, match m s with
       | (Ok a, s') => f a s'
       | (Err e, s') => (Err e, s')
       | (Panic, s') => (Panic, s')
       end.

(** A Rust [for] loop over a list whose body can fail. *)
Fixpoint sfor {S E A} (l : list A) (body : A → SM S E unit) : SM S E unit :=
  match l with
  | [] => sret tt
  | x :: l' => sbind (body x) (λ _, sfor l' body)
  end.

(** The same for bodies that only read: a fold that stops at the first error. *)
Fixpoint rfold {E A B} (f : B → A → Result E B) (acc : B) (l : list A) : Result E B :=
  match l with
  | [] => Ok acc
  | x :: l' => rbind (f acc x) (λ acc', rfold f acc' l')
  end.

(** A [for] loop that only checks its elements. *)
Fixpoint rfor {E A} (f : A → Result E unit) (l : list A) : Result E unit :=
  match l with
  | [] => Ok tt
  | x :: l' => rbind (f x) (λ _, rfor f l')
  end.

(** [iter().map(f).collect::<Result<Vec<_>, _>>()], or a loop that pushes [f x]. *)
Fixpoint rmap {E A B} (f : A → Result E B) (l : list A) : Result E (list B) :=
  match l with
  | [] => Ok []
  | x :: l' => rbind (f x) (λ y, rbind (rmap f l') (λ ys, Ok (y :: ys)))
  end.

Declare Scope rust_scope.
Delimit Scope rust_scope with rust.

Notation "'let?' x := m 'in' k" := (rbind m (λ x, k))
  (at level 10, x name, m at level 100, k at level 200) : rust_scope.
Notation "'let?' ' p := m 'in' k" := (rbind m (λ x, match x with p => k end))
  (at level 10, p pattern at level 0, m at level 100, k at level 200) : rust_scope.
Notation "'check?' m ;; k" := (rbind m (λ _, k))
  (at level 10, m at level 99, k at level 200) : rust_scope.
Notation "'let!' x := m 'in' k" := (sbind m (λ x, k))
  (at level 10, x name, m at level 100, k at level 200) : rust_scope.
Notation "'do!' m ;; k" := (sbind m (λ _, k))
  (at level 10, m at level 99, k at level 200) : rust_scope.
Open Scope rust_scope.

(** ** Iteration over [HashMap] and [HashSet]

    The order in which the standard library's hash tables are traversed is unspecified.
    [hm_iter] is that order, as a function of the table's content; every theorem holds for
    any instance. *)
Class HashOrder := {
  hm_iter : ∀ {K : Type} `{Countable K} {V : Type}, gmap K V → list (K * V);
  hm_iter_perm : ∀ {K : Type} `{Countable K} {V : Type} (m : gmap K V),
    hm_iter m ≡ₚ map_to_list m
}.

(** Iteration over a [HashSet]. *)
Definition hs_iter {order : HashOrder} {K} `{Countable K} (s : gset K) : list K :=
  map fst (hm_iter (gset_to_gmap () s)).

(** The instance the examples run with. *)
Definition canonical_order : HashOrder := {|
  hm_iter := λ K _ _ V m, map_to_list m;
  hm_iter_perm := λ K _ _ V m, reflexivity _
|}.

(** [iter().min_by(cmp)]: the first of the least elements, [lt x y] meaning that [x] is
    strictly less than [y]. *)
Fixpoint min_by_from {A} (lt : A → A → bool) (best : A) (l : list A) : A :=
  match l with
  | [] => best
  | x :: l' => min_by_from lt (if lt x best then x else best) l'
  end.
Definition min_by {A} (lt : A → A → bool) (l : list A) : option A :=
  match l with [] => None | x :: l' => Some (min_by_from lt x l') end.

(** [sort_by_key], a stable sort. *)
Fixpoint sorted_insert {A} (key : A → Z) (x : A) (l : list A) : list A :=
  match l with
  | [] => [x]
  | y :: l' => if (key x <=? key y)%Z then x :: y :: l' else y :: sorted_insert key x l'
  end.
Definition sort_by_key {A} (key : A → Z) (l : list A) : list A :=
  foldr (sorted_insert key) [] l.

(** Sum of a measure of the values of a map. *)
Definition map_sum {K} `{Countable K} {V} (f : V → Z) (m : gmap K V) : Z :=
  map_fold (λ _ v acc, (f v + acc)%Z) 0%Z m.

(** * Lemmas *)

Section result_lemmas.
Context {E A B : Type}.
Implicit Types (m : Result E A) (f : A → Result E B).

Lemma rbind_Ok m f b : rbind m f = Ok b ↔ ∃ a, m = Ok a ∧ f a = Ok b.
Proof. destruct m; naive_solver. Qed.

Lemma rbind_Err m f e :
  rbind m f = Err e ↔ m = Err e ∨ ∃ a, m = Ok a ∧ f a = Err e.
Proof. destruct m; naive_solver. Qed.

Lemma ok_or_Ok (o : option A) (e : E) a : ok_or o e = Ok a ↔ o = Some a.
Proof. destruct o; naive_solver. Qed.

Lemma map_err_Ok {E'} (g : E → E') m a : map_err g m = Ok a ↔ m = Ok a.
Proof. destruct m; naive_solver. Qed.

Lemma is_ok_true m : is_ok m = true ↔ ∃ a, m = Ok a.
Proof. destruct m; naive_solver. Qed.

End result_lemmas.

Lemma rfor_Ok {E A} (g : A → Result E unit) l : rfor g l = Ok () ↔ Forall (λ x, g x = Ok ()) l.
Proof.
  induction l as [|x l IH]; simpl; [by split; auto|].
  rewrite rbind_Ok, Forall_cons, <- IH. split; [by intros ([]&?&?)|intros [? ?]; by exists ()].
Qed.

Lemma rmap_Ok {E A B} (g : A → Result E B) l ys :
  rmap g l = Ok ys ↔ Forall2 (λ x y, g x = Ok y) l ys.
Proof.
  revert ys. induction l as [|x l IH]; intros ys; simpl.
  - split; [intros [= <-]; constructor|by inversion 1].
  - rewrite rbind_Ok. split.
    + intros (y&?&(ys'&Hys&[= <-])%rbind_Ok). constructor; [done|by apply IH].
    + inversion 1 as [|? y ? ys' Hx Hl]; subst. apply IH in Hl. exists y. split; [done|].
      by rewrite Hl.
Qed.
Section state_lemmas.
Context {S E : Type}.

Lemma sbind_Ok {A B} (m : SM S E A) (f : A → SM S E B) s b s' :
  sbind m f s = (Ok b, s') ↔ ∃ a s1, m s = (Ok a, s1) ∧ f a s1 = (Ok b, s').
Proof. unfold sbind. destruct (m s) as [[] ?]; naive_solver. Qed.

Lemma sbind_inv {A B} (m : SM S E A) (f : A → SM S E B) s r s' :
  sbind m f s = (r, s') →
  (∃ a s1, m s = (Ok a, s1) ∧ f a s1 = (r, s')) ∨
  (∃ e, m s = (Err e, s') ∧ r = Err e) ∨ (m s = (Panic, s') ∧ r = Panic).
Proof. unfold sbind. destruct (m s) as [[] ?]; naive_solver. Qed.

Lemma sbind_run {A B} (m : SM S E A) (f : A → SM S E B) s a s' :
  m s = (Ok a, s') → sbind m f s = f a s'.
Proof. unfold sbind. by intros ->. Qed.
Lemma sbind_run_Err {A B} (m : SM S E A) (f : A → SM S E B) s e s' :
  m s = (Err e, s') → sbind m f s = (Err e, s').
Proof. unfold sbind. by intros ->. Qed.

(** Invariants of a call that returns (with a value or an error), composed through [sbind]
    and [sfor].  A call that panics leaves no state to speak of. *)
Definition preserves {A} (P : S → Prop) (m : SM S E A) : Prop :=
  ∀ s r s', m s = (r, s') → r ≠ Panic → P s → P s'.

Lemma preserves_sret {A} P (a : A) : preserves P (sret a).
Proof. by intros s r s' [= <- <-]. Qed.
Lemma preserves_sthrow {A} P e : preserves P (sthrow e : SM S E A).
Proof. by intros s r s' [= <- <-]. Qed.
Lemma preserves_spanic {A} P : preserves P (spanic : SM S E A).
Proof. by intros s r s' [= <- <-]. Qed.
Lemma preserves_slift {A} P (m : Result E A) : preserves P (slift m).
Proof. by intros s r s' [= <- <-]. Qed.
Lemma preserves_smodify P g : (∀ s, P s → P (g s)) → preserves P (smodify g).
Proof. intros Hg s r s' [= <- <-] _. apply Hg. Qed.
Lemma preserves_sbind {A B} P (m : SM S E A) (f : A → SM S E B) :
  preserves P m → (∀ a, preserves P (f a)) → preserves P (sbind m f).
Proof.
  intros Hm Hf s r s' [(a&s1&H1&H2)|[(e&H1&->)|[H1 ->]]]%sbind_inv Hr Hs; [|by eapply Hm|done].
  eapply Hf; [done..|]. by eapply Hm.
Qed.
Lemma preserves_sfor {A} P (l : list A) (body : A → SM S E unit) :
  (∀ a, preserves P (body a)) → preserves P (sfor l body).
Proof.
  intros Hb. induction l as [|x l IH]; simpl; [apply preserves_sret|].
  by apply preserves_sbind.
Qed.
(** Specifications of a call: from a state in [P] it returns a value and a state in [Q], or
    stops, with an error or a panic, in a state in [R]. *)
Definition triple {A} (P : S → Prop) (m : SM S E A) (Q : A → S → Prop) (R : S → Prop) : Prop :=
  ∀ s, P s → match m s with (Ok a, s') => Q a s' | (_, s') => R s' end.

Lemma triple_sret {A} (a : A) (P R : S → Prop) (Q : A → S → Prop) :
  (∀ s, P s → Q a s) → triple P (sret a) Q R.
Proof. intros HQ s Hs. by apply HQ. Qed.
Lemma triple_sbind {A B} (m : SM S E A) (f : A → SM S E B) P Q Q' R :
  triple P m Q' R → (∀ a, triple (Q' a) (f a) Q R) → triple P (sbind m f) Q R.
Proof.
  intros Hm Hf s Hs. specialize (Hm s Hs). unfold sbind.
  destruct (m s) as [[a|e|] s1]; [|done..]. by apply Hf.
Qed.
Lemma triple_conseq {A} (m : SM S E A) (P P' : S → Prop) (Q Q' : A → S → Prop) (R : S → Prop) :
  (∀ s, P s → P' s) → (∀ a s, Q' a s → Q a s) → triple P' m Q' R → triple P m Q R.
Proof.
  intros HP HQ Hm s Hs. specialize (Hm s (HP s Hs)).
  destruct (m s) as [[a|e|] s1]; [by apply HQ|done..].
Qed.
(** A loop over a list, with an invariant on the elements still to come. *)
Lemma triple_sfor {A} (P : list A → S → Prop) (R : S → Prop) (l : list A)
    (body : A → SM S E unit) :
  (∀ x l, triple (P (x :: l)) (body x) (λ _, P l) R) → triple (P l) (sfor l body) (λ _, P []) R.
Proof.
  intros Hb. induction l as [|x l IH]; simpl; [by apply triple_sret|].
  eapply triple_sbind; [apply Hb|]. intros a. apply IH.
Qed.
End state_lemmas.

Section hash_order_lemmas.
Context {order : HashOrder} {K : Type} `{Countable K} {V : Type}.
Implicit Types m : gmap K V.

Lemma elem_of_hm_iter m k v : (k, v) ∈ hm_iter m ↔ m !! k = Some v.
Proof. by rewrite hm_iter_perm, elem_of_map_to_list. Qed.

Lemma hm_iter_NoDup m : NoDup (hm_iter m).*1.
Proof. rewrite hm_iter_perm. apply NoDup_fst_map_to_list. Qed.

Lemma hm_iter_length m : length (hm_iter m) = size m.
Proof. by rewrite hm_iter_perm, length_map_to_list. Qed.

Lemma hm_iter_nil m : hm_iter m = [] ↔ m = ∅.
Proof.
  rewrite <- (map_size_empty_iff m), <- hm_iter_length. symmetry. apply length_zero_iff_nil.
Qed.
End hash_order_lemmas.

Lemma elem_of_hs_iter {order : HashOrder} {K} `{Countable K} (s : gset K) x :
  x ∈ hs_iter s ↔ x ∈ s.
Proof.
  unfold hs_iter. change (map fst) with (fmap (M := list) (@fst K unit)).
  rewrite list_elem_of_fmap. split.
  - intros ([y []]&->&Hy%elem_of_hm_iter). by apply lookup_gset_to_gmap_Some in Hy as [? _].
  - intros Hx. exists (x, ()). split; [done|]. apply elem_of_hm_iter.
    by apply lookup_gset_to_gmap_Some.
Qed.

Section sort_lemmas.
Context {A : Type} (key : A → Z).

Lemma sorted_insert_perm x l : sorted_insert key x l ≡ₚ x :: l.
Proof.
  induction l as [|y l IH]; simpl; [done|]. destruct (key x <=? key y)%Z; [done|].
  rewrite IH. apply Permutation_swap.
Qed.
Lemma sort_by_key_perm l : sort_by_key key l ≡ₚ l.
Proof. induction l as [|x l IH]; simpl; [done|]. by rewrite sorted_insert_perm, IH. Qed.

Lemma sorted_insert_sorted x l :
  StronglySorted (λ a b, key a ≤ key b)%Z l →
  StronglySorted (λ a b, key a ≤ key b)%Z (sorted_insert key x l).
Proof.
  induction 1 as [|y l Hl IH Hy]; simpl; [by repeat constructor|].
  destruct (Z.leb_spec (key x) (key y)).
  - constructor; [by constructor|]. constructor; [done|].
    eapply Forall_impl; [exact Hy|]. simpl. lia.
  - constructor; [done|]. rewrite sorted_insert_perm. constructor; [lia|done].
Qed.
Lemma sort_by_key_sorted l : StronglySorted (λ a b, key a ≤ key b)%Z (sort_by_key key l).
Proof. induction l; simpl; [constructor|by apply sorted_insert_sorted]. Qed.

(** A list with distinct keys has one sorted arrangement. *)
Lemma sorted_unique l1 l2 :
  StronglySorted (λ a b, key a ≤ key b)%Z l1 → StronglySorted (λ a b, key a ≤ key b)%Z l2 →
  NoDup (map key l1) → l1 ≡ₚ l2 → l1 = l2.
Proof.
  revert l2. induction l1 as [|x l1 IH]; intros l2 Hs1 Hs2 Hnd Hp.
  { by apply Permutation_nil in Hp. }
  destruct l2 as [|y l2]; [by apply symmetry, Permutation_nil in Hp|].
  apply StronglySorted_inv in Hs1 as [Hs1 Hx]. apply StronglySorted_inv in Hs2 as [Hs2 Hy].
  simpl in Hnd. apply NoDup_cons in Hnd as [Hni Hnd].
  assert (x = y) as ->.
  { assert (x ∈ y :: l2) as [?|Hin]%elem_of_cons by (rewrite <- Hp; by left); [done|].
    assert (y ∈ x :: l1) as [?|Hin']%elem_of_cons by (rewrite Hp; by left); [done|].
    rewrite Forall_forall in Hx, Hy. specialize (Hx _ Hin'). specialize (Hy _ Hin).
    exfalso. apply Hni. apply list_elem_of_fmap. exists y. split; [lia|done]. }
  f_equal. apply IH; [done..|]. by apply Permutation_cons_inv in Hp.
Qed.

Lemma sort_by_key_snoc l x :
  Forall (λ y, key y ≤ key x)%Z l → NoDup (map key (l ++ [x])) →
  sort_by_key key (l ++ [x]) = sort_by_key key l ++ [x].
Proof.
  intros Hle Hnd. apply sorted_unique.
  - apply sort_by_key_sorted.
  - pose proof (sort_by_key_sorted l) as Hs. rewrite <- (sort_by_key_perm l) in Hle.
    induction Hs as [|y l' Hs IH Hy]; simpl; [by repeat constructor|].
    apply Forall_cons in Hle as [??]. constructor; [by apply IH|].
    apply Forall_app. split; [done|]. by constructor.
  - change (map key) with (fmap (M := list) key) in *. by rewrite sort_by_key_perm.
  - by rewrite !sort_by_key_perm.
Qed.
End sort_lemmas.

Section min_by_lemmas.
Context {A : Type} (lt : A → A → bool).

Lemma min_by_from_elem b l : min_by_from lt b l = b ∨ min_by_from lt b l ∈ l.
Proof.
  revert b. induction l as [|x l IH]; intros b; simpl; [by left|].
  destruct (IH (if lt x b then x else b)) as [->|?]; [|by right; right].
  destruct (lt x b); [right; left|by left].
Qed.

Lemma min_by_elem l x : min_by lt l = Some x → x ∈ l.
Proof.
  destruct l as [|y l]; [done|]. intros [= <-].
  destruct (min_by_from_elem y l) as [->|?]; [left|by right].
Qed.

Lemma min_by_None l : min_by lt l = None ↔ l = [].
Proof. by destruct l. Qed.

(** When [lt] comes from a key, the result has a least key. *)
Lemma min_by_from_least (key : A → Z) b l :
  (∀ x y, lt x y = true ↔ (key x < key y)%Z) →
  (key (min_by_from lt b l) ≤ key b)%Z ∧
  Forall (λ y, (key (min_by_from lt b l) ≤ key y)%Z) l.
Proof.
  intros Hlt. revert b. induction l as [|x l IH]; intros b; simpl; [by split|].
  destruct (IH (if lt x b then x else b)) as [H1 H2].
  specialize (Hlt x b). destruct (lt x b).
  - assert (key x < key b)%Z by (by apply Hlt). split; [lia|]. constructor; [lia|done].
  - assert (¬ (key x < key b)%Z) by (rewrite <- Hlt; done).
    split; [done|]. constructor; [lia|done].
Qed.

Lemma min_by_least (key : A → Z) l x :
  (∀ x y, lt x y = true ↔ (key x < key y)%Z) →
  min_by lt l = Some x → Forall (λ y, (key x ≤ key y)%Z) l.
Proof.
  intros Hlt. destruct l as [|y l]; [done|]. intros [= <-].
  destruct (min_by_from_least key y l Hlt). by constructor.
Qed.
End min_by_lemmas.

Section map_sum_lemmas.
Context {K : Type} `{Countable K} {V : Type} (f : V → Z).
Implicit Types m : gmap K V.

Lemma map_sum_empty : map_sum f (∅ : gmap K V) = 0%Z.
Proof. apply map_fold_empty. Qed.

Lemma map_sum_insert m k v :
  m !! k = None → map_sum f (<[k:=v]> m) = (f v + map_sum f m)%Z.
Proof.
  intros Hk. unfold map_sum. rewrite (map_fold_insert_L _ _ k v m); [done|intros; lia|done].
Qed.

Lemma map_sum_delete m k v :
  m !! k = Some v → map_sum f m = (f v + map_sum f (delete k m))%Z.
Proof.
  intros Hk. rewrite <- (map_sum_insert _ k) by apply lookup_delete_eq.
  by rewrite insert_delete_id.
Qed.

Lemma map_sum_insert_any m k v :
  map_sum f (<[k:=v]> m) = (f v + map_sum f (delete k m))%Z.
Proof. rewrite <- insert_delete_eq. apply map_sum_insert, lookup_delete_eq. Qed.

Lemma map_sum_nonneg m : (∀ k v, m !! k = Some v → (0 ≤ f v)%Z) → (0 ≤ map_sum f m)%Z.
Proof.
  induction m as [|k v m Hk IH] using map_ind; intros Hf; [by rewrite map_sum_empty|].
  rewrite map_sum_insert by done.
  assert (0 ≤ f v)%Z by (apply (Hf k v); by simplify_map_eq).
  assert (0 ≤ map_sum f m)%Z; [|lia].
  apply IH. intros k' v' Hk'. apply (Hf k' v'). rewrite lookup_insert_ne; [done|congruence].
Qed.

Lemma map_sum_lookup_le m k v :
  (∀ k v, m !! k = Some v → (0 ≤ f v)%Z) → m !! k = Some v → (f v ≤ map_sum f m)%Z.
Proof.
  intros Hf Hk. rewrite (map_sum_delete m k v Hk).
  assert (0 ≤ map_sum f (delete k m))%Z; [|lia].
  apply map_sum_nonneg. intros k' v'. rewrite lookup_delete_Some. intros [_ ?]. eauto.
Qed.

Lemma map_sum_mono m1 m2 :
  (∀ k v, m2 !! k = Some v → (0 ≤ f v)%Z) → m1 ⊆ m2 → (map_sum f m1 ≤ map_sum f m2)%Z.
Proof.
  revert m2. induction m1 as [|k v m1 Hk IH] using map_ind; intros m2 Hf Hle.
  { rewrite map_sum_empty. by apply map_sum_nonneg. }
  assert (m2 !! k = Some v) as Hk2 by (eapply lookup_weaken, Hle; apply lookup_insert_eq).
  rewrite map_sum_insert, (map_sum_delete m2 k v) by done.
  assert (map_sum f m1 ≤ map_sum f (delete k m2))%Z; [|lia]. apply IH.
  - intros k' v' [_ ?]%lookup_delete_Some. eauto.
  - apply map_subseteq_spec. intros k' v' Hk'. assert (k ≠ k') by (intros ->; congruence).
    rewrite lookup_delete_ne by done. eapply lookup_weaken, Hle. by rewrite lookup_insert_ne.
Qed.
End map_sum_lemmas.

(** ** Automation *)

(** Split a successful chain of [?] into its steps. *)
Ltac inv_ok :=
  repeat match goal with
  | H : Ok _ = Ok _ |- _ => injection H; clear H; intros
  | H : Err _ = Ok _ |- _ => discriminate H
  | H : Panic = Ok _ |- _ => discriminate H
  | H : rbind _ _ = Ok _ |- _ => apply rbind_Ok in H as (?&?&?)
  | H : ok_or _ _ = Ok _ |- _ => apply ok_or_Ok in H
  | H : map_err _ _ = Ok _ |- _ => apply map_err_Ok in H
  | H : (let '(_, _) := ?p in _) = Ok _ |- _ => destruct p as [??]
  end; simplify_eq.

(** Case analysis on the conditions of the code, keeping the equations. *)
Ltac case_if :=
  match goal with
  | |- context [if ?b then _ else _] => destruct b eqn:?
  | H : context [if ?b then _ else _] |- _ => destruct b eqn:?
  end.

Create HintDb bitrst.
#[export] Hint Resolve preserves_sret preserves_sthrow preserves_spanic preserves_slift : bitrst.
