(* ===== verification/Bytes.v ===== *)
(** * Bytes and little-endian integers

    [u8] is [Byte.byte]; the wider integers are [Z], kept in range by the predicates
    below; [to_le_bytes]/[from_le_bytes] are [le_bytes]/[le_val].  [lex_cmp] is
    [Iterator::cmp] on byte iterators. *)

From Stdlib Require Import Strings.Byte.
From stdpp Require Import prelude gmap strings list.
From S2P Require Import Prelude.

Open Scope Z_scope.

#[global] Instance byte_eq_dec : EqDecision byte := Byte.byte_eq_dec.
#[global] Instance byte_inhabited : Inhabited byte := populate x00.
#[global] Program Instance byte_countable : Countable byte :=
  inj_countable Byte.to_N Byte.of_N _.
Next Obligation. intros b. apply Byte.of_to_N. Qed.

(** The value of a byte, and the truncating cast [as u8]. *)
Definition bz (b : byte) : Z := Z.of_N (Byte.to_N b).
Definition zb (z : Z) : byte := default x00 (Byte.of_N (Z.to_N (z mod 256))).

(** Little-endian encoding on [n] bytes, truncating, and its inverse. *)
Fixpoint le_bytes (n : nat) (z : Z) : list byte :=
  match n with
  | O => []
  | S n' => zb z :: le_bytes n' (z / 256)
  end.
Fixpoint le_val (bs : list byte) : Z :=
  match bs with
  | [] => 0
  | b :: bs' => bz b + 256 * le_val bs'
  end.

(** Machine-integer ranges and the two's complement reading of a word. *)
Definition in_u (w z : Z) : Prop := 0 ≤ z < 2 ^ w.
Definition in_i (w z : Z) : Prop := - 2 ^ (w - 1) ≤ z < 2 ^ (w - 1).
Definition signed (w z : Z) : Z := if z <? 2 ^ (w - 1) then z else z - 2 ^ w.

Definition U32_MAX : Z := 2 ^ 32 - 1.
Definition U64_MAX : Z := 2 ^ 64 - 1.

(** [u64::checked_add], [u32::saturating_add], [u32::saturating_sub], [wrapping_add]. *)
Definition u64_checked_add (a b : Z) : option Z :=
  if a + b <=? U64_MAX then Some (a + b) else None.
Definition u64_checked_mul (a b : Z) : option Z :=
  if a * b <=? U64_MAX then Some (a * b) else None.
Definition u64_saturating_add (a b : Z) : Z := Z.min (a + b) U64_MAX.
Definition u64_saturating_sub (a b : Z) : Z := Z.max (a - b) 0.
Definition u64_wrapping_add (a b : Z) : Z := (a + b) mod 2 ^ 64.
Definition u32_saturating_add (a b : Z) : Z := Z.min (a + b) U32_MAX.
Definition u32_saturating_sub (a b : Z) : Z := Z.max (a - b) 0.
Definition u32_saturating_mul (a b : Z) : Z := Z.min (a * b) U32_MAX.
Definition u32_wrapping_add (a b : Z) : Z := (a + b) mod 2 ^ 32.

(** The length of a vector as an integer ([len()]). *)
Definition zlen {A} (l : list A) : Z := Z.of_nat (length l).

(** [Iterator::cmp] on two byte sequences. *)
Fixpoint lex_cmp (xs ys : list byte) : comparison :=
  match xs, ys with
  | [], [] => Eq
  | [], _ :: _ => Lt
  | _ :: _, [] => Gt
  | x :: xs', y :: ys' =>
      match bz x ?= bz y with
      | Eq => lex_cmp xs' ys'
      | c => c
      end
  end.

(** * Lemmas *)

Lemma bz_range b : 0 ≤ bz b < 256.
Proof. unfold bz. pose proof (Byte.to_N_bounded b). lia. Qed.

Lemma bz_zb z : bz (zb z) = z mod 256.
Proof.
  unfold bz, zb. pose proof (Z.mod_pos_bound z 256 ltac:(lia)).
  destruct (Byte.of_N (Z.to_N (z mod 256))) as [b|] eqn:Hb; simpl.
  - apply Byte.to_of_N in Hb. lia.
  - apply Byte.of_N_None_iff in Hb. lia.
Qed.

Lemma zb_bz b : zb (bz b) = b.
Proof.
  unfold zb. rewrite Z.mod_small by apply bz_range. unfold bz.
  by rewrite N2Z.id, Byte.of_to_N.
Qed.

#[global] Instance bz_inj : Inj (=) (=) bz.
Proof. intros b1 b2 Hb. by rewrite <- (zb_bz b1), <- (zb_bz b2), Hb. Qed.

Lemma zb_mod z : zb (z mod 256) = zb z.
Proof. apply (inj bz). rewrite !bz_zb. by rewrite Z.mod_mod. Qed.

Lemma zb_eq a b : a mod 256 = b mod 256 → zb a = zb b.
Proof. intros Hab. by rewrite <- (zb_mod a), Hab, zb_mod. Qed.

Lemma length_le_bytes n z : length (le_bytes n z) = n.
Proof. revert z. induction n; simpl; auto. Qed.

Lemma pow256_succ (n : nat) : 256 ^ Z.of_nat (S n) = 256 * 256 ^ Z.of_nat n.
Proof. rewrite Nat2Z.inj_succ, Z.pow_succ_r by lia. done. Qed.

Lemma pow256_pos (n : nat) : 0 < 256 ^ Z.of_nat n.
Proof. apply Z.pow_pos_nonneg; lia. Qed.

Lemma le_val_bound bs : 0 ≤ le_val bs < 256 ^ zlen bs.
Proof.
  unfold zlen. induction bs as [|b bs IH]; [by simpl|].
  cbn [le_val length]. rewrite pow256_succ. pose proof (bz_range b). nia.
Qed.

Lemma le_val_le_bytes n z : le_val (le_bytes n z) = z mod 256 ^ Z.of_nat n.
Proof.
  revert z. induction n as [|n IH]; intros z; cbn [le_bytes le_val].
  - by rewrite Z.mod_1_r.
  - rewrite bz_zb, IH, pow256_succ.
    rewrite Z.rem_mul_r; [lia|lia|apply pow256_pos].
Qed.

Lemma le_val_le_bytes_small n z :
  0 ≤ z < 256 ^ Z.of_nat n → le_val (le_bytes n z) = z.
Proof. intros ?. rewrite le_val_le_bytes. by apply Z.mod_small. Qed.

Lemma le_bytes_le_val bs : le_bytes (length bs) (le_val bs) = bs.
Proof.
  induction bs as [|b bs IH]; cbn [length le_val le_bytes]; [done|].
  pose proof (bz_range b). f_equal.
  - rewrite <- (zb_bz b) at 2. apply zb_eq.
    rewrite Z.mul_comm, Z_mod_plus_full. done.
  - rewrite Z.mul_comm, Z.div_add, Z.div_small by lia. apply IH.
Qed.

Lemma le_val_inj xs ys : length xs = length ys → le_val xs = le_val ys → xs = ys.
Proof.
  intros Hl Hv. by rewrite <- (le_bytes_le_val xs), <- (le_bytes_le_val ys), Hl, Hv.
Qed.

Lemma le_val_app xs ys : le_val (xs ++ ys) = le_val xs + 256 ^ zlen xs * le_val ys.
Proof.
  unfold zlen. induction xs as [|x xs IH]; cbn [app le_val length].
  - lia.
  - rewrite IH, pow256_succ. lia.
Qed.

Lemma le_val_snoc xs y : le_val (xs ++ [y]) = le_val xs + 256 ^ zlen xs * bz y.
Proof. rewrite le_val_app. simpl. lia. Qed.

Lemma le_val_replicate_0 n : le_val (replicate n x00) = 0.
Proof. induction n as [|n IH]; [done|]. cbn [replicate le_val]. rewrite IH. done. Qed.

Lemma zlen_app {A} (xs ys : list A) : zlen (xs ++ ys) = zlen xs + zlen ys.
Proof. unfold zlen. rewrite length_app. lia. Qed.

Lemma zlen_cons {A} (x : A) xs : zlen (x :: xs) = 1 + zlen xs.
Proof. unfold zlen. cbn [length]. lia. Qed.

Lemma zlen_nonneg {A} (xs : list A) : 0 ≤ zlen xs.
Proof. unfold zlen. lia. Qed.

Lemma zlen_le_bytes n z : zlen (le_bytes n z) = Z.of_nat n.
Proof. unfold zlen. by rewrite length_le_bytes. Qed.

Lemma signed_wrap w z : 0 < w → in_i w z → signed w (z mod 2 ^ w) = z.
Proof.
  unfold in_i, signed. intros Hw Hz.
  assert (2 ^ w = 2 * 2 ^ (w - 1)) as Hp.
  { rewrite <- Z.pow_succ_r by lia. f_equal. lia. }
  destruct (Z.lt_ge_cases z 0).
  - assert (z mod 2 ^ w = z + 2 ^ w) as ->.
    { rewrite <- (Z_mod_plus_full z 1), Z.mul_1_l. apply Z.mod_small. lia. }
    destruct (Z.ltb_spec (z + 2 ^ w) (2 ^ (w - 1))); lia.
  - rewrite Z.mod_small by lia. destruct (Z.ltb_spec z (2 ^ (w - 1))); lia.
Qed.

Lemma signed_range w z : 0 < w → in_u w z → in_i w (signed w z) ∧ signed w z mod 2 ^ w = z.
Proof.
  unfold in_i, in_u, signed. intros Hw Hz.
  assert (2 ^ w = 2 * 2 ^ (w - 1)) as Hp.
  { rewrite <- Z.pow_succ_r by lia. f_equal. lia. }
  destruct (Z.ltb_spec z (2 ^ (w - 1))).
  - rewrite Z.mod_small by lia. lia.
  - split; [lia|]. replace (z - 2 ^ w) with (z + (-1) * 2 ^ w) by lia.
    rewrite Z_mod_plus_full. apply Z.mod_small. lia.
Qed.

(** Comparing reversed byte strings of one length compares the integers. *)
Lemma lex_cmp_snoc_rev xs ys :
  length xs = length ys → lex_cmp (rev xs) (rev ys) = (le_val xs ?= le_val ys).
Proof.
  revert ys. induction xs as [|x xs IH] using rev_ind; intros ys Hl.
  - by destruct ys.
  - destruct ys as [|y ys _] using rev_ind; [rewrite length_app in Hl; simpl in Hl; lia|].
    rewrite !length_app in Hl. simpl in Hl. assert (length xs = length ys) as Hl' by lia.
    rewrite !rev_app_distr. simpl. rewrite (IH ys Hl'), !le_val_snoc.
    pose proof (le_val_bound xs). pose proof (le_val_bound ys).
    assert (zlen xs = zlen ys) as Hz by (unfold zlen; lia).
    rewrite Hz in *. set (P := 256 ^ zlen ys) in *.
    destruct (Z.compare_spec (bz x) (bz y)) as [Hb|Hb|Hb]; symmetry.
    + rewrite Hb. apply Zplus_compare_mono_r || (destruct (Z.compare_spec (le_val xs) (le_val ys));
        [apply Z.compare_eq_iff|apply Z.compare_lt_iff|apply Z.compare_gt_iff]; lia).
    + apply Z.compare_lt_iff. nia.
    + apply Z.compare_gt_iff. nia.
Qed.

Lemma lex_cmp_eq xs ys : lex_cmp xs ys = Eq ↔ xs = ys.
Proof.
  split; [|intros ->; induction ys as [|y ys IH]; simpl; [done|by rewrite Z.compare_refl]].
  revert ys. induction xs as [|x xs IH]; intros [|y ys]; simpl; try done.
  destruct (Z.compare_spec (bz x) (bz y)) as [Hb|Hb|Hb]; try done.
  intros Hc. f_equal; [by apply (inj bz)|by apply IH].
Qed.

Lemma le_bytes_S n z : le_bytes (S n) z = zb z :: le_bytes n (z / 256).
Proof. done. Qed.

#[global] Arguments le_bytes : simpl never.

(** ** Strings

    A Rust [String] is its bytes; [utf8_valid] is the check of [String::from_utf8]. *)

(** The bytes of a string literal. *)
Definition str (s : string) : list byte := String.list_byte_of_string s.

Definition in_bytes (lo hi : Z) (b : byte) : bool := (lo <=? bz b) && (bz b <=? hi).
Definition utf8_cont (b : byte) : bool := in_bytes 0x80 0xbf b.
(** The second byte allowed after a first byte of a three- or four-byte sequence. *)
Definition utf8_second3 (b0 b1 : byte) : bool :=
  if bz b0 =? 0xe0 then in_bytes 0xa0 0xbf b1
  else if bz b0 =? 0xed then in_bytes 0x80 0x9f b1
  else in_bytes 0xe1 0xef b0 && utf8_cont b1.
Definition utf8_second4 (b0 b1 : byte) : bool :=
  if bz b0 =? 0xf0 then in_bytes 0x90 0xbf b1
  else if bz b0 =? 0xf4 then in_bytes 0x80 0x8f b1
  else in_bytes 0xf1 0xf3 b0 && utf8_cont b1.
Fixpoint utf8_valid (bs : list byte) : bool :=
  match bs with
  | [] => true
  | b0 :: bs1 =>
      if bz b0 <? 0x80 then utf8_valid bs1
      else
        match bs1 with
        | [] => false
        | b1 :: bs2 =>
            if in_bytes 0xc2 0xdf b0 then utf8_cont b1 && utf8_valid bs2
            else
              match bs2 with
              | [] => false
              | b2 :: bs3 =>
                  if in_bytes 0xe0 0xef b0
                  then utf8_second3 b0 b1 && utf8_cont b2 && utf8_valid bs3
                  else
                    match bs3 with
                    | [] => false
                    | b3 :: bs4 =>
                        in_bytes 0xf0 0xf4 b0 && utf8_second4 b0 b1 && utf8_cont b2 &&
                        utf8_cont b3 && utf8_valid bs4
                    end
              end
        end
  end.

Lemma utf8_valid_ascii bs : Forall (λ b, bz b < 0x80) bs → utf8_valid bs = true.
Proof. induction 1 as [|b bs Hb _ IH]; [done|]. simpl. by rewrite (proj2 (Z.ltb_lt _ _) Hb). Qed.
