(* ===== verification/Testing.v ===== *)
(** * Unit tests

    The unit tests of the crates are run on the model: a test of src/ is a definition with
    the statements of the test function, in which a failed assertion, [expect] or index is
    [Panic], and it passes when it returns.  Tests that depend on the digests of the real
    SHA-256, on sockets, threads or allocation limits are left out. *)

From stdpp Require Import prelude list.
From Stdlib Require Import Strings.Byte.
From S2P Require Import Prelude Bytes.

Local Open Scope Z_scope.

Section testing.
Context {F : Type}.

Definition expect {E A} (r : Result E A) : Result F A :=
  match r with Ok a => Ok a | _ => Panic end.
Definition expect_some {A} (o : option A) : Result F A :=
  match o with Some a => Ok a | None => Panic end.
Definition expect_err {E A} (r : Result E A) : Result F E :=
  match r with Err e => Ok e | _ => Panic end.
Definition assert (b : bool) : Result F unit := if b then Ok () else Panic.
Definition assert_eq {A} `{EqDecision A} (x y : A) : Result F unit := assert (bool_decide (x = y)).
(** [for x in xs] around the assertions of a test. *)
Fixpoint for_each {A} (xs : list A) (body : A → Result F unit) : Result F unit :=
  match xs with [] => Ok () | x :: xs => rbind (body x) (λ _, for_each xs body) end.

Lemma expect_Ok {E A} (r : Result E A) a : expect r = Ok a → r = Ok a.
Proof. by destruct r; intros [= ->]. Qed.
Lemma expect_some_Ok {A} (o : option A) a : expect_some o = Ok a → o = Some a.
Proof. by destruct o; intros [= ->]. Qed.
End testing.

Definition is_err {E A} (r : Result E A) : bool := if r is Err _ then true else false.
Definition is_none {A} (o : option A) : bool := if o is None then true else false.

(** A test, and a suite that passes. *)
Definition Test : Type := Result unit unit.
Definition passed (t : Test) : bool := if t is Ok _ then true else false.
Definition all_pass (tests : list Test) : Prop := forallb passed tests = true.

Definition bytes_of (bs : list Z) : list byte := map zb bs.
(** [[0u8; 32]] with some bytes changed. *)
Definition zeros_with (updates : list (nat * Z)) : list byte :=
  foldl (λ bs '(i, b), <[i := zb b]> bs) (replicate 32 x00) updates.
