(* ===== verification/Crypto.v ===== *)
(** * The bitrst-crypto crate

    [sha256d], [hash160], Base58Check and the ECDSA wrappers of
    [crates/bitrst-crypto/src/].  The crates it wraps (sha2, ripemd, secp256k1, bs58) are
    the parameters [CryptoLib]; what the code relies on is [CryptoLaws]. *)

From stdpp Require Import prelude strings list.
From Stdlib Require Import Strings.Byte.
From S2P Require Import Prelude Bytes.

(** The third-party primitives. *)
Class CryptoLib := {
  Sha256_digest : list byte → list byte;
  Ripemd160_digest : list byte → list byte;
  Signature : Type;
  PublicKey : Type;
  SecretKey : Type;
  Signature_from_der : list byte → option Signature;
  Signature_serialize_der : Signature → list byte;
  PublicKey_from_slice : list byte → option PublicKey;
  PublicKey_serialize : PublicKey → list byte;
  PublicKey_from_secret_key : SecretKey → PublicKey;
  SecretKey_from_slice : list byte → option SecretKey;
  verify_ecdsa : list byte → Signature → PublicKey → bool;
  sign_ecdsa : list byte → SecretKey → Signature;
  bs58_encode : list byte → string;
  bs58_decode : string → option (list byte)
}.

(** Documented behaviour of those crates. *)
Class CryptoLaws (crypto : CryptoLib) : Prop := {
  Sha256_length : ∀ m, length (Sha256_digest m) = 32%nat;
  Ripemd160_length : ∀ m, length (Ripemd160_digest m) = 20%nat;
  der_roundtrip : ∀ s, Signature_from_der (Signature_serialize_der s) = Some s;
  der_length : ∀ msg sk, (8 ≤ length (Signature_serialize_der (sign_ecdsa msg sk)) ≤ 72)%nat;
  pubkey_roundtrip : ∀ pk, PublicKey_from_slice (PublicKey_serialize pk) = Some pk;
  pubkey_length : ∀ pk, length (PublicKey_serialize pk) = 33%nat;
  verify_sign : ∀ msg sk,
    verify_ecdsa msg (sign_ecdsa msg sk) (PublicKey_from_secret_key sk) = true;
  bs58_roundtrip : ∀ bs, bs58_decode (bs58_encode bs) = Some bs
}.

Section crypto.
Context {crypto : CryptoLib}.

(** sha256d.rs *)
Definition sha256d (data : list byte) : list byte :=
  let first := Sha256_digest data in
  let second := Sha256_digest first in
  second.

(** hash160.rs *)
Definition hash160 (data : list byte) : list byte :=
  let sha := Sha256_digest data in
  let ripemd := Ripemd160_digest sha in
  ripemd.

(** base58.rs *)
Inductive Base58Error := InvalidCharacter | InvalidLength | InvalidChecksum.

Definition checksum (data : list byte) : list byte := take 4 (sha256d data).

Definition encode_check (version : byte) (payload : list byte) : string :=
  let data := version :: payload in
  let data := data ++ checksum data in
  bs58_encode data.

Definition decode_check (s : string) : Result Base58Error (byte * list byte) :=
  let? data := ok_or (bs58_decode s) InvalidCharacter in
  if (length data <? 5)%nat then Err InvalidLength
  else
    let body := take (length data - 4) data in
    let got_checksum := drop (length data - 4) data in
    if negb (bool_decide (checksum body = got_checksum)) then Err InvalidChecksum
    else match body with
         | [] => Panic
         | version :: payload => Ok (version, payload)
         end.

(** ecdsa.rs *)
Inductive EcdsaVerifyError := InvalidPublicKey | InvalidSignature | VerificationFailed.

Definition verify_der_signature (signature_with_hashtype pubkey_bytes sighash : list byte)
    : Result EcdsaVerifyError unit :=
  if (length signature_with_hashtype <? 2)%nat then Err InvalidSignature
  else
    let der := take (length signature_with_hashtype - 1) signature_with_hashtype in
    let? signature := ok_or (Signature_from_der der) InvalidSignature in
    let? pubkey := ok_or (PublicKey_from_slice pubkey_bytes) InvalidPublicKey in
    if verify_ecdsa sighash signature pubkey then Ok () else Err VerificationFailed.

Definition sign_der_with_hashtype (secret_key : SecretKey) (sighash : list byte)
    (sighash_type : byte) : list byte :=
  let signature := sign_ecdsa sighash secret_key in
  Signature_serialize_der signature ++ [sighash_type].

(** ** Lemmas *)
Context {laws : CryptoLaws crypto}.

Lemma length_sha256d m : length (sha256d m) = 32%nat.
Proof. apply Sha256_length. Qed.

Lemma length_hash160 m : length (hash160 m) = 20%nat.
Proof. apply Ripemd160_length. Qed.

Lemma length_checksum m : length (checksum m) = 4%nat.
Proof. unfold checksum. rewrite length_take, length_sha256d. done. Qed.

Lemma verify_sign_der sk msg ty :
  verify_der_signature (sign_der_with_hashtype sk msg ty)
    (PublicKey_serialize (PublicKey_from_secret_key sk)) msg = Ok ().
Proof.
  unfold verify_der_signature, sign_der_with_hashtype.
  pose proof (der_length msg sk) as Hl. rewrite length_app. simpl length.
  destruct (Nat.ltb_spec (length (Signature_serialize_der (sign_ecdsa msg sk)) + 1) 2); [lia|].
  rewrite Nat.add_sub, take_app_length.
  by rewrite der_roundtrip, pubkey_roundtrip; simpl; rewrite verify_sign.
Qed.

(** What an accepted signature means, whatever bytes were supplied. *)
Lemma verify_der_signature_Ok sig pk msg :
  verify_der_signature sig pk msg = Ok () ↔
  (2 ≤ length sig)%nat ∧
  ∃ s p, Signature_from_der (take (length sig - 1) sig) = Some s ∧
         PublicKey_from_slice pk = Some p ∧ verify_ecdsa msg s p = true.
Proof.
  unfold verify_der_signature.
  destruct (Nat.ltb_spec (length sig) 2) as [Hs|Hs]; [split; [done|lia]|].
  destruct (Signature_from_der _) as [s|]; simpl; [|by split; [|intros (_&?&?&?&_)]].
  destruct (PublicKey_from_slice pk) as [p|]; simpl; [|by split; [|intros (_&?&?&_&?&_)]].
  destruct (verify_ecdsa msg s p) eqn:Hv; split; try done.
  - intros _. split; [done|]. by exists s, p.
  - intros (_&s'&p'&[= <-]&[= <-]&Hv'). congruence.
Qed.
End crypto.

(** ** A concrete instance, for the examples

    Not cryptographic: a 32-bit polynomial hash and additive "signatures", enough for every
    law to hold, and cheap enough for the kernel to run the examples without a virtual
    machine. *)
Definition toy_hash (n : nat) (m : list byte) : list byte :=
  le_bytes n (foldl (λ acc b, Z.land (acc * 33 + bz b + 1) 0xffffffff) 7 m).

(** The first [n] bytes, with zeros after the end. *)
Fixpoint vec_of_bytes (n : nat) (bs : list byte) : vec byte n :=
  match n with O => [#] | S n => default x00 (head bs) ::: vec_of_bytes n (tail bs) end.
Lemma vec_of_bytes_list n bs : length bs = n → vec_to_list (vec_of_bytes n bs) = bs.
Proof.
  revert bs. induction n as [|n IH]; intros [|b bs] Hl; [done..|]. injection Hl as Hl.
  simpl. by rewrite IH.
Qed.

Definition toy_crypto : CryptoLib := {|
  Sha256_digest := toy_hash 32;
  Ripemd160_digest := toy_hash 20;
  Signature := list byte;
  PublicKey := vec byte 33;
  SecretKey := Z;
  Signature_from_der := Some;
  Signature_serialize_der := λ s, s;
  PublicKey_from_slice := λ bs,
    if decide (length bs = 33%nat) then Some (vec_of_bytes 33 bs) else None;
  PublicKey_serialize := vec_to_list;
  PublicKey_from_secret_key := λ sk, vec_of_bytes 33 (le_bytes 33 sk);
  SecretKey_from_slice := λ bs, if le_val bs =? 0 then None else Some (le_val bs);
  verify_ecdsa := λ msg s pk,
    bool_decide (s = le_bytes 32 (le_val msg + le_val (vec_to_list pk)));
  sign_ecdsa := λ msg sk, le_bytes 32 (le_val msg + sk);
  bs58_encode := String.string_of_list_byte;
  bs58_decode := λ s, Some (String.list_byte_of_string s)
|}.

Lemma le_bytes_cong n a b :
  a mod 256 ^ Z.of_nat n = b mod 256 ^ Z.of_nat n → le_bytes n a = le_bytes n b.
Proof.
  intros Hab. apply le_val_inj; [by rewrite !length_le_bytes|]. by rewrite !le_val_le_bytes.
Qed.

Lemma toy_verify_sign (msg : list byte) (sk : Z) :
  le_bytes 32 (le_val msg + sk) = le_bytes 32 (le_val msg + sk mod 256 ^ 33).
Proof.
  apply le_bytes_cong. rewrite (Zplus_mod _ sk), (Zplus_mod _ (sk mod 256 ^ 33)).
  do 2 f_equal. symmetry. apply Z.mod_mod_divide. by exists 256.
Qed.

Lemma toy_verify msg sk :
  @verify_ecdsa toy_crypto msg (@sign_ecdsa toy_crypto msg sk)
    (@PublicKey_from_secret_key toy_crypto sk) = true.
Proof.
  cbn -[vec_of_bytes]. apply bool_decide_eq_true.
  rewrite vec_of_bytes_list by apply length_le_bytes. rewrite le_val_le_bytes. apply toy_verify_sign.
Qed.

Lemma toy_pubkey_roundtrip (pk : vec byte 33) :
  @PublicKey_from_slice toy_crypto (vec_to_list pk) = Some pk.
Proof.
  cbn -[vec_of_bytes]. rewrite decide_True by apply length_vec_to_list.
  f_equal. apply vec_to_list_inj2. apply vec_of_bytes_list, length_vec_to_list.
Qed.

#[global] Instance toy_laws : CryptoLaws toy_crypto.
Proof.
  split.
  - intros m. apply length_le_bytes.
  - intros m. apply length_le_bytes.
  - done.
  - intros msg sk. cbn [Signature_serialize_der sign_ecdsa toy_crypto].
    rewrite length_le_bytes. lia.
  - apply toy_pubkey_roundtrip.
  - intros pk. apply length_vec_to_list.
  - intros msg sk. apply toy_verify.
  - intros bs. cbn [bs58_encode bs58_decode toy_crypto]. by rewrite String.list_byte_of_string_of_list_byte.
Qed.
