(* ===== verification/U256.v ===== *)
(** * 256-bit little-endian integers (bitrst-core/src/uint256.rs)

    A [[u8; 32]] is a list of 32 bytes, least significant first.  The loops over indices
    are structural recursions over the arrays they walk.  [u8] additions wrap, as in a
    release build ([sub_u256_le] relies on one that can overflow: see [sub_safe]). *)

From stdpp Require Import prelude list.
From Stdlib Require Import Strings.Byte.
From S2P Require Import Prelude Bytes.

(** ** Definitions *)

Definition zero32 : list byte := replicate 32 x00.

Definition cmp_le (left right : list byte) : comparison := lex_cmp (rev left) (rev right).

Fixpoint add_u256_loop (value : list byte) (carry : Z) : option (list byte) :=
  match value with
  | [] => if carry =? 0 then Some [] else None
  | byte :: rest =>
      match u64_checked_add (bz byte) carry with
      | None => None
      | Some sum =>
          let carry' := Z.shiftr sum 8 in
          if carry' =? 0 then Some (zb sum :: rest)
          else match add_u256_loop rest carry' with
               | None => None
               | Some rest' => Some (zb sum :: rest')
               end
      end
  end.
Definition add_u256_le (value : list byte) (addend : Z) : option (list byte) :=
  add_u256_loop value addend.

Definition not_u256_le (value : list byte) : list byte :=
  map (λ b, zb (Z.lxor (bz b) 255)) value.

Fixpoint shl_one_loop (value : list byte) (carry : Z) : list byte :=
  match value with
  | [] => []
  | byte :: rest =>
      zb (Z.lor (Z.shiftl (bz byte) 1) carry) :: shl_one_loop rest (Z.shiftr (bz byte) 7)
  end.
Definition shl_one_u256_le (value : list byte) : list byte := shl_one_loop value 0.

(** [left[i].overflowing_sub(right[i] + borrow)]: the inner addition is on [u8]. *)
Fixpoint sub_u256_loop (left right : list byte) (borrow : Z) : list byte * Z :=
  match left, right with
  | l :: ls, r :: rs =>
      let subtrahend := (bz r + borrow) mod 256 in
      let borrowed := bz l <? subtrahend in
      let '(out, last) := sub_u256_loop ls rs (if borrowed then 1 else 0) in
      (zb (bz l - subtrahend) :: out, last)
  | _, _ => ([], borrow)
  end.
Definition sub_u256_le (left right : list byte) : option (list byte) :=
  let '(out, borrow) := sub_u256_loop left right 0 in
  if negb (borrow =? 0) then None else Some out.

Definition bit_is_set (value : list byte) (bit : nat) : bool :=
  negb (Z.land (bz (value !!! (bit / 8)%nat)) (Z.shiftl 1 (Z.of_nat (bit mod 8))) =? 0).
Definition set_bit (value : list byte) (bit : nat) : list byte :=
  <[(bit / 8)%nat :=
      zb (Z.lor (bz (value !!! (bit / 8)%nat)) (Z.shiftl 1 (Z.of_nat (bit mod 8))))]> value.

(** [remainder[0] |= 1]. *)
Definition set_low_bit (value : list byte) : list byte :=
  match value with [] => [] | b :: rest => zb (Z.lor (bz b) 1) :: rest end.

(** The body of the division loop for one bit, and the loop over [(0..n).rev()]. *)
Definition div_step (dividend divisor : list byte) (bit : nat)
    (st : list byte * list byte) : option (list byte * list byte) :=
  let '(quotient, remainder) := st in
  let remainder := shl_one_u256_le remainder in
  let remainder := if bit_is_set dividend bit then set_low_bit remainder else remainder in
  match cmp_le divisor remainder with
  | Gt => Some (quotient, remainder)
  | _ => match sub_u256_le remainder divisor with
         | None => None
         | Some remainder' => Some (set_bit quotient bit, remainder')
         end
  end.
Fixpoint div_loop (dividend divisor : list byte) (n : nat)
    (st : list byte * list byte) : option (list byte * list byte) :=
  match n with
  | O => Some st
  | S bit => match div_step dividend divisor bit st with
             | None => None
             | Some st' => div_loop dividend divisor bit st'
             end
  end.
Definition div_u256_le (dividend divisor : list byte) : option (list byte) :=
  if bool_decide (divisor = zero32) then None
  else match cmp_le dividend divisor with
       | Lt => Some zero32
       | _ => match div_loop dividend divisor 256 (zero32, zero32) with
              | None => None
              | Some (quotient, _) => Some quotient
              end
       end.

Definition work_from_target (threshold : list byte) : option (list byte) :=
  if bool_decide (threshold = zero32) then None
  else match add_u256_le threshold 1 with
       | None => None
       | Some target_plus_one =>
           match div_u256_le (not_u256_le threshold) target_plus_one with
           | None => None
           | Some quotient => add_u256_le quotient 1
           end
       end.

(** The subtraction never adds a borrow to a byte that is already [0xff]. *)
Fixpoint sub_safe (left right : list byte) (borrow : Z) : bool :=
  match left, right with
  | l :: ls, r :: rs =>
      negb ((bz r =? 255) && (borrow =? 1)) &&
      sub_safe ls rs (if bz l <? bz r + borrow then 1 else 0)
  | _, _ => true
  end.

(** ** Lemmas *)

Lemma le_val_zero32 : le_val zero32 = 0.
Proof. apply le_val_replicate_0. Qed.

Lemma length_zero32 : length zero32 = 32%nat.
Proof. apply length_replicate. Qed.

Lemma cmp_le_spec left right :
  length left = length right → cmp_le left right = (le_val left ?= le_val right).
Proof. apply lex_cmp_snoc_rev. Qed.

Lemma le_val_zero_iff (v : list byte) : le_val v = 0 ↔ v = replicate (length v) x00.
Proof.
  split; [|intros ->; apply le_val_replicate_0].
  intros Hv. apply le_val_inj; [by rewrite length_replicate|].
  by rewrite Hv, le_val_replicate_0.
Qed.

(** Addition. *)
Lemma add_u256_loop_spec v c :
  0 ≤ c → c + 255 ≤ U64_MAX →
  add_u256_loop v c =
    if decide (le_val v + c < 256 ^ zlen v) then Some (le_bytes (length v) (le_val v + c))
    else None.
Proof.
  unfold U64_MAX, zlen. revert c. induction v as [|b v IH]; intros c Hc Hc'.
  - simpl. destruct (Z.eqb_spec c 0); case_decide; by try lia.
  - cbn [add_u256_loop le_val length]. pose proof (bz_range b).
    unfold u64_checked_add, U64_MAX.
    destruct (Z.leb_spec (bz b + c) (2 ^ 64 - 1)); [|lia].
    rewrite Z.shiftr_div_pow2 by lia. change (2 ^ 8) with 256.
    pose proof (le_val_bound v) as Hv. unfold zlen in Hv. rewrite pow256_succ.
    assert (bz b + 256 * le_val v + c = (bz b + c) mod 256 + 256 * (le_val v + (bz b + c) / 256))
      as Hsplit by (pose proof (Z.div_mod (bz b + c) 256); lia).
    assert (0 ≤ (bz b + c) mod 256 < 256) by (apply Z.mod_pos_bound; lia).
    assert (0 ≤ (bz b + c) / 256) by (apply Z.div_pos; lia).
    assert ((bz b + c) / 256 ≤ bz b + c) by (apply Z.div_le_upper_bound; lia).
    assert (le_bytes (S (length v)) (bz b + 256 * le_val v + c) =
            zb (bz b + c) :: le_bytes (length v) (le_val v + (bz b + c) / 256)) as Hbytes.
    { rewrite le_bytes_S. f_equal.
      - apply zb_eq. rewrite Hsplit, (Z.mul_comm 256), Z_mod_plus_full, Z.mod_mod; lia.
      - f_equal. rewrite Hsplit, (Z.mul_comm 256), Z.div_add, Z.div_small; lia. }
    destruct (Z.eqb_spec ((bz b + c) / 256) 0) as [Hz|Hz].
    + rewrite decide_True by lia. rewrite Hbytes, Hz, Z.add_0_r, le_bytes_le_val. done.
    + assert ((bz b + c) / 256 < 2 ^ 64 - 256) by (apply Z.div_lt_upper_bound; lia).
      rewrite IH by lia.
      destruct (decide (le_val v + (bz b + c) / 256 < 256 ^ Z.of_nat (length v)));
        [rewrite decide_True by lia; by rewrite Hbytes|by rewrite decide_False by lia].
Qed.

Lemma add_u256_spec v c :
  length v = 32%nat → 0 ≤ c → c + 255 ≤ U64_MAX →
  add_u256_le v c =
    if decide (le_val v + c < 2 ^ 256) then Some (le_bytes 32 (le_val v + c)) else None.
Proof.
  intros Hl ??. unfold add_u256_le. rewrite add_u256_loop_spec by done.
  unfold zlen. rewrite Hl. change (256 ^ Z.of_nat 32) with (2 ^ 256). done.
Qed.

(** Negation. *)
Lemma lxor_255 z : 0 ≤ z < 256 → Z.lxor z 255 = 255 - z.
Proof.
  intros Hz. change 255 with (Z.ones 8). apply Z.bits_inj'. intros n Hn.
  rewrite Z.lxor_spec.
  destruct (Z.lt_ge_cases n 8).
  - rewrite Z.ones_spec_low by lia. rewrite xorb_true_r.
    replace (Z.ones 8 - z) with (Z.lnot z mod 2 ^ 8)
      by (unfold Z.lnot; symmetry; apply (Z.mod_unique _ _ (-1)); change (Z.ones 8) with 255;
          change (2 ^ 8) with 256; lia).
    rewrite Z.mod_pow2_bits_low by lia. by rewrite Z.lnot_spec by lia.
  - rewrite Z.ones_spec_high by lia. rewrite xorb_false_r.
    assert (∀ y, 0 ≤ y < 256 → Z.testbit y n = false) as Hhigh.
    { intros y Hy. rewrite <- (Z.mod_small y (2 ^ 8)) by (change (2 ^ 8) with 256; lia).
      apply Z.mod_pow2_bits_high. lia. }
    rewrite !Hhigh; [done|change (Z.ones 8) with 255; lia|lia].
Qed.

Lemma not_u256_spec v : not_u256_le v = le_bytes (length v) (256 ^ zlen v - 1 - le_val v).
Proof.
  unfold zlen. induction v as [|b v IH]; [done|].
  cbn [not_u256_le map le_val length]. rewrite pow256_succ.
  pose proof (bz_range b). rewrite le_bytes_S. f_equal.
  - rewrite lxor_255 by done. apply zb_eq.
    apply (Z.mod_unique _ _ (256 ^ Z.of_nat (length v) - 1 - le_val v)); [|];
      rewrite ?Z.mod_small; lia.
  - fold (not_u256_le v). rewrite IH. f_equal.
    apply (Z.div_unique _ _ _ (255 - bz b)); lia.
Qed.

(** Shift. *)
Lemma lor_shl_bit b c : c = 0 ∨ c = 1 → Z.lor (Z.shiftl (bz b) 1) c = 2 * bz b + c.
Proof. intros [->| ->]; destruct b; reflexivity. Qed.

Lemma shr7 b : Z.shiftr (bz b) 7 = 2 * bz b / 256 ∧ (Z.shiftr (bz b) 7 = 0 ∨ Z.shiftr (bz b) 7 = 1).
Proof. destruct b; vm_compute; auto. Qed.

Lemma shl_one_loop_spec v c :
  c = 0 ∨ c = 1 → shl_one_loop v c = le_bytes (length v) (2 * le_val v + c).
Proof.
  revert c. induction v as [|b v IH]; intros c Hc; [done|].
  cbn [shl_one_loop le_val length]. rewrite le_bytes_S. destruct (shr7 b) as [H7 H7'].
  pose proof (bz_range b). rewrite lor_shl_bit by done. f_equal.
  - apply zb_eq. rewrite (Z.mul_comm 2 (_ + _)), Z.mul_add_distr_r.
    replace (bz b * 2 + 256 * le_val v * 2 + c) with (2 * bz b + c + 2 * le_val v * 256) by lia.
    by rewrite Z_mod_plus_full.
  - rewrite IH by done. f_equal. rewrite H7.
    replace (2 * (bz b + 256 * le_val v) + c) with (2 * bz b + c + 2 * le_val v * 256) by lia.
    rewrite Z.div_add by lia.
    assert ((2 * bz b + c) / 256 = 2 * bz b / 256) as ->; [|lia].
    pose proof (Z.div_mod (2 * bz b) 256 ltac:(lia)) as Hd.
    pose proof (Z.mod_pos_bound (2 * bz b) 256 ltac:(lia)).
    assert ((2 * bz b) mod 256 ≠ 255).
    { intros Hm. rewrite Hm in Hd. lia. }
    symmetry. apply (Z.div_unique _ _ _ ((2 * bz b) mod 256 + c)); lia.
Qed.

Lemma shl_one_spec v : shl_one_u256_le v = le_bytes (length v) (2 * le_val v).
Proof. unfold shl_one_u256_le. rewrite shl_one_loop_spec by auto. by rewrite Z.add_0_r. Qed.

Lemma set_low_bit_spec n x :
  set_low_bit (le_bytes (S n) (2 * x)) = le_bytes (S n) (2 * x + 1).
Proof.
  rewrite !le_bytes_S. cbn [set_low_bit].
  assert ((2 * x) mod 2 = 0) as He by (rewrite Z.mul_comm; apply Z_mod_mult).
  rewrite bz_zb. pose proof (Z.div_mod (2 * x) 256 ltac:(lia)) as Hd.
  pose proof (Z.mod_pos_bound (2 * x) 256 ltac:(lia)).
  assert ((2 * x) mod 256 = 2 * (x mod 128)) as Hm.
  { change 256 with (2 * 128). apply Z.mul_mod_distr_l; lia. }
  pose proof (Z.mod_pos_bound x 128 ltac:(lia)).
  assert (Z.lor ((2 * x) mod 256) 1 = (2 * x) mod 256 + 1) as ->.
  { rewrite Hm. assert (∃ b, bz b = x mod 128) as [b Hb].
    { exists (zb (x mod 128)). rewrite bz_zb. apply Z.mod_small. lia. }
    rewrite <- Hb. destruct b; reflexivity. }
  f_equal.
  - apply zb_eq. rewrite Z.add_mod_idemp_l by lia. done.
  - f_equal. apply (Z.div_unique _ _ _ ((2 * x) mod 256 + 1)); lia.
Qed.

(** Subtraction. *)
Lemma sub_u256_loop_spec l r b out last :
  length l = length r → b = 0 ∨ b = 1 → sub_safe l r b = true →
  sub_u256_loop l r b = (out, last) →
  length out = length l ∧ (last = 0 ∨ last = 1) ∧
  le_val out = le_val l - le_val r - b + 256 ^ zlen l * last.
Proof.
  unfold zlen. revert r b out last.
  induction l as [|x l IH]; intros [|y r] b out last Hl Hb; try done.
  { intros _ [= <- <-]. simpl. lia. }
  cbn [sub_safe sub_u256_loop length] in *. intros [Hsafe Hrest]%andb_true_iff.
  pose proof (bz_range x). pose proof (bz_range y).
  assert (bz y + b < 256) as Hs.
  { apply negb_true_iff, andb_false_iff in Hsafe as [?%Z.eqb_neq|?%Z.eqb_neq]; lia. }
  rewrite (Z.mod_small (bz y + b)) by lia.
  destruct (sub_u256_loop l r (if bz x <? bz y + b then 1 else 0)) as [out' last'] eqn:Hloop.
  intros [= <- <-].
  apply IH in Hloop as (Hlo&Hla&Hv); [|lia|case_if; auto|done].
  split; [simpl; lia|]. split; [done|].
  cbn [le_val]. rewrite Hv, bz_zb, pow256_succ.
  destruct (Z.ltb_spec (bz x) (bz y + b)).
  - assert ((bz x - (bz y + b)) mod 256 = bz x - (bz y + b) + 256) as ->.
    { symmetry. apply (Z.mod_unique _ _ (-1)); lia. }
    lia.
  - rewrite (Z.mod_small (bz x - _)) by lia. lia.
Qed.

Lemma sub_u256_spec l r :
  length l = 32%nat → length r = 32%nat → sub_safe l r 0 = true → le_val r ≤ le_val l →
  sub_u256_le l r = Some (le_bytes 32 (le_val l - le_val r)).
Proof.
  intros Hl Hr Hsafe Hle. unfold sub_u256_le.
  destruct (sub_u256_loop l r 0) as [out last] eqn:Hloop.
  apply sub_u256_loop_spec in Hloop as (Hlo&Hla&Hv); [|lia|auto|done].
  pose proof (le_val_bound out) as Hbo. pose proof (le_val_bound l). pose proof (le_val_bound r).
  unfold zlen in *. rewrite Hlo, Hl in *.
  assert (last = 0) as -> by lia. cbn [negb Z.eqb]. f_equal.
  rewrite <- (le_bytes_le_val out). rewrite Hlo, Hv. f_equal. lia.
Qed.

(** No borrow meets a [0xff] byte when each prefix below such a byte subtracts without
    borrowing. *)
Lemma sub_safe_intro l r b :
  length l = length r → b = 0 ∨ b = 1 →
  (∀ k, (k < length l)%nat → bz (r !!! k) = 255 →
        le_val (take k r) + b ≤ le_val (take k l)) →
  sub_safe l r b = true.
Proof.
  revert r b. induction l as [|x l IH]; intros [|y r] b Hl Hb Hk; try done.
  cbn [sub_safe]. pose proof (bz_range x). pose proof (bz_range y). apply andb_true_iff. split.
  - apply negb_true_iff, andb_false_iff.
    destruct (Z.eqb_spec (bz y) 255) as [Hy|]; [right|by left].
    specialize (Hk 0%nat ltac:(simpl; lia) Hy). simpl in Hk. apply Z.eqb_neq. lia.
  - apply IH; [by injection Hl|case_if; auto|]. intros k Hkl H255.
    specialize (Hk (S k) ltac:(simpl; lia) H255). cbn [take le_val] in Hk.
    destruct (Z.ltb_spec (bz x) (bz y + b)); lia.
Qed.

(** Bits. *)
Lemma le_val_byte v k : le_val v / 256 ^ Z.of_nat k mod 256 = bz (v !!! k).
Proof.
  revert k. induction v as [|b v IH]; intros k.
  - simpl. rewrite Z.div_0_l by (pose proof (pow256_pos k); lia). by destruct k.
  - destruct k as [|k]; cbn [le_val].
    + change (256 ^ Z.of_nat 0) with 1. rewrite Z.div_1_r, Z.mul_comm, Z_mod_plus_full.
      apply Z.mod_small, bz_range.
    + pose proof (bz_range b). pose proof (pow256_pos k).
      rewrite pow256_succ, <- Z.div_div by lia.
      rewrite Z.mul_comm, Z.div_add, (Z.div_small (bz b)) by lia. apply IH.
Qed.

Lemma land_pow2_nonzero x j : 0 ≤ j → negb (Z.land x (Z.shiftl 1 j) =? 0) = Z.testbit x j.
Proof.
  intros Hj. rewrite Z.shiftl_1_l.
  assert (Z.land x (2 ^ j) = if Z.testbit x j then 2 ^ j else 0) as ->.
  { apply Z.bits_inj'. intros n Hn. rewrite Z.land_spec, Z.pow2_bits_eqb by done.
    destruct (Z.eqb_spec j n) as [->|Hne].
    - destruct (Z.testbit x n); [by rewrite Z.pow2_bits_true|by rewrite Z.bits_0].
    - rewrite andb_false_r. destruct (Z.testbit x j); [by rewrite Z.pow2_bits_false|].
      by rewrite Z.bits_0. }
  pose proof (Z.pow_pos_nonneg 2 j ltac:(lia) Hj).
  destruct (Z.testbit x j); [destruct (Z.eqb_spec (2 ^ j) 0); [lia|done]|done].
Qed.

Lemma testbit_split v (bit : nat) :
  Z.testbit (le_val v) (Z.of_nat bit) =
  Z.testbit (bz (v !!! (bit / 8)%nat)) (Z.of_nat (bit mod 8)).
Proof.
  rewrite <- le_val_byte. change 256 with (2 ^ 8) at 2.
  rewrite Z.mod_pow2_bits_low by (pose proof (Nat.mod_upper_bound bit 8); lia).
  change 256 with (2 ^ 8). rewrite <- Z.pow_mul_r, Z.div_pow2_bits by lia.
  f_equal. pose proof (Nat.div_mod_eq bit 8). lia.
Qed.

Lemma bit_is_set_spec v bit : bit_is_set v bit = Z.testbit (le_val v) (Z.of_nat bit).
Proof. unfold bit_is_set. rewrite land_pow2_nonzero by lia. by rewrite testbit_split. Qed.

Lemma le_val_insert v k b :
  (k < length v)%nat →
  le_val (<[k:=b]> v) = le_val v + 256 ^ Z.of_nat k * (bz b - bz (v !!! k)).
Proof.
  revert k. induction v as [|x v IH]; intros k Hk; simpl in Hk; [lia|].
  destruct k as [|k].
  - change (256 ^ Z.of_nat 0) with 1. cbn -[Z.mul]. lia.
  - pose proof (IH k ltac:(lia)) as IHk.
    change (<[S k:=b]> (x :: v)) with (x :: <[k:=b]> v).
    change ((x :: v) !!! S k) with (v !!! k). cbn [le_val]. rewrite IHk, pow256_succ. lia.
Qed.

Lemma lor_pow2_add x j : 0 ≤ j → Z.testbit x j = false → Z.lor x (2 ^ j) = x + 2 ^ j.
Proof.
  intros Hj Hx. rewrite <- Z.lxor_lor, Z.add_nocarry_lxor; try done;
    apply Z.bits_inj'; intros n Hn; rewrite Z.land_spec, Z.pow2_bits_eqb, Z.bits_0 by done;
    destruct (Z.eqb_spec j n) as [->|]; by rewrite ?Hx, ?andb_false_r.
Qed.

Lemma set_bit_spec v bit :
  (bit < 8 * length v)%nat → bit_is_set v bit = false →
  set_bit v bit = le_bytes (length v) (le_val v + 2 ^ Z.of_nat bit).
Proof.
  intros Hb Hclear. rewrite bit_is_set_spec, testbit_split in Hclear.
  assert (bit / 8 < length v)%nat by (apply Nat.Div0.div_lt_upper_bound; lia).
  set (k := (bit / 8)%nat) in *. set (j := (bit mod 8)%nat) in *.
  assert (bit = 8 * k + j)%nat as Hbit by apply Nat.div_mod_eq.
  assert (j < 8)%nat by (apply Nat.mod_upper_bound; lia).
  apply le_val_inj; [unfold set_bit; by rewrite length_insert, length_le_bytes|].
  assert (le_val (set_bit v bit) = le_val v + 2 ^ Z.of_nat bit) as Hv.
  { unfold set_bit. fold k j. rewrite le_val_insert by done.
    rewrite Z.shiftl_1_l, lor_pow2_add by (done || lia). rewrite bz_zb, Z.mod_small.
    - rewrite Hbit, Nat2Z.inj_add, Nat2Z.inj_mul, Z.pow_add_r, Z.pow_mul_r by lia.
      change (2 ^ Z.of_nat 8) with 256. lia.
    - pose proof (bz_range (v !!! k)) as Hr. split; [pose proof (Z.pow_pos_nonneg 2 (Z.of_nat j)); lia|].
      rewrite <- lor_pow2_add by (done || lia).
      assert (0 ≤ Z.lor (bz (v !!! k)) (2 ^ Z.of_nat j)) by (apply Z.lor_nonneg; lia).
      destruct (Z.eq_dec (Z.lor (bz (v !!! k)) (2 ^ Z.of_nat j)) 0); [lia|].
      change 256 with (2 ^ 8). apply Z.log2_lt_pow2; [lia|].
      rewrite Z.log2_lor, Z.log2_pow2 by lia. apply Z.max_lub_lt; [|lia].
      destruct (Z.eq_dec (bz (v !!! k)) 0) as [->|]; [done|].
      apply Z.log2_lt_pow2; change (2 ^ 8) with 256; lia. }
  rewrite Hv, le_val_le_bytes. symmetry. apply Z.mod_small. rewrite <- Hv.
  pose proof (le_val_bound (set_bit v bit)) as Hbd.
  unfold zlen, set_bit in Hbd. rewrite length_insert in Hbd. apply Hbd.
Qed.

(** Division. *)

(** The remainder before the subtraction of step [n]. *)
Definition div_partial (N D : Z) (n : nat) : Z :=
  N / 2 ^ Z.of_nat n - 2 * (D * (N / 2 ^ Z.of_nat (S n) / D)).

(** Every subtraction of the division of [N] by [divisor] is [sub_safe]. *)
Definition div_safe (N : Z) (divisor : list byte) : Prop :=
  ∀ n, (n < 256)%nat → le_val divisor ≤ div_partial N (le_val divisor) n →
       sub_safe (le_bytes 32 (div_partial N (le_val divisor) n)) divisor 0 = true.

Lemma pow2_succ (n : nat) : 2 ^ Z.of_nat (S n) = 2 * 2 ^ Z.of_nat n.
Proof. rewrite Nat2Z.inj_succ, Z.pow_succ_r by lia. done. Qed.

Lemma pow2_pos (n : nat) : 0 < 2 ^ Z.of_nat n.
Proof. apply Z.pow_pos_nonneg; lia. Qed.

Lemma halve N (n : nat) :
  N / 2 ^ Z.of_nat n =
  2 * (N / 2 ^ Z.of_nat (S n)) + (if Z.testbit N (Z.of_nat n) then 1 else 0).
Proof.
  rewrite pow2_succ, (Z.mul_comm 2 (2 ^ _)), <- Z.div_div by (pose proof (pow2_pos n); lia).
  rewrite <- (Z.shiftr_div_pow2 N) by lia.
  pose proof (Z.div_mod (Z.shiftr N (Z.of_nat n)) 2 ltac:(lia)) as Hd.
  assert (Z.shiftr N (Z.of_nat n) mod 2 = if Z.testbit N (Z.of_nat n) then 1 else 0) as Hm.
  { rewrite <- Z.bit0_mod, Z.shiftr_spec, Z.add_0_l by lia. done. }
  lia.
Qed.

(** The quotient and remainder registers after the bits [n..255] have been processed. *)
Definition div_inv (N D : Z) (n : nat) (st : list byte * list byte) : Prop :=
  st.1 = le_bytes 32 (2 ^ Z.of_nat n * (N / 2 ^ Z.of_nat n / D)) ∧
  st.2 = le_bytes 32 (N / 2 ^ Z.of_nat n mod D).

Section division.
Context (dividend divisor : list byte).
Context (Hlen1 : length dividend = 32%nat) (Hlen2 : length divisor = 32%nat).
Abbreviation N := (le_val dividend).
Abbreviation D := (le_val divisor).
Context (HD : 0 < D) (Hsafe : div_safe N divisor).

Lemma N_bound : 0 ≤ N < 256 ^ Z.of_nat 32.
Proof. pose proof (le_val_bound dividend) as H. unfold zlen in H. by rewrite Hlen1 in H. Qed.

Lemma shifted_bound n : 0 ≤ N / 2 ^ Z.of_nat n ≤ N.
Proof.
  pose proof N_bound. pose proof (pow2_pos n). split.
  - apply Z.div_pos; lia.
  - apply Z.div_le_upper_bound; nia.
Qed.

Lemma div_partial_eq n :
  div_partial N D n =
  2 * (N / 2 ^ Z.of_nat (S n) mod D) + (if Z.testbit N (Z.of_nat n) then 1 else 0).
Proof.
  unfold div_partial. rewrite (halve N n).
  pose proof (Z.div_mod (N / 2 ^ Z.of_nat (S n)) D ltac:(lia)). lia.
Qed.

Lemma div_partial_bound n : 0 ≤ div_partial N D n < 256 ^ Z.of_nat 32.
Proof.
  pose proof (shifted_bound n). pose proof (shifted_bound (S n)). pose proof N_bound.
  rewrite div_partial_eq.
  pose proof (Z.mod_pos_bound (N / 2 ^ Z.of_nat (S n)) D HD).
  pose proof (Z.mod_le (N / 2 ^ Z.of_nat (S n)) D ltac:(lia) HD).
  pose proof (halve N n). case_if; lia.
Qed.

Lemma quotient_step n :
  N / 2 ^ Z.of_nat n / D =
    2 * (N / 2 ^ Z.of_nat (S n) / D) + (if D <=? div_partial N D n then 1 else 0) ∧
  N / 2 ^ Z.of_nat n mod D =
    div_partial N D n - (if D <=? div_partial N D n then D else 0).
Proof.
  pose proof (div_partial_bound n) as Hp. pose proof (div_partial_eq n) as He.
  pose proof (Z.mod_pos_bound (N / 2 ^ Z.of_nat (S n)) D HD).
  assert (N / 2 ^ Z.of_nat n = D * (2 * (N / 2 ^ Z.of_nat (S n) / D)) + div_partial N D n) as Hd
    by (unfold div_partial; lia).
  split.
  - symmetry. apply (Z.div_unique_pos _ _ _
      (div_partial N D n - (if D <=? div_partial N D n then D else 0)));
    destruct (Z.leb_spec D (div_partial N D n)), (Z.testbit N (Z.of_nat n)); lia.
  - symmetry. apply (Z.mod_unique_pos _ _
      (2 * (N / 2 ^ Z.of_nat (S n) / D) + (if D <=? div_partial N D n then 1 else 0)));
    destruct (Z.leb_spec D (div_partial N D n)), (Z.testbit N (Z.of_nat n)); lia.
Qed.

Lemma quotient_bound n : 0 ≤ 2 ^ Z.of_nat n * (N / 2 ^ Z.of_nat n / D) ≤ N.
Proof.
  pose proof (shifted_bound n). pose proof (pow2_pos n). pose proof N_bound.
  assert (0 ≤ N / 2 ^ Z.of_nat n / D) by (apply Z.div_pos; lia).
  assert (N / 2 ^ Z.of_nat n / D ≤ N / 2 ^ Z.of_nat n) by (apply Z.div_le_upper_bound; nia).
  assert (2 ^ Z.of_nat n * (N / 2 ^ Z.of_nat n) ≤ N) by (apply Z.mul_div_le; lia). nia.
Qed.

Lemma div_step_spec n st :
  (n < 256)%nat → div_inv N D (S n) st →
  ∃ st', div_step dividend divisor n st = Some st' ∧ div_inv N D n st'.
Proof.
  intros Hn. destruct st as [Q R]. intros [HQ HR]. cbn [fst snd] in *.
  pose proof (div_partial_bound n) as Hp. pose proof (div_partial_eq n) as He.
  destruct (quotient_step n) as [Hq Hr].
  pose proof (quotient_bound (S n)) as Hqb. pose proof N_bound as HNb.
  pose proof (shifted_bound (S n)) as Hsb.
  pose proof (Z.mod_pos_bound (N / 2 ^ Z.of_nat (S n)) D HD).
  pose proof (Z.mod_le (N / 2 ^ Z.of_nat (S n)) D ltac:(lia) HD).
  assert (le_val R = N / 2 ^ Z.of_nat (S n) mod D) as HRv.
  { rewrite HR. apply le_val_le_bytes_small. lia. }
  assert ((if bit_is_set dividend n then set_low_bit (shl_one_u256_le R)
           else shl_one_u256_le R) = le_bytes 32 (div_partial N D n)) as HR'.
  { rewrite bit_is_set_spec, shl_one_spec, HRv, He. rewrite HR, length_le_bytes.
    destruct (Z.testbit N (Z.of_nat n)); [apply (set_low_bit_spec 31)|by rewrite Z.add_0_r]. }
  unfold div_step. rewrite HR'.
  rewrite cmp_le_spec by (by rewrite length_le_bytes).
  rewrite le_val_le_bytes_small by lia.
  assert (div_inv N D n (set_bit Q n, le_bytes 32 (div_partial N D n - D)) ∨
          div_partial N D n < D) as Hset.
  { destruct (Z.leb_spec D (div_partial N D n)); [left|by right]. split; cbn [fst snd].
    - rewrite HQ, set_bit_spec; rewrite ?length_le_bytes; [|lia|].
      + f_equal. rewrite le_val_le_bytes_small by lia. rewrite Hq, pow2_succ. lia.
      + rewrite bit_is_set_spec, le_val_le_bytes_small by lia.
        rewrite (Z.mul_comm (2 ^ _)), Z.mul_pow2_bits_low by lia. done.
    - by rewrite Hr. }
  assert (∀ (T : Prop), (D ≤ div_partial N D n → T) → (div_partial N D n < D → T) → T) as Hcase
    by (intros T; destruct (Z.le_gt_cases D (div_partial N D n)); auto).
  destruct (Z.compare_spec D (div_partial N D n)) as [Hc|Hc|Hc].
  1, 2: rewrite sub_u256_spec, le_val_le_bytes_small;
    [|lia|by rewrite length_le_bytes|done|apply Hsafe; [done|lia]
     |rewrite le_val_le_bytes_small; lia];
    destruct Hset as [Hset|]; [eauto|lia].
  eexists. split; [done|]. split; cbn [fst snd].
  - rewrite HQ, Hq, pow2_succ. f_equal. destruct (Z.leb_spec D (div_partial N D n)); lia.
  - rewrite Hr. f_equal. destruct (Z.leb_spec D (div_partial N D n)); lia.
Qed.

Lemma div_loop_spec n st :
  (n ≤ 256)%nat → div_inv N D n st →
  ∃ st', div_loop dividend divisor n st = Some st' ∧ div_inv N D 0 st'.
Proof.
  revert st. induction n as [|n IH]; intros st Hn Hst; cbn [div_loop]; [eauto|].
  destruct (div_step_spec n st) as (st'&->&Hst'); [lia|done|]. apply IH; [lia|done].
Qed.

(** The long division computes the floor of the quotient when no borrow overflows. *)
Lemma div_u256_spec : div_u256_le dividend divisor = Some (le_bytes 32 (N / D)).
Proof.
  pose proof N_bound as HNb. change (256 ^ Z.of_nat 32) with (2 ^ Z.of_nat 256) in HNb.
  unfold div_u256_le. rewrite bool_decide_eq_false_2
    by (intros Heq; rewrite Heq, le_val_zero32 in HD; lia).
  rewrite cmp_le_spec by congruence.
  destruct (div_loop_spec 256 (zero32, zero32)) as ([Q R]&Hloop&[HQ _]); [done| |].
  { split; cbn [fst snd]; rewrite (Z.div_small N) by done.
    - by rewrite Z.div_0_l by lia.
    - by rewrite Z.mod_0_l by lia. }
  rewrite Hloop. cbn [fst] in HQ. rewrite Z.pow_0_r, Z.mul_1_l, Z.div_1_r in HQ.
  destruct (Z.compare_spec N D) as [Hc|Hc|Hc]; [by rewrite HQ| |by rewrite HQ].
  rewrite (Z.div_small N D) by lia. done.
Qed.
End division.

(** A divisor without a [0xff] byte never triggers the overflow. *)
Lemma div_safe_no_ff N divisor :
  length divisor = 32%nat → Forall (λ b, bz b ≠ 255) divisor → div_safe N divisor.
Proof.
  intros Hl Hff n _ _. apply sub_safe_intro; [by rewrite length_le_bytes|auto|].
  rewrite length_le_bytes. intros k Hk Hb. exfalso.
  rewrite Forall_lookup in Hff.
  destruct (lookup_lt_is_Some_2 divisor k ltac:(lia)) as [b Hkb].
  apply list_lookup_total_correct in Hkb as Hbk. rewrite Hbk in Hb. by apply (Hff k b).
Qed.

(** Core's identity: [~T / (T + 1) + 1 = 2^256 / (T + 1)]. *)
Lemma block_proof_identity T :
  0 ≤ T < 2 ^ 256 → (2 ^ 256 - 1 - T) / (T + 1) + 1 = 2 ^ 256 / (T + 1).
Proof.
  intros HT. replace (2 ^ 256) with (2 ^ 256 - 1 - T + 1 * (T + 1)) at 2 by lia.
  rewrite Z.div_add by lia. done.
Qed.

Lemma work_from_target_spec threshold :
  length threshold = 32%nat → 0 < le_val threshold < 2 ^ 256 - 1 →
  div_safe (2 ^ 256 - 1 - le_val threshold) (le_bytes 32 (le_val threshold + 1)) →
  work_from_target threshold = Some (le_bytes 32 (2 ^ 256 / (le_val threshold + 1))).
Proof.
  intros Hl HT Hsafe. unfold work_from_target.
  rewrite bool_decide_eq_false_2 by (intros Heq; rewrite Heq, le_val_zero32 in HT; lia).
  rewrite add_u256_spec by (done || unfold U64_MAX; lia).
  rewrite decide_True by lia. rewrite not_u256_spec. unfold zlen. rewrite Hl.
  change (256 ^ Z.of_nat 32) with (2 ^ 256).
  assert (∀ z, 0 ≤ z < 2 ^ 256 → le_val (le_bytes 32 z) = z) as Hv
    by (intros z Hz; by apply le_val_le_bytes_small).
  rewrite div_u256_spec; rewrite ?length_le_bytes, ?Hv by lia; [|done|done|lia|done].
  rewrite <- block_proof_identity by lia.
  assert (0 ≤ (2 ^ 256 - 1 - le_val threshold) / (le_val threshold + 1)) by (apply Z.div_pos; lia).
  assert ((2 ^ 256 - 1 - le_val threshold) / (le_val threshold + 1) < 2 ^ 256 - 1)
    by (apply Z.div_lt_upper_bound; lia).
  rewrite add_u256_spec; rewrite ?length_le_bytes, ?Hv by lia;
    [|done|lia|unfold U64_MAX; lia].
  by rewrite decide_True by lia.
Qed.
