(* ===== verification/Pow.v ===== *)
(** * Proof-of-work targets (bitrst-core/src/pow.rs) and per-block work

    [Target] wraps a 32-byte little-endian threshold; [from_bits] and [to_bits] convert
    from and to the compact [bits] of a header; [to_work] is Core's [GetBlockProof]. *)

From stdpp Require Import prelude list.
From Stdlib Require Import Strings.Byte.
From S2P Require Import Prelude Bytes U256.

(** ** Definitions *)

Record Target := { threshold : list byte }.

Definition from_threshold (t : list byte) : Target := {| threshold := t |}.

(** [dst[off..off + src.len()].copy_from_slice(src)]. *)
Definition copy_at (dst : list byte) (off : nat) (src : list byte) : list byte :=
  take off dst ++ src ++ drop (off + length src) dst.

Definition from_bits (bits : Z) : option Target :=
  let exponent := Z.to_nat (Z.shiftr bits 24) in
  let mantissa := Z.land bits 0x7fffff in
  if (mantissa =? 0) || negb (Z.land bits 0x800000 =? 0) then None
  else if (exponent <=? 3)%nat then
    let value := Z.shiftr mantissa (8 * (3 - Z.of_nat exponent)) in
    Some {| threshold := copy_at zero32 0 (take 3 (le_bytes 4 value)) |}
  else
    let offset := (exponent - 3)%nat in
    if (32 <? offset + 3)%nat then None
    else Some {| threshold := copy_at zero32 offset (take 3 (le_bytes 4 mantissa)) |}.

Definition easy : Target := {| threshold := replicate 32 xff |}.

Definition compare_internal_hash (left right : list byte) : comparison :=
  lex_cmp (rev left) (rev right).

Definition meets (t : Target) (hash : list byte) : bool :=
  match compare_internal_hash hash (threshold t) with Gt => false | _ => true end.

Definition to_work (t : Target) : option (list byte) := work_from_target (threshold t).

(** The loop over [(0..n).rev()]. *)
Fixpoint significant_size_loop (t : list byte) (n : nat) : option nat :=
  match n with
  | O => None
  | S index => if negb (bz (t !!! index) =? 0) then Some (S index)
               else significant_size_loop t index
  end.
Definition significant_size (t : list byte) : option nat := significant_size_loop t 32.

(** [for index in 0..size { value |= threshold[index] << (8 * index) }]. *)
Definition low_value (t : list byte) (size : nat) : Z :=
  foldl (λ value index, Z.lor value (Z.shiftl (bz (t !!! index)) (8 * Z.of_nat index)))
    0 (seq 0 size).

Definition to_bits (t : Target) : option Z :=
  match significant_size (threshold t) with
  | None => None
  | Some size =>
      let mantissa :=
        if (size <=? 3)%nat then
          Z.shiftl (low_value (threshold t) size) (8 * (3 - Z.of_nat size)) mod 2 ^ 32
        else
          let offset := (size - 3)%nat in
          Z.lor (Z.lor (bz (threshold t !!! offset))
                       (Z.shiftl (bz (threshold t !!! (offset + 1)%nat)) 8))
                (Z.shiftl (bz (threshold t !!! (offset + 2)%nat)) 16) in
      let '(mantissa, size) :=
        if negb (Z.land mantissa 0x800000 =? 0) then (Z.shiftr mantissa 8, Z.of_nat size + 1)
        else (mantissa, Z.of_nat size) in
      if 0x7fffff <? mantissa then None
      else Some (Z.lor (Z.shiftl size 24) mantissa)
  end.

(** The number a valid compact field denotes. *)
Definition compact_value (bits : Z) : Z :=
  let e := bits / 2 ^ 24 in
  let m := bits mod 2 ^ 23 in
  if e <=? 3 then m / 256 ^ (3 - e) else m * 256 ^ (e - 3).

(** ** Lemmas *)

Lemma land_7fffff b : Z.land b 0x7fffff = b mod 2 ^ 23.
Proof. change 0x7fffff with (Z.ones 23). by rewrite Z.land_ones. Qed.

Lemma land_800000 b : negb (Z.land b 0x800000 =? 0) = Z.testbit b 23.
Proof. change 0x800000 with (Z.shiftl 1 23). by apply land_pow2_nonzero. Qed.

Lemma length_copy_at dst off src :
  (off + length src ≤ length dst)%nat → length (copy_at dst off src) = length dst.
Proof. intros H. unfold copy_at. rewrite !length_app, length_take, length_drop. lia. Qed.

Lemma le_val_copy_at_zero n off src :
  (off + length src ≤ n)%nat →
  le_val (copy_at (replicate n x00) off src) = 256 ^ Z.of_nat off * le_val src.
Proof.
  intros H. unfold copy_at. rewrite take_replicate, drop_replicate, !le_val_app.
  rewrite !le_val_replicate_0. unfold zlen. rewrite length_replicate.
  replace (off `min` n)%nat with off by lia. lia.
Qed.

Lemma take_le_bytes k n z : (k ≤ n)%nat → take k (le_bytes n z) = le_bytes k z.
Proof.
  revert n z. induction k as [|k IH]; intros [|n] z H; try done; [lia|].
  rewrite !le_bytes_S. cbn [take]. rewrite IH by lia. done.
Qed.

Lemma testbit23 b : 0 ≤ b → Z.testbit b 23 = false → b mod 2 ^ 24 = b mod 2 ^ 23.
Proof.
  intros Hb Ht. apply Z.bits_inj'. intros n Hn.
  destruct (Z.lt_ge_cases n 23); [by rewrite !Z.mod_pow2_bits_low by lia|].
  rewrite (Z.mod_pow2_bits_high b 23) by lia.
  destruct (Z.eq_dec n 23) as [->|]; [by rewrite Z.mod_pow2_bits_low by lia|].
  by rewrite Z.mod_pow2_bits_high by lia.
Qed.

Lemma le_bytes3_mantissa m : 0 ≤ m < 2 ^ 24 → le_val (take 3 (le_bytes 4 m)) = m.
Proof.
  intros Hm. rewrite take_le_bytes by lia. apply le_val_le_bytes_small.
  change (256 ^ Z.of_nat 3) with (2 ^ 24). lia.
Qed.

(** What [from_bits] accepts and the number it decodes to. *)
Lemma from_bits_spec bits t :
  in_u 32 bits → from_bits bits = Some t →
  length (threshold t) = 32%nat ∧ le_val (threshold t) = compact_value bits ∧
  bits / 2 ^ 24 ≤ 32 ∧ 0 < bits mod 2 ^ 23 ∧ bits mod 2 ^ 24 < 2 ^ 23.
Proof.
  intros Hb. unfold from_bits, compact_value, in_u in *.
  rewrite land_7fffff, land_800000, Z.shiftr_div_pow2 by lia.
  set (e := bits / 2 ^ 24). set (m := bits mod 2 ^ 23).
  assert (0 ≤ e < 256) as He.
  { unfold e. split; [apply Z.div_pos; lia|apply Z.div_lt_upper_bound; lia]. }
  assert (0 ≤ m < 2 ^ 23) as Hm by (apply Z.mod_pos_bound; lia).
  destruct (Z.eqb_spec m 0) as [|Hm0]; [done|]. rewrite orb_false_l.
  destruct (Z.testbit bits 23) eqn:Ht; [done|].
  pose proof (testbit23 bits ltac:(lia) Ht) as H24. fold m in H24.
  destruct (Nat.leb_spec (Z.to_nat e) 3) as [Hle|Hgt].
  - rewrite Z2Nat.id by lia. destruct (Z.leb_spec e 3); [|lia].
    assert (0 ≤ m / 2 ^ (8 * (3 - e)) ≤ m).
    { pose proof (Z.pow_pos_nonneg 2 (8 * (3 - e))).
      split; [apply Z.div_pos; lia|apply Z.div_le_upper_bound; nia]. }
    intros Heq%(inj Some). subst t. cbn [threshold]. split.
    { rewrite length_copy_at; [done|]. rewrite length_take, length_le_bytes, length_zero32. lia. }
    split; [|lia]. unfold zero32. rewrite le_val_copy_at_zero
      by (rewrite length_take, length_le_bytes; lia).
    rewrite Z.shiftr_div_pow2, le_bytes3_mantissa by lia.
    rewrite Z.pow_0_r, Z.mul_1_l. f_equal. rewrite Z.pow_mul_r by lia. done.
  - destruct (Nat.ltb_spec 32 (Z.to_nat e - 3 + 3)) as [|H32]; [done|].
    intros Heq%(inj Some). subst t. cbn [threshold]. destruct (Z.leb_spec e 3); [lia|]. split.
    { rewrite length_copy_at; [done|]. rewrite length_take, length_le_bytes, length_zero32. lia. }
    split; [|lia]. unfold zero32. rewrite le_val_copy_at_zero
      by (rewrite length_take, length_le_bytes; lia).
    rewrite le_bytes3_mantissa by lia. rewrite Z.mul_comm. do 2 f_equal. lia.
Qed.

Lemma from_bits_Some bits :
  in_u 32 bits → bits / 2 ^ 24 ≤ 32 → 0 < bits mod 2 ^ 23 → bits mod 2 ^ 24 < 2 ^ 23 →
  is_Some (from_bits bits).
Proof.
  intros Hb He Hm H24. unfold from_bits, in_u in *.
  rewrite land_7fffff, land_800000, Z.shiftr_div_pow2 by lia.
  destruct (Z.eqb_spec (bits mod 2 ^ 23) 0); [lia|]. rewrite orb_false_l.
  assert (Z.testbit bits 23 = false) as ->.
  { rewrite <- (Z.mod_pow2_bits_low bits 24 23) by lia.
    apply Z.bits_above_log2; [apply Z.mod_pos_bound; lia|].
    destruct (Z.eq_dec (bits mod 2 ^ 24) 0) as [->|]; [done|].
    apply Z.log2_lt_pow2; [|lia]. pose proof (Z.mod_pos_bound bits (2 ^ 24)). lia. }
  destruct (Nat.leb_spec (Z.to_nat (bits / 2 ^ 24)) 3); [eauto|].
  destruct (Nat.ltb_spec 32 (Z.to_nat (bits / 2 ^ 24) - 3 + 3)); [lia|eauto].
Qed.

Lemma meets_spec t hash :
  length (threshold t) = length hash → meets t hash = (le_val hash <=? le_val (threshold t)).
Proof.
  intros Hl. unfold meets, compare_internal_hash. rewrite lex_cmp_snoc_rev by done.
  unfold Z.leb. by destruct (le_val hash ?= le_val (threshold t)).
Qed.

(** [significant_size] is the number of bytes of the value. *)
Lemma significant_size_loop_spec t n s :
  significant_size_loop t n = Some s →
  (0 < s ≤ n)%nat ∧ bz (t !!! (s - 1)%nat) ≠ 0 ∧ ∀ k, (s ≤ k < n)%nat → bz (t !!! k) = 0.
Proof.
  induction n as [|n IH]; [done|]. cbn [significant_size_loop].
  destruct (Z.eqb_spec (bz (t !!! n)) 0) as [Hz|Hz]; cbn [negb].
  - intros (Hs&Hnz&Hk)%IH. split; [lia|]. split; [done|].
    intros k Hkn. destruct (decide (k = n)) as [->|]; [done|]. apply Hk. lia.
  - intros [= <-]. rewrite Nat.sub_succ, Nat.sub_0_r. split; [lia|]. split; [done|]. lia.
Qed.

Lemma le_val_drop_zero t s :
  (∀ k, (s ≤ k < length t)%nat → bz (t !!! k) = 0) → le_val t = le_val (take s t).
Proof.
  revert s. induction t as [|b t IH]; intros s Hs; [by rewrite take_nil|].
  destruct s as [|s].
  - cbn [take le_val]. rewrite (IH 0%nat).
    + rewrite take_0. simpl. specialize (Hs 0%nat ltac:(simpl; lia)). simpl in Hs. lia.
    + intros k Hk. apply (Hs (S k)). simpl. lia.
  - cbn [take le_val]. rewrite (IH s); [done|].
    intros k Hk. apply (Hs (S k)). simpl. lia.
Qed.

Lemma le_val_take_div t s : le_val t / 256 ^ Z.of_nat s = le_val (drop s t).
Proof.
  revert t. induction s as [|s IH]; intros t.
  - rewrite drop_0. by rewrite Z.div_1_r.
  - destruct t as [|b t]; [apply Z.div_0_l; pose proof (pow256_pos (S s)); lia|].
    cbn [drop le_val]. rewrite pow256_succ. pose proof (bz_range b). pose proof (pow256_pos s).
    rewrite <- Z.div_div by lia. rewrite (Z.mul_comm 256), Z.div_add, (Z.div_small (bz b)) by lia.
    apply IH.
Qed.

Lemma significant_size_bound t s :
  length t = 32%nat → significant_size t = Some s →
  (0 < s ≤ 32)%nat ∧ 256 ^ Z.of_nat (s - 1) ≤ le_val t < 256 ^ Z.of_nat s.
Proof.
  intros Hl (Hs&Hnz&Hk)%significant_size_loop_spec. split; [done|].
  rewrite (le_val_drop_zero t s) by (by rewrite Hl).
  pose proof (le_val_bound (take s t)) as Hb. unfold zlen in Hb.
  rewrite length_take, Hl, Nat.min_l in Hb by lia. split; [|lia].
  assert (1 ≤ le_val t / 256 ^ Z.of_nat (s - 1)) as Hd.
  { pose proof (le_val_byte t (s - 1)) as Hbyte. pose proof (bz_range (t !!! (s - 1)%nat)).
    assert (0 ≤ le_val t / 256 ^ Z.of_nat (s - 1)).
    { pose proof (pow256_pos (s - 1)). pose proof (le_val_bound t). apply Z.div_pos; lia. }
    destruct (Z.eq_dec (le_val t / 256 ^ Z.of_nat (s - 1)) 0) as [Hq0|]; [|lia].
    rewrite Hq0 in Hbyte. rewrite Z.mod_0_l in Hbyte by lia. lia. }
  rewrite <- (le_val_drop_zero t s) by (by rewrite Hl).
  pose proof (pow256_pos (s - 1)).
  pose proof (Z.mul_div_le (le_val t) (256 ^ Z.of_nat (s - 1)) ltac:(lia)). nia.
Qed.

Lemma significant_size_None t :
  length t = 32%nat → 0 < le_val t → is_Some (significant_size t).
Proof.
  intros Hl Hv. destruct (significant_size t) as [s|] eqn:Hs; [eauto|]. exfalso.
  assert (∀ n, significant_size_loop t n = None → ∀ k, (k < n)%nat → bz (t !!! k) = 0) as Hz.
  { intros n. induction n as [|n IH]; [lia|]. cbn [significant_size_loop].
    destruct (Z.eqb_spec (bz (t !!! n)) 0) as [Hb|]; [|done]. cbn [negb].
    intros Hn k Hk. destruct (decide (k = n)) as [->|]; [done|]. apply IH; [done|lia]. }
  rewrite (le_val_drop_zero t 0) in Hv; [rewrite take_0 in Hv; simpl in Hv; lia|].
  intros k Hk. apply (Hz 32%nat Hs). lia.
Qed.

(** ** Encoding *)

Lemma lor_shiftl_add x y n : 0 ≤ n → 0 ≤ x < 2 ^ n → Z.lor x (Z.shiftl y n) = x + y * 2 ^ n.
Proof.
  intros Hn Hx. rewrite Z.shiftl_mul_pow2 by done.
  assert (Z.land x (y * 2 ^ n) = 0) as Hland.
  { apply Z.bits_inj'. intros k Hk. rewrite Z.land_spec, Z.bits_0.
    destruct (Z.lt_ge_cases k n); [rewrite Z.mul_pow2_bits_low by done; apply andb_false_r|].
    rewrite <- (Z.mod_small x (2 ^ n)) by done. by rewrite Z.mod_pow2_bits_high by lia. }
  rewrite <- Z.lxor_lor by done. symmetry. by apply Z.add_nocarry_lxor.
Qed.

Lemma three_bytes t off :
  Z.lor (Z.lor (bz (t !!! off)) (Z.shiftl (bz (t !!! (off + 1)%nat)) 8))
        (Z.shiftl (bz (t !!! (off + 2)%nat)) 16) =
  le_val t / 256 ^ Z.of_nat off mod 2 ^ 24.
Proof.
  pose proof (bz_range (t !!! off)). pose proof (bz_range (t !!! (off + 1)%nat)).
  pose proof (bz_range (t !!! (off + 2)%nat)).
  rewrite !lor_shiftl_add by (rewrite ?lor_shiftl_add; lia).
  rewrite <- !le_val_byte. rewrite !Nat2Z.inj_add, !Z.pow_add_r by lia.
  rewrite <- !Z.div_div by lia. change (256 ^ Z.of_nat 1) with 256.
  change (256 ^ Z.of_nat 2) with (256 * 256). rewrite <- (Z.div_div _ 256 256) by lia.
  set (x := le_val t / 256 ^ Z.of_nat off).
  change (2 ^ 24) with (256 * (256 * 256)).
  rewrite (Z.rem_mul_r x 256 (256 * 256)), (Z.rem_mul_r (x / 256) 256 256) by lia. lia.
Qed.

Lemma low_value_spec t s :
  (0 < s ≤ 3)%nat → (3 ≤ length t)%nat → (∀ k, (s ≤ k < length t)%nat → bz (t !!! k) = 0) →
  low_value t s = le_val t.
Proof.
  intros Hs Hl Hk. rewrite (le_val_drop_zero t s Hk). unfold low_value.
  destruct t as [|a [|b [|c t]]]; simpl in Hl; [lia..|].
  pose proof (bz_range a). pose proof (bz_range b). pose proof (bz_range c).
  destruct s as [|[|[|[|s]]]]; [lia| | | |lia];
    cbn [seq foldl]; cbn [take le_val];
    change ((a :: b :: c :: t) !!! 0%nat) with a;
    change ((a :: b :: c :: t) !!! 1%nat) with b;
    change ((a :: b :: c :: t) !!! 2%nat) with c;
    rewrite Z.lor_0_l; change (8 * Z.of_nat 0) with 0; change (8 * Z.of_nat 1) with 8;
    change (8 * Z.of_nat 2) with 16; rewrite Z.shiftl_0_r;
    rewrite ?lor_shiftl_add by (rewrite ?lor_shiftl_add; lia); rewrite ?take_0; cbn [le_val]; lia.
Qed.

(** The 24-bit mantissa selected by [to_bits], before normalization. *)
Definition raw_mantissa (V : Z) (s : nat) : Z :=
  if (s <=? 3)%nat then V * 256 ^ (3 - Z.of_nat s) else V / 256 ^ (Z.of_nat s - 3).

Lemma raw_mantissa_bound V s :
  (0 < s)%nat → 256 ^ Z.of_nat (s - 1) ≤ V < 256 ^ Z.of_nat s →
  2 ^ 16 ≤ raw_mantissa V s < 2 ^ 24.
Proof.
  intros Hs HV. unfold raw_mantissa. destruct (Nat.leb_spec s 3).
  - destruct s as [|[|[|[|s]]]]; simpl in *; lia.
  - rewrite Nat2Z.inj_sub in HV by lia.
    assert (256 ^ Z.of_nat s = 2 ^ 24 * 256 ^ (Z.of_nat s - 3)) as He.
    { change (2 ^ 24) with (256 ^ 3). rewrite <- Z.pow_add_r by lia. f_equal. lia. }
    assert (256 ^ (Z.of_nat s - Z.of_nat 1) = 2 ^ 16 * 256 ^ (Z.of_nat s - 3)) as He'.
    { change (2 ^ 16) with (256 ^ 2). rewrite <- Z.pow_add_r by lia. f_equal. lia. }
    rewrite He, He' in HV. pose proof (Z.pow_pos_nonneg 256 (Z.of_nat s - 3)).
    split; [apply Z.div_le_lower_bound; lia|apply Z.div_lt_upper_bound; lia].
Qed.

Lemma to_bits_eq t s :
  length (threshold t) = 32%nat → significant_size (threshold t) = Some s →
  to_bits t = Some (
    let m := raw_mantissa (le_val (threshold t)) s in
    if Z.testbit m 23 then (Z.of_nat s + 1) * 2 ^ 24 + m / 256 else Z.of_nat s * 2 ^ 24 + m).
Proof.
  intros Hl Hs. destruct (significant_size_bound _ _ Hl Hs) as [Hs32 HV].
  pose proof (raw_mantissa_bound _ s ltac:(lia) HV) as Hm.
  unfold to_bits. rewrite Hs.
  assert ((if (s <=? 3)%nat
           then Z.shiftl (low_value (threshold t) s) (8 * (3 - Z.of_nat s)) mod 2 ^ 32
           else Z.lor (Z.lor (bz (threshold t !!! (s - 3)%nat))
                  (Z.shiftl (bz (threshold t !!! (s - 3 + 1)%nat)) 8))
                  (Z.shiftl (bz (threshold t !!! (s - 3 + 2)%nat)) 16)) =
          raw_mantissa (le_val (threshold t)) s) as ->.
  { unfold raw_mantissa in *. destruct (Nat.leb_spec s 3).
    - apply significant_size_loop_spec in Hs as (_&_&Hz).
      rewrite low_value_spec by (rewrite ?Hl; done || lia).
      rewrite Z.shiftl_mul_pow2, Z.pow_mul_r by lia. change (2 ^ 8) with 256.
      apply Z.mod_small. lia.
    - rewrite three_bytes, Nat2Z.inj_sub by lia. apply Z.mod_small.
      change (Z.of_nat 3) with 3. lia. }
  set (m := raw_mantissa (le_val (threshold t)) s) in *.
  rewrite land_800000. destruct (Z.testbit m 23) eqn:Hb.
  - rewrite Z.shiftr_div_pow2 by lia. change (2 ^ 8) with 256.
    assert (m / 256 < 2 ^ 16) by (apply Z.div_lt_upper_bound; lia).
    assert (0 ≤ m / 256) by (apply Z.div_pos; lia).
    destruct (Z.ltb_spec 0x7fffff (m / 256)); [lia|].
    rewrite Z.lor_comm, lor_shiftl_add by lia. f_equal. lia.
  - pose proof (testbit23 m ltac:(lia) Hb) as H23.
    rewrite (Z.mod_small m (2 ^ 24)) in H23 by lia.
    pose proof (Z.mod_pos_bound m (2 ^ 23) ltac:(lia)).
    destruct (Z.ltb_spec 0x7fffff m); [lia|].
    rewrite Z.lor_comm, lor_shiftl_add by lia. f_equal. lia.
Qed.

(** The fields of a packed compact word. *)
Lemma packed_div e k : 0 ≤ k < 2 ^ 24 → (e * 2 ^ 24 + k) / 2 ^ 24 = e.
Proof. intros Hk. rewrite Z.div_add_l, Z.div_small by lia. lia. Qed.

Lemma packed_mod e k : 0 ≤ k < 2 ^ 23 → (e * 2 ^ 24 + k) mod 2 ^ 23 = k.
Proof.
  intros Hk. replace (e * 2 ^ 24 + k) with (k + e * 2 * 2 ^ 23) by lia.
  rewrite Z_mod_plus_full. apply Z.mod_small. lia.
Qed.

Lemma packed_mod24 e k : 0 ≤ k < 2 ^ 24 → (e * 2 ^ 24 + k) mod 2 ^ 24 = k.
Proof. intros Hk. rewrite Z.add_comm, Z_mod_plus_full. apply Z.mod_small. lia. Qed.

(** The sign bit of a 24-bit mantissa. *)
Lemma mantissa_top m : 0 < m < 2 ^ 24 → Z.testbit m 23 = (2 ^ 23 <=? m).
Proof.
  intros Hm. destruct (Z.leb_spec (2 ^ 23) m).
  - rewrite <- (Z.add_0_l 23), <- Z.shiftr_spec, Z.shiftr_div_pow2 by lia.
    replace (m / 2 ^ 23) with 1; [done|]. apply (Z.div_unique _ _ _ (m - 2 ^ 23)); lia.
  - apply Z.bits_above_log2; [lia|]. apply Z.log2_lt_pow2; lia.
Qed.

(** A packed word with a mantissa of at least 15 bits that fits below the sign bit decodes. *)
Lemma packed_from_bits e k :
  0 < e ≤ 32 → 0 < k < 2 ^ 23 → in_u 32 (e * 2 ^ 24 + k) ∧ is_Some (from_bits (e * 2 ^ 24 + k)).
Proof.
  intros He Hk. split; [unfold in_u; lia|].
  apply from_bits_Some; rewrite ?packed_div, ?packed_mod, ?packed_mod24 by lia; try lia.
  unfold in_u. lia.
Qed.

Lemma pow256_next n : 0 ≤ n → 256 ^ n * 256 = 256 ^ (n + 1).
Proof. intros. rewrite Z.pow_add_r by lia. lia. Qed.

(** Quotient by a positive divisor, rounded down, when the quotient has 15 bits. *)
Lemma rounded_down V P :
  0 < P → 2 ^ 15 ≤ V / P → V / P * P ≤ V ∧ (V - V / P * P) * 2 ^ 15 ≤ V / P * P.
Proof.
  intros HP HQ. pose proof (Z.div_mod V P ltac:(lia)).
  pose proof (Z.mod_pos_bound V P ltac:(lia)). nia.
Qed.

(** The mantissa has its sign bit clear: it is packed as it is. *)
Lemma compact_value_direct V s :
  (1 ≤ s ≤ 32)%nat → 0 < V → 2 ^ 15 ≤ raw_mantissa V s < 2 ^ 23 →
  let bits := Z.of_nat s * 2 ^ 24 + raw_mantissa V s in
  compact_value bits ≤ V ∧ (V - compact_value bits) * 2 ^ 15 ≤ compact_value bits.
Proof.
  intros Hs HV Hm. cbv zeta. unfold compact_value. rewrite packed_div, packed_mod by lia.
  unfold raw_mantissa in *. destruct (Nat.leb_spec s 3).
  - destruct (Z.leb_spec (Z.of_nat s) 3); [|lia].
    rewrite Z.div_mul by (apply Z.pow_nonzero; lia). lia.
  - destruct (Z.leb_spec (Z.of_nat s) 3); [lia|].
    apply rounded_down; [apply Z.pow_pos_nonneg; lia|lia].
Qed.

(** The mantissa has its sign bit set: it loses its low byte and the exponent grows by one. *)
Lemma compact_value_shifted V s :
  (1 ≤ s ≤ 32)%nat → 0 < V → 2 ^ 23 ≤ raw_mantissa V s < 2 ^ 24 →
  let bits := (Z.of_nat s + 1) * 2 ^ 24 + raw_mantissa V s / 256 in
  compact_value bits ≤ V ∧ (V - compact_value bits) * 2 ^ 15 ≤ compact_value bits.
Proof.
  intros Hs HV Hm. cbv zeta.
  assert (raw_mantissa V s / 256 < 2 ^ 16) by (apply Z.div_lt_upper_bound; lia).
  assert (2 ^ 15 ≤ raw_mantissa V s / 256) by (apply Z.div_le_lower_bound; lia).
  unfold compact_value. rewrite packed_div, packed_mod by lia.
  unfold raw_mantissa in *. destruct (Nat.leb_spec s 3).
  - destruct s as [|[|[|[|s]]]]; [lia| | | |lia].
    + change (Z.of_nat 1 + 1 <=? 3) with true. change (256 ^ (3 - (Z.of_nat 1 + 1))) with 256.
      change (256 ^ (3 - Z.of_nat 1)) with (256 * 256) in *. cbv iota.
      rewrite Z.mul_assoc, !Z.div_mul by lia. lia.
    + change (Z.of_nat 2 + 1 <=? 3) with true. change (256 ^ (3 - (Z.of_nat 2 + 1))) with 1.
      change (256 ^ (3 - Z.of_nat 2)) with 256 in *. cbv iota.
      rewrite Z.div_mul, Z.div_1_r by lia. lia.
    + change (Z.of_nat 3 + 1 <=? 3) with false. change (256 ^ (Z.of_nat 3 + 1 - 3)) with 256.
      change (256 ^ (3 - Z.of_nat 3)) with 1 in *. cbv iota.
      rewrite Z.mul_1_r in *. by apply rounded_down.
  - destruct (Z.leb_spec (Z.of_nat s + 1) 3); [lia|].
    rewrite Z.div_div in * by (try apply Z.pow_nonzero; lia). rewrite pow256_next in * by lia.
    replace (Z.of_nat s - 3 + 1) with (Z.of_nat s + 1 - 3) in * by lia.
    apply rounded_down; [apply Z.pow_pos_nonneg; lia|lia].
Qed.

(** A target below [2^255] that needs all 32 bytes leaves the sign bit clear. *)
Lemma shifted_size V s :
  (s ≤ 32)%nat → V < 2 ^ 255 → 2 ^ 23 ≤ raw_mantissa V s → (s < 32)%nat.
Proof.
  intros Hs HV Hm. destruct (decide (s = 32%nat)) as [->|]; [exfalso|lia].
  assert (raw_mantissa V 32 < 2 ^ 23); [|lia]. unfold raw_mantissa. cbn [Nat.leb].
  apply Z.div_lt_upper_bound; [lia|].
  change (256 ^ (Z.of_nat 32 - 3) * 2 ^ 23) with (2 ^ 255). lia.
Qed.

(** Encoding succeeds on every non-zero target below [2^255]; the result decodes to the
    target rounded down to a mantissa of at least 15 significant bits. *)
Lemma to_bits_spec t :
  length (threshold t) = 32%nat → 0 < le_val (threshold t) < 2 ^ 255 →
  ∃ bits, to_bits t = Some bits ∧ in_u 32 bits ∧ is_Some (from_bits bits) ∧
    compact_value bits ≤ le_val (threshold t) ∧
    (le_val (threshold t) - compact_value bits) * 2 ^ 15 ≤ compact_value bits.
Proof.
  intros Hl HV. destruct (significant_size_None _ Hl ltac:(lia)) as [s Hs].
  destruct (significant_size_bound _ _ Hl Hs) as [Hs32 HVs].
  pose proof (raw_mantissa_bound _ s ltac:(lia) HVs) as Hm.
  rewrite (to_bits_eq t s Hl Hs). eexists. split; [done|]. cbv zeta.
  rewrite mantissa_top by lia.
  destruct (Z.leb_spec (2 ^ 23) (raw_mantissa (le_val (threshold t)) s)) as [Hbig|Hsmall].
  - pose proof (shifted_size _ s ltac:(lia) (proj2 HV) Hbig) as Hs'.
    set (m := raw_mantissa _ s) in *.
    assert (0 < m / 256 < 2 ^ 23).
    { split; [apply Z.div_str_pos; lia|apply Z.div_lt_upper_bound; lia]. }
    destruct (packed_from_bits (Z.of_nat s + 1) (m / 256)); [lia..|].
    split; [done|]. split; [done|]. apply compact_value_shifted; lia.
  - destruct (packed_from_bits (Z.of_nat s) (raw_mantissa (le_val (threshold t)) s)); [lia..|].
    split; [done|]. split; [done|]. apply compact_value_direct; lia.
Qed.

(** ** Per-block work of compact targets *)

Section compact_work.
Context (e m : Z) (He : 19 ≤ e ≤ 32) (Hm : 0 < m < 2 ^ 23).
Context (Hmiddle : m / 256 mod 256 ≠ 255).
Abbreviation off := (e - 3).
Abbreviation T := (m * 256 ^ off).

Lemma T_bound : 256 ^ off ≤ T ∧ T + 1 < 2 ^ 256.
Proof.
  pose proof (Z.pow_pos_nonneg 256 off).
  assert (256 ^ off ≤ 256 ^ 29) by (apply Z.pow_le_mono_r; lia).
  change (2 ^ 256) with (2 ^ 24 * 256 ^ 29). nia.
Qed.

(** Below the mantissa the bits of [~T] are all ones. *)
Lemma not_T_low_bits n :
  (Z.of_nat n < 8 * off) → Z.testbit (2 ^ 256 - 1 - T) (Z.of_nat n) = true.
Proof.
  intros Hn. destruct T_bound. replace (2 ^ 256 - 1 - T) with (Z.ones 256 - T) by done.
  assert (Z.ones 256 - T = Z.lnot T mod 2 ^ 256) as ->.
  { unfold Z.lnot. apply (Z.mod_unique _ _ (-1)); change (Z.ones 256) with (2 ^ 256 - 1); lia. }
  rewrite Z.mod_pow2_bits_low by lia. rewrite Z.lnot_spec by lia.
  change 256 with (2 ^ 8). rewrite <- Z.pow_mul_r by lia.
  by rewrite Z.mul_pow2_bits_low by lia.
Qed.

Lemma partial_odd n :
  Z.of_nat n < 8 * off → div_partial (2 ^ 256 - 1 - T) (T + 1) n mod 2 = 1.
Proof.
  intros Hn. unfold div_partial. rewrite halve, not_T_low_bits by done.
  set (a := _ / 2 ^ Z.of_nat (S n)). set (b := (T + 1) * (a / (T + 1))).
  replace (2 * a + 1 - 2 * b) with (1 + (a - b) * 2) by lia.
  by rewrite Z_mod_plus_full.
Qed.

(** A subtraction only happens at a bit below the mantissa. *)
Lemma partial_low n :
  T + 1 ≤ div_partial (2 ^ 256 - 1 - T) (T + 1) n → Z.of_nat n < 8 * off.
Proof.
  intros Hle. destruct T_bound as [HT1 HT2].
  destruct (Z.lt_ge_cases (Z.of_nat n) (8 * off)) as [|Hge]; [done|exfalso].
  unfold div_partial in Hle. pose proof (pow2_pos (S n)). pose proof (pow2_pos n).
  assert (0 ≤ (2 ^ 256 - 1 - T) / 2 ^ Z.of_nat (S n)) by (apply Z.div_pos; lia).
  assert (0 ≤ (2 ^ 256 - 1 - T) / 2 ^ Z.of_nat (S n) / (T + 1)) by (apply Z.div_pos; lia).
  assert ((2 ^ 256 - 1 - T) / 2 ^ Z.of_nat n < 256 ^ off); [|nia].
  apply Z.div_lt_upper_bound; [lia|].
  change 256 with (2 ^ 8) at 3. rewrite <- Z.pow_mul_r, <- Z.pow_add_r by lia.
  assert (2 ^ 256 ≤ 2 ^ (Z.of_nat n + 8 * off)) by (apply Z.pow_le_mono_r; lia). lia.
Qed.

(** The only byte of [T + 1] that can be [0xff] is the lowest one of the mantissa. *)
Lemma divisor_ff k :
  (k < 32)%nat → bz (le_bytes 32 (T + 1) !!! k) = 255 → Z.of_nat k = off.
Proof.
  intros Hk. destruct T_bound as [HT1 HT2].
  rewrite <- le_val_byte, le_val_le_bytes_small by (change (256 ^ Z.of_nat 32) with (2 ^ 256); lia).
  pose proof (Z.pow_pos_nonneg 256 off).
  destruct (Z.lt_trichotomy (Z.of_nat k) off) as [Hlt|[Heq|Hgt]]; [|done|].
  - replace off with (Z.of_nat k + 1 + (off - Z.of_nat k - 1)) by lia.
    rewrite !Z.pow_add_r, Z.pow_1_r by lia. pose proof (pow256_pos k).
    set (P := 256 ^ Z.of_nat k) in *. set (Q := 256 ^ (off - Z.of_nat k - 1)).
    replace (m * (P * 256 * Q) + 1) with (1 + (m * Q * 256) * P) by lia.
    rewrite Z.div_add by lia. rewrite Z_mod_plus_full.
    destruct k as [|k]; [replace P with 1 by done; discriminate|].
    assert (256 ≤ P) by (unfold P; rewrite pow256_succ; pose proof (pow256_pos k); lia).
    rewrite Z.div_small, Z.mod_0_l by lia. lia.
  - assert (256 ^ Z.of_nat k = 256 ^ off * 256 ^ (Z.of_nat k - off)) as ->
      by (rewrite <- Z.pow_add_r by lia; f_equal; lia).
    pose proof (Z.pow_pos_nonneg 256 (Z.of_nat k - off)).
    assert (256 ≤ 256 ^ off).
    { rewrite <- (Z.pow_1_r 256) at 1. apply Z.pow_le_mono_r; lia. }
    rewrite <- Z.div_div, Z.div_add_l, (Z.div_small 1), Z.add_0_r by lia.
    destruct (Z.eq_dec (Z.of_nat k - off) 1) as [Hk1|Hk1]; [by rewrite Hk1|].
    intros Hb. exfalso.
    assert (m / 256 ^ (Z.of_nat k - off) < 128).
    { apply Z.div_lt_upper_bound; [lia|].
      assert (256 ^ 2 ≤ 256 ^ (Z.of_nat k - off)) by (apply Z.pow_le_mono_r; lia). lia. }
    assert (0 ≤ m / 256 ^ (Z.of_nat k - off)) by (apply Z.div_pos; lia).
    rewrite Z.mod_small in Hb by lia. lia.
Qed.

Lemma compact_div_safe : div_safe (2 ^ 256 - 1 - T) (le_bytes 32 (T + 1)).
Proof.
  destruct T_bound as [HT1 HT2]. pose proof (Z.pow_pos_nonneg 256 off).
  assert (le_val (le_bytes 32 (T + 1)) = T + 1) as HD by (apply le_val_le_bytes_small; lia).
  intros n Hn. rewrite HD. intros Hle. pose proof (partial_low n Hle) as Hlow.
  apply sub_safe_intro; [by rewrite !length_le_bytes|auto|].
  rewrite length_le_bytes. intros k Hk Hff. apply divisor_ff in Hff; [|done].
  rewrite !take_le_bytes by lia. rewrite !le_val_le_bytes, Hff, Z.add_0_r.
  assert (256 ≤ 256 ^ off) as H256.
  { rewrite <- (Z.pow_1_r 256) at 1. apply Z.pow_le_mono_r; lia. }
  assert ((T + 1) mod 256 ^ off = 1) as ->
    by (symmetry; apply (Z.mod_unique_pos _ _ m); lia).
  set (R := div_partial _ _ n).
  assert (R mod 2 = 1) as Hodd by (by apply partial_odd).
  assert ((R mod 256 ^ off) mod 2 = R mod 2) as Hmm.
  { apply Z.mod_mod_divide. exists (128 * 256 ^ (off - 1)).
    replace (256 ^ off) with (256 ^ (off - 1 + 1)) by (f_equal; lia).
    rewrite Z.pow_add_r by lia. lia. }
  pose proof (Z.mod_pos_bound R (256 ^ off) ltac:(lia)).
  destruct (Z.eq_dec (R mod 256 ^ off) 0) as [Hz0|]; [|lia].
  rewrite Hz0 in Hmm. rewrite Hodd in Hmm. done.
Qed.
End compact_work.

(** The work of a valid compact target is Core's [2^256 / (target + 1)], provided its
    exponent is at least 19 and the middle byte of its mantissa is not [0xff]. *)
Lemma to_work_exact bits t :
  in_u 32 bits → from_bits bits = Some t → 19 ≤ bits / 2 ^ 24 →
  bits / 2 ^ 8 mod 256 ≠ 255 →
  to_work t = Some (le_bytes 32 (2 ^ 256 / (le_val (threshold t) + 1))).
Proof.
  intros Hb Ht He Hmid. destruct (from_bits_spec bits t Hb Ht) as (Hl&Hv&He32&Hm&_).
  pose proof (Z.mod_pos_bound bits (2 ^ 23) ltac:(lia)).
  assert (bits mod 2 ^ 23 / 256 mod 256 ≠ 255) as Hmid'.
  { assert (bits / 2 ^ 8 mod 256 = (bits mod 2 ^ 23) / 256 mod 256) as <-; [|done].
    change 256 with (2 ^ 8). apply Z.bits_inj'. intros n Hn.
    destruct (Z.lt_ge_cases n 8); [|by rewrite !Z.mod_pow2_bits_high by lia].
    rewrite !Z.mod_pow2_bits_low, !Z.div_pow2_bits by lia.
    by rewrite Z.mod_pow2_bits_low by lia. }
  assert (compact_value bits = bits mod 2 ^ 23 * 256 ^ (bits / 2 ^ 24 - 3)) as Hc.
  { unfold compact_value. destruct (Z.leb_spec (bits / 2 ^ 24) 3); [lia|done]. }
  destruct (T_bound (bits / 2 ^ 24) (bits mod 2 ^ 23)) as [HT1 HT2]; [lia|lia|].
  pose proof (Z.pow_pos_nonneg 256 (bits / 2 ^ 24 - 3)).
  rewrite <- Hc, <- Hv in HT1, HT2.
  apply work_from_target_spec; [done|lia|].
  rewrite Hv, Hc. apply compact_div_safe; [lia|lia|done].
Qed.
