(* ===== verification/Difficulty.v ===== *)
(** * Difficulty adjustment (bitrst-core/src/difficulty.rs) *)

From stdpp Require Import prelude list.
From Stdlib Require Import Strings.Byte.
From S2P Require Import Prelude Bytes U256 Pow.

(** ** Definitions *)

Definition DIFFICULTY_ADJUSTMENT_INTERVAL : Z := 2016.
Definition TARGET_BLOCK_SPACING : Z := 600.
Definition TARGET_TIMESPAN : Z := DIFFICULTY_ADJUSTMENT_INTERVAL * TARGET_BLOCK_SPACING.
Definition MAX_COMPACT_BITS : Z := 0x1d00ffff.

(** The build feature [test-short-period] shortens the period. *)
Definition difficulty_adjustment_interval (test_short_period : bool) : Z :=
  if test_short_period then 256 else DIFFICULTY_ADJUSTMENT_INTERVAL.

Inductive DifficultyError :=
| InvalidPreviousBits (bits : Z)
| EncodingFailed
| DifficultyOverflow.

Definition clamp_timespan (actual target : Z) : Z :=
  let minimum := target / 4 in
  let maximum := u32_saturating_mul target 4 in
  if actual <? minimum then minimum else if maximum <? actual then maximum else actual.

Definition compare_threshold (left right : list byte) : comparison :=
  lex_cmp (rev left) (rev right).

(** [expect("genesis compact bits must decode")]: a panic if it does not. *)
Definition cap_to_max_target (threshold' : list byte) : Result DifficultyError (list byte) :=
  let? max_target := index_or_panic (from_bits MAX_COMPACT_BITS) in
  match compare_threshold threshold' (threshold max_target) with
  | Gt => Ok (threshold max_target)
  | _ => Ok threshold'
  end.

(** The multiplication loop: the low 32 bytes of the product and the final carry. *)
Fixpoint mul_loop (threshold : list byte) (numerator carry : Z) : option (list byte * Z) :=
  match threshold with
  | [] => Some ([], carry)
  | byte :: rest =>
      match u64_checked_mul (bz byte) numerator with
      | None => None
      | Some product =>
          match u64_checked_add product carry with
          | None => None
          | Some scaled =>
              match mul_loop rest numerator (Z.shiftr scaled 8) with
              | None => None
              | Some (rest', last) => Some (zb scaled :: rest', last)
              end
          end
      end
  end.

(** The carry written into the [n] bytes beyond the threshold; stops when it is zero. *)
Fixpoint carry_loop (n : nat) (carry : Z) : list byte * Z :=
  match n with
  | O => ([], carry)
  | S n' =>
      if carry =? 0 then (replicate n x00, carry)
      else let '(rest, last) := carry_loop n' (Z.shiftr carry 8) in (zb carry :: rest, last)
  end.

(** The loop over [(0..input.len()).rev()]: the bytes of [input] above index 31 must give a
    zero quotient.  [input] is consumed from its most significant byte, so the recursion
    returns the quotient bytes of the tail first. *)
Fixpoint div_bytes_loop (input : list byte) (index : nat) (divisor : Z)
    : option (list byte * Z) :=
  match input with
  | [] => Some ([], 0)
  | byte :: rest =>
      match div_bytes_loop rest (S index) divisor with
      | None => None
      | Some (output, remainder) =>
          match u64_checked_mul remainder 256 with
          | None => None
          | Some shifted =>
              match u64_checked_add shifted (bz byte) with
              | None => None
              | Some accumulator =>
                  let quotient := accumulator / divisor in
                  if (32 <=? index)%nat then
                    if negb (quotient =? 0) then None
                    else Some (output, accumulator mod divisor)
                  else Some (zb quotient :: output, accumulator mod divisor)
              end
          end
      end
  end.

(** [output] starts as [[0; 32]]; an input shorter than 32 bytes leaves the rest zero. *)
Definition div_le_by_u64 (input : list byte) (divisor : Z) : option (list byte) :=
  if divisor =? 0 then None
  else match div_bytes_loop input 0 divisor with
       | None => None
       | Some (output, _) => Some (output ++ replicate (32 - length output) x00)
       end.

Definition mul_div_threshold (threshold : list byte) (numerator denominator : Z)
    : option (list byte) :=
  if denominator =? 0 then None
  else match mul_loop threshold numerator 0 with
       | None => None
       | Some (product, carry) =>
           let '(high, carry) := carry_loop 4 carry in
           if negb (carry =? 0) then None
           else div_le_by_u64 (product ++ high) denominator
       end.

Definition adjust_bits (prev_bits actual_timespan : Z) : Result DifficultyError Z :=
  let? prev_target := ok_or (from_bits prev_bits) (InvalidPreviousBits prev_bits) in
  let clamped := clamp_timespan actual_timespan TARGET_TIMESPAN in
  let? scaled := ok_or (mul_div_threshold (threshold prev_target) clamped TARGET_TIMESPAN)
                       DifficultyOverflow in
  let? capped := cap_to_max_target scaled in
  ok_or (to_bits (from_threshold capped)) EncodingFailed.

(** The largest target, as a number. *)
Definition max_target : Z := compact_value MAX_COMPACT_BITS.

(** ** Lemmas *)

Lemma clamp_timespan_spec actual :
  clamp_timespan actual TARGET_TIMESPAN =
  Z.max (TARGET_TIMESPAN / 4) (Z.min actual (4 * TARGET_TIMESPAN)).
Proof.
  unfold clamp_timespan, u32_saturating_mul, U32_MAX, TARGET_TIMESPAN.
  change (DIFFICULTY_ADJUSTMENT_INTERVAL * TARGET_BLOCK_SPACING) with 1209600.
  change (1209600 / 4) with 302400. change (1209600 * 4) with 4838400.
  rewrite (Z.min_l 4838400) by lia. change (4 * 1209600) with 4838400.
  destruct (Z.ltb_spec actual 302400), (Z.ltb_spec 4838400 actual); lia.
Qed.

Lemma mul_loop_spec t k c :
  0 ≤ k < 2 ^ 32 → 0 ≤ c < 2 ^ 40 →
  ∃ out last, mul_loop t k c = Some (out, last) ∧ length out = length t ∧
    le_val out + 256 ^ zlen t * last = le_val t * k + c ∧ 0 ≤ last < 2 ^ 40.
Proof.
  unfold zlen. revert c. induction t as [|b t IH]; intros c Hk Hc.
  - exists [], c. simpl. split_and!; lia || done.
  - cbn [mul_loop]. pose proof (bz_range b).
    unfold u64_checked_mul, u64_checked_add, U64_MAX.
    destruct (Z.leb_spec (bz b * k) (2 ^ 64 - 1)); [|nia].
    destruct (Z.leb_spec (bz b * k + c) (2 ^ 64 - 1)); [|nia].
    rewrite Z.shiftr_div_pow2 by lia. change (2 ^ 8) with 256.
    assert (0 ≤ (bz b * k + c) / 256 < 2 ^ 40) as Hc'.
    { split; [apply Z.div_pos; nia|apply Z.div_lt_upper_bound; nia]. }
    destruct (IH _ Hk Hc') as (out&last&->&Hlo&Hv&Hla).
    eexists _, _. split; [done|]. split; [simpl; lia|]. split; [|done].
    cbn [le_val length]. rewrite pow256_succ, bz_zb.
    pose proof (Z.div_mod (bz b * k + c) 256 ltac:(lia)). lia.
Qed.

Lemma carry_loop_spec n c :
  0 ≤ c → ∃ out last, carry_loop n c = (out, last) ∧ length out = n ∧
    le_val out + 256 ^ Z.of_nat n * last = c ∧ 0 ≤ last.
Proof.
  revert c. induction n as [|n IH]; intros c Hc.
  - exists [], c. simpl. split_and!; lia || done.
  - cbn [carry_loop]. destruct (Z.eqb_spec c 0) as [->|Hc0].
    + exists (replicate (S n) x00), 0. rewrite length_replicate, le_val_replicate_0.
      split_and!; lia || done.
    + rewrite Z.shiftr_div_pow2 by lia. change (2 ^ 8) with 256.
      assert (0 ≤ c / 256) as Hc' by (apply Z.div_pos; lia).
      destruct (IH _ Hc') as (out&last&->&Hlo&Hv&Hla).
      eexists _, _. split; [done|]. split; [simpl; lia|]. split; [|done].
      cbn [le_val]. rewrite pow256_succ, bz_zb. pose proof (Z.div_mod c 256 ltac:(lia)). lia.
Qed.

(** One digit of the division of [b + 256 * rest]. *)
Lemma div_digit b rest d :
  0 < d →
  let q := (256 * (le_val rest mod d) + bz b) / d in
  (bz b + 256 * le_val rest) / d = 256 * (le_val rest / d) + q ∧
  (bz b + 256 * le_val rest) mod d = (256 * (le_val rest mod d) + bz b) mod d ∧
  0 ≤ le_val rest mod d < d ∧ 0 ≤ q < 256.
Proof.
  intros Hd q. pose proof (bz_range b). pose proof (Z.mod_pos_bound (le_val rest) d ltac:(lia)).
  assert (bz b + 256 * le_val rest =
    256 * (le_val rest mod d) + bz b + 256 * (le_val rest / d) * d) as ->.
  { rewrite (Z.div_mod (le_val rest) d) at 1 by lia. lia. }
  unfold q. rewrite Z.div_add, Z_mod_plus_full by lia. split_and!; [lia|done|lia|lia|apply Z.div_pos; lia|].
  apply Z.div_lt_upper_bound; nia.
Qed.

(** Long division by a word, from the most significant byte down. *)
Lemma div_bytes_loop_spec input index d :
  0 < d < 2 ^ 32 →
  le_val input / d < 256 ^ Z.of_nat (32 - index) ∨ (index + length input ≤ 32)%nat →
  ∃ out, div_bytes_loop input index d = Some (out, le_val input mod d) ∧
    length out = (length input `min` (32 - index))%nat ∧ le_val out = le_val input / d.
Proof.
  intros Hd. revert index. induction input as [|b input IH]; intros index Hfit.
  { exists []. split; [by rewrite Z.mod_0_l by lia|]. split; [done|].
    by rewrite Z.div_0_l by lia. }
  cbn [div_bytes_loop le_val length] in *. pose proof (bz_range b).
  pose proof (le_val_bound input). destruct (div_digit b input d ltac:(lia)) as (Hq&Hr&Hm&Hdigit).
  assert (0 ≤ le_val input / d) by (apply Z.div_pos; lia).
  destruct (IH (S index)) as (out&Hloop&Hlo&Hv).
  { destruct Hfit as [Hfit|]; [|right; lia]. left. rewrite Hq in Hfit.
    destruct (decide (index < 32)%nat).
    - replace (32 - index)%nat with (S (32 - S index)) in Hfit by lia.
      rewrite pow256_succ in Hfit. lia.
    - replace (32 - index)%nat with 0%nat in Hfit by lia.
      replace (32 - S index)%nat with 0%nat by lia. simpl in *. lia. }
  rewrite Hloop. unfold u64_checked_mul, u64_checked_add, U64_MAX.
  destruct (Z.leb_spec (le_val input mod d * 256) (2 ^ 64 - 1)); [|lia].
  destruct (Z.leb_spec (le_val input mod d * 256 + bz b) (2 ^ 64 - 1)); [|lia].
  rewrite (Z.mul_comm (le_val input mod d)).
  destruct (Nat.leb_spec 32 index) as [Hi|Hi].
  - assert ((bz b + 256 * le_val input) / d < 1) as Hsmall.
    { destruct Hfit as [Hfit|]; [|lia]. by replace (32 - index)%nat with 0%nat in Hfit by lia. }
    rewrite Hq in Hsmall. destruct (Z.eqb_spec ((256 * (le_val input mod d) + bz b) / d) 0); [|lia].
    exists out. rewrite Hr, Hq. split; [done|]. split; [lia|]. lia.
  - eexists. rewrite Hr. split; [done|]. split; [cbn [length]; lia|].
    cbn [le_val]. rewrite bz_zb, Z.mod_small, Hv, Hq by lia. lia.
Qed.

(** A quotient of more than 32 bytes is refused. *)
Lemma div_bytes_loop_fits input index d result :
  0 < d < 2 ^ 32 → div_bytes_loop input index d = Some result →
  le_val input / d < 256 ^ Z.of_nat (32 - index) ∨ (index + length input ≤ 32)%nat.
Proof.
  intros Hd. revert index result. induction input as [|b input IH]; intros index result.
  { intros _. left. rewrite Z.div_0_l by lia. apply pow256_pos. }
  cbn [div_bytes_loop le_val length]. destruct (div_bytes_loop input (S index) d) as [[out r]|] eqn:Hloop; [|done].
  destruct (div_digit b input d ltac:(lia)) as (Hq&_&Hm&Hdigit). rewrite Hq. pose proof (bz_range b).
  pose proof (IH _ _ Hloop) as Hfit.
  destruct (div_bytes_loop_spec input (S index) d Hd Hfit) as (out'&Hloop'&_&_).
  rewrite Hloop' in Hloop. injection Hloop as <- <-. unfold u64_checked_mul, u64_checked_add, U64_MAX.
  destruct (Z.leb_spec (le_val input mod d * 256) (2 ^ 64 - 1)); [|lia].
  destruct (Z.leb_spec (le_val input mod d * 256 + bz b) (2 ^ 64 - 1)); [|lia].
  rewrite (Z.mul_comm (le_val input mod d)).
  destruct (Nat.leb_spec 32 index) as [Hi|Hi].
  - destruct (Z.eqb_spec ((256 * (le_val input mod d) + bz b) / d) 0) as [->|]; [|done]. intros _.
    destruct Hfit as [Hfit|]; [|lia]. left. replace (32 - S index)%nat with 0%nat in Hfit by lia.
    pose proof (pow256_pos (32 - index)). change (256 ^ Z.of_nat 0) with 1 in Hfit. lia.
  - intros _. destruct Hfit as [Hfit|]; [|right; lia]. left.
    replace (32 - index)%nat with (S (32 - S index)) by lia. rewrite pow256_succ. lia.
Qed.

Lemma div_le_by_u64_spec input d :
  0 < d < 2 ^ 32 → le_val input / d < 2 ^ 256 →
  ∃ out, div_le_by_u64 input d = Some out ∧ length out = 32%nat ∧ le_val out = le_val input / d.
Proof.
  intros Hd Hfit. unfold div_le_by_u64. destruct (Z.eqb_spec d 0); [lia|].
  destruct (div_bytes_loop_spec input 0 d Hd) as (out&->&Hlo&Hv); [by left|].
  eexists. split; [done|]. split.
  - rewrite length_app, length_replicate. lia.
  - rewrite le_val_app, le_val_replicate_0. lia.
Qed.

(** [threshold * numerator / denominator], exactly; a result of more than 256 bits is refused. *)
Lemma mul_div_threshold_spec t k d :
  length t = 32%nat → 0 ≤ k < 2 ^ 32 → 0 < d < 2 ^ 32 →
  (le_val t * k / d < 2 ^ 256 → ∃ out, mul_div_threshold t k d = Some out ∧ length out = 32%nat ∧
         le_val out = le_val t * k / d) ∧
  (2 ^ 256 ≤ le_val t * k / d → mul_div_threshold t k d = None).
Proof.
  intros Hl Hk Hd. unfold mul_div_threshold. destruct (Z.eqb_spec d 0); [lia|].
  destruct (mul_loop_spec t k 0 Hk ltac:(lia)) as (out&last&->&Hlo&Hv&Hla).
  destruct (carry_loop_spec 4 last ltac:(lia)) as (high&last'&->&Hlh&Hvh&Hla').
  pose proof (le_val_bound t) as Hbt. pose proof (le_val_bound out).
  pose proof (le_val_bound high).
  unfold zlen in *. rewrite Hl in *. rewrite Hlo in *. rewrite Hlh in *.
  change (256 ^ Z.of_nat 32) with (2 ^ 256) in *. change (256 ^ Z.of_nat 4) with (2 ^ 32) in *.
  assert (last < 2 ^ 32) by nia. assert (last' = 0) as -> by lia.
  cbn [negb Z.eqb].
  assert (le_val (out ++ high) = le_val t * k) as Happ.
  { rewrite le_val_app. unfold zlen. rewrite Hlo.
    change (256 ^ Z.of_nat 32) with (2 ^ 256). lia. }
  rewrite <- Happ. split; [by apply div_le_by_u64_spec|]. intros Hbig.
  unfold div_le_by_u64. destruct (Z.eqb_spec d 0); [lia|].
  destruct (div_bytes_loop (out ++ high) 0 d) as [result|] eqn:Hloop; [|done]. exfalso.
  apply div_bytes_loop_fits in Hloop as [Hlt|Hlen]; [| |done].
  - change (256 ^ Z.of_nat (32 - 0)) with (2 ^ 256) in Hlt. lia.
  - rewrite length_app in Hlen. lia.
Qed.

Lemma cap_to_max_target_spec t :
  length t = 32%nat →
  ∃ out, cap_to_max_target t = Ok out ∧ length out = 32%nat ∧
         le_val out = Z.min (le_val t) max_target.
Proof.
  intros Hl. unfold cap_to_max_target.
  destruct (from_bits MAX_COMPACT_BITS) as [m|] eqn:Hm; [|by vm_compute in Hm].
  apply from_bits_spec in Hm as (Hlm&Hv&_); [|by vm_compute].
  cbn [index_or_panic rbind]. unfold compare_threshold. rewrite lex_cmp_snoc_rev by congruence.
  fold max_target in Hv. rewrite Hv.
  destruct (Z.compare_spec (le_val t) max_target); eexists; (split; [done|]); split; done || lia.
Qed.

(** Retargeting multiplies the old target by the clamped timespan over the nominal one,
    rounds down, caps at the easiest target, and encodes the result. *)
Lemma adjust_bits_correct prev_bits actual :
  in_u 32 prev_bits →
  let scaled := compact_value prev_bits *
                Z.max (TARGET_TIMESPAN / 4) (Z.min actual (4 * TARGET_TIMESPAN)) / TARGET_TIMESPAN in
  let V := Z.min scaled max_target in
  match from_bits prev_bits with
  | None => adjust_bits prev_bits actual = Err (InvalidPreviousBits prev_bits)
  | Some _ =>
      (2 ^ 256 ≤ scaled → adjust_bits prev_bits actual = Err DifficultyOverflow) ∧
      (scaled = 0 → adjust_bits prev_bits actual = Err EncodingFailed) ∧
      (0 < scaled < 2 ^ 256 → ∃ bits, adjust_bits prev_bits actual = Ok bits ∧ in_u 32 bits ∧
         is_Some (from_bits bits) ∧ compact_value bits ≤ V ∧
         (V - compact_value bits) * 2 ^ 15 ≤ compact_value bits)
  end.
Proof.
  intros Hb scaled V. unfold adjust_bits. destruct (from_bits prev_bits) as [t|] eqn:Ht; [|done].
  destruct (from_bits_spec _ _ Hb Ht) as (Hl&Hv&_). cbn [ok_or rbind]. rewrite clamp_timespan_spec.
  assert (0 < max_target < 2 ^ 224) as Hm by done.
  destruct (mul_div_threshold_spec (threshold t)
    (Z.max (TARGET_TIMESPAN / 4) (Z.min actual (4 * TARGET_TIMESPAN))) TARGET_TIMESPAN Hl)
    as [Hfits Hbig]; [|done|].
  { unfold TARGET_TIMESPAN. change (DIFFICULTY_ADJUSTMENT_INTERVAL * TARGET_BLOCK_SPACING) with 1209600.
    change (1209600 / 4) with 302400. lia. }
  rewrite Hv in Hfits, Hbig. fold scaled in Hfits, Hbig.
  split; [intros Hs; by rewrite (Hbig Hs)|].
  assert (scaled < 2 ^ 256 → ∃ cap, (let? scaled := ok_or (mul_div_threshold (threshold t)
      (Z.max (TARGET_TIMESPAN / 4) (Z.min actual (4 * TARGET_TIMESPAN))) TARGET_TIMESPAN) DifficultyOverflow in
    let? capped := cap_to_max_target scaled in ok_or (to_bits (from_threshold capped)) EncodingFailed) =
    ok_or (to_bits (from_threshold cap)) EncodingFailed ∧ length cap = 32%nat ∧ le_val cap = V) as Hrun.
  { intros Hs. destruct (Hfits Hs) as (out&->&Hlo&Hvo). cbn [ok_or rbind].
    destruct (cap_to_max_target_spec out Hlo) as (cap&->&Hlc&Hvc). exists cap.
    by rewrite Hvc, Hvo. }
  split; intros Hs; destruct Hrun as (cap&->&Hlc&Hvc); [lia| |lia|].
  - assert (significant_size cap = None) as Hsz.
    { destruct (significant_size cap) as [s|] eqn:Hsize; [|done]. exfalso.
      apply significant_size_bound in Hsize as [_ [Hsize _]]; [|done].
      pose proof (pow256_pos (s - 1)). lia. }
    unfold to_bits. cbn [threshold from_threshold]. by rewrite Hsz.
  - destruct (to_bits_spec (from_threshold cap)) as (bits&->&?&?&?&?);
      cbn [threshold from_threshold] in *; [done|lia|].
    exists bits. rewrite <- Hvc. done.
Qed.
