(* ===== verification/PowTheorems.v ===== *)
(** * Consensus arithmetic: the properties

    The compact target encoding, the proof-of-work test, the per-block work and the retarget
    rule, each against the number it stands for (bitrst-core/src/pow.rs, uint256.rs,
    difficulty.rs); and the targets on which the 256-bit division goes wrong. *)

From stdpp Require Import prelude strings list.
From Stdlib Require Import Strings.Byte.
From S2P Require Import Prelude Bytes U256 Pow Difficulty.

Local Open Scope Z_scope.

(** ** Canonical compact fields *)

(** The encodings [to_bits] produces: a mantissa with a non-zero top byte, or with a zero
    top byte put there because bit 23 would be set. *)
Definition canonical_bits (bits : Z) : Prop :=
  3 ≤ bits / 2 ^ 24 ≤ 32 ∧ 2 ^ 15 ≤ bits mod 2 ^ 24 < 2 ^ 23.

Lemma canonical_mantissa bits :
  canonical_bits bits → bits mod 2 ^ 24 = bits mod 2 ^ 23.
Proof.
  intros [_ Hm]. rewrite <- (Z.mod_small (bits mod 2 ^ 24) (2 ^ 23)) by lia.
  apply Z.mod_mod_divide. by exists 2.
Qed.

Lemma testbit23_geb m : 0 ≤ m < 2 ^ 24 → Z.testbit m 23 = (2 ^ 23 <=? m).
Proof.
  intros Hm. destruct (Z.leb_spec (2 ^ 23) m).
  - rewrite <- (Z.add_0_l 23), <- Z.shiftr_spec, Z.shiftr_div_pow2 by lia.
    replace (m / 2 ^ 23) with 1; [done|]. apply (Z.div_unique _ _ _ (m - 2 ^ 23)); lia.
  - destruct (Z.eq_dec m 0) as [->|]; [done|].
    apply Z.bits_above_log2; [lia|]. apply Z.log2_lt_pow2; lia.
Qed.

(** The number of significant bytes is determined by the value. *)
Lemma significant_size_unique t s :
  length t = 32%nat → (0 < s)%nat → 256 ^ Z.of_nat (s - 1) ≤ le_val t < 256 ^ Z.of_nat s →
  significant_size t = Some s.
Proof.
  intros Hl Hs HV. pose proof (pow256_pos (s - 1)).
  destruct (significant_size_None t Hl ltac:(lia)) as [s' Hs'].
  destruct (significant_size_bound t s' Hl Hs') as [Hb HV']. rewrite Hs'. f_equal.
  destruct (Nat.lt_trichotomy s s') as [Hlt|[?|Hlt]]; [|done|]; exfalso.
  - pose proof (Z.pow_le_mono_r 256 (Z.of_nat s) (Z.of_nat (s' - 1)) ltac:(lia) ltac:(lia)). lia.
  - pose proof (Z.pow_le_mono_r 256 (Z.of_nat s') (Z.of_nat (s - 1)) ltac:(lia) ltac:(lia)). lia.
Qed.

Lemma to_bits_canonical bits t :
  in_u 32 bits → canonical_bits bits → from_bits bits = Some t → to_bits t = Some bits.
Proof.
  intros Hb Hc Ht. destruct (from_bits_spec bits t Hb Ht) as (Hl&Hv&_).
  pose proof (canonical_mantissa bits Hc) as Hm. destruct Hc as [He Hm24].
  set (e := bits / 2 ^ 24) in *. set (m := bits mod 2 ^ 24) in *.
  assert (bits = e * 2 ^ 24 + m) as Hbits by 
    (rewrite Z.mul_comm; apply Z.div_mod; lia).
  set (P := 256 ^ (e - 3)). assert (0 < P) by (apply Z.pow_pos_nonneg; lia).
  assert (le_val (threshold t) = m * P) as HV.
  { rewrite Hv. unfold compact_value. fold e. rewrite <- Hm.
    destruct (Z.leb_spec e 3); [|done]. unfold P. replace e with 3 by lia.
    by rewrite Z.div_1_r, Z.mul_1_r. }
  assert (256 ^ e = 2 ^ 24 * P) as He24.
  { unfold P. change (2 ^ 24) with (256 ^ 3). rewrite <- Z.pow_add_r by lia. f_equal. lia. }
  assert (256 ^ (e - 1) = 2 ^ 16 * P) as He16.
  { unfold P. change (2 ^ 16) with (256 ^ 2). rewrite <- Z.pow_add_r by lia. f_equal. lia. }
  assert (256 ^ (e - 2) = 2 ^ 8 * P) as He8.
  { unfold P. change (2 ^ 8) with (256 ^ 1). rewrite <- Z.pow_add_r by lia. f_equal. lia. }
  destruct (Z.lt_ge_cases m (2 ^ 16)) as [Hsmall|Hbig].
  - rewrite (to_bits_eq t (Z.to_nat (e - 1)) Hl).
    2: { apply significant_size_unique; [done|lia|].
         rewrite Nat2Z.inj_sub, Z2Nat.id by lia. change (Z.of_nat 1) with 1.
         replace (e - 1 - 1) with (e - 2) by lia. rewrite HV, He8, He16. nia. }
    assert (raw_mantissa (le_val (threshold t)) (Z.to_nat (e - 1)) = m * 256) as ->.
    { unfold raw_mantissa. rewrite HV, Z2Nat.id by lia. destruct (Nat.leb_spec (Z.to_nat (e - 1)) 3).
      - unfold P. assert (e = 3 ∨ e = 4) as [->| ->] by lia; simpl; lia.
      - replace (m * P) with (m * 256 * 256 ^ (e - 1 - 3)); [by rewrite Z.div_mul by (apply Z.pow_nonzero; lia)|].
        unfold P. rewrite <- Z.mul_assoc. f_equal. rewrite <- Z.pow_succ_r by lia. f_equal. lia. }
    cbv zeta. rewrite testbit23_geb by lia. destruct (Z.leb_spec (2 ^ 23) (m * 256)); [|lia].
    rewrite Z.div_mul, Z2Nat.id by lia. f_equal. lia.
  - rewrite (to_bits_eq t (Z.to_nat e) Hl).
    2: { apply significant_size_unique; [done|lia|].
         rewrite Nat2Z.inj_sub, Z2Nat.id by lia. change (Z.of_nat 1) with 1.
         rewrite HV, He16, He24. nia. }
    assert (raw_mantissa (le_val (threshold t)) (Z.to_nat e) = m) as ->.
    { unfold raw_mantissa. rewrite HV, Z2Nat.id by lia. destruct (Nat.leb_spec (Z.to_nat e) 3).
      - unfold P. replace e with 3 by lia. simpl. lia.
      - by rewrite Z.div_mul by (apply Z.pow_nonzero; lia). }
    cbv zeta. rewrite testbit23_geb by lia. destruct (Z.leb_spec (2 ^ 23) m); [lia|].
    rewrite Z2Nat.id by lia. f_equal. lia.
Qed.

(** ** Properties *)

(** The proof-of-work test of a header: a compact field is accepted exactly
    when its exponent is at most 32, its mantissa is positive and its sign bit clear, and
    then a hash passes exactly when, read as a little-endian number, it is at most
    [mantissa * 256 ^ (exponent - 3)]. *)
Theorem pow_check_exact (bits : Z) (hash : list byte) :
  in_u 32 bits → length hash = 32%nat →
  (is_Some (from_bits bits) ↔
     bits / 2 ^ 24 ≤ 32 ∧ 0 < bits mod 2 ^ 23 ∧ bits mod 2 ^ 24 < 2 ^ 23) ∧
  (∀ t, from_bits bits = Some t → meets t hash = true ↔ le_val hash ≤ compact_value bits).
Proof.
  intros Hb Hh. split; [split|].
  - intros [t (_&_&?)%from_bits_spec]; done.
  - intros (?&?&?). by apply from_bits_Some.
  - intros t (Hl&Hv&_)%from_bits_spec; [|done]. rewrite <- Hv, meets_spec, Z.leb_le; [done|congruence].
Qed.
Lemma pow_check_exact_witness : ∃ t,
  from_bits 0x1d00ffff = Some t ∧ meets t (le_bytes 32 (2 ^ 200)) = true.
Proof.
  destruct (from_bits 0x1d00ffff) as [t|] eqn:Ht; [|by vm_compute in Ht]. exists t.
  split; [reflexivity|].
  destruct (pow_check_exact 0x1d00ffff (le_bytes 32 (2 ^ 200))) as [_ H]; [by split|done|].
  apply (H t Ht). vm_compute. intros [=].
Defined.

(** Every canonical compact field decodes, and encoding the decoded target
    gives it back; conversely every non-zero target below [2^255] has an encoding, which
    decodes to the target rounded down by a factor of at most [1 + 2^-15]. *)
Theorem compact_bits_roundtrip (bits : Z) (t : Target) :
  (in_u 32 bits → canonical_bits bits →
     ∃ t', from_bits bits = Some t' ∧ to_bits t' = Some bits) ∧
  (length (threshold t) = 32%nat → 0 < le_val (threshold t) < 2 ^ 255 →
     ∃ bits' t', to_bits t = Some bits' ∧ from_bits bits' = Some t' ∧
       le_val (threshold t') ≤ le_val (threshold t) ∧
       (le_val (threshold t) - le_val (threshold t')) * 2 ^ 15 ≤ le_val (threshold t')).
Proof.
  split.
  - intros Hb Hc. pose proof (canonical_mantissa bits Hc) as Hm.
    destruct (from_bits_Some bits) as [t' Ht']; [done|apply Hc|destruct Hc; lia|apply Hc|].
    exists t'. split; [done|]. by apply to_bits_canonical.
  - intros Hl HV. destruct (to_bits_spec t Hl HV) as (bits'&->&Hb&[t' Ht']&H1&H2).
    exists bits', t'. destruct (from_bits_spec bits' t' Hb Ht') as (_&->&_). done.
Qed.
Lemma compact_bits_roundtrip_witness :
  (∃ t', from_bits 0x1b0404cb = Some t' ∧ to_bits t' = Some 0x1b0404cb) ∧
  ∃ bits' t', to_bits {| threshold := le_bytes 32 123456789012 |} = Some bits' ∧
    from_bits bits' = Some t' ∧ le_val (threshold t') ≤ 123456789012.
Proof.
  destruct (compact_bits_roundtrip 0x1b0404cb {| threshold := le_bytes 32 123456789012 |})
    as [H1 H2]. split.
  - apply H1; [by split|]. split; vm_compute; split; (intros [=]) || reflexivity.
  - destruct H2 as (bits'&t'&Hb&Ht&Hle&_); [reflexivity|by split|]. exists bits', t'.
    split; [exact Hb|]. split; [exact Ht|exact Hle].
Defined.

(** The bit-by-bit 256-bit division is the integer quotient for every
    divisor without a [0xff] byte, and [None] for zero. *)
Theorem long_division_is_quotient (dividend divisor : list byte) :
  length dividend = 32%nat → length divisor = 32%nat → Forall (λ b, bz b ≠ 255) divisor →
  div_u256_le dividend divisor =
  if decide (le_val divisor = 0) then None
  else Some (le_bytes 32 (le_val dividend / le_val divisor)).
Proof.
  intros H1 H2 Hff. case_decide as Hz.
  - unfold div_u256_le. apply le_val_zero_iff in Hz. rewrite H2 in Hz.
    by rewrite bool_decide_eq_true_2.
  - apply div_u256_spec; [done|done| |by apply div_safe_no_ff].
    pose proof (le_val_bound divisor). lia.
Qed.
Lemma long_division_is_quotient_witness :
  div_u256_le (le_bytes 32 1000) (le_bytes 32 7) = Some (le_bytes 32 142).
Proof.
  rewrite long_division_is_quotient; [reflexivity|reflexivity|reflexivity|].
  repeat constructor; vm_compute; intros [=].
Defined.

(** The work of a block is Core's [2^256 / (target + 1)] for every valid
    compact field with an exponent of at least 19 (the real network's are at least 22) and a
    middle mantissa byte other than [0xff]. *)
Theorem block_work_is_core_proof (bits : Z) (t : Target) :
  in_u 32 bits → from_bits bits = Some t → 19 ≤ bits / 2 ^ 24 →
  bits / 2 ^ 8 mod 256 ≠ 255 →
  to_work t = Some (le_bytes 32 (2 ^ 256 / (compact_value bits + 1))).
Proof.
  intros Hb Ht He Hmid. rewrite (to_work_exact bits t) by done.
  by destruct (from_bits_spec bits t Hb Ht) as (_&->&_).
Qed.
Lemma block_work_is_core_proof_witness : ∃ t, from_bits 0x1d00feff = Some t ∧
  to_work t = Some (le_bytes 32 (2 ^ 256 / (compact_value 0x1d00feff + 1))).
Proof.
  destruct (from_bits 0x1d00feff) as [t|] eqn:Ht; [|by vm_compute in Ht].
  exists t. split; [reflexivity|].
  apply block_work_is_core_proof; [by split|exact Ht|vm_compute; intros [=]..].
Defined.

(** The middle byte matters: [right[index] + borrow] of [sub_u256_le] wraps at [0xff], the
    borrow is lost, and blocks with these fields count for too much work (with overflow
    checks the addition panics instead). *)
Lemma work_of_middle_ff :
  (to_work <$> from_bits 0x1b04ff80) = Some (Some (le_bytes 32 56316994168016)) ∧
  2 ^ 256 / (compact_value 0x1b04ff80 + 1) = 56316994167978.
Proof. split; vm_compute; reflexivity. Qed.

(** C37 (functional): retargeting, for every 32-bit field and timespan: a field that encodes no
    target is refused; otherwise the old target is multiplied by the timespan, clamped to a
    factor of four, and divided by two weeks, rounding down.  A result of more than 256 bits
    is an overflow and a result of zero cannot be encoded; any other result is capped at the
    easiest target, and the new field encodes it, rounded down, to 15 significant bits. *)
Theorem retarget_correct (prev_bits actual : Z) :
  in_u 32 prev_bits →
  let scaled := compact_value prev_bits *
                Z.max (TARGET_TIMESPAN / 4) (Z.min actual (4 * TARGET_TIMESPAN)) / TARGET_TIMESPAN in
  let V := Z.min scaled max_target in
  match from_bits prev_bits with
  | None => adjust_bits prev_bits actual = Err (InvalidPreviousBits prev_bits)
  | Some _ =>
      (2 ^ 256 ≤ scaled → adjust_bits prev_bits actual = Err DifficultyOverflow) ∧
      (scaled = 0 → adjust_bits prev_bits actual = Err EncodingFailed) ∧
      (0 < scaled < 2 ^ 256 → ∃ bits, adjust_bits prev_bits actual = Ok bits ∧ in_u 32 bits ∧
         is_Some (from_bits bits) ∧ compact_value bits ≤ V ∧
         (V - compact_value bits) * 2 ^ 15 ≤ compact_value bits)
  end.
Proof. intros Hb. by apply (adjust_bits_correct prev_bits actual). Qed.
Lemma retarget_correct_witness :
  ∃ bits, adjust_bits 0x1b0404cb 604800 = Ok bits ∧
          compact_value bits ≤ compact_value 0x1b0404cb * 604800 / 1209600.
Proof.
  destruct (from_bits 0x1b0404cb) as [t|] eqn:Ht; [|by vm_compute in Ht].
  assert (in_u 32 0x1b0404cb) as Hb by (by split).
  pose proof (retarget_correct 0x1b0404cb 604800 Hb) as H. rewrite Ht in H.
  destruct H as (_&_&H). destruct H as (bits&H1&_&_&H2&_); [vm_compute; split; reflexivity|].
  exists bits. split; [exact H1|]. etransitivity; [exact H2|]. vm_compute. intros [=].
Defined.

(** The easiest field of the tests does not stand a fourfold timespan. *)
Example retarget_overflows : adjust_bits 0x207fffff 4838400 = Err DifficultyOverflow.
Proof. vm_compute. reflexivity. Qed.
