(* ===== verification/Wire.v ===== *)
(** * The bounded wire decoder (bitrst-core/src/wire.rs) and compact sizes

    [WireReader] is a byte slice with a position; a decoder is a state computation on it.
    [reads m R] characterises a decoder exactly: it succeeds with [a] iff the unread input
    starts with some [bs] such that [R a bs], and it consumes [bs] and nothing else.  The
    characterisations compose, so a codec is specified by one lemma per field.  [usize] is
    64 bits wide. *)

From stdpp Require Import prelude strings list.
From Stdlib Require Import Strings.Byte.
From S2P Require Import Prelude Bytes.

(** ** Definitions *)

Inductive DecodeError :=
| Truncated (context : string) (needed remaining : Z)
| NonCanonicalCompactSize (context : string) (value : Z)
| LimitExceeded (context : string) (actual limit : Z)
| TrailingBytes (context : string) (remaining : Z).
#[global] Instance DecodeError_eq_dec : EqDecision DecodeError.
Proof. solve_decision. Defined.

Record WireReader := { wr_bytes : list byte; wr_position : nat }.

Definition new_reader (bytes : list byte) : WireReader :=
  {| wr_bytes := bytes; wr_position := 0 |}.

(** [self.bytes.len().saturating_sub(self.position)] *)
Definition remaining (r : WireReader) : Z :=
  Z.of_nat (length (wr_bytes r) - wr_position r).

Definition advance (n : nat) (r : WireReader) : WireReader :=
  {| wr_bytes := wr_bytes r; wr_position := wr_position r + n |}.

Definition Decoder (A : Type) : Type := SM WireReader DecodeError A.

Definition read_bytes (len : Z) (context : string) : Decoder (list byte) :=
  let! r := sget in
  if remaining r <? len then sthrow (Truncated context len (remaining r))
  else
    let n := Z.to_nat len in
    let out := take n (drop (wr_position r) (wr_bytes r)) in
    do! smodify (advance n) ;;
    sret out.

(** [read_array::<N>] differs from [read_bytes] only in copying into an array. *)
Definition read_array (N : nat) (context : string) : Decoder (list byte) :=
  let! r := sget in
  if remaining r <? Z.of_nat N then sthrow (Truncated context (Z.of_nat N) (remaining r))
  else
    let out := take N (drop (wr_position r) (wr_bytes r)) in
    do! smodify (advance N) ;;
    sret out.

Definition read_u32 (context : string) : Decoder Z :=
  let! bytes := read_array 4 context in sret (le_val bytes).
Definition read_i32 (context : string) : Decoder Z :=
  let! bytes := read_array 4 context in sret (signed 32 (le_val bytes)).
Definition read_u64 (context : string) : Decoder Z :=
  let! bytes := read_array 8 context in sret (le_val bytes).

Definition read_compact_size (context : string) : Decoder Z :=
  let! tag := read_array 1 context in
  let tag := le_val tag in
  let wide (width : nat) (minimum : Z) : Decoder Z :=
    let! bytes := read_array width context in
    let value := le_val bytes in
    if value <? minimum then sthrow (NonCanonicalCompactSize context value)
    else sret value in
  if tag <=? 0xfc then sret tag
  else if tag =? 0xfd then wide 2%nat 0xfd
  else if tag =? 0xfe then wide 4%nat 0x10000
  else wide 8%nat 0x100000000.

Definition read_limited_len (context : string) (limit : Z) : Decoder Z :=
  let! value := read_compact_size context in
  if limit <? value then sthrow (LimitExceeded context value limit)
  else sret value.

Definition finish (context : string) : Decoder unit :=
  let! r := sget in
  if negb (remaining r =? 0) then sthrow (TrailingBytes context (remaining r))
  else sret ().

(** [for _ in 0..n { v.push(body?) }] *)
Fixpoint read_many {E A} (n : nat) (body : SM WireReader E A) : SM WireReader E (list A) :=
  match n with
  | O => sret []
  | S n' => let! x := body in let! xs := read_many n' body in sret (x :: xs)
  end.

(** transaction.rs: the writer of the same integers. *)
Definition compact_size_encoded_len (value : Z) : Z :=
  if value <=? 0xfc then 1
  else if value <=? 0xffff then 3
  else if value <=? 0xffffffff then 5
  else 9.

Definition write_compact_size (value : Z) : list byte :=
  if value <=? 0xfc then [zb value]
  else if value <=? 0xffff then xfd :: le_bytes 2 value
  else if value <=? 0xffffffff then xfe :: le_bytes 4 value
  else xff :: le_bytes 8 value.

(** ** Exact specifications of decoders *)

(** The unread input. *)
Definition unread (r : WireReader) : list byte := drop (wr_position r) (wr_bytes r).

Definition reads {E A} (m : SM WireReader E A) (R : A → list byte → Prop) : Prop :=
  ∀ r a r', m r = (Ok a, r') ↔
    ∃ bs, R a bs ∧ bs `prefix_of` unread r ∧ r' = advance (length bs) r.

Lemma unread_advance n r : unread (advance n r) = drop n (unread r).
Proof. unfold unread, advance. simpl. by rewrite drop_drop. Qed.

Lemma advance_advance n m r : advance m (advance n r) = advance (n + m) r.
Proof. unfold advance. simpl. f_equal. lia. Qed.

Lemma remaining_unread r : remaining r = zlen (unread r).
Proof. unfold remaining, zlen, unread. by rewrite length_drop. Qed.

Lemma unread_new bs : unread (new_reader bs) = bs.
Proof. done. Qed.

Lemma prefix_drop_app (bs1 bs2 l : list byte) :
  bs1 ++ bs2 `prefix_of` l ↔ bs1 `prefix_of` l ∧ bs2 `prefix_of` drop (length bs1) l.
Proof.
  split.
  - intros [k ->]. rewrite <- (assoc_L (++)). split; [by apply prefix_app_r|].
    rewrite drop_app_length. by apply prefix_app_r.
  - intros [[k ->] [k' Hk]]. rewrite drop_app_length in Hk. subst k.
    rewrite (assoc_L (++)). by apply prefix_app_r.
Qed.

Section reads.
Context {E A B : Type}.

Lemma reads_equiv (m : SM WireReader E A) (R R' : A → list byte → Prop) :
  reads m R → (∀ a bs, R a bs ↔ R' a bs) → reads m R'.
Proof. intros Hm HR r a r'. rewrite (Hm r a r'). by setoid_rewrite HR. Qed.

Lemma reads_sret (a : A) : reads (sret a : SM WireReader E A) (λ b bs, b = a ∧ bs = []).
Proof.
  intros r b r'. unfold sret. split.
  - intros [= -> ->]. exists []. split_and!; [done|done|apply prefix_nil|].
    destruct r' as [bs p]. unfold advance. simpl. by rewrite Nat.add_0_r.
  - intros (bs&[-> ->]&_&->). destruct r as [bs p]. unfold advance. simpl.
    by rewrite Nat.add_0_r.
Qed.

Lemma reads_sthrow e : reads (sthrow e : SM WireReader E A) (λ _ _, False).
Proof. intros r a r'. unfold sthrow. split; [done|by intros (?&[]&_)]. Qed.

Lemma reads_sbind (m : SM WireReader E A) (f : A → SM WireReader E B) R1 R2 :
  reads m R1 → (∀ a, reads (f a) (R2 a)) →
  reads (sbind m f) (λ b bs, ∃ a bs1 bs2, R1 a bs1 ∧ R2 a b bs2 ∧ bs = bs1 ++ bs2).
Proof.
  intros Hm Hf r b r'. rewrite sbind_Ok. split.
  - intros (a&r1&(bs1&?&?&->)%Hm&(bs2&?&Hp&->)%Hf). exists (bs1 ++ bs2).
    split; [by exists a, bs1, bs2|]. rewrite unread_advance in Hp.
    split; [by apply prefix_drop_app|]. by rewrite advance_advance, length_app.
  - intros (bs&(a&bs1&bs2&H1&H2&->)&[Hp1 Hp2]%prefix_drop_app&->).
    exists a, (advance (length bs1) r). split; [apply Hm; by exists bs1|].
    apply Hf. exists bs2. rewrite unread_advance. split_and!; [done|done|].
    by rewrite advance_advance, length_app.
Qed.

Lemma reads_if (b : bool) (m1 m2 : SM WireReader E A) R1 R2 :
  reads m1 R1 → reads m2 R2 →
  reads (if b then m1 else m2) (λ a bs, if b then R1 a bs else R2 a bs).
Proof. by destruct b. Qed.

(** A decoder that must consume all of the unread input. *)
Definition parses (m : SM WireReader E A) (R : A → list byte → Prop) : Prop :=
  ∀ r a r', m r = (Ok a, r') ↔ R a (unread r) ∧ r' = advance (length (unread r)) r.
End reads.

Lemma reads_take n context (m : Decoder (list byte)) :
  m = (let! r := sget in
       if remaining r <? Z.of_nat n then sthrow (Truncated context (Z.of_nat n) (remaining r))
       else do! smodify (advance n) ;; sret (take n (drop (wr_position r) (wr_bytes r)))) →
  reads m (λ a bs, a = bs ∧ length bs = n).
Proof.
  intros -> r a r'. unfold sbind, sget, smodify, sret, sthrow.
  rewrite remaining_unread. fold (unread r). unfold zlen.
  destruct (Z.ltb_spec (Z.of_nat (length (unread r))) (Z.of_nat n)) as [Hs|Hs].
  - split; [done|]. intros (bs&[_ Hn]&Hp&_). apply prefix_length in Hp. lia.
  - split.
    + intros Heq. injection Heq as <- <-. exists (take n (unread r)).
      rewrite length_take_le by lia. split_and!; [done|done| |done].
      exists (drop n (unread r)). by rewrite take_drop.
    + intros (bs&[-> Hn]&[k Hk]&->). rewrite Hk, <- Hn, take_app_length. done.
Qed.

Lemma read_array_reads n context : reads (read_array n context) (λ a bs, a = bs ∧ length bs = n).
Proof. by eapply reads_take. Qed.

Lemma read_bytes_reads len context :
  0 ≤ len → reads (read_bytes len context) (λ a bs, a = bs ∧ zlen bs = len).
Proof.
  intros Hlen. eapply reads_equiv; [apply (reads_take (Z.to_nat len) context)|].
  - unfold read_bytes. by rewrite Z2Nat.id by done.
  - intros a bs. unfold zlen. split; intros [??]; (split; [done|lia]).
Qed.

(** Little-endian integers. *)
Lemma le_field_iff n a bs :
  (∃ bs', bs' = bs ∧ length bs = n ∧ a = le_val bs') ↔
  0 ≤ a < 256 ^ Z.of_nat n ∧ bs = le_bytes n a.
Proof.
  split.
  - intros (?&->&<-&->). rewrite le_bytes_le_val. split; [apply le_val_bound|done].
  - intros [Ha ->]. exists (le_bytes n a). by rewrite length_le_bytes, le_val_le_bytes_small.
Qed.

Lemma read_uint_reads n context :
  reads (let! bytes := read_array n context in sret (le_val bytes))
    (λ a bs, 0 ≤ a < 256 ^ Z.of_nat n ∧ bs = le_bytes n a).
Proof.
  eapply reads_equiv.
  { apply reads_sbind; [apply read_array_reads|intros; apply reads_sret]. }
  intros a bs. simpl. rewrite <- le_field_iff. split.
  - intros (x&bs1&bs2&[-> Hn]&[-> ->]&->). rewrite (right_id_L [] (++)). eauto.
  - intros (x&->&Hn&->). exists bs, bs, []. by rewrite (right_id_L [] (++)).
Qed.

Lemma read_u32_reads context : reads (read_u32 context) (λ a bs, in_u 32 a ∧ bs = le_bytes 4 a).
Proof. apply (read_uint_reads 4). Qed.

Lemma read_u64_reads context : reads (read_u64 context) (λ a bs, in_u 64 a ∧ bs = le_bytes 8 a).
Proof. apply (read_uint_reads 8). Qed.

Lemma le_bytes_mod n z : le_bytes n (z mod 256 ^ Z.of_nat n) = le_bytes n z.
Proof.
  apply le_val_inj; [by rewrite !length_le_bytes|]. rewrite !le_val_le_bytes.
  by rewrite Z.mod_mod by (pose proof (pow256_pos n); lia).
Qed.

Lemma read_i32_reads context : reads (read_i32 context) (λ a bs, in_i 32 a ∧ bs = le_bytes 4 a).
Proof.
  eapply reads_equiv.
  { apply reads_sbind; [apply read_array_reads|intros; apply reads_sret]. }
  intros a bs. simpl. split.
  - intros (x&bs1&bs2&[-> Hn]&[-> ->]&->). rewrite (right_id_L [] (++)).
    pose proof (le_val_bound bs1) as Hb. unfold zlen in Hb. rewrite Hn in Hb.
    destruct (signed_range 32 (le_val bs1)) as [Hi Hm]; [lia|by unfold in_u|].
    split; [done|]. rewrite <- (le_bytes_mod 4). change (256 ^ Z.of_nat 4) with (2 ^ 32).
    rewrite Hm, <- Hn. by rewrite le_bytes_le_val.
  - intros [Hi ->]. exists (le_bytes 4 a), (le_bytes 4 a), [].
    rewrite (right_id_L [] (++)), length_le_bytes. split_and!; try done.
    rewrite le_val_le_bytes. by rewrite (signed_wrap 32) by (done || lia).
Qed.

(** A canonical compact size: the written form, and only it, is accepted. *)
Lemma le_bytes_1_zb v : le_bytes 1 v = [zb v].
Proof. done. Qed.

Lemma read_compact_size_reads context :
  reads (read_compact_size context) (λ a bs, in_u 64 a ∧ bs = write_compact_size a).
Proof.
  unfold read_compact_size. eapply reads_equiv.
  { apply reads_sbind; [apply read_array_reads|]. intros tag. cbv zeta.
    repeat apply reads_if; try apply reads_sret.
    all: apply reads_sbind; [apply read_array_reads|].
    all: intros w; cbv zeta; apply reads_if; [apply reads_sthrow|apply reads_sret]. }
  intros a bs. simpl. unfold write_compact_size, in_u. split.
  - intros (t&?&bs2&[<- Ht]&Hr&->). destruct t as [|b [|]]; try done. cbn [le_val] in Hr.
    pose proof (bz_range b) as Hb. replace (bz b + 256 * 0) with (bz b) in Hr by lia.
    destruct (Z.leb_spec (bz b) 252).
    { destruct Hr as [-> ->]. split; [lia|].
      destruct (Z.leb_spec (bz b) 252); [|lia]. by rewrite zb_bz. }
    assert (∀ n m, (∃ (a0 bs1 bs3 : list byte), (a0 = bs1 ∧ length bs1 = n) ∧
        (if le_val a0 <? m then False else a = le_val a0 ∧ bs3 = []) ∧ bs2 = bs1 ++ bs3) →
        m ≤ a < 256 ^ Z.of_nat n ∧ bs2 = le_bytes n a) as Hwide.
    { intros n m (w&?&?&[<- <-]&Hc&->). destruct (Z.ltb_spec (le_val w) m); [done|].
      destruct Hc as [-> ->]. rewrite (right_id_L [] (++)), le_bytes_le_val.
      pose proof (le_val_bound w). unfold zlen in *. split; [lia|done]. }
    destruct (Z.eqb_spec (bz b) 253) as [Hb1|]; [|destruct (Z.eqb_spec (bz b) 254) as [Hb1|]].
    + apply Hwide in Hr as [Hr ->]. change (256 ^ Z.of_nat 2) with 65536 in Hr.
      rewrite <- (zb_bz b), Hb1. split; [lia|].
      destruct (Z.leb_spec a 252), (Z.leb_spec a 65535); try lia. done.
    + apply Hwide in Hr as [Hr ->]. change (256 ^ Z.of_nat 4) with 4294967296 in Hr.
      rewrite <- (zb_bz b), Hb1. split; [lia|].
      destruct (Z.leb_spec a 252), (Z.leb_spec a 65535), (Z.leb_spec a 4294967295); try lia. done.
    + apply Hwide in Hr as [Hr ->]. change (256 ^ Z.of_nat 8) with (2 ^ 64) in Hr.
      assert (bz b = 255) as Hb1 by lia. rewrite <- (zb_bz b), Hb1. split; [lia|].
      destruct (Z.leb_spec a 252), (Z.leb_spec a 65535), (Z.leb_spec a 4294967295); try lia. done.
  - intros [Ha ->].
    assert (∀ n m, m ≤ a < 256 ^ Z.of_nat n →
      ∃ (a0 bs1 bs3 : list byte), (a0 = bs1 ∧ length bs1 = n) ∧
        (if le_val a0 <? m then False else a = le_val a0 ∧ bs3 = []) ∧ le_bytes n a = bs1 ++ bs3)
      as Hwide.
    { intros n m Hm. exists (le_bytes n a), (le_bytes n a), [].
      rewrite length_le_bytes, (right_id_L [] (++)).
      rewrite le_val_le_bytes_small by (pose proof (pow256_pos n); lia).
      split_and!; try done. destruct (Z.ltb_spec a m); [lia|done]. }
    destruct (Z.leb_spec a 252) as [H1|H1]; [|destruct (Z.leb_spec a 65535) as [H2|H2];
      [|destruct (Z.leb_spec a 4294967295) as [H3|H3]]].
    + exists [zb a], [zb a], []. split_and!; try done. cbn [le_val]. rewrite bz_zb.
      rewrite Z.mod_small by lia. replace (a + 256 * 0) with a by lia.
      destruct (Z.leb_spec a 252); [done|lia].
    + exists [xfd], [xfd], (le_bytes 2 a). split_and!; try done. apply (Hwide 2%nat 253). change (256 ^ Z.of_nat 2) with 65536. lia.
    + exists [xfe], [xfe], (le_bytes 4 a). split_and!; try done. apply (Hwide 4%nat 65536). change (256 ^ Z.of_nat 4) with 4294967296. lia.
    + exists [xff], [xff], (le_bytes 8 a). split_and!; try done.
      apply (Hwide 8%nat 4294967296). change (256 ^ Z.of_nat 8) with (2 ^ 64). lia.
Qed.

Lemma read_limited_len_reads context limit :
  limit < 2 ^ 64 →
  reads (read_limited_len context limit)
    (λ a bs, 0 ≤ a ≤ limit ∧ bs = write_compact_size a).
Proof.
  intros Hlimit. unfold read_limited_len. eapply reads_equiv.
  { apply reads_sbind; [apply read_compact_size_reads|].
    intros v. apply reads_if; [apply reads_sthrow|apply reads_sret]. }
  intros a bs. simpl. unfold in_u. split.
  - intros (v&bs1&bs2&[? ->]&Hr&->). destruct (Z.ltb_spec limit v); [done|].
    destruct Hr as [-> ->]. rewrite (right_id_L [] (++)). split; [lia|done].
  - intros [? ->]. exists a, (write_compact_size a), []. rewrite (right_id_L [] (++)).
    split_and!; try done; [lia..|]. by destruct (Z.ltb_spec limit a); [lia|].
Qed.

(** Exactly [n] items, each encoded by [enc] and satisfying [P]. *)
Lemma read_many_reads {E A} n (body : SM WireReader E A) (P : A → Prop) (enc : A → list byte) :
  reads body (λ a bs, P a ∧ bs = enc a) →
  reads (read_many n body)
    (λ l bs, length l = n ∧ Forall P l ∧ bs = concat (map enc l)).
Proof.
  intros Hbody. induction n as [|n IH]; simpl.
  - eapply reads_equiv; [apply reads_sret|]. intros l bs. simpl. split.
    + intros [-> ->]. by split_and!.
    + intros (Hl&_&->). by destruct l.
  - eapply reads_equiv.
    { apply reads_sbind; [apply Hbody|]. intros x.
      apply reads_sbind; [apply IH|]. intros xs. apply reads_sret. }
    intros l bs. simpl. split.
    + intros (x&?&?&[Hx ->]&(xs&?&?&(Hl&Hf&->)&[-> ->]&->)&->).
      rewrite (right_id_L [] (++)). simpl. split_and!; [by rewrite Hl|by constructor|done].
    + intros (Hl&Hf&->). destruct l as [|x xs]; [done|]. apply Forall_cons in Hf as [? ?].
      simpl in *. injection Hl as Hl.
      exists x, (enc x), (concat (map enc xs)). split_and!; try done.
      exists xs, (concat (map enc xs)), []. by rewrite (right_id_L [] (++)).
Qed.

(** A counted vector: its length as a compact size, then the items. *)
Definition counted {A} (enc : A → list byte) (l : list A) : list byte :=
  write_compact_size (zlen l) ++ concat (map enc l).

Lemma read_counted_reads {A B} context limit (body : Decoder A) (P : A → Prop)
    (enc : A → list byte) (f : list A → Decoder B) R :
  limit < 2 ^ 64 → reads body (λ a bs, P a ∧ bs = enc a) → (∀ l, reads (f l) (R l)) →
  reads (let! n := read_limited_len context limit in
         let! l := read_many (Z.to_nat n) body in f l)
    (λ b bs, ∃ l bs', zlen l ≤ limit ∧ Forall P l ∧ R l b bs' ∧ bs = counted enc l ++ bs').
Proof.
  intros Hlimit Hbody Hf. unfold counted. eapply reads_equiv.
  { apply reads_sbind; [by apply read_limited_len_reads|]. intros n.
    apply reads_sbind; [by eapply read_many_reads|]. apply Hf. }
  intros b bs. simpl. split.
  - intros (n&?&?&[Hn ->]&(l&?&?&(Hl&HP&->)&HR&->)&->).
    assert (zlen l = n) as <- by (unfold zlen; lia). rewrite (assoc_L (++)).
    eexists l, _. split_and!; [lia|done..].
  - intros (l&bs'&Hl&HP&HR&->). pose proof (zlen_nonneg l).
    exists (zlen l), (write_compact_size (zlen l)), (concat (map enc l) ++ bs').
    rewrite <- (assoc_L (++)). split_and!; try done.
    exists l, (concat (map enc l)), bs'. split_and!; try done. unfold zlen. lia.
Qed.

(** A counted byte string (a script). *)
Definition counted_bytes (bs : list byte) : list byte := write_compact_size (zlen bs) ++ bs.

Lemma read_counted_bytes_reads {B} context context' limit (f : list byte → Decoder B) R :
  limit < 2 ^ 64 → (∀ l, reads (f l) (R l)) →
  reads (let! n := read_limited_len context limit in
         let! l := read_bytes n context' in f l)
    (λ b bs, ∃ l bs', zlen l ≤ limit ∧ R l b bs' ∧ bs = counted_bytes l ++ bs').
Proof.
  intros Hlimit Hf. unfold counted_bytes. intros r b r'.
  rewrite sbind_Ok. split.
  - intros (n&r1&(bs1&[Hn ->]&Hp&->)%read_limited_len_reads&(l&r2&Hl&Hr)%sbind_Ok); [|done].
    apply read_bytes_reads in Hl as (?&[<- Hl]&Hp2&->); [|lia].
    apply Hf in Hr as (bs'&HR&Hp3&->). rewrite !unread_advance in *. subst n.
    exists ((write_compact_size (zlen l) ++ l) ++ bs'). split_and!.
    + exists l, bs'. split_and!; [lia|done..].
    + rewrite <- (assoc_L (++)), !prefix_drop_app. by split_and!.
    + rewrite !advance_advance. f_equal. rewrite !length_app. lia.
  - intros (bs&(l&bs'&Hl&HR&->)&Hp&->). rewrite <- (assoc_L (++)), !prefix_drop_app in Hp.
    destruct Hp as (Hp1&Hp2&Hp3). pose proof (zlen_nonneg l).
    exists (zlen l), (advance (length (write_compact_size (zlen l))) r). split.
    { apply read_limited_len_reads; [done|]. exists (write_compact_size (zlen l)).
      by split_and!. }
    apply sbind_Ok. eexists l, _. split.
    { apply read_bytes_reads; [done|]. exists l. rewrite unread_advance. by split_and!. }
    apply Hf. exists bs'. rewrite !unread_advance. split_and!; [done|done|].
    rewrite !advance_advance. f_equal. rewrite !length_app. lia.
Qed.

Section parses.
Context {E A B : Type}.

Lemma parses_sbind (m : SM WireReader E A) (f : A → SM WireReader E B) R1 R2 :
  reads m R1 → (∀ a, parses (f a) (R2 a)) →
  parses (sbind m f) (λ b bs, ∃ a bs1 bs2, R1 a bs1 ∧ R2 a b bs2 ∧ bs = bs1 ++ bs2).
Proof.
  intros Hm Hf r b r'. rewrite sbind_Ok. split.
  - intros (a&r1&(bs1&?&[k Hk]&->)%Hm&[HR ->]%Hf). rewrite unread_advance, Hk in *.
    rewrite drop_app_length in *. rewrite advance_advance, length_app. eauto 10.
  - intros [(a&bs1&bs2&H1&H2&Hu) ->]. exists a, (advance (length bs1) r). split.
    + apply Hm. exists bs1. split_and!; [done|rewrite Hu; by apply prefix_app_r|done].
    + apply Hf. rewrite unread_advance, Hu, drop_app_length, advance_advance, length_app.
      done.
Qed.

Lemma parses_equiv (m : SM WireReader E A) (R R' : A → list byte → Prop) :
  parses m R → (∀ a bs, R a bs ↔ R' a bs) → parses m R'.
Proof. intros Hm HR r a r'. by rewrite (Hm r a r'), HR. Qed.

(** A parser run on a whole input. *)
Lemma parses_run (m : SM WireReader E A) R bs a :
  parses m R → (m (new_reader bs)).1 = Ok a ↔ R a bs.
Proof.
  intros Hm. destruct (m (new_reader bs)) as [res r'] eqn:Hrun. simpl. split.
  - intros ->. by apply Hm in Hrun as [HR _].
  - intros HR. assert (m (new_reader bs) = (Ok a, advance (length bs) (new_reader bs))) as Hr.
    { by apply Hm. }
    rewrite Hr in Hrun. by injection Hrun as <- _.
Qed.
End parses.

Lemma remaining_0 r : remaining r = 0 ↔ unread r = [].
Proof. rewrite remaining_unread. unfold zlen. rewrite <- length_zero_iff_nil. lia. Qed.

(** A top-level value: decode, then require the end of the input. *)
Lemma decode_all {A} (m : Decoder A) R context bs :
  reads m R → ∀ a,
  (sbind m (λ x, do! finish context ;; sret x) (new_reader bs)).1 = Ok a ↔ R a bs.
Proof.
  intros Hm a.
  assert (∀ r, remaining r = 0 ↔ unread r = []) as Hrem.
  { intros r. rewrite remaining_unread. unfold zlen. rewrite <- length_zero_iff_nil. lia. }
  destruct (sbind _ _ _) as [res r'] eqn:Hrun. simpl. split.
  - intros ->. apply sbind_Ok in Hrun as (x&r1&(bs1&HR&Hp&->)%Hm&(?&r2&Hf&Hs)%sbind_Ok).
    unfold sret in Hs. injection Hs as <- <-. unfold finish, sbind, sget, sret, sthrow in Hf.
    destruct (Z.eqb_spec (remaining (advance (length bs1) (new_reader bs))) 0) as [H0|];
      [|done]. apply Hrem in H0. rewrite unread_advance, unread_new in H0.
    destruct Hp as [k Hk]. rewrite unread_new in Hk. subst bs.
    rewrite drop_app_length in H0. subst k. by rewrite (right_id_L [] (++)).
  - intros HR. assert (m (new_reader bs) = (Ok a, advance (length bs) (new_reader bs))) as Hr.
    { apply Hm. by exists bs. }
    unfold sbind in Hrun. rewrite Hr in Hrun.
    unfold finish, sbind, sget in Hrun.
    assert (remaining (advance (length bs) (new_reader bs)) = 0) as H0.
    { apply Hrem. rewrite unread_advance, unread_new. apply drop_all. }
    rewrite H0 in Hrun. simpl in Hrun. unfold sret in Hrun. by injection Hrun as <- _.
Qed.

Lemma zlen_write_compact_size v : zlen (write_compact_size v) = compact_size_encoded_len v.
Proof.
  unfold write_compact_size, compact_size_encoded_len. repeat case_if; try done.
Qed.

Lemma compact_size_encoded_len_pos v : 1 ≤ compact_size_encoded_len v ≤ 9.
Proof. unfold compact_size_encoded_len. repeat case_if; lia. Qed.

Lemma zlen_concat_map {A} (f : A → list byte) l :
  zlen (concat (map f l)) = foldr (λ x acc, zlen (f x) + acc) 0 l.
Proof. induction l as [|x l IH]; [done|]. simpl. by rewrite zlen_app, IH. Qed.
