(* ===== verification/Transaction.v ===== *)
(** * Transactions (bitrst-core/src/transaction.rs, limits.rs)

    The data of a transaction, its wire codec, analytic size and identifier.  The codec is
    characterised by one equivalence: [deserialize] accepts exactly the serializations of
    well-formed, limit-respecting transactions. *)

From stdpp Require Import prelude strings list.
From Stdlib Require Import Strings.Byte.
From S2P Require Import Prelude Bytes Crypto U256 Wire.

Local Open Scope string_scope.
Local Open Scope Z_scope.
Local Open Scope list_scope.

(** ** Limits *)

Definition MAX_BLOCK_SERIALIZED_SIZE : Z := 4000000.
Definition MAX_TRANSACTION_SERIALIZED_SIZE : Z := MAX_BLOCK_SERIALIZED_SIZE.
Definition MAX_ORPHAN_BLOCKS : Z := 256.
Definition MAX_TRANSACTIONS_PER_BLOCK : Z := 25000.
Definition MAX_TRANSACTION_INPUTS : Z := 25000.
Definition MAX_TRANSACTION_OUTPUTS : Z := 25000.
Definition MAX_SCRIPT_SIZE : Z := 10000.
Definition MAX_MONEY : Z := 21000000 * 100000000.
Definition DEFAULT_MAX_MEMPOOL_TX_COUNT : Z := 5000.
Definition DEFAULT_MAX_MEMPOOL_BYTES : Z := 300000000.
Definition DEFAULT_CHAIN_EVENT_JOURNAL_CAPACITY : Z := 256.
Definition DEFAULT_DISCONNECTED_BLOCK_JOURNAL_CAPACITY : Z :=
  DEFAULT_CHAIN_EVENT_JOURNAL_CAPACITY.

(** ** Data *)

Record TxInput := {
  previous_output : list byte;
  txin_index : Z;
  script_sig : list byte;
  txin_sequence : Z
}.

Record TxOutput := {
  txout_value : Z;
  script_pubkey : list byte
}.

Record Transaction := {
  tx_version : Z;
  tx_inputs : list TxInput;
  tx_outputs : list TxOutput;
  tx_lock_time : Z
}.

#[global] Instance TxInput_eq_dec : EqDecision TxInput.
Proof. solve_decision. Defined.
#[global] Instance TxOutput_eq_dec : EqDecision TxOutput.
Proof. solve_decision. Defined.
#[global] Instance Transaction_eq_dec : EqDecision Transaction.
Proof. solve_decision. Defined.

(** The ranges of the Rust field types. *)
Definition txin_wf (i : TxInput) : Prop :=
  length (previous_output i) = 32%nat ∧ in_u 32 (txin_index i) ∧ in_u 32 (txin_sequence i).
Definition txout_wf (o : TxOutput) : Prop := in_u 64 (txout_value o).
Definition tx_wf (tx : Transaction) : Prop :=
  in_i 32 (tx_version tx) ∧ in_u 32 (tx_lock_time tx) ∧
  Forall txin_wf (tx_inputs tx) ∧ Forall txout_wf (tx_outputs tx).

(** The limits [deserialize] enforces below the top level. *)
Definition tx_within_limits (tx : Transaction) : Prop :=
  zlen (tx_inputs tx) ≤ MAX_TRANSACTION_INPUTS ∧
  zlen (tx_outputs tx) ≤ MAX_TRANSACTION_OUTPUTS ∧
  Forall (λ i, zlen (script_sig i) ≤ MAX_SCRIPT_SIZE) (tx_inputs tx) ∧
  Forall (λ o, zlen (script_pubkey o) ≤ MAX_SCRIPT_SIZE) (tx_outputs tx).

(** ** Operations *)

(** [Transaction::coinbase] *)
Definition coinbase_transaction (height reward : Z) : Transaction := {|
  tx_version := 1;
  tx_inputs := [{|
    previous_output := zero32;
    txin_index := U32_MAX;
    script_sig := le_bytes 4 height;
    txin_sequence := U32_MAX
  |}];
  tx_outputs := [{| txout_value := reward; script_pubkey := [] |}];
  tx_lock_time := 0
|}.

Definition serialize_input (input : TxInput) : list byte :=
  previous_output input ++
  le_bytes 4 (txin_index input) ++
  write_compact_size (zlen (script_sig input)) ++
  script_sig input ++
  le_bytes 4 (txin_sequence input).

Definition serialize_output (output : TxOutput) : list byte :=
  le_bytes 8 (txout_value output) ++
  write_compact_size (zlen (script_pubkey output)) ++
  script_pubkey output.

Definition serialize_tx (tx : Transaction) : list byte :=
  le_bytes 4 (tx_version tx) ++
  write_compact_size (zlen (tx_inputs tx)) ++
  concat (map serialize_input (tx_inputs tx)) ++
  write_compact_size (zlen (tx_outputs tx)) ++
  concat (map serialize_output (tx_outputs tx)) ++
  le_bytes 4 (tx_lock_time tx).

Definition decode_input : Decoder TxInput :=
  let! previous_output := read_bytes 32 "previous output hash" in
  let! index := read_u32 "previous output index" in
  let! script_len := read_limited_len "scriptSig" MAX_SCRIPT_SIZE in
  let! script_sig := read_bytes script_len "scriptSig" in
  let! sequence := read_u32 "input sequence" in
  sret {| previous_output := previous_output; txin_index := index;
          script_sig := script_sig; txin_sequence := sequence |}.

Definition decode_output : Decoder TxOutput :=
  let! value := read_u64 "output value" in
  let! script_len := read_limited_len "scriptPubKey" MAX_SCRIPT_SIZE in
  let! script_pubkey := read_bytes script_len "scriptPubKey" in
  sret {| txout_value := value; script_pubkey := script_pubkey |}.

Definition decode_tx : Decoder Transaction :=
  let! version := read_i32 "transaction version" in
  let! input_count := read_limited_len "transaction input count" MAX_TRANSACTION_INPUTS in
  let! inputs := read_many (Z.to_nat input_count) decode_input in
  let! output_count := read_limited_len "transaction output count" MAX_TRANSACTION_OUTPUTS in
  let! outputs := read_many (Z.to_nat output_count) decode_output in
  let! lock_time := read_u32 "transaction locktime" in
  sret {| tx_version := version; tx_inputs := inputs;
          tx_outputs := outputs; tx_lock_time := lock_time |}.

Definition deserialize_tx (bytes : list byte) : Result DecodeError Transaction :=
  if MAX_TRANSACTION_SERIALIZED_SIZE <? zlen bytes then
    Err (LimitExceeded "transaction size" (zlen bytes) MAX_TRANSACTION_SERIALIZED_SIZE)
  else
    (sbind decode_tx (λ transaction, do! finish "transaction" ;; sret transaction)
       (new_reader bytes)).1.

(** [serialized_size]: computed without serializing. *)
Definition serialized_size (tx : Transaction) : Z :=
  4 + compact_size_encoded_len (zlen (tx_inputs tx))
  + foldr (λ input acc,
      (32 + 4 + compact_size_encoded_len (zlen (script_sig input)) + zlen (script_sig input) + 4)
      + acc) 0 (tx_inputs tx)
  + compact_size_encoded_len (zlen (tx_outputs tx))
  + foldr (λ output acc,
      (8 + compact_size_encoded_len (zlen (script_pubkey output)) + zlen (script_pubkey output))
      + acc) 0 (tx_outputs tx)
  + 4.

Section txid.
Context {crypto : CryptoLib}.

Definition tx_id (tx : Transaction) : list byte := sha256d (serialize_tx tx).

Lemma length_tx_id {laws : CryptoLaws crypto} tx : length (tx_id tx) = 32%nat.
Proof. apply length_sha256d. Qed.
End txid.

(** ** Lemmas *)

Lemma MAX_SCRIPT_SIZE_lt : MAX_SCRIPT_SIZE < 2 ^ 64.
Proof. done. Qed.

Lemma decode_input_reads : reads decode_input (λ i bs,
  (txin_wf i ∧ zlen (script_sig i) ≤ MAX_SCRIPT_SIZE) ∧ bs = serialize_input i).
Proof.
  unfold decode_input, serialize_input, txin_wf. eapply reads_equiv.
  { apply reads_sbind; [by apply read_bytes_reads|]. intros prev.
    apply reads_sbind; [apply read_u32_reads|]. intros index.
    apply read_counted_bytes_reads; [done|]. intros script.
    apply reads_sbind; [apply read_u32_reads|]. intros seq. apply reads_sret. }
  intros i bs. unfold counted_bytes, zlen. simpl. split.
  - intros (prev&?&?&[<- Hp]&(ix&?&?&[? ->]&(sc&?&?&(sq&?&?&[? ->]&[-> ->]&->)&->)&->)&->).
    cbn. rewrite (right_id_L [] (++)), <- !(assoc_L (++)). split; [|done].
    split_and!; [lia|done..].
  - destruct i as [prev ix sc sq]. cbn. intros (((?&?&?)&?)&->).
    exists prev. eexists prev, _. split; [split; [done|lia]|]. split; [|done].
    exists ix. eexists _, _. split; [done|]. split; [|done].
    eexists sc, _. split; [done|]. split; [|by rewrite <- (assoc_L (++))].
    exists sq. eexists _, []. split; [done|]. by rewrite (right_id_L [] (++)).
Qed.

Lemma decode_output_reads : reads decode_output (λ o bs,
  (txout_wf o ∧ zlen (script_pubkey o) ≤ MAX_SCRIPT_SIZE) ∧ bs = serialize_output o).
Proof.
  unfold decode_output, serialize_output, txout_wf. eapply reads_equiv.
  { apply reads_sbind; [apply read_u64_reads|]. intros value.
    apply read_counted_bytes_reads; [done|]. intros script. apply reads_sret. }
  intros o bs. unfold counted_bytes. simpl. split.
  - intros (v&?&?&[? ->]&(sc&?&?&[-> ->]&->)&->). cbn.
    by rewrite (right_id_L [] (++)).
  - destruct o as [v sc]. cbn. intros ((?&?)&->).
    exists v. eexists _, _. split; [done|]. split; [|done].
    exists sc, []. by rewrite (right_id_L [] (++)).
Qed.

Lemma decode_tx_reads : reads decode_tx (λ tx bs,
  (tx_wf tx ∧ tx_within_limits tx) ∧ bs = serialize_tx tx).
Proof.
  unfold decode_tx, serialize_tx, tx_wf, tx_within_limits. eapply reads_equiv.
  { apply reads_sbind; [apply read_i32_reads|]. intros version.
    eapply read_counted_reads; [done|apply decode_input_reads|]. intros inputs.
    eapply read_counted_reads; [done|apply decode_output_reads|]. intros outputs.
    apply reads_sbind; [apply read_u32_reads|]. intros lock_time. apply reads_sret. }
  intros tx bs. unfold counted. simpl. split.
  - intros (v&?&?&[? ->]&(ins&?&?&[??]%Forall_and&(outs&?&?&[??]%Forall_and&(lt&?&?&[? ->]&[-> ->]&->)&->)&->)&->).
    cbn. rewrite (right_id_L [] (++)), <- !(assoc_L (++)). by split_and!.
  - destruct tx as [v ins outs lt]. cbn. intros (((?&?&?&?)&(?&?&?&?))&->).
    exists v. eexists _, _. split; [done|]. split; [|done].
    eexists ins, _. split; [done|]. split; [by apply Forall_and|]. split; [|by rewrite <- (assoc_L (++))].
    eexists outs, _. split; [done|]. split; [by apply Forall_and|]. split; [|by rewrite <- (assoc_L (++))].
    exists lt. eexists _, []. split; [done|]. by rewrite (right_id_L [] (++)).
Qed.

Lemma serialized_size_spec tx :
  Forall txin_wf (tx_inputs tx) → zlen (serialize_tx tx) = serialized_size tx.
Proof.
  intros Hwf. unfold serialize_tx, serialized_size.
  rewrite !zlen_app, !zlen_le_bytes, !zlen_write_compact_size, !zlen_concat_map.
  assert (foldr (λ x acc, zlen (serialize_input x) + acc) 0 (tx_inputs tx) =
    foldr (λ input acc, (32 + 4 + compact_size_encoded_len (zlen (script_sig input)) +
      zlen (script_sig input) + 4) + acc) 0 (tx_inputs tx)) as ->.
  { induction Hwf as [|i l (Hp&_) _ IH]; [done|]. cbn [foldr]. rewrite IH. f_equal.
    unfold serialize_input. rewrite !zlen_app, !zlen_le_bytes, zlen_write_compact_size.
    unfold zlen at 1. rewrite Hp. lia. }
  assert (foldr (λ x acc, zlen (serialize_output x) + acc) 0 (tx_outputs tx) =
    foldr (λ output acc, (8 + compact_size_encoded_len (zlen (script_pubkey output)) +
      zlen (script_pubkey output)) + acc) 0 (tx_outputs tx)) as ->.
  { induction (tx_outputs tx) as [|o l IH]; [done|]. cbn [foldr]. rewrite IH. f_equal.
    unfold serialize_output. rewrite !zlen_app, !zlen_le_bytes, zlen_write_compact_size. lia. }
  lia.
Qed.

Lemma serialized_size_nonneg tx : 10 ≤ serialized_size tx.
Proof.
  unfold serialized_size.
  pose proof (compact_size_encoded_len_pos (zlen (tx_inputs tx))).
  pose proof (compact_size_encoded_len_pos (zlen (tx_outputs tx))).
  assert (∀ l, 0 ≤ foldr (λ input acc, (32 + 4 +
    compact_size_encoded_len (zlen (script_sig input)) + zlen (script_sig input) + 4) + acc)
    0 l).
  { induction l as [|i l IH]; cbn [foldr]; [done|].
    pose proof (compact_size_encoded_len_pos (zlen (script_sig i))).
    pose proof (zlen_nonneg (script_sig i)). lia. }
  assert (∀ l, 0 ≤ foldr (λ output acc, (8 + compact_size_encoded_len
    (zlen (script_pubkey output)) + zlen (script_pubkey output)) + acc) 0 l).
  { induction l as [|o l IH]; cbn [foldr]; [done|].
    pose proof (compact_size_encoded_len_pos (zlen (script_pubkey o))).
    pose proof (zlen_nonneg (script_pubkey o)). lia. }
  specialize (H1 (tx_inputs tx)). specialize (H2 (tx_outputs tx)). lia.
Qed.

Lemma deserialize_tx_Ok bs tx :
  deserialize_tx bs = Ok tx ↔
  bs = serialize_tx tx ∧ tx_wf tx ∧ tx_within_limits tx ∧
  zlen bs ≤ MAX_TRANSACTION_SERIALIZED_SIZE.
Proof.
  unfold deserialize_tx. destruct (Z.ltb_spec MAX_TRANSACTION_SERIALIZED_SIZE (zlen bs)).
  - split; [done|]. lia.
  - rewrite (decode_all _ _ "transaction" bs decode_tx_reads tx). intuition lia.
Qed.

(** The identifier commits to the transaction: equal serializations are equal
    transactions. *)
Lemma serialize_tx_inj tx1 tx2 :
  tx_wf tx1 → tx_wf tx2 → tx_within_limits tx1 → tx_within_limits tx2 →
  serialize_tx tx1 = serialize_tx tx2 → tx1 = tx2.
Proof.
  intros Hw1 Hw2 Hl1 Hl2 Heq.
  assert (∀ tx, tx_wf tx ∧ tx_within_limits tx →
    decode_tx (new_reader (serialize_tx tx)) =
      (Ok tx, advance (length (serialize_tx tx)) (new_reader (serialize_tx tx)))) as Hdec.
  { intros tx Htx. apply decode_tx_reads. by exists (serialize_tx tx). }
  pose proof (Hdec tx1 (conj Hw1 Hl1)) as H1. pose proof (Hdec tx2 (conj Hw2 Hl2)) as H2.
  rewrite Heq in H1. congruence.
Qed.
