(* ===== verification/Merkle.v ===== *)
(** * The Merkle root of a transaction list (bitrst-core/src/merkle.rs)

    The level-by-level loop of the code, the recursive tree it computes, and what the root
    commits to. *)

From stdpp Require Import prelude list.
From Stdlib Require Import Strings.Byte.
From S2P Require Import Prelude Bytes Crypto Transaction.

Section merkle.
Context {crypto : CryptoLib}.
Implicit Types level txids : list (list byte).

(** ** Definitions *)

(** [level.chunks(2)]: a last odd element is paired with itself. *)
Fixpoint next_level (level : list (list byte)) : list (list byte) :=
  match level with
  | [] => []
  | [l] => [sha256d (l ++ l)]
  | l :: r :: rest => sha256d (l ++ r) :: next_level rest
  end.

(** [while level.len() > 1], run for at most [fuel] rounds. *)
Fixpoint merkle_loop (fuel : nat) (level : list (list byte)) : list (list byte) :=
  match fuel with
  | O => level
  | S fuel' => if (1 <? length level)%nat then merkle_loop fuel' (next_level level) else level
  end.

Definition merkle_root (txids : list (list byte)) : option (list byte) :=
  if bool_decide (txids = []) || (MAX_TRANSACTIONS_PER_BLOCK <? zlen txids) then None
  else head (merkle_loop (length txids) txids).

(** ** Specification

    A perfect binary tree of depth [d] over the leaves, a missing right half being a copy
    of the left one. *)
Fixpoint merkle_tree (d : nat) (leaves : list (list byte)) : list byte :=
  match d with
  | O => hd [] leaves
  | S d' =>
      let left := merkle_tree d' (take (2 ^ d') leaves) in
      let right := match drop (2 ^ d') leaves with
                   | [] => left
                   | rest => merkle_tree d' rest
                   end in
      sha256d (left ++ right)
  end.

(** ** Lemmas *)

(** Induction two elements at a time, along [next_level]. *)
Lemma pairs_ind (P : list (list byte) → Prop) :
  P [] → (∀ x, P [x]) → (∀ x y l, P l → P (x :: y :: l)) → ∀ l, P l.
Proof.
  intros H0 H1 H2 l. enough (P l ∧ ∀ x, P (x :: l)) by naive_solver.
  induction l as [|y l [IH1 IH2]]; split; auto.
Qed.

Lemma length_next_level level : length (next_level level) = (S (length level) / 2)%nat.
Proof.
  induction level as [|x|x y l IH] using pairs_ind; [done..|].
  cbn [next_level length]. rewrite IH.
  replace (S (S (S (length l))))%nat with (S (length l) + 1 * 2)%nat by lia.
  rewrite Nat.div_add by lia. lia.
Qed.

Lemma next_level_take k level : next_level (take (2 * k) level) = take k (next_level level).
Proof.
  revert k. induction level as [|x|x y l IH] using pairs_ind; intros k.
  - cbn [next_level]. by rewrite !take_nil.
  - destruct k as [|k]; [done|]. replace (2 * S k)%nat with (S (S (2 * k))) by lia.
    simpl. by rewrite ?take_nil.
  - destruct k as [|k]; [done|]. replace (2 * S k)%nat with (S (S (2 * k))) by lia.
    cbn [take next_level]. by rewrite IH.
Qed.

Lemma next_level_drop k level : next_level (drop (2 * k) level) = drop k (next_level level).
Proof.
  revert k. induction level as [|x|x y l IH] using pairs_ind; intros k.
  - cbn [next_level]. by rewrite !drop_nil.
  - destruct k as [|k]; [done|]. replace (2 * S k)%nat with (S (S (2 * k))) by lia.
    simpl. by rewrite ?drop_nil.
  - destruct k as [|k]; [done|]. replace (2 * S k)%nat with (S (S (2 * k))) by lia.
    cbn [drop next_level]. by rewrite IH.
Qed.

Lemma next_level_nil level : next_level level = [] ↔ level = [].
Proof. by destruct level as [|x [|y l]]. Qed.

Lemma take_ne_nil k level : k ≠ 0%nat → level ≠ [] → take k level ≠ [].
Proof. destruct k, level; simpl; congruence. Qed.

Lemma merkle_tree_S d leaves :
  merkle_tree (S d) leaves =
  let left := merkle_tree d (take (2 ^ d) leaves) in
  let right := match drop (2 ^ d) leaves with
               | [] => left
               | rest => merkle_tree d rest
               end in
  sha256d (left ++ right).
Proof. done. Qed.

(** One round of the loop removes one layer of the tree. *)
Lemma merkle_tree_next_level d level :
  level ≠ [] → (length level ≤ 2 ^ S d)%nat →
  merkle_tree (S d) level = merkle_tree d (next_level level).
Proof.
  revert level. induction d as [|d IH]; intros level Hne Hl.
  - destruct level as [|x [|y [|z l]]]; simpl in *; [done|done|done|lia].
  - rewrite (merkle_tree_S (S d)), (merkle_tree_S d (next_level level)). cbv zeta.
    assert (2 ^ S d = 2 * 2 ^ d)%nat as Hp by apply Nat.pow_succ_r'.
    assert (0 < 2 ^ d)%nat by (apply Nat.neq_0_lt_0, Nat.pow_nonzero; lia).
    rewrite Nat.pow_succ_r' in Hl.
    rewrite <- next_level_take, <- next_level_drop, <- Hp.
    rewrite <- (IH (take (2 ^ S d) level)).
    2:{ apply take_ne_nil; [lia|done]. }
    2:{ rewrite length_take. lia. }
    destruct (drop (2 ^ S d) level) as [|z rest] eqn:Hd; [done|].
    destruct (next_level (z :: rest)) eqn:Hz; [by apply (proj1 (next_level_nil _)) in Hz|].
    rewrite <- Hz, <- (IH (z :: rest)); [done|done|].
    rewrite <- Hd, length_drop. lia.
Qed.

Lemma half_log2_up n : (1 < n → Nat.log2_up n = S (Nat.log2_up (S n / 2)))%nat.
Proof.
  intros Hn. pose proof (Nat.div_mod (S n) 2 ltac:(lia)) as Hdm.
  pose proof (Nat.mod_upper_bound (S n) 2 ltac:(lia)) as Hm.
  set (h := (S n / 2)%nat) in *. set (m := (S n mod 2)%nat) in *.
  destruct (decide (h = 1)%nat) as [->|].
  { assert (n = 2)%nat as -> by lia. done. }
  destruct (Nat.log2_up_spec h ltac:(lia)) as [Hlo Hhi].
  assert (0 < Nat.log2_up h)%nat by (apply Nat.log2_up_pos; lia).
  apply Nat.log2_up_unique; [lia|]. cbn [pred].
  destruct (Nat.log2_up h) as [|k]; [lia|]. cbn [pred] in Hlo.
  rewrite !Nat.pow_succ_r' in *. lia.
Qed.

Lemma merkle_tree_depth_ok level : level ≠ [] → (length level ≤ 2 ^ Nat.log2_up (length level))%nat.
Proof.
  intros Hne. destruct (decide (length level = 1)%nat) as [->|]; [done|].
  apply Nat.log2_up_spec. destruct level as [|? [|]]; simpl in *; [done|lia|lia].
Qed.

Lemma merkle_loop_spec fuel level :
  level ≠ [] → (length level ≤ fuel)%nat →
  merkle_loop fuel level = [merkle_tree (Nat.log2_up (length level)) level].
Proof.
  revert level. induction fuel as [|fuel IH]; intros level Hne Hf.
  { destruct level; simpl in *; [done|lia]. }
  cbn [merkle_loop]. destruct (Nat.ltb_spec 1 (length level)) as [Hl|Hl].
  - rewrite IH.
    + rewrite length_next_level, (half_log2_up (length level)) by done.
      rewrite merkle_tree_next_level; [done|done|].
      rewrite <- (half_log2_up (length level)) by done. apply Nat.log2_up_spec. lia.
    + by rewrite next_level_nil.
    + rewrite length_next_level.
      assert (S (length level) / 2 < length level)%nat; [|lia].
      apply Nat.Div0.div_lt_upper_bound; lia.
  - destruct level as [|x [|y l]]; simpl in *; [done|done|lia].
Qed.

Lemma merkle_root_Some txids root :
  merkle_root txids = Some root ↔
  txids ≠ [] ∧ zlen txids ≤ MAX_TRANSACTIONS_PER_BLOCK ∧
  root = merkle_tree (Nat.log2_up (length txids)) txids.
Proof.
  unfold merkle_root. case_bool_decide as Hn; simpl; [naive_solver|].
  destruct (Z.ltb_spec MAX_TRANSACTIONS_PER_BLOCK (zlen txids)); [split; [done|lia]|].
  rewrite merkle_loop_spec by done. simpl. naive_solver.
Qed.

(** A pair of distinct 64-byte messages with one digest. *)
Definition sha256d_collision : Prop :=
  ∃ a b, length a = 64%nat ∧ length b = 64%nat ∧ a ≠ b ∧ sha256d a = sha256d b.

Context {laws : CryptoLaws crypto}.

Lemma length_merkle_tree d leaves :
  leaves ≠ [] → Forall (λ x, length x = 32%nat) leaves →
  length (merkle_tree d leaves) = 32%nat.
Proof.
  destruct d as [|d]; intros Hne Hl; [|apply length_sha256d].
  destruct Hl; [done|]. done.
Qed.

(** The tree commits to its leaves, up to a collision of the hash. *)
Lemma merkle_tree_binding d l1 l2 :
  length l1 = length l2 → l1 ≠ [] → (length l1 ≤ 2 ^ d)%nat →
  Forall (λ x, length x = 32%nat) l1 → Forall (λ x, length x = 32%nat) l2 →
  merkle_tree d l1 = merkle_tree d l2 → l1 = l2 ∨ sha256d_collision.
Proof.
  revert l1 l2. induction d as [|d IH]; intros l1 l2 Hlen Hne Hd Hl1 Hl2 Heq.
  { destruct l1 as [|x [|]], l2 as [|y [|]]; simpl in *; try lia; try done.
    left. by f_equal. }
  assert (0 < 2 ^ d)%nat by (apply Nat.neq_0_lt_0, Nat.pow_nonzero; lia).
  rewrite Nat.pow_succ_r' in Hd. cbn [merkle_tree] in Heq. cbv zeta in Heq.
  assert (∀ l : list (list byte), l ≠ [] → take (2 ^ d) l ≠ []) as Htk.
  { intros l ?. apply take_ne_nil; [lia|done]. }
  assert (l2 ≠ []) as Hne2 by (by destruct l1, l2).
  set (L l := merkle_tree d (take (2 ^ d) l)) in *.
  set (R l := match drop (2 ^ d) l with [] => L l | r => merkle_tree d r end) in *.
  assert (∀ l, l ≠ [] → Forall (λ x, length x = 32%nat) l →
    length (L l) = 32%nat ∧ length (R l) = 32%nat) as HLR.
  { intros l Hl HF. assert (length (L l) = 32%nat) as HL.
    { apply length_merkle_tree; [by apply Htk|by apply Forall_take]. }
    split; [done|]. unfold R. destruct (drop (2 ^ d) l) eqn:E; [done|].
    apply length_merkle_tree; [done|]. rewrite <- E. by apply Forall_drop. }
  destruct (HLR l1 Hne Hl1) as [HL1 HR1]. destruct (HLR l2 Hne2 Hl2) as [HL2 HR2].
  destruct (decide (L l1 ++ R l1 = L l2 ++ R l2)) as [Happ|Happ].
  2:{ right. exists (L l1 ++ R l1), (L l2 ++ R l2). rewrite !length_app. split_and!; auto; lia. }
  apply app_inj_1 in Happ as [HLe HRe]; [|congruence].
  destruct (IH (take (2 ^ d) l1) (take (2 ^ d) l2)) as [Ht|]; try (by right); auto using Forall_take.
  { rewrite !length_take. lia. }
  { rewrite length_take. lia. }
  assert (length (drop (2 ^ d) l1) = length (drop (2 ^ d) l2)) as Hdl by (rewrite !length_drop; lia).
  assert (drop (2 ^ d) l1 = drop (2 ^ d) l2 ∨ sha256d_collision) as [Hdr|?]; [|left|by right].
  - unfold R in HRe. destruct (drop (2 ^ d) l1) as [|z1 r1] eqn:E1,
      (drop (2 ^ d) l2) as [|z2 r2] eqn:E2; try done; [by left|].
    apply (IH (z1 :: r1) (z2 :: r2)); try done.
    + rewrite <- E1, length_drop. lia.
    + rewrite <- E1. by apply Forall_drop.
    + rewrite <- E2. by apply Forall_drop.
  - by rewrite <- (take_drop (2 ^ d) l1), <- (take_drop (2 ^ d) l2), Ht, Hdr.
Qed.

(** Repeating the last of an odd number of identifiers does not change the next level. *)
Lemma next_level_snoc_last level x :
  Nat.Odd (length level) → last level = Some x → next_level (level ++ [x]) = next_level level.
Proof.
  induction level as [|y|y z l IH] using pairs_ind; simpl; intros Ho Hx.
  - done.
  - by injection Hx as ->.
  - destruct l as [|w l]; simpl in *; [by destruct Ho as [k ?]; lia|].
    f_equal. apply IH; [|done]. destruct Ho as [k Hk]. exists (k - 1)%nat. lia.
Qed.

(** The root is not injective on lists of different lengths: repeating the last of an odd
    number of identifiers keeps it (CVE-2012-2459).  The code has no check against it. *)
Lemma merkle_root_duplicate_last txids x :
  (1 < length txids)%nat → Nat.Odd (length txids) → last txids = Some x →
  zlen txids < MAX_TRANSACTIONS_PER_BLOCK → merkle_root (txids ++ [x]) = merkle_root txids.
Proof.
  intros Hl Ho Hx Hmax.
  assert (txids ≠ []) as Hne by (by destruct txids).
  assert (txids ++ [x] ≠ []) as Hne' by (by destruct txids).
  assert (length (txids ++ [x]) = S (length txids)) as Hlen by (rewrite length_app; simpl; lia).
  assert (Nat.log2_up (length (txids ++ [x])) = Nat.log2_up (length txids)) as Hlog.
  { rewrite Hlen, (half_log2_up (S (length txids))), (half_log2_up (length txids)) by lia.
    do 2 f_equal. destruct Ho as [k ->].
    replace (S (S (2 * k + 1))) with (1 + S k * 2)%nat by lia.
    replace (S (2 * k + 1)) with (0 + S k * 2)%nat by lia. by rewrite !Nat.div_add. }
  assert (merkle_tree (Nat.log2_up (length txids)) (txids ++ [x]) =
    merkle_tree (Nat.log2_up (length txids)) txids) as Htree.
  { pose proof (Nat.log2_up_spec (S (length txids)) ltac:(lia)) as [_ Hs1].
    pose proof (Nat.log2_up_spec (length txids) Hl) as [_ Hs2].
    rewrite <- Hlen, Hlog in Hs1. revert Hs1 Hs2.
    rewrite (half_log2_up (length txids) Hl). intros Hs1 Hs2.
    rewrite !merkle_tree_next_level by done. by rewrite next_level_snoc_last. }
  destruct (merkle_root txids) as [root|] eqn:E.
  - apply merkle_root_Some in E as (_&_&->). apply merkle_root_Some.
    unfold zlen in *. rewrite Hlog, Htree. split_and!; [done|lia|done].
  - exfalso. assert (merkle_root txids = Some (merkle_tree (Nat.log2_up (length txids)) txids));
      [apply merkle_root_Some; split_and!; [done|lia|done]|congruence].
Qed.
End merkle.

(** ** Properties *)

(** C38 (equivalence): the level-by-level loop always ends and computes the recursive
    duplicate-padded tree of minimal depth, exactly for the lists of 1 to 25 000
    identifiers. *)
Theorem merkle_root_is_tree {crypto : CryptoLib} (txids : list (list byte)) :
  merkle_root txids =
  if decide (txids ≠ [] ∧ zlen txids ≤ MAX_TRANSACTIONS_PER_BLOCK)
  then Some (merkle_tree (Nat.log2_up (length txids)) txids) else None.
Proof.
  case_decide as H; [apply merkle_root_Some; naive_solver|].
  destruct (merkle_root txids) as [root|] eqn:E; [|done].
  apply merkle_root_Some in E. naive_solver.
Qed.

(** Two lists of the same length with the same root are the same list, or the
    computation exhibits a SHA-256d collision. *)
Theorem merkle_root_binding {crypto : CryptoLib} {laws : CryptoLaws crypto}
    (l1 l2 : list (list byte)) (root : list byte) :
  length l1 = length l2 →
  Forall (λ x, length x = 32%nat) l1 → Forall (λ x, length x = 32%nat) l2 →
  merkle_root l1 = Some root → merkle_root l2 = Some root →
  l1 = l2 ∨ sha256d_collision.
Proof.
  intros Hlen H1 H2 (?&_&Hr1)%merkle_root_Some (?&_&Hr2)%merkle_root_Some.
  apply (merkle_tree_binding (Nat.log2_up (length l1))); try done.
  - by apply merkle_tree_depth_ok.
  - congruence.
Qed.

Lemma merkle_root_binding_witness :
  let crypto := toy_crypto in
  let l := [replicate 32 x01; replicate 32 x02; replicate 32 x03] in
  ∃ root, merkle_root l = Some root ∧ (l = l ∨ sha256d_collision).
Proof.
  eexists. split; [by vm_compute|].
  eapply (@merkle_root_binding toy_crypto toy_laws); [done| | |by vm_compute..];
    repeat constructor.
Defined.
