(* ===== verification/Block.v ===== *)
(** * Blocks and headers (bitrst-core/src/block.rs, time.rs)

    The 80-byte header codec, the block codec, the analytic size, the block hash and the
    Merkle commitment of a block; and the timestamp rule. *)

From stdpp Require Import prelude strings list.
From Stdlib Require Import Strings.Byte.
From S2P Require Import Prelude Bytes Crypto U256 Wire Transaction Merkle.

Local Open Scope string_scope.
Local Open Scope Z_scope.
Local Open Scope list_scope.

(** ** Data *)

Record BlockHeader := {
  hdr_version : Z;
  prev_blockhash : list byte;
  hdr_merkle_root : list byte;
  hdr_time : Z;
  hdr_bits : Z;
  hdr_nonce : Z
}.

Record Block := {
  header : BlockHeader;
  transactions : list Transaction
}.

#[global] Instance BlockHeader_eq_dec : EqDecision BlockHeader.
Proof. solve_decision. Defined.
#[global] Instance Block_eq_dec : EqDecision Block.
Proof. solve_decision. Defined.

Definition header_wf (h : BlockHeader) : Prop :=
  in_i 32 (hdr_version h) ∧ length (prev_blockhash h) = 32%nat ∧
  length (hdr_merkle_root h) = 32%nat ∧
  in_u 32 (hdr_time h) ∧ in_u 32 (hdr_bits h) ∧ in_u 32 (hdr_nonce h).
Definition block_wf (b : Block) : Prop :=
  header_wf (header b) ∧ Forall tx_wf (transactions b).

(** ** Codec *)

Definition serialize_header (h : BlockHeader) : list byte :=
  le_bytes 4 (hdr_version h) ++ prev_blockhash h ++ hdr_merkle_root h ++
  le_bytes 4 (hdr_time h) ++ le_bytes 4 (hdr_bits h) ++ le_bytes 4 (hdr_nonce h).

Definition decode_header : Decoder BlockHeader :=
  let! version := read_i32 "block version" in
  let! prev := read_bytes 32 "previous block hash" in
  let! root := read_bytes 32 "merkle root" in
  let! time := read_u32 "block time" in
  let! bits := read_u32 "block bits" in
  let! nonce := read_u32 "block nonce" in
  sret {| hdr_version := version; prev_blockhash := prev; hdr_merkle_root := root;
          hdr_time := time; hdr_bits := bits; hdr_nonce := nonce |}.

Definition deserialize_header (bytes : list byte) : Result DecodeError BlockHeader :=
  (sbind decode_header (λ header, do! finish "block header" ;; sret header)
     (new_reader bytes)).1.

Definition serialize_block (b : Block) : list byte :=
  serialize_header (header b) ++
  write_compact_size (zlen (transactions b)) ++
  concat (map serialize_tx (transactions b)).

Definition decode_block : Decoder Block :=
  let! header := decode_header in
  let! count := read_limited_len "block transaction count" MAX_TRANSACTIONS_PER_BLOCK in
  let! transactions := read_many (Z.to_nat count) decode_tx in
  sret {| header := header; transactions := transactions |}.

Definition deserialize_block (bytes : list byte) : Result DecodeError Block :=
  if MAX_BLOCK_SERIALIZED_SIZE <? zlen bytes then
    Err (LimitExceeded "block size" (zlen bytes) MAX_BLOCK_SERIALIZED_SIZE)
  else
    (sbind decode_block (λ block, do! finish "block" ;; sret block) (new_reader bytes)).1.

Definition block_serialized_size (b : Block) : Z :=
  80 + compact_size_encoded_len (zlen (transactions b))
  + foldr (λ tx acc, serialized_size tx + acc) 0 (transactions b).

(** ** Hashes *)

Section block.
Context {crypto : CryptoLib}.

Definition header_hash (h : BlockHeader) : list byte := sha256d (serialize_header h).
Definition block_hash (b : Block) : list byte := header_hash (header b).

Definition merkle_root_from_transactions (txs : list Transaction) : option (list byte) :=
  if bool_decide (txs = []) then None else merkle_root (map tx_id txs).

Definition block_merkle_root (b : Block) : option (list byte) :=
  merkle_root_from_transactions (transactions b).

Definition header_merkle_root_matches (b : Block) : bool :=
  match block_merkle_root b with
  | Some root => bool_decide (root = hdr_merkle_root (header b))
  | None => false
  end.

(** [Block::coinbase] *)
Definition coinbase_block (h : BlockHeader) (height reward : Z) : Block :=
  let txs := [coinbase_transaction height reward] in
  let h := match merkle_root_from_transactions txs with
           | Some root =>
               {| hdr_version := hdr_version h; prev_blockhash := prev_blockhash h;
                  hdr_merkle_root := root; hdr_time := hdr_time h;
                  hdr_bits := hdr_bits h; hdr_nonce := hdr_nonce h |}
           | None => h
           end in
  {| header := h; transactions := txs |}.
End block.

(** ** Timestamps (time.rs) *)

Definition MAX_FUTURE_BLOCK_TIME : Z := 2 * 60 * 60.

Definition valid_block_time (block_time median_past_time network_time : Z) : bool :=
  (median_past_time <? block_time) &&
  (block_time <=? u32_saturating_add network_time MAX_FUTURE_BLOCK_TIME).

(** ** Lemmas *)

Lemma decode_header_reads :
  reads decode_header (λ h bs, header_wf h ∧ bs = serialize_header h).
Proof.
  unfold decode_header, serialize_header, header_wf. eapply reads_equiv.
  { apply reads_sbind; [apply read_i32_reads|]. intros version.
    apply reads_sbind; [by apply read_bytes_reads|]. intros prev.
    apply reads_sbind; [by apply read_bytes_reads|]. intros root.
    apply reads_sbind; [apply read_u32_reads|]. intros time.
    apply reads_sbind; [apply read_u32_reads|]. intros bits.
    apply reads_sbind; [apply read_u32_reads|]. intros nonce. apply reads_sret. }
  intros h bs. unfold zlen. simpl. split.
  - intros (v&?&?&[? ->]&(p&?&?&[<- ?]&(r&?&?&[<- ?]&(t&?&?&[? ->]&(b&?&?&[? ->]&
      (n&?&?&[? ->]&[-> ->]&->)&->)&->)&->)&->)&->).
    cbn. rewrite (right_id_L [] (++)). split; [|done]. by split_and!; try lia.
  - destruct h as [v p r t b n]. cbn. intros ((?&?&?&?&?&?)&->).
    exists v. eexists _, _. split; [done|]. split; [|done].
    exists p. eexists p, _. split; [split; [done|lia]|]. split; [|done].
    exists r. eexists r, _. split; [split; [done|lia]|]. split; [|done].
    exists t. eexists _, _. split; [done|]. split; [|done].
    exists b. eexists _, _. split; [done|]. split; [|done].
    exists n. eexists _, []. split; [done|]. by rewrite (right_id_L [] (++)).
Qed.

Lemma decode_block_reads : reads decode_block (λ b bs,
  (block_wf b ∧ zlen (transactions b) ≤ MAX_TRANSACTIONS_PER_BLOCK ∧
   Forall tx_within_limits (transactions b)) ∧ bs = serialize_block b).
Proof.
  unfold decode_block, serialize_block, block_wf. eapply reads_equiv.
  { apply reads_sbind; [apply decode_header_reads|]. intros h.
    eapply read_counted_reads; [done|apply decode_tx_reads|]. intros txs. apply reads_sret. }
  intros b bs. unfold counted. simpl. split.
  - intros (h&?&?&[? ->]&(txs&?&?&[??]%Forall_and&[-> ->]&->)&->).
    cbn. rewrite (right_id_L [] (++)). by split_and!.
  - destruct b as [h txs]. cbn. intros (([??]&?&?)&->).
    exists h. eexists _, _. split; [done|]. split; [|done].
    exists txs, []. split_and!; try done; [by apply Forall_and|].
    by rewrite (right_id_L [] (++)).
Qed.

Lemma length_serialize_header h : header_wf h → length (serialize_header h) = 80%nat.
Proof.
  intros (_&Hp&Hr&_). unfold serialize_header.
  by rewrite !length_app, !length_le_bytes, Hp, Hr.
Qed.

Lemma deserialize_block_Ok bs b :
  deserialize_block bs = Ok b ↔
  bs = serialize_block b ∧ block_wf b ∧ zlen (transactions b) ≤ MAX_TRANSACTIONS_PER_BLOCK ∧
  Forall tx_within_limits (transactions b) ∧ zlen bs ≤ MAX_BLOCK_SERIALIZED_SIZE.
Proof.
  unfold deserialize_block. destruct (Z.ltb_spec MAX_BLOCK_SERIALIZED_SIZE (zlen bs)).
  - split; [done|]. lia.
  - rewrite (decode_all _ _ "block" bs decode_block_reads b). intuition lia.
Qed.

Lemma deserialize_header_Ok bs h :
  deserialize_header bs = Ok h ↔ bs = serialize_header h ∧ header_wf h.
Proof. unfold deserialize_header. rewrite (decode_all _ _ _ bs decode_header_reads). tauto. Qed.

Lemma block_serialized_size_spec b :
  block_wf b → zlen (serialize_block b) = block_serialized_size b.
Proof.
  intros [Hh Htxs]. unfold serialize_block, block_serialized_size.
  rewrite !zlen_app, zlen_write_compact_size, zlen_concat_map.
  unfold zlen at 1. rewrite length_serialize_header by done.
  assert (foldr (λ x acc, zlen (serialize_tx x) + acc) 0 (transactions b) =
    foldr (λ tx acc, serialized_size tx + acc) 0 (transactions b)) as ->; [|lia].
  induction Htxs as [|tx l (_&_&Hi&_) _ IH]; [done|]. cbn [foldr].
  by rewrite IH, serialized_size_spec.
Qed.

Lemma valid_block_time_true block_time mtp now :
  valid_block_time block_time mtp now = true ↔
  mtp < block_time ∧ block_time ≤ Z.min (now + 7200) U32_MAX.
Proof.
  unfold valid_block_time, u32_saturating_add. rewrite andb_true_iff, Z.ltb_lt, Z.leb_le.
  done.
Qed.

Section block_lemmas.
Context {crypto : CryptoLib}.

Lemma header_merkle_root_matches_true b :
  header_merkle_root_matches b = true ↔
  merkle_root (map tx_id (transactions b)) = Some (hdr_merkle_root (header b)).
Proof.
  unfold header_merkle_root_matches, block_merkle_root, merkle_root_from_transactions.
  case_bool_decide as Hn.
  - rewrite Hn. split; done.
  - destruct (merkle_root _) as [root|]; [|done]. rewrite bool_decide_eq_true.
    split; [by intros ->|by intros [= ->]].
Qed.

Lemma length_block_hash {laws : CryptoLaws crypto} b : length (block_hash b) = 32%nat.
Proof. apply length_sha256d. Qed.
End block_lemmas.

(** ** Properties *)

(** A transaction decodes from a byte string exactly when the string is its
    canonical serialization and it respects the type ranges and resource limits.  Both
    round trips, canonicity, and rejection of trailing or truncated input follow. *)
Theorem transaction_codec_exact (bs : list byte) (tx : Transaction) :
  deserialize_tx bs = Ok tx ↔
  bs = serialize_tx tx ∧ tx_wf tx ∧ tx_within_limits tx ∧ serialized_size tx ≤ 4000000.
Proof.
  rewrite deserialize_tx_Ok. split; intros (Hbs&Hwf&Hl&Hs); split_and!; try done.
  - rewrite <- serialized_size_spec by apply Hwf. by rewrite <- Hbs.
  - rewrite Hbs, serialized_size_spec by apply Hwf. done.
Qed.

(** C36 (roundtrip): a block decodes from bytes exactly when they are its serialization, its
    fields are in the range of their machine types and it is within the limits; and for every
    block with fields in range the analytic size used by the limit checks is the length of
    the serialization. *)
Theorem block_codec_exact (bs : list byte) (b : Block) :
  (deserialize_block bs = Ok b ↔
   bs = serialize_block b ∧ block_wf b ∧ zlen (transactions b) ≤ 25000 ∧
   Forall tx_within_limits (transactions b) ∧ block_serialized_size b ≤ 4000000) ∧
  (block_wf b → zlen (serialize_block b) = block_serialized_size b).
Proof.
  split; [|apply block_serialized_size_spec].
  rewrite deserialize_block_Ok. split; intros (Hbs&Hwf&Hn&Hl&Hs); split_and!; try done.
  - rewrite <- block_serialized_size_spec by done. by rewrite <- Hbs.
  - rewrite Hbs, block_serialized_size_spec by done. done.
Qed.

(** A header and a coinbase, decoded from their serialization. *)
Definition one_coinbase : Block := {|
  header := {| hdr_version := 1; prev_blockhash := zero32; hdr_merkle_root := zero32; hdr_time := 7;
               hdr_bits := 0x207fffff; hdr_nonce := 3 |};
  transactions := [coinbase_transaction 1 50] |}.
Lemma block_codec_exact_witness :
  block_wf one_coinbase ∧ zlen (serialize_block one_coinbase) = block_serialized_size one_coinbase.
Proof.
  assert (deserialize_block (serialize_block one_coinbase) = Ok one_coinbase) as Hd
    by (vm_compute; reflexivity).
  destruct (proj1 (proj1 (block_codec_exact (serialize_block one_coinbase) one_coinbase)) Hd)
    as (_&Hwf&_).
  split; [exact Hwf|exact (proj2 (block_codec_exact (serialize_block one_coinbase) one_coinbase) Hwf)].
Defined.

(** A block whose header commits to its transactions cannot be given other
    transactions, as many, under the same header without a SHA-256d collision on 64-byte
    nodes or on two serialized transactions. *)
Theorem header_commits_to_transactions {crypto : CryptoLib} {laws : CryptoLaws crypto}
    (b1 b2 : Block) :
  block_wf b1 → block_wf b2 →
  Forall tx_within_limits (transactions b1) → Forall tx_within_limits (transactions b2) →
  header_merkle_root_matches b1 = true → header_merkle_root_matches b2 = true →
  header b1 = header b2 → length (transactions b1) = length (transactions b2) →
  b1 = b2 ∨ sha256d_collision ∨
  ∃ tx1 tx2, tx1 ≠ tx2 ∧ sha256d (serialize_tx tx1) = sha256d (serialize_tx tx2) ∧
             serialize_tx tx1 ≠ serialize_tx tx2.
Proof.
  intros [_ Hw1] [_ Hw2] Hl1 Hl2 Hm1%header_merkle_root_matches_true
    Hm2%header_merkle_root_matches_true Hh Hlen.
  rewrite <- Hh in Hm2. apply merkle_root_Some in Hm1 as (Hne&Hmax&Hr1).
  apply merkle_root_Some in Hm2 as (_&_&Hr2).
  assert (∀ txs, Forall (λ x, length x = 32%nat) (map tx_id txs)) as H32.
  { intros txs. apply Forall_fmap, Forall_true. intros tx. apply length_tx_id. }
  destruct (merkle_tree_binding (Nat.log2_up (length (map tx_id (transactions b1))))
    (map tx_id (transactions b1)) (map tx_id (transactions b2))) as [Hids|]; auto.
  { by rewrite !length_map. }
  { apply (merkle_tree_depth_ok (map tx_id (transactions b1)) Hne). }
  { rewrite <- Hr1, Hr2. by rewrite !length_map, Hlen. }
  destruct b1 as [h1 txs1], b2 as [h2 txs2]. simpl in *. subst h2.
  clear Hr1 Hr2 Hne Hmax. revert txs2 Hw2 Hl2 Hlen Hids.
  induction txs1 as [|x1 l1 IH]; intros [|x2 l2]; intros; try done; [by left|].
  simpl in *. injection Hids as Hx Hrest. injection Hlen as Hlen.
  rewrite !Forall_cons in *. destruct Hw1, Hw2, Hl1, Hl2.
  destruct (decide (x1 = x2)) as [->|Hneq].
  - destruct (IH ltac:(done) ltac:(done) l2) as [[= ->]|]; auto.
  - right; right. exists x1, x2. split_and!; [done|done|].
    intros ?. by apply Hneq, serialize_tx_inj.
Qed.
