(* ===== verification/Utxo.v ===== *)
(** * The UTXO set (bitrst-core/src/utxo.rs)

    Validation of a transaction against the set, its application with undo data, and the
    reversal used when a block is disconnected. *)

From stdpp Require Import prelude gmap strings list fin_maps.
From Stdlib Require Import Strings.Byte.
From S2P Require Import Prelude Bytes Crypto U256 Wire Transaction.

Local Open Scope Z_scope.

(** ** Data *)

Record OutPoint := { op_txid : list byte; op_index : Z }.
#[global] Instance OutPoint_eq_dec : EqDecision OutPoint.
Proof. solve_decision. Defined.
#[global] Program Instance OutPoint_countable : Countable OutPoint :=
  inj_countable' (λ o, (op_txid o, op_index o)) (λ p, {| op_txid := p.1; op_index := p.2 |}) _.
Next Obligation. by intros []. Qed.

Record UtxoEntry := { ue_value : Z; ue_script_pubkey : list byte }.
#[global] Instance UtxoEntry_eq_dec : EqDecision UtxoEntry.
Proof. solve_decision. Defined.

Record TxUndo := { removed : list (OutPoint * UtxoEntry); created : list OutPoint }.

Inductive UtxoError :=
| MissingInput (txid : list byte) (index : Z)
| NegativeOutputValue
| ValueOverflow
| InputOutputMismatch (inputs outputs : Z)
| DuplicateSpend (txid : list byte) (index : Z).
#[global] Instance UtxoError_eq_dec : EqDecision UtxoError.
Proof. solve_decision. Defined.

(** [UtxoSet] is its one field, the map of entries. *)
Abbreviation UtxoSet := (gmap OutPoint UtxoEntry).
Definition new_utxo_set : UtxoSet := ∅.

(** ** Operations *)

Definition utxo_contains (u : UtxoSet) (o : OutPoint) : bool := bool_decide (is_Some (u !! o)).
Definition utxo_get (u : UtxoSet) (o : OutPoint) : option UtxoEntry := u !! o.
Definition get_value (u : UtxoSet) (o : OutPoint) : option Z := ue_value <$> utxo_get u o.

(** The outpoint an input spends. *)
Definition input_outpoint (input : TxInput) : OutPoint :=
  {| op_txid := previous_output input; op_index := txin_index input |}.

Definition is_coinbase (tx : Transaction) : bool :=
  match tx_inputs tx with
  | [input] => bool_decide (previous_output input = zero32) && (txin_index input =? U32_MAX)
  | _ => false
  end.

Definition output_sum (tx : Transaction) : Result UtxoError Z :=
  rfold (λ sum_out output, ok_or (u64_checked_add sum_out (txout_value output)) ValueOverflow)
    0 (tx_outputs tx).

Definition validate_output_sum (tx : Transaction) : Result UtxoError unit :=
  check? output_sum tx ;; Ok ().

(** The loop that sums the inputs' values. *)
Definition input_sum (u : UtxoSet) (tx : Transaction) : Result UtxoError Z :=
  rfold (λ sum_in input,
    let outpoint := input_outpoint input in
    let? value := ok_or (get_value u outpoint)
                    (MissingInput (op_txid outpoint) (op_index outpoint)) in
    ok_or (u64_checked_add sum_in value) ValueOverflow) 0 (tx_inputs tx).

Definition validate_transaction (u : UtxoSet) (tx : Transaction) : Result UtxoError unit :=
  if is_coinbase tx then validate_output_sum tx
  else
    let? sum_in := input_sum u tx in
    let? sum_out := output_sum tx in
    if sum_in <? sum_out then Err (InputOutputMismatch sum_in sum_out) else Ok ().

(** [for input in &tx.inputs { if let Some(entry) = entries.remove(..) { removed.push(..) } }] *)
Fixpoint remove_inputs (u : UtxoSet) (inputs : list TxInput)
    : list (OutPoint * UtxoEntry) * UtxoSet :=
  match inputs with
  | [] => ([], u)
  | input :: inputs' =>
      let outpoint := input_outpoint input in
      match u !! outpoint with
      | Some entry =>
          let '(removed, u') := remove_inputs (delete outpoint u) inputs' in
          ((outpoint, entry) :: removed, u')
      | None => remove_inputs u inputs'
      end
  end.

(** The outpoint and entry of output number [i]; [index as u32] truncates. *)
Definition output_outpoint (txid : list byte) (i : nat) : OutPoint :=
  {| op_txid := txid; op_index := Z.of_nat i mod 2 ^ 32 |}.
Definition output_entry (output : TxOutput) : UtxoEntry :=
  {| ue_value := txout_value output; ue_script_pubkey := script_pubkey output |}.

(** [for (index, output) in tx.outputs.iter().enumerate()], from [index] on. *)
Fixpoint insert_outputs (txid : list byte) (index : nat) (outputs : list TxOutput)
    (u : UtxoSet) : list OutPoint * UtxoSet :=
  match outputs with
  | [] => ([], u)
  | output :: outputs' =>
      let outpoint := output_outpoint txid index in
      let '(created, u') := insert_outputs txid (S index) outputs'
                              (<[outpoint := output_entry output]> u) in
      (outpoint :: created, u')
  end.

Definition disconnect_undo (u : UtxoSet) (undo : TxUndo) : UtxoSet :=
  let u := foldl (λ u outpoint, delete outpoint u) u (created undo) in
  foldl (λ u '(outpoint, entry), <[outpoint := entry]> u) u (removed undo).

Section utxo.
Context {crypto : CryptoLib}.

Definition apply_transaction (u : UtxoSet) (tx : Transaction) : TxUndo * UtxoSet :=
  let '(removed, u) := if is_coinbase tx then ([], u) else remove_inputs u (tx_inputs tx) in
  let txid := tx_id tx in
  let '(created, u) := insert_outputs txid 0 (tx_outputs tx) u in
  ({| removed := removed; created := created |}, u).

(** The loop of [apply_block_transactions] and its reversal in [disconnect_tip_block]. *)
Fixpoint apply_transactions (u : UtxoSet) (txs : list Transaction) : list TxUndo * UtxoSet :=
  match txs with
  | [] => ([], u)
  | tx :: txs' =>
      let '(undo, u) := apply_transaction u tx in
      let '(undos, u) := apply_transactions u txs' in
      (undo :: undos, u)
  end.
Definition disconnect_undos (u : UtxoSet) (undos : list TxUndo) : UtxoSet :=
  foldl disconnect_undo u (rev undos).

(** ** Specifications *)

(** What a transaction spends and creates. *)
Definition spent_outpoints (tx : Transaction) : list OutPoint :=
  if is_coinbase tx then [] else map input_outpoint (tx_inputs tx).
Definition spend (u : UtxoSet) (tx : Transaction) : UtxoSet :=
  filter (λ '(o, _), o ∉ spent_outpoints tx) u.
Definition created_map (tx : Transaction) : UtxoSet :=
  list_to_map (reverse (imap (λ i output, (output_outpoint (tx_id tx) i, output_entry output))
    (tx_outputs tx))).

(** The set after a transaction, as one equation. *)
Definition utxo_step (u : UtxoSet) (tx : Transaction) : UtxoSet := created_map tx ∪ spend u tx.
Definition utxo_after (u : UtxoSet) (txs : list Transaction) : UtxoSet := foldl utxo_step u txs.

(** No output of [tx] is already in the set once the inputs are spent (BIP 30). *)
Definition fresh_outputs (u : UtxoSet) (tx : Transaction) : Prop := created_map tx ##ₘ spend u tx.
Fixpoint fresh_block (u : UtxoSet) (txs : list Transaction) : Prop :=
  match txs with
  | [] => True
  | tx :: txs' => fresh_outputs u tx ∧ fresh_block (utxo_step u tx) txs'
  end.

Definition total_value (u : UtxoSet) : Z := map_sum ue_value u.
Definition outputs_total (tx : Transaction) : Z :=
  foldr (λ o acc, txout_value o + acc) 0 (tx_outputs tx).
Definition inputs_total (u : UtxoSet) (tx : Transaction) : Z :=
  foldr (λ o acc, default 0 (get_value u o) + acc) 0 (spent_outpoints tx).

(** ** Lemmas *)

Lemma filter_notin_cons (u : UtxoSet) o os :
  filter (λ '(o', _), o' ∉ o :: os) u = filter (λ '(o', _), o' ∉ os) (delete o u).
Proof.
  apply map_eq. intros k. apply option_eq. intros e.
  rewrite !map_lookup_filter_Some, lookup_delete_Some. set_solver.
Qed.

Lemma remove_inputs_snd u inputs :
  (remove_inputs u inputs).2 = filter (λ '(o, _), o ∉ map input_outpoint inputs) u.
Proof.
  revert u. induction inputs as [|i l IH]; intros u; cbn [remove_inputs map].
  - symmetry. apply map_filter_id. intros o e _. set_solver.
  - rewrite filter_notin_cons. destruct (u !! input_outpoint i) as [e|] eqn:He.
    + specialize (IH (delete (input_outpoint i) u)).
      by destruct (remove_inputs _ l) as [r u'].
    + rewrite IH. by rewrite delete_id.
Qed.

(** The removed list restores what was spent. *)
Lemma remove_inputs_restore u inputs :
  foldl (λ u '(o, e), <[o := e]> u) (remove_inputs u inputs).2 (remove_inputs u inputs).1 = u
  ∧ (∀ o e, (o, e) ∈ (remove_inputs u inputs).1 → u !! o = Some e)
  ∧ NoDup (remove_inputs u inputs).1.*1.
Proof.
  revert u. induction inputs as [|i l IH]; intros u; cbn [remove_inputs].
  { split_and!; [done|set_solver|constructor]. }
  destruct (u !! input_outpoint i) as [e|] eqn:He; [|apply IH].
  specialize (IH (delete (input_outpoint i) u)).
  destruct (remove_inputs (delete (input_outpoint i) u) l) as [r u']. simpl in *.
  destruct IH as (IH1&IH2&IH3).
  assert (input_outpoint i ∉ r.*1) as Hni.
  { intros ([o e']&Heq&Hin)%list_elem_of_fmap. apply IH2 in Hin. simpl in Heq.
    by rewrite <- Heq, lookup_delete_eq in Hin. }
  split_and!.
  - assert (∀ (l0 : list (OutPoint * UtxoEntry)) u0 o v, o ∉ l0.*1 →
      foldl (λ u '(o, e), <[o := e]> u) (<[o := v]> u0) l0 =
      <[o := v]> (foldl (λ (u : UtxoSet) '(o, e), <[o := e]> u) u0 l0)) as Hcomm.
    { induction l0 as [|[o1 e1] l0 IHl]; intros u0 o v Ho; [done|]. simpl in *.
      rewrite not_elem_of_cons in Ho. destruct Ho as [Ho1 Ho2].
      rewrite insert_insert_ne by done. by apply IHl. }
    rewrite Hcomm, IH1 by done. by apply insert_delete_id.
  - intros o e' [[= -> ->]|Hin]%elem_of_cons; [done|]. apply IH2 in Hin.
    by apply lookup_delete_Some in Hin as [_ ?].
  - by constructor.
Qed.

Lemma insert_outputs_spec txid i outs u :
  insert_outputs txid i outs u =
  (imap (λ j _, output_outpoint txid (i + j)) outs,
   list_to_map (reverse (imap (λ j o, (output_outpoint txid (i + j), output_entry o)) outs)) ∪ u).
Proof.
  revert i u. induction outs as [|o outs IH]; intros i u; cbn [insert_outputs].
  - simpl. by rewrite (left_id_L ∅ (∪)).
  - rewrite IH. rewrite imap_cons, (imap_cons _ o outs), reverse_cons.
    rewrite Nat.add_0_r. f_equal.
    + f_equal. apply imap_ext. intros j x _. simpl. f_equal. lia.
    + rewrite list_to_map_app, <- map_union_assoc. cbn [list_to_map fold_right].
      simpl. rewrite insert_empty, <- insert_union_singleton_l. do 3 f_equal.
      apply imap_ext. intros j x _. simpl. do 2 f_equal. lia.
Qed.

Lemma apply_transaction_spec u tx :
  apply_transaction u tx =
  ({| removed := if is_coinbase tx then [] else (remove_inputs u (tx_inputs tx)).1;
      created := imap (λ j _, output_outpoint (tx_id tx) j) (tx_outputs tx) |},
   utxo_step u tx).
Proof.
  unfold apply_transaction, utxo_step, created_map, spend, spent_outpoints.
  destruct (is_coinbase tx).
  - rewrite insert_outputs_spec. do 2 f_equal. symmetry. apply map_filter_id. set_solver.
  - pose proof (remove_inputs_snd u (tx_inputs tx)) as Hs.
    destruct (remove_inputs u (tx_inputs tx)) as [r u']. simpl in Hs. subst u'.
    by rewrite insert_outputs_spec.
Qed.

Lemma apply_transaction_snd u tx : (apply_transaction u tx).2 = utxo_step u tx.
Proof. by rewrite apply_transaction_spec. Qed.

Lemma apply_transactions_snd u txs : (apply_transactions u txs).2 = utxo_after u txs.
Proof.
  revert u. induction txs as [|tx txs IH]; intros u; [done|]. cbn [apply_transactions].
  unfold utxo_after in *. cbn [foldl]. pose proof (apply_transaction_snd u tx) as Hs.
  destruct (apply_transaction u tx) as [undo u1]. simpl in Hs. subst u1.
  specialize (IH (utxo_step u tx)). by destruct (apply_transactions _ txs).
Qed.

Lemma foldl_delete_union (ks : list OutPoint) (m1 m2 : UtxoSet) :
  m1 ##ₘ m2 → (∀ k, k ∈ ks ↔ is_Some (m1 !! k)) →
  foldl (λ u o, delete o u) (m1 ∪ m2) ks = m2.
Proof.
  intros Hd Hks.
  assert (∀ (u : UtxoSet) k, foldl (λ u o, delete o u) u ks !! k =
    if decide (k ∈ ks) then None else u !! k) as Hl.
  { clear. induction ks as [|k0 ks IH]; intros u k; [done|]. cbn [foldl].
    rewrite IH. destruct (decide (k = k0)) as [->|Hne].
    - rewrite lookup_delete_eq. repeat case_decide; set_solver.
    - rewrite lookup_delete_ne by done. repeat case_decide; set_solver. }
  apply map_eq. intros k. rewrite Hl. case_decide as Hk.
  - apply Hks in Hk as [e He]. symmetry. by eapply map_disjoint_Some_l.
  - rewrite lookup_union_r; [done|]. apply eq_None_not_Some. by rewrite <- Hks.
Qed.

Lemma created_map_dom tx k :
  k ∈ imap (λ j _, output_outpoint (tx_id tx) j) (tx_outputs tx) ↔ is_Some (created_map tx !! k).
Proof.
  unfold created_map. rewrite <- elem_of_dom, dom_list_to_map_L, elem_of_list_to_set.
  by rewrite fmap_reverse, elem_of_reverse, fmap_imap.
Qed.

Lemma disconnect_apply u tx :
  fresh_outputs u tx → disconnect_undo (apply_transaction u tx).2 (apply_transaction u tx).1 = u.
Proof.
  intros Hf. rewrite apply_transaction_spec. unfold disconnect_undo, utxo_step. cbn [fst snd].
  cbn [created removed]. rewrite foldl_delete_union; [|done|apply created_map_dom].
  unfold spend, spent_outpoints. destruct (is_coinbase tx).
  - apply map_filter_id. set_solver.
  - rewrite <- remove_inputs_snd. apply remove_inputs_restore.
Qed.

Lemma disconnect_apply_transactions u txs :
  fresh_block u txs →
  disconnect_undos (apply_transactions u txs).2 (apply_transactions u txs).1 = u.
Proof.
  revert u. induction txs as [|tx txs IH]; intros u; [done|]. intros [Hf Hfs].
  cbn [apply_transactions]. pose proof (disconnect_apply u tx Hf) as Hd.
  pose proof (apply_transaction_snd u tx) as Hs.
  destruct (apply_transaction u tx) as [undo u1]. simpl in Hd, Hs. subst u1.
  specialize (IH _ Hfs). destruct (apply_transactions (utxo_step u tx) txs) as [undos u2].
  unfold disconnect_undos in *. simpl in *. rewrite foldl_app. simpl. by rewrite IH.
Qed.

(** What is in the set after a transaction. *)
Lemma output_outpoint_inj txid i j n :
  Z.of_nat n ≤ 2 ^ 32 → (i < n)%nat → (j < n)%nat →
  output_outpoint txid i = output_outpoint txid j → i = j.
Proof. intros ??? [= Heq]. rewrite !Z.mod_small in Heq by lia. lia. Qed.

Lemma created_map_lookup tx o e :
  zlen (tx_outputs tx) ≤ 2 ^ 32 →
  created_map tx !! o = Some e ↔
  ∃ i output, tx_outputs tx !! i = Some output ∧
              o = output_outpoint (tx_id tx) i ∧ e = output_entry output.
Proof.
  intros Hn. unfold created_map. rewrite <- elem_of_list_to_map.
  - rewrite elem_of_reverse, elem_of_lookup_imap. naive_solver.
  - rewrite fmap_reverse, reverse_Permutation, fmap_imap. apply NoDup_alt.
    intros i j x. rewrite !list_lookup_imap.
    intros (y&Hy&->)%fmap_Some (z&Hz&Heq)%fmap_Some. simpl in Heq.
    apply lookup_lt_Some in Hy, Hz. unfold zlen in Hn.
    by eapply output_outpoint_inj in Heq.
Qed.

Lemma spend_lookup u tx o e :
  spend u tx !! o = Some e ↔ u !! o = Some e ∧ o ∉ spent_outpoints tx.
Proof. unfold spend. by rewrite map_lookup_filter_Some. Qed.

Lemma created_not_None tx o :
  created_map tx !! o = None ↔ ∀ i, (i < length (tx_outputs tx))%nat →
    o ≠ output_outpoint (tx_id tx) i.
Proof.
  rewrite eq_None_not_Some, <- created_map_dom, elem_of_lookup_imap. split.
  - intros Hn i Hi ->. apply Hn. apply lookup_lt_is_Some in Hi as [x ?]. eauto.
  - intros Hn (i&x&->&Hx). by eapply Hn; [eapply lookup_lt_Some|].
Qed.

(** Both directions are monotone: a set below another stays below it. *)
Lemma spend_mono u v tx : u ⊆ v → spend u tx ⊆ spend v tx.
Proof.
  intros Huv. apply map_subseteq_spec. intros o e. rewrite !spend_lookup. intros [Ho ?].
  split; [by eapply lookup_weaken|done].
Qed.

Lemma utxo_step_mono u v tx : u ⊆ v → utxo_step u tx ⊆ utxo_step v tx.
Proof. intros Huv. by apply map_union_mono_l, spend_mono. Qed.

Lemma utxo_after_mono u v txs : u ⊆ v → utxo_after u txs ⊆ utxo_after v txs.
Proof.
  revert u v. induction txs as [|tx txs IH]; intros u v Huv; [done|].
  by apply (IH (utxo_step u tx) (utxo_step v tx)), utxo_step_mono.
Qed.

Lemma foldl_delete_below (ks : list OutPoint) (u m v : UtxoSet) :
  u ⊆ m ∪ v → (∀ k, is_Some (m !! k) → k ∈ ks) → foldl (λ u o, delete o u) u ks ⊆ v.
Proof.
  intros Hu Hks. apply map_subseteq_spec. intros o e.
  enough (foldl (λ u o, delete o u) u ks !! o = Some e → u !! o = Some e ∧ o ∉ ks) as Hdel.
  { intros [Ho Hni]%Hdel. eapply lookup_weaken in Ho; [|exact Hu].
    apply lookup_union_Some_raw in Ho as [Hm|[_ ?]]; [|done]. exfalso. apply Hni, Hks. eauto. }
  clear. revert u. induction ks as [|k ks IH]; intros u; cbn [foldl]; [by set_solver|].
  intros [[Hne Ho]%lookup_delete_Some Hni]%IH. set_solver.
Qed.

Lemma foldl_insert_below (l : list (OutPoint * UtxoEntry)) (u v : UtxoSet) :
  u ⊆ v → (∀ o e, (o, e) ∈ l → v !! o = Some e) → foldl (λ u '(o, e), <[o := e]> u) u l ⊆ v.
Proof.
  revert u. induction l as [|[o e] l IH]; intros u Hu Hl; [done|]. cbn [foldl]. apply IH.
  - apply insert_subseteq_l; [|done]. apply Hl. set_solver.
  - intros o' e' Hin. apply Hl. set_solver.
Qed.

(** Undoing, with the data recorded on a set below [v], a set below the one that follows [v]
    leads below [v]: no output that [v] lacks can appear. *)
Lemma disconnect_undo_below u u0 v tx :
  u ⊆ utxo_step v tx → u0 ⊆ v → disconnect_undo u (apply_transaction u0 tx).1 ⊆ v.
Proof.
  intros Hu Hu0. rewrite apply_transaction_spec. unfold disconnect_undo. cbn [fst created removed].
  apply foldl_insert_below.
  - apply foldl_delete_below with (m := created_map tx); [|apply created_map_dom].
    unfold utxo_step in Hu. etrans; [exact Hu|]. apply map_union_mono_l. apply map_filter_subseteq.
  - intros o e. destruct (is_coinbase tx); [by intros ?%elem_of_nil|].
    intros Hin. eapply lookup_weaken; [|exact Hu0].
    by apply (remove_inputs_restore u0 (tx_inputs tx)).
Qed.

Lemma disconnect_undos_below u u0 v txs :
  u ⊆ utxo_after v txs → u0 ⊆ v → disconnect_undos u (apply_transactions u0 txs).1 ⊆ v.
Proof.
  revert u u0 v. induction txs as [|tx txs IH]; intros u u0 v Hu Hu0; [done|].
  cbn [apply_transactions]. pose proof (disconnect_undo_below) as Hone.
  specialize (Hone (disconnect_undos u (apply_transactions (utxo_step u0 tx) txs).1) u0 v tx).
  pose proof (apply_transaction_snd u0 tx) as Hs.
  destruct (apply_transaction u0 tx) as [undo u1]. simpl in Hs. subst u1.
  specialize (IH u (utxo_step u0 tx) (utxo_step v tx) Hu (utxo_step_mono _ _ _ Hu0)).
  destruct (apply_transactions (utxo_step u0 tx) txs) as [undos u2].
  unfold disconnect_undos in *. cbn [fst rev] in *. rewrite foldl_app. cbn [foldl]. by apply Hone.
Qed.

(** ** Values *)

Definition values_ok (u : UtxoSet) : Prop := map_Forall (λ _ e, in_u 64 (ue_value e)) u.

Lemma checked_sum {A} (g : A → Z) (e : UtxoError) acc (l : list A) s :
  0 ≤ acc ≤ U64_MAX → Forall (λ x, 0 ≤ g x) l →
  rfold (λ acc x, ok_or (u64_checked_add acc (g x)) e) acc l = Ok s ↔
  s = acc + foldr (λ x t, g x + t) 0 l ∧ s ≤ U64_MAX.
Proof.
  intros Hacc Hl. revert acc Hacc. induction Hl as [|x l Hx Hl IH]; intros acc Hacc; simpl.
  - rewrite Z.add_0_r. split; [intros [= <-]; split; lia|]. by intros [-> _].
  - assert (0 ≤ foldr (λ x t, g x + t) 0 l).
    { clear IH. induction Hl; simpl; lia. }
    unfold u64_checked_add at 1. destruct (Z.leb_spec (acc + g x) U64_MAX); simpl.
    + rewrite IH by lia. intuition lia.
    + split; [done|]. lia.
Qed.

Lemma output_sum_Ok tx s :
  Forall txout_wf (tx_outputs tx) →
  output_sum tx = Ok s ↔ s = outputs_total tx ∧ s ≤ U64_MAX.
Proof.
  intros Hwf. unfold output_sum, outputs_total.
  rewrite checked_sum; [by rewrite Z.add_0_l|done|].
  eapply Forall_impl; [apply Hwf|]. intros o. unfold txout_wf, in_u. simpl. lia.
Qed.

Lemma input_sum_Ok u tx s :
  is_coinbase tx = false → values_ok u →
  input_sum u tx = Ok s ↔
  Forall (λ o, is_Some (u !! o)) (spent_outpoints tx) ∧ s = inputs_total u tx ∧ s ≤ U64_MAX.
Proof.
  intros Hcb Hu. unfold input_sum, inputs_total, spent_outpoints. rewrite Hcb.
  enough (∀ acc, 0 ≤ acc ≤ U64_MAX →
    rfold (λ sum_in input,
      let? value := ok_or (get_value u (input_outpoint input))
        (MissingInput (op_txid (input_outpoint input)) (op_index (input_outpoint input))) in
      ok_or (u64_checked_add sum_in value) ValueOverflow) acc (tx_inputs tx) = Ok s ↔
    Forall (λ o, is_Some (u !! o)) (map input_outpoint (tx_inputs tx)) ∧
    s = acc + foldr (λ o acc, default 0 (get_value u o) + acc) 0
      (map input_outpoint (tx_inputs tx)) ∧ s ≤ U64_MAX) as Hacc.
  { specialize (Hacc 0 ltac:(done)). by rewrite Z.add_0_l in Hacc. }
  clear Hcb. induction (tx_inputs tx) as [|i l IH]; intros acc Hacc; simpl.
  { rewrite Z.add_0_r. split; [intros [= <-]; split_and!; [done|done|lia]|by intros (_&->&_)]. }
  rewrite Forall_cons.
  assert (get_value u (input_outpoint i) = ue_value <$> u !! input_outpoint i) as -> by done.
  destruct (u !! input_outpoint i) as [e|] eqn:He; simpl.
  2:{ split; [done|]. by intros ([[??] _]&_). }
  pose proof (Hu _ _ He) as Hv. unfold in_u in Hv. simpl in Hv.
  assert (0 ≤ foldr (λ o acc, default 0 (get_value u o) + acc) 0 (map input_outpoint l)).
  { clear -Hu. induction l as [|j l IHl]; simpl; [done|]. unfold get_value at 1, utxo_get at 1.
    destruct (u !! input_outpoint j) as [e|] eqn:He; simpl; [|lia].
    pose proof (Hu _ _ He) as Hv. unfold in_u in Hv. simpl in Hv. lia. }
  unfold u64_checked_add at 1. destruct (Z.leb_spec (acc + ue_value e) U64_MAX); simpl.
  - rewrite IH by lia. split; intros ?; intuition (eauto || lia).
  - split; [done|]. lia.
Qed.

(** [validate_transaction], exactly. *)
Lemma validate_transaction_Ok u tx :
  values_ok u → Forall txout_wf (tx_outputs tx) →
  validate_transaction u tx = Ok () ↔
  outputs_total tx ≤ U64_MAX ∧
  (is_coinbase tx = false →
    Forall (λ o, is_Some (u !! o)) (spent_outpoints tx) ∧
    outputs_total tx ≤ inputs_total u tx ≤ U64_MAX).
Proof.
  intros Hu Hwf. unfold validate_transaction, validate_output_sum.
  destruct (is_coinbase tx) eqn:Hcb.
  - rewrite rbind_Ok. setoid_rewrite output_sum_Ok; [|done]. naive_solver.
  - rewrite rbind_Ok. setoid_rewrite rbind_Ok. setoid_rewrite input_sum_Ok; [|done|done].
    setoid_rewrite output_sum_Ok; [|done]. split.
    + intros (si&(?&->&?)&so&(->&?)&Hlt). destruct (Z.ltb_spec (inputs_total u tx) (outputs_total tx)).
      { done. } split; [done|]. intros _. split; [done|lia].
    + intros (?&Hr). destruct (Hr eq_refl) as (?&?). exists (inputs_total u tx).
      split; [split_and!; [done|done|lia]|]. exists (outputs_total tx). split; [done|].
      destruct (Z.ltb_spec (inputs_total u tx) (outputs_total tx)); [lia|done].
Qed.

Lemma foldr_get_value_delete u o os :
  o ∉ os →
  foldr (λ k acc, default 0 (get_value (delete o u) k) + acc) 0 os =
  foldr (λ k acc, default 0 (get_value u k) + acc) 0 os.
Proof.
  intros Hni. induction os as [|k os IH]; [done|]. rewrite not_elem_of_cons in Hni.
  simpl. rewrite IH by naive_solver. unfold get_value, utxo_get.
  rewrite lookup_delete_ne by naive_solver. done.
Qed.

Lemma total_spend u os :
  NoDup os → Forall (λ o, is_Some (u !! o)) os →
  total_value u = total_value (filter (λ '(o, _), o ∉ os) u) +
                  foldr (λ o acc, default 0 (get_value u o) + acc) 0 os.
Proof.
  intros Hnd. revert u. induction Hnd as [|o os Hni Hnd IH]; intros u Hall.
  { simpl. rewrite Z.add_0_r. f_equal. symmetry. apply map_filter_id. set_solver. }
  apply Forall_cons in Hall as [[e He] Hall]. rewrite filter_notin_cons. simpl.
  unfold get_value at 1, utxo_get at 1. rewrite He. simpl.
  unfold total_value at 1. rewrite (map_sum_delete _ _ o e He).
  fold (total_value (delete o u)). rewrite (IH (delete o u)).
  - rewrite (foldr_get_value_delete u o os Hni). lia.
  - rewrite Forall_forall in Hall |- *. intros k Hk. rewrite lookup_delete_ne; [by apply Hall|].
    intros ->. done.
Qed.

(** Overwriting an entry can only lose value. *)
Lemma total_insert_le u o e : values_ok u → total_value (<[o := e]> u) ≤ ue_value e + total_value u.
Proof.
  intros Hu. unfold total_value. rewrite map_sum_insert_any.
  destruct (u !! o) as [e'|] eqn:He.
  - rewrite (map_sum_delete _ u o e' He). pose proof (Hu _ _ He) as [? _]. lia.
  - rewrite delete_id by done. lia.
Qed.

Lemma insert_outputs_total txid i outs u :
  values_ok u → Forall txout_wf outs →
  let u' := (insert_outputs txid i outs u).2 in
  values_ok u' ∧ total_value u' ≤ foldr (λ o acc, txout_value o + acc) 0 outs + total_value u.
Proof.
  intros Hu Hwf. revert i u Hu. induction Hwf as [|o outs Ho Hwf IH]; intros i u Hu; simpl.
  { split; [done|lia]. }
  destruct (IH (S i) (<[output_outpoint txid i := output_entry o]> u)) as [H1 H2].
  { by apply map_Forall_insert_2. }
  destruct (insert_outputs txid (S i) outs _) as [c u']. simpl in *. split; [done|].
  pose proof (total_insert_le u (output_outpoint txid i) (output_entry o) Hu). simpl in *. lia.
Qed.

Lemma values_ok_spend u tx : values_ok u → values_ok (spend u tx).
Proof. intros Hu o e [He _]%spend_lookup. by apply (Hu o). Qed.

Lemma utxo_step_insert u tx :
  utxo_step u tx = (insert_outputs (tx_id tx) 0 (tx_outputs tx) (spend u tx)).2.
Proof. by rewrite insert_outputs_spec. Qed.

Lemma values_ok_step u tx :
  values_ok u → Forall txout_wf (tx_outputs tx) → values_ok (utxo_step u tx).
Proof.
  intros Hu Hwf. rewrite utxo_step_insert.
  by apply insert_outputs_total; [apply values_ok_spend|].
Qed.

Lemma total_value_mono u v : values_ok v → u ⊆ v → total_value u ≤ total_value v.
Proof. intros Hv. apply map_sum_mono. intros o e He. by apply (Hv o). Qed.

(** A validated transaction with distinct inputs creates no value beyond a coinbase's. *)
Lemma total_step u tx :
  values_ok u → Forall txout_wf (tx_outputs tx) → NoDup (spent_outpoints tx) →
  validate_transaction u tx = Ok () →
  total_value (utxo_step u tx) ≤ total_value u + (if is_coinbase tx then outputs_total tx else 0).
Proof.
  intros Hu Hwf Hnd Hv. apply validate_transaction_Ok in Hv as [_ Hv]; [|done|done].
  rewrite utxo_step_insert.
  pose proof (proj2 (insert_outputs_total (tx_id tx) 0 (tx_outputs tx) (spend u tx)
    (values_ok_spend _ _ Hu) Hwf)) as Hle. fold (outputs_total tx) in Hle.
  destruct (is_coinbase tx) eqn:Hcb.
  - assert (spend u tx = u) as Hs.
    { unfold spend, spent_outpoints. rewrite Hcb. apply map_filter_id. set_solver. }
    rewrite Hs in *. lia.
  - destruct (Hv eq_refl) as [Hin Hval]. pose proof (total_spend u _ Hnd Hin) as Ht.
    fold (spend u tx) (inputs_total u tx) in Ht. lia.
Qed.
End utxo.
