(* ===== verification/Script.v ===== *)
(** * The script interpreter (crates/bitrst-script/src/)

    The stack, the opcode loop, [verify_script] and the P2PKH templates.  A stack is a list
    with its top first.  [pc] and lengths are [usize] values, as [Z]. *)

From stdpp Require Import prelude list.
From Stdlib Require Import Strings.Byte.
From S2P Require Import Prelude Bytes Crypto.

Local Open Scope Z_scope.

(** ** Stack (stack.rs) *)

Inductive ScriptError :=
| UnexpectedEnd
| StackUnderflow
| UnknownOpcode (opcode : byte)
| EqualVerifyFailed
| CheckSigFailed
| EvalFalse.
#[global] Instance ScriptError_eq_dec : EqDecision ScriptError.
Proof. solve_decision. Defined.

Abbreviation Stack := (list (list byte)).
Definition new_stack : Stack := [].

Definition stack_pop (st : Stack) : Result ScriptError (list byte * Stack) :=
  match st with [] => Err StackUnderflow | x :: st' => Ok (x, st') end.
Definition stack_top (st : Stack) : Result ScriptError (list byte) :=
  match st with [] => Err StackUnderflow | x :: _ => Ok x end.
Definition stack_dup (st : Stack) : Result ScriptError Stack :=
  let? top := stack_top st in Ok (top :: st).

(** The loop of [script_bool] from index [i] of [bytes]. *)
Fixpoint script_bool_loop (len i : Z) (bytes : list byte) : bool :=
  match bytes with
  | [] => false
  | b :: rest =>
      if negb (bz b =? 0) then negb ((i =? len - 1) && (bz b =? 0x80))
      else script_bool_loop len (i + 1) rest
  end.
Definition script_bool (bytes : list byte) : bool := script_bool_loop (zlen bytes) 0 bytes.

Definition top_is_true (st : Stack) : Result ScriptError bool :=
  let? top := stack_top st in Ok (script_bool top).

(** ** Opcodes (opcodes.rs) *)

Definition OP_PUSHDATA1 : byte := x4c.
Definition OP_PUSHDATA2 : byte := x4d.
Definition OP_PUSHDATA4 : byte := x4e.
Definition OP_DUP : byte := x76.
Definition OP_EQUAL : byte := x87.
Definition OP_EQUALVERIFY : byte := x88.
Definition OP_HASH160 : byte := xa9.
Definition OP_CHECKSIG : byte := xac.

(** ** Reading immediate data (interpreter.rs) *)

Definition slice (script : list byte) (pc len : Z) : list byte :=
  take (Z.to_nat len) (drop (Z.to_nat pc) script).

(** [pc.checked_add(len)] cannot overflow: both are below 2^33. *)
Definition read_push (script : list byte) (pc len : Z) : Result ScriptError (list byte * Z) :=
  let end_ := pc + len in
  if end_ <=? zlen script then Ok (slice script pc len, end_) else Err UnexpectedEnd.

Definition read_u8 (script : list byte) (pc : Z) : Result ScriptError (Z * Z) :=
  if zlen script <=? pc then Err UnexpectedEnd
  else Ok (le_val (slice script pc 1), pc + 1).
Definition read_u16 (script : list byte) (pc : Z) : Result ScriptError (Z * Z) :=
  if zlen script <? pc + 2 then Err UnexpectedEnd
  else Ok (le_val (slice script pc 2), pc + 2).
Definition read_u32 (script : list byte) (pc : Z) : Result ScriptError (Z * Z) :=
  if zlen script <? pc + 4 then Err UnexpectedEnd
  else Ok (le_val (slice script pc 4), pc + 4).

Section script.
Context {crypto : CryptoLib}.

(** One iteration of the loop of [execute_script]. *)
Definition step (script sighash : list byte) (pc : Z) (st : Stack)
    : Result ScriptError (Z * Stack) :=
  let opcode := script !!! Z.to_nat pc in
  let pc := pc + 1 in
  let push_read (r : Result ScriptError (Z * Z)) : Result ScriptError (Z * Stack) :=
    let? ' (len, pc) := r in
    let? ' (data, pc) := read_push script pc len in
    Ok (pc, data :: st) in
  if (1 <=? bz opcode) && (bz opcode <=? 75) then
    let? ' (data, pc) := read_push script pc (bz opcode) in
    Ok (pc, data :: st)
  else if bool_decide (opcode = OP_PUSHDATA1) then push_read (read_u8 script pc)
  else if bool_decide (opcode = OP_PUSHDATA2) then push_read (read_u16 script pc)
  else if bool_decide (opcode = OP_PUSHDATA4) then push_read (read_u32 script pc)
  else if bool_decide (opcode = OP_DUP) then
    let? st := stack_dup st in Ok (pc, st)
  else if bool_decide (opcode = OP_HASH160) then
    let? ' (item, st) := stack_pop st in
    Ok (pc, hash160 item :: st)
  else if bool_decide (opcode = OP_EQUAL) then
    let? ' (rhs, st) := stack_pop st in
    let? ' (lhs, st) := stack_pop st in
    Ok (pc, (if bool_decide (lhs = rhs) then [x01] else []) :: st)
  else if bool_decide (opcode = OP_EQUALVERIFY) then
    let? ' (rhs, st) := stack_pop st in
    let? ' (lhs, st) := stack_pop st in
    if negb (bool_decide (lhs = rhs)) then Err EqualVerifyFailed else Ok (pc, st)
  else if bool_decide (opcode = OP_CHECKSIG) then
    let? ' (pubkey, st) := stack_pop st in
    let? ' (signature, st) := stack_pop st in
    check? map_err (λ _, CheckSigFailed) (verify_der_signature signature pubkey sighash) ;;
    Ok (pc, [x01] :: st)
  else if bool_decide (opcode = x00) then Ok (pc, [] :: st)
  else if bool_decide (opcode = x51) then Ok (pc, [x01] :: st)
  else Err (UnknownOpcode opcode).

(** [while pc < script.len()]; [Panic] stands for running out of [fuel] and does not
    happen ([execute_script_total]). *)
Fixpoint exec_loop (fuel : nat) (script sighash : list byte) (pc : Z) (st : Stack)
    : Result ScriptError Stack :=
  match fuel with
  | O => Panic
  | S fuel' =>
      if pc <? zlen script then
        let? ' (pc, st) := step script sighash pc st in
        exec_loop fuel' script sighash pc st
      else Ok st
  end.

Definition execute_script (script : list byte) (st : Stack) (sighash : list byte)
    : Result ScriptError Stack :=
  exec_loop (S (length script)) script sighash 0 st.

Definition verify_script (script_sig script_pubkey sighash : list byte)
    : Result ScriptError unit :=
  let? stack := execute_script script_sig new_stack sighash in
  let? stack := execute_script script_pubkey stack sighash in
  let? is_true := top_is_true stack in
  if is_true then Ok () else Err EvalFalse.
End script.

(** ** Templates (p2pkh.rs) *)

Definition push_data (data : list byte) : list byte :=
  let n := zlen data in
  if n =? 0 then [x00]
  else if n <=? 75 then zb n :: data
  else if n <=? 255 then x4c :: zb n :: data
  else if n <=? 65535 then x4d :: le_bytes 2 n ++ data
  else x4e :: le_bytes 4 n ++ data.

Definition p2pkh_script_pubkey (pubkey_hash : list byte) : list byte :=
  [OP_DUP; OP_HASH160; x14] ++ pubkey_hash ++ [OP_EQUALVERIFY; OP_CHECKSIG].

Definition p2pkh_script_sig (signature_with_hashtype pubkey : list byte) : list byte :=
  push_data signature_with_hashtype ++ push_data pubkey.

(** ** Lemmas *)

Section script_lemmas.
Context {crypto : CryptoLib}.
Implicit Types script rest data sighash : list byte.

Lemma read_push_Ok script pc len data pc' :
  read_push script pc len = Ok (data, pc') ↔
  pc + len ≤ zlen script ∧ data = slice script pc len ∧ pc' = pc + len.
Proof.
  unfold read_push. destruct (Z.leb_spec (pc + len) (zlen script)).
  - split; [intros [= <- <-]; done|by intros (?&->&->)].
  - split; [done|lia].
Qed.

Lemma read_u_Ok (n : nat) script pc len pc' :
  (if zlen script <? pc + Z.of_nat n then Err UnexpectedEnd
   else Ok (le_val (slice script pc (Z.of_nat n)), pc + Z.of_nat n)) = Ok (len, pc') ↔
  pc + Z.of_nat n ≤ zlen script ∧ len = le_val (slice script pc (Z.of_nat n)) ∧
  pc' = pc + Z.of_nat n.
Proof.
  destruct (Z.ltb_spec (zlen script) (pc + Z.of_nat n)); split; try done; try lia.
  - by intros [= <- <-].
  - by intros (_&->&->).
Qed.

Lemma read_u8_Ok script pc len pc' :
  read_u8 script pc = Ok (len, pc') ↔
  pc + 1 ≤ zlen script ∧ len = le_val (slice script pc 1) ∧ pc' = pc + 1.
Proof.
  unfold read_u8. destruct (Z.leb_spec (zlen script) pc); split; try done; try lia.
  - intros [= <- <-]. split_and!; [lia|done..].
  - by intros (_&->&->).
Qed.

Lemma read_u16_Ok script pc len pc' :
  read_u16 script pc = Ok (len, pc') ↔
  pc + 2 ≤ zlen script ∧ len = le_val (slice script pc 2) ∧ pc' = pc + 2.
Proof. apply (read_u_Ok 2). Qed.

Lemma read_u32_Ok script pc len pc' :
  read_u32 script pc = Ok (len, pc') ↔
  pc + 4 ≤ zlen script ∧ len = le_val (slice script pc 4) ∧ pc' = pc + 4.
Proof. apply (read_u_Ok 4). Qed.

Lemma slice_app script rest pc len :
  0 ≤ pc → pc + len ≤ zlen script → slice (script ++ rest) pc len = slice script pc len.
Proof.
  intros Hpc Hlen. unfold slice, zlen in *.
  destruct (Z.lt_ge_cases len 0); [by assert (Z.to_nat len = 0%nat) as -> by lia|].
  rewrite drop_app_le by lia. rewrite take_app_le; [done|]. rewrite length_drop. lia.
Qed.

(** Reading in a longer script gives the same data. *)
Lemma read_push_app script rest pc len data pc' :
  0 ≤ pc → 0 ≤ len → read_push script pc len = Ok (data, pc') →
  pc ≤ pc' ≤ zlen script ∧ read_push (script ++ rest) pc len = Ok (data, pc').
Proof.
  intros Hpc Hlen (?&->&->)%read_push_Ok. pose proof (zlen_nonneg rest). split; [lia|].
  apply read_push_Ok. rewrite zlen_app, slice_app by lia. split_and!; [lia|done..].
Qed.

Definition reader_ok (rd : list byte → Z → Result ScriptError (Z * Z)) : Prop :=
  ∀ script rest pc len pc', 0 ≤ pc → rd script pc = Ok (len, pc') →
    pc ≤ pc' ∧ 0 ≤ len ∧ rd (script ++ rest) pc = Ok (len, pc').

Lemma read_u8_reader : reader_ok read_u8.
Proof.
  intros script rest pc len pc' Hpc (?&->&->)%read_u8_Ok. pose proof (zlen_nonneg rest).
  split_and!; [lia|apply le_val_bound|]. apply read_u8_Ok.
  rewrite zlen_app, slice_app by lia. split_and!; [lia|done..].
Qed.
Lemma read_u16_reader : reader_ok read_u16.
Proof.
  intros script rest pc len pc' Hpc (?&->&->)%read_u16_Ok. pose proof (zlen_nonneg rest).
  split_and!; [lia|apply le_val_bound|]. apply read_u16_Ok.
  rewrite zlen_app, slice_app by lia. split_and!; [lia|done..].
Qed.
Lemma read_u32_reader : reader_ok read_u32.
Proof.
  intros script rest pc len pc' Hpc (?&->&->)%read_u32_Ok. pose proof (zlen_nonneg rest).
  split_and!; [lia|apply le_val_bound|]. apply read_u32_Ok.
  rewrite zlen_app, slice_app by lia. split_and!; [lia|done..].
Qed.

Lemma push_read_app rd script rest pc st pc' st' :
  reader_ok rd → 0 ≤ pc →
  (let? ' (len, pc) := rd script pc in
   let? ' (data, pc) := read_push script pc len in Ok (pc, data :: st)) = Ok (pc', st') →
  pc ≤ pc' ≤ zlen script ∧
  (let? ' (len, pc) := rd (script ++ rest) pc in
   let? ' (data, pc) := read_push (script ++ rest) pc len in Ok (pc, data :: st)) = Ok (pc', st').
Proof.
  intros Hrd Hpc Hrun. inv_ok. match goal with H : rd _ _ = _ |- _ =>
    apply (Hrd _ rest) in H as (?&?&->); [|done] end. simpl.
  match goal with H : read_push _ _ _ = _ |- _ =>
    apply (read_push_app _ rest) in H as (?&->); [|lia|lia] end. simpl.
  split; [lia|done].
Qed.

(** A successful step moves forward, stays in the script, and reads nothing after it. *)
Lemma step_Ok script rest sighash pc st pc' st' :
  0 ≤ pc < zlen script → step script sighash pc st = Ok (pc', st') →
  pc < pc' ≤ zlen script ∧ step (script ++ rest) sighash pc st = Ok (pc', st').
Proof.
  intros Hpc. unfold step.
  assert ((script ++ rest) !!! Z.to_nat pc = script !!! Z.to_nat pc) as ->.
  { rewrite list_lookup_total_alt, lookup_app_l, <- list_lookup_total_alt; [done|].
    unfold zlen in Hpc. lia. }
  generalize (script !!! Z.to_nat pc) as op. intros op.
  pose proof (bz_range op) as Hop. cbv zeta.
  destruct ((1 <=? bz op) && (bz op <=? 75)).
  { intros Hstep. inv_ok. match goal with H : read_push _ _ _ = _ |- _ =>
      apply (read_push_app _ rest) in H as (?&->); [|lia|lia] end. simpl. split; [lia|done]. }
  case_bool_decide.
  { intros Hstep. apply (push_read_app _ _ rest) in Hstep as [? ?];
      [split; [lia|done]|apply read_u8_reader|lia]. }
  case_bool_decide.
  { intros Hstep. apply (push_read_app _ _ rest) in Hstep as [? ?];
      [split; [lia|done]|apply read_u16_reader|lia]. }
  case_bool_decide.
  { intros Hstep. apply (push_read_app _ _ rest) in Hstep as [? ?];
      [split; [lia|done]|apply read_u32_reader|lia]. }
  intros Hstep. split; [|done].
  repeat case_bool_decide; inv_ok; try (case_match; inv_ok); lia.
Qed.

(** No step panics. *)
Lemma step_total script sighash pc st : step script sighash pc st ≠ Panic.
Proof.
  unfold step, read_u8, read_u16, read_u32, read_push, stack_dup, stack_top, stack_pop,
    verify_der_signature, ok_or. cbv zeta.
  repeat (case_if || case_match || case_bool_decide); simpl; try done;
    repeat (case_match; simpl in *; try done).
Qed.

(** Enough fuel: the loop never runs out. *)
Lemma exec_loop_total fuel script sighash pc st :
  0 ≤ pc ≤ zlen script → zlen script - pc < Z.of_nat fuel →
  exec_loop fuel script sighash pc st ≠ Panic.
Proof.
  revert pc st. induction fuel as [|fuel IH]; intros pc st Hpc Hf; [lia|]. cbn [exec_loop].
  destruct (Z.ltb_spec pc (zlen script)); [|done].
  destruct (step script sighash pc st) as [[pc' st']|e|] eqn:Hstep; simpl; [|done|].
  - apply (step_Ok _ []) in Hstep as [? _]; [|lia]. apply IH; lia.
  - by apply step_total in Hstep.
Qed.

Lemma execute_script_total script st sighash : execute_script script st sighash ≠ Panic.
Proof.
  pose proof (zlen_nonneg script). apply exec_loop_total; unfold zlen in *; lia.
Qed.

(** Running a script that succeeds, then the rest, is running the concatenation. *)
Lemma exec_loop_app fuel fuel' script rest sighash pc st st' :
  0 ≤ pc ≤ zlen script → exec_loop fuel script sighash pc st = Ok st' →
  ∃ n, (1 ≤ n)%nat ∧ exec_loop (n + fuel') (script ++ rest) sighash pc st =
       exec_loop (S fuel') (script ++ rest) sighash (zlen script) st'.
Proof.
  revert pc st. induction fuel as [|fuel IH]; intros pc st Hpc Hrun; [done|].
  cbn [exec_loop] in Hrun. destruct (Z.ltb_spec pc (zlen script)) as [Hlt|Hge].
  - destruct (step script sighash pc st) as [[pc' st1]|e|] eqn:Hstep; simpl in Hrun; try done.
    apply (step_Ok _ rest) in Hstep as [? Hstep]; [|lia].
    apply IH in Hrun as (n&Hn&Hrun); [|lia]. exists (S n). split; [lia|].
    rewrite Nat.add_succ_l. cbn [exec_loop]. pose proof (zlen_nonneg rest).
    rewrite zlen_app. destruct (Z.ltb_spec pc (zlen script + zlen rest)); [|lia].
    rewrite Hstep. simpl. rewrite Hrun. cbn [exec_loop]. by rewrite zlen_app.
  - injection Hrun as ->. exists 1%nat. split; [lia|]. by assert (pc = zlen script) as -> by lia.
Qed.

(** Steps do not depend on what precedes [pc]. *)
Definition shift_pc {A} (k : Z) (r : Result ScriptError (A * Z)) : Result ScriptError (A * Z) :=
  let? ' (a, pc) := r in Ok (a, k + pc).

Lemma slice_shift script rest pc len :
  0 ≤ pc → slice (script ++ rest) (zlen script + pc) len = slice rest pc len.
Proof.
  intros Hpc. unfold slice, zlen.
  replace (Z.to_nat (Z.of_nat (length script) + pc)) with (length script + Z.to_nat pc)%nat by lia.
  by rewrite drop_app_add.
Qed.

Lemma read_push_shift script rest pc len :
  0 ≤ pc →
  read_push (script ++ rest) (zlen script + pc) len = shift_pc (zlen script) (read_push rest pc len).
Proof.
  intros Hpc. unfold read_push. rewrite zlen_app, slice_shift by done.
  destruct (Z.leb_spec (pc + len) (zlen rest)), (Z.leb_spec (zlen script + pc + len)
    (zlen script + zlen rest)); try lia; simpl; [|done]. do 2 f_equal. lia.
Qed.

Definition reader_shifts (rd : list byte → Z → Result ScriptError (Z * Z)) : Prop :=
  ∀ script rest pc, 0 ≤ pc →
    rd (script ++ rest) (zlen script + pc) = shift_pc (zlen script) (rd rest pc).

Lemma read_u8_shifts : reader_shifts read_u8.
Proof.
  intros script rest pc Hpc. unfold read_u8. rewrite zlen_app, slice_shift by done.
  destruct (Z.leb_spec (zlen rest) pc), (Z.leb_spec (zlen script + zlen rest) (zlen script + pc));
    try lia; simpl; [done|]. do 2 f_equal. lia.
Qed.
Lemma read_u_shifts (n : Z) script rest pc :
  0 ≤ pc →
  (if zlen (script ++ rest) <? zlen script + pc + n then Err UnexpectedEnd
   else Ok (le_val (slice (script ++ rest) (zlen script + pc) n), zlen script + pc + n)) =
  shift_pc (zlen script) (if zlen rest <? pc + n then Err UnexpectedEnd
                          else Ok (le_val (slice rest pc n), pc + n)).
Proof.
  intros Hpc. rewrite zlen_app, slice_shift by done.
  destruct (Z.ltb_spec (zlen rest) (pc + n)),
    (Z.ltb_spec (zlen script + zlen rest) (zlen script + pc + n));
    try lia; simpl; [done|]. do 2 f_equal. lia.
Qed.
Lemma read_u16_shifts : reader_shifts read_u16.
Proof. intros script rest pc. apply (read_u_shifts 2). Qed.
Lemma read_u32_shifts : reader_shifts read_u32.
Proof. intros script rest pc. apply (read_u_shifts 4). Qed.

Lemma push_read_shift rd script rest pc (st : Stack) :
  reader_ok rd → reader_shifts rd → 0 ≤ pc →
  (let? ' (len, pc) := rd (script ++ rest) (zlen script + pc) in
   let? ' (data, pc) := read_push (script ++ rest) pc len in
   Ok (pc, data :: st)) =
  (let? ' (pc, st) := (let? ' (len, pc) := rd rest pc in
     let? ' (data, pc) := read_push rest pc len in Ok (pc, data :: st)) in
   Ok (zlen script + pc, st)).
Proof.
  intros Hok Hsh Hpc. rewrite Hsh by done. destruct (rd rest pc) as [[len pc1]| |] eqn:Hrd; [|done..].
  apply (Hok _ []) in Hrd as (?&?&_); [|done]. simpl. rewrite read_push_shift by lia.
  by destruct (read_push rest pc1 len) as [[data pc2]| |].
Qed.

Lemma step_shift script rest sighash pc st :
  0 ≤ pc → step (script ++ rest) sighash (zlen script + pc) st =
  let? ' (pc, st) := step rest sighash pc st in Ok (zlen script + pc, st).
Proof.
  intros Hpc. unfold step.
  assert ((script ++ rest) !!! Z.to_nat (zlen script + pc) = rest !!! Z.to_nat pc) as ->.
  { rewrite !list_lookup_total_alt. f_equal. unfold zlen. rewrite lookup_app_r by lia.
    f_equal. lia. }
  generalize (rest !!! Z.to_nat pc) as op. intros op. cbv zeta.
  rewrite <- (Z.add_assoc (zlen script) pc 1).
  destruct ((1 <=? bz op) && (bz op <=? 75)).
  { rewrite read_push_shift by lia. by destruct (read_push rest (pc + 1) (bz op)) as [[??]| |]. }
  case_bool_decide; [apply push_read_shift; [apply read_u8_reader|apply read_u8_shifts|lia]|].
  case_bool_decide; [apply push_read_shift; [apply read_u16_reader|apply read_u16_shifts|lia]|].
  case_bool_decide; [apply push_read_shift; [apply read_u32_reader|apply read_u32_shifts|lia]|].
  repeat case_bool_decide; try done; destruct st as [|x [|y st]]; simpl; try done.
  - by destruct (negb _).
  - by destruct (verify_der_signature _ _ _).
Qed.

Lemma exec_loop_shift fuel script rest sighash pc st :
  0 ≤ pc → exec_loop fuel (script ++ rest) sighash (zlen script + pc) st =
           exec_loop fuel rest sighash pc st.
Proof.
  revert pc st. induction fuel as [|fuel IH]; intros pc st Hpc; [done|]. cbn [exec_loop].
  assert ((zlen script + pc <? zlen (script ++ rest)) = (pc <? zlen rest)) as ->.
  { rewrite zlen_app. destruct (Z.ltb_spec pc (zlen rest)),
      (Z.ltb_spec (zlen script + pc) (zlen script + zlen rest)); lia || done. }
  destruct (Z.ltb_spec pc (zlen rest)); [|done]. rewrite step_shift by done.
  destruct (step rest sighash pc st) as [[pc' st']| |] eqn:Hstep; simpl; [|done..].
  apply (step_Ok _ []) in Hstep as [? _]; [|lia]. apply IH. lia.
Qed.

(** More fuel than needed changes nothing. *)
Lemma exec_loop_fuel fuel fuel' script sighash pc st :
  0 ≤ pc ≤ zlen script → zlen script - pc < Z.of_nat fuel → (fuel ≤ fuel')%nat →
  exec_loop fuel' script sighash pc st = exec_loop fuel script sighash pc st.
Proof.
  revert fuel' pc st. induction fuel as [|fuel IH]; intros fuel' pc st Hpc Hf Hle; [lia|].
  destruct fuel' as [|fuel']; [lia|]. cbn [exec_loop].
  destruct (Z.ltb_spec pc (zlen script)); [|done].
  destruct (step script sighash pc st) as [[pc' st']| |] eqn:Hstep; simpl; [|done..].
  apply (step_Ok _ []) in Hstep as [? _]; [|lia]. apply IH; lia.
Qed.

(** Sequential composition of scripts. *)
Lemma execute_script_app script rest st st' sighash :
  execute_script script st sighash = Ok st' →
  execute_script (script ++ rest) st sighash = execute_script rest st' sighash.
Proof.
  intros Hrun. unfold execute_script in *. pose proof (zlen_nonneg script).
  apply (exec_loop_app _ (length script + length rest) _ rest) in Hrun as (n&Hn&Hrun); [|lia].
  rewrite (exec_loop_fuel (S (length (script ++ rest))) (n + (length script + length rest))) in Hrun;
    [|rewrite ?zlen_app; unfold zlen; rewrite ?length_app; lia..].
  rewrite Hrun, <- (Z.add_0_r (zlen script)), exec_loop_shift by done.
  apply exec_loop_fuel; unfold zlen; lia.
Qed.

(** The pieces of a push: an opcode and its length prefix, then the data they announce. *)
Lemma read_push_suffix (pre data : list byte) :
  read_push (pre ++ data) (zlen pre) (zlen data) = Ok (data, zlen (pre ++ data)).
Proof.
  pose proof (zlen_nonneg data). apply read_push_Ok. rewrite zlen_app. split_and!; [lia| |done].
  rewrite <- (Z.add_0_r (zlen pre)), slice_shift by done. unfold slice, zlen.
  by rewrite Nat2Z.id, drop_0, firstn_all.
Qed.

Lemma execute_one_step script st st' sighash :
  step script sighash 0 st = Ok (zlen script, st') → (0 < length script)%nat →
  execute_script script st sighash = Ok st'.
Proof.
  intros Hstep Hpos. unfold execute_script. cbn [exec_loop].
  destruct (Z.ltb_spec 0 (zlen script)); [|unfold zlen in *; lia]. rewrite Hstep. simpl.
  destruct script as [|b script]; [simpl in *; lia|]. cbn [length exec_loop].
  by rewrite Z.ltb_irrefl.
Qed.

(** A push with a length prefix [pre], whose reader finds the length of the data. *)
Lemma wide_push (op : byte) (pre data : list byte) (rd : list byte → Z → Result ScriptError (Z * Z)) st :
  rd (op :: pre ++ data) 1 = Ok (zlen data, zlen (op :: pre)) →
  (let? ' (len, pc) := rd (op :: pre ++ data) 1 in
   let? ' (d, pc) := read_push (op :: pre ++ data) pc len in
   Ok (pc, d :: st)) = Ok (zlen (op :: pre ++ data), data :: st).
Proof.
  intros ->. simpl rbind. pose proof (read_push_suffix (op :: pre) data) as Hp.
  simpl app in Hp. by rewrite Hp.
Qed.

Lemma length_prefix op n (data : list byte) :
  slice (op :: le_bytes n (zlen data) ++ data) 1 (Z.of_nat n) = le_bytes n (zlen data).
Proof.
  unfold slice. rewrite Nat2Z.id. change (Z.to_nat 1) with 1%nat. cbn [drop].
  by apply take_app_length'; rewrite length_le_bytes.
Qed.

Lemma execute_short_push data st sighash :
  0 < zlen data ≤ 75 → execute_script (zb (zlen data) :: data) st sighash = Ok (data :: st).
Proof.
  intros Hlen. apply execute_one_step; [|simpl; lia]. unfold step. cbv zeta.
  change ((zb (zlen data) :: data) !!! Z.to_nat 0) with (zb (zlen data)).
  rewrite bz_zb, Z.mod_small by lia.
  destruct (Z.leb_spec 1 (zlen data)), (Z.leb_spec (zlen data) 75); try lia. simpl andb.
  pose proof (read_push_suffix [zb (zlen data)] data) as Hp. simpl app in Hp.
  change (zlen [zb (zlen data)]) with 1 in Hp. change (0 + 1) with 1. by rewrite Hp.
Qed.

(** [push_data] pushes its argument. *)
Lemma execute_push_data data st sighash :
  zlen data < 2 ^ 32 → execute_script (push_data data) st sighash = Ok (data :: st).
Proof.
  intros Hlen. pose proof (zlen_nonneg data) as Hz. unfold push_data. cbv zeta.
  destruct (Z.eqb_spec (zlen data) 0) as [H0|].
  { destruct data; [done|unfold zlen in H0; simpl in H0; lia]. }
  destruct (Z.leb_spec (zlen data) 75) as [H1|H1]; [by apply execute_short_push; lia|].
  destruct (Z.leb_spec (zlen data) 255) as [H2|H2]; [|destruct (Z.leb_spec (zlen data) 65535)];
    (apply execute_one_step; [|simpl; lia]).
  - apply (wide_push x4c [zb (zlen data)] _ read_u8). apply read_u8_Ok.
    pose proof (length_prefix x4c 1%nat data) as Hs. change (le_bytes 1 (zlen data)) with [zb (zlen data)] in Hs.
    change (Z.of_nat 1) with 1 in Hs. rewrite Hs, !zlen_cons. cbn [le_val]. rewrite bz_zb, Z.mod_small by lia.
    simpl app. rewrite zlen_cons. split_and!; [lia|lia|done].
  - apply (wide_push x4d (le_bytes 2 (zlen data)) _ read_u16).
    apply read_u16_Ok. pose proof (length_prefix x4d 2%nat data) as Hs. change (Z.of_nat 2) with 2 in Hs.
    rewrite Hs, !zlen_cons, zlen_app, zlen_le_bytes.
    rewrite le_val_le_bytes_small by (change (256 ^ Z.of_nat 2) with 65536; lia). lia.
  - apply (wide_push x4e (le_bytes 4 (zlen data)) _ read_u32).
    apply read_u32_Ok. pose proof (length_prefix x4e 4%nat data) as Hs. change (Z.of_nat 4) with 4 in Hs.
    rewrite Hs, !zlen_cons, zlen_app, zlen_le_bytes.
    rewrite le_val_le_bytes_small by (change (256 ^ Z.of_nat 4) with (2 ^ 32); lia). lia.
Qed.

Lemma execute_push_data_app data rest st sighash :
  zlen data < 2 ^ 32 →
  execute_script (push_data data ++ rest) st sighash = execute_script rest (data :: st) sighash.
Proof. intros ?. by apply execute_script_app, execute_push_data. Qed.

Lemma exec_loop_S fuel script sighash pc st :
  exec_loop (S fuel) script sighash pc st =
  if pc <? zlen script then
    let? ' (pc, st) := step script sighash pc st in exec_loop fuel script sighash pc st
  else Ok st.
Proof. done. Qed.

(** A one-byte instruction, then the rest. *)
Lemma execute_script_cons op rest st sighash r :
  step (op :: rest) sighash 0 st = (let? st' := r in Ok (1, st')) →
  execute_script (op :: rest) st sighash = let? st' := r in execute_script rest st' sighash.
Proof.
  intros Hstep. unfold execute_script. cbn [length]. rewrite exec_loop_S, zlen_cons.
  pose proof (zlen_nonneg rest). destruct (Z.ltb_spec 0 (1 + zlen rest)); [|lia].
  rewrite Hstep. destruct r as [st'| |]; simpl rbind; [|done..].
  exact (exec_loop_shift (S (length rest)) [op] rest sighash 0 st' ltac:(done)).
Qed.

Lemma execute_p2pkh hash st sighash :
  length hash = 20%nat →
  execute_script (p2pkh_script_pubkey hash) st sighash =
  match st with
  | [] => Err StackUnderflow
  | pubkey :: rest =>
      if bool_decide (hash160 pubkey = hash) then
        match rest with
        | [] => Err StackUnderflow
        | signature :: rest' =>
            check? map_err (λ _, CheckSigFailed) (verify_der_signature signature pubkey sighash) ;;
            Ok ([x01] :: rest')
        end
      else Err EqualVerifyFailed
  end.
Proof.
  intros Hlen. unfold p2pkh_script_pubkey. cbn [app].
  rewrite (execute_script_cons _ _ _ _ (stack_dup st)) by done.
  destruct st as [|pubkey st]; [done|]. cbn [stack_dup stack_top rbind].
  rewrite (execute_script_cons _ _ _ _ (Ok (hash160 pubkey :: pubkey :: st))) by done.
  cbn [rbind].
  assert (∀ tl, x14 :: hash ++ tl = push_data hash ++ tl) as ->.
  { intros tl. unfold push_data, zlen. by rewrite Hlen. }
  rewrite execute_push_data_app by (unfold zlen; lia).
  rewrite (execute_script_cons _ _ _ _
    (if negb (bool_decide (hash160 pubkey = hash)) then Err EqualVerifyFailed
     else Ok (pubkey :: st))) by (unfold step; simpl; by case_bool_decide).
  case_bool_decide; simpl negb; cbn [rbind]; [|done].
  destruct st as [|signature st]; [done|].
  rewrite (execute_script_cons _ _ _ _
    (check? map_err (λ _, CheckSigFailed) (verify_der_signature signature pubkey sighash) ;;
     Ok ([x01] :: st))).
  2:{ unfold step. simpl. by destruct (verify_der_signature _ _ _). }
  by destruct (verify_der_signature _ _ _).
Qed.

Lemma verify_script_Ok script_sig script_pubkey sighash :
  verify_script script_sig script_pubkey sighash = Ok () ↔
  ∃ st1 top st2, execute_script script_sig [] sighash = Ok st1 ∧
    execute_script script_pubkey st1 sighash = Ok (top :: st2) ∧ script_bool top = true.
Proof.
  unfold verify_script, new_stack, top_is_true. split.
  - intros Hv. apply rbind_Ok in Hv as (st1&H1&(st2&H2&(b&H3&H4)%rbind_Ok)%rbind_Ok).
    apply rbind_Ok in H3 as (top&Htop&[= <-]). destruct st2 as [|t st2]; [done|].
    simpl in Htop. injection Htop as ->. exists st1, top, st2. split_and!; [done..|].
    by destruct (script_bool top).
  - intros (st1&top&st2&->&H2&H3). simpl. rewrite H2. simpl. by rewrite H3.
Qed.

Lemma verify_script_no_panic script_sig script_pubkey sighash :
  verify_script script_sig script_pubkey sighash ≠ Panic.
Proof.
  unfold verify_script, new_stack. destruct (execute_script script_sig [] sighash) as [st1| |] eqn:H1;
    simpl; [|done|by apply execute_script_total in H1].
  destruct (execute_script script_pubkey st1 sighash) as [[|top st2]| |] eqn:H2; simpl;
    [done| |done|by apply execute_script_total in H2].
  by destruct (script_bool top).
Qed.

(** A script boolean is false exactly for zero and negative zero. *)
Lemma script_bool_false bytes :
  script_bool bytes = false ↔
  ∃ n, bytes = replicate n x00 ∨ bytes = replicate n x00 ++ [x80].
Proof.
  unfold script_bool.
  enough (∀ i len, len = i + zlen bytes → script_bool_loop len i bytes = false ↔
    ∃ n, bytes = replicate n x00 ∨ bytes = replicate n x00 ++ [x80]) as H by by apply H.
  induction bytes as [|b bytes IH]; intros i len Hlen; cbn [script_bool_loop].
  { split; [|done]. intros _. exists 0%nat. by left. }
  rewrite zlen_cons in Hlen. destruct (Z.eqb_spec (bz b) 0) as [Hb|Hb]; simpl negb.
  - apply (inj bz b x00) in Hb as ->. rewrite (IH (i + 1)) by lia. split.
    + intros [n [->| ->]]; exists (S n); [by left|by right].
    + intros [[|n] Hn]; [naive_solver|]. exists n. simpl in Hn. naive_solver.
  - rewrite negb_false_iff, andb_true_iff, !Z.eqb_eq. pose proof (zlen_nonneg bytes). split.
    + intros [Hi H80]. apply (inj bz b x80) in H80 as ->.
      exists 0%nat. right. destruct bytes; [done|]. rewrite zlen_cons in *.
      pose proof (zlen_nonneg bytes). lia.
    + intros [[|n] [Hn|Hn]]; simplify_eq/=; try done. split; [change (zlen []) with 0; lia|done].
Qed.
End script_lemmas.

(** ** Properties *)

(** Script verification always ends with an answer: the interpreter
    consumes at least a byte per instruction, so the fuel of the loop, the script's length,
    never runs out and no index is out of range. *)
Theorem verify_script_total {crypto : CryptoLib} (script_sig script_pubkey sighash : list byte) :
  verify_script script_sig script_pubkey sighash ≠ Panic.
Proof. apply verify_script_no_panic. Qed.

(** C11 (safety): whatever [script_sig] an attacker supplies, a P2PKH output unlocks exactly
    when that script leaves on the stack a public key with the committed hash over a
    signature that verifies for this sighash. *)
Theorem p2pkh_spend_exact {crypto : CryptoLib} (script_sig hash sighash : list byte) :
  length hash = 20%nat →
  verify_script script_sig (p2pkh_script_pubkey hash) sighash = Ok () ↔
  ∃ pubkey signature rest,
    execute_script script_sig [] sighash = Ok (pubkey :: signature :: rest) ∧
    hash160 pubkey = hash ∧ verify_der_signature signature pubkey sighash = Ok ().
Proof.
  intros Hlen. rewrite verify_script_Ok. setoid_rewrite execute_p2pkh; [|done]. split.
  - intros (st1&top&st2&Hsig&Hrun&Htop). destruct st1 as [|pubkey [|signature rest]];
      [done|by case_bool_decide|]. case_bool_decide; [|done].
    destruct (verify_der_signature signature pubkey sighash) as [[]| |] eqn:Hv; [|done..].
    by exists pubkey, signature, rest.
  - intros (pubkey&signature&rest&->&<-&Hv). exists (pubkey :: signature :: rest), [x01], rest.
    rewrite bool_decide_eq_true_2, Hv by done. done.
Qed.

(** What the wallet builds is accepted: the template scriptSig made of a signature by a key
    and of that key's public key unlocks the template scriptPubKey. *)
Lemma sign_verifies {crypto : CryptoLib} {laws : CryptoLaws crypto}
    (sk : SecretKey) (sighash : list byte) (sighash_type : byte) :
  let pubkey := PublicKey_serialize (PublicKey_from_secret_key sk) in
  verify_script (p2pkh_script_sig (sign_der_with_hashtype sk sighash sighash_type) pubkey)
    (p2pkh_script_pubkey (hash160 pubkey)) sighash = Ok ().
Proof.
  intros pubkey. apply verify_script_Ok. unfold p2pkh_script_sig.
  set (sig := sign_der_with_hashtype sk sighash sighash_type).
  assert (zlen sig < 2 ^ 32 ∧ zlen pubkey < 2 ^ 32) as [Hs Hp].
  { pose proof (der_length sighash sk). unfold sig, sign_der_with_hashtype, pubkey, zlen.
    rewrite length_app, pubkey_length. simpl. lia. }
  exists [pubkey; sig], [x01], []. split_and!; [|rewrite execute_p2pkh|done].
  - rewrite execute_push_data_app by done. by apply execute_push_data.
  - rewrite bool_decide_eq_true_2 by done. unfold sig, pubkey. by rewrite verify_sign_der.
  - apply length_hash160.
Qed.

Definition example_sighash : list byte := replicate 32 x2a.
Definition example_pubkey : list byte := le_bytes 33 5.

Lemma p2pkh_spend_exact_witness :
  let crypto := toy_crypto in
  let script_sig := p2pkh_script_sig (sign_der_with_hashtype 5 example_sighash x01)
                      example_pubkey in
  ∃ pubkey signature rest,
    execute_script script_sig [] example_sighash = Ok (pubkey :: signature :: rest) ∧
    hash160 pubkey = hash160 example_pubkey ∧
    verify_der_signature signature pubkey example_sighash = Ok ().
Proof.
  intros crypto script_sig.
  apply (@p2pkh_spend_exact crypto script_sig (hash160 example_pubkey) example_sighash).
  - vm_compute. reflexivity.
  - vm_compute. reflexivity.
Defined.
