(* ===== verification/Sighash.v ===== *)
(** * Signature hashes and the verification of a transaction's inputs
      (bitrst-core/src/sighash.rs; the script loops of chain.rs and mempool.rs)

    [sighash_all], what it commits to, and the loop that checks every input of a
    transaction against the scripts of the outputs it spends. *)

From stdpp Require Import prelude gmap list.
From Stdlib Require Import Strings.Byte.
From S2P Require Import Prelude Bytes Crypto Wire Transaction Utxo Script.

Local Open Scope Z_scope.

Definition SIGHASH_ALL : Z := 1.

Inductive SighashError := InputIndexOutOfRange | PrevScriptCountMismatch.
#[global] Instance SighashError_eq_dec : EqDecision SighashError.
Proof. solve_decision. Defined.

(** The hashed bytes. *)
Definition sighash_preimage (tx : Transaction) (input_index : nat)
    (prev_script_pubkeys : list (list byte)) : list byte :=
  le_bytes 4 (tx_version tx) ++
  write_compact_size (zlen (tx_inputs tx)) ++
  concat (imap (λ i input,
    let script := if (i =? input_index)%nat then prev_script_pubkeys !!! i else [] in
    previous_output input ++ le_bytes 4 (txin_index input) ++
    write_compact_size (zlen script) ++ script ++ le_bytes 4 (txin_sequence input))
    (tx_inputs tx)) ++
  write_compact_size (zlen (tx_outputs tx)) ++
  concat (map (λ output,
    le_bytes 8 (txout_value output) ++ write_compact_size (zlen (script_pubkey output)) ++
    script_pubkey output) (tx_outputs tx)) ++
  le_bytes 4 (tx_lock_time tx) ++
  le_bytes 4 SIGHASH_ALL.

Section sighash.
Context {crypto : CryptoLib}.

Definition sighash_all (tx : Transaction) (input_index : nat)
    (prev_script_pubkeys : list (list byte)) : Result SighashError (list byte) :=
  if (length (tx_inputs tx) <=? input_index)%nat then Err InputIndexOutOfRange
  else if negb (length prev_script_pubkeys =? length (tx_inputs tx))%nat then
    Err PrevScriptCountMismatch
  else Ok (sha256d (sighash_preimage tx input_index prev_script_pubkeys)).

(** [for input in &tx.inputs { prev_scripts.push(view.get(..).ok_or(..)?.script_pubkey) }] *)
Definition prev_scripts (view : UtxoSet) (tx : Transaction) : Result UtxoError (list (list byte)) :=
  rmap (λ input,
    let outpoint := input_outpoint input in
    let? entry := ok_or (utxo_get view outpoint)
                    (MissingInput (op_txid outpoint) (op_index outpoint)) in
    Ok (ue_script_pubkey entry)) (tx_inputs tx).

(** The second loop, with the caller's error conversions. *)
Definition verify_inputs {E} (from_sighash : SighashError → E) (invalid_script : E)
    (tx : Transaction) (scripts : list (list byte)) : Result E unit :=
  rfor (λ '(input_index, input),
    let? script_pubkey := index_or_panic (scripts !! input_index) in
    if bool_decide (script_pubkey = []) then Ok ()
    else
      let? sighash := map_err from_sighash (sighash_all tx input_index scripts) in
      map_err (λ _, invalid_script) (verify_script (script_sig input) script_pubkey sighash))
    (imap pair (tx_inputs tx)).

(** ** What an accepted transaction means *)

(** Every input's scriptSig unlocks the (non-empty) script of the output it spends. *)
Definition inputs_authorized (tx : Transaction) (scripts : list (list byte)) : Prop :=
  length scripts = length (tx_inputs tx) ∧
  ∀ i input script, tx_inputs tx !! i = Some input → scripts !! i = Some script →
    script ≠ [] →
    verify_script (script_sig input) script (sha256d (sighash_preimage tx i scripts)) = Ok ().

(** The transaction with its scriptSigs blanked, the [i]th replaced by the spent script:
    the content a signature covers. *)
Definition signed_view (tx : Transaction) (input_index : nat) (scripts : list (list byte))
    : Transaction := {|
  tx_version := tx_version tx;
  tx_inputs := imap (λ i input, {|
    previous_output := previous_output input;
    txin_index := txin_index input;
    script_sig := if (i =? input_index)%nat then scripts !!! i else [];
    txin_sequence := txin_sequence input |}) (tx_inputs tx);
  tx_outputs := tx_outputs tx;
  tx_lock_time := tx_lock_time tx |}.

(** ** Lemmas *)

Lemma sighash_preimage_spec tx i scripts :
  sighash_preimage tx i scripts = serialize_tx (signed_view tx i scripts) ++ le_bytes 4 SIGHASH_ALL.
Proof.
  unfold sighash_preimage, serialize_tx, signed_view. cbn [tx_version tx_inputs tx_outputs tx_lock_time].
  rewrite <- !(assoc_L (++)). f_equal.
  assert (∀ A B (f : nat → A → B) l, zlen (imap f l) = zlen l) as Hz.
  { intros A B f l. unfold zlen. by rewrite length_imap. }
  rewrite Hz. f_equal. f_equal. f_equal.
  change (map serialize_input) with (fmap (M := list) serialize_input).
  by rewrite fmap_imap.
Qed.

Lemma signed_view_wf tx i scripts : tx_wf tx → tx_wf (signed_view tx i scripts).
Proof.
  intros (?&?&Hi&?). split_and!; try done. cbn. apply Forall_lookup. intros j x.
  rewrite list_lookup_imap. intros (y&Hy&->)%fmap_Some.
  by apply (Forall_lookup_1 _ _ _ _ Hi) in Hy.
Qed.

Lemma signed_view_limits tx i scripts :
  tx_within_limits tx → Forall (λ s, zlen s ≤ MAX_SCRIPT_SIZE) scripts →
  tx_within_limits (signed_view tx i scripts).
Proof.
  intros (?&?&Hi&?) Hs. split_and!; try done; cbn.
  - unfold zlen. by rewrite length_imap.
  - apply Forall_lookup. intros j x. rewrite list_lookup_imap. intros (y&Hy&->)%fmap_Some. cbn.
    case_if; [|done]. rewrite list_lookup_total_alt.
    destruct (scripts !! j) as [s|] eqn:Hj; simpl; [|done].
    by apply (Forall_lookup_1 _ _ _ _ Hs) in Hj.
Qed.

Lemma prev_scripts_Ok view tx scripts :
  prev_scripts view tx = Ok scripts ↔
  Forall2 (λ input script, ∃ e, view !! input_outpoint input = Some e ∧
    script = ue_script_pubkey e) (tx_inputs tx) scripts.
Proof.
  unfold prev_scripts, utxo_get. rewrite rmap_Ok.
  assert (∀ input script, (let? entry := ok_or (view !! input_outpoint input)
      (MissingInput (op_txid (input_outpoint input)) (op_index (input_outpoint input))) in
      Ok (ue_script_pubkey entry)) = Ok script ↔
    ∃ e, view !! input_outpoint input = Some e ∧ script = ue_script_pubkey e) as H.
  { intros input script. destruct (view !! input_outpoint input); naive_solver. }
  split; intros HF; (eapply Forall2_impl; [apply HF|]); intros ???; by apply H.
Qed.

Lemma verify_inputs_Ok {E} (f : SighashError → E) (e : E) tx scripts :
  length scripts = length (tx_inputs tx) →
  verify_inputs f e tx scripts = Ok () ↔ inputs_authorized tx scripts.
Proof.
  intros Hlen. unfold verify_inputs, inputs_authorized. rewrite rfor_Ok, Forall_lookup.
  split; [intros Hall; split; [done|]|intros [_ Hall]].
  - intros i input script Hi Hs Hne. specialize (Hall i (i, input)).
    rewrite list_lookup_imap, Hi in Hall. specialize (Hall eq_refl). cbn in Hall.
    rewrite Hs in Hall. simpl in Hall. rewrite bool_decide_eq_false_2 in Hall by done.
    unfold sighash_all in Hall. apply lookup_lt_Some in Hi.
    destruct (Nat.leb_spec (length (tx_inputs tx)) i); [lia|].
    rewrite Hlen, Nat.eqb_refl in Hall. simpl in Hall.
    by apply map_err_Ok in Hall.
  - intros i [j input]. rewrite list_lookup_imap. intros (y&Hy&[= <- <-])%fmap_Some.
    pose proof (lookup_lt_Some _ _ _ Hy) as Hlt.
    destruct (lookup_lt_is_Some_2 scripts j) as [script Hs]; [lia|].
    rewrite Hs. simpl. case_bool_decide as Hne; [done|].
    unfold sighash_all. destruct (Nat.leb_spec (length (tx_inputs tx)) j); [lia|].
    rewrite Hlen, Nat.eqb_refl. simpl. apply map_err_Ok. by apply Hall.
Qed.

Lemma sighash_all_total tx i scripts : sighash_all tx i scripts ≠ Panic.
Proof. unfold sighash_all. by repeat case_if. Qed.

(** No index of the loop is out of range. *)
Lemma verify_inputs_total {E} (f : SighashError → E) (e : E) tx scripts :
  length scripts = length (tx_inputs tx) → verify_inputs f e tx scripts ≠ Panic.
Proof.
  intros Hlen. unfold verify_inputs.
  assert (∀ l, Forall (λ p : nat * TxInput, (p.1 < length scripts)%nat) l →
    rfor (λ '(input_index, input),
      let? script_pubkey := index_or_panic (scripts !! input_index) in
      if bool_decide (script_pubkey = []) then Ok ()
      else let? sighash := map_err f (sighash_all tx input_index scripts) in
           map_err (λ _, e) (verify_script (script_sig input) script_pubkey sighash)) l ≠ Panic) as H.
  { induction 1 as [|[i input] l Hi _ IH]; [done|]. cbn [rfor]. simpl in Hi.
    destruct (lookup_lt_is_Some_2 scripts i Hi) as [script ->]. simpl.
    case_bool_decide; [done|].
    destruct (sighash_all tx i scripts) as [sh| |] eqn:Hsh; simpl;
      [|done|by apply sighash_all_total in Hsh].
    destruct (verify_script _ _ _) as [[]| |] eqn:Hv; simpl; [apply IH|done|].
    by apply verify_script_no_panic in Hv. }
  apply H, Forall_lookup. intros i [j input]. rewrite list_lookup_imap.
  intros (y&Hy&[= <- <-])%fmap_Some. simpl. apply lookup_lt_Some in Hy. lia.
Qed.
End sighash.

(** ** Properties *)

(** C39 (functional): the bytes a signature hash covers determine, and are determined by,
    the version, the outpoints and sequences of all inputs, all outputs, the lock time and
    the spent script at the signed position; scriptSigs are outside. *)
Theorem sighash_commitment (tx1 tx2 : Transaction) (i1 i2 : nat) (s1 s2 : list (list byte)) :
  tx_wf tx1 → tx_wf tx2 → tx_within_limits tx1 → tx_within_limits tx2 →
  Forall (λ s, zlen s ≤ MAX_SCRIPT_SIZE) s1 → Forall (λ s, zlen s ≤ MAX_SCRIPT_SIZE) s2 →
  sighash_preimage tx1 i1 s1 = sighash_preimage tx2 i2 s2 ↔
  signed_view tx1 i1 s1 = signed_view tx2 i2 s2.
Proof.
  intros Hw1 Hw2 Hl1 Hl2 Hs1 Hs2. rewrite !sighash_preimage_spec. split; [|by intros ->].
  intros Heq%(app_inj_2 _ _ _ _ eq_refl). destruct Heq as [Heq _].
  by apply serialize_tx_inj; auto using signed_view_wf, signed_view_limits.
Qed.
