(* ===== verification/Journal.v ===== *)
(** * Chain events and the two bounded journals
      (bitrst-core/src/chain_events.rs, chain_event_journal.rs,
       disconnected_block_journal.rs)

    A journal keeps the last [capacity] entries of an unbounded log.  [journal_rel] relates
    a journal to that log; the properties say that every consumer sees exactly the log, or
    is told that it lags. *)

From stdpp Require Import prelude list.
From Stdlib Require Import Strings.Byte.
From S2P Require Import Prelude Bytes Block.

Local Open Scope Z_scope.

(** ** Events *)

Inductive EvictionReason := PoolFull.

Inductive ChainEvent :=
| BlockConnected (height : Z) (hash : list byte) (tx_count : Z)
| BlockDisconnected (height : Z) (hash : list byte)
| ChainReorg (depth : Z) (old_tip new_tip : list byte)
| OrphanAdded (hash : list byte) (pool_size : Z)
| OrphanEvicted (hash : list byte) (reason : EvictionReason).

(** ** The event journal *)

Record JournalEntry := { je_seq : Z; je_event : ChainEvent }.

Record ChainEventCursor := { last_seq : Z }.
Record ChainEventCursorError := { cursor_seq : Z; oldest_available : Z }.
#[global] Instance ChainEventCursorError_eq_dec : EqDecision ChainEventCursorError.
Proof. solve_decision. Defined.

Record ChainEventJournal := {
  next_seq : Z;
  entries : list JournalEntry;
  capacity : nat;
  wallet_high_water : Z
}.

Definition journal_with_capacity (capacity : nat) : ChainEventJournal := {|
  next_seq := 1; entries := []; capacity := Nat.max capacity 1; wallet_high_water := 0 |}.

Definition DEFAULT_JOURNAL_CAPACITY : nat := 256.
Definition default_journal : ChainEventJournal := journal_with_capacity DEFAULT_JOURNAL_CAPACITY.

(** [push]: the journal and the sequence number assigned. *)
Definition journal_push (event : ChainEvent) (j : ChainEventJournal) : Z * ChainEventJournal :=
  let seq := next_seq j in
  let kept := if (capacity j <=? length (entries j))%nat then drop 1 (entries j) else entries j in
  (seq, {| next_seq := u64_saturating_add (next_seq j) 1;
           entries := kept ++ [{| je_seq := seq; je_event := event |}];
           capacity := capacity j;
           wallet_high_water := wallet_high_water j |}).

Definition oldest_seq (j : ChainEventJournal) : option Z := je_seq <$> head (entries j).
Definition latest_seq (j : ChainEventJournal) : Z := default 0 (je_seq <$> last (entries j)).
Definition event_cursor (j : ChainEventJournal) : ChainEventCursor := {| last_seq := latest_seq j |}.

(** The guard shared by both consumers: [Some oldest] when [seen] lags. *)
Definition lags (j : ChainEventJournal) (seen : Z) : option Z :=
  match oldest_seq j with
  | Some oldest => if seen <? u64_saturating_sub oldest 1 then Some oldest else None
  | None => None
  end.

Definition events_after (j : ChainEventJournal) (seen : Z) : list ChainEvent :=
  map je_event (filter (λ entry, seen < je_seq entry) (entries j)).

Definition take_events : SM ChainEventJournal ChainEventCursorError (list ChainEvent) := λ j,
  match lags j (wallet_high_water j) with
  | Some oldest => (Err {| cursor_seq := wallet_high_water j; oldest_available := oldest |}, j)
  | None =>
      let events := events_after j (wallet_high_water j) in
      let j' := match last (entries j) with
                | Some entry => {| next_seq := next_seq j; entries := entries j;
                                   capacity := capacity j; wallet_high_water := je_seq entry |}
                | None => j
                end in
      (Ok events, j')
  end.

Definition collect_events (j : ChainEventJournal)
    : SM ChainEventCursor ChainEventCursorError (list ChainEvent) := λ cursor,
  match lags j (last_seq cursor) with
  | Some oldest => (Err {| cursor_seq := last_seq cursor; oldest_available := oldest |}, cursor)
  | None =>
      let events := events_after j (last_seq cursor) in
      let cursor' := match last (filter (λ entry, last_seq cursor < je_seq entry) (entries j)) with
                     | Some entry => {| last_seq := je_seq entry |}
                     | None => cursor
                     end in
      (Ok events, cursor')
  end.

(** ** The disconnected-block journal *)

Record DisconnectedEntry := { de_event_seq : Z; de_block : Block }.
Record DisconnectedBlockJournal := {
  d_entries : list DisconnectedEntry;
  d_capacity : nat
}.
Record DisconnectedBlockRecoveryError := { dr_cursor_seq : Z; dr_oldest_available : Z }.
#[global] Instance DisconnectedBlockRecoveryError_eq_dec :
  EqDecision DisconnectedBlockRecoveryError.
Proof. solve_decision. Defined.

Definition disconnected_with_capacity (capacity : nat) : DisconnectedBlockJournal := {|
  d_entries := []; d_capacity := Nat.max capacity 1 |}.
Definition default_disconnected : DisconnectedBlockJournal :=
  disconnected_with_capacity DEFAULT_JOURNAL_CAPACITY.

Definition disconnected_record (event_seq : Z) (block : Block) (j : DisconnectedBlockJournal)
    : DisconnectedBlockJournal :=
  let kept := if (d_capacity j <=? length (d_entries j))%nat
              then drop 1 (d_entries j) else d_entries j in
  {| d_entries := kept ++ [{| de_event_seq := event_seq; de_block := block |}];
     d_capacity := d_capacity j |}.

Definition blocks_since (j : DisconnectedBlockJournal) (since_event_seq : Z)
    : Result DisconnectedBlockRecoveryError (list Block) :=
  let collected :=
    map de_block (filter (λ entry, since_event_seq < de_event_seq entry) (d_entries j)) in
  match head (d_entries j) with
  | Some oldest =>
      if since_event_seq <? u64_saturating_sub (de_event_seq oldest) 1 then
        Err {| dr_cursor_seq := since_event_seq; dr_oldest_available := de_event_seq oldest |}
      else Ok collected
  | None => Ok collected
  end.

(** ** Specification: the unbounded log *)

Fixpoint numbered (k : Z) (log : list ChainEvent) : list JournalEntry :=
  match log with
  | [] => []
  | e :: log' => {| je_seq := k; je_event := e |} :: numbered (k + 1) log'
  end.

(** [j] holds the last [capacity] events of [log], numbered from 1. *)
Record journal_rel (j : ChainEventJournal) (log : list ChainEvent) : Prop := {
  jr_capacity : (1 ≤ capacity j)%nat;
  jr_next : next_seq j = zlen log + 1;
  jr_entries : entries j = numbered (1 + Z.of_nat (length log - capacity j))
                             (drop (length log - capacity j) log);
  jr_wallet : 0 ≤ wallet_high_water j ≤ zlen log
}.

(** ** Lemmas *)

Lemma length_numbered k log : length (numbered k log) = length log.
Proof. revert k. induction log; intros k; simpl; auto. Qed.

Lemma numbered_app k l1 l2 : numbered k (l1 ++ l2) = numbered k l1 ++ numbered (k + zlen l1) l2.
Proof.
  revert k. induction l1 as [|e l1 IH]; intros k; simpl.
  - by rewrite Z.add_0_r.
  - rewrite IH, zlen_cons. do 3 f_equal. lia.
Qed.

Lemma drop_numbered n k log :
  (n ≤ length log)%nat → drop n (numbered k log) = numbered (k + Z.of_nat n) (drop n log).
Proof.
  revert k log. induction n as [|n IH]; intros k log Hn.
  - simpl. by rewrite Z.add_0_r.
  - destruct log as [|e log]; [simpl in Hn; lia|]. cbn [numbered drop]. rewrite IH by (simpl in Hn; lia).
    f_equal. lia.
Qed.

Lemma map_numbered k log : map je_event (numbered k log) = log.
Proof. revert k. induction log as [|e log IH]; intros k; simpl; [done|by rewrite IH]. Qed.

Lemma head_numbered k log : je_seq <$> head (numbered k log) = if decide (log = []) then None else Some k.
Proof. by destruct log. Qed.

Lemma last_numbered k log :
  je_seq <$> last (numbered k log) = if decide (log = []) then None else Some (k + zlen log - 1).
Proof.
  revert k. induction log as [|e log IH]; intros k; [done|]. cbn [numbered].
  rewrite last_cons. specialize (IH (k + 1)). destruct (last (numbered (k + 1) log)) eqn:E; simpl in *.
  - case_decide; [done|]. injection IH as IH. rewrite IH, zlen_cons. f_equal. lia.
  - case_decide; [subst log|done]. simpl. f_equal. unfold zlen. simpl. lia.
Qed.

Lemma filter_numbered seen k log :
  k ≤ seen + 1 → seen + 1 ≤ k + zlen log →
  filter (λ entry, seen < je_seq entry) (numbered k log) =
  numbered (seen + 1) (drop (Z.to_nat (seen + 1 - k)) log).
Proof.
  revert k. induction log as [|e log IH]; intros k H1 H2.
  - by rewrite drop_nil.
  - rewrite zlen_cons in H2. cbn [numbered]. destruct (decide (seen < k)) as [Hlt|Hge].
    + assert (k = seen + 1) as -> by lia. rewrite Z.sub_diag. simpl.
      rewrite filter_cons_True by (simpl; lia). f_equal.
      clear. assert (∀ j, seen < j → filter (λ entry, seen < je_seq entry) (numbered j log) =
        numbered j log) as H; [|apply H; lia].
      induction log as [|x log IH]; intros j Hj; [done|]. cbn [numbered].
      rewrite filter_cons_True by (simpl; lia). rewrite IH; [done|lia].
    + rewrite filter_cons_False by (simpl; lia). rewrite IH by lia.
      replace (Z.to_nat (seen + 1 - k)) with (S (Z.to_nat (seen + 1 - (k + 1)))) by lia. done.
Qed.

Lemma journal_rel_new capacity : journal_rel (journal_with_capacity capacity) [].
Proof. split; simpl; [lia|done..|split; done]. Qed.

Lemma journal_rel_length j log : journal_rel j log → length (entries j) = (length log `min` capacity j)%nat.
Proof. intros Hr. rewrite (jr_entries _ _ Hr), length_numbered, length_drop. lia. Qed.

Lemma journal_rel_push j log e :
  journal_rel j log → zlen log + 1 < U64_MAX →
  (journal_push e j).1 = zlen log + 1 ∧ journal_rel (journal_push e j).2 (log ++ [e]).
Proof.
  intros Hr Hmax. pose proof (journal_rel_length _ _ Hr) as Hlen.
  destruct Hr as [Hc Hn He Hw]. unfold journal_push, u64_saturating_add. cbn [fst snd].
  split; [done|]. split; cbn [capacity next_seq entries wallet_high_water]; [done| | |].
  - rewrite Hn, zlen_app. change (zlen [e]) with 1. lia.
  - rewrite Hlen, length_app, Hn, He. cbn [length].
    destruct (Nat.leb_spec (capacity j) (length log `min` capacity j)).
    + rewrite drop_numbered by (rewrite length_drop; lia). rewrite drop_drop.
      replace (length log + 1 - capacity j)%nat with (length log - capacity j + 1)%nat by lia.
      rewrite drop_app_le by lia. rewrite numbered_app. f_equal; [f_equal; lia|].
      simpl. do 2 f_equal. unfold zlen. rewrite length_drop. lia.
    + replace (length log + 1 - capacity j)%nat with 0%nat by lia.
      replace (length log - capacity j)%nat with 0%nat by lia. rewrite !drop_0.
      rewrite numbered_app. simpl. do 3 f_equal. lia.
  - rewrite zlen_app. change (zlen [e]) with 1. lia.
Qed.

Lemma journal_lags j log seen :
  journal_rel j log → 0 ≤ seen ≤ zlen log →
  lags j seen = if decide (seen + Z.of_nat (capacity j) < zlen log)
                then Some (1 + zlen log - Z.of_nat (capacity j)) else None.
Proof.
  intros Hr Hseen. destruct Hr as [Hc Hn He Hw]. unfold lags, oldest_seq.
  rewrite He, head_numbered. unfold u64_saturating_sub, zlen in *. case_decide as Hd.
  - apply (f_equal length) in Hd. rewrite length_drop in Hd. simpl in Hd.
    case_decide; [|done]. lia.
  - destruct (Z.ltb_spec seen (Z.max (1 + Z.of_nat (length log - capacity j) - 1) 0));
      case_decide; try lia; [|done]. f_equal. lia.
Qed.

Lemma journal_filter j log seen :
  journal_rel j log → 0 ≤ seen ≤ zlen log → zlen log ≤ seen + Z.of_nat (capacity j) →
  filter (λ entry, seen < je_seq entry) (entries j) =
  numbered (seen + 1) (drop (Z.to_nat seen) log).
Proof.
  intros Hr Hseen Hlag. destruct Hr as [Hc Hn He Hw]. unfold zlen in *. rewrite He, filter_numbered.
  - rewrite drop_drop. do 2 f_equal. lia.
  - lia.
  - unfold zlen. rewrite length_drop. lia.
Qed.

Lemma events_after_spec j log seen :
  journal_rel j log → 0 ≤ seen ≤ zlen log → zlen log ≤ seen + Z.of_nat (capacity j) →
  events_after j seen = drop (Z.to_nat seen) log.
Proof. intros. unfold events_after. by rewrite (journal_filter _ log), map_numbered. Qed.

Lemma latest_seq_spec j log : journal_rel j log → latest_seq j = zlen log.
Proof.
  intros Hr. unfold latest_seq. destruct Hr as [Hc Hn He Hw]. rewrite He, last_numbered.
  unfold zlen. rewrite length_drop. case_decide as Hd; simpl; [|lia].
  apply (f_equal length) in Hd. rewrite length_drop in Hd. simpl in Hd. lia.
Qed.

(** Pushing a list of events, oldest first. *)
Definition journal_push_all (j : ChainEventJournal) (events : list ChainEvent) : ChainEventJournal :=
  foldl (λ j e, (journal_push e j).2) j events.

Lemma journal_rel_push_all j log events :
  journal_rel j log → zlen log + zlen events < U64_MAX →
  journal_rel (journal_push_all j events) (log ++ events).
Proof.
  revert j log. induction events as [|e events IH]; intros j log Hr Hmax; cbn [journal_push_all foldl].
  { by rewrite (right_id_L [] (++)). }
  rewrite zlen_cons in Hmax. pose proof (zlen_nonneg events).
  destruct (journal_rel_push j log e Hr ltac:(lia)) as [_ Hr'].
  replace (log ++ e :: events) with ((log ++ [e]) ++ events) by by rewrite <- (assoc_L (++)).
  apply IH; [done|]. rewrite zlen_app. change (zlen [e]) with 1. lia.
Qed.

Lemma capacity_push_all j events : capacity (journal_push_all j events) = capacity j.
Proof. unfold journal_push_all. revert j. induction events as [|e events IH]; intros j; [done|]. cbn [foldl]. by rewrite IH. Qed.

Lemma wallet_push_all j events :
  wallet_high_water (journal_push_all j events) = wallet_high_water j.
Proof. unfold journal_push_all. revert j. induction events as [|e events IH]; intros j; [done|]. cbn [foldl]. by rewrite IH. Qed.

Lemma take_events_spec j log :
  journal_rel j log →
  ∃ r j', take_events j = (r, j') ∧ capacity j' = capacity j ∧ journal_rel j' log ∧
  if decide (wallet_high_water j + Z.of_nat (capacity j) < zlen log)
  then wallet_high_water j' = wallet_high_water j ∧
       r = Err {| cursor_seq := wallet_high_water j;
                  oldest_available := 1 + zlen log - Z.of_nat (capacity j) |}
  else wallet_high_water j' = zlen log ∧ r = Ok (drop (Z.to_nat (wallet_high_water j)) log).
Proof.
  intros Hr. pose proof (jr_wallet _ _ Hr) as Hw. unfold take_events.
  rewrite (journal_lags j log) by done. case_decide.
  { eexists _, _. split; [done|]. by split_and!. }
  rewrite (events_after_spec j log) by (done || lia).
  pose proof (latest_seq_spec j log Hr) as Hl. unfold latest_seq in Hl.
  eexists _, _. split; [done|]. destruct (last (entries j)) as [entry|]; simpl in *.
  - split_and!; [done| |done|done]. destruct Hr. split; simpl; [done..|lia].
  - split_and!; [done|done|lia|done].
Qed.
(** ** Properties *)

(** C40 (refinement): a journal that has received the events [log] answers a reader that has
    seen the first [seen] of them with exactly the rest, and moves it to the end; it answers
    with a lag error, leaving the reader where it is, exactly when events the reader has not
    seen were dropped.  Nothing is skipped silently. *)
Theorem collect_events_refines_log (cap : nat) (log : list ChainEvent) (seen : Z) :
  zlen log < U64_MAX → 0 ≤ seen ≤ zlen log →
  let j := journal_push_all (journal_with_capacity cap) log in
  let retained := Z.of_nat (Nat.max cap 1) in
  collect_events j {| last_seq := seen |} =
  if decide (seen + retained < zlen log)
  then (Err {| cursor_seq := seen; oldest_available := 1 + zlen log - retained |},
        {| last_seq := seen |})
  else (Ok (drop (Z.to_nat seen) log), {| last_seq := zlen log |}).
Proof.
  intros Hmax Hseen j retained.
  pose proof (journal_rel_push_all _ _ log (journal_rel_new cap) Hmax) as Hr. fold j in Hr.
  rewrite (left_id_L [] (++)) in Hr.
  assert (Z.of_nat (capacity j) = retained) as Hcap.
  { unfold j. by rewrite capacity_push_all. }
  unfold collect_events. cbn [last_seq]. rewrite (journal_lags j log seen Hr Hseen), Hcap.
  case_decide; [done|]. rewrite (events_after_spec j log), (journal_filter j log) by (done || lia).
  f_equal. pose proof (last_numbered (seen + 1) (drop (Z.to_nat seen) log)) as Hl.
  case_decide as Hd.
  - destruct (last _); [done|]. apply (f_equal length) in Hd. rewrite length_drop in Hd.
    unfold zlen in *. simpl in Hd. f_equal. lia.
  - destruct (last _) as [entry|]; [|done]. simpl in Hl. injection Hl as ->. f_equal.
    unfold zlen in *. rewrite length_drop. lia.
Qed.

Lemma collect_events_refines_log_witness :
  let log := [OrphanAdded [] 1; OrphanAdded [] 2; OrphanAdded [] 3] in
  (collect_events (journal_push_all (journal_with_capacity 2) log) {| last_seq := 1 |}).1 =
    Ok [OrphanAdded [] 2; OrphanAdded [] 3].
Proof.
  intros log. unfold log.
  rewrite (collect_events_refines_log 2 _ 1); [vm_compute; reflexivity|done|split; done].
Defined.

(** The chain pushes a batch of events, the wallet drains, repeatedly. *)
Fixpoint wallet_run (j : ChainEventJournal) (batches : list (list ChainEvent))
    : list (Result ChainEventCursorError (list ChainEvent)) :=
  match batches with
  | [] => []
  | batch :: batches' =>
      let '(r, j) := take_events (journal_push_all j batch) in
      r :: wallet_run j batches'
  end.

Lemma wallet_run_exact j log batches :
  journal_rel j log → wallet_high_water j = zlen log →
  zlen log + zlen (concat batches) < U64_MAX →
  Forall (λ b, (length b ≤ capacity j)%nat) batches →
  wallet_run j batches = map Ok batches.
Proof.
  revert j log. induction batches as [|b batches IH]; intros j log Hr Hw Hmax Hb; [done|].
  apply Forall_cons in Hb as [Hb Hbs]. cbn [wallet_run concat map] in *. rewrite zlen_app in Hmax.
  pose proof (zlen_nonneg (concat batches)).
  destruct (take_events_spec (journal_push_all j b) (log ++ b)) as (r&j'&->&Hc&Hr'&Hres).
  { apply journal_rel_push_all; [done|lia]. }
  rewrite capacity_push_all, wallet_push_all, Hw, zlen_app in *.
  case_decide; [unfold zlen in *; lia|]. destruct Hres as [Hw' ->]. f_equal.
  - f_equal. unfold zlen. by rewrite Nat2Z.id, drop_app_length.
  - apply (IH j' (log ++ b)); rewrite ?zlen_app; try done; [lia|]. by rewrite Hc.
Qed.

(** A wallet that drains the journal at least once every [capacity] events
    receives every event exactly once, in order. *)
Theorem wallet_receives_every_event (cap : nat) (batches : list (list ChainEvent)) :
  zlen (concat batches) < U64_MAX → Forall (λ b, (length b ≤ Nat.max cap 1)%nat) batches →
  wallet_run (journal_with_capacity cap) batches = map Ok batches.
Proof.
  intros Hmax Hb. by apply (wallet_run_exact _ []); [apply journal_rel_new|..].
Qed.

Lemma wallet_receives_every_event_witness :
  let b1 := [OrphanAdded [] 1; OrphanAdded [] 2] in
  let b2 := [OrphanAdded [] 3; OrphanAdded [] 4] in
  wallet_run (journal_with_capacity 2) [b1; b2] = [Ok b1; Ok b2].
Proof.
  intros b1 b2. apply (wallet_receives_every_event 2 [b1; b2]); [done|].
  repeat constructor.
Defined.

(** *** A spurious lag error of the disconnected-block journal

    The error means that history was dropped, but a fresh journal with one entry reports it
    to any reader more than one event behind that entry. *)
Lemma blocks_since_spurious_lag cap seq block since :
  0 ≤ since → since + 1 < seq →
  blocks_since (disconnected_record seq block (disconnected_with_capacity cap)) since =
  Err {| dr_cursor_seq := since; dr_oldest_available := seq |}.
Proof.
  intros Hs Hlt. unfold blocks_since, disconnected_record, disconnected_with_capacity.
  cbn [d_entries d_capacity length]. destruct (Nat.leb_spec (Nat.max cap 1) 0); [lia|].
  cbn [app head de_event_seq]. unfold u64_saturating_sub.
  destruct (Z.ltb_spec since (Z.max (seq - 1) 0)); [done|lia].
Qed.
