(* ===== verification/CoreTests.v ===== *)
(** * The unit tests of the data structures of bitrst-core

    The [mod tests] of uint256.rs, pow.rs, difficulty.rs, wire.rs, merkle.rs, time.rs,
    transaction.rs, block.rs and utxo.rs, on the model, with the toy primitives. *)

From stdpp Require Import prelude gmap strings list.
From Stdlib Require Import Strings.Byte.
From S2P Require Import Prelude Bytes Testing Crypto U256 Pow Difficulty Wire Transaction Merkle.
From S2P Require Import Block Utxo Journal.

Local Open Scope Z_scope.
Local Open Scope list_scope.

#[local] Existing Instance toy_crypto.

(** ** uint256.rs *)

Definition div_by_larger_returns_zero : Test :=
  let small := zeros_with [(0%nat, 1)] in
  let large := zeros_with [(1%nat, 1)] in
  let? q := expect_some (div_u256_le small large) in
  assert_eq q zero32.
Definition add_one_carries_across_bytes : Test :=
  let v := zeros_with [(0%nat, 0xff)] in
  let? out := expect_some (add_u256_le v 1) in
  let? out0 := expect_some (out !! 0%nat) in
  check? assert_eq out0 (zb 0) ;;
  let? out1 := expect_some (out !! 1%nat) in
  assert_eq out1 (zb 1).
Example uint256_tests : all_pass [div_by_larger_returns_zero; add_one_carries_across_bytes].
Proof. vm_compute. reflexivity. Qed.

(** ** pow.rs *)

Definition genesis_compact_bits_roundtrip : Test :=
  let bits := 0x1d00ffff in
  let? target := expect_some (from_bits bits) in
  assert_eq (to_bits target) (Some bits).
Definition decodes_genesis_bits_target : Test :=
  let? target := expect_some (from_bits 0x1d00ffff) in
  let expected := zeros_with [(26%nat, 0xff); (27%nat, 0xff)] in
  assert_eq (threshold target) expected.
Definition rejects_invalid_compact_targets : Test :=
  check? assert (is_none (from_bits 0)) ;;
  check? assert (is_none (from_bits 0x01800000)) ;;
  assert (is_none (from_bits 0x2100ffff)).
Definition compares_internal_hashes_as_little_endian_numbers : Test :=
  let? target := expect_some (from_bits 0x03000100) in
  let equal := threshold target in
  let below := zeros_with [(0%nat, 0xff)] in
  let above := zeros_with [(0%nat, 1); (1%nat, 1)] in
  check? assert (meets target equal) ;;
  check? assert (meets target below) ;;
  assert (negb (meets target above)).
Example pow_tests : all_pass [genesis_compact_bits_roundtrip; decodes_genesis_bits_target;
  rejects_invalid_compact_targets; compares_internal_hashes_as_little_endian_numbers].
Proof. vm_compute. reflexivity. Qed.

(** ** difficulty.rs *)

Definition clamp_timespan_limits_extremes : Test :=
  check? assert_eq (clamp_timespan 1 TARGET_TIMESPAN) (TARGET_TIMESPAN / 4) ;;
  check? assert_eq (clamp_timespan (TARGET_TIMESPAN * 10) TARGET_TIMESPAN) (TARGET_TIMESPAN * 4) ;;
  assert_eq (clamp_timespan TARGET_TIMESPAN TARGET_TIMESPAN) TARGET_TIMESPAN.
(** The comparison of the tests. *)
Definition test_compare_threshold (left right : list byte) : comparison := lex_cmp (rev left) (rev right).
Definition doubles_difficulty_when_blocks_are_twice_as_fast : Test :=
  let prev_bits := 0x1d00ffff in
  let actual := TARGET_TIMESPAN / 2 in
  let? next_bits := expect (adjust_bits prev_bits actual) in
  let? prev_target := expect_some (from_bits prev_bits) in
  let? next_target := expect_some (from_bits next_bits) in
  assert (if test_compare_threshold (threshold next_target) (threshold prev_target) is Lt then true else false).
Definition halves_difficulty_when_blocks_are_twice_as_slow : Test :=
  let? max_target := expect_some (from_bits 0x1d00ffff) in
  let? harder_target := expect_some (div_le_by_u64 (threshold max_target) 2) in
  let? prev_bits := expect_some (to_bits (from_threshold harder_target)) in
  let actual := TARGET_TIMESPAN * 2 in
  let? next_bits := expect (adjust_bits prev_bits actual) in
  let? prev_target := expect_some (from_bits prev_bits) in
  let? next_target := expect_some (from_bits next_bits) in
  assert (if test_compare_threshold (threshold next_target) (threshold prev_target) is Gt then true else false).
Definition rejects_invalid_previous_bits : Test :=
  assert (match adjust_bits 0 TARGET_TIMESPAN with
          | Err (InvalidPreviousBits bits) => bits =? 0
          | _ => false
          end).
Example difficulty_tests : all_pass [clamp_timespan_limits_extremes;
  doubles_difficulty_when_blocks_are_twice_as_fast; halves_difficulty_when_blocks_are_twice_as_slow;
  rejects_invalid_previous_bits].
Proof. vm_compute. reflexivity. Qed.

(** ** wire.rs *)

Definition bounded_reader_rejects_truncated_values : Test :=
  let reader := new_reader (bytes_of [1; 2; 3]) in
  assert (is_err (read_u32 "version" reader).1).
Definition compact_size_decodes_canonical_boundaries : Test :=
  for_each [([0xfc], 0xfc); ([0xfd; 0xfd; 0], 0xfd); ([0xfe; 0; 0; 1; 0], 0x10000);
            ([0xff; 0; 0; 0; 0; 1; 0; 0; 0], 0x100000000)] (λ '(bytes, expected),
    assert_eq (read_compact_size "count" (new_reader (bytes_of bytes))).1 (Ok expected)).
Definition compact_size_rejects_non_canonical_encodings : Test :=
  for_each [[0xfd; 0xfc; 0]; [0xfe; 0xff; 0xff; 0; 0]; [0xff; 0xff; 0xff; 0xff; 0xff; 0; 0; 0; 0]] (λ bytes,
    assert (match (read_compact_size "count" (new_reader (bytes_of bytes))).1 with
            | Err (NonCanonicalCompactSize _ _) => true
            | _ => false
            end)).
Definition compact_size_rejects_truncated_prefixed_payloads : Test :=
  for_each [[0xfd]; [0xfd; 0xfd]; [0xfe; 0; 0; 1]; [0xff; 0; 0; 0; 0; 1; 0; 0]] (λ bytes,
    assert (match (read_compact_size "count" (new_reader (bytes_of bytes))).1 with
            | Err (Truncated context _ _) => bool_decide (context = "count"%string)
            | _ => false
            end)).
Example wire_tests : all_pass [bounded_reader_rejects_truncated_values;
  compact_size_decodes_canonical_boundaries; compact_size_rejects_non_canonical_encodings;
  compact_size_rejects_truncated_prefixed_payloads].
Proof. vm_compute. reflexivity. Qed.

(** ** merkle.rs *)

Definition genesis_txid : list byte := bytes_of
  [0x3b; 0xa3; 0xed; 0xfd; 0x7a; 0x7b; 0x12; 0xb2; 0x7a; 0xc7; 0x2c; 0x3e; 0x67; 0x76; 0x8f; 0x61;
   0x7f; 0xc8; 0x1b; 0xc3; 0x88; 0x8a; 0x51; 0x32; 0x3a; 0x9f; 0xb8; 0xaa; 0x4b; 0x1e; 0x5e; 0x4a].
Definition returns_none_for_empty_transaction_list : Test := assert (is_none (merkle_root [])).
(** Compared as bytes; the test compares the hexadecimal text of the reversed bytes. *)
Definition genesis_transaction_id_is_genesis_merkle_root : Test :=
  let? root := expect_some (merkle_root [genesis_txid]) in
  assert_eq root genesis_txid.
Definition duplicates_odd_final_hash_at_each_level : Test :=
  let a := replicate 32 (zb 1) in
  let b := replicate 32 (zb 2) in
  let c := replicate 32 (zb 3) in
  assert (negb (is_none (merkle_root [a; b; c]))).
Example merkle_tests : all_pass [returns_none_for_empty_transaction_list;
  genesis_transaction_id_is_genesis_merkle_root; duplicates_odd_final_hash_at_each_level].
Proof. vm_compute. reflexivity. Qed.

(** ** time.rs *)

Definition accepts_timestamp_within_future_drift_limit : Test :=
  let median := 1000 in
  let network := 1500 in
  check? assert (valid_block_time 1001 median network) ;;
  assert (valid_block_time (network + MAX_FUTURE_BLOCK_TIME) median network).
Definition rejects_timestamp_at_or_before_median_past_time : Test :=
  check? assert (negb (valid_block_time 1000 1000 2000)) ;;
  assert (negb (valid_block_time 999 1000 2000)).
Definition rejects_timestamp_too_far_in_the_future : Test :=
  let network := 2000 in
  assert (negb (valid_block_time (network + MAX_FUTURE_BLOCK_TIME + 1) 1000 network)).
Example time_tests : all_pass [accepts_timestamp_within_future_drift_limit;
  rejects_timestamp_at_or_before_median_past_time; rejects_timestamp_too_far_in_the_future].
Proof. vm_compute. reflexivity. Qed.

(** ** transaction.rs *)

Definition coinbase_like (script_sig : list byte) (outputs : list TxOutput) : Transaction := {|
  tx_version := 1;
  tx_inputs := [{| previous_output := zero32; txin_index := U32_MAX; script_sig := script_sig;
                   txin_sequence := U32_MAX |}];
  tx_outputs := outputs; tx_lock_time := 0 |}.
Definition serializes_and_hashes_coinbase_like_tx : Test :=
  let tx := coinbase_like [zb 0x51] [{| txout_value := 5000000000; script_pubkey := [zb 0x51] |}] in
  check? assert (negb (bool_decide (serialize_tx tx = []))) ;;
  assert_eq (length (tx_id tx)) 32%nat.
Definition builds_coinbase_tx : Test :=
  let tx := coinbase_transaction 1 5000000000 in
  check? assert_eq (length (tx_inputs tx)) 1%nat ;;
  check? assert_eq (length (tx_outputs tx)) 1%nat ;;
  let? output := expect_some (tx_outputs tx !! 0%nat) in
  assert_eq (txout_value output) 5000000000.
Definition uses_compact_size_for_large_scripts : Test :=
  let tx := coinbase_like (replicate 253 (zb 0x51)) [] in
  let serialized := serialize_tx tx in
  assert_eq (take 3 (drop 41 serialized)) (bytes_of [0xfd; 0xfd; 0]).
Definition legacy_transaction_roundtrips_wire_encoding : Test :=
  let tx := coinbase_transaction 1 5000000000 in
  assert_eq (deserialize_tx (serialize_tx tx)) (Ok tx).
Definition rejects_transaction_truncation_at_every_byte : Test :=
  let encoded := serialize_tx (coinbase_transaction 1 5000000000) in
  for_each (seq 0 (length encoded)) (λ length, assert (is_err (deserialize_tx (take length encoded)))).
Definition rejects_transaction_trailing_bytes : Test :=
  let encoded := serialize_tx (coinbase_transaction 1 5000000000) ++ [zb 0] in
  assert (match deserialize_tx encoded with Err (TrailingBytes _ _) => true | _ => false end).
Definition limit_exceeded {A} (context : string) (r : Result DecodeError A) : bool :=
  match r with Err (LimitExceeded context' _ _) => bool_decide (context' = context) | _ => false end.
Definition rejects_oversized_script_before_allocation : Test :=
  let encoded := bytes_of [1; 0; 0; 0; 1] ++ replicate 32 (zb 0) ++ le_bytes 4 U32_MAX ++
                 bytes_of [0xfd; 0x11; 0x27] in
  assert (limit_exceeded "scriptSig" (deserialize_tx encoded)).
Definition rejects_oversized_input_count_before_allocation : Test :=
  let encoded := bytes_of [1; 0; 0; 0; 0xfd; 0xa9; 0x61] in
  assert (limit_exceeded "transaction input count" (deserialize_tx encoded)).
Definition rejects_non_canonical_transaction_counts : Test :=
  let encoded := bytes_of [1; 0; 0; 0; 0xfd; 0; 0] in
  assert (match deserialize_tx encoded with Err (NonCanonicalCompactSize _ _) => true | _ => false end).
Definition rejects_oversized_output_count_before_allocation : Test :=
  let encoded := bytes_of [1; 0; 0; 0; 0] ++ [zb 0xfd] ++ le_bytes 2 (MAX_TRANSACTION_OUTPUTS + 1) in
  assert (match deserialize_tx encoded with
          | Err (LimitExceeded context _ limit) =>
              bool_decide (context = "transaction output count"%string) && (limit =? MAX_TRANSACTION_OUTPUTS)
          | _ => false
          end).
Example transaction_tests : all_pass [serializes_and_hashes_coinbase_like_tx; builds_coinbase_tx;
  uses_compact_size_for_large_scripts; legacy_transaction_roundtrips_wire_encoding;
  rejects_transaction_truncation_at_every_byte; rejects_transaction_trailing_bytes;
  rejects_oversized_script_before_allocation; rejects_oversized_input_count_before_allocation;
  rejects_non_canonical_transaction_counts; rejects_oversized_output_count_before_allocation].
Proof. vm_compute. reflexivity. Qed.

(** ** block.rs *)

Definition test_sample_header : BlockHeader := {|
  hdr_version := 1; prev_blockhash := zero32; hdr_merkle_root := zero32; hdr_time := 1231006505;
  hdr_bits := 0x1d00ffff; hdr_nonce := 0 |}.
Definition test_sample_block : Block := coinbase_block test_sample_header 1 5000000000.
(** Without the comparison of the hash. *)
Definition decodes_genesis_header_vector : Test :=
  let bytes := bytes_of [1; 0; 0; 0] ++ zero32 ++ genesis_txid ++
               bytes_of [0x29; 0xab; 0x5f; 0x49; 0xff; 0xff; 0; 0x1d; 0x1d; 0xac; 0x2b; 0x7c] in
  let? header := expect (deserialize_header bytes) in
  check? assert_eq header {| hdr_version := 1; prev_blockhash := zero32; hdr_merkle_root := genesis_txid;
                             hdr_time := 1231006505; hdr_bits := 0x1d00ffff; hdr_nonce := 2083236893 |} ;;
  assert_eq (serialize_header header) bytes.
Definition rejects_truncated_block_header : Test :=
  let encoded := serialize_header test_sample_header in
  for_each (seq 0 (length encoded)) (λ length,
    assert (match deserialize_header (take length encoded) with Err (Truncated _ _ _) => true | _ => false end)).
Definition rejects_block_header_trailing_bytes : Test :=
  let encoded := serialize_header test_sample_header ++ [zb 0] in
  assert (match deserialize_header encoded with
          | Err (TrailingBytes context remaining) =>
              bool_decide (context = "block header"%string) && (remaining =? 1)
          | _ => false
          end).
Definition coinbase_block_sets_matching_merkle_root : Test :=
  let block := coinbase_block test_sample_header 1 5000000000 in
  check? assert_eq (length (transactions block)) 1%nat ;;
  assert (header_merkle_root_matches block).
Definition single_transaction_block_uses_txid_as_merkle_root : Test :=
  let tx := coinbase_transaction 1 5000000000 in
  let txid := tx_id tx in
  let h := test_sample_header in
  let header := {| hdr_version := hdr_version h; prev_blockhash := prev_blockhash h; hdr_merkle_root := txid;
                   hdr_time := hdr_time h; hdr_bits := hdr_bits h; hdr_nonce := hdr_nonce h |} in
  let block := {| header := header; transactions := [tx] |} in
  check? assert (header_merkle_root_matches block) ;;
  let? root := expect_some (block_merkle_root block) in
  assert_eq root txid.
Definition serializes_header_then_transactions : Test :=
  let block := test_sample_block in
  let serialized := serialize_block block in
  check? assert_eq (zlen serialized) (block_serialized_size block) ;;
  let? tx := expect_some (transactions block !! 0%nat) in
  check? assert_eq (length serialized) (80 + 1 + length (serialize_tx tx))%nat ;;
  assert_eq (take 80 serialized) (serialize_header (header block)).
Definition block_roundtrips_wire_encoding : Test :=
  assert_eq (deserialize_block (serialize_block test_sample_block)) (Ok test_sample_block).
Definition rejects_block_truncation_at_every_byte : Test :=
  let encoded := serialize_block test_sample_block in
  for_each (seq 0 (length encoded)) (λ length, assert (is_err (deserialize_block (take length encoded)))).
Definition rejects_block_trailing_bytes : Test :=
  let encoded := serialize_block test_sample_block ++ [zb 0] in
  assert (match deserialize_block encoded with Err (TrailingBytes _ _) => true | _ => false end).
Definition rejects_oversized_transaction_count_before_allocation : Test :=
  let encoded := serialize_header test_sample_header ++ bytes_of [0xfd; 0xa9; 0x61] in
  assert (limit_exceeded "block transaction count" (deserialize_block encoded)).
Definition rejects_non_canonical_block_transaction_count : Test :=
  let encoded := serialize_header test_sample_header ++ bytes_of [0xfd; 0; 0] in
  assert (match deserialize_block encoded with
          | Err (NonCanonicalCompactSize context value) =>
              bool_decide (context = "block transaction count"%string) && (value =? 0)
          | _ => false
          end).
Example block_tests : all_pass [decodes_genesis_header_vector; rejects_truncated_block_header;
  rejects_block_header_trailing_bytes; coinbase_block_sets_matching_merkle_root;
  single_transaction_block_uses_txid_as_merkle_root; serializes_header_then_transactions;
  block_roundtrips_wire_encoding; rejects_block_truncation_at_every_byte; rejects_block_trailing_bytes;
  rejects_oversized_transaction_count_before_allocation; rejects_non_canonical_block_transaction_count].
Proof. vm_compute. reflexivity. Qed.

(** ** utxo.rs *)

Definition spend_of (txid : list byte) (value : Z) : Transaction := {|
  tx_version := 1;
  tx_inputs := [{| previous_output := txid; txin_index := 0; script_sig := []; txin_sequence := U32_MAX |}];
  tx_outputs := [{| txout_value := value; script_pubkey := [] |}];
  tx_lock_time := 0 |}.
Definition adds_outputs_from_coinbase : Test :=
  let tx := coinbase_transaction 1 5000000000 in
  let '(_, utxo) := apply_transaction new_utxo_set tx in
  assert_eq (size utxo) 1%nat.
Definition rejects_spending_missing_inputs : Test :=
  let tx := spend_of (replicate 32 (zb 1)) 1 in
  assert (match validate_transaction new_utxo_set tx with Err (MissingInput _ _) => true | _ => false end).
Definition rejects_outputs_exceeding_inputs : Test :=
  let funding := coinbase_transaction 0 10 in
  let '(_, utxo) := apply_transaction new_utxo_set funding in
  let spend := spend_of (tx_id funding) 11 in
  assert (match validate_transaction utxo spend with Err (InputOutputMismatch _ _) => true | _ => false end).
Definition disconnect_undo_restores_prior_state : Test :=
  let coinbase := coinbase_transaction 0 5000000000 in
  let '(undo, utxo) := apply_transaction new_utxo_set coinbase in
  check? assert_eq (size utxo) 1%nat ;;
  assert_eq (size (disconnect_undo utxo undo)) 0%nat.
Example utxo_tests : all_pass [adds_outputs_from_coinbase; rejects_spending_missing_inputs;
  rejects_outputs_exceeding_inputs; disconnect_undo_restores_prior_state].
Proof. vm_compute. reflexivity. Qed.

(** ** chain_event_journal.rs *)

Definition connected (height : Z) : ChainEvent := BlockConnected height (replicate 32 (zb height)) 1.
Definition default_cursor : ChainEventCursor := {| last_seq := 0 |}.
Definition push_events (events : list ChainEvent) (j : ChainEventJournal) : ChainEventJournal :=
  foldl (λ j e, (journal_push e j).2) j events.
Definition wallet_take_before_mempool_cursor_still_replays : Test :=
  let journal := push_events [connected 0] (journal_with_capacity 8) in
  let '(r, journal) := take_events journal in
  let? wallet := expect r in
  check? assert_eq (length wallet) 1%nat ;;
  let '(r, cursor) := collect_events journal default_cursor in
  let? mempool := expect r in
  assert_eq (length mempool) 1%nat.
Definition two_cursors_collect_independently : Test :=
  let journal := push_events [connected 1] (journal_with_capacity 8) in
  let '(r, first) := collect_events journal default_cursor in
  let? events := expect r in
  check? assert_eq (length events) 1%nat ;;
  let second := event_cursor journal in
  let '(r, second) := collect_events journal second in
  let? events := expect r in
  check? assert_eq (length events) 0%nat ;;
  let journal := push_events [connected 2] journal in
  let '(r, second) := collect_events journal second in
  let? events := expect r in
  check? assert_eq (length events) 1%nat ;;
  let '(r, first) := collect_events journal first in
  let? events := expect r in
  assert_eq (length events) 1%nat.
Definition overrun_returns_lag_error : Test :=
  let journal := push_events [connected 1; connected 2; connected 3] (journal_with_capacity 2) in
  let? err := expect_err (collect_events journal default_cursor).1 in
  check? assert_eq (cursor_seq err) 0 ;;
  assert_eq (oldest_available err) 2.
Definition caught_up_cursor_advances_after_journal_wrap : Test :=
  let journal := push_events [connected 1] (journal_with_capacity 2) in
  let '(r, cursor) := collect_events journal default_cursor in
  check? (let? _ := expect r in Ok ()) ;;
  let journal := push_events [connected 2; connected 3] journal in
  let '(r, cursor) := collect_events journal cursor in
  let? collected := expect r in
  check? assert_eq (length collected) 2%nat ;;
  assert_eq (last_seq cursor) 3.
Definition take_events_is_idempotent_until_new_events : Test :=
  let journal := push_events [connected 1] (journal_with_capacity 4) in
  let '(r, journal) := take_events journal in
  let? events := expect r in
  check? assert_eq (length events) 1%nat ;;
  let '(r, journal) := take_events journal in
  let? events := expect r in
  check? assert_eq (length events) 0%nat ;;
  let journal := push_events [connected 2] journal in
  let '(r, journal) := take_events journal in
  let? events := expect r in
  assert_eq (length events) 1%nat.
Definition wallet_take_returns_lag_when_high_water_falls_behind : Test :=
  let journal := push_events [connected 1] (journal_with_capacity 2) in
  let '(r, journal) := take_events journal in
  let? events := expect r in
  check? assert_eq (length events) 1%nat ;;
  let journal := push_events [connected 2; connected 3; connected 4] journal in
  let? err := expect_err (take_events journal).1 in
  check? assert_eq (cursor_seq err) 1 ;;
  assert_eq (oldest_available err) 3.
Definition rollback_events_remain_available_to_lagging_cursor : Test :=
  let journal := push_events [connected 1; connected 2] (journal_with_capacity 8) in
  let '(r, cursor) := collect_events journal default_cursor in
  check? (let? _ := expect r in Ok ()) ;;
  let journal := push_events [BlockDisconnected 2 (replicate 32 (zb 2));
    ChainReorg 1 (replicate 32 (zb 0xaa)) (replicate 32 (zb 0xbb)); connected 2] journal in
  let '(r, cursor) := collect_events journal cursor in
  let? collected := expect r in
  assert (match collected with
          | [BlockDisconnected 2 _; ChainReorg _ _ _; BlockConnected 2 _ _] => true
          | _ => false
          end).
Example chain_event_journal_tests : all_pass [wallet_take_before_mempool_cursor_still_replays;
  two_cursors_collect_independently; overrun_returns_lag_error;
  caught_up_cursor_advances_after_journal_wrap; take_events_is_idempotent_until_new_events;
  wallet_take_returns_lag_when_high_water_falls_behind;
  rollback_events_remain_available_to_lagging_cursor].
Proof. vm_compute. reflexivity. Qed.
