(* ===== verification/Store.v ===== *)
(** * Block storage (bitrst-core/src/store.rs)

    The [BlockStore] trait as a class with its laws, and the in-memory implementation the
    chain uses. *)

From stdpp Require Import prelude gmap strings list.
From Stdlib Require Import Strings.Byte.
From S2P Require Import Prelude Bytes Crypto Block.

Inductive StoreError :=
| NotFound
| CommitFailed
| InvalidPath
| Corrupt (context : string)
| HashMismatch (expected actual : list byte)
| Io (context message : string).
#[global] Instance StoreError_eq_dec : EqDecision StoreError.
Proof. solve_decision. Defined.

(** The trait. *)
Class BlockStore (S : Type) := {
  put_block : Block → SM S StoreError unit;
  get_block : S → list byte → Result StoreError (option Block);
  commit : SM S StoreError unit
}.

(** What a client may rely on, for the states [ok] that a store reaches and the blocks it is
    given. *)
Class BlockStoreLaws {crypto : CryptoLib} (S : Type) `{BlockStore S} (ok : S → Prop)
    (storable : Block → Prop) : Prop := {
  put_ok : ∀ b s, ok s → storable b → ∃ s', put_block b s = (Ok (), s') ∧ ok s';
  get_put_same : ∀ b s s', ok s → storable b → put_block b s = (Ok (), s') →
    get_block s' (block_hash b) = Ok (Some b);
  get_put_other : ∀ b s s' h, ok s → storable b → put_block b s = (Ok (), s') →
    length h = 32%nat → h ≠ block_hash b → get_block s' h = get_block s h;
  commit_pure : ∀ s, ok s → ∃ s', commit s = (Ok (), s') ∧ ok s' ∧
    ∀ h, get_block s' h = get_block s h
}.

Abbreviation MemoryBlockStore := (gmap (list byte) Block).
Definition new_memory_store : MemoryBlockStore := ∅.

#[global] Instance memory_block_store {crypto : CryptoLib} : BlockStore MemoryBlockStore := {
  put_block := λ block, smodify (λ blocks, <[block_hash block := block]> blocks);
  get_block := λ blocks hash, Ok (blocks !! hash);
  commit := sret ()
}.

#[global] Instance memory_block_store_laws {crypto : CryptoLib} :
  BlockStoreLaws MemoryBlockStore (λ _, True) (λ _, True).
Proof.
  split.
  - intros b s _ _. by eexists.
  - intros b s s' _ _ [= <-]. simpl. by rewrite lookup_insert_eq.
  - intros b s s' h _ _ [= <-] _ Hne. simpl. by rewrite lookup_insert_ne.
  - intros s _. by exists s.
Qed.

(** Any lawful store behaves as the in-memory store: the blocks put last under their hashes
    shadow what was there before. *)
Section client.
Context {crypto : CryptoLib} {S : Type} `{store : BlockStore S} {ok : S → Prop}
  {storable : Block → Prop} `{laws : !BlockStoreLaws S ok storable}.

Definition shadowed (memory : MemoryBlockStore) (s : S) (hash : list byte)
    : Result StoreError (option Block) :=
  match memory !! hash with Some b => Ok (Some b) | None => get_block s hash end.

Lemma puts_shadow (bs : list Block) (s s0 : S) (memory : MemoryBlockStore) :
  ok s → Forall storable bs →
  (∀ hash, length hash = 32%nat → get_block s hash = shadowed memory s0 hash) →
  ∃ s' memory', sfor bs put_block s = (Ok (), s') ∧ sfor bs put_block memory = (Ok (), memory') ∧
    ok s' ∧ ∀ hash, length hash = 32%nat → get_block s' hash = shadowed memory' s0 hash.
Proof.
  intros Hs Hbs. revert s memory Hs. induction Hbs as [|b bs Hb _ IH]; intros s memory Hs Hrel.
  { by exists s, memory. }
  destruct (put_ok b s Hs Hb) as (s1&Hput&Hs1). simpl. rewrite (sbind_run _ _ _ _ _ Hput).
  
  assert (put_block b memory = (Ok (), <[block_hash b := b]> memory)) as Hmem by reflexivity.
  rewrite (sbind_run _ _ _ _ _ Hmem).
  apply IH; [done|]. intros hash Hh. unfold shadowed.
  destruct (decide (hash = block_hash b)) as [->|Hne].
  - rewrite lookup_insert_eq. by apply (get_put_same b s s1).
  - rewrite lookup_insert_ne by done. rewrite (get_put_other b s s1) by done. by apply Hrel.
Qed.
End client.
