(* ===== verification/DiskStore.v ===== *)
(** * The file block store (bitrst-core/src/store/disk.rs)

    One file per block, written to a temporary file, synchronized, and renamed.  The file
    system is modelled as far as the store uses it: the root directory, which may be absent,
    its inodes and names, what of them has reached the disk, and the calls of [std::fs] on
    them.  Every call may fail, before or after its effect, and the process may die in it;
    [crash] says what a power failure leaves.  The contract of the store: whatever happened,
    an opened store returns a block that was put under its hash and has not lost a block whose
    put had returned, as long as the root directory itself is not lost: the code creates it
    and never synchronizes its parent. *)

From stdpp Require Import prelude gmap strings list pretty.
From Stdlib Require Import Strings.Byte.
From S2P Require Import Prelude Bytes Crypto Wire Transaction Block Store.

Local Open Scope string_scope.
Local Open Scope Z_scope.
Local Open Scope list_scope.

(** ** The file system

    A file name is a list of bytes.  [synced] says that the content of a file has reached the
    disk.  [past] holds the directories since the last synchronization of the
    directory, that one included: a power failure may undo any of the changes since.  The root
    directory may be absent; one that [create_dir_all] has created is known to be on the disk
    only once it has survived a power failure, since its parent is never synchronized. *)
Abbreviation Name := (list byte).
Record File := { data : list byte; synced : bool }.
Inductive Root := Absent | Created | Durable.
Record Disk := {
  root : Root;
  inodes : gmap nat File;
  dir : gmap Name nat;
  past : list (gmap Name nat)
}.

Definition set_inodes (m : gmap nat File) (d : Disk) : Disk :=
  {| root := root d; inodes := m; dir := dir d; past := past d |}.
Definition set_dir (m : gmap Name nat) (d : Disk) : Disk :=
  {| root := root d; inodes := inodes d; dir := m; past := dir d :: past d |}.

(** What the next system call does: it works; it fails with a message of the system; the
    process dies in it.  [progress] is how much of its effect a failing call has: bytes for a
    write, all or nothing (zero) for the other calls. *)
Inductive Fault :=
| Works
| Fails (message : string) (progress : nat)
| Dies (progress : nat).

(** A call of the store: a computation on the disk and on the faults to come.  [Panic] is the
    death of the process. *)
Abbreviation DM := (SM (Disk * list Fault) StoreError).

(** An effect of the system: its result, or the message of the error it reports. *)
Definition Effect (A : Type) : Type := Disk → Result string A * Disk.

Definition syscall {A} (context : string) (partial : nat → Disk → Disk) (effect : Effect A)
    : DM A := λ '(d, faults),
  let run faults := let '(r, d) := effect d in (map_err (Io context) r, (d, faults)) in
  match faults with
  | [] => run []
  | Works :: faults => run faults
  | Fails message progress :: faults => (Err (Io context message), (partial progress d, faults))
  | Dies progress :: faults => (Panic, (partial progress d, faults))
  end.
Definition atomic_syscall {A} (context : string) (effect : Effect A) : DM A :=
  syscall context (λ progress d, if decide (progress = O) then d else (effect d).2) effect.

#[global] Instance root_eq_dec : EqDecision Root.
Proof. solve_decision. Defined.
Definition no_such_file : string := "No such file or directory".

(** [fs::create_dir_all(root)] *)
Definition create_dir_all : Effect unit := λ d,
  (Ok (), if decide (root d = Absent)
          then {| root := Created; inodes := inodes d; dir := ∅; past := [] |} else d).
(** [OpenOptions::new().write(true).create(true).truncate(true).open(name)] *)
Definition open_truncate (name : Name) : Effect nat := λ d,
  if decide (root d = Absent) then (Err no_such_file, d) else
  match dir d !! name with
  | Some i => (Ok i, set_inodes (<[i := {| data := []; synced := false |}]> (inodes d)) d)
  | None =>
      let i := fresh (dom (inodes d)) in
      (Ok i, set_dir (<[name := i]> (dir d))
               (set_inodes (<[i := {| data := []; synced := false |}]> (inodes d)) d))
  end.
Definition store_data (i : nat) (bytes : list byte) (d : Disk) : Disk :=
  set_inodes (<[i := {| data := bytes; synced := false |}]> (inodes d)) d.
(** [file.sync_all()] *)
Definition sync_file (i : nat) : Effect unit := λ d,
  (Ok (), set_inodes (alter (λ f, {| data := data f; synced := true |}) i (inodes d)) d).
(** [fs::rename]: it replaces the target in one step, and does nothing when both names are
    already the same file. *)
Definition rename (from to : Name) : Effect unit := λ d,
  match dir d !! from with
  | None => (Err no_such_file, d)
  | Some i =>
      if decide (dir d !! to = Some i) then (Ok (), d)
      else (Ok (), set_dir (<[to := i]> (delete from (dir d))) d)
  end.
(** [fs::remove_file] *)
Definition remove_file (name : Name) : Effect unit := λ d,
  match dir d !! name with
  | None => (Err no_such_file, d)
  | Some _ => (Ok (), set_dir (delete name (dir d)) d)
  end.
Definition sync_directory : Effect unit := λ d,
  (Ok (), {| root := root d; inodes := inodes d; dir := dir d; past := [] |}).
Definition no_effect : Effect unit := λ d, (Ok (), d).
(** [File::open(root)] *)
Definition open_directory : Effect unit := λ d,
  (if decide (root d = Absent) then Err no_such_file else Ok (), d).
(** [fs::read_dir(root)] *)
Definition read_names {order : HashOrder} : Effect (list Name) := λ d,
  (if decide (root d = Absent) then Err no_such_file else Ok (map fst (hm_iter (dir d))), d).
Definition read_to_end (name : Name) : Effect (list byte) := λ d,
  match i ← dir d !! name; inodes d !! i with
  | None => (Err no_such_file, d)
  | Some f => (Ok (data f), d)
  end.
(** [path.is_file()], which answers [false] when the system call fails. *)
Definition is_file (name : Name) : DM bool := λ '(d, faults),
  let here := bool_decide (is_Some (dir d !! name)) in
  match faults with
  | [] => (Ok here, (d, []))
  | Works :: faults => (Ok here, (d, faults))
  | Fails _ _ :: faults => (Ok false, (d, faults))
  | Dies _ :: faults => (Panic, (d, faults))
  end.
(** [let _ = m]: an error is ignored. *)
Definition ignore_error {A} (m : DM A) : DM unit := λ s,
  match m s with
  | (Panic, s) => (Panic, s)
  | (_, s) => (Ok (), s)
  end.

(** A power failure, or the death of the process: every name is bound as in the current
    directory or in one of those since its last synchronization, independently of the other
    names; synchronized files keep their content, the others may hold anything.  A root
    directory that is only created may be gone, with all its names; if it is there after a
    power failure it stays. *)
Definition root_after (old new : Root) : Prop :=
  match old with Created => True | _ => new = old end.
Record crash (d d' : Disk) : Prop := {
  crash_root : root_after (root d) (root d');
  crash_gone : root d' = Absent → dir d' = ∅;
  crash_names : root d' ≠ Absent → ∀ name, ∃ v, v ∈ dir d :: past d ∧ dir d' !! name = v !! name;
  crash_files : ∀ i f, inodes d !! i = Some f →
    ∃ f', inodes d' !! i = Some f' ∧ (synced f = true → f' = f);
  crash_past : past d' = []
}.

(** ** The store *)

(** The [hex] crate: what the store relies on. *)
Class HexLib := {
  encode_hex : list byte → list byte;
  encode_hex_inj : Inj (=) (=) encode_hex;
  encode_hex_length : ∀ bs, length (encode_hex bs) = (2 * length bs)%nat;
  encode_hex_digits : ∀ bs,
    Forall (λ c, in_bytes 0x30 0x39 c || in_bytes 0x61 0x66 c = true) (encode_hex bs)
}.
#[global] Existing Instance encode_hex_inj.

(** [u8::is_ascii_hexdigit] *)
Definition is_ascii_hexdigit (c : byte) : bool :=
  in_bytes 0x30 0x39 c || in_bytes 0x41 0x46 c || in_bytes 0x61 0x66 c.
Definition is_valid_block_filename (name : Name) : bool :=
  (zlen name =? 64) && forallb is_ascii_hexdigit name.
(** [str::ends_with] *)
Definition ends_with (suffix name : list byte) : bool :=
  bool_decide (drop (length name - length suffix) name = suffix).

(** The [Display] text of the one decoding error that [get_block] reports in full. *)
Definition malformed_text (e : DecodeError) : string :=
  match e with
  | NonCanonicalCompactSize context value =>
      "malformed block file: non-canonical CompactSize for " +:+ context +:+ ": " +:+
      pretty (Z.to_N value)
  | _ => ""
  end.
Definition block_file_error (e : DecodeError) : StoreError :=
  match e with
  | Truncated _ _ _ | TrailingBytes _ _ => Corrupt "truncated block file"
  | LimitExceeded _ _ _ => Corrupt "oversized block file"
  | NonCanonicalCompactSize _ _ => Corrupt (malformed_text e)
  end.

Section store.
Context {crypto : CryptoLib} {hex : HexLib} {order : HashOrder}.

Definition block_path (hash : list byte) : Name := encode_hex hash.
Definition temp_path (hash : list byte) : Name := encode_hex hash ++ str ".tmp".

Definition sync_dir : DM unit :=
  do! atomic_syscall "open store directory for sync" open_directory ;;
  atomic_syscall "sync store directory" sync_directory.

Definition cleanup_entry (name : Name) : DM unit :=
  do! atomic_syscall "read store entry" no_effect ;;
  if negb (utf8_valid name) then ignore_error (atomic_syscall "" (remove_file name))
  else if ends_with (str ".tmp") name
  then atomic_syscall "remove stale temp block file" (remove_file name)
  else if negb (is_valid_block_filename name)
  then atomic_syscall "remove invalid block store residue" (remove_file name)
  else sret ().
Definition cleanup_temp_files : DM unit :=
  let! entries := atomic_syscall "read store directory" read_names in
  sfor entries cleanup_entry.

(** [FileBlockStore::new] *)
Definition file_store_new : DM unit :=
  do! atomic_syscall "create store directory" create_dir_all ;;
  cleanup_temp_files.

Definition write_all (i : nat) (bytes : list byte) : DM unit :=
  syscall "write temp block file" (λ n, store_data i (take n bytes))
    (λ d, (Ok (), store_data i bytes d)).

Definition file_put_block (block : Block) : DM unit :=
  let path := block_path (block_hash block) in
  let temp_path := temp_path (block_hash block) in
  let bytes := serialize_block block in
  let! file := atomic_syscall "open temp block file" (open_truncate temp_path) in
  do! write_all file bytes ;;
  do! atomic_syscall "sync temp block file" (sync_file file) ;;
  do! atomic_syscall "rename temp block file" (rename temp_path path) ;;
  sync_dir.

(** The rest of [get_block], for a file that is present. *)
Definition read_block_file (hash : list byte) : DM (option Block) :=
  do! atomic_syscall "read block file" no_effect ;;
  let! bytes := atomic_syscall "read block file" (read_to_end (block_path hash)) in
  let! block := slift (map_err block_file_error (deserialize_block bytes)) in
  let actual := block_hash block in
  if decide (actual = hash) then sret (Some block) else sthrow (HashMismatch hash actual).
Definition file_get_block (hash : list byte) : DM (option Block) :=
  let! present := is_file (block_path hash) in
  if negb present then sret None else read_block_file hash.

Definition file_commit : DM unit := sync_dir.

(** ** Specification *)

(** A block within the limits that [Block::deserialize] enforces. *)
Definition storable (b : Block) : Prop :=
  block_wf b ∧ zlen (transactions b) ≤ MAX_TRANSACTIONS_PER_BLOCK ∧
  Forall tx_within_limits (transactions b) ∧
  block_serialized_size b ≤ MAX_BLOCK_SERIALIZED_SIZE.

Lemma storable_decodes b : storable b ↔ deserialize_block (serialize_block b) = Ok b.
Proof.
  unfold storable. rewrite deserialize_block_Ok. split.
  - intros (Hwf&Hn&Hl&Hs). split_and!; try done. by rewrite block_serialized_size_spec.
  - intros (_&Hwf&Hn&Hl&Hs). split_and!; try done. by rewrite <- block_serialized_size_spec.
Qed.

(** The history of a directory that begins empty: the disk, whether a store is open, the
    blocks that were passed to [put_block], the hashes whose [put_block] ever returned, and
    those of them for which it returned after the root directory was last lost. *)
Record Run := {
  machine : Disk * list Fault;
  opened : bool;
  attempted : list Block;
  returned : gset (list byte);
  kept : gset (list byte)
}.
Definition empty_disk (start : Root) : Disk := {| root := start; inodes := ∅; dir := ∅; past := [] |}.
Definition fresh_run (start : Root) (faults : list Fault) : Run :=
  {| machine := (empty_disk start, faults); opened := false; attempted := [];
     returned := ∅; kept := ∅ |}.

Definition survives {A} (r : Result StoreError A) : bool :=
  match r with Panic => false | _ => true end.

Inductive run_step : Run → Run → Prop :=
| run_open s r m :
    opened s = false → file_store_new (machine s) = (r, m) →
    run_step s {| machine := m; opened := is_ok r; attempted := attempted s;
      returned := returned s; kept := kept s |}
| run_put s b r m :
    opened s = true → file_put_block b (machine s) = (r, m) →
    run_step s {| machine := m; opened := survives r; attempted := b :: attempted s;
      returned := if is_ok r then {[block_hash b]} ∪ returned s else returned s;
      kept := if is_ok r then {[block_hash b]} ∪ kept s else kept s |}
| run_commit s r m :
    opened s = true → file_commit (machine s) = (r, m) →
    run_step s {| machine := m; opened := survives r; attempted := attempted s;
      returned := returned s; kept := kept s |}
| run_get s hash r m :
    opened s = true → length hash = 32%nat → file_get_block hash (machine s) = (r, m) →
    run_step s {| machine := m; opened := survives r; attempted := attempted s;
      returned := returned s; kept := kept s |}
| run_crash s d faults :
    crash (machine s).1 d →
    run_step s {| machine := (d, faults); opened := false; attempted := attempted s;
      returned := returned s; kept := if decide (root d = Absent) then ∅ else kept s |}.

(** ** The invariant *)

(** Every directory that may be found holds, under the name of a hash, a synchronized file
    with the bytes of a block that was put under it, and still has every name kept; nothing is
    kept while the root directory is absent, which cannot happen ([durable]) when it was on
    the disk from the start. *)
Record disk_inv (durable : bool) (blocks : list Block) (names : gset (list byte)) (d : Disk) : Prop := {
  di_block : ∀ v h i, v ∈ dir d :: past d → length h = 32%nat → v !! block_path h = Some i →
    ∃ b, inodes d !! i = Some {| data := serialize_block b; synced := true |} ∧
      block_hash b = h ∧ b ∈ blocks;
  di_dom : ∀ v n i, v ∈ dir d :: past d → v !! n = Some i → is_Some (inodes d !! i);
  di_kept : ∀ h v, h ∈ names → length h = 32%nat → v ∈ dir d :: past d →
    is_Some (v !! block_path h);
  di_root : (root d = Absent → names = ∅) ∧ (durable = true → root d = Durable)
}.

(** While a store is open no temporary name shares its file, neither with a block that may be
    found nor with another temporary name. *)
Record session (d : Disk) : Prop := {
  se_root : root d ≠ Absent;
  se_temp : ∀ h i v h', length h = 32%nat → dir d !! temp_path h = Some i →
    v ∈ dir d :: past d → length h' = 32%nat → v !! block_path h' ≠ Some i;
  se_inj : ∀ h1 h2 i, length h1 = 32%nat → length h2 = 32%nat →
    dir d !! temp_path h1 = Some i → dir d !! temp_path h2 = Some i → h1 = h2
}.

(** ** File names *)

Lemma length_block_path h : length h = 32%nat → length (block_path h) = 64%nat.
Proof. intros Hh. unfold block_path. rewrite encode_hex_length. lia. Qed.

Lemma hex_digit c :
  in_bytes 0x30 0x39 c || in_bytes 0x61 0x66 c = true → bz c < 0x80 ∧ is_ascii_hexdigit c = true ∧ c ≠ x2e.
Proof.
  unfold is_ascii_hexdigit, in_bytes. intros Hc.
  repeat match goal with |- context [?a <=? ?b] => destruct (Z.leb_spec a b) end; simpl in *;
    split_and!; try done; try lia; intros ->; vm_compute in Hc; done.
Qed.

Lemma block_path_valid h : length h = 32%nat → is_valid_block_filename (block_path h) = true.
Proof.
  intros Hh. unfold is_valid_block_filename. apply andb_true_intro. split.
  - apply Z.eqb_eq. unfold zlen. by rewrite length_block_path.
  - apply forallb_forall. intros c Hc%list_elem_of_In. pose proof (encode_hex_digits h) as Hd.
    rewrite Forall_forall in Hd. by apply hex_digit, Hd.
Qed.

Lemma block_path_not_temp h : length h = 32%nat → ends_with (str ".tmp") (block_path h) = false.
Proof.
  intros Hh. unfold ends_with. apply bool_decide_eq_false. intros Heq.
  assert (x2e ∈ drop (length (block_path h) - length (str ".tmp")) (block_path h)) as Hin.
  { rewrite Heq. by left. }
  apply subseteq_drop in Hin.
  pose proof (encode_hex_digits h) as Hd. rewrite Forall_forall in Hd.
  by destruct (hex_digit _ (Hd _ Hin)) as (_&_&?).
Qed.

Lemma temp_path_ne_block h h' :
  length h = 32%nat → length h' = 32%nat → temp_path h ≠ block_path h'.
Proof.
  intros Hh Hh' Heq. apply (f_equal length) in Heq. revert Heq.
  rewrite length_block_path by done. unfold temp_path. rewrite length_app, encode_hex_length, Hh.
  done.
Qed.

#[local] Instance temp_path_inj : Inj (=) (=) temp_path.
Proof. intros h1 h2 Heq. by apply app_inv_tail, (inj encode_hex) in Heq. Qed.
#[local] Instance block_path_inj : Inj (=) (=) block_path.
Proof. intros h1 h2 Heq. by apply (inj encode_hex). Qed.

Lemma temp_path_utf8 h : utf8_valid (temp_path h) = true.
Proof.
  apply utf8_valid_ascii, Forall_app. split; [|by repeat constructor].
  eapply Forall_impl; [apply encode_hex_digits|]. intros c Hc. by apply hex_digit in Hc as [? _].
Qed.

Lemma ends_with_app suffix l : ends_with suffix (l ++ suffix) = true.
Proof.
  unfold ends_with. apply bool_decide_eq_true. rewrite length_app.
  replace (length l + length suffix - length suffix)%nat with (length l) by lia.
  apply drop_app_length.
Qed.

(** ** Effects of the system calls on the invariant *)

Section effects.
Context (durable : bool) (blocks : list Block) (names : gset (list byte)).
Implicit Types (d : Disk) (h : list byte) (i : nat).

(** Writing to the file of a temporary name. *)
Lemma inv_touch d h i m :
  length h = 32%nat → dir d !! temp_path h = Some i →
  (∀ j, j ≠ i → m !! j = inodes d !! j) → is_Some (m !! i) →
  disk_inv durable blocks names d → session d →
  disk_inv durable blocks names (set_inodes m d) ∧ session (set_inodes m d).
Proof.
  intros Hh Hi Hm Hmi [Hb Hd Hk Hr] Hse. split; [|destruct Hse; by split].
  split; simpl; [| |done|done].
  - intros v h' j Hv Hh' Hj. destruct (Hb v h' j Hv Hh' Hj) as (b&Hjb&?).
    exists b. rewrite Hm; [done|]. intros ->. by eapply (se_temp _ Hse h i v h').
  - intros v n j Hv Hj. destruct (decide (j = i)) as [->|Hne]; [done|].
    rewrite Hm by done. by eapply Hd.
Qed.

Lemma inv_open d h i d' :
  length h = 32%nat → disk_inv durable blocks names d → session d →
  open_truncate (temp_path h) d = (Ok i, d') →
  (disk_inv durable blocks names d' ∧ session d') ∧ dir d' !! temp_path h = Some i.
Proof.
  intros Hh Hinv Hse. unfold open_truncate. rewrite decide_False by apply Hse.
  destruct (dir d !! temp_path h) as [i'|] eqn:Hi.
  { intros [= <- <-]. split; [|done]. apply (inv_touch d h i'); try done.
    - intros j Hj. by rewrite lookup_insert_ne.
    - by rewrite lookup_insert_eq. }
  pose proof (is_fresh (dom (inodes d))) as Hfresh. revert Hfresh.
  generalize (fresh (dom (inodes d))). intros k Hk [= <- <-]. apply not_elem_of_dom in Hk.
  simpl. split; [|by rewrite lookup_insert_eq].
  assert (∀ v n j, v ∈ dir d :: past d → v !! n = Some j → j ≠ k) as Hold.
  { intros v n j Hv Hj ->. destruct (di_dom _ _ _ _ Hinv v n k Hv Hj). congruence. }
  assert (∀ h' , length h' = 32%nat →
    <[temp_path h := k]> (dir d) !! block_path h' = dir d !! block_path h') as Hne.
  { intros h' Hh'. by rewrite lookup_insert_ne by (by apply temp_path_ne_block). }
  destruct Hinv as [Hb Hd Hkept Hr]. split; split; simpl; [| | |exact Hr|exact (se_root _ Hse)| |].
  - intros v h' j Hv Hh' Hj. assert (∃ v', v' ∈ dir d :: past d ∧ v' !! block_path h' = Some j) as (v'&Hv'&Hj').
    { apply elem_of_cons in Hv as [->|Hv]; [|by eexists]. rewrite Hne in Hj by done.
      eexists. split; [by left|done]. }
    rewrite lookup_insert_ne; [by eapply Hb|]. intros ->. by eapply Hold.
  - intros v n j Hv Hj. destruct (decide (j = k)) as [->|Hjk]; [by rewrite lookup_insert_eq|].
    rewrite lookup_insert_ne by done. apply elem_of_cons in Hv as [->|Hv]; [|by eapply Hd].
    apply lookup_insert_Some in Hj as [[_ ?]|[_ Hj]]; [done|]. eapply Hd; [by left|done].
  - intros h' v Hn Hh' Hv. apply elem_of_cons in Hv as [->|Hv]; [|by apply Hkept].
    rewrite Hne by done. apply Hkept; [done..|by left].
  - intros h1 j v h' Hh1 Hj Hv Hh' Hjb. assert (∃ v', v' ∈ dir d :: past d ∧ v' !! block_path h' = Some j) as (v'&Hv'&Hj').
    { apply elem_of_cons in Hv as [->|Hv]; [|by eexists]. rewrite Hne in Hjb by done.
      eexists. split; [by left|done]. }
    apply lookup_insert_Some in Hj as [[_ <-]|[_ Hj]]; [by eapply Hold|].
    by eapply (se_temp _ Hse h1 j v' h').
  - intros h1 h2 j Hh1 Hh2 H1 H2.
    apply lookup_insert_Some in H1 as [[H1 <-]|[Hn1 H1]], H2 as [[H2 Hjj]|[Hn2 H2]].
    + apply (inj temp_path) in H1, H2. congruence.
    + exfalso. eapply (Hold (dir d)); [by left|exact H2|done].
    + exfalso. eapply (Hold (dir d)); [by left|exact H1|done].
    + by eapply (se_inj _ Hse h1 h2 j).
Qed.

Lemma inv_rename d b i :
  length (block_hash b) = 32%nat → b ∈ blocks →
  dir d !! temp_path (block_hash b) = Some i →
  inodes d !! i = Some {| data := serialize_block b; synced := true |} →
  disk_inv durable blocks names d → session d →
  ∃ d', rename (temp_path (block_hash b)) (block_path (block_hash b)) d = (Ok (), d') ∧
    (disk_inv durable blocks names d' ∧ session d') ∧ is_Some (dir d' !! block_path (block_hash b)).
Proof.
  intros Hh Hb Hi Hf [Hbl Hd Hk Hr] [Hroot Ht Hinj]. unfold rename. rewrite Hi.
  set (h := block_hash b) in *.
  destruct (decide _) as [Heq|_]; [by destruct (Ht h i (dir d) h Hh Hi ltac:(by left) Hh)|].
  assert (∀ h', length h' = 32%nat → h' ≠ h →
    (<[block_path h := i]> (delete (temp_path h) (dir d))) !! block_path h' = dir d !! block_path h') as Hne.
  { intros h' Hh' Hn. rewrite lookup_insert_ne by (intros ?%(inj block_path); congruence).
    by rewrite lookup_delete_ne by (by apply temp_path_ne_block). }
  assert (∀ n j, (<[block_path h := i]> (delete (temp_path h) (dir d))) !! n = Some j →
    j = i ∨ dir d !! n = Some j) as Hsub.
  { intros n j [[_ <-]|[_ [_ Hj]%lookup_delete_Some]]%lookup_insert_Some; [by left|by right]. }
  assert (∀ h' j, (<[block_path h := i]> (delete (temp_path h) (dir d))) !! temp_path h' = Some j →
    length h' = 32%nat → dir d !! temp_path h' = Some j ∧ h' ≠ h) as Htmp.
  { intros h' j Hj Hh'. rewrite lookup_insert_ne in Hj by (by apply not_eq_sym, temp_path_ne_block).
    apply lookup_delete_Some in Hj as [Hn Hj]. split; [done|]. by intros ->. }
  eexists. split; [reflexivity|]. simpl. rewrite lookup_insert_eq. split; [|by eexists].
  split; split; simpl; [| | |exact Hr|exact Hroot| |].
  - intros v h' j Hv Hh' Hj. apply elem_of_cons in Hv as [->|Hv]; [|by eapply Hbl].
    destruct (decide (h' = h)) as [->|Hn].
    + rewrite lookup_insert_eq in Hj. injection Hj as <-. by exists b.
    + rewrite Hne in Hj by done. eapply Hbl; [by left|done|done].
  - intros v n j Hv Hj. apply elem_of_cons in Hv as [->|Hv]; [|by eapply Hd].
    apply Hsub in Hj as [->|Hj]; [by eexists|]. eapply Hd; [by left|done].
  - intros h' v Hin Hh' Hv. apply elem_of_cons in Hv as [->|Hv]; [|by apply Hk].
    destruct (decide (h' = h)) as [->|Hn]; [rewrite lookup_insert_eq; by eexists|].
    rewrite Hne by done. apply Hk; [done..|by left].
  - intros h1 j v h' Hh1 Hj Hv Hh' Hjb. apply Htmp in Hj as [Hj Hn]; [|done].
    apply elem_of_cons in Hv as [->|Hv]; [|by eapply (Ht h1 j v h')].
    destruct (decide (h' = h)) as [->|Hn'].
    + rewrite lookup_insert_eq in Hjb. injection Hjb as <-. by apply Hn, (Hinj h1 h i).
    + rewrite Hne in Hjb by done. eapply (Ht h1 j (dir d) h'); [done|done|by left|done|done].
  - intros h1 h2 j Hh1 Hh2 [H1 _]%Htmp [H2 _]%Htmp; [|done..]. by eapply (Hinj h1 h2 j).
Qed.

Lemma inv_remove d name :
  (∀ h, length h = 32%nat → name ≠ block_path h) →
  disk_inv durable blocks names d → disk_inv durable blocks names (set_dir (delete name (dir d)) d).
Proof.
  intros Hname [Hb Hd Hk Hr]. split; simpl; [| | |exact Hr].
  - intros v h i Hv Hh Hi. apply elem_of_cons in Hv as [->|Hv]; [|by eapply Hb].
    rewrite lookup_delete_ne in Hi by (by apply Hname). eapply Hb; [by left|done|done].
  - intros v n i Hv Hi. apply elem_of_cons in Hv as [->|Hv]; [|by eapply Hd].
    apply lookup_delete_Some in Hi as [_ Hi]. eapply Hd; [by left|done].
  - intros h v Hin Hh Hv. apply elem_of_cons in Hv as [->|Hv]; [|by apply Hk].
    rewrite lookup_delete_ne by (by apply Hname). apply Hk; [done..|by left].
Qed.

Lemma inv_sync_directory d :
  disk_inv durable blocks names d → session d →
  disk_inv durable blocks names (sync_directory d).2 ∧ session (sync_directory d).2.
Proof.
  assert (∀ v, v ∈ [dir d] → v ∈ dir d :: past d) as Hsub
    by (intros v ->%list_elem_of_singleton; by left).
  intros [Hb Hd Hk Hr] [Hroot Ht Hinj]. split; split; simpl; [| | |exact Hr|exact Hroot| |].
  - intros v h i Hv%Hsub. by apply Hb.
  - intros v n i Hv%Hsub. by apply Hd.
  - intros h v Hin Hh Hv%Hsub. by apply Hk.
  - intros h i v h' Hh Hi Hv%Hsub. by apply (Ht h i v h').
  - done.
Qed.

Lemma inv_create d :
  disk_inv durable blocks names d →
  disk_inv durable blocks names (create_dir_all d).2 ∧ root (create_dir_all d).2 ≠ Absent.
Proof.
  intros [Hb Hd Hk [Hr Hs]]. unfold create_dir_all. simpl. case_decide as Habsent; [|by split].
  split; [|done]. split; simpl.
  - intros v h i ->%list_elem_of_singleton _. by rewrite lookup_empty.
  - intros v n i ->%list_elem_of_singleton. by rewrite lookup_empty.
  - intros h v Hin. rewrite Hr in Hin by done. by apply not_elem_of_empty in Hin.
  - split; [done|]. intros Hdur%Hs. congruence.
Qed.

Lemma inv_crash d d' :
  disk_inv durable blocks names d → crash d d' →
  disk_inv durable blocks (if decide (root d' = Absent) then ∅ else names) d'.
Proof.
  intros [Hb Hd Hk [Hr Hs]] [Hroot Hgone Hn Hf Hp].
  assert (durable = true → root d' = Durable) as Hdur.
  { intros Hdur. specialize (Hs Hdur). rewrite Hs in Hroot. exact Hroot. }
  case_decide as Habsent.
  { specialize (Hgone Habsent). split; rewrite ?Hp, ?Hgone; [..|done].
    - intros v h i ->%list_elem_of_singleton _. by rewrite lookup_empty.
    - intros v n i ->%list_elem_of_singleton. by rewrite lookup_empty.
    - intros h v Hin. by apply not_elem_of_empty in Hin. }
  specialize (Hn Habsent). split; rewrite ?Hp; [| | |by split].
  - intros v h i ->%list_elem_of_singleton Hh Hi. destruct (Hn (block_path h)) as (v&Hv&Heq).
    rewrite Heq in Hi. destruct (Hb v h i Hv Hh Hi) as (b&Hi'&?). exists b. split; [|done].
    destruct (Hf _ _ Hi') as (f'&Hf'&Hsync). by rewrite Hf', Hsync.
  - intros v n i ->%list_elem_of_singleton Hi. destruct (Hn n) as (v&Hv&Heq).
    rewrite Heq in Hi. destruct (Hd v n i Hv Hi) as [f Hi']. by destruct (Hf _ _ Hi') as (f'&?&_).
  - intros h v Hin Hh ->%list_elem_of_singleton. destruct (Hn (block_path h)) as (v&Hv&->).
    by apply Hk.
Qed.
End effects.

Lemma disk_inv_more durable blocks names d b :
  disk_inv durable blocks names d → disk_inv durable (b :: blocks) names d.
Proof.
  intros [Hb Hd Hk Hr]. split; [|done..]. intros v h i Hv Hh Hi.
  destruct (Hb v h i Hv Hh Hi) as (b'&?&?&?). exists b'. split_and!; try done. by right.
Qed.

(** A put that has synchronized the directory keeps its name. *)
Lemma disk_inv_keep durable blocks names d h :
  disk_inv durable blocks names d → root d ≠ Absent → past d = [] → is_Some (dir d !! block_path h) →
  disk_inv durable blocks ({[h]} ∪ names) d.
Proof.
  intros [Hb Hd Hk [_ Hr]] Hroot Hp Hh. split; [done..| |by split]. intros h' v Hin Hh' Hv.
  apply elem_of_union in Hin as [->%elem_of_singleton|Hin]; [|by apply Hk].
  rewrite Hp in Hv. by apply list_elem_of_singleton in Hv as ->.
Qed.

(** ** Triples of the system calls *)

(** A property of the disk, whatever faults are to come. *)
Definition on (P : Disk → Prop) (m : Disk * list Fault) : Prop := P m.1.

Lemma syscall_triple {A} context partial (effect : Effect A) (P R : Disk → Prop) (Q : A → Disk → Prop) :
  (∀ d, P d → match effect d with (Ok a, d') => Q a d' | (_, d') => R d' end) →
  (∀ d n, P d → R (partial n d)) →
  triple (on P) (syscall context partial effect) (λ a, on (Q a)) (on R).
Proof.
  intros He Hp [d fs] Hd. unfold on in *. simpl in *. specialize (He d Hd). specialize (Hp d).
  destruct fs as [|[|message n|n] fs]; simpl; [| |by apply Hp..];
    destruct (effect d) as [[a|e|] d']; exact He.
Qed.

(** A call whose every result, partial ones included, stays in [I]. *)
Lemma atomic_triple {A} context (effect : Effect A) (I P : Disk → Prop) (Q : A → Disk → Prop) :
  (∀ d, I d → P d → I (effect d).2 ∧ ∀ a, (effect d).1 = Ok a → Q a (effect d).2) →
  triple (on (λ d, I d ∧ P d)) (atomic_syscall context effect) (λ a, on (λ d, I d ∧ Q a d)) (on I).
Proof.
  intros He. apply syscall_triple.
  - intros d [HI HP]. destruct (He d HI HP) as [HI' HQ].
    destruct (effect d) as [[a|e|] d']; simpl in *; [|done..]. split; [done|by apply HQ].
  - intros d n [HI HP]. case_decide; [done|]. by apply He.
Qed.

Lemma sync_dir_triple durable blocks names (P : Disk → Prop) :
  (∀ d, P d → P (sync_directory d).2) →
  let I d := disk_inv durable blocks names d ∧ session d in
  triple (on (λ d, I d ∧ P d)) sync_dir (λ _, on (λ d, I d ∧ P d ∧ past d = [])) (on I).
Proof.
  intros HP I. unfold sync_dir. eapply triple_sbind with (Q' := λ _, on (λ d, I d ∧ P d)).
  - apply atomic_triple. intros d HI Hd. by split.
  - intros _. apply atomic_triple. intros d [HI HS] Hd. split; [by apply inv_sync_directory|].
    intros _ _. split; [by apply HP|done].
Qed.

(** *** The steps of [put_block] *)

Section put.
Context (durable : bool) (blocks : list Block) (names : gset (list byte)) (b : Block).
Context (Hh : length (block_hash b) = 32%nat).
#[local] Abbreviation h := (block_hash b).

Let I (d : Disk) : Prop := disk_inv durable (b :: blocks) names d ∧ session d.
(** The temporary name is the file [i], with this content. *)
Let temp_is (i : nat) (f : File) (d : Disk) : Prop :=
  dir d !! temp_path h = Some i ∧ inodes d !! i = Some f.

Lemma open_triple :
  triple (on I) (atomic_syscall "open temp block file" (open_truncate (temp_path h)))
    (λ i, on (λ d, I d ∧ dir d !! temp_path h = Some i)) (on I).
Proof.
  eapply triple_conseq; [| |apply (atomic_triple _ _ I (λ _, True)
      (λ i d, dir d !! temp_path h = Some i))]; [done|done|].
  intros d [HI HS] _. destruct (open_truncate (temp_path h) d) as [r d'] eqn:Ho.
  assert (∃ i, r = Ok i) as [i ->].
  { unfold open_truncate in Ho. rewrite decide_False in Ho by apply HS. destruct (dir d !! temp_path h); injection Ho as <- _; by eexists. }
  destruct (inv_open _ _ _ _ _ _ _ Hh HI HS Ho) as [HI' Hi]. split; [done|]. by intros a [= <-].
Qed.

Lemma write_triple i :
  triple (on (λ d, I d ∧ dir d !! temp_path h = Some i)) (write_all i (serialize_block b))
    (λ _, on (λ d, I d ∧ temp_is i {| data := serialize_block b; synced := false |} d)) (on I).
Proof.
  assert (∀ bytes d, I d → dir d !! temp_path h = Some i → I (store_data i bytes d)) as Hw.
  { intros bytes d [HI HS] Hi. eapply inv_touch; [exact Hh|exact Hi| | |exact HI|exact HS].
    - intros j Hj. by rewrite lookup_insert_ne.
    - by rewrite lookup_insert_eq. }
  apply syscall_triple; [|by intros d n [? ?]; apply Hw].
  intros d [HI Hi]. split; [by apply Hw|]. split; [done|]. simpl. by rewrite lookup_insert_eq.
Qed.

Lemma sync_file_triple i :
  triple (on (λ d, I d ∧ temp_is i {| data := serialize_block b; synced := false |} d))
    (atomic_syscall "sync temp block file" (sync_file i))
    (λ _, on (λ d, I d ∧ temp_is i {| data := serialize_block b; synced := true |} d)) (on I).
Proof.
  apply atomic_triple. intros d [HI HS] [Hi Hf]. simpl. split.
  - eapply inv_touch; [exact Hh|exact Hi| | |exact HI|exact HS].
    + intros j Hj. by rewrite lookup_alter_ne.
    + rewrite lookup_alter_eq, Hf. by eexists.
  - intros _ _. split; [done|]. simpl. by rewrite lookup_alter_eq, Hf.
Qed.

Lemma rename_triple i :
  triple (on (λ d, I d ∧ temp_is i {| data := serialize_block b; synced := true |} d))
    (atomic_syscall "rename temp block file" (rename (temp_path h) (block_path h)))
    (λ _, on (λ d, I d ∧ is_Some (dir d !! block_path h))) (on I).
Proof.
  apply atomic_triple. intros d [HI HS] [Hi Hf].
  destruct (inv_rename durable (b :: blocks) names d b i) as (d'&->&HI'&Hs); try done.
  by left.
Qed.

Lemma put_block_triple :
  triple (on I) (file_put_block b)
    (λ _, on (λ d, disk_inv durable (b :: blocks) ({[h]} ∪ names) d ∧ session d)) (on I).
Proof.
  eapply triple_sbind; [apply open_triple|]. intros i.
  eapply triple_sbind; [apply write_triple|]. intros [].
  eapply triple_sbind; [apply sync_file_triple|]. intros [].
  eapply triple_sbind; [apply rename_triple|]. intros [].
  pose proof (sync_dir_triple durable (b :: blocks) names (λ d, is_Some (dir d !! block_path h))
    (λ _ H, H)) as Hsync.
  intros m Hm. specialize (Hsync m Hm). destruct (sync_dir m) as [[[]|e|] m']; [|done..].
  destruct Hsync as ([HI HS]&Hp&Hpast). split; [by apply disk_inv_keep; [|apply HS|..]|done].
Qed.
End put.

(** *** Opening a store *)

Section opening.
Context (durable : bool) (blocks : list Block) (names : gset (list byte)).
Let inv : Disk → Prop := λ d, disk_inv durable blocks names d ∧ root d ≠ Absent.

(** The temporary names of the directory are among those still to be visited. *)
Let left_over (l : list Name) (d : Disk) : Prop :=
  ∀ h, length h = 32%nat → is_Some (dir d !! temp_path h) → temp_path h ∈ l.

Lemma remove_left_over name l d :
  left_over (name :: l) d → left_over l (remove_file name d).2.
Proof.
  intros Hl h Hh Hs. unfold remove_file in Hs. destruct (dir d !! name) as [i|] eqn:Hi; simpl in Hs.
  - apply lookup_delete_is_Some in Hs as [Hn Hs].
    destruct (proj1 (elem_of_cons _ _ _) (Hl h Hh Hs)) as [Heq|?]; [|done]. by destruct Hn.
  - destruct (proj1 (elem_of_cons _ _ _) (Hl h Hh Hs)) as [Heq|?]; [|done].
    rewrite Heq, Hi in Hs. by destruct Hs.
Qed.

Lemma remove_inv name d :
  (∀ h, length h = 32%nat → name ≠ block_path h) → inv d → inv (remove_file name d).2.
Proof.
  intros Hn [Hd Hr]. unfold remove_file. destruct (dir d !! name); [|done].
  split; [by apply inv_remove|done].
Qed.

Lemma visit_other name l d :
  ends_with (str ".tmp") name = false ∨ utf8_valid name = false →
  left_over (name :: l) d → left_over l d.
Proof.
  intros Hn Hl h Hh Hs. destruct (proj1 (elem_of_cons _ _ _) (Hl h Hh Hs)) as [<-|?]; [|done].
  exfalso. destruct Hn as [Hn|Hn].
  - unfold temp_path in Hn. by rewrite ends_with_app in Hn.
  - by rewrite temp_path_utf8 in Hn.
Qed.

Lemma remove_triple context name l :
  (∀ h, length h = 32%nat → name ≠ block_path h) →
  triple (on (λ d, inv d ∧ left_over (name :: l) d)) (atomic_syscall context (remove_file name))
    (λ _, on (λ d, inv d ∧ left_over l d)) (on inv).
Proof.
  intros Hn. apply atomic_triple. intros d Hd Hl. split; [by apply remove_inv|].
  intros _ _. by apply remove_left_over.
Qed.

Lemma ignore_remove_triple context name l :
  utf8_valid name = false →
  triple (on (λ d, inv d ∧ left_over (name :: l) d))
    (ignore_error (atomic_syscall context (remove_file name)))
    (λ _, on (λ d, inv d ∧ left_over l d)) (on inv).
Proof.
  intros Hn [d fs] [Hd Hl]. simpl in Hd, Hl.
  assert (∀ h, length h = 32%nat → name ≠ block_path h) as Hne.
  { intros h Hh ->. rewrite utf8_valid_ascii in Hn; [done|].
    eapply Forall_impl; [apply encode_hex_digits|]. by intros c [? _]%hex_digit. }
  pose proof (remove_inv name d Hne Hd) as Hd'. pose proof (remove_left_over name l d Hl) as Hl'.
  pose proof (visit_other name l d (or_intror Hn) Hl) as Hlo.
  unfold ignore_error, atomic_syscall, syscall, on.
  destruct fs as [|[|message n|n] fs]; simpl; try case_decide;
    destruct (remove_file name d) as [[[]|e|] d']; simpl in *; try done.
Qed.

Lemma cleanup_entry_triple name l :
  triple (on (λ d, inv d ∧ left_over (name :: l) d)) (cleanup_entry name)
    (λ _, on (λ d, inv d ∧ left_over l d)) (on inv).
Proof.
  unfold cleanup_entry.
  eapply triple_sbind with (Q' := λ _, on (λ d, inv d ∧ left_over (name :: l) d)).
  { by apply atomic_triple. }
  intros _. destruct (utf8_valid name) eqn:Hu; simpl; [|by apply ignore_remove_triple].
  destruct (ends_with (str ".tmp") name) eqn:He.
  { apply remove_triple. intros h Hh ->. by rewrite block_path_not_temp in He. }
  destruct (is_valid_block_filename name) eqn:Hv; simpl.
  - apply triple_sret. intros m [Hd Hl]. split; [done|]. eapply visit_other; [by left|done].
  - apply remove_triple. intros h Hh ->. by rewrite block_path_valid in Hv.
Qed.

Lemma cleanup_triple :
  triple (on inv) cleanup_temp_files (λ _, on (λ d, disk_inv durable blocks names d ∧ session d)) (on inv).
Proof.
  unfold cleanup_temp_files. eapply triple_sbind with (Q' := λ l, on (λ d, inv d ∧ left_over l d)).
  { eapply triple_conseq; [| |apply (atomic_triple _ _ inv (λ _, True) (λ l d, left_over l d))]; [done..|].
    intros d [Hd Hroot] _. split; [done|]. unfold read_names. simpl. rewrite decide_False by done.
    intros l [= <-] h Hh [i Hi].
    apply list_elem_of_fmap. exists (temp_path h, i). by rewrite elem_of_hm_iter. }
  intros l. eapply triple_conseq; [done| |apply (triple_sfor (λ l, on (λ d, inv d ∧ left_over l d)))].
  - intros _ m [[Hd Hroot] Hl]. split; [done|].
    assert (∀ h, length h = 32%nat → dir m.1 !! temp_path h = None) as Hnone.
    { intros h Hh. apply eq_None_not_Some. intros Hs. by apply (not_elem_of_nil (temp_path h)), Hl. }
    split; [done|..].
    + intros h i v h' Hh Hi. by rewrite Hnone in Hi.
    + intros h1 h2 i Hh1 Hh2 Hi. by rewrite Hnone in Hi.
  - apply cleanup_entry_triple.
Qed.

Lemma file_store_new_triple :
  triple (on (disk_inv durable blocks names)) file_store_new
    (λ _, on (λ d, disk_inv durable blocks names d ∧ session d)) (on (disk_inv durable blocks names)).
Proof.
  unfold file_store_new. eapply triple_sbind with (Q' := λ _, on inv).
  - apply syscall_triple.
    + intros d Hd. destruct (inv_create _ _ _ _ Hd) as [??]. by split.
    + intros d n Hd. case_decide; [done|]. by apply inv_create.
  - intros _ m Hm. specialize (cleanup_triple m Hm). destruct (cleanup_temp_files m) as [[] m'];
      [done|by intros [? _]..].
Qed.
End opening.

(** *** Reading *)

(** What a read may answer: a block that was put, or nothing for a hash that is not kept (or
    when the first call, [is_file], fails); otherwise a call failed or the process died. *)
Definition read_result (blocks : list Block) (names : gset (list byte)) (h : list byte)
    (faults : list Fault) (r : Result StoreError (option Block)) : Prop :=
  match r with
  | Ok (Some b) => block_hash b = h ∧ b ∈ blocks
  | Ok None => h ∉ names ∨ ∃ message n, head faults = Some (Fails message n)
  | Err e => ∃ message n, e = Io "read block file" message ∧ Fails message n ∈ faults
  | Panic => ∃ n, Dies n ∈ faults
  end.

(** Reading changes nothing. *)
Lemma get_block_pure h d fs r m : file_get_block h (d, fs) = (r, m) → m.1 = d.
Proof.
  assert (triple (λ m, m.1 = d) (file_get_block h) (λ _ m, m.1 = d) (λ m, m.1 = d)) as Ht.
  { assert (∀ A context (effect : Effect A), (∀ d, (effect d).2 = d) →
      triple (λ m, m.1 = d) (atomic_syscall context effect) (λ _ m, m.1 = d) (λ m, m.1 = d)) as Hcall.
    { intros A context effect He. apply syscall_triple with (P := λ d', d' = d) (R := λ d', d' = d)
        (Q := λ _ d', d' = d).
      - intros d' Hd'; rewrite Hd'. specialize (He d). by destruct (effect d) as [[]].
      - intros d' n Hd'; rewrite Hd'. by case_decide. }
    unfold file_get_block, read_block_file.
    eapply triple_sbind with (Q' := λ _ m, m.1 = d).
    { intros [d' fs'] Hd. unfold is_file. simpl in Hd. destruct fs' as [|[]]; by simpl. }
    intros here. destruct here; [simpl|by apply triple_sret].
    eapply triple_sbind with (Q' := λ _ m, m.1 = d); [by apply Hcall|]. intros _.
    eapply triple_sbind with (Q' := λ _ m, m.1 = d).
    { apply Hcall. intros d'. unfold read_to_end. by destruct (_ ≫= _). }
    intros bytes. eapply triple_sbind with (Q' := λ _ m, m.1 = d).
    { intros m' Hm'. unfold slift. by destruct (map_err _ _). }
    intros b m' Hm'. by case_decide. }
  intros Hr. specialize (Ht (d, fs) eq_refl). rewrite Hr in Ht. by destruct r.
Qed.

Lemma atomic_read {A} context (effect : Effect A) d fs :
  (effect d).2 = d →
  (∃ fs', fs' ⊆ fs ∧ atomic_syscall context effect (d, fs) =
     (map_err (Io context) (effect d).1, (d, fs'))) ∨
  (∃ fs' message n, Fails message n ∈ fs ∧
     atomic_syscall context effect (d, fs) = (Err (Io context message), (d, fs'))) ∨
  (∃ fs' n, Dies n ∈ fs ∧ atomic_syscall context effect (d, fs) = (Panic, (d, fs'))).
Proof.
  intros He. unfold atomic_syscall, syscall. rewrite (surjective_pairing (effect d)), He.
  destruct fs as [|[|message n|n] fs]; simpl.
  - left. by exists [].
  - left. exists fs. split; [|done]. intros f Hf. by right.
  - right; left. exists fs, message, n. split; [by left|]. by case_decide.
  - right; right. exists fs, n. split; [by left|]. by case_decide.
Qed.

Lemma read_block_file_spec durable blocks names h d fs r m :
  disk_inv durable blocks names d → length h = 32%nat → is_Some (dir d !! block_path h) →
  (∀ b, b ∈ blocks → block_hash b = h → storable b) →
  read_block_file h (d, fs) = (r, m) → r ≠ Ok None ∧ read_result blocks names h fs r.
Proof.
  intros Hinv Hh [i Hi] Hstored. destruct (di_block _ _ _ _ Hinv (dir d) h i ltac:(by left) Hh Hi)
    as (b&Hf&Hb&Hin). pose proof (proj1 (storable_decodes b) (Hstored b Hin Hb)) as Hst.
  unfold read_block_file, sbind.
  destruct (atomic_read "read block file" no_effect d fs eq_refl)
    as [(fs1&Hs1&->)|[(fs1&msg&n&Hin1&->)|(fs1&n&Hin1&->)]]; cbn [no_effect fst snd map_err];
    [|intros [= <- <-]; split_and!; [done..|by exists msg, n]|intros [= <- <-]; split_and!; [done..|by exists n]].
  assert (read_to_end (block_path h) d = (Ok (serialize_block b), d)) as Hread.
  { unfold read_to_end. by rewrite Hi; simpl; rewrite Hf. }
  destruct (atomic_read "read block file" (read_to_end (block_path h)) d fs1 ltac:(by rewrite Hread))
    as [(fs2&_&->)|[(fs2&msg&n&Hin2&->)|(fs2&n&Hin2&->)]];
    [|intros [= <- <-]; split_and!; [done..|exists msg, n; by auto]
     |intros [= <- <-]; split_and!; [done..|exists n; by auto]].
  rewrite Hread. cbn [fst snd map_err]. unfold slift. rewrite Hst. cbn [map_err]. rewrite Hb.
  rewrite decide_True by done. intros [= <- <-]. by split_and!.
Qed.

Lemma get_block_spec durable blocks names h d fs r m :
  disk_inv durable blocks names d → length h = 32%nat →
  (∀ b, b ∈ blocks → block_hash b = h → storable b) →
  file_get_block h (d, fs) = (r, m) → read_result blocks names h fs r.
Proof.
  intros Hinv Hh Hst. unfold file_get_block.
  assert (∀ here fs', here = bool_decide (is_Some (dir d !! block_path h)) → fs' ⊆ fs →
    (if negb here then sret None else read_block_file h) (d, fs') = (r, m) →
    read_result blocks names h fs r) as Hrest.
  { intros here fs' -> Hfs. case_bool_decide as Hs; simpl.
    - intros Hr. destruct (read_block_file_spec _ _ _ _ _ _ _ _ Hinv Hh Hs Hst Hr) as [? Hres].
      destruct r as [[b|]|e|]; simpl in *; [done|done| |].
      + destruct Hres as (msg&n&?&?). exists msg, n. by auto.
      + destruct Hres as [n ?]. exists n. by auto.
    - intros [= <- <-]. left. intros Hin. apply Hs.
      eapply di_kept; [done|done|done|by left]. }
  unfold sbind, is_file. destruct fs as [|[|msg n|n] fs']; simpl.
  - by apply Hrest.
  - apply Hrest; [done|]. intros f Hf. by right.
  - intros [= <- <-]. right. by exists msg, n.
  - intros [= <- <-]. exists n. by left.
Qed.

(** ** The invariant of a history *)

Definition run_inv (durable : bool) (s : Run) : Prop :=
  disk_inv durable (attempted s) (kept s) (machine s).1 ∧ (opened s = true → session (machine s).1) ∧
  (durable = true → kept s = returned s).

Lemma triple_use {A} (P R : Disk → Prop) (Q : A → Disk → Prop) (m : DM A) s r s' :
  triple (on P) m (λ a, on (Q a)) (on R) → P s.1 → m s = (r, s') →
  (∃ a, r = Ok a ∧ Q a s'.1) ∨ (is_ok r = false ∧ R s'.1).
Proof.
  intros Hm Hs Hr. specialize (Hm s Hs). rewrite Hr in Hm.
  destruct r as [a|e|]; [left; by exists a|by right..].
Qed.

Lemma run_inv_fresh start faults : run_inv (bool_decide (start = Durable)) (fresh_run start faults).
Proof.
  split; [|done]. split; simpl.
  - intros v h i ->%list_elem_of_singleton _. by rewrite lookup_empty.
  - intros v n i ->%list_elem_of_singleton. by rewrite lookup_empty.
  - set_solver.
  - split; [done|]. by intros ?%bool_decide_eq_true.
Qed.

Lemma run_inv_step {laws : CryptoLaws crypto} durable s s' :
  run_step s s' → run_inv durable s → run_inv durable s'.
Proof.
  intros Hstep (Hd&Hse&Hret).
  destruct Hstep as [s r m _ Hr|s b r m Ho Hr|s r m Ho Hr|s hash r m Ho Hh Hr|s d faults Hc];
    unfold run_inv; simpl.
  - destruct (triple_use _ _ _ _ _ _ _ (file_store_new_triple _ _ _) Hd Hr)
      as [(a&->&Hm)|[-> Hm]]; [|by split_and!].
    split; [apply Hm|]. split; [|done]. intros _. apply Hm.
  - destruct (triple_use _ _ _ _ _ _ _ (put_block_triple _ _ _ b (length_block_hash b))
      (conj (disk_inv_more _ _ _ _ b Hd) (Hse Ho)) Hr) as [(a&->&Hm)|[-> Hm]];
      (split; [apply Hm|]); (split; [intros _; apply Hm|]); [|done].
    intros Hdur. simpl. by rewrite Hret.
  - destruct (triple_use _ _ _ _ _ _ _ (sync_dir_triple _ _ _ (λ _, True) (λ _ _, I))
      (conj (conj Hd (Hse Ho)) I) Hr) as [(a&->&Hm&_)|[_ Hm]];
      (split; [apply Hm|]); (split; [intros _; apply Hm|done]).
  - destruct (machine s) as [d fs]. rewrite (get_block_pure _ _ _ _ _ Hr).
    split; [done|]. split; [intros _; by apply Hse|done].
  - split; [by eapply inv_crash|]. split; [done|]. intros Hdur.
    pose proof (crash_root _ _ Hc) as Hroot. rewrite (proj2 (di_root _ _ _ _ Hd) Hdur) in Hroot.
    simpl in Hroot. rewrite decide_False by congruence. by apply Hret.
Qed.

(** ** The store without faults *)

Lemma atomic_run {A} context (effect : Effect A) d a d' :
  effect d = (Ok a, d') → atomic_syscall context effect (d, []) = (Ok a, (d', [])).
Proof. unfold atomic_syscall, syscall. by intros ->. Qed.

Lemma sync_dir_run d :
  root d ≠ Absent → sync_dir (d, []) = (Ok (), ((sync_directory d).2, [])).
Proof.
  intros Hr. assert (open_directory d = (Ok (), d)) as Hopen.
  { unfold open_directory. by rewrite decide_False. }
  unfold sync_dir. by rewrite (sbind_run _ _ _ _ _ (atomic_run _ _ _ _ _ Hopen)).
Qed.

Lemma open_run h d :
  root d ≠ Absent → ∃ i d1, open_truncate (temp_path h) d = (Ok i, d1) ∧ root d1 = root d ∧
    inodes d1 = <[i := {| data := []; synced := false |}]> (inodes d) ∧
    dir d1 = <[temp_path h := i]> (dir d) ∧ (dir d !! temp_path h = Some i ∨ inodes d !! i = None).
Proof.
  intros Hr. unfold open_truncate. rewrite decide_False by done.
  destruct (dir d !! temp_path h) as [j|] eqn:Hj; do 2 eexists.
  - split_and!; [done|done|done| |by left]. simpl. by rewrite insert_id.
  - split_and!; [done|done|done|done|]. right. apply not_elem_of_dom, is_fresh.
Qed.

(** What [put_block] does when no call fails. *)
Lemma put_block_effect b d :
  let h := block_hash b in
  length h = 32%nat → session d → (∀ n i, dir d !! n = Some i → is_Some (inodes d !! i)) →
  ∃ i, file_put_block b (d, []) =
    (Ok (), ({| root := root d;
                inodes := <[i := {| data := serialize_block b; synced := true |}]> (inodes d);
                dir := <[block_path h := i]> (delete (temp_path h) (dir d));
                past := [] |}, [])) ∧
    ∀ h', length h' = 32%nat → dir d !! block_path h' ≠ Some i.
Proof.
  intros h Hh Hse Hdom. destruct (open_run h d (se_root _ Hse)) as (i&d1&Hopen&Hroot&Hino&Hdir&Hi). exists i.
  assert (∀ h', length h' = 32%nat → dir d !! block_path h' ≠ Some i) as Hfree.
  { intros h' Hh' Hb. destruct Hi as [Hi|Hi]; [by eapply (se_temp _ Hse h i (dir d) h'); [..|by left| |]|].
    apply Hdom in Hb as [??]. congruence. }
  split; [|done].
  set (f := {| data := serialize_block b; synced := true |}).
  set (d2 := store_data i (serialize_block b) d1).
  set (d3 := (sync_file i d2).2).
  assert (sync_file i d2 = (Ok (), d3)) as Hsync by done.
  assert (inodes d3 = <[i := f]> (inodes d) ∧ dir d3 = <[temp_path h := i]> (dir d)) as [Hino3 Hdir3].
  { split; [|done]. simpl. by rewrite alter_insert_eq, Hino, !insert_insert_eq. }
  assert (rename (temp_path h) (block_path h) d3 =
    (Ok (), set_dir (<[block_path h := i]> (delete (temp_path h) (dir d3))) d3)) as Hren.
  { unfold rename. rewrite Hdir3, lookup_insert_eq, decide_False; [done|].
    rewrite lookup_insert_ne by (by apply temp_path_ne_block). by apply Hfree. }
  unfold file_put_block. fold h.
  rewrite (sbind_run _ _ _ _ _ (atomic_run _ _ _ _ _ Hopen)).
  assert (write_all i (serialize_block b) (d1, []) = (Ok (), (d2, []))) as Hwrite by done.
  rewrite (sbind_run _ _ _ _ _ Hwrite).
  rewrite (sbind_run _ _ _ _ _ (atomic_run _ _ _ _ _ Hsync)).
  rewrite (sbind_run _ _ _ _ _ (atomic_run _ _ _ _ _ Hren)), sync_dir_run
    by (simpl; rewrite Hroot; apply Hse).
  do 3 f_equal. unfold sync_directory, set_dir. cbn [root snd inodes dir]. rewrite Hino3, Hdir3, <- Hroot.
  by rewrite delete_insert_eq.
Qed.

(** Disks that an open store reaches. *)
Definition disk_ok (d : Disk) : Prop :=
  (∃ blocks names, disk_inv false blocks names d) ∧ session d.

#[global] Instance file_block_store : BlockStore Disk := {
  put_block := λ block d, let '(r, (d, _)) := file_put_block block (d, []) in (r, d);
  get_block := λ d hash, (file_get_block hash (d, [])).1;
  commit := λ d, let '(r, (d, _)) := file_commit (d, []) in (r, d)
}.

Lemma get_block_run d h :
  get_block d h =
  match i ← dir d !! block_path h; inodes d !! i with
  | Some f =>
      match deserialize_block (data f) with
      | Ok b => if decide (block_hash b = h) then Ok (Some b)
                else Err (HashMismatch h (block_hash b))
      | Err e => Err (block_file_error e)
      | Panic => Panic
      end
  | None => if decide (is_Some (dir d !! block_path h))
            then Err (Io "read block file" "No such file or directory") else Ok None
  end.
Proof.
  unfold get_block. simpl. unfold file_get_block, sbind, is_file, read_block_file.
  destruct (dir d !! block_path h) as [i|] eqn:Hi; simpl; [|done].
  unfold sbind, atomic_syscall, syscall, no_effect, read_to_end. simpl. rewrite Hi. simpl.
  destruct (inodes d !! i) as [f|]; simpl; [|done]. unfold slift.
  destruct (deserialize_block (data f)) as [b|e|]; simpl; [|done..].
  by destruct (decide (block_hash b = h)).
Qed.

Lemma put_block_run b d :
  disk_ok d → length (block_hash b) = 32%nat →
  ∃ i d', put_block b d = (Ok (), d') ∧
    inodes d' = <[i := {| data := serialize_block b; synced := true |}]> (inodes d) ∧
    dir d' = <[block_path (block_hash b) := i]> (delete (temp_path (block_hash b)) (dir d)) ∧
    ∀ h', length h' = 32%nat → dir d !! block_path h' ≠ Some i.
Proof.
  intros [(blocks&names&Hinv) Hse] Hh.
  destruct (put_block_effect b d Hh Hse) as (i&Hrun&Hfree).
  { intros n i Hi. eapply (di_dom _ _ _ _ Hinv); [by left|done]. }
  exists i. unfold put_block. simpl. rewrite Hrun. by eexists.
Qed.

Lemma put_block_ok {laws : CryptoLaws crypto} b d r d' :
  disk_ok d → put_block b d = (r, d') → disk_ok d'.
Proof.
  intros [(blocks&names&Hinv) Hse]. unfold put_block. simpl.
  destruct (file_put_block b (d, [])) as [r1 [d1 fs]] eqn:Hr. intros [= -> ->].
  destruct (triple_use _ _ _ _ (d, []) _ _ (put_block_triple _ _ _ b (length_block_hash b))
    (conj (disk_inv_more _ _ _ _ b Hinv) Hse) Hr) as [(a&_&[Hd Hs])|[_ [Hd Hs]]];
    (split; [do 2 eexists; exact Hd|exact Hs]).
Qed.

#[global] Instance file_block_store_laws {laws : CryptoLaws crypto} :
  BlockStoreLaws Disk disk_ok storable.
Proof.
  split.
  - intros b d Hd Hst. destruct (put_block_run b d Hd (length_block_hash b)) as (i&d'&Hr&_).
    exists d'. split; [done|]. by eapply put_block_ok.
  - intros b d d' Hd Hst Hr.
    destruct (put_block_run b d Hd (length_block_hash b)) as (i&d1&Hr1&Hino&Hdir&_).
    rewrite Hr in Hr1. injection Hr1 as <-. rewrite get_block_run, Hdir, lookup_insert_eq. simpl.
    rewrite Hino, lookup_insert_eq. simpl. rewrite (proj1 (storable_decodes b) Hst).
    by rewrite decide_True.
  - intros b d d' h Hd Hst Hr Hh Hne.
    destruct (put_block_run b d Hd (length_block_hash b)) as (i&d1&Hr1&Hino&Hdir&Hfree).
    rewrite Hr in Hr1. injection Hr1 as <-.
    assert (dir d' !! block_path h = dir d !! block_path h) as Heq.
    { rewrite Hdir, lookup_insert_ne by (intros ?%(inj block_path); congruence).
      rewrite lookup_delete_ne; [done|]. apply temp_path_ne_block; [apply length_block_hash|done]. }
    rewrite !get_block_run, Heq. specialize (Hfree h Hh).
    destruct (dir d !! block_path h) as [j|]; [|done]. simpl.
    rewrite Hino, lookup_insert_ne by congruence. done.
  - intros d [(blocks&names&Hinv) Hse]. exists (sync_directory d).2. split_and!.
    + unfold commit. simpl. unfold file_commit. by rewrite sync_dir_run by apply Hse.
    + destruct (inv_sync_directory false blocks names d Hinv Hse). by split; [do 2 eexists|].
    + intros h. by rewrite !get_block_run.
Qed.
End store.

(** ** Properties *)

(** C17 (safety): crash safety.  Take an empty root directory, absent, just created or
    already on the disk ([start]), and any history of openings, puts, commits, reads and power
    failures, in which any call of the system may fail at any point.  Reading changes nothing.
    Let the blocks put under a hash be within the limits of [Block::deserialize] (a larger
    block is written, and then reported as a corrupt file).  A read of the hash answers with a
    block that was put under it, or that there is none; it never reports a corrupt or
    mismatched file; and it finds a block for every hash whose [put_block] returned, however
    often the machine has crashed since, with two exceptions.  An error of its first call,
    [is_file], is taken for absence.  And a root directory that the store itself has created
    may vanish in a power failure with everything in it, because its parent is never
    synchronized ([created_root_loses_everything]): [kept] has the hashes whose put returned
    after the last such loss, which are all ([returned]) when the directory was on the disk
    from the start. *)
Theorem file_store_crash_safe {crypto : CryptoLib} {laws : CryptoLaws crypto} {hex : HexLib}
    {order : HashOrder} (start : Root) (faults : list Fault) (s : Run) (hash : list byte)
    (r : Result StoreError (option Block)) (m : Disk * list Fault) :
  rtc run_step (fresh_run start faults) s → length hash = 32%nat →
  file_get_block hash (machine s) = (r, m) →
  m.1 = (machine s).1 ∧ (start = Durable → kept s = returned s) ∧
  ((∀ b, b ∈ attempted s → block_hash b = hash → storable b) →
   match r with
   | Ok (Some b) => block_hash b = hash ∧ b ∈ attempted s
   | Ok None => hash ∉ kept s ∨ ∃ message n, head (machine s).2 = Some (Fails message n)
   | Err e => ∃ message n, e = Io "read block file" message ∧ Fails message n ∈ (machine s).2
   | Panic => ∃ n, Dies n ∈ (machine s).2
   end).
Proof.
  intros Hrun Hh Hr. assert (run_inv (bool_decide (start = Durable)) s) as (Hinv&_&Hkept).
  { pose proof (run_inv_fresh start faults) as H0. induction Hrun as [|s1 s2 s3 Hs _ IH]; [done|].
    eapply IH; [done|]. by eapply run_inv_step. }
  destruct (machine s) as [d fs]. split; [by eapply get_block_pure|].
  split; [intros Hd; by apply Hkept, bool_decide_eq_true|].
  intros Hst. by eapply get_block_spec.
Qed.

(** C18 (refinement): while no call fails an open store of files, on a disk that only stores
    have written, implements the in-memory store for blocks within the limits of
    [Block::deserialize]: after any sequence of puts of such blocks every hash reads as the
    block put last under it, or as before when there is none. *)
Theorem file_store_refines_memory {crypto : CryptoLib} {laws : CryptoLaws crypto}
    {hex : HexLib} {order : HashOrder} (bs : list Block) (d : Disk) :
  disk_ok d → Forall storable bs →
  ∃ d' memory, sfor bs put_block d = (Ok (), d') ∧
    sfor bs put_block new_memory_store = (Ok (), memory) ∧ disk_ok d' ∧
    ∀ hash, length hash = 32%nat →
      get_block d' hash =
      match get_block memory hash with Ok None => get_block d hash | found => found end.
Proof.
  intros Hd Hbs.
  destruct (puts_shadow bs d d new_memory_store Hd Hbs) as (d'&memory&H1&H2&H3&H4).
  { intros hash _. unfold shadowed, new_memory_store. by rewrite lookup_empty. }
  exists d', memory. split_and!; [done..|]. intros hash Hh. rewrite (H4 hash Hh).
  unfold shadowed. simpl. by destruct (memory !! hash).
Qed.
