(* ===== verification/DiskExamples.v ===== *)
(** * The file block store on concrete histories

    A lower-case hexadecimal encoder, a history with a power failure in the middle of a write,
    and the witnesses of the theorems of DiskStore. *)

From stdpp Require Import prelude gmap strings list.
From Stdlib Require Import Strings.Byte.
From S2P Require Import Prelude Bytes Crypto Wire Transaction Merkle Block Store DiskStore.

Local Open Scope Z_scope.

#[local] Existing Instance toy_crypto.
#[local] Existing Instance canonical_order.

(** ** Hexadecimal *)

Definition hex_char (n : Z) : byte := zb (if n <? 10 then 0x30 + n else 0x57 + n).
Definition hex_of (b : byte) : list byte := [hex_char (bz b / 16); hex_char (bz b mod 16)].
Definition unhex (c : byte) : Z := if bz c <? 0x3a then bz c - 0x30 else bz c - 0x57.

Lemma unhex_hex b :
  unhex (hex_char (bz b / 16)) * 16 + unhex (hex_char (bz b mod 16)) = bz b.
Proof. by destruct b. Qed.

Lemma hex_of_digits b :
  Forall (λ c, in_bytes 0x30 0x39 c || in_bytes 0x61 0x66 c = true) (hex_of b).
Proof. destruct b; repeat constructor. Qed.

Lemma hex_of_inj (l1 l2 : list byte) : concat (map hex_of l1) = concat (map hex_of l2) → l1 = l2.
Proof.
  revert l2. induction l1 as [|b1 l1 IH]; intros [|b2 l2]; simpl; try done.
  intros Heq. injection Heq as Hhi Hlo Hrest. rewrite (IH l2 Hrest). f_equal. apply (inj bz).
  by rewrite <- (unhex_hex b1), <- (unhex_hex b2), Hhi, Hlo.
Qed.

#[local] Instance lower_hex : HexLib.
Proof.
  refine {| encode_hex := λ bs, concat (map hex_of bs); encode_hex_inj := hex_of_inj |}.
  - induction bs as [|b bs IH]; simpl; [done|]. lia.
  - induction bs as [|b bs IH]; simpl; [constructor|]. apply (Forall_app_2 _ _ _ (hex_of_digits b) IH).
Defined.

(** ** A history *)

Definition dx_block (nonce : Z) : Block :=
  coinbase_block {| hdr_version := 1; prev_blockhash := replicate 32 x00;
    hdr_merkle_root := replicate 32 x00; hdr_time := 7; hdr_bits := 0x207fffff;
    hdr_nonce := nonce |} 1 50.

Definition do_open (s : Run) : Run :=
  let '(r, m) := file_store_new (machine s) in
  {| machine := m; opened := is_ok r; attempted := attempted s;
     returned := returned s; kept := kept s |}.
Definition do_put (b : Block) (s : Run) : Run :=
  let '(r, m) := file_put_block b (machine s) in
  {| machine := m; opened := survives r; attempted := b :: attempted s;
     returned := if is_ok r then {[block_hash b]} ∪ returned s else returned s;
     kept := if is_ok r then {[block_hash b]} ∪ kept s else kept s |}.
(** The worst that the crash of a directory without pending changes can do to its files; the
    root directory is still there, and on the disk from now on. *)
Definition survivor (r : Root) : Root := match r with Created => Durable | r => r end.
Definition do_crash (faults : list Fault) (s : Run) : Run :=
  let d := (machine s).1 in
  {| machine := ({| root := survivor (root d);
                    inodes := (λ f, if synced f then f else {| data := [xff]; synced := true |})
                      <$> inodes d;
                    dir := if decide (root d = Absent) then ∅ else dir d; past := [] |}, faults);
     opened := false; attempted := attempted s; returned := returned s;
     kept := if decide (survivor (root d) = Absent) then ∅ else kept s |}.
(** The crash that takes the root directory. *)
Definition do_lose (s : Run) : Run :=
  {| machine := ({| root := Absent; inodes := inodes (machine s).1; dir := ∅; past := [] |}, []);
     opened := false; attempted := attempted s; returned := returned s; kept := ∅ |}.

Lemma do_open_step s : opened s = false → run_step s (do_open s).
Proof. unfold do_open. destruct (file_store_new (machine s)) eqn:Hr. intros. by apply run_open. Qed.
Lemma do_put_step b s : opened s = true → run_step s (do_put b s).
Proof. unfold do_put. destruct (file_put_block b (machine s)) eqn:Hr. intros. by apply run_put. Qed.
Lemma do_crash_step faults s : run_step s (do_crash faults s).
Proof.
  apply run_crash. split; [| | | |done].
  - simpl. by destruct (root (machine s).1).
  - simpl. by destruct (root (machine s).1).
  - simpl. intros Hroot name. rewrite decide_False by (intros Heq; by rewrite Heq in Hroot). eexists. split; [by left|done].
  - intros i f Hi. eexists. simpl. rewrite lookup_fmap, Hi. split; [done|]. by intros ->.
Qed.

(** Block 1 is stored.  While block 2 is being written the process dies after three bytes, and
    the power fails; then a store is opened again. *)
Definition dx_faults : list Fault := [Works; Works; Works; Works; Dies 3].
Definition dx_stored : Run := do_put (dx_block 1) (do_open (fresh_run Durable [])).
Definition dx_interrupted : Run := do_put (dx_block 2) (do_open (do_crash dx_faults dx_stored)).
Definition dx_reopened : Run := do_open (do_crash [] dx_interrupted).

Lemma dx_storable n : n = 1 ∨ n = 2 → storable (dx_block n).
Proof. intros [->| ->]; apply storable_decodes; vm_compute; reflexivity. Qed.

Example dx_interrupted_leaves_temporary :
  is_Some (dir (machine dx_interrupted).1 !! temp_path (block_hash (dx_block 2))) ∧
  dir (machine dx_reopened).1 !! temp_path (block_hash (dx_block 2)) = None.
Proof. split; [eexists|]; vm_compute; reflexivity. Qed.

Example dx_interrupted_not_found :
  (file_get_block (block_hash (dx_block 2)) (machine dx_reopened)).1 = Ok None.
Proof. vm_compute. reflexivity. Qed.

(** A failing metadata call makes a stored block look absent, without an error. *)
Example is_file_error_hides_block :
  (file_get_block (block_hash (dx_block 1)) ((machine dx_reopened).1, [])).1 = Ok (Some (dx_block 1)) ∧
  (file_get_block (block_hash (dx_block 1))
     ((machine dx_reopened).1, [Fails "Input/output error" 0])).1 = Ok None.
Proof. split; vm_compute; reflexivity. Qed.

Lemma dx_attempted_storable b :
  b ∈ attempted dx_reopened → block_hash b = block_hash (dx_block 1) → storable b.
Proof.
  change (attempted dx_reopened) with [dx_block 2; dx_block 1].
  intros [->|[->|Hb]%elem_of_cons]%elem_of_cons _; [apply dx_storable; by right|apply dx_storable; by left|].
  by apply not_elem_of_nil in Hb.
Qed.

(** The store creates its root directory, stores a block, and the call returns; the power
    fails, and the directory is gone, because nothing synchronized its parent. *)
Definition dx_created : Run := do_put (dx_block 1) (do_open (fresh_run Absent [])).
Example created_root_loses_everything :
  rtc run_step (fresh_run Absent []) (do_open (do_lose dx_created)) ∧
  (file_put_block (dx_block 1) (machine (do_open (fresh_run Absent [])))).1 = Ok () ∧
  (file_get_block (block_hash (dx_block 1)) (machine (do_open (do_lose dx_created)))).1 = Ok None.
Proof.
  split; [|split; vm_compute; reflexivity].
  eapply rtc_l; [by apply do_open_step|].
  eapply rtc_l; [apply (do_put_step (dx_block 1)); vm_compute; reflexivity|].
  eapply rtc_l; [|apply rtc_once; by apply do_open_step].
  apply (run_crash dx_created). split; [|done|by intros []| |done]; [vm_compute; exact I|].
  intros i f Hf. exists f. by split.
Qed.

Lemma dx_history : rtc run_step (fresh_run Durable []) dx_reopened.
Proof.
  eapply rtc_l; [by apply do_open_step|].
  eapply rtc_l; [apply (do_put_step (dx_block 1)); vm_compute; reflexivity|].
  eapply rtc_l; [apply (do_crash_step dx_faults)|].
  eapply rtc_l; [by apply do_open_step|].
  eapply rtc_l; [apply (do_put_step (dx_block 2)); vm_compute; reflexivity|].
  eapply rtc_l; [apply (do_crash_step [])|].
  apply rtc_once. by apply do_open_step.
Qed.

(** ** Witnesses *)

Lemma file_store_crash_safe_witness :
  rtc run_step (fresh_run Durable []) dx_reopened ∧
  ∃ b, (file_get_block (block_hash (dx_block 1)) (machine dx_reopened)).1 = Ok (Some b) ∧
    block_hash b = block_hash (dx_block 1) ∧ b ∈ attempted dx_reopened.
Proof.
  split; [exact dx_history|].
  assert ((machine dx_reopened).2 = []) as Hf by (vm_compute; reflexivity).
  assert (block_hash (dx_block 1) ∈ returned dx_reopened) as Hk.
  { apply (bool_decide_unpack (block_hash (dx_block 1) ∈ returned dx_reopened)). vm_compute. exact I. }
  destruct (file_get_block (block_hash (dx_block 1)) (machine dx_reopened)) as [r m] eqn:Hr.
  destruct (file_store_crash_safe Durable [] dx_reopened (block_hash (dx_block 1)) r m dx_history
    (length_block_hash _) Hr) as (_&Hkept&H).
  rewrite <- (Hkept eq_refl) in Hk. specialize (H dx_attempted_storable).
  rewrite Hf in H. destruct r as [[b|]|e|].
  - exists b. split; [reflexivity|exact H].
  - destruct H as [H|(msg&n&H)]; [contradiction|discriminate H].
  - destruct H as (msg&n&_&H). destruct (not_elem_of_nil _ H).
  - destruct H as (n&H). destruct (not_elem_of_nil _ H).
Defined.

Lemma empty_disk_ok : disk_ok (empty_disk Created).
Proof.
  split; [exists [], ∅; apply (run_inv_fresh Created [])|].
  split; [done|intros h i v h' _ Hi|intros h1 h2 i _ _ Hi]; discriminate Hi.
Qed.

Lemma file_store_refines_memory_witness :
  disk_ok (empty_disk Created) ∧ Forall storable [dx_block 1; dx_block 2] ∧
  ∃ d', sfor [dx_block 1; dx_block 2] put_block (empty_disk Created) = (Ok (), d') ∧ disk_ok d'.
Proof.
  assert (Forall storable [dx_block 1; dx_block 2]) as Hbs.
  { constructor; [apply dx_storable; left; reflexivity|].
    constructor; [apply dx_storable; right; reflexivity|constructor]. }
  split; [exact empty_disk_ok|]. split; [exact Hbs|].
  destruct (file_store_refines_memory _ _ empty_disk_ok Hbs) as (d'&memory&Hd&_&Hok&_).
  exists d'. split; [exact Hd|exact Hok].
Defined.
