(* ===== verification/Chain.v ===== *)
(** * The block chain (bitrst-core/src/chain.rs): state and operations

    One definition per method of [Chain].  Methods taking [&mut self] are computations of
    the monad [SM Chain ChainError]; the state they leave on an error is the state the code
    leaves.  Heights are [u32] and wrap; a [HashMap] traversal goes through [HashOrder]. *)

From stdpp Require Import prelude gmap strings list sorting.
From Stdlib Require Import Strings.Byte.
From S2P Require Import Prelude Bytes Crypto U256 Pow Difficulty Wire Transaction Merkle Block.
From S2P Require Import Utxo Script Sighash Journal Store.

Local Open Scope Z_scope.

(** The build feature [test-short-period] of the crate. *)
Class BuildFlags := { test_short_period : bool }.

(** ** Cumulative work *)

Record ChainWork := { work_bytes : list byte }.
Definition default_work : ChainWork := {| work_bytes := zero32 |}.

(** [ChainWork::add]: a [u16] carry, dropped at the top in a release build. *)
Fixpoint work_add_loop (left right : list byte) (carry : Z) : list byte :=
  match left, right with
  | l :: ls, r :: rs =>
      let sum := bz l + bz r + carry in
      zb sum :: work_add_loop ls rs (Z.shiftr sum 8)
  | _, _ => []
  end.
Definition work_add (w1 w2 : ChainWork) : ChainWork :=
  {| work_bytes := work_add_loop (work_bytes w1) (work_bytes w2) 0 |}.
Definition work_cmp (w1 w2 : ChainWork) : comparison := cmp_le (work_bytes w1) (work_bytes w2).
Definition work_le (w1 w2 : ChainWork) : bool :=
  match work_cmp w1 w2 with Gt => false | _ => true end.

(** ** Results and errors *)

Inductive ConnectResult :=
| Connected (height : Z) (hash : list byte)
| Orphaned (hash : list byte)
| Reorganized (old_tip new_tip : list byte)
| SideChain (height : Z) (hash : list byte).

Inductive ChainError :=
| InvalidProofOfWork
| MerkleRootMismatch
| InvalidCoinbaseCount (count : Z)
| InvalidTimestamp (block_time median_past network_time : Z)
| UnexpectedBits (height expected actual : Z)
| ErrUtxo (e : UtxoError)
| ErrDifficulty (e : DifficultyError)
| BlockAlreadyKnown
| InvalidGenesis
| BlockTooLarge
| TooManyTransactions
| ScriptTooLarge
| MissingAncestor
| NoActiveTip
| ErrStore (e : StoreError)
| LockPoisoned
| InvalidNetworkTime
| InvalidScript
| ErrSighash (e : SighashError)
| ErrEventCursor (e : ChainEventCursorError)
| ErrDisconnectedBlockRecovery (e : DisconnectedBlockRecoveryError).

(** ** State *)

Record BlockMeta := {
  bm_block : Block;
  bm_height : Z;
  bm_work : ChainWork;
  bm_undo : list TxUndo
}.

Record OrphanEntry := { oe_block : Block; oe_received_at : Z }.

Record Chain := {
  blocks : list Block;
  active_hashes : gset (list byte);
  known : gmap (list byte) BlockMeta;
  total_work : ChainWork;
  utxo : UtxoSet;
  orphans : gmap (list byte) OrphanEntry;
  orphan_receive_seq : Z;
  network_time : Z;
  store : MemoryBlockStore;
  event_journal : ChainEventJournal;
  disconnected_journal : DisconnectedBlockJournal
}.

(** Field updates. *)
Definition set_active (bs : list Block) (hs : gset (list byte)) (w : ChainWork) (u : UtxoSet)
    (c : Chain) : Chain := {|
  blocks := bs; active_hashes := hs; known := known c; total_work := w; utxo := u;
  orphans := orphans c; orphan_receive_seq := orphan_receive_seq c;
  network_time := network_time c; store := store c; event_journal := event_journal c;
  disconnected_journal := disconnected_journal c |}.
Definition set_known (k : gmap (list byte) BlockMeta) (c : Chain) : Chain := {|
  blocks := blocks c; active_hashes := active_hashes c; known := k;
  total_work := total_work c; utxo := utxo c;
  orphans := orphans c; orphan_receive_seq := orphan_receive_seq c;
  network_time := network_time c; store := store c; event_journal := event_journal c;
  disconnected_journal := disconnected_journal c |}.
Definition set_orphans (o : gmap (list byte) OrphanEntry) (seq : Z) (c : Chain) : Chain := {|
  blocks := blocks c; active_hashes := active_hashes c; known := known c;
  total_work := total_work c; utxo := utxo c;
  orphans := o; orphan_receive_seq := seq;
  network_time := network_time c; store := store c; event_journal := event_journal c;
  disconnected_journal := disconnected_journal c |}.
Definition set_time (t : Z) (c : Chain) : Chain := {|
  blocks := blocks c; active_hashes := active_hashes c; known := known c;
  total_work := total_work c; utxo := utxo c;
  orphans := orphans c; orphan_receive_seq := orphan_receive_seq c;
  network_time := t; store := store c; event_journal := event_journal c;
  disconnected_journal := disconnected_journal c |}.
Definition set_store (s : MemoryBlockStore) (c : Chain) : Chain := {|
  blocks := blocks c; active_hashes := active_hashes c; known := known c;
  total_work := total_work c; utxo := utxo c;
  orphans := orphans c; orphan_receive_seq := orphan_receive_seq c;
  network_time := network_time c; store := s; event_journal := event_journal c;
  disconnected_journal := disconnected_journal c |}.
Definition set_journals (j : ChainEventJournal) (d : DisconnectedBlockJournal) (c : Chain)
    : Chain := {|
  blocks := blocks c; active_hashes := active_hashes c; known := known c;
  total_work := total_work c; utxo := utxo c;
  orphans := orphans c; orphan_receive_seq := orphan_receive_seq c;
  network_time := network_time c; store := store c; event_journal := j;
  disconnected_journal := d |}.

Definition set_blocks (bs : list Block) (c : Chain) : Chain :=
  set_active bs (active_hashes c) (total_work c) (utxo c) c.
Definition set_active_hashes (hs : gset (list byte)) (c : Chain) : Chain :=
  set_active (blocks c) hs (total_work c) (utxo c) c.
Definition set_total_work (w : ChainWork) (c : Chain) : Chain :=
  set_active (blocks c) (active_hashes c) w (utxo c) c.
Definition set_utxo (u : UtxoSet) (c : Chain) : Chain :=
  set_active (blocks c) (active_hashes c) (total_work c) u c.

(** Monadic shorthands for the borrowed fields. *)
Abbreviation CM := (SM Chain ChainError).
Definition push_event (event : ChainEvent) : CM Z := λ c,
  let '(seq, j) := journal_push event (event_journal c) in
  (Ok seq, set_journals j (disconnected_journal c) c).

Section chain.
Context {crypto : CryptoLib} {order : HashOrder} {flags : BuildFlags}.

Definition store_put (block : Block) : CM unit := λ c,
  let '(r, s) := put_block block (store c) in
  (map_err ErrStore r, set_store s c).

(** ** Accessors *)

Definition height (c : Chain) : Z := (Z.of_nat (length (blocks c) - 1)) mod 2 ^ 32.
Definition active_block_count (c : Chain) : Z := zlen (blocks c).
Definition tip_hash (c : Chain) : list byte :=
  match last (blocks c) with Some b => block_hash b | None => zero32 end.
Definition active_block_at (c : Chain) (h : Z) : option Block := blocks c !! Z.to_nat h.
Definition has_block_hash (c : Chain) (hash : list byte) : bool :=
  bool_decide (is_Some (known c !! hash)) || bool_decide (is_Some (orphans c !! hash)).
Definition block_by_hash (c : Chain) (hash : list byte) : option Block :=
  match bm_block <$> known c !! hash with
  | Some b => Some b
  | None => oe_block <$> orphans c !! hash
  end.
Definition find_height (c : Chain) (hash : list byte) : option Z := bm_height <$> known c !! hash.
Definition recovery_disconnected_blocks (c : Chain) (since_event_seq : Z)
    : Result DisconnectedBlockRecoveryError (list Block) :=
  blocks_since (disconnected_journal c) since_event_seq.

Definition set_network_time (t : Z) : CM unit :=
  if t =? 0 then sthrow InvalidNetworkTime else smodify (set_time t).

(** [chain.take_events()], with the error conversion of [ChainHandle]. *)
Definition chain_take_events : CM (list ChainEvent) := λ c,
  let '(r, j) := take_events (event_journal c) in
  (map_err ErrEventCursor r, set_journals j (disconnected_journal c) c).

(** ** Validation (read-only) *)

Definition block_work (bits : Z) : Result ChainError ChainWork :=
  let? target := ok_or (from_bits bits) InvalidProofOfWork in
  let? work := ok_or (to_work target) InvalidProofOfWork in
  Ok {| work_bytes := work |}.

Definition validate_block_limits (block : Block) : Result ChainError unit :=
  if MAX_BLOCK_SERIALIZED_SIZE <? block_serialized_size block then Err BlockTooLarge
  else if MAX_TRANSACTIONS_PER_BLOCK <? zlen (transactions block) then Err TooManyTransactions
  else
    rfor (λ tx,
      check? rfor (λ input,
        if MAX_SCRIPT_SIZE <? zlen (script_sig input) then Err ScriptTooLarge else Ok ())
        (tx_inputs tx) ;;
      rfor (λ output,
        if MAX_SCRIPT_SIZE <? zlen (script_pubkey output) then Err ScriptTooLarge else Ok ())
        (tx_outputs tx)) (transactions block).

(** The timestamps of up to [n] ancestors, newest first. *)
Fixpoint ancestor_times (n : nat) (c : Chain) (block_hash : list byte) : list Z :=
  match n with
  | O => []
  | S n' =>
      match known c !! block_hash with
      | None => []
      | Some meta =>
          hdr_time (header (bm_block meta)) ::
          ancestor_times n' c (prev_blockhash (header (bm_block meta)))
      end
  end.

Definition median_past_time_before (c : Chain) (block_hash : list byte) : Z :=
  let times := ancestor_times 11 c block_hash in
  if bool_decide (times = []) then 0
  else (merge_sort Z.le times) !!! (length times / 2)%nat.

Definition expected_bits (c : Chain) (height block_bits : Z) : Result ChainError Z :=
  let interval := difficulty_adjustment_interval test_short_period in
  if height =? 0 then Ok block_bits
  else if negb (height mod interval =? 0) then
    match last (blocks c) with
    | Some tip => Ok (hdr_bits (header tip))
    | None => Err NoActiveTip
    end
  else
    let period_start := u32_saturating_sub height interval in
    let period_end := height in
    if zlen (blocks c) <=? period_start then Ok MAX_COMPACT_BITS
    else
      let? start_block := index_or_panic (blocks c !! Z.to_nat period_start) in
      let? end_block := index_or_panic (blocks c !! Z.to_nat (period_end - 1)) in
      let actual_timespan :=
        u32_saturating_sub (hdr_time (header end_block)) (hdr_time (header start_block)) in
      let prev_bits := hdr_bits (header end_block) in
      map_err ErrDifficulty (adjust_bits prev_bits actual_timespan).

Definition coinbase_count (block : Block) : nat := length (filter is_coinbase (transactions block)).

Definition validate_block_header_for_parent (c : Chain) (block : Block)
    (parent : option Block) (parent_hash : option (list byte)) (height : Z)
    : Result ChainError unit :=
  let? target := ok_or (from_bits (hdr_bits (header block))) InvalidProofOfWork in
  if negb (meets target (block_hash block)) then Err InvalidProofOfWork
  else if negb (header_merkle_root_matches block) then Err MerkleRootMismatch
  else
    let count := coinbase_count block in
    let? first_is_coinbase :=
      if negb (count =? 1)%nat then Ok false
      else let? first := index_or_panic (transactions block !! 0%nat) in Ok (is_coinbase first) in
    if negb first_is_coinbase then Err (InvalidCoinbaseCount (Z.of_nat count))
    else
      check? match parent, parent_hash with
             | Some _, Some parent_hash =>
                 let median_past := median_past_time_before c parent_hash in
                 if valid_block_time (hdr_time (header block)) median_past (network_time c)
                 then Ok ()
                 else Err (InvalidTimestamp (hdr_time (header block)) median_past (network_time c))
             | _, _ => Ok ()
             end ;;
      let? expected := expected_bits c height (hdr_bits (header block)) in
      if negb (hdr_bits (header block) =? expected)
      then Err (UnexpectedBits height expected (hdr_bits (header block)))
      else Ok ().

(** The loop body of [validate_block_transactions_for_utxo]: the view and the set of
    outpoints spent so far in the block. *)
Definition mark_spent (spent : gset OutPoint) (input : TxInput)
    : Result ChainError (gset OutPoint) :=
  let key := input_outpoint input in
  if bool_decide (key ∈ spent)
  then Err (ErrUtxo (DuplicateSpend (previous_output input) (txin_index input)))
  else Ok ({[key]} ∪ spent).

Definition validate_block_tx (st : UtxoSet * gset OutPoint) (tx : Transaction)
    : Result ChainError (UtxoSet * gset OutPoint) :=
  let '(view, spent) := st in
  let? spent := if negb (is_coinbase tx) then rfold mark_spent spent (tx_inputs tx)
                else Ok spent in
  check? map_err ErrUtxo (validate_transaction view tx) ;;
  check? (if negb (is_coinbase tx) then
            let? scripts := map_err ErrUtxo (prev_scripts view tx) in
            verify_inputs ErrSighash InvalidScript tx scripts
          else Ok ()) ;;
  Ok ((apply_transaction view tx).2, spent).

Definition validate_block_transactions_for_utxo (block : Block) (u : UtxoSet)
    : Result ChainError unit :=
  check? rfold validate_block_tx (u, ∅) (transactions block) ;; Ok ().

Definition validate_block_for_parent (c : Chain) (block : Block) (parent : option Block)
    (parent_hash : option (list byte)) (height : Z) : Result ChainError unit :=
  check? validate_block_header_for_parent c block parent parent_hash height ;;
  validate_block_transactions_for_utxo block (utxo c).

(** ** State changes *)

Definition apply_block_transactions (block : Block) : CM (list TxUndo) := λ c,
  let '(undos, u) := apply_transactions (utxo c) (transactions block) in
  (Ok undos, set_utxo u c).

(** [entry.iter().min_by_key(|(_, entry)| entry.received_at)] *)
Definition orphan_older (x y : list byte * OrphanEntry) : bool :=
  oe_received_at x.2 <? oe_received_at y.2.

Definition evict_oldest_orphan : CM unit :=
  let! c := sget in
  match min_by orphan_older (hm_iter (orphans c)) with
  | Some (hash, _) =>
      do! smodify (λ c, set_orphans (delete hash (orphans c)) (orphan_receive_seq c) c) ;;
      do! push_event (OrphanEvicted hash PoolFull) ;;
      sret ()
  | None => sret ()
  end.

Definition insert_orphan (block : Block) : CM unit :=
  let! c := sget in
  do! (if MAX_ORPHAN_BLOCKS <=? Z.of_nat (size (orphans c)) then evict_oldest_orphan
       else sret ()) ;;
  let hash := block_hash block in
  do! smodify (λ c,
    let seq := u64_wrapping_add (orphan_receive_seq c) 1 in
    set_orphans (<[hash := {| oe_block := block; oe_received_at := seq |}]> (orphans c)) seq c) ;;
  let! c := sget in
  do! push_event (OrphanAdded hash (Z.of_nat (size (orphans c)))) ;;
  sret ().

(** The statements shared by [connect_block_inner] and [try_reorg_to_block]: store, index and
    push a block that becomes the tip. *)
Definition push_active_block (block : Block) (meta : BlockMeta) : CM unit :=
  let hash := block_hash block in
  do! store_put block ;;
  do! smodify (λ c, set_known (<[hash := meta]> (known c)) c) ;;
  do! smodify (λ c, set_blocks (blocks c ++ [block]) c) ;;
  smodify (λ c, set_active_hashes ({[hash]} ∪ active_hashes c) c).

Definition disconnect_tip_block : CM unit :=
  let! c := sget in
  let! block := slift (ok_or (last (blocks c)) NoActiveTip) in
  do! smodify (λ c, set_blocks (take (length (blocks c) - 1) (blocks c)) c) ;;
  let hash := block_hash block in
  do! smodify (λ c, set_active_hashes (active_hashes c ∖ {[hash]}) c) ;;
  let! c := sget in
  let h := u32_saturating_add (height c) 1 in
  let! meta := slift (ok_or (known c !! hash) MissingAncestor) in
  do! smodify (λ c, set_utxo (disconnect_undos (utxo c) (bm_undo meta)) c) ;;
  do! smodify (λ c, set_total_work
    (match last (blocks c) with
     | Some b => match known c !! block_hash b with
                 | Some m => bm_work m | None => default_work end
     | None => default_work
     end) c) ;;
  let! seq := push_event (BlockDisconnected h hash) in
  smodify (λ c, set_journals (event_journal c)
    (disconnected_record seq block (disconnected_journal c)) c).

(** [while let Some(tip) = path.last()]: the path grows towards the fork point; it is kept
    oldest first, as it is after [path.reverse()].  [Panic] is running out of fuel. *)
Fixpoint collect_fork_loop (fuel : nat) (c : Chain) (path : list Block) (oldest : Block)
    : Result ChainError (list Block * list byte) :=
  match fuel with
  | O => Panic
  | S fuel' =>
      let parent_hash := prev_blockhash (header oldest) in
      if bool_decide (parent_hash ∈ active_hashes c) then Ok (path, parent_hash)
      else
        let? meta := ok_or (known c !! parent_hash) MissingAncestor in
        collect_fork_loop fuel' c (bm_block meta :: path) (bm_block meta)
  end.
Definition collect_fork_path (c : Chain) (block : Block)
    : Result ChainError (list Block * list byte) :=
  collect_fork_loop (S (size (known c))) c [block] block.

(** [while self.tip_hash() != fork_hash { self.disconnect_tip_block()?; .. }] *)
Fixpoint disconnect_until (fuel : nat) (fork_hash : list byte) (disconnected : Z) : CM Z :=
  match fuel with
  | O => spanic
  | S fuel' =>
      let! c := sget in
      if bool_decide (tip_hash c = fork_hash) then sret disconnected
      else
        do! disconnect_tip_block ;;
        disconnect_until fuel' fork_hash (u32_wrapping_add disconnected 1)
  end.

(** The body of [for block in fork_path]. *)
Definition reconnect_block (block : Block) : CM unit :=
  let! c := sget in
  let h := u32_wrapping_add (height c) 1 in
  let parent := last (blocks c) in
  let parent_hash := prev_blockhash (header block) in
  do! slift (validate_block_for_parent c block parent (Some parent_hash) h) ;;
  let! undo := apply_block_transactions block in
  let! c := sget in
  let parent_work := match known c !! prev_blockhash (header block) with
                     | Some meta => bm_work meta | None => default_work end in
  let! bw := slift (block_work (hdr_bits (header block))) in
  let work := work_add parent_work bw in
  do! push_active_block block
        {| bm_block := block; bm_height := h; bm_work := work; bm_undo := undo |} ;;
  do! push_event (BlockConnected h (block_hash block) (zlen (transactions block))) ;;
  sret ().

Definition try_reorg_to_block (fork_path : list Block) (fork_hash : list byte)
    (new_tip_work : ChainWork) : CM Z :=
  let! c := sget in
  do! slift (ok_or (find_height c fork_hash) MissingAncestor) ;;
  let! disconnected := disconnect_until (S (length (blocks c))) fork_hash 0 in
  do! sfor fork_path reconnect_block ;;
  do! smodify (set_total_work new_tip_work) ;;
  sret disconnected.

Definition reorg_to_block (new_block : Block) (new_tip_work : ChainWork) : CM Z :=
  let! c := sget in
  let! path := slift (collect_fork_path c new_block) in
  let '(fork_path, fork_hash) := path in
  λ c1,
    match try_reorg_to_block fork_path fork_hash new_tip_work c1 with
    | (Err e, c2) =>
        (Err e, set_active (blocks c1) (active_hashes c1) (total_work c1) (utxo c1) c2)
    | outcome => outcome
    end.

(** [connect_block_inner]; [after] is run where the code processes orphans. *)
Definition connect_block_with (after : CM unit) (block : Block) : CM ConnectResult :=
  do! slift (validate_block_limits block) ;;
  let hash := block_hash block in
  let! c := sget in
  if has_block_hash c hash then sthrow BlockAlreadyKnown
  else
    let parent_hash := prev_blockhash (header block) in
    match known c !! parent_hash with
    | None =>
        do! insert_orphan block ;;
        sret (Orphaned hash)
    | Some parent_meta =>
        let h := u32_wrapping_add (bm_height parent_meta) 1 in
        do! slift (validate_block_for_parent c block (Some (bm_block parent_meta))
                     (Some parent_hash) h) ;;
        let! bw := slift (block_work (hdr_bits (header block))) in
        let candidate_work := work_add (bm_work parent_meta) bw in
        let tip := tip_hash c in
        if bool_decide (parent_hash = tip) then
          let! undo := apply_block_transactions block in
          do! push_active_block block
                {| bm_block := block; bm_height := h; bm_work := candidate_work;
                   bm_undo := undo |} ;;
          do! smodify (set_total_work candidate_work) ;;
          do! push_event (BlockConnected h hash (zlen (transactions block))) ;;
          do! after ;;
          sret (Connected h hash)
        else if work_le candidate_work (total_work c) then
          do! smodify (λ c, set_known (<[hash :=
                {| bm_block := block; bm_height := h; bm_work := candidate_work;
                   bm_undo := [] |}]> (known c)) c) ;;
          sret (SideChain h hash)
        else
          let old_tip := tip in
          let! depth := reorg_to_block block candidate_work in
          let! c := sget in
          let new_tip := tip_hash c in
          do! push_event (ChainReorg depth old_tip new_tip) ;;
          do! after ;;
          sret (Reorganized old_tip new_tip)
    end.

(** [enqueue_ready_orphans] returns the queue it extends. *)
Definition enqueue_ready_orphans (queue : list Block) : CM (list Block) := λ c,
  let ready := map fst (filter (λ '(_, entry),
    is_Some (known c !! prev_blockhash (header (oe_block entry)))) (hm_iter (orphans c))) in
  let '(queue, o) := foldl (λ '(queue, o) hash,
    match o !! hash with
    | Some entry => (queue ++ [oe_block entry], delete hash o)
    | None => (queue, o)
    end) (queue, orphans c) ready in
  (Ok queue, set_orphans o (orphan_receive_seq c) c).

(** [while let Some(block) = queue.pop_front()]; [Panic] is running out of fuel. *)
Fixpoint process_queue (fuel : nat) (queue : list Block) : CM unit :=
  match queue with
  | [] => sret ()
  | block :: queue =>
      match fuel with
      | O => spanic
      | S fuel' =>
          do! connect_block_with (sret ()) block ;;
          let! queue := enqueue_ready_orphans queue in
          process_queue fuel' queue
      end
  end.
Definition process_orphans : CM unit :=
  let! c := sget in
  let! queue := enqueue_ready_orphans [] in
  process_queue (size (orphans c)) queue.

Definition connect_block_inner (block : Block) (process_orphans_flag : bool) : CM ConnectResult :=
  connect_block_with (if process_orphans_flag then process_orphans else sret ()) block.

Definition connect_block (block : Block) : CM ConnectResult := connect_block_inner block true.

(** ** Construction *)

Definition with_journal_capacities (genesis : Block) (now : Z) (event_capacity : nat)
    : Result ChainError Chain :=
  if now =? 0 then Err InvalidNetworkTime
  else
    let chain := {|
      blocks := []; active_hashes := ∅; known := ∅; total_work := default_work; utxo := new_utxo_set;
      orphans := ∅; orphan_receive_seq := 0; network_time := now; store := new_memory_store;
      event_journal := journal_with_capacity event_capacity;
      disconnected_journal := disconnected_with_capacity event_capacity |} in
    let hash := block_hash genesis in
    check? validate_block_limits genesis ;;
    check? validate_block_for_parent chain genesis None None 0 ;;
    let '(undo, u) := apply_transactions (utxo chain) (transactions genesis) in
    let? work := block_work (hdr_bits (header genesis)) in
    match (do! store_put genesis ;;
           do! smodify (λ c, set_known (<[hash := {| bm_block := genesis; bm_height := 0;
                                   bm_work := work; bm_undo := undo |}]> (known c)) c) ;;
           do! smodify (set_active [genesis] {[hash]} work u) ;;
           do! push_event (BlockConnected 0 hash (zlen (transactions genesis))) ;;
           sret ()) chain with
    | (Ok _, c) => Ok c
    | (Err e, _) => Err e
    | (Panic, _) => Panic
    end.

Definition new_genesis (genesis : Block) (now : Z) : Result ChainError Chain :=
  with_journal_capacities genesis now DEFAULT_JOURNAL_CAPACITY.
End chain.
