(* ===== verification/ChainTx.v ===== *)
(** * What the validation of a block's transactions establishes
      ([validate_block_transactions_for_utxo], bitrst-core/src/chain.rs)

    Every input spends an output that exists at that point of the block, no output is spent
    twice, every spend is authorized by its script, and no value is created outside the
    coinbase. *)

From stdpp Require Import prelude gmap strings list sorting.
From Stdlib Require Import Strings.Byte.
From S2P Require Import Prelude Bytes Crypto U256 Wire Transaction Merkle Block Utxo Script.
From S2P Require Import Sighash Journal Store Chain.

Local Open Scope Z_scope.

Section chain_tx.
Context {crypto : CryptoLib} {order : HashOrder} {flags : BuildFlags}.
Implicit Types (u : UtxoSet) (tx : Transaction) (spent : gset OutPoint).

(** A transaction accepted against a view of the UTXO set. *)
Definition tx_accepted u tx : Prop :=
  NoDup (spent_outpoints tx) ∧ validate_transaction u tx = Ok () ∧
  (is_coinbase tx = false → ∃ scripts, prev_scripts u tx = Ok scripts ∧ inputs_authorized tx scripts).

(** The transactions of a block, each against the view its predecessors leave. *)
Fixpoint txs_accepted u (txs : list Transaction) : Prop :=
  match txs with
  | [] => True
  | tx :: txs' => tx_accepted u tx ∧ txs_accepted (utxo_step u tx) txs'
  end.

Lemma mark_spent_all spent inputs spent' :
  rfold mark_spent spent inputs = Ok spent' ↔
  NoDup (map input_outpoint inputs) ∧ (∀ o, o ∈ map input_outpoint inputs → o ∉ spent) ∧
  spent' = list_to_set (map input_outpoint inputs) ∪ spent.
Proof.
  revert spent. induction inputs as [|i inputs IH]; intros spent; cbn [rfold map].
  { simpl. rewrite (left_id_L ∅ (∪)). split.
    - intros [= ->]. split_and!; [constructor| |done]. by intros o ?%not_elem_of_nil.
    - by intros (_&_&->). }
  unfold mark_spent at 1. rewrite NoDup_cons. cbn [list_to_set list_to_set foldr].
  assert (∀ l : list OutPoint, list_to_set l ∪ ({[input_outpoint i]} ∪ spent) =
    list_to_set (input_outpoint i :: l) ∪ spent) as Hset.
  { intros l. simpl. by rewrite (assoc_L (∪)), (comm_L (∪) (list_to_set l)). }
  setoid_rewrite elem_of_cons. case_bool_decide as Hin; cbn [rbind].
  { split; [done|]. intros (_&Hd&_). exfalso. by apply (Hd (input_outpoint i)); [left|]. }
  rewrite IH, Hset. setoid_rewrite elem_of_union. setoid_rewrite elem_of_singleton. split.
  - intros (Hnd&Hd&->). split_and!; [|done| |done].
    + intros Hi. apply (Hd _ Hi). by left.
    + intros o [->|Ho]; [done|]. intros Hs. apply (Hd o Ho). by right.
  - intros ([Hni Hnd]&Hd&->). split_and!; [done| |done].
    intros o Ho [->|Hs]; [done|]. apply (Hd o); [by right|done].
Qed.

Lemma validate_block_tx_Ok u spent tx st :
  validate_block_tx (u, spent) tx = Ok st ↔
  tx_accepted u tx ∧ (∀ o, o ∈ spent_outpoints tx → o ∉ spent) ∧
  st = (utxo_step u tx, list_to_set (spent_outpoints tx) ∪ spent).
Proof.
  unfold validate_block_tx, tx_accepted, spent_outpoints.
  destruct (is_coinbase tx) eqn:Hcb; cbn [negb rbind].
  - rewrite rbind_Ok. split.
    + intros ([]&Hv%map_err_Ok&Hst). cbn [rbind] in Hst. injection Hst as <-.
      rewrite apply_transaction_snd. simpl. rewrite (left_id_L ∅ (∪)).
      split_and!; [constructor|done|done| |done]. by intros o ?%not_elem_of_nil.
    + intros ((_&Hv&_)&_&->). exists (). rewrite map_err_Ok. split; [done|]. cbn [rbind].
      rewrite apply_transaction_snd. simpl. by rewrite (left_id_L ∅ (∪)).
  - rewrite rbind_Ok. split.
    + intros (sp&(Hnd&Hd&->)%mark_spent_all&([]&Hv%map_err_Ok&([]&Hs&[= <-])%rbind_Ok)%rbind_Ok).
      apply rbind_Ok in Hs as (scripts&Hps%map_err_Ok&Hs). rewrite apply_transaction_snd.
      split_and!; [done|done| |done|done]. intros _. exists scripts. split; [done|].
      apply verify_inputs_Ok in Hs; [done|]. apply prev_scripts_Ok, Forall2_length in Hps. done.
    + intros ((Hnd&Hv&Hs)&Hd&->). destruct (Hs eq_refl) as (scripts&Hps&Hau).
      eexists. split; [by apply mark_spent_all|]. rewrite Hv. cbn [map_err rbind].
      rewrite Hps. cbn [map_err rbind].
      rewrite (proj2 (verify_inputs_Ok ErrSighash InvalidScript tx scripts (proj1 Hau)) Hau).
      cbn [rbind]. by rewrite apply_transaction_snd.
Qed.

Lemma validate_block_txs_Ok u spent txs st :
  rfold validate_block_tx (u, spent) txs = Ok st ↔
  txs_accepted u txs ∧ NoDup (concat (map spent_outpoints txs)) ∧
  (∀ o, o ∈ concat (map spent_outpoints txs) → o ∉ spent) ∧
  st = (utxo_after u txs, list_to_set (concat (map spent_outpoints txs)) ∪ spent).
Proof.
  revert u spent. induction txs as [|tx txs IH]; intros u spent; cbn [rfold map concat txs_accepted].
  { simpl. rewrite (left_id_L ∅ (∪)). split.
    - intros [= <-]. split_and!; [done|constructor| |done]. by intros o ?%not_elem_of_nil.
    - by intros (_&_&_&->). }
  assert (∀ l : list OutPoint, list_to_set l ∪ (list_to_set (spent_outpoints tx) ∪ spent) =
    list_to_set (spent_outpoints tx ++ l) ∪ spent) as Hset.
  { intros l. by rewrite list_to_set_app_L, (assoc_L (∪)), (comm_L (∪) (list_to_set l)). }
  rewrite rbind_Ok, NoDup_app. setoid_rewrite elem_of_app. split.
  - intros (st1&(Hacc&Hd&->)%validate_block_tx_Ok&(Hrest&Hnd&Hd2&->)%IH).
    setoid_rewrite elem_of_union in Hd2. setoid_rewrite elem_of_list_to_set in Hd2.
    split_and!; [done|done|apply Hacc| |done| |by rewrite <- Hset].
    + intros o Ho Ho2. apply (Hd2 o Ho2). by left.
    + intros o [Ho|Ho]; [by apply Hd|]. intros Hs. apply (Hd2 o Ho). by right.
  - intros ([Hacc Hrest]&(Hnd1&Hdis&Hnd2)&Hd&->).
    exists (utxo_step u tx, list_to_set (spent_outpoints tx) ∪ spent). split.
    + apply validate_block_tx_Ok. split_and!; [done| |done]. intros o Ho. apply Hd. by left.
    + apply IH. split_and!; [done|done| |by rewrite <- Hset].
      intros o Ho. rewrite elem_of_union, elem_of_list_to_set. intros [Ht|Hs].
      * by apply (Hdis o).
      * apply (Hd o); [by right|done].
Qed.

Lemma validate_block_transactions_Ok b u :
  validate_block_transactions_for_utxo b u = Ok () ↔
  txs_accepted u (transactions b) ∧ NoDup (concat (map spent_outpoints (transactions b))).
Proof.
  unfold validate_block_transactions_for_utxo. rewrite rbind_Ok. setoid_rewrite validate_block_txs_Ok.
  split; [naive_solver|]. intros [? ?]. eexists. split; [|done]. split_and!; try done.
Qed.

(** ** Larger views *)

Lemma rfold_mono {E A B} (f g : B → A → Result E B) acc (l : list A) s :
  (∀ acc x s, f acc x = Ok s → g acc x = Ok s) → rfold f acc l = Ok s → rfold g acc l = Ok s.
Proof.
  intros Hfg. revert acc. induction l as [|x l IH]; intros acc; [done|]. cbn [rfold].
  intros (acc'&->%Hfg&?)%rbind_Ok. by apply IH.
Qed.

Lemma rmap_mono {E A B} (f g : A → Result E B) (l : list A) s :
  (∀ x s, f x = Ok s → g x = Ok s) → rmap f l = Ok s → rmap g l = Ok s.
Proof.
  intros Hfg. revert s. induction l as [|x l IH]; intros s; [done|]. cbn [rmap].
  intros (y&->%Hfg&(ys&Hys&[= <-])%rbind_Ok)%rbind_Ok. cbn [rbind]. by rewrite (IH _ Hys).
Qed.

(** What a view accepts, a larger view accepts. *)
Lemma tx_accepted_mono u v tx : u ⊆ v → tx_accepted u tx → tx_accepted v tx.
Proof.
  intros Huv (Hnd&Hval&Hscr). split_and!; [done| |].
  - unfold validate_transaction in *. destruct (is_coinbase tx); [done|].
    apply rbind_Ok in Hval as (s&Hs&Hval). apply rbind_Ok. exists s. split; [|done].
    eapply rfold_mono; [|exact Hs]. clear -Huv. intros acc i s. cbv zeta. unfold get_value, utxo_get.
    destruct (u !! input_outpoint i) as [e|] eqn:He; [|done]. by rewrite (lookup_weaken _ _ _ _ He Huv).
  - intros Hc. destruct (Hscr Hc) as (scripts&Hs&?). exists scripts. split; [|done].
    eapply rmap_mono; [|exact Hs]. clear -Huv. intros i s. cbv zeta. unfold utxo_get.
    destruct (u !! input_outpoint i) as [e|] eqn:He; [|done]. by rewrite (lookup_weaken _ _ _ _ He Huv).
Qed.

Lemma txs_accepted_mono u v txs : u ⊆ v → txs_accepted u txs → txs_accepted v txs.
Proof.
  revert u v. induction txs as [|tx txs IH]; intros u v Huv; [done|]. intros [Ht Hts].
  split; [by eapply tx_accepted_mono|]. by eapply IH, Hts; apply utxo_step_mono.
Qed.

(** ** Value *)

(** What the coinbases among [txs] pay out. *)
Definition minted (txs : list Transaction) : Z :=
  foldr (λ tx acc, (if is_coinbase tx then outputs_total tx else 0) + acc) 0 txs.

Lemma txs_accepted_value u txs :
  values_ok u → Forall tx_wf txs → txs_accepted u txs →
  values_ok (utxo_after u txs) ∧ total_value (utxo_after u txs) ≤ total_value u + minted txs.
Proof.
  intros Hu Hwf. revert u Hu. induction Hwf as [|tx txs (_&_&_&Hout) _ IH]; intros u Hu Hacc.
  { cbn. split; [done|lia]. }
  destruct Hacc as [(Hnd&Hv&_) Hacc]. unfold utxo_after. cbn [foldl minted foldr].
  destruct (IH (utxo_step u tx)) as [H1 H2]; [by apply values_ok_step|done|].
  unfold utxo_after, minted in *. split; [done|].
  pose proof (total_step u tx Hu Hout Hnd Hv). lia.
Qed.

Lemma minted_app txs1 txs2 : minted (txs1 ++ txs2) = minted txs1 + minted txs2.
Proof. induction txs1 as [|tx txs1 IH]; [done|]. unfold minted in *. simpl. rewrite IH. lia. Qed.
End chain_tx.

(** ** Properties *)

(** C10 (functional): the transaction check of a block succeeds exactly when, in order, each
    transaction spends distinct outputs present in the view its predecessors leave, covers
    its outputs without overflow, is authorized by the spent scripts, and no output is
    spent twice in the whole block. *)
Theorem block_transactions_check_exact {crypto : CryptoLib} (b : Block) (u : UtxoSet) :
  validate_block_transactions_for_utxo b u = Ok () ↔
  txs_accepted u (transactions b) ∧ NoDup (concat (map spent_outpoints (transactions b))).
Proof. apply validate_block_transactions_Ok. Qed.

(** Applying a checked block raises the total value of the UTXO set by at most
    what its coinbases pay out: no inflation, however inputs, outputs and scripts are
    chosen. *)
Theorem checked_block_conserves_value {crypto : CryptoLib} (b : Block) (u : UtxoSet) :
  values_ok u → block_wf b → validate_block_transactions_for_utxo b u = Ok () →
  total_value (apply_transactions u (transactions b)).2 ≤ total_value u + minted (transactions b).
Proof.
  intros Hu [_ Hwf] [Hacc _]%validate_block_transactions_Ok. rewrite apply_transactions_snd.
  by apply txs_accepted_value.
Qed.

(** Disconnecting a block with the undo data recorded when it was applied
    gives back the UTXO set, provided its transactions create no output that is already
    unspent (BIP 30, which the code does not check). *)
Theorem disconnect_undoes_apply {crypto : CryptoLib} (u : UtxoSet) (txs : list Transaction) :
  fresh_block u txs →
  let '(undos, u') := apply_transactions u txs in disconnect_undos u' undos = u.
Proof.
  intros Hf%disconnect_apply_transactions. by destruct (apply_transactions u txs).
Qed.
