(* ===== verification/ChainInv.v ===== *)
(** * The chain invariant and its preservation (bitrst-core/src/chain.rs)

    A branch is the list of blocks from the genesis block to an indexed block.  The
    invariant says that the active chain is the branch of the tip, that every indexed block
    lies on a branch with the recorded height and work, and that the UTXO set is included in
    the replay of the active chain and is this replay where transaction identifiers are
    distinct. *)

From stdpp Require Import prelude gmap strings list sorting.
From Stdlib Require Import Strings.Byte.
From S2P Require Import Prelude Bytes Crypto U256 Pow Difficulty Wire Transaction Merkle Block.
From S2P Require Import Utxo Script Sighash Journal Store Chain.

Local Open Scope Z_scope.

(** ** Work *)

Definition work_val (w : ChainWork) : Z := le_val (work_bytes w).
Definition work_wf (w : ChainWork) : Prop := length (work_bytes w) = 32%nat.

Lemma length_work_add_loop l r c :
  length l = length r → length (work_add_loop l r c) = length l.
Proof. revert r c. induction l as [|x l IH]; intros [|y r] c; simpl; auto. Qed.

Lemma work_add_loop_spec l r c :
  length l = length r → 0 ≤ c ≤ 1 →
  le_val (work_add_loop l r c) = (le_val l + le_val r + c) mod 256 ^ zlen l.
Proof.
  unfold zlen. revert r c. induction l as [|x l IH]; intros [|y r] c Hlen Hc; try done.
  { simpl. by rewrite Z.mod_1_r. }
  simpl in Hlen. injection Hlen as Hlen. cbn [work_add_loop le_val length].
  pose proof (bz_range x). pose proof (bz_range y).
  rewrite Z.shiftr_div_pow2 by done. change (2 ^ 8) with 256.
  rewrite IH by (done || (split; [apply Z.div_pos; lia|apply Z.lt_succ_r, Z.div_lt_upper_bound; lia])).
  rewrite bz_zb, pow256_succ.
  replace (bz x + 256 * le_val l + (bz y + 256 * le_val r) + c)
    with (bz x + bz y + c + (le_val l + le_val r) * 256) by lia.
  rewrite (Z.rem_mul_r _ 256) by (pose proof (pow256_pos (length l)); lia).
  rewrite Z_mod_plus_full, Z.div_add by lia. do 3 f_equal. lia.
Qed.

Lemma work_add_wf w1 w2 : work_wf w1 → work_wf w2 → work_wf (work_add w1 w2).
Proof. unfold work_wf, work_add. simpl. intros. rewrite length_work_add_loop; congruence. Qed.

Lemma work_val_add w1 w2 :
  work_wf w1 → work_wf w2 → work_val (work_add w1 w2) = (work_val w1 + work_val w2) mod 2 ^ 256.
Proof.
  unfold work_wf, work_val, work_add. cbn [work_bytes]. intros H1 H2.
  rewrite work_add_loop_spec by (congruence || lia). unfold zlen. by rewrite H1, Z.add_0_r.
Qed.

Lemma work_val_bound w : work_wf w → 0 ≤ work_val w < 2 ^ 256.
Proof. intros Hw. pose proof (le_val_bound (work_bytes w)) as H. unfold zlen in H. by rewrite Hw in H. Qed.

Lemma work_val_inj w1 w2 : work_wf w1 → work_wf w2 → work_val w1 = work_val w2 → w1 = w2.
Proof.
  destruct w1 as [b1], w2 as [b2]. unfold work_wf, work_val. simpl. intros H1 H2 Hv. f_equal.
  apply le_val_inj; congruence.
Qed.

Lemma work_le_spec w1 w2 : work_wf w1 → work_wf w2 → work_le w1 w2 = (work_val w1 <=? work_val w2).
Proof.
  unfold work_le, work_cmp, work_wf, work_val. intros H1 H2. rewrite cmp_le_spec by congruence.
  unfold Z.leb. by destruct (_ ?= _).
Qed.

(** The work of a block is a positive 256-bit integer. *)
Lemma length_add_u256_loop v c v' : add_u256_loop v c = Some v' → length v' = length v.
Proof.
  revert c v'. induction v as [|b v IH]; intros c v'; cbn [add_u256_loop].
  - by case_if; intros [= <-].
  - destruct (u64_checked_add (bz b) c); [|done]. cbv zeta. case_if; [by intros [= <-]|].
    destruct (add_u256_loop v _) as [r|] eqn:E; [|done]. intros [= <-]. simpl. f_equal. by eapply IH.
Qed.

Lemma length_div_loop dividend divisor n q r q' r' :
  div_loop dividend divisor n (q, r) = Some (q', r') → length q' = length q.
Proof.
  revert q r. induction n as [|n IH]; intros q r; cbn [div_loop]; [by intros [= <- <-]|].
  destruct (div_step dividend divisor n (q, r)) as [[q1 r1]|] eqn:E; [|done].
  intros H. apply IH in H. rewrite H. unfold div_step in E. cbv zeta in E. repeat case_match; simplify_eq; try done.
  all: unfold set_bit; apply length_insert.
Qed.

Lemma length_div_u256 dividend divisor q :
  div_u256_le dividend divisor = Some q → length q = 32%nat.
Proof.
  unfold div_u256_le. case_if; [done|].
  assert (match div_loop dividend divisor 256 (zero32, zero32) with
    | Some (quotient, _) => Some quotient | None => None end = Some q → length q = 32%nat) as Hq.
  { destruct (div_loop _ _ _ _) as [[q' r']|] eqn:E; [|done]. intros [= <-].
    apply length_div_loop in E. by rewrite E, length_zero32. }
  destruct (cmp_le dividend divisor); [done| |done]. by intros [= <-].
Qed.

Lemma block_work_spec bits w : block_work bits = Ok w → work_wf w ∧ 1 ≤ work_val w.
Proof.
  unfold block_work. intros H. inv_ok. unfold to_work, work_from_target in *. unfold work_wf, work_val.
  repeat case_match; simplify_eq. cbn [work_bytes].
  match goal with H : div_u256_le _ _ = Some ?q |- _ => pose proof (length_div_u256 _ _ _ H) as Hl end.
  match goal with H : add_u256_le ?q 1 = Some ?w, Hl : length ?q = _ |- _ =>
    rewrite add_u256_spec in H by (done || unfold U64_MAX; lia);
    pose proof (le_val_bound q) as Hb; unfold zlen in Hb; rewrite Hl in Hb end.
  case_decide; simplify_eq. rewrite length_le_bytes. split; [done|].
  rewrite le_val_le_bytes_small; [lia|]. change (256 ^ Z.of_nat 32) with (2 ^ 256). lia.
Qed.

(** The number the code adds for a header. *)
Definition bits_work (bits : Z) : Z :=
  match block_work bits with Ok w => work_val w | _ => 0 end.
Definition branch_work (bs : list Block) : Z :=
  foldr (λ b acc, bits_work (hdr_bits (header b)) + acc) 0 bs.

Lemma branch_work_app l1 l2 : branch_work (l1 ++ l2) = branch_work l1 + branch_work l2.
Proof. induction l1 as [|b l1 IH]; [done|]. simpl. unfold branch_work in *. simpl. rewrite IH. lia. Qed.

Lemma bits_work_nonneg bits : 0 ≤ bits_work bits.
Proof.
  unfold bits_work. destruct (block_work bits) as [w| |] eqn:E; [|done..].
  apply block_work_spec in E as [_ ?]. lia.
Qed.

Lemma branch_work_nonneg l : 0 ≤ branch_work l.
Proof.
  induction l as [|b l IH]; [done|]. unfold branch_work in *. simpl.
  pose proof (bits_work_nonneg (hdr_bits (header b))). lia.
Qed.

(** ** Branches *)

Section chain_inv.
Context {crypto : CryptoLib} {order : HashOrder} {flags : BuildFlags}.
Implicit Types (k : gmap (list byte) BlockMeta) (g h : list byte) (l : list Block).

Definition parent_of (b : Block) : list byte := prev_blockhash (header b).

Inductive branch g k : list byte → list Block → Prop :=
| branch_root m : k !! g = Some m → branch g k g [bm_block m]
| branch_step h m l :
    k !! h = Some m → h ≠ g → branch g k (parent_of (bm_block m)) l →
    branch g k h (l ++ [bm_block m]).

(** The index grows: entries keep their block, height and work (not their undo data). *)
Definition known_ext k k' : Prop := ∀ h m, k !! h = Some m →
  ∃ m', k' !! h = Some m' ∧ bm_block m' = bm_block m ∧ bm_height m' = bm_height m ∧
        bm_work m' = bm_work m.

#[global] Instance known_ext_preorder : PreOrder known_ext.
Proof.
  split; [intros k h m ?; by exists m|].
  intros k1 k2 k3 H12 H23 h m (m2&(m3&?&?&?&?)%H23&?&?&?)%H12. exists m3.
  split_and!; [done|congruence..].
Qed.

Lemma known_ext_insert k h m :
  (∀ m0, k !! h = Some m0 → bm_block m = bm_block m0 ∧ bm_height m = bm_height m0 ∧
                            bm_work m = bm_work m0) →
  known_ext k (<[h := m]> k).
Proof.
  intros Hm h' m' Hk. destruct (decide (h = h')) as [<-|].
  - exists m. rewrite lookup_insert_eq. split_and!; [done|by apply Hm..].
  - exists m'. by rewrite lookup_insert_ne.
Qed.

Lemma branch_ext g k k' h l : known_ext k k' → branch g k h l → branch g k' h l.
Proof.
  intros Hext. induction 1 as [m Hm|h m l Hm Hne _ IH].
  - destruct (Hext _ _ Hm) as (m'&Hm'&<-&_). by apply branch_root.
  - destruct (Hext _ _ Hm) as (m'&Hm'&Hb&_). rewrite <- Hb in *. by apply branch_step.
Qed.

Lemma branch_fun g k h l1 l2 : branch g k h l1 → branch g k h l2 → l1 = l2.
Proof.
  intros H1. revert l2. induction H1 as [m Hm|h m l Hm Hne _ IH]; intros l2 H2.
  - inversion H2; simplify_eq. done.
  - inversion H2; simplify_eq. f_equal. by apply IH.
Qed.

Lemma branch_ne g k h l : branch g k h l → l ≠ [].
Proof. intros []; [done|]. by destruct l0. Qed.

(** Every indexed block is stored under its hash. *)
Definition keyed k : Prop := map_Forall (λ h m, block_hash (bm_block m) = h) k.

Lemma branch_last g k h l :
  keyed k → branch g k h l → ∃ l' b, l = l' ++ [b] ∧ block_hash b = h ∧
    ∃ m, k !! h = Some m ∧ bm_block m = b.
Proof.
  intros Hk [m Hm|h' m l' Hm _ _].
  - exists [], (bm_block m). split_and!; [done|by apply (Hk g m)|by exists m].
  - exists l', (bm_block m). split_and!; [done|by apply (Hk h' m)|by exists m].
Qed.

Lemma branch_snoc_inv g k h l b :
  branch g k h (l ++ [b]) → l ≠ [] →
  ∃ m, k !! h = Some m ∧ bm_block m = b ∧ h ≠ g ∧ branch g k (parent_of b) l.
Proof.
  intros Hb Hl. remember (l ++ [b]) as l0 eqn:Heq. destruct Hb as [m Hm|h m l' Hm Hne Hbr].
  - apply (f_equal length) in Heq. rewrite length_app in Heq.
    destruct l; simpl in *; [done|lia].
  - apply app_inj_tail in Heq as [-> <-]. eauto.
Qed.

(** A prefix of a branch is the branch of its last block. *)
Lemma branch_prefix g k h l i b :
  keyed k → branch g k h l → l !! i = Some b → branch g k (block_hash b) (take (S i) l).
Proof.
  intros Hk. induction 1 as [m Hm|h m l Hm Hne Hbr IH]; intros Hi.
  - destruct i as [|i]; [|done]. injection Hi as <-. rewrite (Hk g m Hm). by apply branch_root.
  - destruct (decide (i < length l)%nat) as [Hlt|Hge].
    + rewrite lookup_app_l in Hi by done. rewrite take_app_le by lia. by apply IH.
    + assert (i = length l) as ->.
      { apply lookup_lt_Some in Hi. rewrite length_app in Hi. simpl in Hi. lia. }
      rewrite list_lookup_middle in Hi by done. injection Hi as <-.
      rewrite (Hk h m Hm), take_ge by (rewrite length_app; simpl; lia). by apply branch_step.
Qed.

Lemma branch_NoDup g k h l : keyed k → branch g k h l → NoDup (map block_hash l).
Proof.
  intros Hk Hb. apply NoDup_alt. intros i j x Hi Hj.
  apply list_lookup_fmap_Some in Hi as (bi&->&Hi). apply list_lookup_fmap_Some in Hj as (bj&Heq&Hj).
  pose proof (branch_prefix _ _ _ _ _ _ Hk Hb Hi) as H1.
  pose proof (branch_prefix _ _ _ _ _ _ Hk Hb Hj) as H2. rewrite <- Heq in H2.
  pose proof (f_equal length (branch_fun _ _ _ _ _ H1 H2)) as Hl.
  apply lookup_lt_Some in Hi, Hj. rewrite !length_take in Hl. lia.
Qed.

Lemma branch_length g k h l : keyed k → branch g k h l → (length l ≤ size k)%nat.
Proof.
  intros Hk Hb. rewrite <- (length_map block_hash l), <- size_dom.
  rewrite <- (size_list_to_set (C := gset (list byte))) by by eapply branch_NoDup.
  apply subseteq_size. intros x. rewrite elem_of_list_to_set, elem_of_dom.
  intros (b&->&[i Hi]%list_elem_of_lookup_1)%list_elem_of_fmap.
  eapply branch_prefix in Hi; [|done..]. by inversion Hi; eauto.
Qed.

(** ** The invariant *)

Definition meta_ok g k (m : BlockMeta) : Prop :=
  ∃ l, branch g k (block_hash (bm_block m)) l ∧
       bm_height m = (zlen l - 1) mod 2 ^ 32 ∧
       work_wf (bm_work m) ∧ work_val (bm_work m) = branch_work l mod 2 ^ 256.

(** The rules a block satisfies whatever the chain it is on. *)
Definition block_sane (b : Block) : Prop :=
  (∃ t, from_bits (hdr_bits (header b)) = Some t ∧ meets t (block_hash b) = true) ∧
  header_merkle_root_matches b = true ∧
  (∃ cb txs, transactions b = cb :: txs ∧ is_coinbase cb = true ∧
             Forall (λ tx, is_coinbase tx = false) txs).

Record known_ok g k : Prop := {
  ko_keyed : keyed k;
  ko_meta : map_Forall (λ _ m, meta_ok g k m) k;
  ko_sane : map_Forall (λ _ m, block_sane (bm_block m)) k
}.

Definition chain_txs (bs : list Block) : list Transaction := concat (map transactions bs).
Definition txids_distinct g k : Prop :=
  ∀ h l, branch g k h l → NoDup (map tx_id (chain_txs l)).

(** Each active block was validated against a set that [R] relates to the replay of its
    ancestors, and its undo data is what its application to that set recorded.  [R] is the
    inclusion, or the equality where transaction identifiers are distinct. *)
Inductive undo_ok (R : relation UtxoSet) k : list Block → Prop :=
| undo_ok_nil : undo_ok R k []
| undo_ok_snoc l b m u :
    undo_ok R k l → k !! block_hash b = Some m → R u (utxo_after ∅ (chain_txs l)) →
    validate_block_transactions_for_utxo b u = Ok () →
    bm_undo m = (apply_transactions u (transactions b)).1 →
    undo_ok R k (l ++ [b]).

Definition utxo_good (R : relation UtxoSet) (c : Chain) : Prop :=
  R (utxo c) (utxo_after ∅ (chain_txs (blocks c))) ∧ undo_ok R (known c) (blocks c).

(** What holds throughout a reorganization. *)
Record chain_core g (c : Chain) : Prop := {
  cc_known : known_ok g (known c);
  cc_tip : branch g (known c) (tip_hash c) (blocks c);
  cc_active : active_hashes c = list_to_set (map block_hash (blocks c));
  cc_utxo : txids_distinct g (known c) → utxo_good eq c;
  cc_below : utxo_good (⊆) c
}.

Record orphans_ok (c : Chain) : Prop := {
  oo_keyed : ∀ h o, orphans c !! h = Some o → block_hash (oe_block o) = h ∧ known c !! h = None;
  oo_size : Z.of_nat (size (orphans c)) ≤ MAX_ORPHAN_BLOCKS
}.

(** The invariant of a chain between calls. *)
Record chain_inv g (c : Chain) : Prop := {
  ci_core : chain_core g c;
  ci_work : ∃ m, known c !! tip_hash c = Some m ∧ total_work c = bm_work m;
  ci_orphans : orphans_ok c
}.

(** ** Index updates *)

Lemma known_ok_insert g k h m l :
  known_ok g k → block_hash (bm_block m) = h → h ≠ g → block_sane (bm_block m) →
  branch g k (parent_of (bm_block m)) l → is_Some (k !! parent_of (bm_block m)) →
  bm_height m = zlen l mod 2 ^ 32 → work_wf (bm_work m) →
  work_val (bm_work m) = (branch_work l + bits_work (hdr_bits (header (bm_block m)))) mod 2 ^ 256 →
  (k !! h = None ∨ ∃ m0, k !! h = Some m0 ∧ bm_block m0 = bm_block m) →
  known_ext k (<[h := m]> k) ∧ known_ok g (<[h := m]> k).
Proof.
  intros [Hk Hm Hsane] Hh Hg Hs Hl Hp Hht Hwf Hw Hnew.
  assert (∀ l', branch g k h l' → l' = l ++ [bm_block m]) as Hbr.
  { intros l' Hl'. destruct Hnew as [Hn|(m0&Hm0&Hb0)]; inversion Hl'; simplify_eq.
    f_equal; [|by rewrite Hb0]. eapply branch_fun; [done|]. congruence. }
  assert (known_ext k (<[h := m]> k)) as Hext.
  { apply known_ext_insert. intros m0 Hm0. destruct Hnew as [|(m1&Hm1&Hb)]; [congruence|].
    assert (m1 = m0) as -> by congruence. destruct (Hm _ _ Hm0) as (l0&Hl0&Hh0&Hwf0&Hw0).
    rewrite (Hk _ _ Hm0) in Hl0. apply Hbr in Hl0 as ->.
    split_and!; [done| |].
    - rewrite Hht, Hh0, zlen_app. f_equal. change (zlen [bm_block m]) with 1. lia.
    - apply work_val_inj; [done..|]. rewrite Hw, Hw0, branch_work_app. simpl. do 2 f_equal.
      unfold branch_work. simpl. lia. }
  split; [done|]. split.
  - apply map_Forall_insert_2; done.
  - intros h' m' Hk'. apply lookup_insert_Some in Hk' as [[<- <-]|[Hne Hk']].
    + exists (l ++ [bm_block m]). split_and!; [|rewrite zlen_app|done|].
      * rewrite Hh. apply branch_step; [by rewrite lookup_insert_eq|done|]. by eapply branch_ext.
      * rewrite Hht. f_equal. change (zlen [bm_block m]) with 1. lia.
      * rewrite Hw, branch_work_app. unfold branch_work at 3. simpl. do 2 f_equal. lia.
    + destruct (Hm _ _ Hk') as (l'&Hl'&?&?&?). exists l'. split_and!; [|done..].
      by eapply branch_ext.
  - by apply map_Forall_insert_2.
Qed.

Lemma txids_distinct_ext g k k' : known_ext k k' → txids_distinct g k' → txids_distinct g k.
Proof. intros Hext Hd h l Hb. eapply Hd, branch_ext; done. Qed.
(** ** Distinct transaction identifiers make outputs fresh *)

Lemma utxo_step_txid u tx o e :
  utxo_step u tx !! o = Some e → is_Some (u !! o) ∨ op_txid o = tx_id tx.
Proof.
  unfold utxo_step. rewrite lookup_union_Some_raw. intros [Hc|[_ Hs]].
  - right. assert (is_Some (created_map tx !! o)) as Hsome by eauto.
    apply created_map_dom, elem_of_lookup_imap in Hsome as (i&x&->&_). done.
  - left. apply spend_lookup in Hs as [? _]. eauto.
Qed.

Lemma utxo_after_txid u txs o e :
  utxo_after u txs !! o = Some e → is_Some (u !! o) ∨ op_txid o ∈ map tx_id txs.
Proof.
  revert u. induction txs as [|tx txs IH]; intros u Ho; cbn [utxo_after foldl map] in *; [eauto|].
  apply IH in Ho as [[e' He]|Hin]; [|right; apply elem_of_cons; by right].
  apply utxo_step_txid in He as [?| ->]; [by left|right; apply elem_of_cons; by left].
Qed.

Lemma utxo_after_app u txs1 txs2 : utxo_after u (txs1 ++ txs2) = utxo_after (utxo_after u txs1) txs2.
Proof. unfold utxo_after. apply foldl_app. Qed.

Lemma fresh_block_distinct txs1 txs2 :
  NoDup (map tx_id (txs1 ++ txs2)) → fresh_block (utxo_after ∅ txs1) txs2.
Proof.
  revert txs1. induction txs2 as [|tx txs2 IH]; intros txs1 Hnd; [done|]. cbn [fresh_block]. split.
  - unfold fresh_outputs. apply map_disjoint_spec. intros o e1 e2 H1 H2.
    assert (is_Some (created_map tx !! o)) as Hsome by eauto.
    apply created_map_dom, elem_of_lookup_imap in Hsome as (i&x&->&_).
    apply spend_lookup in H2 as [H2 _]. apply utxo_after_txid in H2 as [[? H2]|H2]; [by rewrite lookup_empty in H2|].
    rewrite map_app, NoDup_app in Hnd. destruct Hnd as (_&Hnd&_). cbn in H2.
    apply (Hnd _ H2). apply elem_of_cons; by left.
  - change (utxo_step (utxo_after ∅ txs1) tx) with (utxo_after (utxo_after ∅ txs1) [tx]).
    rewrite <- utxo_after_app. apply IH. by rewrite <- (assoc_L (++)).
Qed.

Lemma chain_txs_app l1 l2 : chain_txs (l1 ++ l2) = chain_txs l1 ++ chain_txs l2.
Proof. unfold chain_txs. by rewrite map_app, concat_app. Qed.

Lemma chain_txs_snoc l b : chain_txs (l ++ [b]) = chain_txs l ++ transactions b.
Proof. rewrite chain_txs_app. unfold chain_txs. simpl. by rewrite (right_id_L [] (++)). Qed.

(** ** Undo data and index updates *)

Lemma undo_ok_agree R k k' l :
  (∀ b, b ∈ l → k' !! block_hash b = k !! block_hash b) → undo_ok R k l → undo_ok R k' l.
Proof.
  intros Hag Hu. induction Hu as [|l b m u Hu IH Hm HR Hval Hundo]; [constructor|].
  apply (undo_ok_snoc _ _ _ _ m u); [|by rewrite Hag by set_solver|done..].
  apply IH. intros b' Hb'. apply Hag. set_solver.
Qed.

Lemma undo_ok_snoc_inv R k l b :
  undo_ok R k (l ++ [b]) → undo_ok R k l ∧ ∃ m u, k !! block_hash b = Some m ∧
    R u (utxo_after ∅ (chain_txs l)) ∧ bm_undo m = (apply_transactions u (transactions b)).1.
Proof.
  intros Hu. remember (l ++ [b]) as l0 eqn:Heq. destruct Hu as [|l' b' m u Hu Hm HR _ Hundo].
  - by destruct l.
  - apply app_inj_tail in Heq as [-> ->]. split; [done|]. by exists m, u.
Qed.

(** The three changes of the active chain: none, a block more, a block less. *)
Lemma utxo_good_same R c c' :
  utxo_good R c → blocks c' = blocks c → utxo c' = utxo c →
  (∀ b, b ∈ blocks c → known c' !! block_hash b = known c !! block_hash b) → utxo_good R c'.
Proof.
  intros [Hu Hundo] Hb Hux Hk. split; [by rewrite Hux, Hb|]. rewrite Hb. by eapply undo_ok_agree.
Qed.

Lemma utxo_good_push (R : relation UtxoSet) c c' b m :
  (∀ u v txs, R u v → R (utxo_after u txs) (utxo_after v txs)) →
  utxo_good R c → blocks c' = blocks c ++ [b] → utxo c' = utxo_after (utxo c) (transactions b) →
  (∀ b', b' ∈ blocks c → known c' !! block_hash b' = known c !! block_hash b') →
  known c' !! block_hash b = Some m → validate_block_transactions_for_utxo b (utxo c) = Ok () →
  bm_undo m = (apply_transactions (utxo c) (transactions b)).1 → utxo_good R c'.
Proof.
  intros Hmono [Hu Hundo] Hb Hux Hk Hm Hval Hum. unfold utxo_good. rewrite Hb, Hux. split.
  - rewrite chain_txs_snoc, utxo_after_app. by apply Hmono.
  - apply (undo_ok_snoc _ _ _ _ m (utxo c)); [by eapply undo_ok_agree|done..].
Qed.

Lemma utxo_good_pop (R : relation UtxoSet) c c' l b m :
  (∀ u u0 v txs, txs = transactions b → v = utxo_after ∅ (chain_txs l) →
     R u (utxo_after v txs) → R u0 v → R (disconnect_undos u (apply_transactions u0 txs).1) v) →
  utxo_good R c → blocks c = l ++ [b] → known c !! block_hash b = Some m → blocks c' = l →
  known c' = known c → utxo c' = disconnect_undos (utxo c) (bm_undo m) → utxo_good R c'.
Proof.
  intros Hundo [Hu Hok] Hb Hm Hl Hk Hux. unfold utxo_good. rewrite Hux, Hl, Hk.
  rewrite Hb in Hok. apply undo_ok_snoc_inv in Hok as [Hok (m1&u0&Hm1&HR&Hum)].
  split; [|done]. simplify_eq. rewrite Hum. apply Hundo; [done..| |done].
  by rewrite Hb, chain_txs_snoc, utxo_after_app in Hu.
Qed.

(** ** The active chain *)

Lemma tip_hash_spec c l b : blocks c = l ++ [b] → tip_hash c = block_hash b.
Proof. unfold tip_hash. intros ->. by rewrite last_snoc. Qed.

Lemma core_known_tip g c : chain_core g c → ∃ l b m, blocks c = l ++ [b] ∧
  tip_hash c = block_hash b ∧ known c !! tip_hash c = Some m ∧ bm_block m = b.
Proof.
  intros [[Hk _ _] Ht _ _]. destruct (branch_last _ _ _ _ Hk Ht) as (l&b&Hl&Hh&m&Hm&Hb).
  exists l, b, m. by split_and!.
Qed.

Lemma core_active g c h : chain_core g c → h ∈ active_hashes c ↔ ∃ b, b ∈ blocks c ∧ block_hash b = h.
Proof.
  intros Hc. rewrite (cc_active _ _ Hc), elem_of_list_to_set, list_elem_of_fmap. naive_solver.
Qed.

Lemma core_active_known g c b : chain_core g c → b ∈ blocks c →
  ∃ m, known c !! block_hash b = Some m ∧ bm_block m = b.
Proof.
  intros [[Hk _ _] Ht _ _] [i Hi]%list_elem_of_lookup_1.
  pose proof (branch_prefix _ _ _ _ _ _ Hk Ht Hi) as Hb.
  destruct (branch_last _ _ _ _ Hk Hb) as (l&b'&Hl&Hh&m&Hm&Hb'). exists m. split; [done|].
  rewrite Hb'. erewrite take_S_r in Hl by done. by apply app_inj_tail in Hl as [_ <-].
Qed.

(** A block whose parent is the tip is not on the active chain. *)
Lemma not_on_active g c b :
  chain_core g c → parent_of b = tip_hash c → block_hash b ≠ g →
  (known c !! block_hash b = None ∨ ∃ m0, known c !! block_hash b = Some m0 ∧ bm_block m0 = b) →
  block_hash b ∉ active_hashes c.
Proof.
  intros Hc Hp Hg Hnew Hin. apply (core_active g) in Hin as (b'&Hb'&Heq); [|done].
  destruct (core_active_known g c b' Hc Hb') as (m&Hm&Hmb). rewrite Heq in Hm.
  destruct Hnew as [Hn|(m0&Hm0&Hmb0)]; [congruence|].
  destruct Hc as [[Hk _ _] Ht _ _]. apply list_elem_of_lookup_1 in Hb' as [i Hi].
  pose proof (branch_prefix _ _ _ _ _ _ Hk Ht Hi) as Hbr. rewrite Heq in Hbr.
  assert (branch g (known c) (block_hash b) (blocks c ++ [b])) as Hbr2.
  { rewrite <- Hmb0 at 2. apply branch_step; [done|done|]. by rewrite Hmb0, Hp. }
  pose proof (f_equal length (branch_fun _ _ _ _ _ Hbr Hbr2)) as Hl.
  rewrite length_take, length_app in Hl. cbn [length] in Hl. lia.
Qed.

(** Pushing a block on the tip. *)
Lemma core_push g c b m c' :
  chain_core g c → parent_of b = tip_hash c → block_hash b ≠ g →
  (known c !! block_hash b = None ∨ ∃ m0, known c !! block_hash b = Some m0 ∧ bm_block m0 = b) →
  bm_block m = b → bm_height m = zlen (blocks c) mod 2 ^ 32 → work_wf (bm_work m) →
  work_val (bm_work m) = (branch_work (blocks c) + bits_work (hdr_bits (header b))) mod 2 ^ 256 →
  bm_undo m = (apply_transactions (utxo c) (transactions b)).1 →
  block_sane b → validate_block_transactions_for_utxo b (utxo c) = Ok () →
  blocks c' = blocks c ++ [b] → active_hashes c' = {[block_hash b]} ∪ active_hashes c →
  known c' = <[block_hash b := m]> (known c) → utxo c' = utxo_after (utxo c) (transactions b) →
  known_ext (known c) (known c') ∧ chain_core g c'.
Proof.
  intros Hc Hp Hg Hnew Hmb Hht Hwf Hw Hundo Hsane Hval Hbs Has Hks Hus.
  pose proof (not_on_active g c b Hc Hp Hg Hnew) as Hna.
  destruct (core_known_tip g c Hc) as (l&tb&tm&Hl&Hth&Htm&Htb).
  assert (known_ext (known c) (known c') ∧ known_ok g (known c')) as [Hext Hok].
  { rewrite Hks. rewrite <- Hmb in Hnew, Hp, Hg |- *.
    apply (known_ok_insert g (known c) _ m (blocks c)); try done.
    - apply Hc.
    - by rewrite Hmb.
    - rewrite Hp. apply Hc.
    - rewrite Hp. by exists tm.
    - by rewrite Hw, Hmb. }
  assert (∀ b', b' ∈ blocks c → known c' !! block_hash b' = known c !! block_hash b') as Hag.
  { intros b' Hb'. rewrite Hks, lookup_insert_ne; [done|]. intros Heq. apply Hna.
    apply (core_active g); [done|]. by exists b'. }
  assert (known c' !! block_hash b = Some m) as Hm by by rewrite Hks, lookup_insert_eq.
  split; [done|]. split; [done| | | |].
  - rewrite (tip_hash_spec c' (blocks c) b) by done. rewrite Hbs. rewrite <- Hmb at 2.
    apply branch_step; [by rewrite Hks, lookup_insert_eq|done|]. rewrite Hmb, Hp.
    eapply branch_ext; [done|apply Hc].
  - rewrite Has, Hbs, (cc_active _ _ Hc), map_app, list_to_set_app_L. simpl. set_solver.
  - intros Hd. eapply (utxo_good_push _ c); try done; [by intros ?? txs ->|].
    apply (cc_utxo _ _ Hc). by eapply txids_distinct_ext.
  - eapply (utxo_good_push _ c); try done; [apply utxo_after_mono|apply Hc].
Qed.
(** ** What validation establishes *)

Lemma coinbase_first_iff (txs : list Transaction) :
  length (filter is_coinbase txs) = 1%nat → (∃ tx, txs !! 0%nat = Some tx ∧ is_coinbase tx = true) →
  ∃ cb rest, txs = cb :: rest ∧ is_coinbase cb = true ∧ Forall (λ tx, is_coinbase tx = false) rest.
Proof.
  intros Hlen (tx&Htx&Hcb). destruct txs as [|cb rest]; [done|]. injection Htx as ->.
  rewrite filter_cons_True in Hlen by by rewrite Hcb. simpl in Hlen. injection Hlen as Hlen.
  exists tx, rest. split_and!; [done..|]. apply Forall_forall. intros x Hx.
  destruct (is_coinbase x) eqn:E; [|done]. apply nil_length_inv in Hlen.
  assert (x ∈ filter is_coinbase rest) as Hin by (apply list_elem_of_filter; by rewrite E).
  rewrite Hlen in Hin. by apply not_elem_of_nil in Hin.
Qed.

(** The header rules, exactly. *)
Lemma validate_header_Ok c b parent ph (h : Z) :
  validate_block_header_for_parent c b parent ph h = Ok () →
  block_sane b ∧
  (∀ p x, parent = Some p → ph = Some x →
    valid_block_time (hdr_time (header b)) (median_past_time_before c x) (network_time c) = true) ∧
  expected_bits c h (hdr_bits (header b)) = Ok (hdr_bits (header b)).
Proof.
  unfold validate_block_header_for_parent. intros H.
  apply rbind_Ok in H as (t&Ht%ok_or_Ok&H). destruct (meets t (block_hash b)) eqn:Hm; [|done].
  destruct (header_merkle_root_matches b) eqn:Hr; [|done]. cbn [negb] in H. cbv zeta in H.
  apply rbind_Ok in H as (fc&Hfc&H). destruct fc; [|done]. cbn [negb] in H.
  destruct (Nat.eqb_spec (coinbase_count b) 1) as [Hcount|]; [|done]. cbn [negb] in Hfc.
  apply rbind_Ok in Hfc as (tx&Htx&[= Hcb]).
  apply rbind_Ok in H as ([]&Htime&H). apply rbind_Ok in H as (bits&Hbits&H).
  destruct (Z.eqb_spec (hdr_bits (header b)) bits) as [Heq|]; [|done]. rewrite <- Heq in Hbits.
  split; [split; [by exists t|split; [done|]]|split; [|done]].
  - apply coinbase_first_iff; [done|]. exists tx. split; [|done].
    destruct (transactions b !! 0%nat); [by injection Htx as ->|done].
  - intros p x -> ->. by destruct (valid_block_time _ _ _).
Qed.
End chain_inv.
