(* ===== verification/ChainReorg.v ===== *)
(** * Reorganizations preserve the chain invariant (bitrst-core/src/chain.rs)

    Each step of [reorg_to_block]: finding the fork point, disconnecting down to it,
    reconnecting the heavier branch, and restoring the active state when that fails. *)

From stdpp Require Import prelude gmap strings list sorting.
From Stdlib Require Import Strings.Byte.
From S2P Require Import Prelude Bytes Crypto U256 Pow Difficulty Wire Transaction Merkle Block.
From S2P Require Import Utxo Script Sighash Journal Store Chain ChainInv.

Local Open Scope Z_scope.

Section chain_reorg.
Context {crypto : CryptoLib} {order : HashOrder} {flags : BuildFlags}.
Implicit Types (g : list byte) (c : Chain) (b : Block).

(** ** Disconnecting the tip *)

Lemma disconnect_tip_spec g c l b :
  chain_core g c → blocks c = l ++ [b] → l ≠ [] →
  ∃ c' m', disconnect_tip_block c = (Ok (), c') ∧
    blocks c' = l ∧ known c' = known c ∧ orphans c' = orphans c ∧
    network_time c' = network_time c ∧ store c' = store c ∧
    known c !! tip_hash c' = Some m' ∧ total_work c' = bm_work m' ∧ chain_core g c'.
Proof.
  intros Hc Hl Hne. pose proof (cc_tip _ _ Hc) as Ht. rewrite Hl in Ht.
  pose proof (cc_known _ _ Hc) as [Hk Hmeta _].
  pose proof (tip_hash_spec c l b Hl) as Hth.
  pose proof (branch_NoDup _ _ _ _ Hk Ht) as Hnd.
  destruct (branch_snoc_inv _ _ _ _ _ Ht Hne) as (m&Hm&Hmb&Hg&Hpar).
  destruct (branch_last _ _ _ _ Hk Hpar) as (l'&p&Hl'&Hph&mp&Hmp&Hmpb).
  unfold disconnect_tip_block, sbind, sget, slift, smodify, push_event.
  rewrite Hl, last_snoc. cbn [ok_or]. rewrite length_app. cbn [length].
  rewrite Nat.add_sub, take_app_length.
  unfold set_blocks, set_active_hashes, set_utxo, set_total_work, set_active, set_journals.
  cbn [blocks active_hashes known total_work utxo orphans orphan_receive_seq network_time store
       event_journal disconnected_journal].
  rewrite <- Hth, Hm. cbn [ok_or]. rewrite Hl', last_snoc, Hph, Hmp.
  destruct (journal_push _ (event_journal c)) as [seq j] eqn:Hj.
  eexists _, mp. split; [done|]. cbn [blocks known orphans network_time store total_work].
  assert (∀ c', blocks c' = l' ++ [p] → tip_hash c' = parent_of b) as Htip'.
  { intros c' Hc'. by rewrite (tip_hash_spec _ _ _ Hc'), Hph. }
  split_and!; try done; [by rewrite Htip'|].
  split; cbn [blocks known active_hashes utxo].
  - apply Hc.
  - rewrite Htip' by done. by rewrite <- Hl'.
  - rewrite (cc_active _ _ Hc), Hl, Hth, map_app, list_to_set_app_L, <- Hl'. simpl.
    rewrite map_app, NoDup_app in Hnd. destruct Hnd as (_&Hnd&_).
    assert (block_hash b ∉ map block_hash l) as Hni.
    { intros Hin. apply (Hnd _ Hin). simpl. set_solver. }
    apply set_eq. intros x. rewrite elem_of_difference, elem_of_union, !elem_of_list_to_set.
    set_solver.
  - intros Hd. rewrite Hth in Hm.
    apply (utxo_good_pop _ c _ l b m); [|by apply (cc_utxo _ _ Hc)|done..].
    intros u u0 v txs -> -> -> ->. rewrite <- apply_transactions_snd.
    apply disconnect_apply_transactions, fresh_block_distinct.
    rewrite <- chain_txs_snoc, <- Hl. eapply Hd, cc_tip, Hc.
  - rewrite Hth in Hm. apply (utxo_good_pop _ c _ l b m); [|apply Hc|done..].
    intros u u0 v txs _ _. apply disconnect_undos_below.
Qed.

(** ** Disconnecting down to the fork point *)

Lemma disconnect_until_spec g fuel pre post fork n c :
  chain_core g c → blocks c = pre ++ post → pre ≠ [] →
  (∀ c', blocks c' = pre → tip_hash c' = fork) → fork ∉ map block_hash post →
  (length post < fuel)%nat →
  ∃ c' n', disconnect_until fuel fork n c = (Ok n', c') ∧
    blocks c' = pre ∧ known c' = known c ∧ orphans c' = orphans c ∧
    network_time c' = network_time c ∧ chain_core g c'.
Proof.
  revert post n c. induction fuel as [|fuel IH]; intros post n c Hc Hb Hpre Hfork Hni Hf; [lia|].
  cbn [disconnect_until]. unfold sbind at 1, sget. case_bool_decide as Ht.
  - destruct post as [|x post _] using rev_ind.
    + rewrite (right_id_L [] (++)) in Hb. exists c, n. by split_and!.
    + exfalso. apply Hni. rewrite (assoc_L (++)) in Hb.
      rewrite (tip_hash_spec _ _ _ Hb) in Ht. rewrite <- Ht, map_app. simpl. set_solver.
  - destruct post as [|x post _] using rev_ind.
    { rewrite (right_id_L [] (++)) in Hb. by apply Hfork in Hb. }
    rewrite (assoc_L (++)) in Hb.
    destruct (disconnect_tip_spec g c (pre ++ post) x Hc Hb) as (c1&m1&Hrun&Hb1&Hk1&Ho1&Hn1&Hs1&_&_&Hc1).
    { by destruct pre. }
    unfold sbind at 1. rewrite Hrun.
    destruct (IH post (u32_wrapping_add n 1) c1) as (c'&n'&Hrun'&Hb'&Hk'&Ho'&Hn'&Hc'); try done.
    { rewrite map_app in Hni. set_solver. }
    { rewrite length_app in Hf. simpl in Hf. lia. }
    exists c', n'. split_and!; congruence || done.
Qed.

(** ** The fork path *)

(** Following parents from a branch [l] (whose first block is the genesis block, which is
    active) stops at the deepest active block. *)
Lemma collect_fork_spec g c fuel h l path oldest :
  chain_core g c → branch g (known c) h l → parent_of oldest = h → (length l < fuel)%nat →
  g ∈ active_hashes c →
  ∃ i b, l !! i = Some b ∧ block_hash b ∈ active_hashes c ∧
    Forall (λ b, block_hash b ∉ active_hashes c) (drop (S i) l) ∧
    collect_fork_loop fuel c path oldest = Ok (drop (S i) l ++ path, block_hash b).
Proof.
  intros Hc Hb. pose proof (cc_known _ _ Hc) as [Hk _ _]. revert fuel path oldest.
  induction Hb as [m Hm|h m l Hm Hne Hb IH]; intros [|fuel] path oldest Hp Hf Hg; try lia;
    cbn [collect_fork_loop]; fold (parent_of oldest); rewrite Hp.
  - rewrite bool_decide_eq_true_2 by done. exists 0%nat, (bm_block m).
    rewrite (Hk _ _ Hm). simpl. by split_and!.
  - case_bool_decide as Ha.
    + exists (length l), (bm_block m). rewrite list_lookup_middle by done.
      rewrite drop_ge by (rewrite length_app; simpl; lia). rewrite (Hk _ _ Hm). by split_and!.
    + rewrite Hm. cbn [ok_or rbind].
      destruct (IH fuel (bm_block m :: path) (bm_block m)) as (i&b&Hi&Hba&Hdr&Hrun); try done.
      { rewrite length_app in Hf. simpl in Hf. lia. }
      exists i, b. apply lookup_lt_Some in Hi as Hlt. rewrite lookup_app_l by done.
      rewrite drop_app_le by lia. split_and!; [done|done| |by rewrite Hrun, <- (assoc_L (++))].
      apply Forall_app. split; [done|]. constructor; [|done]. by rewrite (Hk _ _ Hm).
Qed.

Lemma genesis_active g c : chain_core g c → g ∈ active_hashes c.
Proof.
  intros Hc. apply (core_active g); [done|]. pose proof (cc_known _ _ Hc) as [Hk _ _].
  pose proof (cc_tip _ _ Hc) as Ht.
  assert (∀ h l, branch g (known c) h l → ∃ b, b ∈ l ∧ block_hash b = g) as H; [|by eapply H].
  intros h l Hb. induction Hb as [m Hm|h m l Hm Hne Hb (b&Hin&Hh)].
  - exists (bm_block m). split; [set_solver|by apply (Hk _ _ Hm)].
  - exists b. split; [set_solver|done].
Qed.

(** A branch and the active chain share exactly the part below the fork point. *)
Lemma fork_prefix g c h l i b :
  chain_core g c → branch g (known c) h l → l !! i = Some b → block_hash b ∈ active_hashes c →
  ∃ post, blocks c = take (S i) l ++ post.
Proof.
  intros Hc Hb Hi Ha. pose proof (cc_known _ _ Hc) as [Hk _ _]. pose proof (cc_tip _ _ Hc) as Ht.
  apply (core_active g) in Ha as (b'&Hb'&Heq); [|done].
  apply list_elem_of_lookup_1 in Hb' as [j Hj].
  pose proof (branch_prefix _ _ _ _ _ _ Hk Hb Hi) as H1.
  pose proof (branch_prefix _ _ _ _ _ _ Hk Ht Hj) as H2. rewrite Heq in H2.
  rewrite (branch_fun _ _ _ _ _ H1 H2). exists (drop (S j) (blocks c)). by rewrite take_drop.
Qed.
(** ** Reconnecting *)

(** Work and height recorded for a child of an indexed block. *)
Lemma child_work g k h m l bits bw :
  known_ok g k → k !! h = Some m → branch g k h l → block_work bits = Ok bw →
  work_wf (work_add (bm_work m) bw) ∧
  work_val (work_add (bm_work m) bw) = (branch_work l + bits_work bits) mod 2 ^ 256 ∧
  u32_wrapping_add (bm_height m) 1 = zlen l mod 2 ^ 32.
Proof.
  intros [Hk Hm _] Hh Hb Hbw. destruct (Hm _ _ Hh) as (l'&Hl'&Hht&Hwf&Hw). rewrite (Hk _ _ Hh) in Hl'.
  rewrite (branch_fun _ _ _ _ _ Hl' Hb) in *. destruct (block_work_spec _ _ Hbw) as [Hbwf _].
  split_and!.
  - by apply work_add_wf.
  - rewrite work_val_add, Hw by done. unfold bits_work. rewrite Hbw. by rewrite Zplus_mod_idemp_l.
  - unfold u32_wrapping_add. rewrite Hht, Zplus_mod_idemp_l. f_equal. lia.
Qed.

Lemma core_height g c : chain_core g c → u32_wrapping_add (height c) 1 = zlen (blocks c) mod 2 ^ 32.
Proof.
  intros Hc. pose proof (branch_ne _ _ _ _ (cc_tip _ _ Hc)) as Hne. unfold u32_wrapping_add, height, zlen.
  rewrite Zplus_mod_idemp_l. f_equal. destruct (blocks c); [done|]. simpl length. lia.
Qed.

Definition fresh_or_same (k : gmap (list byte) BlockMeta) b : Prop :=
  k !! block_hash b = None ∨ ∃ m0 : BlockMeta, k !! block_hash b = Some m0 ∧ bm_block m0 = b.

Lemma push_active_block_spec b m c :
  ∃ c', push_active_block b m c = (Ok (), c') ∧ blocks c' = blocks c ++ [b] ∧
    active_hashes c' = {[block_hash b]} ∪ active_hashes c ∧
    known c' = <[block_hash b := m]> (known c) ∧ total_work c' = total_work c ∧
    utxo c' = utxo c ∧ orphans c' = orphans c ∧ network_time c' = network_time c.
Proof. eexists. split; [reflexivity|]. by split_and!. Qed.

Lemma reconnect_block_spec g b c r c' :
  chain_core g c → parent_of b = tip_hash c → block_hash b ≠ g → fresh_or_same (known c) b →
  reconnect_block b c = (r, c') → r ≠ Panic →
  orphans c' = orphans c ∧ network_time c' = network_time c ∧
  ((r = Ok () ∧ chain_core g c' ∧ blocks c' = blocks c ++ [b] ∧
    known_ext (known c) (known c') ∧ ∃ m, known c' = <[block_hash b := m]> (known c)) ∨
   (∃ e, r = Err e) ∧ known c' = known c).
Proof.
  intros Hc Hp Hg Hnew Hrun Hr. unfold reconnect_block, sbind, sget, slift in Hrun.
  destruct (validate_block_for_parent _ _ _ _ _) as [[]|e|] eqn:Hval;
    [|by simplify_eq; naive_solver..].
  apply rbind_Ok in Hval as ([]&(Hsane&_&_)%validate_header_Ok&Hval).
  unfold apply_block_transactions in Hrun.
  destruct (apply_transactions (utxo c) (transactions b)) as [undos u] eqn:Happ.
  cbn [known utxo set_utxo set_active] in Hrun.
  destruct (block_work (hdr_bits (header b))) as [bw|e|] eqn:Hbw; [|by simplify_eq; naive_solver..].
  destruct (core_known_tip g c Hc) as (l&tb&tm&Hl&Hth&Htm&Htb). fold (parent_of b) in Hrun.
  rewrite Hp, Htm in Hrun.
  set (m := {| bm_block := b; bm_height := _; bm_work := _; bm_undo := undos |}) in Hrun.
  destruct (push_active_block_spec b m (set_utxo u c)) as (c1&Hpush&Hb1&Ha1&Hk1&_&Hu1&Ho1&Hn1).
  rewrite Hpush in Hrun. unfold push_event, sret in Hrun.
  destruct (journal_push _ _) as [seq j]. injection Hrun as <- <-.
  cbn [orphans network_time blocks known set_journals].
  split; [done|]. split; [done|]. left. split; [done|].
  destruct (child_work g (known c) _ tm (blocks c) _ bw (cc_known _ _ Hc) Htm (cc_tip _ _ Hc) Hbw)
    as (Hwf&Hw&_).
  destruct (core_push g c b m (set_journals j (disconnected_journal c1) c1)) as [Hext Hcore]; try done.
  - apply (core_height g c Hc).
  - simpl. by rewrite Happ.
  - simpl. rewrite Hu1. simpl. by rewrite <- apply_transactions_snd, Happ.
  - split_and!; [done|done|done|by exists m].
Qed.

Fixpoint linked (h : list byte) (bs : list Block) : Prop :=
  match bs with [] => True | b :: bs' => parent_of b = h ∧ linked (block_hash b) bs' end.

Lemma reconnect_all_spec g fp c r c' :
  chain_core g c → linked (tip_hash c) fp →
  Forall (λ b, block_hash b ≠ g ∧ ∃ m0, known c !! block_hash b = Some m0 ∧ bm_block m0 = b) fp →
  sfor fp reconnect_block c = (r, c') → r ≠ Panic →
  orphans c' = orphans c ∧ network_time c' = network_time c ∧
  known_ext (known c) (known c') ∧ known_ok g (known c') ∧
  (∀ h, h ∉ map block_hash fp → known c' !! h = known c !! h) ∧
  match r with
  | Ok _ => chain_core g c' ∧ blocks c' = blocks c ++ fp
  | _ => True
  end.
Proof.
  revert c. induction fp as [|b fp IH]; intros c Hc Hlk Hfp Hrun Hr; cbn [sfor] in Hrun.
  { injection Hrun as <- <-. rewrite (right_id_L [] (++)).
    split_and!; try done. apply Hc. }
  apply Forall_cons in Hfp as [[Hg Hm0] Hfp]. destruct Hlk as [Hp Hlk].
  apply sbind_inv in Hrun as [([]&c1&Hb&Hrest)|[(e&Hb&->)|[Hb ->]]]; [| |done].
  - destruct (reconnect_block_spec g b c _ _ Hc Hp Hg (or_intror Hm0) Hb ltac:(done))
      as (Ho&Hn&[(_&Hc1&Hb1&Hext&m&Hk1)|[[? ?] _]]); [|done].
    assert (tip_hash c1 = block_hash b) as Hth by by apply (tip_hash_spec _ (blocks c)).
    destruct (IH c1) as (Ho'&Hn'&Hext'&Hok'&Hsame&Hfin); try done.
    { by rewrite Hth. }
    { eapply Forall_impl; [apply Hfp|]. intros b' (Hg'&m0&Hm0'&Hb'). split; [done|].
      destruct (Hext _ _ Hm0') as (m'&?&?&_). exists m'. split; [done|congruence]. }
    split_and!; [congruence|congruence|by etrans|done| |].
    + intros h Hh. rewrite map_cons, not_elem_of_cons in Hh. destruct Hh as [Hhb Hh].
      rewrite (Hsame h Hh), Hk1. by rewrite lookup_insert_ne.
    + destruct r as [[]| |]; [|done|done]. destruct Hfin as [? Hb']. split; [done|].
      by rewrite Hb', Hb1, <- (assoc_L (++)).
  - destruct (reconnect_block_spec g b c _ _ Hc Hp Hg (or_intror Hm0) Hb ltac:(done))
      as (Ho&Hn&[(?&_)|[_ Hk]]); [done|].
    rewrite Hk. split_and!; try done. apply Hc.
Qed.

Lemma sfor_app {S E A} (l1 l2 : list A) (body : A → SM S E unit) s :
  sfor (l1 ++ l2) body s = sbind (sfor l1 body) (λ _, sfor l2 body) s.
Proof.
  revert s. induction l1 as [|x l1 IH]; intros s; [done|]. cbn [app sfor]. unfold sbind in *.
  destruct (body x s) as [[]?]; [|done..]. apply IH.
Qed.
Lemma linked_snoc h xs y :
  linked h xs → parent_of y = from_option block_hash h (last xs) → linked h (xs ++ [y]).
Proof.
  revert h. induction xs as [|x xs IH]; intros h Hl Hy; [by split|]. destruct Hl as [Hx Hl].
  split; [done|]. apply IH; [done|]. rewrite Hy. destruct xs as [|x' xs]; [done|].
  rewrite last_cons_cons. destruct (last (x' :: xs)) eqn:E; [done|by apply last_None in E].
Qed.

Definition indexed_block g (k : gmap (list byte) BlockMeta) b : Prop :=
  block_hash b ≠ g ∧ ∃ m0 : BlockMeta, k !! block_hash b = Some m0 ∧ bm_block m0 = b.

Lemma branch_linked g k h l i b :
  keyed k → branch g k h l → l !! i = Some b →
  linked (block_hash b) (drop (S i) l) ∧ Forall (indexed_block g k) (drop (S i) l).
Proof.
  intros Hk. induction 1 as [m Hm|h m l Hm Hne Hbr IH]; intros Hi.
  { destruct i as [|i]; [|done]. injection Hi as <-. by split. }
  destruct (decide (i < length l)%nat) as [Hlt|Hge].
  - rewrite lookup_app_l in Hi by done. rewrite drop_app_le by lia. destruct (IH Hi) as [Hl Hf].
    split.
    + apply linked_snoc; [done|]. destruct (branch_last _ _ _ _ Hk Hbr) as (l'&x&->&Hx&_).
      rewrite <- Hx. destruct (decide (i = length l')) as [->|Hne'].
      * rewrite drop_ge by (rewrite length_app; simpl; lia). simpl.
        rewrite list_lookup_middle in Hi by done. by injection Hi as ->.
      * rewrite length_app in Hlt. simpl in Hlt. rewrite drop_app_le by lia. by rewrite last_snoc.
    + apply Forall_app. split; [done|]. constructor; [|done]. unfold indexed_block.
      rewrite (Hk _ _ Hm). split; [done|by exists m].
  - rewrite drop_ge; [by split|]. apply lookup_lt_Some in Hi. rewrite length_app in *. simpl in *. lia.
Qed.

(** ** The whole reorganization *)

(** What a returning reorganization leaves. *)
Definition reorg_post g l b w (r : Result ChainError Z) (c c' : Chain) : Prop :=
  known_ext (known c) (known c') ∧ orphans c' = orphans c ∧ network_time c' = network_time c ∧
  (∀ h, h ≠ block_hash b → known c !! h = None → known c' !! h = None) ∧
  match r with
  | Ok _ => chain_core g c' ∧ blocks c' = l ++ [b] ∧ total_work c' = w
  | _ => chain_core g c' ∧ blocks c' = blocks c ∧ active_hashes c' = active_hashes c ∧
         total_work c' = total_work c ∧ utxo c' = utxo c ∧ known c' !! block_hash b = None
  end.

(** The first phase of [try_reorg_to_block]: the active chain is disconnected down to the
    fork point, block [i] of the branch. *)
Lemma disconnect_to_fork g c h l i f :
  chain_core g c → branch g (known c) h l → l !! i = Some f → block_hash f ∈ active_hashes c →
  Forall (λ b, block_hash b ∉ active_hashes c) (drop (S i) l) →
  ∃ c1 n, disconnect_until (S (length (blocks c))) (block_hash f) 0 c = (Ok n, c1) ∧
    chain_core g c1 ∧ blocks c1 = take (S i) l ∧ tip_hash c1 = block_hash f ∧
    known c1 = known c ∧ orphans c1 = orphans c ∧ network_time c1 = network_time c.
Proof.
  intros Hc Hbr Hi Ha Hna. pose proof (cc_known _ _ Hc) as [Hk _ _].
  destruct (fork_prefix g c _ _ _ _ Hc Hbr Hi Ha) as [post Hpost].
  destruct (disconnect_until_spec g (S (length (blocks c))) (take (S i) l) post (block_hash f) 0 c)
    as (c1&n&Hdis&Hb1&Hk1&Ho1&Hn1&Hc1); try done.
  { destruct l; [done|]. by destruct i. }
  { intros c0 Hc0. erewrite take_S_r in Hc0 by done. by apply (tip_hash_spec _ _ _ Hc0). }
  { pose proof (branch_NoDup _ _ _ _ Hk (cc_tip _ _ Hc)) as Hnd. rewrite Hpost in Hnd.
    erewrite take_S_r in Hnd by done. rewrite !map_app, NoDup_app in Hnd. destruct Hnd as (_&Hnd&_).
    intros Hin. apply (Hnd (block_hash f)); [|done]. simpl. set_solver. }
  { rewrite Hpost, length_app. lia. }
  exists c1, n. split_and!; try done. erewrite take_S_r in Hb1 by done. by apply (tip_hash_spec _ _ _ Hb1).
Qed.

Lemma fork_height g c l i f :
  chain_core g c → (∃ post, blocks c = take (S i) l ++ post) → l !! i = Some f →
  ∃ m : BlockMeta, known c !! block_hash f = Some m.
Proof.
  intros Hc [post Hpost] Hi. destruct (core_active_known g c f Hc) as (m&?&_); [|by exists m].
  rewrite Hpost. apply elem_of_app. left. apply (list_elem_of_lookup_2 _ i).
  rewrite lookup_take_lt by lia. done.
Qed.

Lemma core_not_genesis g c h : chain_core g c → known c !! h = None → h ≠ g.
Proof.
  intros Hc Hh ->. apply (genesis_active g c) in Hc as Hga. apply (core_active g c) in Hga as (x&Hx&Hxg); [|done].
  destruct (core_active_known g c x Hc Hx) as (m&Hm&_). congruence.
Qed.

(** Reconnecting the blocks of a branch changes the index at those blocks only. *)
Lemma reconnected_index g (k k2 : gmap (list byte) BlockMeta) (a : gset (list byte)) fp :
  Forall (indexed_block g k) fp → Forall (λ b, block_hash b ∉ a) fp →
  (∀ h, h ∉ map block_hash fp → k2 !! h = k !! h) →
  (∀ h, k !! h = None → k2 !! h = None) ∧ (∀ h, h ∈ a → k2 !! h = k !! h).
Proof.
  intros Hidx Hna Hsame. rewrite Forall_forall in Hidx, Hna. split.
  - intros h Hh. rewrite Hsame; [done|]. intros (x&->&Hx)%list_elem_of_fmap.
    destruct (Hidx x Hx) as (_&m0&?&_). congruence.
  - intros h Hh. apply Hsame. intros (x&->&Hx)%list_elem_of_fmap. by apply (Hna x).
Qed.

(** The last step: the new block on top of the reconnected branch. *)
Lemma reconnect_new_block g b c c2 l r3 c3 :
  chain_core g c → known c !! block_hash b = None → chain_core g c2 → blocks c2 = l →
  parent_of b = tip_hash c2 → known_ext (known c) (known c2) →
  (∀ h, known c !! h = None → known c2 !! h = None) →
  (∀ h, h ∈ active_hashes c → known c2 !! h = known c !! h) →
  reconnect_block b c2 = (r3, c3) → r3 ≠ Panic →
  known_ext (known c) (known c3) ∧ known_ok g (known c3) ∧ orphans c3 = orphans c2 ∧
  network_time c3 = network_time c2 ∧
  (∀ h, h ∈ active_hashes c → known c3 !! h = known c !! h) ∧
  (∀ h, h ≠ block_hash b → known c !! h = None → known c3 !! h = None) ∧
  match r3 with
  | Ok _ => chain_core g c3 ∧ blocks c3 = l ++ [b]
  | _ => known c3 !! block_hash b = None
  end.
Proof.
  intros Hc Hnew Hc2 Hb2 Ht2 Hext2 Hdom2 Hact2 H3 Hr3.
  destruct (reconnect_block_spec g b c2 r3 c3 Hc2) as (Ho3&Hn3&Hcase); try done.
  { by apply (core_not_genesis g c). } { left. by apply Hdom2. }
  destruct Hcase as [(->&Hc3&Hb3&Hext3&m&Hk3)|[[e ->] Hk3]].
  - split_and!; [by etrans|apply Hc3|done|done| | |done|congruence].
    + intros h Hh. rewrite Hk3, lookup_insert_ne; [by apply Hact2|]. intros <-.
      apply (core_active g c) in Hh as (x&Hx&Hxg); [|done].
      destruct (core_active_known g c x Hc Hx) as (?&?&_). congruence.
    + intros h Hne Hh. rewrite Hk3, lookup_insert_ne by done. by apply Hdom2.
  - rewrite Hk3. split_and!; auto. apply Hc2.
Qed.

(** The steps of [try_reorg_to_block], from the fork point. *)
Lemma try_reorg_spec g c l i f b w r c' :
  chain_core g c → branch g (known c) (parent_of b) l → known c !! block_hash b = None →
  l !! i = Some f → block_hash f ∈ active_hashes c →
  Forall (λ b, block_hash b ∉ active_hashes c) (drop (S i) l) →
  try_reorg_to_block (drop (S i) l ++ [b]) (block_hash f) w c = (r, c') → r ≠ Panic →
  known_ext (known c) (known c') ∧ known_ok g (known c') ∧
  orphans c' = orphans c ∧ network_time c' = network_time c ∧
  (∀ h, h ∈ active_hashes c → known c' !! h = known c !! h) ∧
  (∀ h, h ≠ block_hash b → known c !! h = None → known c' !! h = None) ∧
  match r with
  | Ok _ => chain_core g c' ∧ blocks c' = l ++ [b] ∧ total_work c' = w
  | _ => known c' !! block_hash b = None
  end.
Proof.
  intros Hc Hbr Hnew Hi Ha Hna Hrun Hr. pose proof (cc_known _ _ Hc) as [Hk _ _].
  destruct (branch_linked _ _ _ _ _ _ Hk Hbr Hi) as [Hlk Hidx].
  destruct (fork_height g c l i f Hc (fork_prefix g c _ _ _ _ Hc Hbr Hi Ha) Hi) as [fm Hfm].
  unfold try_reorg_to_block, sbind at 1 2, sget, slift, find_height in Hrun. rewrite Hfm in Hrun.
  cbn [fmap option_fmap option_map ok_or] in Hrun.
  destruct (disconnect_to_fork g c _ l i f Hc Hbr Hi Ha Hna) as (c1&n&Hdis&Hc1&Hb1&Ht1&Hk1&Ho1&Hn1).
  unfold sbind at 1 in Hrun. rewrite Hdis in Hrun.
  unfold sbind at 1 in Hrun. rewrite sfor_app in Hrun. unfold sbind at 1 in Hrun.
  destruct (sfor (drop (S i) l) reconnect_block c1) as [r2 c2] eqn:H2.
  assert (r2 ≠ Panic) as Hr2. { intros ->. by simplify_eq. }
  destruct (reconnect_all_spec g (drop (S i) l) c1 r2 c2) as (Ho2&Hn2&Hext2&Hok2&Hsame2&Hfin2);
    try done. { by rewrite Ht1. } { by rewrite Hk1. }
  rewrite Hk1 in Hext2, Hsame2. rewrite Ho1 in Ho2. rewrite Hn1 in Hn2.
  destruct (reconnected_index g _ _ _ _ Hidx Hna Hsame2) as [Hdom2 Hact2].
  destruct r2 as [[]|e|]; [|simplify_eq; by split_and!; auto|done].
  destruct Hfin2 as [Hc2 Hb2]. rewrite Hb1, take_drop in Hb2.
  assert (parent_of b = tip_hash c2) as Ht2.
  { destruct (branch_last _ _ _ _ Hk Hbr) as (l'&x&Hl'&Hx&_). rewrite Hl' in Hb2.
    by rewrite (tip_hash_spec _ _ _ Hb2). }
  cbn [sfor] in Hrun. unfold sbind at 1 in Hrun. destruct (reconnect_block b c2) as [r3 c3] eqn:H3.
  assert (r3 ≠ Panic) as Hr3. { intros ->. by simplify_eq. }
  destruct (reconnect_new_block g b c c2 l r3 c3) as (?&?&?&?&?&?&Hfin); try done.
  destruct r3 as [[]|e|]; [|simplify_eq; split_and!; auto; congruence|done].
  unfold sret, smodify, sbind in Hrun. injection Hrun as <- <-.
  cbn [known orphans network_time blocks total_work set_total_work set_active].
  destruct Hfin as [Hc3 Hb3]. split_and!; try done; try congruence. destruct Hc3. by split.
Qed.

Lemma reorg_to_block_spec g c l b w r c' :
  chain_core g c → branch g (known c) (parent_of b) l → known c !! block_hash b = None →
  reorg_to_block b w c = (r, c') → r ≠ Panic → reorg_post g l b w r c c'.
Proof.
  intros Hc Hbr Hnew Hrun Hr. pose proof (cc_known _ _ Hc) as [Hk _ _].
  destruct (collect_fork_spec g c (S (size (known c))) (parent_of b) l [b] b)
    as (i&f&Hi&Ha&Hna&Hcol); try done.
  { pose proof (branch_length _ _ _ _ Hk Hbr). lia. } { by apply genesis_active. }
  unfold reorg_to_block, collect_fork_path, sbind, sget, slift in Hrun. rewrite Hcol in Hrun.
  destruct (try_reorg_to_block _ _ _ c) as [r1 c1] eqn:Htry.
  assert (r1 ≠ Panic) as Hr1 by (intros ->; by simplify_eq).
  destruct (try_reorg_spec g c l i f b w r1 c1) as (Hext&Hok&Ho&Hn&Hact&Hdom&Hfin); try done.
  unfold reorg_post. destruct r1 as [d|e|]; [|..|done]; injection Hrun as <- <-;
    [destruct Hfin as (?&?&?); by split_and!|].
  cbn [known orphans network_time blocks active_hashes total_work utxo set_active].
  split_and!; try done. split; cbn [known blocks active_hashes utxo set_active].
  - done.
  - eapply branch_ext; [done|]. apply Hc.
  - apply Hc.
  - intros Hd. apply (utxo_good_same _ c); [|done..|].
    + apply (cc_utxo _ _ Hc). by eapply txids_distinct_ext.
    + intros x Hx. apply Hact. apply (core_active g c); [done|]. by exists x.
  - apply (utxo_good_same _ c); [apply Hc|done..|].
    intros x Hx. apply Hact. apply (core_active g c); [done|]. by exists x.
Qed.
End chain_reorg.
