(* ===== verification/ChainProps.v ===== *)
(** * Properties of the block chain (bitrst-core/src/chain.rs)

    The outcome of [connect_block] in every case, the invariant over calls, and the theorems
    about proof of work, the UTXO set, reorganizations, orphans and timestamps. *)

From stdpp Require Import prelude gmap strings list sorting.
From Stdlib Require Import Strings.Byte.
From S2P Require Import Prelude Bytes Crypto U256 Pow Difficulty Wire Transaction Merkle Block.
From S2P Require Import Utxo Script Sighash Journal Store Chain ChainTx ChainInv ChainReorg.

Local Open Scope Z_scope.

Section chain_props.
Context {crypto : CryptoLib} {order : HashOrder} {flags : BuildFlags}.
Implicit Types (g : list byte) (c : Chain) (b : Block).

(** The active part of the state, and everything but the orphan pool and the journals. *)
Definition same_active c c' : Prop :=
  blocks c' = blocks c ∧ active_hashes c' = active_hashes c ∧ total_work c' = total_work c ∧
  utxo c' = utxo c.

Lemma same_active_tip c c' : same_active c c' → tip_hash c' = tip_hash c.
Proof. intros (Hb&_). unfold tip_hash. by rewrite Hb. Qed.

(** ** Orphans *)

Lemma evict_oldest_orphan_spec c :
  0 < Z.of_nat (size (orphans c)) →
  ∃ c' h o, evict_oldest_orphan c = (Ok (), c') ∧
    orphans c !! h = Some o ∧ orphans c' = delete h (orphans c) ∧
    map_Forall (λ _ o', oe_received_at o ≤ oe_received_at o') (orphans c) ∧
    same_active c c' ∧ known c' = known c ∧ network_time c' = network_time c ∧
    orphan_receive_seq c' = orphan_receive_seq c.
Proof.
  intros Hs. unfold evict_oldest_orphan, sbind, sget, smodify, push_event, sret.
  destruct (min_by orphan_older (hm_iter (orphans c))) as [[h o]|] eqn:Hmin.
  - destruct (journal_push _ _) as [seq j]. eexists _, h, o. split; [done|].
    pose proof (min_by_elem _ _ _ Hmin) as Hin%elem_of_hm_iter. split_and!; try done.
    intros h' o' Ho'. apply (min_by_least _ (λ p, oe_received_at p.2)) in Hmin.
    + rewrite Forall_forall in Hmin. apply (Hmin (h', o')). by apply elem_of_hm_iter.
    + intros x y. unfold orphan_older. by rewrite Z.ltb_lt.
  - apply min_by_None in Hmin. apply hm_iter_nil in Hmin. rewrite Hmin, map_size_empty in Hs. lia.
Qed.

Definition pool_full c : bool := MAX_ORPHAN_BLOCKS <=? Z.of_nat (size (orphans c)).

Lemma insert_orphan_spec b c :
  orphans c !! block_hash b = None →
  ∃ c' seq kept, insert_orphan b c = (Ok (), c') ∧ same_active c c' ∧ known c' = known c ∧
    network_time c' = network_time c ∧ seq = u64_wrapping_add (orphan_receive_seq c) 1 ∧
    orphan_receive_seq c' = seq ∧
    orphans c' = <[block_hash b := {| oe_block := b; oe_received_at := seq |}]> kept ∧
    (if pool_full c
     then ∃ h o, orphans c !! h = Some o ∧ kept = delete h (orphans c) ∧
                 map_Forall (λ _ o', oe_received_at o ≤ oe_received_at o') (orphans c)
     else kept = orphans c).
Proof.
  intros Hnew. unfold insert_orphan, sbind at 1 2, sget. fold (pool_full c).
  destruct (pool_full c) eqn:Hfull.
  - destruct (evict_oldest_orphan_spec c) as (c1&h&o&->&Ho&Hdel&Hmin&Hsame&Hk&Hn&Hs).
    { unfold pool_full, MAX_ORPHAN_BLOCKS in Hfull. lia. }
    unfold sbind, smodify, push_event, sret. destruct (journal_push _ _) as [s j].
    eexists _, _, (delete h (orphans c)). split; [done|]. destruct Hsame as (?&?&?&?).
    split_and!; try done; simpl; [by rewrite Hs|by rewrite Hdel, Hs|eauto].
  - unfold sbind, smodify, push_event, sret. destruct (journal_push _ _) as [s j].
    eexists _, _, (orphans c). split; [done|]. by split_and!.
Qed.

Lemma orphans_ok_insert b c c' kept o :
  orphans_ok c → known c !! block_hash b = None → oe_block o = b →
  orphans c !! block_hash b = None →
  known c' = known c → orphans c' = <[block_hash b := o]> kept →
  (if pool_full c
   then ∃ h o, orphans c !! h = Some o ∧ kept = delete h (orphans c) ∧
               map_Forall (λ _ o', oe_received_at o ≤ oe_received_at o') (orphans c)
   else kept = orphans c) →
  orphans_ok c'.
Proof.
  intros [Hkey Hsize] Hkn Ho Hon Hk Hor Hkept.
  assert (∀ h o, kept !! h = Some o → orphans c !! h = Some o) as Hsub.
  { intros h o'. destruct (pool_full c); [|by subst].
    destruct Hkept as (h1&o1&_&->&_). by intros [_ ?]%lookup_delete_Some. }
  split.
  - intros h o'. rewrite Hor, Hk. intros [[<- <-]|[_ Hin]]%lookup_insert_Some.
    + by rewrite Ho.
    + by apply Hkey, Hsub.
  - rewrite Hor, map_size_insert_None.
    2:{ destruct (kept !! block_hash b) as [o'|] eqn:E; [|done]. apply Hsub in E. congruence. }
    unfold pool_full, MAX_ORPHAN_BLOCKS in *. destruct (Z.leb_spec 256 (Z.of_nat (size (orphans c)))).
    + destruct Hkept as (h&o1&Ho1&->&_). rewrite map_size_delete, Ho1. lia.
    + subst. lia.
Qed.

(** ** One call, without the orphans it releases *)

Definition connect_one (b : Block) : CM ConnectResult := connect_block_with (sret ()) b.

(** [connect_block_with after] is [connect_one], then [after] when the tip moved. *)
Lemma connect_block_with_split after b c :
  connect_block_with after b c =
  match connect_one b c with
  | (Ok (Connected h hash as r), c') | (Ok (Reorganized h hash as r), c') =>
      (do! after ;; sret r) c'
  | outcome => outcome
  end.
Proof.
  unfold connect_one, connect_block_with, sbind, sget, slift, smodify, sthrow, sret, push_event.
  destruct (validate_block_limits b); [|done..]. destruct (has_block_hash c (block_hash b)); [done|].
  destruct (known c !! prev_blockhash (header b)) as [pm|].
  2:{ by destruct (insert_orphan b c) as [[]?]. }
  destruct (validate_block_for_parent _ _ _ _ _); [|done..].
  destruct (block_work _) as [bw| |]; [|done..]. case_bool_decide.
  - destruct (apply_block_transactions b c) as [[]c1]; [|done..].
    destruct (push_active_block _ _ c1) as [[]c2]; [|done..].
    by destruct (journal_push _ _).
  - destruct (work_le _ _); [done|].
    destruct (reorg_to_block _ _ c) as [[]c1]; [|done..].
    by destruct (journal_push _ _).
Qed.

(** Only the block itself can enter the index. *)
Definition known_dom b c c' : Prop :=
  ∀ h, h ≠ block_hash b → known c !! h = None → known c' !! h = None.

(** What a returning [connect_one] leaves, per outcome. *)
Definition connect_post g b c (r : Result ChainError ConnectResult) c' : Prop :=
  match r with
  | Ok (Connected h hash) =>
      hash = block_hash b ∧ h = zlen (blocks c) mod 2 ^ 32 ∧ parent_of b = tip_hash c ∧
      blocks c' = blocks c ++ [b] ∧ utxo c' = utxo_after (utxo c) (transactions b) ∧
      orphans c' = orphans c
  | Ok (Orphaned hash) =>
      hash = block_hash b ∧ known c !! parent_of b = None ∧ same_active c c' ∧ known c' = known c ∧
      is_Some (orphans c' !! block_hash b)
  | Ok (SideChain h hash) =>
      hash = block_hash b ∧ same_active c c' ∧ orphans c' = orphans c ∧
      ∃ m, known c' = <[block_hash b := m]> (known c) ∧ bm_block m = b ∧ bm_height m = h ∧
           work_val (bm_work m) ≤ work_val (total_work c)
  | Ok (Reorganized old_tip new_tip) =>
      old_tip = tip_hash c ∧ new_tip = block_hash b ∧ parent_of b ≠ tip_hash c ∧
      tip_hash c' = block_hash b ∧ work_val (total_work c) < work_val (total_work c') ∧
      orphans c' = orphans c
  | _ => same_active c c' ∧ orphans c' = orphans c ∧
         (∀ h, known c !! h = None → known c' !! h = None)
  end.
Lemma chain_core_same g c c' :
  chain_core g c → same_active c c' → known c' = known c → chain_core g c'.
Proof.
  intros [Hk Ht Ha Hu Hbe] Hsame Hkn. pose proof (same_active_tip _ _ Hsame) as Htip.
  destruct Hsame as (Hb&Hah&Hw&Hux).
  split; [by rewrite Hkn|by rewrite Htip, Hb, Hkn|by rewrite Hah, Hb| |].
  - rewrite Hkn. intros Hd. apply (utxo_good_same _ c); rewrite ?Hkn; auto.
  - apply (utxo_good_same _ c); rewrite ?Hkn; auto.
Qed.

(** Replacing the index by a larger one. *)
Lemma chain_core_ext g c c' :
  chain_core g c → same_active c c' → known_ok g (known c') → known_ext (known c) (known c') →
  (∀ h, h ∈ active_hashes c → known c' !! h = known c !! h) → chain_core g c'.
Proof.
  intros Hc Hsame Hok Hext Hact. pose proof (same_active_tip _ _ Hsame) as Htip.
  destruct Hsame as (Hb&Hah&Hw&Hux). destruct Hc as [Hk Ht Ha Hu Hbe]. rewrite Ha in Hact.
  assert (∀ x, x ∈ blocks c → known c' !! block_hash x = known c !! block_hash x) as Hag.
  { intros x Hx. apply Hact. rewrite elem_of_list_to_set, list_elem_of_fmap. eauto. }
  split; [done| | | |].
  - rewrite Htip, Hb. by eapply branch_ext.
  - by rewrite Hah, Hb.
  - intros Hd. apply (utxo_good_same _ c); [|done..]. by eapply Hu, txids_distinct_ext.
  - by apply (utxo_good_same _ c).
Qed.

Lemma total_work_wf g c : chain_inv g c → work_wf (total_work c) ∧
  work_val (total_work c) = branch_work (blocks c) mod 2 ^ 256.
Proof.
  intros [Hc (m&Hm&->) _]. destruct (cc_known _ _ Hc) as [Hk Hmeta _].
  destruct (Hmeta _ _ Hm) as (l&Hl&_&Hwf&Hw). rewrite (Hk _ _ Hm) in Hl.
  by rewrite (branch_fun _ _ _ _ _ Hl (cc_tip _ _ Hc)) in Hw.
Qed.

Lemma ci_work_ext g c c' :
  chain_inv g c → same_active c c' → known_ext (known c) (known c') →
  ∃ m, known c' !! tip_hash c' = Some m ∧ total_work c' = bm_work m.
Proof.
  intros [_ (m&Hm&Hw) _] Hsame Hext. rewrite (same_active_tip _ _ Hsame).
  destruct (Hext _ _ Hm) as (m'&Hm'&_&_&Hw'). exists m'. split; [done|].
  destruct Hsame as (_&_&->&_). congruence.
Qed.

Lemma orphans_ok_grow c c' b :
  orphans_ok c → orphans c' = orphans c → orphans c !! block_hash b = None →
  (∀ h, h ≠ block_hash b → known c !! h = None → known c' !! h = None) → orphans_ok c'.
Proof.
  intros [Hkey Hsize] Ho Hb Hk. split; rewrite Ho; [|done].
  intros h o Hh. destruct (Hkey h o Hh) as [??]. split; [done|]. apply Hk; [|done]. congruence.
Qed.

Lemma branch_of_known g k h m : known_ok g k → k !! h = Some m → ∃ l, branch g k h l.
Proof. intros [Hk Hm _] Hh. destruct (Hm _ _ Hh) as (l&Hl&_). rewrite (Hk _ _ Hh) in Hl. eauto. Qed.

Lemma unknown_not_genesis g c h : chain_core g c → known c !! h = None → h ≠ g.
Proof.
  intros Hc Hh ->. pose proof (genesis_active g c Hc) as (x&Hx&Hxg)%(core_active g); [|done].
  destruct (core_active_known g c x Hc Hx) as (m&Hm&_). congruence.
Qed.

(** The three ways a block with an indexed parent ends. *)
Lemma connect_extend g b c pm bw c1 j :
  chain_inv g c → known c !! block_hash b = None → orphans c !! block_hash b = None →
  known c !! parent_of b = Some pm → block_work (hdr_bits (header b)) = Ok bw → block_sane b →
  parent_of b = tip_hash c → validate_block_transactions_for_utxo b (utxo c) = Ok () →
  let m := {| bm_block := b; bm_height := u32_wrapping_add (bm_height pm) 1;
              bm_work := work_add (bm_work pm) bw;
              bm_undo := (apply_transactions (utxo c) (transactions b)).1 |} in
  push_active_block b m (set_utxo (apply_transactions (utxo c) (transactions b)).2 c) = (Ok (), c1) →
  let c' := set_journals j (disconnected_journal c1) (set_total_work (bm_work m) c1) in
  chain_inv g c' ∧ known_ext (known c) (known c') ∧ network_time c' = network_time c ∧
  known_dom b c c' ∧ connect_post g b c (Ok (Connected (bm_height m) (block_hash b))) c'.
Proof.
  intros Hinv Hk Ho Hpm Hbw Hsane Hp Hval m Hpush c'. pose proof (ci_core _ _ Hinv) as Hc.
  destruct (push_active_block_spec b m (set_utxo (apply_transactions (utxo c) (transactions b)).2 c))
    as (c1'&Hpush'&Hb1&Ha1&Hk1&Hw1&Hu1&Ho1&Hn1).
  assert (c1' = c1) as -> by congruence. simpl in Hb1, Ha1, Hk1, Hw1, Hu1, Ho1, Hn1.
  destruct (child_work g (known c) _ pm (blocks c) (hdr_bits (header b)) bw (cc_known _ _ Hc) Hpm)
    as (Hwf&Hw&Hht);
    [rewrite Hp; apply Hc|done|].
  destruct (core_push g c b m c') as [Hext Hcore]; try done.
  { by eapply unknown_not_genesis. } { by left. }
  { simpl. by rewrite Hu1, apply_transactions_snd. }
  assert (tip_hash c' = block_hash b) as Ht by by apply (tip_hash_spec _ (blocks c)).
  assert (orphans_ok c') as Hoo.
  { eapply (orphans_ok_grow c c' b); [apply Hinv|done|done|]. intros h Hne Hh. simpl.
    by rewrite Hk1, lookup_insert_ne. }
  assert (chain_inv g c') as Hinv'.
  { split; [done| |done]. exists m. rewrite Ht. simpl. rewrite Hk1.
    by rewrite lookup_insert_eq. }
  assert (known_dom b c c') as Hdom.
  { intros h Hne Hh. simpl. by rewrite Hk1, lookup_insert_ne. }
  cbn [connect_post]. split_and!; try done. simpl. by rewrite Hu1, apply_transactions_snd.
Qed.

Lemma connect_side g b c pm bw :
  chain_inv g c → known c !! block_hash b = None → orphans c !! block_hash b = None →
  known c !! parent_of b = Some pm → block_work (hdr_bits (header b)) = Ok bw → block_sane b →
  work_le (work_add (bm_work pm) bw) (total_work c) = true →
  let m := {| bm_block := b; bm_height := u32_wrapping_add (bm_height pm) 1;
              bm_work := work_add (bm_work pm) bw; bm_undo := [] |} in
  let c' := set_known (<[block_hash b := m]> (known c)) c in
  chain_inv g c' ∧ known_ext (known c) (known c') ∧ network_time c' = network_time c ∧
  known_dom b c c' ∧ connect_post g b c (Ok (SideChain (bm_height m) (block_hash b))) c'.
Proof.
  intros Hinv Hk Ho Hpm Hbw Hsane Hle m c'. pose proof (ci_core _ _ Hinv) as Hc.
  pose proof (cc_known _ _ Hc) as Hok. destruct (branch_of_known _ _ _ _ Hok Hpm) as [l Hl].
  destruct (child_work g (known c) _ pm l _ bw Hok Hpm Hl Hbw) as (Hwf&Hw&Hht).
  destruct (total_work_wf g c Hinv) as [Htwf _].
  destruct (known_ok_insert g (known c) (block_hash b) m l) as [Hext Hok']; try done.
  { by eapply unknown_not_genesis. } { by left. }
  assert (same_active c c') as Hsame by by split_and!.
  assert (∀ h, h ≠ block_hash b → known c' !! h = known c !! h) as Hoth.
  { intros h Hne. simpl. by rewrite lookup_insert_ne. }
  assert (chain_core g c') as Hc'.
  { eapply chain_core_ext; try done. intros h Hh. apply Hoth. intros ->.
    apply (core_active g c) in Hh as (x&Hx&Hxg); [|done].
    destruct (core_active_known g c x Hc Hx) as (?&?&_). congruence. }
  assert (known_dom b c c') as Hdom by (intros h Hne Hh; by rewrite Hoth).
  split_and!; try done.
  - split; [done|by eapply ci_work_ext|]. by eapply (orphans_ok_grow c c' b); [apply Hinv|..].
  - cbn [connect_post]. split_and!; try done. exists m. split_and!; try done.
    rewrite work_le_spec in Hle by done. by apply Z.leb_le.
Qed.

Lemma connect_reorg g b c pm bw r c1 :
  chain_inv g c → known c !! block_hash b = None → orphans c !! block_hash b = None →
  known c !! parent_of b = Some pm → block_work (hdr_bits (header b)) = Ok bw →
  parent_of b ≠ tip_hash c → work_le (work_add (bm_work pm) bw) (total_work c) = false →
  reorg_to_block b (work_add (bm_work pm) bw) c = (r, c1) → r ≠ Panic →
  chain_inv g c1 ∧ known_ext (known c) (known c1) ∧ network_time c1 = network_time c ∧
  known_dom b c c1 ∧
  match r with
  | Ok _ => connect_post g b c (Ok (Reorganized (tip_hash c) (tip_hash c1))) c1
  | _ => connect_post g b c (Err MissingAncestor) c1
  end.
Proof.
  intros Hinv Hk Ho Hpm Hbw Hp Hle Hrun Hr. pose proof (ci_core _ _ Hinv) as Hc.
  pose proof (cc_known _ _ Hc) as Hok. destruct (branch_of_known _ _ _ _ Hok Hpm) as [l Hl].
  destruct (child_work g (known c) _ pm l _ bw Hok Hpm Hl Hbw) as (Hwf&Hw&Hht).
  destruct (total_work_wf g c Hinv) as [Htwf _]. rewrite work_le_spec in Hle by done.
  destruct (reorg_to_block_spec g c l b _ r c1 Hc Hl Hk Hrun Hr) as (Hext&Hor&Hn&Hdom&Hfin).
  assert (orphans_ok c1) as Hoo by by eapply (orphans_ok_grow c c1 b); [apply Hinv|..].
  destruct r as [d|e|]; [|clear Hr|done].
  - destruct Hfin as (Hc1&Hb1&Hw1). pose proof (tip_hash_spec _ _ _ Hb1) as Ht1.
    assert (chain_inv g c1) as Hinv1.
    { split; [done| |done]. destruct (core_known_tip g c1 Hc1) as (l1&b1&m1&_&_&Hm1&_).
      exists m1. split; [done|]. destruct (cc_known _ _ Hc1) as [Hk1 Hmeta1 _].
      destruct (Hmeta1 _ _ Hm1) as (l2&Hl2&_&Hwf2&Hw2). rewrite (Hk1 _ _ Hm1) in Hl2.
      pose proof (branch_fun _ _ _ _ _ Hl2 (cc_tip _ _ Hc1)) as ->.
      apply work_val_inj; [by rewrite Hw1|done|]. rewrite Hw1, Hw, Hw2, Hb1, branch_work_app.
      simpl. do 2 f_equal. unfold branch_work. simpl. lia. }
    cbn [connect_post]. split_and!; try done. rewrite Hw1. lia.
  - destruct Hfin as (Hc1&Hb1&Ha1&Hw1&Hu1&Hnb). assert (same_active c c1) as Hsame by by split_and!.
    cbn [connect_post].
    split_and!; try done; [split; [done|by eapply ci_work_ext|done]|].
    intros h Hh. destruct (decide (h = block_hash b)) as [->|]; [done|by apply Hdom].
Qed.

(** A block whose parent is not indexed waits in the pool. *)
Lemma connect_orphan g b c :
  chain_inv g c → known c !! block_hash b = None → known c !! parent_of b = None →
  orphans c !! block_hash b = None →
  ∃ c1, insert_orphan b c = (Ok (), c1) ∧ chain_inv g c1 ∧ known_ext (known c) (known c1) ∧
    network_time c1 = network_time c ∧ known_dom b c c1 ∧
    connect_post g b c (Ok (Orphaned (block_hash b))) c1.
Proof.
  intros Hinv Hb Hpm Ho. pose proof (ci_core _ _ Hinv) as Hc.
  destruct (insert_orphan_spec b c Ho) as (c1&seq&kept&Hins&Hsame&Hkn&Hn&Hs&_&Hor&Hkept).
  exists c1. split; [done|]. split_and!; [|by rewrite Hkn|done|by intros h _; rewrite Hkn|].
  - split; [by eapply chain_core_same| |].
    + eapply ci_work_ext; [done..|]. by rewrite Hkn.
    + by apply (orphans_ok_insert b c c1 kept {| oe_block := b; oe_received_at := seq |});
        [apply Hinv|..].
  - cbn [connect_post]. split_and!; try done. rewrite Hor, lookup_insert_eq. eauto.
Qed.

Lemma connect_one_spec g b c r c' :
  chain_inv g c → connect_one b c = (r, c') → r ≠ Panic →
  chain_inv g c' ∧ known_ext (known c) (known c') ∧ network_time c' = network_time c ∧
  known_dom b c c' ∧ connect_post g b c r c'.
Proof.
  intros Hinv Hrun Hr.
  assert (∀ e, chain_inv g c ∧ known_ext (known c) (known c) ∧ network_time c = network_time c ∧
    known_dom b c c ∧ connect_post g b c (Err e) c) as Herr.
  { intros e. split_and!; try done. by intros h _. }
  unfold connect_one, connect_block_with, sbind, sget, slift, sthrow in Hrun.
  destruct (validate_block_limits b); [|by simplify_eq..].
  destruct (has_block_hash c (block_hash b)) eqn:Hhas; [by simplify_eq|].
  apply orb_false_iff in Hhas as [Hk%bool_decide_eq_false Ho%bool_decide_eq_false].
  apply eq_None_not_Some in Hk, Ho. fold (parent_of b) in Hrun.
  destruct (known c !! parent_of b) as [pm|] eqn:Hpm.
  2:{ destruct (connect_orphan g b c) as (c1&Hins&?); try done.
      rewrite Hins in Hrun. unfold sret in Hrun. by injection Hrun as <- <-. }
  destruct (validate_block_for_parent _ _ _ _ _) as [[]| |] eqn:Hval; [|by simplify_eq..].
  apply rbind_Ok in Hval as ([]&(Hsane&_&_)%validate_header_Ok&Hval).
  destruct (block_work (hdr_bits (header b))) as [bw|e|] eqn:Hbw; [|by simplify_eq..].
  case_bool_decide as Hp.
  - unfold apply_block_transactions in Hrun.
    destruct (apply_transactions (utxo c) (transactions b)) as [undos u] eqn:Happ.
    destruct (push_active_block _ _ _) as [r1 c1] eqn:Hpush.
    assert (r1 = Ok ()) as ->.
    { destruct (push_active_block_spec b {| bm_block := b;
        bm_height := u32_wrapping_add (bm_height pm) 1; bm_work := work_add (bm_work pm) bw;
        bm_undo := undos |} (set_utxo u c)) as (?&?&_). congruence. }
    unfold smodify, push_event, sret in Hrun. destruct (journal_push _ _) as [s j].
    injection Hrun as <- <-.
    apply (connect_extend g b c pm bw c1 j); try done. by rewrite Happ.
  - destruct (work_le _ _) eqn:Hle.
    + unfold smodify, sret in Hrun. injection Hrun as <- <-. by apply (connect_side g b c pm bw).
    + destruct (reorg_to_block _ _ c) as [r1 c1] eqn:Hre.
      assert (r1 ≠ Panic) as Hr1 by (intros ->; by simplify_eq).
      destruct (connect_reorg g b c pm bw r1 c1) as (Hi1&Hx1&Hn1&Hd1&Hpost); try done.
      destruct r1 as [d|e|]; [|by simplify_eq|done].
      unfold push_event, sret in Hrun. destruct (journal_push _ _) as [s j].
      injection Hrun as <- <-. split_and!; [|done|done|done|done].
      destruct Hi1 as [Hc1 Hw1 Ho1]. split; [|done|by destruct Ho1].
      by apply (chain_core_same g c1).
Qed.
(** ** Releasing orphans *)

Lemma ready_fold_spec (ready : list (list byte)) (queue : list Block) (o : gmap (list byte) OrphanEntry) :
  NoDup ready → Forall (λ h, is_Some (o !! h)) ready →
  ∃ new o', foldl (λ '(queue, o) hash, match o !! hash with
      | Some entry => (queue ++ [oe_block entry], delete hash o)
      | None => (queue, o) end) (queue, o) ready = (queue ++ new, o') ∧
    o' ⊆ o ∧ (length new + size o' = size o)%nat ∧
    Forall (λ b, ∃ h e, h ∈ ready ∧ o !! h = Some e ∧ oe_block e = b) new.
Proof.
  revert queue o. induction ready as [|h ready IH]; intros queue o Hnd Hr; cbn [foldl].
  { exists [], o. rewrite (right_id_L [] (++)). by split_and!. }
  apply NoDup_cons in Hnd as [Hni Hnd]. apply Forall_cons in Hr as [[e He] Hr]. rewrite He.
  destruct (IH (queue ++ [oe_block e]) (delete h o)) as (new&o'&Hfold&Hsub&Hsize&Hnew); [done| |].
  { rewrite Forall_forall in Hr. apply Forall_forall. intros x Hx.
    rewrite lookup_delete_ne; [by apply Hr|]. by intros ->. }
  exists (oe_block e :: new), o'. rewrite Hfold, <- (assoc_L (++)). split_and!; [done| | |].
  - etrans; [apply Hsub|apply delete_subseteq].
  - rewrite map_size_delete, He in Hsize. simpl.
    assert (size o ≠ 0%nat) by (rewrite map_size_non_empty_iff; intros ->; by rewrite lookup_empty in He).
    lia.
  - constructor.
    + exists h, e. split_and!; [apply elem_of_cons; by left|done|done].
    + eapply Forall_impl; [apply Hnew|]. intros b (h'&e'&Hin&He'&Hb).
      apply lookup_delete_Some in He' as [_ He']. exists h', e'.
      split_and!; [apply elem_of_cons; by right|done|done].
Qed.

Definition parent_known c b : Prop := is_Some (known c !! parent_of b).
(** The block waits in the orphan pool. *)
Definition from_pool c b : Prop := ∃ h o, orphans c !! h = Some o ∧ oe_block o = b.

Lemma enqueue_spec c queue :
  ∃ new c', enqueue_ready_orphans queue c = (Ok (queue ++ new), c') ∧
    same_active c c' ∧ known c' = known c ∧ network_time c' = network_time c ∧
    orphans c' ⊆ orphans c ∧ (length new + size (orphans c') = size (orphans c))%nat ∧
    Forall (λ b, parent_known c b ∧ from_pool c b) new.
Proof.
  unfold enqueue_ready_orphans. set (ready := map fst _).
  assert (∀ h, h ∈ ready → ∃ e, orphans c !! h = Some e ∧ parent_known c (oe_block e)) as Hready.
  { intros h ([h' e]&->&Hin)%list_elem_of_fmap. apply list_elem_of_filter in Hin as [Hp Hin].
    apply elem_of_hm_iter in Hin. by exists e. }
  destruct (ready_fold_spec ready queue (orphans c)) as (new&o'&Hfold&Hsub&Hsize&Hnew).
  { eapply sublist_NoDup; [apply (hm_iter_NoDup (orphans c))|].
    apply (fmap_sublist fst), sublist_filter. }
  { apply Forall_forall. intros h Hh. destruct (Hready h Hh) as (e&He&_). eauto. }
  rewrite Hfold. exists new, (set_orphans o' (orphan_receive_seq c) c). split_and!; try done.
  eapply Forall_impl; [apply Hnew|]. intros b (h&e&Hin&He&<-).
  destruct (Hready h Hin) as (e'&He'&Hp). assert (e' = e) as -> by congruence.
  split; [done|]. by exists h, e.
Qed.
(** ** Progress of a chain over calls *)

(** No branch accumulates 2^256 of work. *)
Definition works_fit g (k : gmap (list byte) BlockMeta) : Prop :=
  ∀ h l, branch g k h l → branch_work l < 2 ^ 256.

Record advances g c c' : Prop := {
  adv_known : known_ext (known c) (known c');
  adv_time : network_time c' = network_time c;
  adv_work : works_fit g (known c') → work_val (total_work c) ≤ work_val (total_work c')
}.

Lemma works_fit_ext g k k' : known_ext k k' → works_fit g k' → works_fit g k.
Proof. intros Hext Hf h l Hb. eapply Hf, branch_ext; done. Qed.

(** The active tip has the most work of all indexed blocks. *)
Definition best_work g c : Prop :=
  works_fit g (known c) →
  map_Forall (λ _ m, work_val (bm_work m) ≤ work_val (total_work c)) (known c).
Definition chain_good g c : Prop := chain_inv g c ∧ best_work g c.

#[local] Instance advances_preorder g : PreOrder (advances g).
Proof.
  split; [intros c; by split|]. intros c1 c2 c3 [H1 H2 H3] [H4 H5 H6].
  split; [by etrans|congruence|]. intros Hf. etrans; [|by apply H6].
  apply H3. by eapply works_fit_ext.
Qed.

Lemma total_work_fit g c :
  chain_inv g c → works_fit g (known c) → work_val (total_work c) = branch_work (blocks c).
Proof.
  intros Hinv Hf. destruct (total_work_wf g c Hinv) as [_ ->]. apply Z.mod_small.
  split; [apply branch_work_nonneg|]. eapply Hf, (cc_tip g c), Hinv.
Qed.

Lemma best_work_step g b c r c' :
  chain_inv g c' → best_work g c → known_ext (known c) (known c') → known_dom b c c' →
  connect_post g b c r c' → r ≠ Panic →
  (works_fit g (known c') → work_val (total_work c) ≤ work_val (total_work c')) →
  best_work g c'.
Proof.
  intros Hinv' Hbest Hext Hdom Hpost Hr Hmono Hf h m' Hm'. specialize (Hmono Hf).
  specialize (Hbest (works_fit_ext _ _ _ Hext Hf)).
  destruct (known c !! h) as [m|] eqn:Hm.
  { destruct (Hext _ _ Hm) as (m1&Hm1&_&_&Hw). assert (m1 = m') as -> by congruence.
    rewrite Hw. specialize (Hbest h m Hm). simpl in Hbest. lia. }
  destruct (decide (h = block_hash b)) as [->|Hne]; [|by rewrite Hdom in Hm'].
  assert (tip_hash c' = block_hash b → work_val (bm_work m') ≤ work_val (total_work c')) as Htip.
  { intros Ht. destruct (ci_work _ _ Hinv') as (mt&Hmt&->). rewrite Ht in Hmt.
    by assert (mt = m') as -> by congruence. }
  destruct r as [[x y|x|o n|x y]|e|]; cbn [connect_post] in Hpost; [| | | | |done].
  - destruct Hpost as (_&_&_&Hb&_&_). by apply Htip, (tip_hash_spec _ (blocks c)).
  - destruct Hpost as (_&_&_&Hk&_). congruence.
  - apply Htip, Hpost.
  - destruct Hpost as (_&(_&_&->&_)&_&m&Hk&_&_&Hw). rewrite Hk, lookup_insert_eq in Hm'.
    by injection Hm' as <-.
  - destruct Hpost as (_&_&Hk). by rewrite Hk in Hm'.
Qed.

Lemma connect_one_advances g b c r c' :
  chain_good g c → connect_one b c = (r, c') → r ≠ Panic → chain_good g c' ∧ advances g c c'.
Proof.
  intros [Hinv Hbest] Hrun Hr.
  destruct (connect_one_spec g b c r c' Hinv Hrun Hr) as (Hinv'&Hext&Hn&Hdom&Hpost).
  assert (works_fit g (known c') → work_val (total_work c) ≤ work_val (total_work c')) as Hmono;
    [|split; [|by split]; split; [done|by eapply best_work_step]].
  intros Hf.
  assert (same_active c c' → work_val (total_work c) ≤ work_val (total_work c')) as Hs.
  { intros (_&_&->&_). done. }
  destruct r as [[h x|x|o n|h x]|e|]; cbn [connect_post] in Hpost;
    try (apply Hs, Hpost); [|lia].
  destruct Hpost as (_&_&_&Hb&_&_).
  rewrite (total_work_fit g c' Hinv' Hf), (total_work_fit g c Hinv), Hb, branch_work_app.
  - pose proof (branch_work_nonneg [b]). lia.
  - by eapply works_fit_ext.
Qed.

Lemma enqueue_advances g c queue queue' c' :
  chain_good g c → enqueue_ready_orphans queue c = (Ok queue', c') →
  chain_good g c' ∧ advances g c c'.
Proof.
  intros [Hinv Hbest] Hrun. destruct (enqueue_spec c queue) as (new&c1&Hrun1&Hsame&Hk&Hn&Hsub&Hsize&_).
  assert (c1 = c') as -> by congruence. pose proof (ci_core _ _ Hinv) as Hc. split.
  - split; [split; [by eapply chain_core_same|eapply ci_work_ext; [done..|by rewrite Hk]|]|].
    + destruct (ci_orphans _ _ Hinv) as [Hkey Hs]. split.
      * intros h o Ho. rewrite Hk. apply Hkey. by eapply lookup_weaken.
      * apply map_subseteq_size in Hsub. lia.
    + unfold best_work. rewrite Hk. destruct Hsame as (_&_&->&_). done.
  - split; [by rewrite Hk|done|]. destruct Hsame as (_&_&->&_). done.
Qed.

Lemma enqueue_total c queue : ∃ queue' c', enqueue_ready_orphans queue c = (Ok queue', c').
Proof. destruct (enqueue_spec c queue) as (new&c'&?&_). eauto. Qed.

Lemma process_queue_advances g fuel queue c r c' :
  chain_good g c → process_queue fuel queue c = (r, c') → r ≠ Panic →
  chain_good g c' ∧ advances g c c'.
Proof.
  revert queue c. induction fuel as [|fuel IH]; intros [|b queue] c Hinv Hrun Hr;
    cbn [process_queue] in Hrun; try (injection Hrun as <- <-; by split).
  apply sbind_inv in Hrun as [(res&c1&H1&Hrun)|[(e&H1&->)|[_ ->]]]; [| |done].
  2:{ by eapply connect_one_advances in H1. }
  apply connect_one_advances with (g := g) in H1 as [Hinv1 Hadv1]; [|done|done].
  destruct (enqueue_total c1 queue) as (queue'&c2&H2). unfold sbind in Hrun. rewrite H2 in Hrun.
  apply (enqueue_advances g) in H2 as [Hinv2 Hadv2]; [|done].
  destruct (IH queue' c2 Hinv2 Hrun Hr) as [? Hadv3]. split; [done|]. by etrans; [etrans|].
Qed.

Lemma process_orphans_advances g c r c' :
  chain_good g c → process_orphans c = (r, c') → r ≠ Panic → chain_good g c' ∧ advances g c c'.
Proof.
  intros Hinv Hrun Hr. unfold process_orphans, sbind, sget in Hrun.
  destruct (enqueue_total c []) as (queue&c1&H1). rewrite H1 in Hrun.
  apply (enqueue_advances g) in H1 as [Hinv1 Hadv1]; [|done].
  destruct (process_queue_advances g _ _ _ _ _ Hinv1 Hrun Hr). split; [done|by etrans].
Qed.

Lemma connect_inner_advances g b flag c r c' :
  chain_good g c → connect_block_inner b flag c = (r, c') → r ≠ Panic →
  chain_good g c' ∧ advances g c c'.
Proof.
  intros Hinv Hrun Hr. unfold connect_block_inner in Hrun. rewrite connect_block_with_split in Hrun.
  destruct (connect_one b c) as [r1 c1] eqn:H1.
  assert (r1 ≠ Panic) as Hr1 by (intros ->; by simplify_eq).
  destruct (connect_one_advances g b c r1 c1 Hinv H1 Hr1) as [Hinv1 Hadv1].
  assert (∀ res, (do! (if flag then process_orphans else sret ()) ;; sret res) c1 = (r, c') →
    chain_good g c' ∧ advances g c c') as Hafter.
  { intros res Hrun'. apply sbind_inv in Hrun' as [([]&c2&H2&[= <- <-])|[(e&H2&->)|[_ ->]]]; [| |done].
    - destruct flag; [|by injection H2 as <-].
      destruct (process_orphans_advances g c1 _ _ Hinv1 H2) as [??]; [done|]. split; [done|by etrans].
    - destruct flag; [|done].
      destruct (process_orphans_advances g c1 _ _ Hinv1 H2) as [??]; [done|]. split; [done|by etrans]. }
  destruct r1 as [[h x|x|o n|h x]|e|];
    [by apply (Hafter (Connected h x))|by simplify_eq|by apply (Hafter (Reorganized o n))|
     by simplify_eq|by simplify_eq|done].
Qed.

(** ** Enough fuel for the orphan queue *)

Lemma connect_one_orphans g b c r c' :
  chain_good g c → parent_known c b → connect_one b c = (r, c') → r ≠ Panic →
  orphans c' = orphans c.
Proof.
  intros [Hinv _] Hp Hrun Hr. destruct (connect_one_spec g b c r c' Hinv Hrun Hr) as (_&_&_&_&Hpost).
  destruct r as [[h x|x|o n|h x]|e|]; cbn [connect_post] in Hpost; try tauto.
  destruct Hpost as (_&Hn&_). unfold parent_known in Hp. rewrite Hn in Hp. by destruct Hp.
Qed.

Lemma parent_known_ext c c' b : known_ext (known c) (known c') → parent_known c b → parent_known c' b.
Proof. intros Hext [m Hm]. destruct (Hext _ _ Hm) as (m'&?&_). by exists m'. Qed.

Lemma process_queue_fuel g n fuel queue c :
  chain_good g c → Forall (parent_known c) queue →
  (length queue + size (orphans c) ≤ fuel)%nat →
  process_queue (fuel + n) queue c = process_queue fuel queue c.
Proof.
  revert queue c. induction fuel as [|fuel IH]; intros [|b queue] c Hinv Hq Hf; cbn [process_queue];
    try done.
  { by destruct n. } { simpl in Hf. lia. }
  apply Forall_cons in Hq as [Hb Hq]. cbn [process_queue Nat.add]. unfold sbind, connect_one in *.
  destruct (connect_block_with (sret ()) b c) as [[res|e|] c1] eqn:H1; [|done..].
  pose proof (connect_one_orphans g b c _ _ Hinv Hb H1 ltac:(done)) as Ho.
  destruct (connect_one_advances g b c _ _ Hinv H1 ltac:(done)) as [Hinv1 Hadv1].
  destruct (enqueue_spec c1 queue) as (new&c2&H2&Hsame&Hk&_&_&Hsize&Hnew).
  rewrite H2. destruct (enqueue_advances g c1 queue _ c2 Hinv1 H2) as [Hinv2 Hadv2].
  apply IH; [done| |].
  - apply Forall_app. split.
    + eapply Forall_impl; [apply Hq|]. intros x. apply parent_known_ext.
      etrans; [apply Hadv1|apply Hadv2].
    + eapply Forall_impl; [apply Hnew|]. intros x [Hx _]. eapply parent_known_ext, Hx. apply Hadv2.
  - rewrite length_app. simpl in Hf. rewrite Ho in Hsize. lia.
Qed.

(** ** Where a call fails *)

(** Blocks that a call connects one after the other, starting from [c], with the releases
    of orphans between them. *)
Inductive connect_run c : list Block → Chain → Prop :=
| run_start : connect_run c [] c
| run_connect bs c1 b res c2 :
    connect_run c bs c1 → connect_block_inner b false c1 = (Ok res, c2) →
    connect_run c (bs ++ [b]) c2
| run_release bs c1 queue queue' c2 :
    connect_run c bs c1 → enqueue_ready_orphans queue c1 = (Ok queue', c2) →
    connect_run c bs c2.

(** A block [x] that fails after the connection of [bs]; those after the first come from the
    orphan pool of [c]. *)
Definition fails_at c e c' bs x c1 : Prop :=
  connect_run c bs c1 ∧ connect_block_inner x false c1 = (Err e, c').

Lemma process_queue_fails g c0 fuel queue bs c e c' :
  chain_good g c → connect_run c0 bs c → orphans c ⊆ orphans c0 →
  Forall (λ b, parent_known c b ∧ from_pool c0 b) queue →
  process_queue fuel queue c = (Err e, c') →
  ∃ ys x c1, fails_at c0 e c' (bs ++ ys) x c1 ∧ chain_good g c1 ∧ Forall (from_pool c0) (ys ++ [x]).
Proof.
  revert queue bs c. induction fuel as [|fuel IH]; intros [|b queue] bs c Hg Hrun Hsub Hq Hpq;
    cbn [process_queue] in Hpq; try done.
  apply Forall_cons in Hq as [[Hpar Hpool] Hq].
  apply sbind_inv in Hpq as [(res&c1&H1&Hpq)|[(e'&H1&[= <-])|[_ [=]]]].
  2:{ exists [], b, c. rewrite (right_id_L [] (++)). by split_and!; [split|..|constructor]. }
  pose proof (connect_one_orphans g b c _ _ Hg Hpar H1 ltac:(done)) as Ho.
  destruct (connect_one_advances g b c _ _ Hg H1 ltac:(done)) as [Hg1 Hadv1].
  destruct (enqueue_spec c1 queue) as (new&c2&H2&_&Hk&_&Hsub2&_&Hnew).
  unfold sbind in Hpq. rewrite H2 in Hpq.
  destruct (enqueue_advances g c1 queue _ c2 Hg1 H2) as [Hg2 _].
  destruct (IH (queue ++ new) (bs ++ [b]) c2) as (ys&x&c3&Hfail&Hg3&Hall); [done| | | |done|].
  - eapply run_release; [|exact H2]. by eapply run_connect.
  - by rewrite Hsub2, Ho.
  - apply Forall_app. split; (eapply Forall_impl; [eassumption|]); intros x [Hx Hp]; (split; [|]).
    + unfold parent_known. rewrite Hk. eapply parent_known_ext, Hx. apply Hadv1.
    + done.
    + unfold parent_known. by rewrite Hk.
    + destruct Hp as (h&o&Ho'&<-). exists h, o. split; [|done]. eapply lookup_weaken; [exact Ho'|].
      by rewrite Ho.
  - exists (b :: ys), x, c3. rewrite <- (assoc_L (++)) in Hfail. split_and!; [done|done|].
    by constructor.
Qed.

(** A failing public call either fails on its block, from the state it was called in, or
    connects it and fails on an orphan that it has released. *)
Lemma connect_block_fails g b c e c' :
  chain_good g c → connect_block b c = (Err e, c') →
  ∃ bs x c1, fails_at c e c' bs x c1 ∧ chain_good g c1 ∧
    ((bs = [] ∧ x = b ∧ c1 = c) ∨
     (∃ ys, bs = b :: ys ∧ Forall (from_pool c) (ys ++ [x]))).
Proof.
  intros Hg Hrun. unfold connect_block, connect_block_inner in Hrun.
  rewrite connect_block_with_split in Hrun.
  destruct (connect_one b c) as [r1 c1] eqn:H1.
  assert (r1 = Err e ∧ c' = c1 ∨ orphans c1 ⊆ orphans c ∧ (∃ res, r1 = Ok res) ∧
    process_orphans c1 = (Err e, c')) as [[-> ->]|(Hsub&[res ->]&Hpo)].
  { destruct r1 as [[h x|x|o n|h x]|e1|]; try (left; by simplify_eq).
    all: right; apply sbind_inv in Hrun as [([]&c2&H2&[=])|[(e2&H2&[= <-])|[_ [=]]]].
    all: destruct (connect_one_spec g b c _ _ (proj1 Hg) H1 ltac:(done)) as (_&_&_&_&Hpost);
      cbn [connect_post] in Hpost; assert (orphans c1 = orphans c) as -> by tauto.
    all: split_and!; [done|eauto|done]. }
  { exists [], b, c. split_and!; [split; [constructor|exact H1]|done|by left]. }
  destruct (connect_one_advances g b c _ _ Hg H1 ltac:(done)) as [Hg1 _].
  unfold process_orphans, sbind, sget in Hpo.
  destruct (enqueue_spec c1 []) as (new&c2&H2&_&Hk&_&Hsub2&_&Hnew). rewrite H2 in Hpo.
  destruct (enqueue_advances g c1 [] _ c2 Hg1 H2) as [Hg2 _].
  destruct (process_queue_fails g c (size (orphans c1)) new [b] c2 e c' Hg2) as (ys&x&c3&Hfail&Hg3&Hall); [| | |exact Hpo|].
  - eapply run_release, H2. apply (run_connect c [] c b res c1); [constructor|exact H1].
  - by etrans.
  - eapply Forall_impl; [apply Hnew|]. intros y [Hy (h&o&Ho&<-)]. split.
    + unfold parent_known. by rewrite Hk.
    + exists h, o. split; [|done]. by eapply lookup_weaken.
  - exists (b :: ys), x, c3. split_and!; [done|done|]. right. by exists ys.
Qed.
End chain_props.
