(* ===== verification/ChainTheorems.v ===== *)
(** * Theorems about the block chain (bitrst-core/src/chain.rs)

    The invariant over all calls, and what it means for the user of a chain: the UTXO set is
    the replay of the active chain, value is conserved, the tip has the most work, failed
    calls change nothing active, the orphan pool is bounded, timestamps follow the median
    rule.  The last section runs the model on concrete chains. *)

From stdpp Require Import prelude gmap strings list sorting.
From Stdlib Require Import Strings.Byte.
From S2P Require Import Prelude Bytes Crypto U256 Pow Difficulty Wire Transaction Merkle Block.
From S2P Require Import Utxo Script Sighash Journal Store Chain ChainTx ChainInv ChainReorg.
From S2P Require Import ChainProps.

Local Open Scope Z_scope.

Section chain_theorems.
Context {crypto : CryptoLib} {order : HashOrder} {flags : BuildFlags}.
Implicit Types (g : list byte) (c : Chain) (b : Block).

(** ** The genesis block *)

Lemma genesis_good gen now cap c :
  with_journal_capacities gen now cap = Ok c → chain_good (block_hash gen) c.
Proof.
  unfold with_journal_capacities. destruct (now =? 0); [done|]. cbv zeta. intros H.
  apply rbind_Ok in H as ([]&_&H). apply rbind_Ok in H as ([]&Hval&H).
  apply rbind_Ok in Hval as ([]&(Hsane&_&_)%validate_header_Ok&Hval). cbn [utxo] in Hval, H.
  unfold new_utxo_set in Hval, H.
  destruct (apply_transactions ∅ (transactions gen)) as [undo u] eqn:Happ.
  apply rbind_Ok in H as (w&Hw&H). cbn -[block_hash] in H.
  destruct (block_work_spec _ _ Hw) as [Hwf _].
  set (m := {| bm_block := gen; bm_height := 0; bm_work := w; bm_undo := undo |}) in H.
  set (k := <[block_hash gen := m]> ∅ : gmap (list byte) BlockMeta) in H.
  assert (branch (block_hash gen) k (block_hash gen) [gen]) as Hbr.
  { apply (branch_root _ _ m). unfold k. by rewrite lookup_insert_eq. }
  injection H as <-. unfold set_journals, push_event.
  assert (map_Forall (λ h m', h = block_hash gen ∧ m' = m) k) as Hk.
  { intros h m'. unfold k. rewrite lookup_insert_Some, lookup_empty. by intros [[<- <-]|[_ [=]]]. }
  assert (u = utxo_after ∅ (transactions gen)) as -> by by rewrite <- apply_transactions_snd, Happ.
  assert (∀ (R : relation UtxoSet) c', Reflexive R → known c' = k → blocks c' = [gen] →
    utxo c' = utxo_after ∅ (transactions gen) → utxo_good R c') as Hgood.
  { intros R c' HR Hkn Hb Hu. unfold utxo_good. rewrite Hkn, Hb, Hu. split.
    - unfold chain_txs. simpl. by rewrite (right_id_L [] (++)).
    - apply (undo_ok_snoc _ _ [] gen m ∅); [apply undo_ok_nil| |done|done|by rewrite Happ].
      unfold k. by rewrite lookup_insert_eq. }
  split; [split; [split|..]|]; cbn [known blocks active_hashes utxo total_work orphans set_active].
  - split.
    + by intros h m' [-> ->]%Hk.
    + intros h m' [-> ->]%Hk. exists [gen]. split_and!; [done|done|done|].
      unfold branch_work, bits_work. simpl. rewrite Hw, Z.add_0_r. symmetry. apply Z.mod_small.
      by apply work_val_bound.
    + by intros h m' [-> ->]%Hk.
  - done.
  - simpl. by rewrite (right_id_L ∅ (∪)).
  - intros _. apply Hgood; [typeclasses eauto|done..].
  - apply Hgood; [typeclasses eauto|done..].
  - exists m. split; [|done]. unfold k. apply lookup_insert_eq.
  - split.
    + intros h o Ho. change ((∅ : gmap (list byte) OrphanEntry) !! h = Some o) in Ho.
      by rewrite lookup_empty in Ho.
    + change (Z.of_nat (size (∅ : gmap (list byte) OrphanEntry)) ≤ MAX_ORPHAN_BLOCKS).
      by rewrite map_size_empty.
  - intros _ h m' [-> ->]%Hk. done.
Qed.

(** ** Chains reachable by calls *)

(** [connect_block], [set_network_time] and [take_events] are the public mutators; a call
    that panics poisons the lock and ends the history. *)
Inductive reachable (gen : Block) : Chain → Prop :=
| reach_genesis now cap c : with_journal_capacities gen now cap = Ok c → reachable gen c
| reach_connect b c r c' :
    reachable gen c → connect_block b c = (r, c') → r ≠ Panic → reachable gen c'
| reach_time t c r c' : reachable gen c → set_network_time t c = (r, c') → reachable gen c'
| reach_take c r c' : reachable gen c → chain_take_events c = (r, c') → reachable gen c'.

Lemma chain_good_same g c c' :
  chain_good g c → same_active c c' → known c' = known c → orphans c' = orphans c →
  chain_good g c'.
Proof.
  intros [[Hc Hw [Hk Hs]] Hb] Hsame Hkn Ho. split; [split|].
  - by eapply chain_core_same.
  - rewrite (same_active_tip _ _ Hsame), Hkn. by destruct Hsame as (_&_&->&_).
  - split; by rewrite ?Ho, ?Hkn.
  - unfold best_work. rewrite Hkn. by destruct Hsame as (_&_&->&_).
Qed.

Lemma reachable_good gen c : reachable gen c → chain_good (block_hash gen) c.
Proof.
  induction 1 as [now cap c Hg|b c r c' _ IH Hrun Hr|t c r c' _ IH Hrun|c r c' _ IH Hrun].
  - by eapply genesis_good.
  - by eapply connect_inner_advances.
  - unfold set_network_time, smodify, sthrow in Hrun. case_if; injection Hrun as <- <-; [done|].
    by eapply chain_good_same.
  - unfold chain_take_events in Hrun. destruct (take_events _) as [r1 j]. injection Hrun as <- <-.
    by eapply chain_good_same.
Qed.

(** ** Replay *)

Lemma txs_accepted_app u txs1 txs2 :
  txs_accepted u (txs1 ++ txs2) ↔ txs_accepted u txs1 ∧ txs_accepted (utxo_after u txs1) txs2.
Proof.
  revert u. induction txs1 as [|tx txs1 IH]; intros u; [naive_solver|].
  cbn [app txs_accepted]. rewrite IH. unfold utxo_after. cbn [foldl]. tauto.
Qed.

Lemma undo_ok_accepted k l : undo_ok (⊆) k l → txs_accepted ∅ (chain_txs l).
Proof.
  induction 1 as [|l b m u _ IH _ Hu Hval _]; [done|]. rewrite chain_txs_snoc. apply txs_accepted_app.
  split; [done|]. apply validate_block_transactions_Ok in Hval as [Hval _].
  by eapply txs_accepted_mono.
Qed.

Lemma chain_txs_wf l : Forall block_wf l → Forall tx_wf (chain_txs l).
Proof.
  induction 1 as [|b l [_ Hb] _ IH]; [constructor|]. unfold chain_txs. simpl.
  by apply Forall_app.
Qed.

(** ** Median time past *)

Lemma ancestor_times_branch g c h l n :
  branch g (known c) h l → (n ≤ length l)%nat →
  ancestor_times n c h = take n (map (λ b, hdr_time (header b)) (reverse l)).
Proof.
  intros Hb. revert n. induction Hb as [m Hm|h m l Hm Hne Hb IH]; intros [|n] Hn; try done.
  - simpl in *. assert (n = 0%nat) as -> by lia. by rewrite Hm.
  - cbn [ancestor_times]. rewrite Hm, reverse_app. cbn. f_equal. apply IH.
    rewrite length_app in Hn. simpl in Hn. lia.
Qed.

Lemma sorted_below (l : list Z) (i : nat) (m : Z) :
  StronglySorted Z.le l → l !! i = Some m →
  (length (filter (λ x, (x < m)%Z) l) ≤ i)%nat ∧ (length (filter (λ x, (m < x)%Z) l) ≤ length l - S i)%nat.
Proof.
  intros Hs. revert i. induction Hs as [|x l Hs IH Hx]; intros i Hi; [done|].
  destruct i as [|i].
  - injection Hi as ->. rewrite filter_cons_False, filter_cons_False by lia. split.
    + assert (filter (λ x, x < m) l = []) as ->; [|simpl; lia].
      clear -Hx. induction Hx as [|y l Hy _ IH]; [done|].
      rewrite filter_cons_False by lia. done.
    + simpl. rewrite Nat.sub_0_r. apply length_filter.
  - simpl in Hi. destruct (IH i Hi) as [H1 H2].
    assert (x ≤ m) as Hxm. { rewrite Forall_forall in Hx. apply Hx. by eapply list_elem_of_lookup_2. }
    rewrite (filter_cons_False (λ x, m < x)) by lia. split; [|simpl; lia].
    destruct (decide (x < m)); [rewrite filter_cons_True by done|rewrite filter_cons_False by done];
      simpl; lia.
Qed.

Lemma median_spec (l : list Z) :
  l ≠ [] →
  let m := merge_sort Z.le l !!! (length l / 2)%nat in
  m ∈ l ∧ (length (filter (λ x, (x < m)%Z) l) ≤ length l / 2)%nat ∧
  (length (filter (λ x, (m < x)%Z) l) ≤ length l - S (length l / 2))%nat.
Proof.
  intros Hne m. pose proof (merge_sort_Permutation Z.le l) as Hp.
  pose proof (Permutation_length Hp) as Hlen.
  assert (length l / 2 < length (merge_sort Z.le l))%nat as Hlt.
  { rewrite Hlen. apply Nat.div_lt; [|lia]. destruct l; simpl; [done|lia]. }
  apply lookup_lt_is_Some in Hlt as [x Hx].
  assert (m = x) as -> by (unfold m; by apply list_lookup_total_correct).
  split; [rewrite <- Hp; by eapply list_elem_of_lookup_2|].
  assert (StronglySorted Z.le (merge_sort Z.le l)) as Hs.
  { apply StronglySorted_merge_sort; [typeclasses eauto|]. intros y z. lia. }
  destruct (sorted_below _ _ _ Hs Hx) as [H1 H2]. rewrite Hlen in H2.
  pose proof (Permutation_length (filter_Permutation (λ y : Z, (y < x)%Z) _ _ Hp)).
  pose proof (Permutation_length (filter_Permutation (λ y : Z, (x < y)%Z) _ _ Hp)). lia.
Qed.
(** ** Panics *)

Lemma adjust_bits_total prev_bits actual : adjust_bits prev_bits actual ≠ Panic.
Proof.
  unfold adjust_bits, cap_to_max_target.
  destruct (from_bits prev_bits) as [t|]; [|done]. cbn [ok_or rbind].
  destruct (mul_div_threshold _ _ _) as [s|]; [|done]. cbn [ok_or rbind].
  destruct (from_bits MAX_COMPACT_BITS) as [m|] eqn:Hm; [|by vm_compute in Hm].
  cbn [index_or_panic rbind]. destruct (compare_threshold _ _); cbn [rbind];
    by destruct (to_bits _).
Qed.

(** On the tip the indices of the retarget are in range. *)
Lemma expected_bits_tip_total c bits :
  blocks c ≠ [] → expected_bits c (zlen (blocks c)) bits ≠ Panic.
Proof.
  intros Hne. unfold expected_bits. pose proof (zlen_nonneg (blocks c)) as Hz. case_if; [done|].
  case_if; [by destruct (last (blocks c))|]. case_if; [done|].
  assert (0 < zlen (blocks c)). { unfold zlen. destruct (blocks c); [done|]. simpl. lia. }
  unfold u32_saturating_sub in *. unfold zlen in *.
  destruct (lookup_lt_is_Some_2 (blocks c) (Z.to_nat
    (Z.max (Z.of_nat (length (blocks c)) - difficulty_adjustment_interval test_short_period) 0)))
    as [x ->]; [lia|].
  destruct (lookup_lt_is_Some_2 (blocks c) (Z.to_nat (Z.of_nat (length (blocks c)) - 1)))
    as [y ->]; [lia|]. cbn [index_or_panic rbind].
  destruct (adjust_bits _ _) eqn:Hadj; [done|done|by apply adjust_bits_total in Hadj].
Qed.

(** A side-chain block at a retarget height above the active chain, less than a period
    away, makes the index [period_end - 1] out of range. *)
Lemma expected_bits_side_chain_panics c h bits :
  let interval := difficulty_adjustment_interval test_short_period in
  0 < h → h mod interval = 0 → zlen (blocks c) < h → h - interval < zlen (blocks c) →
  blocks c ≠ [] → expected_bits c h bits = Panic.
Proof.
  intros interval Hh Hmod Hlt Hper Hne. unfold expected_bits. fold interval.
  destruct (Z.eqb_spec h 0); [lia|]. rewrite Hmod. cbn [Z.eqb negb].
  assert (0 < zlen (blocks c)). { unfold zlen. destruct (blocks c); [done|]. simpl. lia. }
  unfold u32_saturating_sub. destruct (Z.leb_spec (zlen (blocks c)) (Z.max (h - interval) 0)); [lia|].
  destruct (blocks c !! Z.to_nat (Z.max (h - interval) 0)) as [x|]; [|done].
  assert (blocks c !! Z.to_nat (h - 1) = None) as ->; [|done].
  apply lookup_ge_None_2. unfold zlen in *. lia.
Qed.

(** ** Deciding facts about all branches *)

Fixpoint branch_of (fuel : nat) (g : list byte) (k : gmap (list byte) BlockMeta) (h : list byte)
    : option (list Block) :=
  match fuel with
  | O => None
  | S fuel' =>
      match k !! h with
      | None => None
      | Some m => if decide (h = g) then Some [bm_block m]
                  else l ← branch_of fuel' g k (parent_of (bm_block m)); Some (l ++ [bm_block m])
      end
  end.

Lemma branch_of_complete fuel g k h l :
  branch g k h l → (length l ≤ fuel)%nat → branch_of fuel g k h = Some l.
Proof.
  intros Hb. revert fuel. induction Hb as [m Hm|h m l Hm Hne Hb IH]; intros [|fuel] Hf.
  - simpl in Hf. lia.
  - cbn [branch_of]. by rewrite Hm, decide_True.
  - rewrite length_app in Hf. simpl in Hf. lia.
  - cbn [branch_of]. rewrite Hm, decide_False by done. rewrite IH; [done|].
    rewrite length_app in Hf. simpl in Hf. lia.
Qed.

Lemma branches_check (P : list Block → Prop) `{∀ l, Decision (P l)} g k :
  keyed k →
  forallb (λ '(h, _), match branch_of (size k) g k h with
                      | Some l => bool_decide (P l) | None => true end) (map_to_list k) = true →
  ∀ h l, branch g k h l → P l.
Proof.
  intros Hk Hall h l Hb. destruct (branch_last _ _ _ _ Hk Hb) as (_&_&_&_&m&Hm&_).
  rewrite forallb_forall in Hall.
  specialize (Hall (h, m)). apply elem_of_map_to_list, list_elem_of_In in Hm.
  specialize (Hall Hm). simpl in Hall.
  rewrite (branch_of_complete _ _ _ _ _ Hb) in Hall by by eapply branch_length.
  by apply bool_decide_eq_true in Hall.
Qed.
End chain_theorems.

(** ** Properties *)

Section properties.
Context {crypto : CryptoLib} {order : HashOrder} {flags : BuildFlags}.

(** C1 (invariant): after any sequence of returning calls the active chain is the branch of
    its tip from the genesis block, every indexed block lies on a branch with the recorded
    height and cumulative work, the set of active hashes and the total work match, and
    orphans are keyed by hash, unknown and at most 256. *)
Theorem reachable_chain_invariant (gen : Block) (c : Chain) :
  reachable gen c → chain_inv (block_hash gen) c.
Proof. by intros [? _]%reachable_good. Qed.

(** C2 (refinement): through extensions, failed and successful reorganizations, the UTXO set
    of a chain contains only outputs of the set obtained by replaying the active blocks from
    scratch, with their values and scripts, and the replay accepts every active transaction;
    the two sets are equal as long as no branch contains two transactions with one
    identifier.  Without this condition outputs can be missing
    ([repeated_coinbase_is_lost]). *)
Theorem utxo_set_is_replay (gen : Block) (c : Chain) :
  reachable gen c →
  utxo c ⊆ utxo_after ∅ (chain_txs (blocks c)) ∧ txs_accepted ∅ (chain_txs (blocks c)) ∧
  (txids_distinct (block_hash gen) (known c) → utxo c = utxo_after ∅ (chain_txs (blocks c))).
Proof.
  intros [[Hc _ _] _]%reachable_good. destruct (cc_below _ _ Hc) as [Hle Hundo].
  split_and!; [done|by eapply undo_ok_accepted|]. intros Hd. by apply (cc_utxo _ _ Hc).
Qed.

(** C3 (safety): no inflation: the unspent value never exceeds what the coinbases of the
    active chain paid out, for every reachable chain whose active blocks have their fields
    in the range of their machine types (so that an output's value is a u64). *)
Theorem supply_bounded_by_coinbases (gen : Block) (c : Chain) :
  reachable gen c → Forall block_wf (blocks c) →
  total_value (utxo c) ≤ minted (chain_txs (blocks c)).
Proof.
  intros [[Hc _ _] _]%reachable_good Hwf. destruct (cc_below _ _ Hc) as [Hle Hundo%undo_ok_accepted].
  destruct (txs_accepted_value ∅ (chain_txs (blocks c))) as [Hok Hval]; [done|by apply chain_txs_wf|done|].
  unfold total_value at 2 in Hval. rewrite map_sum_empty in Hval.
  pose proof (total_value_mono _ _ Hok Hle). lia.
Qed.

(** C4 (invariant): the active tip has the most cumulative work of all indexed blocks, side
    chains included, and the recorded total is the sum over the active blocks. *)
Theorem active_tip_has_most_work (gen : Block) (c : Chain) :
  reachable gen c → works_fit (block_hash gen) (known c) →
  work_val (total_work c) = branch_work (blocks c) ∧
  ∀ h m, known c !! h = Some m → work_val (bm_work m) ≤ work_val (total_work c).
Proof.
  intros [Hi Hb]%reachable_good Hf. split; [by eapply total_work_fit|]. by apply Hb.
Qed.

(** C8 (safety): no call makes the active work decrease or forgets a block, whatever it
    returns. *)
Theorem connect_block_never_regresses (gen b : Block) (c c' : Chain)
    (r : Result ChainError ConnectResult) :
  reachable gen c → connect_block b c = (r, c') → r ≠ Panic →
  works_fit (block_hash gen) (known c') →
  work_val (total_work c) ≤ work_val (total_work c') ∧
  ∀ h m, known c !! h = Some m → ∃ m', known c' !! h = Some m' ∧ bm_block m' = bm_block m.
Proof.
  intros Hr%reachable_good Hrun Hnp Hf.
  destruct (connect_inner_advances (block_hash gen) b true c r c' Hr Hrun Hnp) as [_ [Hk _ Hw]].
  split; [by apply Hw|]. intros h m Hm. destruct (Hk _ _ Hm) as (m'&?&?&_). by exists m'.
Qed.

(** C6 (functional): the outcome of [connect_block] (before orphans are released), case by
    case: an extension of the tip is appended and applied; a block with an unknown parent is
    only pooled; a block that does not beat the active work is only indexed; otherwise the
    tip becomes that block with strictly more work. *)
Theorem connect_block_outcomes (gen b : Block) (c c' : Chain)
    (r : Result ChainError ConnectResult) :
  reachable gen c → connect_block_inner b false c = (r, c') → r ≠ Panic →
  connect_post (block_hash gen) b c r c' ∧ known_dom b c c'.
Proof.
  intros [Hi _]%reachable_good Hrun Hnp.
  by destruct (connect_one_spec _ _ _ _ _ Hi Hrun Hnp) as (_&_&_&?&?).
Qed.

(** C5 (error): a call of [connect_block] that fails, at whatever point of validation or of a
    reorganization, fails on one block: its own, from the state it was called in, or, after
    its own and possibly other orphans were connected, an orphan that it released.  The
    failure leaves the active blocks, their hashes, the work, the UTXO set and the orphan
    pool as they were when the connection of the failing block began, and adds no block to
    the index. *)
Theorem failed_connect_restores_state (gen b : Block) (c c' : Chain) (e : ChainError) :
  reachable gen c → connect_block b c = (Err e, c') →
  ∃ (bs : list Block) (x : Block) (c1 : Chain),
    connect_run c bs c1 ∧ connect_block_inner x false c1 = (Err e, c') ∧
    ((bs = [] ∧ x = b ∧ c1 = c) ∨
     (∃ ys, bs = b :: ys ∧ Forall (from_pool c) (ys ++ [x]))) ∧
    blocks c' = blocks c1 ∧ active_hashes c' = active_hashes c1 ∧
    total_work c' = total_work c1 ∧ utxo c' = utxo c1 ∧ orphans c' = orphans c1 ∧
    (∀ h, known c1 !! h = None → known c' !! h = None).
Proof.
  intros Hg%reachable_good Hrun.
  destruct (connect_block_fails _ _ _ _ _ Hg Hrun) as (bs&x&c1&[Hbs Hx]&[Hi _]&Hcase).
  destruct (connect_one_spec _ _ _ _ _ Hi Hx ltac:(done)) as (_&_&_&_&(?&?&?&?)&?&?).
  exists bs, x, c1. by split_and!.
Qed.

(** Every block a node indexes satisfies its proof of work, commits to its
    transactions and has exactly one coinbase, in first place. *)
Theorem indexed_blocks_are_sane (gen : Block) (c : Chain) (h : list byte) (m : BlockMeta) :
  reachable gen c → known c !! h = Some m →
  block_hash (bm_block m) = h ∧ block_sane (bm_block m).
Proof.
  intros [Hi _]%reachable_good Hm. destruct (cc_known _ _ (ci_core _ _ Hi)) as [Hk _ Hs].
  split; [by apply (Hk h m)|by apply (Hs h m)].
Qed.

(** Storing an orphan in a full pool evicts the one received first, and only
    that one; otherwise nothing is evicted. *)
Theorem orphan_pool_is_fifo (b : Block) (c : Chain) :
  orphans c !! block_hash b = None →
  ∃ c' e kept, insert_orphan b c = (Ok (), c') ∧
    orphans c' = <[block_hash b := e]> kept ∧ oe_block e = b ∧
    (if decide (MAX_ORPHAN_BLOCKS ≤ Z.of_nat (size (orphans c)))
     then ∃ h o, orphans c !! h = Some o ∧ kept = delete h (orphans c) ∧
                 map_Forall (λ _ o', oe_received_at o ≤ oe_received_at o') (orphans c)
     else kept = orphans c).
Proof.
  intros Hn. destruct (insert_orphan_spec b c Hn) as (c'&seq&kept&Hrun&_&_&_&_&_&Ho&Hkept).
  eexists c', _, kept. split_and!; [done|done|done|]. unfold pool_full in Hkept.
  destruct (Z.leb_spec MAX_ORPHAN_BLOCKS (Z.of_nat (size (orphans c)))); case_decide; try lia; done.
Qed.

(** The loops of a call end within their fuel: the search for the fork
    point finds it, and the queue of released orphans is emptied (more fuel changes
    nothing). *)
Theorem chain_loops_terminate (gen b : Block) (c : Chain) :
  reachable gen c → is_Some (known c !! prev_blockhash (header b)) →
  (∃ path fork, collect_fork_path c b = Ok (path, fork) ∧ fork ∈ active_hashes c) ∧
  ∀ n queue c1, enqueue_ready_orphans [] c = (Ok queue, c1) →
    process_queue (size (orphans c) + n) queue c1 = process_queue (size (orphans c)) queue c1.
Proof.
  intros Hgood%reachable_good [m Hm]. pose proof Hgood as [Hi _]. pose proof (ci_core _ _ Hi) as Hc.
  pose proof (cc_known _ _ Hc) as Hok. destruct (branch_of_known _ _ _ _ Hok Hm) as [l Hl]. split.
  - destruct (collect_fork_spec (block_hash gen) c (S (size (known c))) (parent_of b) l [b] b)
      as (i&f&Hf&Ha&_&Hcol); try done.
    { pose proof (branch_length _ _ _ _ (ko_keyed _ _ Hok) Hl). lia. } { by apply genesis_active. }
    eauto.
  - intros n queue c1 Hrun. destruct (enqueue_spec c []) as (new&c2&Hrun2&_&Hk&_&_&Hsize&Hnew).
    destruct (enqueue_advances _ _ _ _ _ Hgood Hrun) as [Hgood1 _].
    rewrite Hrun in Hrun2. injection Hrun2 as -> ->.
    eapply process_queue_fuel; [done| |simpl; lia]. eapply Forall_impl; [apply Hnew|].
    intros x [Hx _]. unfold parent_known. by rewrite Hk.
Qed.

(** The median time past of a block with at least eleven ancestors: a
    timestamp of one of the last eleven such that at most five are below and at most five
    above it. *)
Theorem median_time_past_is_median (gen : Block) (c : Chain) (h : list byte) (l : list Block) :
  branch (block_hash gen) (known c) h l → (11 ≤ length l)%nat →
  let times := take 11 (map (λ b, hdr_time (header b)) (reverse l)) in
  let m := median_past_time_before c h in
  m ∈ times ∧ (length (filter (λ t, (t < m)%Z) times) ≤ 5)%nat ∧
  (length (filter (λ t, (m < t)%Z) times) ≤ 5)%nat.
Proof.
  intros Hb Hl times m. unfold m, median_past_time_before.
  rewrite (ancestor_times_branch _ _ _ _ 11 Hb Hl). fold times.
  assert (length times = 11%nat) as Hlen.
  { unfold times. rewrite length_take, length_map, length_reverse. lia. }
  assert (times ≠ []) as Hne by (by intros Ht; rewrite Ht in Hlen).
  rewrite bool_decide_eq_false_2 by done. pose proof (median_spec times Hne) as Hm.
  rewrite Hlen in *. apply Hm.
Qed.
End properties.
