(* ===== verification/ChainEvents.v ===== *)
(** * The events of a chain (bitrst-core/src/chain.rs, chain_event_journal.rs)

    Every call of a chain only pushes events on its journal, and a call that moves the tip
    pushes at least one: a reader that is not ahead of the journal finds an event to read,
    or is told that it lags. *)

From stdpp Require Import prelude gmap strings list.
From Stdlib Require Import Strings.Byte.
From S2P Require Import Prelude Bytes Crypto U256 Pow Difficulty Wire Transaction Merkle Block.
From S2P Require Import Utxo Script Sighash Journal Store Chain ChainTx ChainInv ChainReorg.
From S2P Require Import ChainProps ChainTheorems.

Local Open Scope Z_scope.
Local Open Scope list_scope.

(** ** Journals that have received more events *)

Definition extends (j j' : ChainEventJournal) : Prop := ∃ events, j' = journal_push_all j events.

#[global] Instance extends_preorder : PreOrder extends.
Proof.
  split; [intros j; by exists []|]. intros j1 j2 j3 [es1 ->] [es2 ->]. exists (es1 ++ es2).
  unfold journal_push_all. by rewrite foldl_app.
Qed.

Lemma extends_push e j : extends j (journal_push e j).2.
Proof. by exists [e]. Qed.

Lemma extends_next j j' : extends j j' → next_seq j ≤ U64_MAX → next_seq j ≤ next_seq j' ≤ U64_MAX.
Proof.
  intros [events ->]. revert j. induction events as [|e events IH]; intros j Hj; [done|].
  specialize (IH (journal_push e j).2). cbn [journal_push_all foldl]. revert IH.
  unfold journal_push_all, journal_push, u64_saturating_add. cbn [snd next_seq]. lia.
Qed.

(** The last number given is below the counter, unless the counter is saturated. *)
Definition counter_ahead (j : ChainEventJournal) : Prop :=
  next_seq j ≤ U64_MAX ∧ (latest_seq j < next_seq j ∨ next_seq j = U64_MAX).

Lemma push_latest e j : latest_seq (journal_push e j).2 = next_seq j.
Proof. unfold latest_seq, journal_push. cbn [snd entries]. by rewrite last_snoc. Qed.

Lemma extends_counter j j' : extends j j' → counter_ahead j → counter_ahead j'.
Proof.
  intros [events ->]. revert j. induction events as [|e events IH]; intros j Hj; [done|].
  cbn [journal_push_all foldl]. apply IH. destruct Hj as [Hmax _]. unfold counter_ahead.
  rewrite push_latest. unfold journal_push, u64_saturating_add. cbn [snd next_seq]. lia.
Qed.

(** A reader not ahead of [j] finds something in what follows a push on [j]. *)
Lemma events_after_push j j1 e seen :
  counter_ahead j → extends j j1 → seen ≤ latest_seq j → next_seq (journal_push e j1).2 < U64_MAX →
  events_after (journal_push e j1).2 seen ≠ [].
Proof.
  intros [Hmax Hahead] Hext Hseen Hlt. pose proof (extends_next j j1 Hext Hmax) as Hn.
  unfold journal_push, u64_saturating_add in *. cbn [snd next_seq] in Hlt.
  unfold events_after. cbn [snd entries]. rewrite filter_app, map_app.
  rewrite (filter_cons_True _ _ []) by (cbn [je_seq]; lia). intros Hnil.
  by apply app_eq_nil in Hnil as [_ ?].
Qed.

(** ** Calls that only push *)

Section chain_events.
Context {crypto : CryptoLib} {order : HashOrder} {flags : BuildFlags}.

Definition journal_grows (c c' : Chain) : Prop := extends (event_journal c) (event_journal c').
#[local] Instance journal_grows_preorder : PreOrder journal_grows.
Proof. split; [intros c; red; reflexivity|intros c1 c2 c3; unfold journal_grows; apply transitivity]. Qed.

Definition pushes {A} (m : CM A) : Prop := ∀ c, journal_grows c (m c).2.

Lemma pushes_run {A} (m : CM A) c r c' : pushes m → m c = (r, c') → journal_grows c c'.
Proof. intros Hm Hrun. specialize (Hm c). by rewrite Hrun in Hm. Qed.

Lemma pushes_same {A} (m : CM A) : (∀ c, event_journal (m c).2 = event_journal c) → pushes m.
Proof. intros Hm c. unfold journal_grows. by rewrite Hm. Qed.
Lemma pushes_sbind {A B} (m : CM A) (f : A → CM B) :
  pushes m → (∀ a, pushes (f a)) → pushes (sbind m f).
Proof.
  intros Hm Hf c. unfold sbind. specialize (Hm c). destruct (m c) as [[a|e|] c1]; [|done..].
  etrans; [exact Hm|apply Hf].
Qed.
Lemma pushes_get {B} (f : Chain → CM B) : (∀ c, pushes (f c)) → pushes (sbind sget f).
Proof. intros Hf. by apply pushes_sbind; [apply pushes_same|]. Qed.
Lemma pushes_event e : pushes (push_event e).
Proof.
  intros c. unfold push_event, journal_grows. pose proof (extends_push e (event_journal c)) as H.
  by destruct (journal_push e (event_journal c)).
Qed.
Lemma pushes_sfor {A} (l : list A) (body : A → CM unit) : (∀ x, pushes (body x)) → pushes (sfor l body).
Proof.
  intros Hb. induction l as [|x l IH]; [by apply pushes_same|]. apply pushes_sbind; auto.
Qed.

Create HintDb pushing.
Hint Resolve pushes_event pushes_sfor : pushing.
(** Follows the structure of a call down to the calls of the hint base. *)
Ltac pushing :=
  intros; cbv zeta;
  lazymatch goal with
  | |- pushes (sbind sget _) => apply pushes_get; pushing
  | |- pushes (sbind _ _) => apply pushes_sbind; pushing
  | |- pushes (sret _) => apply pushes_same; reflexivity
  | |- pushes (sthrow _) => apply pushes_same; reflexivity
  | |- pushes spanic => apply pushes_same; reflexivity
  | |- pushes (slift _) => apply pushes_same; reflexivity
  | |- pushes (smodify _) => apply pushes_same; reflexivity
  | |- pushes (store_put _) => apply pushes_same; reflexivity
  | |- pushes (if ?b then _ else _) => destruct b; pushing
  | |- pushes (match ?x with _ => _ end) => destruct x; pushing
  | |- _ => eauto with pushing
  end.

Lemma pushes_disconnect_tip : pushes disconnect_tip_block.
Proof. unfold disconnect_tip_block. pushing. Qed.
Hint Resolve pushes_disconnect_tip : pushing.
Lemma pushes_disconnect_until fuel fork n : pushes (disconnect_until fuel fork n).
Proof. revert n. induction fuel as [|fuel IH]; intros n; cbn [disconnect_until]; pushing. Qed.
Lemma pushes_push_active b m : pushes (push_active_block b m).
Proof. unfold push_active_block. pushing. Qed.
Lemma pushes_apply b : pushes (apply_block_transactions b).
Proof. apply pushes_same. intros c. unfold apply_block_transactions. by destruct (apply_transactions _ _). Qed.
Hint Resolve pushes_disconnect_until pushes_push_active pushes_apply : pushing.
Lemma pushes_reconnect b : pushes (reconnect_block b).
Proof. unfold reconnect_block. pushing. Qed.
Hint Resolve pushes_reconnect : pushing.
Lemma pushes_try_reorg path fork w : pushes (try_reorg_to_block path fork w).
Proof. unfold try_reorg_to_block. pushing. Qed.
Lemma pushes_reorg b w : pushes (reorg_to_block b w).
Proof.
  unfold reorg_to_block. apply pushes_get. intros c. apply pushes_sbind; [pushing|].
  intros [path fork] c1. pose proof (pushes_try_reorg path fork w c1) as H.
  by destruct (try_reorg_to_block path fork w c1) as [[] c2].
Qed.
Lemma pushes_insert_orphan b : pushes (insert_orphan b).
Proof. unfold insert_orphan, evict_oldest_orphan. pushing. Qed.
Lemma pushes_enqueue queue : pushes (enqueue_ready_orphans queue).
Proof. apply pushes_same. intros c. unfold enqueue_ready_orphans. by destruct (foldl _ _ _). Qed.
Hint Resolve pushes_reorg pushes_insert_orphan pushes_enqueue : pushing.
Lemma pushes_connect_with after b : pushes after → pushes (connect_block_with after b).
Proof. intros Hafter. unfold connect_block_with. pushing. Qed.
Lemma pushes_process_queue fuel queue : pushes (process_queue fuel queue).
Proof.
  revert queue. induction fuel as [|fuel IH]; intros [|b queue]; cbn [process_queue]; [pushing..|].
  apply pushes_sbind; [apply pushes_connect_with; pushing|]. pushing.
Qed.
Hint Resolve pushes_process_queue : pushing.
Lemma pushes_process_orphans : pushes process_orphans.
Proof. unfold process_orphans. pushing. Qed.
Lemma pushes_connect b : pushes (connect_block b).
Proof. apply pushes_connect_with, pushes_process_orphans. Qed.

(** ** Moving the tip pushes an event *)

(** What an outcome that moves the tip leaves in the journal: a push, and more. *)
Definition moved (c c' : Chain) : Prop :=
  ∃ e j1, extends (event_journal c) j1 ∧ extends (journal_push e j1).2 (event_journal c').

Lemma connect_block_moves b c result c' :
  connect_block b c = (Ok result, c') →
  match result with Connected _ _ | Reorganized _ _ => moved c c' | _ => True end.
Proof.
  unfold connect_block, connect_block_inner, connect_block_with.
  intros ([]&c0&[= _ <-]&Hrun)%sbind_Ok. apply sbind_Ok in Hrun as (c1&?&[= <- <-]&Hrun).
  destruct (has_block_hash c _); [done|].
  destruct (known c !! prev_blockhash (header b)) as [pm|].
  2:{ apply sbind_Ok in Hrun as (?&?&_&Hrun). by injection Hrun as <- _. }
  apply sbind_Ok in Hrun as ([]&?&Hval&Hrun). injection Hval as _ <-.
  apply sbind_Ok in Hrun as (bw&?&Hbw&Hrun). injection Hbw as _ <-.
  assert (∀ e res (m : CM unit) c1, journal_grows c c1 →
    (do! push_event e ;; do! process_orphans ;; sret res) c1 = (Ok result, c') →
    result = res ∧ moved c c') as Hend.
  { intros e res m c1 Hg (seq&c2&He&([]&c3&Ho&Hr)%sbind_Ok)%sbind_Ok. injection Hr as -> <-.
    split; [done|]. apply (pushes_run _ _ _ _ pushes_process_orphans) in Ho.
    exists e, (event_journal c1). split; [exact Hg|]. unfold push_event in He.
    by destruct (journal_push e (event_journal c1)) as [s j]; injection He as _ <-. }
  case_bool_decide.
  - apply sbind_Ok in Hrun as (undo&c1&Ha&Hrun). apply (pushes_run _ _ _ _ (pushes_apply b)) in Ha.
    apply sbind_Ok in Hrun as ([]&c2&Hp&Hrun). apply (pushes_run _ _ _ _ (pushes_push_active _ _)) in Hp.
    apply sbind_Ok in Hrun as ([]&c3&Hs&Hrun). injection Hs as <-.
    apply Hend in Hrun as [-> ?]; [done|exact (sret ())|]. by etrans.
  - destruct (work_le _ _).
    + apply sbind_Ok in Hrun as (?&?&_&Hrun). by injection Hrun as <- _.
    + apply sbind_Ok in Hrun as (depth&c1&Hr&Hrun). apply (pushes_run _ _ _ _ (pushes_reorg _ _)) in Hr.
      apply sbind_Ok in Hrun as (?&?&[= <- <-]&Hrun).
      by apply Hend in Hrun as [-> ?]; [|exact (sret ())|].
Qed.

(** ** Reachable chains *)

Lemma reachable_counter gen c : reachable gen c → counter_ahead (event_journal c).
Proof.
  induction 1 as [now cap c Hg|b c r c' _ IH Hrun _|t c r c' _ IH Hrun|c r c' _ IH Hrun].
  - unfold with_journal_capacities in Hg. destruct (now =? 0); [done|]. cbv zeta in Hg.
    apply rbind_Ok in Hg as ([]&_&Hg). apply rbind_Ok in Hg as ([]&_&Hg).
    destruct (apply_transactions _ _) as [undo u]. apply rbind_Ok in Hg as (w&_&Hg).
    injection Hg as <-. split; [done|]. left. unfold latest_seq.
    cbn [event_journal set_journals entries next_seq]. by rewrite last_snoc.
  - eapply extends_counter; [|exact IH]. by eapply pushes_run; [apply pushes_connect|].
  - unfold set_network_time, smodify, sthrow in Hrun. by case_if; injection Hrun as <- <-.
  - unfold chain_take_events, take_events in Hrun.
    destruct (lags _ _); injection Hrun as <- <-; [done|]. cbn [event_journal set_journals].
    by destruct (last _).
Qed.

(** After a call that moved the tip a reader that was not ahead of the journal lags or has
    something to read, as long as the numbers of the events have not run out. *)
Lemma tip_moved_events gen b c result c' cursor :
  reachable gen c → connect_block b c = (Ok result, c') →
  match result with Connected _ _ | Reorganized _ _ => True | _ => False end →
  last_seq cursor ≤ latest_seq (event_journal c) → next_seq (event_journal c') < U64_MAX →
  match collect_events (event_journal c') cursor with
  | (Ok events, _) => events ≠ [] | (Err _, _) => True | (Panic, _) => False
  end.
Proof.
  intros Hr%reachable_counter Hrun%connect_block_moves Hmove Hseen Hmax.
  unfold collect_events. destruct (lags _ _); [done|].
  assert (moved c c') as (e&j1&Hext&events&Hj) by by destruct result.
  assert (∃ e' j2, extends j1 j2 ∧ event_journal c' = (journal_push e' j2).2) as (e'&j2&Hext2&Hj').
  { destruct events as [|x events _] using rev_ind; [by exists e, j1|].
    exists x, (journal_push_all (journal_push e j1).2 events). split.
    - etrans; [apply (extends_push e)|by exists events].
    - rewrite Hj. unfold journal_push_all. by rewrite foldl_app. }
  rewrite Hj' in Hmax |- *. by eapply events_after_push; [exact Hr|etrans|..].
Qed.
End chain_events.
