(* ===== verification/ChainExamples.v ===== *)
(** * The chain model on concrete blocks

    A small chain with a reorganization and two spends, run with the toy primitives; the
    hypotheses of the chain theorems hold on it.  The second part runs the histories behind
    three surprising behaviours of [connect_block]. *)

From stdpp Require Import prelude gmap strings list sorting.
From Stdlib Require Import Strings.Byte.
From S2P Require Import Prelude Bytes Crypto U256 Pow Difficulty Wire Transaction Merkle Block.
From S2P Require Import Utxo Script Sighash Journal Store Chain ChainTx ChainInv ChainReorg.
From S2P Require Import ChainProps ChainTheorems.

Local Open Scope Z_scope.

#[local] Existing Instance toy_crypto.
#[local] Existing Instance canonical_order.
#[local] Instance ex_flags : BuildFlags := {| test_short_period := false |}.

(** ** Blocks *)

Definition ex_header (prev : list byte) (time : Z) : BlockHeader := {|
  hdr_version := 1; prev_blockhash := prev; hdr_merkle_root := zero32; hdr_time := time;
  hdr_bits := 0x207fffff; hdr_nonce := 0 |}.
Definition ex_block (prev : list byte) (time height : Z) (txs : list Transaction) : Block :=
  let txs := coinbase_transaction height 50 :: txs in
  let h := ex_header prev time in
  {| header := {| hdr_version := 1; prev_blockhash := prev;
                  hdr_merkle_root := default zero32 (merkle_root_from_transactions txs);
                  hdr_time := time; hdr_bits := 0x207fffff; hdr_nonce := 0 |};
     transactions := txs |}.

Definition ex_genesis : Block := ex_block zero32 100 0 [].

(** A spend of the genesis reward (whose script is empty) to a key, and a signed spend of
    that key's output. *)
Definition ex_pubkey : list byte := le_bytes 33 5.
Definition ex_lock : list byte := p2pkh_script_pubkey (hash160 ex_pubkey).
Definition ex_spend1 : Transaction := {|
  tx_version := 1;
  tx_inputs := [{| previous_output := tx_id (coinbase_transaction 0 50); txin_index := 0;
                   script_sig := []; txin_sequence := U32_MAX |}];
  tx_outputs := [{| txout_value := 30; script_pubkey := ex_lock |};
                 {| txout_value := 15; script_pubkey := [] |}];
  tx_lock_time := 0 |}.
Definition ex_spend2_with (sig : list byte) : Transaction := {|
  tx_version := 1;
  tx_inputs := [{| previous_output := tx_id ex_spend1; txin_index := 0;
                   script_sig := sig; txin_sequence := U32_MAX |}];
  tx_outputs := [{| txout_value := 29; script_pubkey := [] |}];
  tx_lock_time := 0 |}.
Definition ex_sighash : list byte := sha256d (sighash_preimage (ex_spend2_with []) 0 [ex_lock]).
Definition ex_spend2 : Transaction :=
  ex_spend2_with (p2pkh_script_sig (sign_der_with_hashtype 5 ex_sighash x01) ex_pubkey).

Definition ex_b1 : Block := ex_block (block_hash ex_genesis) 101 1 [ex_spend1].
Definition ex_b2 : Block := ex_block (block_hash ex_b1) 102 2 [ex_spend2].
Definition ex_f1 : Block := ex_block (block_hash ex_genesis) 103 1 [].
Definition ex_f2 : Block := ex_block (block_hash ex_f1) 104 2 [].
Definition ex_f3 : Block := ex_block (block_hash ex_f2) 105 3 [].

(** ** A history: two blocks, then a heavier fork *)

Definition ex_empty : Chain := {|
  blocks := []; active_hashes := ∅; known := ∅; total_work := default_work; utxo := ∅;
  orphans := ∅; orphan_receive_seq := 0; network_time := 0; store := ∅;
  event_journal := default_journal; disconnected_journal := default_disconnected |}.
Definition ex_c0 : Chain :=
  match new_genesis ex_genesis 1000 with Ok c => c | _ => ex_empty end.
Definition ex_run (bs : list Block) (c : Chain) : Chain :=
  foldl (λ c b, (connect_block b c).2) c bs.
Definition ex_c1 : Chain := ex_run [ex_b1] ex_c0.
Definition ex_c2 : Chain := ex_run [ex_b1; ex_b2] ex_c0.
Definition ex_fork_blocks : list Block := [ex_b1; ex_b2; ex_f1; ex_f2].
Definition ex_c4 : Chain := ex_run ex_fork_blocks ex_c0.
Definition ex_c5 : Chain := ex_run (ex_fork_blocks ++ [ex_f3]) ex_c0.

(** Every call of the history returns. *)
Fixpoint ex_all_return (bs : list Block) (c : Chain) : bool :=
  match bs with
  | [] => true
  | b :: bs' =>
      match connect_block b c with
      | (Panic, _) => false
      | (_, c') => ex_all_return bs' c'
      end
  end.

Lemma ex_run_reachable gen bs c :
  reachable gen c → ex_all_return bs c = true → reachable gen (ex_run bs c).
Proof.
  revert c. induction bs as [|b bs IH]; intros c Hc Hret; [done|].
  cbn [ex_all_return] in Hret. unfold ex_run. cbn [foldl].
  destruct (connect_block b c) as [r c'] eqn:Hb. apply IH; [|by destruct r].
  apply (reach_connect gen b c r c' Hc Hb). by intros ->.
Qed.

Lemma ex_c0_reachable : reachable ex_genesis ex_c0.
Proof.
  apply (reach_genesis _ 1000 DEFAULT_JOURNAL_CAPACITY). vm_compute. reflexivity.
Qed.

Lemma ex_c1_reachable : reachable ex_genesis ex_c1.
Proof. apply ex_run_reachable; [apply ex_c0_reachable|vm_compute; reflexivity]. Qed.
Lemma ex_c4_reachable : reachable ex_genesis ex_c4.
Proof. apply ex_run_reachable; [apply ex_c0_reachable|vm_compute; reflexivity]. Qed.
Lemma ex_c5_reachable : reachable ex_genesis ex_c5.
Proof. apply ex_run_reachable; [apply ex_c0_reachable|vm_compute; reflexivity]. Qed.

(** The fork became active. *)
Example ex_c5_tip : tip_hash ex_c5 = block_hash ex_f3.
Proof. vm_compute. reflexivity. Qed.

Lemma ex_keyed c : reachable ex_genesis c → keyed (known c).
Proof. intros [Hi _]%reachable_good. apply (cc_known _ _ (ci_core _ _ Hi)). Qed.

Lemma ex_c5_distinct : txids_distinct (block_hash ex_genesis) (known ex_c5).
Proof.
  intros h l. revert h l.
  refine (branches_check (λ l, NoDup (map tx_id (chain_txs l))) (block_hash ex_genesis)
    (known ex_c5) (ex_keyed _ ex_c5_reachable) _).
  vm_compute. reflexivity.
Qed.

Lemma ex_c5_fit : works_fit (block_hash ex_genesis) (known ex_c5).
Proof.
  intros h l. revert h l.
  refine (branches_check (λ l, branch_work l < 2 ^ 256) (block_hash ex_genesis)
    (known ex_c5) (ex_keyed _ ex_c5_reachable) _).
  vm_compute. reflexivity.
Qed.

(** Type ranges of concrete data. *)
Ltac concrete_wf :=
  repeat match goal with
  | |- block_wf _ => split
  | |- header_wf _ => repeat split
  | |- tx_wf _ => split_and!
  | |- txin_wf _ => split_and!
  | |- txout_wf _ => split
  | |- Forall _ (transactions ?b) =>
      let l := eval cbv delta [transactions ex_genesis ex_f1 ex_f2 ex_f3 ex_b1 ex_b2 ex_block]
                    beta iota zeta in (transactions b) in change (Forall tx_wf l)
  | |- Forall ?P (tx_inputs ?t) => let l := eval hnf in (tx_inputs t) in change (Forall P l)
  | |- Forall ?P (tx_outputs ?t) => let l := eval hnf in (tx_outputs t) in change (Forall P l)
  | |- Forall _ [] => constructor
  | |- Forall _ (_ :: _) => constructor
  | |- in_u _ _ => split
  | |- in_i _ _ => split
  | |- _ ∧ _ => split
  | |- _ = _ => vm_compute; reflexivity
  | |- _ < _ => vm_compute; reflexivity
  | |- _ ≤ _ => vm_compute; intros [=]
  end.

(** ** Witnesses *)

Lemma reachable_chain_invariant_witness : chain_inv (block_hash ex_genesis) ex_c5.
Proof. apply reachable_chain_invariant. exact ex_c5_reachable. Defined.

Lemma utxo_set_is_replay_witness : utxo ex_c5 = utxo_after ∅ (chain_txs (blocks ex_c5)).
Proof.
  apply (utxo_set_is_replay ex_genesis); [exact ex_c5_reachable|exact ex_c5_distinct].
Defined.

Lemma supply_bounded_by_coinbases_witness :
  total_value (utxo ex_c5) ≤ minted (chain_txs (blocks ex_c5)).
Proof.
  apply (supply_bounded_by_coinbases ex_genesis);
    [exact ex_c5_reachable|].
  assert (blocks ex_c5 = [ex_genesis; ex_f1; ex_f2; ex_f3]) as -> by (vm_compute; reflexivity).
  concrete_wf.
Defined.

Lemma active_tip_has_most_work_witness :
  work_val (total_work ex_c5) = branch_work (blocks ex_c5) ∧
  ∀ h m, known ex_c5 !! h = Some m → work_val (bm_work m) ≤ work_val (total_work ex_c5).
Proof.
  apply (active_tip_has_most_work ex_genesis); [exact ex_c5_reachable|exact ex_c5_fit].
Defined.

Definition ex_f3_outcome := connect_block ex_f3 ex_c4.

Lemma ex_run_snoc bs b c : ex_run (bs ++ [b]) c = (connect_block b (ex_run bs c)).2.
Proof. unfold ex_run. by rewrite foldl_app. Qed.
Lemma ex_c5_eq : ex_c5 = ex_f3_outcome.2.
Proof. unfold ex_c5. rewrite ex_run_snoc. unfold ex_f3_outcome, ex_c4. exact eq_refl. Qed.

Lemma connect_block_never_regresses_witness :
  work_val (total_work ex_c4) ≤ work_val (total_work ex_f3_outcome.2).
Proof.
  apply (connect_block_never_regresses ex_genesis ex_f3 ex_c4 ex_f3_outcome.2 ex_f3_outcome.1).
  - exact ex_c4_reachable.
  - unfold ex_f3_outcome. by destruct (connect_block ex_f3 ex_c4).
  - vm_compute. discriminate.
  - rewrite <- ex_c5_eq. exact ex_c5_fit.
Defined.

Definition ex_b2_outcome := connect_block_inner ex_b2 false ex_c1.

Lemma connect_block_outcomes_witness :
  connect_post (block_hash ex_genesis) ex_b2 ex_c1 ex_b2_outcome.1 ex_b2_outcome.2 ∧
  known_dom ex_b2 ex_c1 ex_b2_outcome.2.
Proof.
  apply (connect_block_outcomes ex_genesis).
  - exact ex_c1_reachable.
  - unfold ex_b2_outcome. by destruct (connect_block_inner ex_b2 false ex_c1).
  - vm_compute. discriminate.
Defined.

(** The same spend again: its input is gone. *)
Definition ex_double : Block := ex_block (block_hash ex_b1) 102 2 [ex_spend1].
Definition ex_double_outcome := connect_block ex_double ex_c1.

Lemma ex_c1_no_orphans h o : orphans ex_c1 !! h = Some o → False.
Proof.
  assert (orphans ex_c1 = ∅) as -> by (apply map_size_empty_iff; vm_compute; reflexivity).
  by rewrite lookup_empty.
Qed.

Lemma failed_connect_restores_state_witness :
  ex_double_outcome.1 = Err (ErrUtxo (MissingInput (tx_id (coinbase_transaction 0 50)) 0)) ∧
  blocks ex_double_outcome.2 = blocks ex_c1 ∧ utxo ex_double_outcome.2 = utxo ex_c1.
Proof.
  assert (ex_double_outcome.1 =
    Err (ErrUtxo (MissingInput (tx_id (coinbase_transaction 0 50)) 0))) as He
    by (vm_compute; reflexivity).
  split; [exact He|].
  destruct (failed_connect_restores_state ex_genesis ex_double ex_c1 ex_double_outcome.2
    (ErrUtxo (MissingInput (tx_id (coinbase_transaction 0 50)) 0)))
    as (bs&x&c1&_&_&[(_&_&->)|(ys&_&Hpool)]&Hb&_&_&Hu&_); [exact ex_c1_reachable| |by split|].
  - rewrite <- He. exact (surjective_pairing ex_double_outcome).
  - exfalso. apply Forall_app in Hpool as [_ [(h&o&Ho&_) _]%Forall_cons].
    apply ex_c1_no_orphans in Ho. done.
Defined.

Lemma ex_b1_known : is_Some (known ex_c1 !! block_hash ex_b1).
Proof. apply (bool_decide_unpack _). vm_compute. exact I. Qed.
Lemma indexed_blocks_are_sane_witness : ∃ m,
  known ex_c1 !! block_hash ex_b1 = Some m ∧ block_sane (bm_block m).
Proof.
  destruct ex_b1_known as [m Hm]. exists m. split; [exact Hm|].
  apply (indexed_blocks_are_sane ex_genesis ex_c1 (block_hash ex_b1)); [exact ex_c1_reachable|exact Hm].
Defined.

Lemma orphan_pool_is_fifo_witness : ∃ c', insert_orphan ex_f2 ex_c0 = (Ok (), c').
Proof.
  destruct (orphan_pool_is_fifo ex_f2 ex_c0) as (c'&e&kept&H&_); [vm_compute; reflexivity|].
  exists c'. exact H.
Defined.

Lemma chain_loops_terminate_witness :
  ∃ path fork, collect_fork_path ex_c4 ex_f3 = Ok (path, fork) ∧ fork ∈ active_hashes ex_c4.
Proof.
  apply (chain_loops_terminate ex_genesis); [exact ex_c4_reachable|].
  vm_compute. eexists. reflexivity.
Defined.

(** Eleven blocks with out-of-order timestamps. *)
Fixpoint ex_extend (prev : list byte) (height : Z) (times : list Z) : list Block :=
  match times with
  | [] => []
  | t :: times' => let b := ex_block prev t height [] in b :: ex_extend (block_hash b) (height + 1) times'
  end.
Definition ex_long_blocks : list Block :=
  ex_extend (block_hash ex_genesis) 1 [109; 110; 115; 112; 120; 118; 113; 114; 130; 116].
Definition ex_long : Chain := ex_run ex_long_blocks ex_c0.
Lemma ex_long_reachable : reachable ex_genesis ex_long.
Proof. apply ex_run_reachable; [apply ex_c0_reachable|vm_compute; reflexivity]. Qed.

Lemma median_time_past_is_median_witness :
  median_past_time_before ex_long (tip_hash ex_long)
    ∈ take 11 (map (λ b, hdr_time (header b)) (reverse (blocks ex_long))).
Proof.
  pose proof ex_long_reachable as [Hi _]%reachable_good.
  apply (median_time_past_is_median ex_genesis ex_long (tip_hash ex_long) (blocks ex_long)).
  - exact (cc_tip _ _ (ci_core _ _ Hi)).
  - apply Nat.leb_le. vm_compute. reflexivity.
Defined.
Example ex_long_median : median_past_time_before ex_long (tip_hash ex_long) = 114.
Proof. vm_compute. reflexivity. Qed.

Lemma checked_block_conserves_value_witness :
  total_value (apply_transactions (utxo ex_c0) (transactions ex_b1)).2
  ≤ total_value (utxo ex_c0) + minted (transactions ex_b1).
Proof.
  apply checked_block_conserves_value.
  - unfold values_ok, in_u. apply (bool_decide_unpack _). vm_compute. exact I.
  - concrete_wf.
  - vm_compute. reflexivity.
Defined.

Lemma disconnect_undoes_apply_witness :
  let '(undos, u') := apply_transactions (utxo ex_c0) (transactions ex_b1) in
  disconnect_undos u' undos = utxo ex_c0.
Proof.
  apply disconnect_undoes_apply. cbn [fresh_block transactions ex_b1 ex_block].
  unfold fresh_outputs, map_disjoint.
  split_and!; [apply (bool_decide_unpack _); vm_compute; exact I..|exact I].
Defined.

Lemma header_commits_to_transactions_witness :
  ex_b1 = ex_b1 ∨ sha256d_collision ∨
  ∃ tx1 tx2, tx1 ≠ tx2 ∧ sha256d (serialize_tx tx1) = sha256d (serialize_tx tx2) ∧
             serialize_tx tx1 ≠ serialize_tx tx2.
Proof.
  assert (Forall tx_within_limits (transactions ex_b1)) as Hlim.
  { cbn [transactions ex_b1 ex_block]. repeat constructor; vm_compute; intros [=]. }
  apply header_commits_to_transactions; [concrete_wf|concrete_wf|exact Hlim|exact Hlim|..];
    vm_compute; reflexivity.
Defined.

Lemma sighash_commitment_witness :
  sighash_preimage ex_spend2 0 [ex_lock] = sighash_preimage (ex_spend2_with []) 0 [ex_lock] ↔
  signed_view ex_spend2 0 [ex_lock] = signed_view (ex_spend2_with []) 0 [ex_lock].
Proof.
  apply sighash_commitment.
  - concrete_wf.
  - concrete_wf.
  - repeat constructor; vm_compute; intros [=].
  - repeat constructor; vm_compute; intros [=].
  - repeat constructor; vm_compute; intros [=].
  - repeat constructor; vm_compute; intros [=].
Defined.
