(* ===== verification/ChainExtend.v ===== *)
(** * Which blocks extend the tip (bitrst-core/src/chain.rs)

    [connect_block] on a child of the tip: it is connected exactly when it satisfies the rules
    ([extends]), and then exactly the listed parts of the state change. *)

From stdpp Require Import prelude gmap strings list sorting.
From Stdlib Require Import Strings.Byte.
From S2P Require Import Prelude Bytes Crypto U256 Pow Difficulty Wire Transaction Merkle Block.
From S2P Require Import Utxo Script Sighash Journal Store Chain ChainTx ChainInv ChainReorg.
From S2P Require Import ChainProps ChainTheorems ChainExamples.

Local Open Scope Z_scope.

Section extend.
Context {crypto : CryptoLib} {order : HashOrder} {flags : BuildFlags}.

Definition next_height (pm : BlockMeta) : Z := u32_wrapping_add (bm_height pm) 1.

(** The rules for a child of the tip, whose entry in the index is [pm]. *)
Record extends (c : Chain) (pm : BlockMeta) (b : Block) : Prop := {
  ex_limits : validate_block_limits b = Ok ();
  ex_unknown : known c !! block_hash b = None;
  ex_not_pooled : orphans c !! block_hash b = None;
  ex_sane : block_sane b;
  ex_time : median_past_time_before c (tip_hash c) < hdr_time (header b) ≤
            u32_saturating_add (network_time c) MAX_FUTURE_BLOCK_TIME;
  ex_bits : expected_bits c (next_height pm) (hdr_bits (header b)) = Ok (hdr_bits (header b));
  ex_txs : validate_block_transactions_for_utxo b (utxo c) = Ok ();
  ex_work : ∃ w, block_work (hdr_bits (header b)) = Ok w
}.

(** The header rules are sufficient, too. *)
Lemma validate_header_of_rules c b parent ph (h : Z) :
  block_sane b →
  (∀ p x, parent = Some p → ph = Some x →
    valid_block_time (hdr_time (header b)) (median_past_time_before c x) (network_time c) = true) →
  expected_bits c h (hdr_bits (header b)) = Ok (hdr_bits (header b)) →
  validate_block_header_for_parent c b parent ph h = Ok ().
Proof.
  intros ((t&Ht&Hm)&Hr&Hcb) Htime Hbits. unfold validate_block_header_for_parent.
  rewrite Ht. simpl. rewrite Hm, Hr. simpl.
  destruct Hcb as (cb&txs&Htxs&Hcb&Hrest).
  assert (coinbase_count b = 1%nat) as ->.
  { unfold coinbase_count. rewrite Htxs, filter_cons_True by by rewrite Hcb. simpl.
    f_equal. clear Htxs. induction Hrest as [|tx rest Htx _ IH]; [done|].
    rewrite filter_cons_False by (rewrite Htx; exact id). exact IH. }
  simpl. rewrite Htxs. simpl. rewrite Hcb. simpl.
  assert ((match parent, ph with
     | Some _, Some parent_hash =>
         if valid_block_time (hdr_time (header b)) (median_past_time_before c parent_hash)
              (network_time c)
         then Ok ()
         else Err (InvalidTimestamp (hdr_time (header b))
                (median_past_time_before c parent_hash) (network_time c))
     | _, _ => Ok ()
     end) = Ok ()) as ->.
  { destruct parent as [p|], ph as [x|]; try done. by rewrite (Htime p x). }
  simpl. rewrite Hbits. simpl. by rewrite Z.eqb_refl.
Qed.

(** The state after the tip was extended. *)
Definition extended (c : Chain) (pm : BlockMeta) (b : Block) (w : ChainWork) : Chain :=
  let m := {| bm_block := b; bm_height := next_height pm; bm_work := work_add (bm_work pm) w;
              bm_undo := (apply_transactions (utxo c) (transactions b)).1 |} in
  let event := BlockConnected (next_height pm) (block_hash b) (zlen (transactions b)) in
  set_journals (journal_push event (event_journal c)).2 (disconnected_journal c)
    (set_total_work (bm_work m)
      (push_active_block b m (set_utxo (apply_transactions (utxo c) (transactions b)).2 c)).2).

Lemma connect_one_extends c pm b w :
  known c !! tip_hash c = Some pm → parent_of b = tip_hash c →
  block_work (hdr_bits (header b)) = Ok w → extends c pm b →
  connect_one b c = (Ok (Connected (next_height pm) (block_hash b)), extended c pm b w).
Proof.
  intros Hpm Hp Hw [Hlim Hk Ho Hsane Htime Hbits Htxs _].
  unfold connect_one, connect_block_with, sbind, sget, slift. rewrite Hlim.
  assert (has_block_hash c (block_hash b) = false) as ->.
  { unfold has_block_hash. rewrite Hk, Ho. by rewrite !bool_decide_false by (by intros []). }
  fold (parent_of b). rewrite Hp, Hpm.
  unfold validate_block_for_parent.
  rewrite (validate_header_of_rules c b (Some (bm_block pm)) (Some (tip_hash c))); [|done| |exact Hbits].
  2:{ intros p x _ [= <-]. by apply valid_block_time_true. }
  cbn [rbind]. rewrite Htxs, Hw. rewrite bool_decide_true by done.
  unfold apply_block_transactions. destruct (apply_transactions (utxo c) (transactions b)) as [undos u] eqn:Ha.
  unfold extended. rewrite Ha. cbn [fst snd].
  destruct (push_active_block _ _ _) as [r1 c1] eqn:Hpush.
  assert (r1 = Ok () ∧ event_journal c1 = event_journal c ∧ disconnected_journal c1 = disconnected_journal c)
    as (->&Hj&Hd) by (by injection Hpush as <- <-).
  unfold smodify, push_event, sret. cbn [snd]. rewrite <- Hj, <- Hd. 
  by destruct (journal_push _ _) as [s j].
Qed.

Lemma process_no_orphans c : orphans c = ∅ → process_orphans c = (Ok (), c).
Proof.
  intros Ho. unfold process_orphans, sbind, sget, enqueue_ready_orphans. rewrite Ho.
  rewrite (proj2 (hm_iter_nil ∅) eq_refl). simpl. rewrite <- Ho. destruct c. by destruct (size _).
Qed.

(** [connect_block], on a chain without orphans. *)
Lemma connect_block_extends c pm b w :
  known c !! tip_hash c = Some pm → parent_of b = tip_hash c →
  block_work (hdr_bits (header b)) = Ok w → extends c pm b → orphans c = ∅ →
  connect_block b c = (Ok (Connected (next_height pm) (block_hash b)), extended c pm b w).
Proof.
  intros Hpm Hp Hw He Ho. unfold connect_block, connect_block_inner.
  rewrite connect_block_with_split, (connect_one_extends c pm b w) by done.
  unfold sbind. by rewrite process_no_orphans.
Qed.

Lemma connected_extends c pm b h hash c' :
  known c !! tip_hash c = Some pm → parent_of b = tip_hash c →
  connect_one b c = (Ok (Connected h hash), c') → extends c pm b.
Proof.
  intros Hpm Hp Hrun. unfold connect_one, connect_block_with, sbind, sget, slift, sthrow in Hrun.
  destruct (validate_block_limits b) as [[]| |] eqn:Hlim; [|by simplify_eq..].
  destruct (has_block_hash c (block_hash b)) eqn:Hhas; [by simplify_eq|].
  apply orb_false_iff in Hhas as [Hk%bool_decide_eq_false Ho%bool_decide_eq_false].
  apply eq_None_not_Some in Hk, Ho. fold (parent_of b) in Hrun. rewrite Hp, Hpm in Hrun.
  destruct (validate_block_for_parent _ _ _ _ _) as [[]| |] eqn:Hval; [|by simplify_eq..].
  apply rbind_Ok in Hval as ([]&(Hsane&Htime&Hbits)%validate_header_Ok&Hval).
  destruct (block_work (hdr_bits (header b))) as [bw|e|] eqn:Hbw; [|by simplify_eq..].
  split; try done; [|by eexists]. apply valid_block_time_true. by eapply Htime.
Qed.

(** [connect_block] extends the tip only by such a block. *)
Lemma connect_block_Connected c pm b h hash c' :
  known c !! tip_hash c = Some pm → parent_of b = tip_hash c →
  connect_block b c = (Ok (Connected h hash), c') → extends c pm b.
Proof.
  intros Hpm Hp. unfold connect_block, connect_block_inner. rewrite connect_block_with_split.
  destruct (connect_one b c) as [[[h1 x1|x1|h1 x1|x1 x2]|e|] c1] eqn:H1; try done.
  - intros _. by eapply connected_extends.
  - unfold sbind. by destruct (process_orphans c1) as [[]?].
Qed.

(** C7 (functional): which blocks a chain accepts as its next one, exactly.  On a reachable
    chain, a child of the tip is connected if and only if it is within the size limits and
    new, has the proof of work its bits claim, commits to its transactions and starts with
    its only coinbase, its time is past the median and at most two hours ahead, its bits are
    the expected ones, its transactions are valid against the UTXO set and its work can be
    computed. *)
Theorem next_block_rules (gen b : Block) (c : Chain) :
  reachable gen c → parent_of b = tip_hash c →
  ∃ pm, known c !! tip_hash c = Some pm ∧
    ((∃ h hash c', connect_block_inner b false c = (Ok (Connected h hash), c')) ↔ extends c pm b).
Proof.
  intros [Hi _]%reachable_good Hp. destruct (ci_work _ _ Hi) as (pm&Hpm&_). exists pm.
  split; [done|]. change (connect_block_inner b false c) with (connect_one b c). split.
  - intros (h&hash&c'&Hrun). by eapply connected_extends.
  - intros He. destruct (ex_work _ _ _ He) as [w Hw]. eexists _, _, _. by apply connect_one_extends.
Qed.
End extend.

(** ** A concrete next block *)

#[local] Existing Instance toy_crypto.
#[local] Existing Instance canonical_order.
#[local] Existing Instance ex_flags.

Lemma ex_b1_connects :
  (connect_block_inner ex_b1 false ex_c0).1 = Ok (Connected 1 (block_hash ex_b1)).
Proof. vm_compute. reflexivity. Qed.
Lemma ex_b1_child : parent_of ex_b1 = tip_hash ex_c0.
Proof. vm_compute. reflexivity. Qed.

Lemma next_block_rules_witness :
  ∃ pm, known ex_c0 !! tip_hash ex_c0 = Some pm ∧ extends ex_c0 pm ex_b1.
Proof.
  destruct (next_block_rules ex_genesis ex_b1 ex_c0 ex_c0_reachable ex_b1_child) as (pm&Hpm&Hiff).
  exists pm. split; [exact Hpm|]. apply Hiff.
  exists 1, (block_hash ex_b1), (connect_block_inner ex_b1 false ex_c0).2.
  rewrite <- ex_b1_connects. apply surjective_pairing.
Defined.
