(* ===== verification/ChainFindings.v ===== *)
(** * Histories with surprising outcomes

    Concrete runs of [connect_block] (bitrst-core/src/chain.rs) in which the code does
    something its callers would not expect: an invalid orphan turns the connection of its
    valid parent into an error, a valid fork block is rejected because of what the active
    chain spent, an orphan of a side chain stays in the pool when its parent arrives, and a
    repeated coinbase loses an unspent output. *)

From stdpp Require Import prelude gmap strings list sorting.
From Stdlib Require Import Strings.Byte.
From S2P Require Import Prelude Bytes Crypto U256 Pow Difficulty Wire Transaction Merkle Block.
From S2P Require Import Utxo Script Sighash Journal Store Chain ChainTx ChainInv ChainReorg.
From S2P Require Import ChainProps ChainTheorems ChainExamples.

Local Open Scope Z_scope.

#[local] Existing Instance toy_crypto.
#[local] Existing Instance canonical_order.
#[local] Existing Instance ex_flags.

Definition is_err {E A} (r : Result E A) : bool := match r with Err _ => true | _ => false end.

(** [process_orphans] uses [?] on the released orphans: the parent is connected, the tip
    moves, and the call still fails with the orphan's error. *)
Definition bad_orphan : Block := ex_block (block_hash ex_b1) 50 2 [].
Definition with_bad_orphan : Chain := (connect_block bad_orphan ex_c0).2.

Example valid_parent_of_invalid_orphan :
  is_err (connect_block ex_b1 with_bad_orphan).1 = true ∧
  bool_decide (tip_hash (connect_block ex_b1 with_bad_orphan).2 = block_hash ex_b1) = true.
Proof. split; vm_compute; reflexivity. Qed.

(** The transactions of every block, side-chain blocks too, are validated against the UTXO
    set of the active chain: a fork block that spends, on its own branch, an output which
    the active chain has spent too is rejected, though it was accepted where its branch was
    the active one. *)
Definition fork_spend : Block := ex_block (block_hash ex_genesis) 107 1 [ex_spend1].

Example valid_fork_block_rejected :
  is_ok (connect_block fork_spend ex_c0).1 = true ∧
  (connect_block fork_spend ex_c1).1 =
    Err (ErrUtxo (MissingInput (tx_id (coinbase_transaction 0 50)) 0)).
Proof. split; vm_compute; reflexivity. Qed.

(** A block that extends a side chain without overtaking the active chain returns before
    [process_orphans]: its orphan child, which makes the side chain the heaviest, stays in
    the pool, and no later delivery of the two blocks brings it in. *)
Definition ex_two_active : Chain := ex_run [ex_b1; ex_b2; ex_f1; ex_f3] ex_c0.
Definition ex_two_done : Chain := (connect_block ex_f2 ex_two_active).2.

Example orphan_of_side_chain_stays :
  (connect_block ex_f2 ex_two_active).1 = Ok (SideChain 2 (block_hash ex_f2)) ∧
  bool_decide (is_Some (orphans ex_two_done !! block_hash ex_f3)) = true ∧
  is_ok (connect_block ex_f3 ex_two_done).1 = false ∧
  is_ok (connect_block ex_f3 ex_c4).1 = true.
Proof. split_and!; vm_compute; reflexivity. Qed.

(** Nothing forbids a second transaction with the identifier of one whose outputs are unspent
    (the rule of BIP 30): the outputs of the second replace those of the first, and when a
    reorganization disconnects the second block they are deleted, though the first block is
    still active.  The coinbase of [first_mint] can no longer be spent, and the UTXO set is
    not the replay of the active blocks. *)
Definition first_mint : Block := ex_block (block_hash ex_genesis) 110 1 [].
Definition second_mint : Block := ex_block (block_hash first_mint) 111 1 [].
Definition fork_mint : Block := ex_block (block_hash first_mint) 112 2 [].
Definition fork_tip : Block := ex_block (block_hash fork_mint) 113 3 [].
Definition minted_twice : Chain := ex_run [first_mint; second_mint; fork_mint; fork_tip] ex_c0.
Definition first_reward : OutPoint :=
  {| op_txid := tx_id (coinbase_transaction 1 50); op_index := 0 |}.

Example repeated_coinbase_is_lost :
  reachable ex_genesis minted_twice ∧
  blocks minted_twice = [ex_genesis; first_mint; fork_mint; fork_tip] ∧
  get_value (utxo minted_twice) first_reward = None ∧
  get_value (utxo_after ∅ (chain_txs (blocks minted_twice))) first_reward = Some 50.
Proof.
  split; [apply ex_run_reachable; [exact ex_c0_reachable|vm_compute; reflexivity]|].
  split_and!; vm_compute; reflexivity.
Qed.
