(* ===== verification/Mempool.v ===== *)
(** * The transaction pool (bitrst-core/src/mempool.rs)

    Admission of a transaction against the chain's UTXO set and the pool, eviction by fee
    rate, and the synchronization of the pool with a changed chain.  Each operation returns
    its outcome with the pool it leaves; [Panic] also stands for a loop that runs out of
    fuel, which the theorem [pool_calls_return] of MempoolTheorems excludes. *)

From stdpp Require Import prelude gmap strings list sorting.
From Stdlib Require Import Strings.Byte.
From S2P Require Import Prelude Bytes Crypto U256 Wire Transaction Merkle Block Utxo Script.
From S2P Require Import Sighash Journal Store Chain.

Local Open Scope string_scope.
Local Open Scope Z_scope.
Local Open Scope list_scope.

(** ** Data *)

Record MempoolLimits := { max_tx_count : Z; max_bytes : Z }.
Definition default_limits : MempoolLimits :=
  {| max_tx_count := DEFAULT_MAX_MEMPOOL_TX_COUNT; max_bytes := DEFAULT_MAX_MEMPOOL_BYTES |}.

Record AcceptedTx := { at_txid : list byte; at_fee : Z; at_size : Z }.

Inductive MempoolError :=
| MempoolCoinbase
| Duplicate (txid : list byte)
| DuplicateInput (txid : list byte) (index : Z)
| Oversized (size limit : Z)
| Malformed (context : string)
| MempoolUtxo (e : UtxoError)
| ConflictingSpend (outpoint : OutPoint) (existing_txid : list byte)
| MempoolInvalidScript
| MempoolSighash (e : SighashError)
| AtCapacity.
#[global] Instance MempoolError_eq_dec : EqDecision MempoolError.
Proof. solve_decision. Defined.

Record MempoolEntry := { me_tx : Transaction; me_fee_rate : Z; me_size : Z; me_seq : Z }.

Record Mempool := {
  limits : MempoolLimits;
  entries : gmap (list byte) MempoolEntry;
  spends : gmap OutPoint (list byte);
  total_bytes : Z;
  next_seq : Z
}.

Definition new_mempool (limits : MempoolLimits) : Mempool :=
  {| limits := limits; entries := ∅; spends := ∅; total_bytes := 0; next_seq := 0 |}.

(** [usize] arithmetic of a release build on a 64-bit machine. *)
Definition usize_add (a b : Z) : Z := (a + b) mod 2 ^ 64.
Definition usize_sub (a b : Z) : Z := (a - b) mod 2 ^ 64.

(** ** Checks on a transaction alone or against a view *)

Definition validate_tx_structure (tx : Transaction) : Result MempoolError Z :=
  let size := serialized_size tx in
  if MAX_TRANSACTION_SERIALIZED_SIZE <? size then
    Err (Oversized size MAX_TRANSACTION_SERIALIZED_SIZE)
  else if bool_decide (tx_outputs tx = []) then Err (Malformed "transaction has no outputs")
  else if negb (is_coinbase tx) && bool_decide (tx_inputs tx = []) then
    Err (Malformed "non-coinbase transaction has no inputs")
  else
    check? rfor (λ input, if MAX_SCRIPT_SIZE <? zlen (script_sig input)
                          then Err (Malformed "scriptSig exceeds maximum size") else Ok ())
             (tx_inputs tx) ;;
    check? rfor (λ output, if MAX_SCRIPT_SIZE <? zlen (script_pubkey output)
                           then Err (Malformed "scriptPubKey exceeds maximum size") else Ok ())
             (tx_outputs tx) ;;
    Ok size.

Definition compute_fee (tx : Transaction) (view : UtxoSet) : Result MempoolError Z :=
  let? inputs := map_err MempoolUtxo (input_sum view tx) in
  let? outputs := map_err MempoolUtxo (output_sum tx) in
  if inputs <? outputs then Err (MempoolUtxo (InputOutputMismatch inputs outputs))
  else Ok (inputs - outputs).

Section mempool.
Context {crypto : CryptoLib} {order : HashOrder}.

Definition check_duplicate_inputs (tx : Transaction) : Result MempoolError unit :=
  let txid := tx_id tx in
  check? rfold (λ (seen : gset OutPoint) input,
           let key := input_outpoint input in
           if bool_decide (key ∈ seen) then Err (DuplicateInput txid (txin_index input))
           else Ok ({[key]} ∪ seen)) ∅ (tx_inputs tx) ;;
  Ok ().

Definition verify_scripts (tx : Transaction) (view : UtxoSet) : Result MempoolError unit :=
  let? scripts := map_err MempoolUtxo (prev_scripts view tx) in
  verify_inputs MempoolSighash MempoolInvalidScript tx scripts.

Definition is_valid_for_view (tx : Transaction) (view : UtxoSet) : bool :=
  is_ok (validate_tx_structure tx) && negb (is_coinbase tx) &&
  is_ok (check_duplicate_inputs tx) && is_ok (validate_transaction view tx) &&
  is_ok (verify_scripts tx view).

(** ** Queries *)

Definition mempool_len (p : Mempool) : Z := Z.of_nat (size (entries p)).
Definition mempool_contains (p : Mempool) (txid : list byte) : bool :=
  bool_decide (is_Some (entries p !! txid)).
Definition get_transaction (p : Mempool) (txid : list byte) : option Transaction :=
  me_tx <$> entries p !! txid.

(** The entries by admission order. *)
Definition ordered (p : Mempool) : list MempoolEntry :=
  sort_by_key me_seq (map snd (hm_iter (entries p))).

Definition build_validation_view (p : Mempool) (chain_utxo : UtxoSet) : UtxoSet :=
  foldl (λ view entry, (apply_transaction view (me_tx entry)).2) chain_utxo (ordered p).

Definition is_valid_tx (p : Mempool) (tx : Transaction) (chain_utxo : UtxoSet) : bool :=
  let txid := tx_id tx in
  let view := foldl (λ view entry,
    if bool_decide (tx_id (me_tx entry) = txid) then view
    else (apply_transaction view (me_tx entry)).2) chain_utxo (ordered p) in
  is_valid_for_view tx view.

Definition check_mempool_conflicts (p : Mempool) (tx : Transaction) : Result MempoolError unit :=
  rfor (λ input,
    let outpoint := input_outpoint input in
    match spends p !! outpoint with
    | Some existing_txid => Err (ConflictingSpend outpoint existing_txid)
    | None => Ok ()
    end) (tx_inputs tx).

(** ** Insertion and removal *)

Definition insert_entry (p : Mempool) (txid : list byte) (entry : MempoolEntry) : Mempool := {|
  limits := limits p;
  entries := <[txid := entry]> (entries p);
  spends := foldl (λ s input, <[input_outpoint input := txid]> s) (spends p)
              (tx_inputs (me_tx entry));
  total_bytes := usize_add (total_bytes p) (me_size entry);
  next_seq := u64_wrapping_add (next_seq p) 1
|}.

Definition remove_entry (p : Mempool) (txid : list byte) : Mempool :=
  match entries p !! txid with
  | None => p
  | Some entry => {|
      limits := limits p;
      entries := delete txid (entries p);
      spends := filter (λ '(_, owner), owner ≠ txid) (spends p);
      total_bytes := usize_sub (total_bytes p) (me_size entry);
      next_seq := next_seq p
    |}
  end.
Definition remove_entries (p : Mempool) (txids : list (list byte)) : Mempool :=
  foldl remove_entry p txids.

(** [descendants_of]: the inner loop pushes the owners of outputs of [current] not met yet;
    the outer one pops until the stack is empty. *)
Definition visit_spenders (p : Mempool) (current : list byte)
    (st : gset (list byte) * list (list byte)) : gset (list byte) * list (list byte) :=
  foldl (λ '(descendants, stack) '(outpoint, owner),
    if bool_decide (op_txid outpoint = current) && bool_decide (owner ∉ descendants)
    then ({[owner]} ∪ descendants, owner :: stack)
    else (descendants, stack)) st (hm_iter (spends p)).

Fixpoint descendants_loop (fuel : nat) (p : Mempool)
    (descendants : gset (list byte)) (stack : list (list byte)) : option (gset (list byte)) :=
  match stack with
  | [] => Some descendants
  | current :: stack =>
      match fuel with
      | O => None
      | S fuel' =>
          let '(descendants, stack) := visit_spenders p current (descendants, stack) in
          descendants_loop fuel' p descendants stack
      end
  end.
Definition descendants_of (p : Mempool) (root : list byte) : option (gset (list byte)) :=
  descendants_loop (S (size (spends p))) p ∅ [root].

Definition MM := SM Mempool MempoolError.

Definition remove_entry_and_descendants (txid : list byte) : MM unit := λ p,
  match descendants_of p txid with
  | None => (Panic, p)
  | Some descendants => (Ok (), remove_entries p (hs_iter ({[txid]} ∪ descendants)))
  end.

(** ** Capacity *)

Definition would_exceed_limits (p : Mempool) (incoming_size : Z) : bool :=
  let next_count := usize_add (mempool_len p) 1 in
  let next_bytes := usize_add (total_bytes p) incoming_size in
  (max_tx_count (limits p) <? next_count) || (max_bytes (limits p) <? next_bytes).

Definition should_evict (p : Mempool) (victim : list byte) (candidate : MempoolEntry) : bool :=
  match entries p !! victim with
  | None => false
  | Some entry =>
      if me_fee_rate entry <? me_fee_rate candidate then true
      else if me_fee_rate candidate <? me_fee_rate entry then false
      else me_seq entry <? me_seq candidate
  end.

(** [left] has a strictly lower priority than [right]. *)
Definition lower_priority (left right : list byte * MempoolEntry) : bool :=
  (me_fee_rate left.2 <? me_fee_rate right.2) ||
  ((me_fee_rate left.2 =? me_fee_rate right.2) && (me_seq left.2 <? me_seq right.2)).
Definition lowest_priority_txid (p : Mempool) : option (list byte) :=
  fst <$> min_by lower_priority (hm_iter (entries p)).

Fixpoint make_room_loop (fuel : nat) (candidate : MempoolEntry) : MM unit := λ p,
  if negb (would_exceed_limits p (me_size candidate)) then (Ok (), p)
  else
    match lowest_priority_txid p with
    | None => (Err AtCapacity, p)
    | Some victim =>
        if negb (should_evict p victim candidate) then (Err AtCapacity, p)
        else
          match fuel with
          | O => (Panic, p)
          | S fuel' =>
              sbind (remove_entry_and_descendants victim)
                (λ _, make_room_loop fuel' candidate) p
          end
    end.
Definition make_room_for (candidate : MempoolEntry) : MM unit := λ p,
  make_room_loop (size (entries p)) candidate p.

(** ** Admission *)

Definition accept_tx (tx : Transaction) (chain_utxo : UtxoSet) : MM AcceptedTx := λ p,
  (let! size := slift (validate_tx_structure tx) in
   if is_coinbase tx then sthrow MempoolCoinbase
   else
     let txid := tx_id tx in
     if mempool_contains p txid then sthrow (Duplicate txid)
     else
       do! slift (check_duplicate_inputs tx) ;;
       do! slift (check_mempool_conflicts p tx) ;;
       let view := build_validation_view p chain_utxo in
       do! slift (map_err MempoolUtxo (validate_transaction view tx)) ;;
       let! fee := slift (compute_fee tx view) in
       do! slift (verify_scripts tx view) ;;
       let fee_rate := if 0 <? size then fee / size else 0 in
       let candidate := {| me_tx := tx; me_fee_rate := fee_rate; me_size := size;
                           me_seq := next_seq p |} in
       do! make_room_for candidate ;;
       do! smodify (λ p, insert_entry p txid candidate) ;;
       sret {| at_txid := txid; at_fee := fee; at_size := size |}) p.

(** ** Synchronization with the chain *)

(** The outpoints the non-coinbase transactions of a block spend. *)
Definition block_spends (block : Block) : gset OutPoint :=
  foldl (λ s tx, if is_coinbase tx then s
                 else foldl (λ s input, {[input_outpoint input]} ∪ s) s (tx_inputs tx))
    ∅ (transactions block).
Definition block_txids (block : Block) : gset (list byte) :=
  foldl (λ s tx, {[tx_id tx]} ∪ s) ∅ (transactions block).

(** One pass of the [loop] of [remove_for_block]. *)
Definition conflicts_with (bspends : gset OutPoint) (remove : gset (list byte))
    (entry : MempoolEntry) : bool :=
  existsb (λ input, bool_decide (input_outpoint input ∈ bspends)
                    || bool_decide (previous_output input ∈ remove)) (tx_inputs (me_tx entry)).
Definition conflict_pass (p : Mempool) (bspends : gset OutPoint) (remove : gset (list byte))
    : gset (list byte) * bool :=
  foldl (λ '(remove, added) '(txid, entry),
    if bool_decide (txid ∈ remove) then (remove, added)
    else if conflicts_with bspends remove entry then ({[txid]} ∪ remove, true)
    else (remove, added)) (remove, false) (hm_iter (entries p)).

Fixpoint conflict_loop (fuel : nat) (p : Mempool) (bspends : gset OutPoint)
    (remove : gset (list byte)) : option (gset (list byte)) :=
  let '(remove, added) := conflict_pass p bspends remove in
  if negb added then Some remove
  else match fuel with
       | O => None
       | S fuel' => conflict_loop fuel' p bspends remove
       end.

Definition remove_for_block (block : Block) : MM unit := λ p,
  match conflict_loop (size (entries p)) p (block_spends block) (block_txids block) with
  | None => (Panic, p)
  | Some remove => (Ok (), remove_entries p (hs_iter remove))
  end.

Definition find_invalid_txids (p : Mempool) (chain_utxo : UtxoSet) : list (list byte) :=
  (foldl (λ '(invalid, view) entry,
     let tx := me_tx entry in
     if negb (is_valid_for_view tx view) then (invalid ++ [tx_id tx], view)
     else (invalid, (apply_transaction view tx).2)) ([], chain_utxo) (ordered p)).1.

Fixpoint revalidate_loop (fuel : nat) (chain_utxo : UtxoSet) : MM unit := λ p,
  match find_invalid_txids p chain_utxo with
  | [] => (Ok (), p)
  | invalid =>
      match fuel with
      | O => (Panic, p)
      | S fuel' => revalidate_loop fuel' chain_utxo (remove_entries p invalid)
      end
  end.
Definition revalidate_pool (chain_utxo : UtxoSet) : MM unit := λ p,
  revalidate_loop (size (entries p)) chain_utxo p.

(** One pass over the candidates: whether one was admitted, and those that were not. *)
Fixpoint restore_pass (pending : list Transaction) (chain_utxo : UtxoSet)
    : MM (bool * list Transaction) := λ p,
  match pending with
  | [] => (Ok (false, []), p)
  | tx :: pending =>
      match accept_tx tx chain_utxo p with
      | (Panic, p) => (Panic, p)
      | (Ok _, p) =>
          sbind (restore_pass pending chain_utxo) (λ '(_, remaining), sret (true, remaining)) p
      | (Err _, p) =>
          sbind (restore_pass pending chain_utxo)
            (λ '(progress, remaining), sret (progress, tx :: remaining)) p
      end
  end.
Fixpoint restore_loop (fuel : nat) (pending : list Transaction) (chain_utxo : UtxoSet) : MM unit :=
  sbind (restore_pass pending chain_utxo) (λ '(progress, remaining),
    if negb progress || bool_decide (remaining = []) then sret ()
    else match fuel with
         | O => spanic
         | S fuel' => restore_loop fuel' remaining chain_utxo
         end).
Definition restore_candidates (candidates : list Transaction) (chain_utxo : UtxoSet) : MM unit :=
  restore_loop (length candidates) candidates chain_utxo.

(** The transactions of disconnected blocks worth restoring. *)
Definition restorable (blocks : list Block) : list Transaction :=
  concat (map (λ block, filter (λ tx, is_coinbase tx = false) (drop 1 (transactions block))) blocks).

Definition synchronize_to_chain (chain_utxo : UtxoSet)
    (connected_blocks disconnected_blocks : list Block) : MM unit :=
  let candidates := restorable disconnected_blocks in
  do! sfor connected_blocks remove_for_block ;;
  do! revalidate_pool chain_utxo ;;
  restore_candidates candidates chain_utxo.

Definition apply_chain_events (events : list ChainEvent) (chain : Chain) : MM unit :=
  let connected := omap (λ event, match event with
    | BlockConnected _ hash _ => block_by_hash chain hash | _ => None end) events in
  let disconnected := omap (λ event, match event with
    | BlockDisconnected _ hash => block_by_hash chain hash | _ => None end) events in
  synchronize_to_chain (utxo chain) connected disconnected.

(** [resync_to_active_chain]; its error type is another one. *)
Definition resync_to_active_chain (chain : Chain) (since_event_seq : Z)
    : SM Mempool DisconnectedBlockRecoveryError unit := λ p,
  match recovery_disconnected_blocks chain since_event_seq with
  | Panic => (Panic, p)
  | Err e => (Err e, p)
  | Ok disconnected =>
      let active := omap (active_block_at chain) (seqZ 0 (height chain + 1)) in
      match (do! sfor active remove_for_block ;;
             do! revalidate_pool (utxo chain) ;;
             restore_candidates (restorable disconnected) (utxo chain)) p with
      | (Ok _, p) => (Ok (), p)
      | (_, p) => (Panic, p)
      end
  end.

Definition serve_transaction (txid : list byte) (chain_utxo : UtxoSet)
    : Mempool → option Transaction * Mempool := λ p,
  match get_transaction p txid with
  | None => (None, p)
  | Some tx =>
      if is_valid_tx p tx chain_utxo then (Some tx, p)
      else (None, remove_entry p txid)
  end.
End mempool.
