(* ===== verification/MempoolInv.v ===== *)
(** * The pool invariant

    What an entry satisfies, how the index of spends, the byte count and the limits follow
    the entries; that insertion and removal keep it; the set of descendants; eviction. *)

From stdpp Require Import prelude gmap strings list sorting relations.
From Stdlib Require Import Strings.Byte.
From S2P Require Import Prelude Bytes Crypto U256 Wire Transaction Merkle Block Utxo Script.
From S2P Require Import Sighash Journal Store Chain ChainTx Mempool.

Local Open Scope Z_scope.

(** The configured limits are far below the range of [usize]. *)
Definition limits_ok (l : MempoolLimits) : Prop :=
  0 ≤ max_tx_count l < 2 ^ 63 ∧ 0 ≤ max_bytes l < 2 ^ 63.

Section mempool_inv.
Context {crypto : CryptoLib} {order : HashOrder}.
Implicit Types (p : Mempool) (e : MempoolEntry) (tx : Transaction) (t : list byte).

(** ** Checks *)

Lemma validate_tx_structure_Ok tx n :
  validate_tx_structure tx = Ok n ↔
  n = serialized_size tx ∧ n ≤ MAX_TRANSACTION_SERIALIZED_SIZE ∧ tx_outputs tx ≠ [] ∧
  (is_coinbase tx = true ∨ tx_inputs tx ≠ []) ∧
  Forall (λ i, zlen (script_sig i) ≤ MAX_SCRIPT_SIZE) (tx_inputs tx) ∧
  Forall (λ o, zlen (script_pubkey o) ≤ MAX_SCRIPT_SIZE) (tx_outputs tx).
Proof.
  unfold validate_tx_structure. set (sz := serialized_size tx).
  destruct (Z.ltb_spec MAX_TRANSACTION_SERIALIZED_SIZE sz); [split; [done|lia]|].
  case_bool_decide as Ho; [split; [done|naive_solver]|].
  destruct (negb (is_coinbase tx) && bool_decide (tx_inputs tx = [])) eqn:Hi.
  { apply andb_true_iff in Hi as [Hc Hi%bool_decide_eq_true]. apply negb_true_iff in Hc.
    split; [done|]. intros (_&_&_&[?|?]&_); congruence. }
  assert (is_coinbase tx = true ∨ tx_inputs tx ≠ []) as Hin.
  { apply andb_false_iff in Hi as [Hc|Hi]; [left; by destruct (is_coinbase tx)|right].
    by apply bool_decide_eq_false in Hi. }
  assert (∀ A (f : A → Z) (e : MempoolError) l,
    rfor (λ x, if MAX_SCRIPT_SIZE <? f x then Err e else Ok ()) l = Ok () ↔
    Forall (λ x, f x ≤ MAX_SCRIPT_SIZE) l) as Hfor.
  { intros A f er l. rewrite rfor_Ok. split; (intros HF; eapply Forall_impl; [apply HF|]);
      intros x; simpl; destruct (Z.ltb_spec MAX_SCRIPT_SIZE (f x)); done || lia. }
  rewrite rbind_Ok. setoid_rewrite rbind_Ok. split.
  - intros ([]&H1&[]&H2&[= <-]). apply Hfor in H1, H2. done.
  - intros (->&_&_&_&H1&H2). exists ().
    split; [by apply (Hfor _ (λ i, zlen (script_sig i)))|]. exists ().
    split; [by apply (Hfor _ (λ o, zlen (script_pubkey o)))|done].
Qed.

Lemma check_duplicate_inputs_Ok tx :
  check_duplicate_inputs tx = Ok () ↔ NoDup (map input_outpoint (tx_inputs tx)).
Proof.
  unfold check_duplicate_inputs. rewrite rbind_Ok.
  enough (∀ l (seen : gset OutPoint),
    (∃ s, rfold (λ seen input, if bool_decide (input_outpoint input ∈ seen)
            then Err (DuplicateInput (tx_id tx) (txin_index input))
            else Ok ({[input_outpoint input]} ∪ seen)) seen l = Ok s) ↔
    NoDup (map input_outpoint l) ∧ ∀ o, o ∈ map input_outpoint l → o ∉ seen) as H.
  { specialize (H (tx_inputs tx) ∅). split.
    - intros (s&Hs&_). apply H. eauto.
    - intros Hnd. destruct (proj2 H) as [s Hs]; [split; [done|]|eauto].
      intros o _. apply not_elem_of_empty. }
  induction l as [|i l IH]; intros seen; cbn [rfold map].
  { split; [intros _; split; [constructor|]|eauto]. intros o ?%not_elem_of_nil. done. }
  rewrite NoDup_cons. setoid_rewrite elem_of_cons. case_bool_decide as Hin; cbn [rbind].
  { split; [by intros [s ?]|]. intros [_ Hd]. exfalso. apply (Hd (input_outpoint i)); auto. }
  rewrite IH. split.
  - intros [Hnd Hd]. split; [split; [|done]|].
    + intros Hi. apply (Hd _ Hi). apply elem_of_union_l, elem_of_singleton. done.
    + intros o [->|Ho]; [done|]. intros Hs. apply (Hd o Ho). by apply elem_of_union_r.
  - intros [[Hni Hnd] Hd]. split; [done|]. intros o Ho [->%elem_of_singleton|Hs]%elem_of_union;
      [done|]. apply (Hd o); auto.
Qed.

Lemma check_mempool_conflicts_Ok p tx :
  check_mempool_conflicts p tx = Ok () ↔
  ∀ o, o ∈ map input_outpoint (tx_inputs tx) → spends p !! o = None.
Proof.
  unfold check_mempool_conflicts. rewrite rfor_Ok, Forall_forall.
  change (map input_outpoint) with (fmap (M := list) input_outpoint).
  setoid_rewrite list_elem_of_fmap. split.
  - intros H o (i&->&Hi). specialize (H i Hi). simpl in H. by destruct (spends p !! _).
  - intros H i Hi. by rewrite (H (input_outpoint i)) by eauto.
Qed.

Lemma compute_fee_Ok tx view fee :
  is_coinbase tx = false → values_ok view → Forall txout_wf (tx_outputs tx) →
  compute_fee tx view = Ok fee →
  fee = inputs_total view tx - outputs_total tx ∧ 0 ≤ fee.
Proof.
  intros Hcb Hv Ho. unfold compute_fee.
  intros (si&Hi%map_err_Ok&(so&Hso%map_err_Ok&Hfee)%rbind_Ok)%rbind_Ok.
  apply input_sum_Ok in Hi as (_&->&_); [|done..]. apply output_sum_Ok in Hso as [-> _]; [|done].
  destruct (Z.ltb_spec (inputs_total view tx) (outputs_total tx)); [done|].
  injection Hfee as <-. split; [done|lia].
Qed.

(** The checks never panic, and only [make_room_for] reports [AtCapacity]. *)
Definition clean {A} (r : Result MempoolError A) : Prop := r ≠ Panic ∧ r ≠ Err AtCapacity.

Lemma clean_Ok {A} (a : A) : clean (Ok a).
Proof. by split. Qed.
Lemma clean_Err {A} (e : MempoolError) : e ≠ AtCapacity → clean (Err e : Result MempoolError A).
Proof. intros He. split; [done|congruence]. Qed.
Lemma clean_rbind {A B} (m : Result MempoolError A) (f : A → Result MempoolError B) :
  clean m → (∀ a, clean (f a)) → clean (rbind m f).
Proof. intros [H1 H2] Hf. destruct m; simpl; [apply Hf|split; congruence|done]. Qed.
Lemma clean_rfor {A} (f : A → Result MempoolError unit) l : (∀ x, clean (f x)) → clean (rfor f l).
Proof. intros Hf. induction l; simpl; [apply clean_Ok|by apply clean_rbind]. Qed.
Lemma clean_rfold {A B} (f : B → A → Result MempoolError B) b l :
  (∀ b x, clean (f b x)) → clean (rfold f b l).
Proof.
  intros Hf. revert b. induction l; intros b; simpl; [apply clean_Ok|by apply clean_rbind].
Qed.
Lemma clean_utxo {A} (m : Result UtxoError A) : m ≠ Panic → clean (map_err MempoolUtxo m).
Proof. destruct m; simpl; intros; [apply clean_Ok|by apply clean_Err|done]. Qed.

Lemma rfold_no_panic {E A B} (f : B → A → Result E B) b l :
  (∀ b x, f b x ≠ Panic) → rfold f b l ≠ Panic.
Proof.
  intros Hf. revert b. induction l as [|x l IH]; intros b; simpl; [done|].
  specialize (Hf b x). destruct (f b x); [apply IH|done|done].
Qed.
Lemma ok_or_no_panic {E A} (o : option A) (e : E) : ok_or o e ≠ Panic.
Proof. by destruct o. Qed.
Lemma rbind_no_panic {E A B} (m : Result E A) (f : A → Result E B) :
  m ≠ Panic → (∀ a, f a ≠ Panic) → rbind m f ≠ Panic.
Proof. intros Hm Hf. destruct m; simpl; [apply Hf|done|done]. Qed.

Lemma output_sum_no_panic tx : output_sum tx ≠ Panic.
Proof. apply rfold_no_panic. intros. apply ok_or_no_panic. Qed.
Lemma input_sum_no_panic u tx : input_sum u tx ≠ Panic.
Proof. apply rfold_no_panic. intros b i. apply rbind_no_panic; intros; apply ok_or_no_panic. Qed.
Lemma validate_transaction_no_panic u tx : validate_transaction u tx ≠ Panic.
Proof.
  unfold validate_transaction, validate_output_sum. destruct (is_coinbase tx).
  - by apply rbind_no_panic; [apply output_sum_no_panic|].
  - apply rbind_no_panic; [apply input_sum_no_panic|intros si].
    apply rbind_no_panic; [apply output_sum_no_panic|intros so]. by case_if.
Qed.
Lemma prev_scripts_no_panic u tx : prev_scripts u tx ≠ Panic.
Proof.
  unfold prev_scripts. generalize (tx_inputs tx). intros l. induction l as [|i l IH]; [done|].
  apply rbind_no_panic; [|intros script; by apply rbind_no_panic].
  by apply rbind_no_panic; [apply ok_or_no_panic|].
Qed.

Lemma validate_tx_structure_clean tx : clean (validate_tx_structure tx).
Proof.
  unfold validate_tx_structure. repeat (case_if; [by apply clean_Err|]).
  apply clean_rbind; [|intros _; apply clean_rbind; [|intros; apply clean_Ok]];
    apply clean_rfor; intros x; case_if; (apply clean_Ok || by apply clean_Err).
Qed.
Lemma check_duplicate_inputs_clean tx : clean (check_duplicate_inputs tx).
Proof.
  apply clean_rbind; [|intros; apply clean_Ok]. apply clean_rfold. intros b x. simpl.
  case_bool_decide; [by apply clean_Err|apply clean_Ok].
Qed.
Lemma check_mempool_conflicts_clean p tx : clean (check_mempool_conflicts p tx).
Proof.
  apply clean_rfor. intros i. simpl. destruct (spends p !! _); [by apply clean_Err|apply clean_Ok].
Qed.
Lemma compute_fee_clean tx u : clean (compute_fee tx u).
Proof.
  apply clean_rbind; [apply clean_utxo, input_sum_no_panic|intros si].
  apply clean_rbind; [apply clean_utxo, output_sum_no_panic|intros so].
  case_if; [by apply clean_Err|apply clean_Ok].
Qed.
Lemma verify_inputs_clean tx scripts :
  length scripts = length (tx_inputs tx) →
  clean (verify_inputs MempoolSighash MempoolInvalidScript tx scripts).
Proof.
  intros Hl. split; [by apply verify_inputs_total|]. unfold verify_inputs.
  generalize (imap pair (tx_inputs tx)). intros l. induction l as [|[i input] l IH]; cbn; [done|].
  destruct (scripts !! i) as [script|]; simpl; [|done]. case_bool_decide; simpl; [apply IH|].
  destruct (sighash_all tx i scripts); simpl; [|done|done].
  destruct (verify_script _ _ _); simpl; [apply IH|done|done].
Qed.
Lemma verify_scripts_clean tx u : clean (verify_scripts tx u).
Proof.
  unfold verify_scripts. destruct (prev_scripts u tx) as [scripts|e|] eqn:Hs; simpl.
  - apply verify_inputs_clean. apply prev_scripts_Ok, Forall2_length in Hs. done.
  - by apply clean_Err.
  - by apply prev_scripts_no_panic in Hs.
Qed.

(** Validity against a view, in the terms of the chain's own transaction check. *)
Lemma is_valid_for_view_true tx view :
  is_valid_for_view tx view = true ↔
  (∃ n, validate_tx_structure tx = Ok n) ∧ is_coinbase tx = false ∧ tx_accepted view tx.
Proof.
  unfold is_valid_for_view, tx_accepted, verify_scripts, spent_outpoints.
  rewrite !andb_true_iff, negb_true_iff, !is_ok_true.
  split.
  - intros ((((Hs&Hcb)&[[] Hd])&[[] Hv])&[[] Hp]). split_and!; try done.
    + rewrite Hcb. by apply check_duplicate_inputs_Ok.
    + intros _. apply rbind_Ok in Hp as (scripts&Hp%map_err_Ok&Hvi). exists scripts.
      split; [done|]. apply verify_inputs_Ok in Hvi; [done|].
      apply prev_scripts_Ok, Forall2_length in Hp. done.
  - intros (Hs&Hcb&Hd&Hv&Hp). rewrite Hcb in Hd. destruct (Hp Hcb) as (scripts&Hps&Ha).
    split_and!; try done; [|by exists ()|].
    + exists (). by apply check_duplicate_inputs_Ok.
    + exists (). rewrite Hps. simpl. apply verify_inputs_Ok; [|done].
      apply prev_scripts_Ok, Forall2_length in Hps. done.
Qed.

(** ** The invariant *)

Record entry_ok t e : Prop := {
  eo_txid : tx_id (me_tx e) = t;
  eo_struct : validate_tx_structure (me_tx e) = Ok (me_size e);
  eo_coinbase : is_coinbase (me_tx e) = false;
  eo_inputs : NoDup (map input_outpoint (tx_inputs (me_tx e)))
}.

Record pool_inv p : Prop := {
  pi_entries : map_Forall entry_ok (entries p);
  pi_spends : ∀ o t, spends p !! o = Some t ↔
    ∃ e, entries p !! t = Some e ∧ o ∈ map input_outpoint (tx_inputs (me_tx e));
  pi_bytes : total_bytes p = map_sum me_size (entries p);
  pi_count : mempool_len p ≤ max_tx_count (limits p);
  pi_max_bytes : total_bytes p ≤ max_bytes (limits p);
  pi_limits : limits_ok (limits p)
}.

(** Admission numbers are distinct and below the counter. *)
Record seq_ok p : Prop := {
  sq_bound : map_Forall (λ _ e, 0 ≤ me_seq e < next_seq p) (entries p);
  sq_inj : ∀ t1 t2 e1 e2, entries p !! t1 = Some e1 → entries p !! t2 = Some e2 →
    me_seq e1 = me_seq e2 → t1 = t2;
  sq_next : 0 ≤ next_seq p < 2 ^ 64
}.

Lemma entry_ok_size t e : entry_ok t e → 0 ≤ me_size e ≤ MAX_TRANSACTION_SERIALIZED_SIZE.
Proof.
  intros He. pose proof (eo_struct _ _ He) as (->&?&_)%validate_tx_structure_Ok.
  pose proof (serialized_size_nonneg (me_tx e)). lia.
Qed.

Lemma new_mempool_inv l : limits_ok l → pool_inv (new_mempool l).
Proof.
  intros Hl. split.
  - apply map_Forall_empty.
  - intros o t. cbn. rewrite lookup_empty. split; [done|]. intros (e&He&_). by rewrite lookup_empty in He.
  - symmetry. apply map_sum_empty.
  - apply Hl.
  - apply Hl.
  - done.
Qed.

Lemma pool_sizes_nonneg p : pool_inv p →
  ∀ t e, entries p !! t = Some e → 0 ≤ me_size e.
Proof. intros Hp t e He. apply (pi_entries _ Hp), entry_ok_size in He. lia. Qed.

Lemma pool_inv_no_double_spend p t1 t2 e1 e2 o :
  pool_inv p → entries p !! t1 = Some e1 → entries p !! t2 = Some e2 →
  o ∈ map input_outpoint (tx_inputs (me_tx e1)) →
  o ∈ map input_outpoint (tx_inputs (me_tx e2)) → t1 = t2.
Proof.
  intros Hp H1 H2 Ho1 Ho2.
  assert (spends p !! o = Some t1) by (apply (pi_spends _ Hp); eauto).
  assert (spends p !! o = Some t2) by (apply (pi_spends _ Hp); eauto). congruence.
Qed.

(** ** Removal *)

Lemma remove_entry_entries p t : entries (remove_entry p t) = delete t (entries p).
Proof. unfold remove_entry. destruct (entries p !! t) eqn:He; [done|]. by rewrite delete_id. Qed.
Lemma remove_entry_limits p t : limits (remove_entry p t) = limits p.
Proof. unfold remove_entry. by destruct (entries p !! t). Qed.
Lemma remove_entry_next p t : next_seq (remove_entry p t) = next_seq p.
Proof. unfold remove_entry. by destruct (entries p !! t). Qed.

Lemma remove_entry_inv p t : pool_inv p → pool_inv (remove_entry p t).
Proof.
  intros Hp. unfold remove_entry. destruct (entries p !! t) as [e|] eqn:He; [|done].
  destruct Hp as [Hent Hsp Hb Hc Hm Hl].
  pose proof (map_sum_delete me_size _ _ _ He) as Hsum.
  assert (∀ t' e', delete t (entries p) !! t' = Some e' → 0 ≤ me_size e') as Hnn.
  { intros t' e' [_ H]%lookup_delete_Some. apply Hent, entry_ok_size in H. lia. }
  pose proof (map_sum_nonneg me_size _ Hnn) as Hnn'.
  pose proof (entry_ok_size _ _ (Hent _ _ He)).
  assert (map_sum me_size (delete t (entries p)) ≤ max_bytes (limits p)) by lia.
  assert (usize_sub (total_bytes p) (me_size e) = map_sum me_size (delete t (entries p))) as Hsub.
  { unfold usize_sub. rewrite Hb, Hsum. destruct Hl as [_ ?]. rewrite Z.mod_small; lia. }
  split; cbn [entries spends total_bytes limits].
  - by apply map_Forall_delete.
  - intros o t'. rewrite map_lookup_filter_Some, Hsp. split.
    + intros [(e'&He'&Ho) Hne]. exists e'. split; [|done]. by rewrite lookup_delete_ne by congruence.
    + intros (e'&[Hne He']%lookup_delete_Some&Ho). split; [eauto|congruence].
  - done.
  - unfold mempool_len in *. cbn [entries]. rewrite map_size_delete_Some by eauto. lia.
  - lia.
  - done.
Qed.

Lemma remove_entries_entries p l :
  entries (remove_entries p l) = filter (λ '(t, _), t ∉ l) (entries p).
Proof.
  revert p. induction l as [|t l IH]; intros p; cbn.
  - symmetry. apply map_filter_id. intros. apply not_elem_of_nil.
  - fold (remove_entries (remove_entry p t) l). rewrite IH, remove_entry_entries.
    apply map_eq. intros k. apply option_eq. intros e.
    rewrite !map_lookup_filter_Some, lookup_delete_Some, elem_of_cons. naive_solver.
Qed.
Lemma remove_entries_limits p l : limits (remove_entries p l) = limits p.
Proof.
  revert p. induction l as [|t l IH]; intros p; [done|]. cbn.
  fold (remove_entries (remove_entry p t) l). by rewrite IH, remove_entry_limits.
Qed.
Lemma remove_entries_next p l : next_seq (remove_entries p l) = next_seq p.
Proof.
  revert p. induction l as [|t l IH]; intros p; [done|]. cbn.
  fold (remove_entries (remove_entry p t) l). by rewrite IH, remove_entry_next.
Qed.
Lemma remove_entries_inv p l : pool_inv p → pool_inv (remove_entries p l).
Proof.
  revert p. induction l as [|t l IH]; intros p Hp; [done|]. cbn.
  fold (remove_entries (remove_entry p t) l). by apply IH, remove_entry_inv.
Qed.

(** A pool with fewer entries and the same counters. *)
Definition shrinks p p' : Prop :=
  entries p' ⊆ entries p ∧ limits p' = limits p ∧ next_seq p' = next_seq p.

#[global] Instance shrinks_preorder : PreOrder shrinks.
Proof.
  split; [by intros p; split_and!|]. intros p1 p2 p3 (H1&?&?) (H2&?&?).
  split_and!; [by etransitivity|congruence..].
Qed.

Lemma remove_entries_shrinks p l : shrinks p (remove_entries p l).
Proof.
  split_and!; [|apply remove_entries_limits|apply remove_entries_next].
  rewrite remove_entries_entries. apply map_filter_subseteq.
Qed.

Lemma shrinks_seq_ok p p' : shrinks p p' → seq_ok p → seq_ok p'.
Proof.
  intros (Hs&_&Hn) [Hb Hi Hx]. rewrite <- Hn in *. split; [|intros t1 t2 e1 e2 H1 H2|done].
  - intros t e He. apply (Hb t). by eapply lookup_weaken.
  - by apply Hi; eapply lookup_weaken.
Qed.

(** ** Insertion *)

Lemma spends_insert (s : gmap OutPoint (list byte)) t inputs o :
  foldl (λ s input, <[input_outpoint input := t]> s) s inputs !! o =
  if decide (o ∈ map input_outpoint inputs) then Some t else s !! o.
Proof.
  revert s. induction inputs as [|i l IH]; intros s; cbn [foldl map].
  { rewrite decide_False by apply not_elem_of_nil. done. }
  rewrite IH. destruct (decide (o = input_outpoint i)) as [->|Hne].
  - rewrite (decide_True (P := _ ∈ _ :: _)) by left. case_decide; [done|].
    apply lookup_insert_eq.
  - rewrite lookup_insert_ne by done. apply decide_ext. rewrite elem_of_cons. tauto.
Qed.

Lemma would_exceed_limits_false p n :
  pool_inv p → 0 ≤ n ≤ MAX_TRANSACTION_SERIALIZED_SIZE →
  would_exceed_limits p n = false ↔
  mempool_len p + 1 ≤ max_tx_count (limits p) ∧ total_bytes p + n ≤ max_bytes (limits p).
Proof.
  intros Hp Hn. unfold would_exceed_limits, usize_add.
  pose proof (pi_count _ Hp). pose proof (pi_max_bytes _ Hp). destruct (pi_limits _ Hp).
  assert (0 ≤ total_bytes p).
  { rewrite (pi_bytes _ Hp). apply map_sum_nonneg. intros t e. by apply pool_sizes_nonneg. }
  assert (0 ≤ mempool_len p) by (unfold mempool_len; lia).
  assert (MAX_TRANSACTION_SERIALIZED_SIZE = 4000000) by done.
  rewrite !Z.mod_small by lia. rewrite orb_false_iff, !Z.ltb_ge. done.
Qed.

Lemma insert_entry_inv p t e :
  pool_inv p → entry_ok t e → entries p !! t = None →
  (∀ o, o ∈ map input_outpoint (tx_inputs (me_tx e)) → spends p !! o = None) →
  would_exceed_limits p (me_size e) = false → pool_inv (insert_entry p t e).
Proof.
  intros Hp He Ht Hfree Hroom. pose proof (entry_ok_size _ _ He) as Hsz.
  apply would_exceed_limits_false in Hroom as [Hcount Hbytes]; [|done|done].
  assert (0 ≤ total_bytes p).
  { rewrite (pi_bytes _ Hp). apply map_sum_nonneg. intros t' e'. by apply pool_sizes_nonneg. }
  pose proof (proj2 (pi_limits _ Hp)).
  assert (usize_add (total_bytes p) (me_size e) = total_bytes p + me_size e) as Hadd
    by (apply Z.mod_small; lia).
  split; cbn [insert_entry entries spends total_bytes limits].
  - by apply map_Forall_insert_2; [|apply Hp].
  - intros o t'. rewrite spends_insert. case_decide as Ho.
    + split.
      * intros [= <-]. exists e. by rewrite lookup_insert_eq.
      * intros (e'&[[<- <-]|[Hne He']]%lookup_insert_Some&Ho'); [done|]. exfalso.
        assert (spends p !! o = Some t') by (apply (pi_spends _ Hp); eauto).
        rewrite Hfree in *; done.
    + rewrite (pi_spends _ Hp). split.
      * intros (e'&He'&Ho'). exists e'. split; [|done]. rewrite lookup_insert_ne by congruence. done.
      * intros (e'&[[<- <-]|[Hne He']]%lookup_insert_Some&Ho'); [done|eauto].
  - rewrite Hadd, map_sum_insert, (pi_bytes _ Hp) by done. lia.
  - unfold mempool_len in *. cbn [insert_entry entries].
    rewrite map_size_insert_None by done. lia.
  - lia.
  - apply Hp.
Qed.

Lemma insert_entry_seq_ok p t e :
  seq_ok p → entries p !! t = None → me_seq e = next_seq p → next_seq p + 1 < 2 ^ 64 →
  seq_ok (insert_entry p t e).
Proof.
  intros [Hb Hi Hx] Ht Hs Hlt.
  assert (u64_wrapping_add (next_seq p) 1 = next_seq p + 1) as Hn
    by (unfold u64_wrapping_add; apply Z.mod_small; lia).
  split; cbn [insert_entry entries next_seq]; rewrite ?Hn; [| |lia].
  - apply map_Forall_insert_2; [lia|]. intros t' e' He'. specialize (Hb _ _ He'). simpl in Hb. lia.
  - intros t1 t2 e1 e2. rewrite !lookup_insert_Some.
    intros [[<- <-]|[Hn1 H1]] [[<- <-]|[Hn2 H2]] Heq; [done| | |by eapply Hi].
    + specialize (Hb _ _ H2). simpl in Hb. lia.
    + specialize (Hb _ _ H1). simpl in Hb. lia.
Qed.
End mempool_inv.
