(* ===== verification/MempoolEvict.v ===== *)
(** * Descendants, eviction and admission

    The depth-first search of [descendants_of] computes the transitive closure of "spends an
    output of"; [make_room_for] ends, removes whole families of lower priority, and leaves
    room or reports that there is none; [accept_tx] case by case. *)

From stdpp Require Import prelude gmap strings list sorting relations.
From Stdlib Require Import Strings.Byte.
From S2P Require Import Prelude Bytes Crypto U256 Wire Transaction Merkle Block Utxo Script.
From S2P Require Import Sighash Journal Store Chain ChainTx Mempool MempoolInv.

Local Open Scope Z_scope.

Section mempool_evict.
Context {crypto : CryptoLib} {order : HashOrder}.
Implicit Types (p : Mempool) (e : MempoolEntry) (tx : Transaction) (t : list byte).

(** ** Descendants *)

(** Pool transaction [b] spends an output of [a]. *)
Definition spender_of p (a b : list byte) : Prop :=
  ∃ o, spends p !! o = Some b ∧ op_txid o = a.
Abbreviation descends p := (tc (spender_of p)).

Lemma visit_list (current : list byte) (l : list (OutPoint * list byte))
    (d : gset (list byte)) (st : list (list byte)) (d' : gset (list byte)) st' :
  foldl (λ '(descendants, stack) '(outpoint, owner),
    if bool_decide (op_txid outpoint = current) && bool_decide (owner ∉ descendants)
    then ({[owner]} ∪ descendants, owner :: stack)
    else (descendants, stack)) (d, st) l = (d', st') →
  ∃ new, st' = new ++ st ∧ NoDup new ∧
    (∀ x, x ∈ d' ↔ x ∈ new ∨ x ∈ d) ∧ (∀ x, x ∈ new → x ∉ d) ∧
    (∀ x, x ∈ new → ∃ o, (o, x) ∈ l ∧ op_txid o = current) ∧
    (∀ o x, (o, x) ∈ l → op_txid o = current → x ∈ d').
Proof.
  revert d st. induction l as [|[o x] l IH]; intros d st; cbn [foldl].
  { intros [= <- <-]. exists []. setoid_rewrite elem_of_nil. split_and!; try done; [constructor|naive_solver]. }
  destruct (bool_decide (op_txid o = current) && bool_decide (x ∉ d)) eqn:Hc.
  - apply andb_true_iff in Hc as [Hc%bool_decide_eq_true Hx%bool_decide_eq_true].
    intros (new&->&Hnd&Hd'&Hni&Hsrc&Hall)%IH. exists (new ++ [x]).
    rewrite <- (assoc_L (++)). split; [done|].
    setoid_rewrite elem_of_app. setoid_rewrite elem_of_cons. setoid_rewrite elem_of_nil.
    setoid_rewrite elem_of_union in Hd'. setoid_rewrite elem_of_singleton in Hd'.
    setoid_rewrite not_elem_of_union in Hni. setoid_rewrite not_elem_of_singleton in Hni.
    split_and!.
    + apply NoDup_app. split_and!; [done| |apply NoDup_singleton].
      intros y Hy ->%list_elem_of_singleton. by destruct (Hni x Hy).
    + intros y. rewrite Hd'. naive_solver.
    + intros y [Hy|[->|[]]]; [by apply Hni|done].
    + intros y [Hy|[->|[]]]; [|by eauto]. destruct (Hsrc y Hy) as (o'&?&?). eauto.
    + intros o' y [[= -> ->]|Hin] Ho; [apply Hd'; auto|by eapply Hall].
  - intros (new&->&Hnd&Hd'&Hni&Hsrc&Hall)%IH. exists new. setoid_rewrite elem_of_cons.
    split_and!; try done.
    + intros y Hy. destruct (Hsrc y Hy) as (o'&?&?). eauto.
    + intros o' y [[= -> ->]|Hin] Ho; [|by eapply Hall]. apply Hd'. right.
      apply andb_false_iff in Hc as [Hc%bool_decide_eq_false|Hc%bool_decide_eq_false]; [done|].
      by apply dec_stable.
Qed.

Definition owners p : gset (list byte) := list_to_set (map snd (map_to_list (spends p))).

Lemma size_list_to_set_le (l : list (list byte)) :
  (size (list_to_set l : gset (list byte)) ≤ length l)%nat.
Proof.
  induction l as [|x l IH]; [by rewrite list_to_set_nil, size_empty|].
  rewrite list_to_set_cons, size_union_alt, size_singleton. cbn [length].
  assert (size (list_to_set l ∖ {[x]} : gset (list byte)) ≤ size (list_to_set l : gset (list byte)))%nat
    by (apply subseteq_size, subseteq_difference_l; reflexivity). lia.
Qed.

Lemma gset_size_list (l : list (list byte)) :
  NoDup l → size (list_to_set l : gset (list byte)) = length l.
Proof. apply size_list_to_set. Qed.
Lemma gset_size_union (X Y : gset (list byte)) : X ## Y → (size (X ∪ Y) = size X + size Y)%nat.
Proof. apply size_union. Qed.

(** The invariant of the search. *)
Definition dfs_inv p (root : list byte) (d : gset (list byte)) (stack : list (list byte)) : Prop :=
  (∀ x, x ∈ d → descends p root x) ∧ (∀ x, x ∈ stack → x = root ∨ x ∈ d) ∧
  (∀ y x, y = root ∨ y ∈ d → y ∉ stack → spender_of p y x → x ∈ d).

Lemma visit_spenders_spec p (root current : list byte) (stack : list (list byte))
    (d d' : gset (list byte)) (stack' : list (list byte)) :
  dfs_inv p root d (current :: stack) →
  visit_spenders p current (d, stack) = (d', stack') →
  dfs_inv p root d' stack' ∧
  (size (owners p ∖ d') + length stack' = size (owners p ∖ d) + length stack)%nat.
Proof.
  intros (H1&H2&H3) (new&->&Hnd&Hd'&Hni&Hsrc&Hall)%visit_list.
  setoid_rewrite elem_of_hm_iter in Hsrc. setoid_rewrite elem_of_hm_iter in Hall.
  assert (current = root ∨ current ∈ d) as Hcur by (apply H2, elem_of_cons; by left).
  split; [split_and!|].
  - intros x [Hx|Hx]%Hd'; [|by apply H1]. destruct (Hsrc x Hx) as (o&Ho&Hoc).
    assert (spender_of p current x) by (by exists o).
    destruct Hcur as [->|Hc%H1]; [by apply tc_once|by eapply tc_r].
  - intros x [Hx|Hx]%elem_of_app; [right; apply Hd'; by left|].
    destruct (H2 x) as [?|?]; [apply elem_of_cons; by right|by left|right; apply Hd'; by right].
  - intros y x Hy Hns Hs. rewrite elem_of_app in Hns. destruct (decide (y = current)) as [->|Hne].
    + destruct Hs as (o&?&?). by eapply Hall.
    + apply Hd'. right. apply (H3 y x); [|rewrite elem_of_cons; naive_solver|done].
      destruct Hy as [?|[?|?]%Hd']; [by left|naive_solver|by right].
  - rewrite length_app.
    assert (owners p ∖ d = list_to_set new ∪ (owners p ∖ d')) as ->.
    { apply set_eq. intros x. rewrite elem_of_union, !elem_of_difference, elem_of_list_to_set, Hd'.
      split.
      - intros [? ?]. destruct (decide (x ∈ new)); [by left|right; naive_solver].
      - intros [Hx|[? ?]]; [|naive_solver]. split; [|by apply Hni].
        destruct (Hsrc x Hx) as (o&Ho&_). unfold owners. apply elem_of_list_to_set.
        change (map snd) with (fmap (M := list) (@snd OutPoint (list byte))).
        apply list_elem_of_fmap. exists (o, x). split; [done|]. by apply elem_of_map_to_list. }
    rewrite gset_size_union; [rewrite gset_size_list by done; lia|].
    intros x. rewrite elem_of_list_to_set, elem_of_difference, Hd'. naive_solver.
Qed.

Lemma descendants_loop_spec (fuel : nat) p (root : list byte) (d : gset (list byte))
    (stack : list (list byte)) :
  dfs_inv p root d stack → (size (owners p ∖ d) + length stack ≤ fuel)%nat →
  ∃ d', descendants_loop fuel p d stack = Some d' ∧ dfs_inv p root d' [].
Proof.
  revert d stack. induction fuel as [|fuel IH]; intros d [|current stack] Hinv Hf;
    cbn [descendants_loop length] in *; try lia; [by eauto..|].
  destruct (visit_spenders p current (d, stack)) as [d' stack'] eqn:Hv.
  destruct (visit_spenders_spec _ _ _ _ _ _ _ Hinv Hv) as [Hinv' Hsz]. apply IH; [done|lia].
Qed.

Lemma descendants_of_spec p (root : list byte) :
  ∃ d, descendants_of p root = Some d ∧ ∀ x, x ∈ d ↔ descends p root x.
Proof.
  destruct (descendants_loop_spec (S (size (spends p))) p root ∅ [root]) as (d&Hd&H1&_&H3).
  - split_and!.
    + by intros x ?%not_elem_of_empty.
    + intros x ->%list_elem_of_singleton. by left.
    + intros y x [->|?%not_elem_of_empty]; [|done]. intros []. by apply list_elem_of_singleton.
  - rewrite difference_empty_L. unfold owners.
    pose proof (size_list_to_set_le (map snd (map_to_list (spends p)))) as Hle.
    rewrite length_map, length_map_to_list in Hle. simpl. lia.
  - exists d. split; [done|]. intros x. split; [apply H1|].
    assert (∀ a b, descends p a b → a = root ∨ a ∈ d → b ∈ d) as Hr; [|naive_solver].
    induction 1 as [a b Hab|a b c Hab _ IH]; intros Ha.
    + eapply H3; [done|apply not_elem_of_nil|done].
    + apply IH. right. eapply H3; [done|apply not_elem_of_nil|done].
Qed.

(** ** Eviction *)

Lemma spender_of_shrinks p p' a b :
  pool_inv p → pool_inv p' → shrinks p p' → spender_of p' a b → spender_of p a b.
Proof.
  intros Hp Hp' [Hs _] (o&Ho&Ha). exists o. split; [|done].
  apply (pi_spends _ Hp') in Ho as (e&He&Ho). apply (pi_spends _ Hp).
  exists e. split; [|done]. by eapply lookup_weaken.
Qed.
Lemma descends_shrinks p p' a b :
  pool_inv p → pool_inv p' → shrinks p p' → descends p' a b → descends p a b.
Proof.
  intros Hp Hp' Hs. induction 1 as [a b H|a b c H _ IH].
  - by eapply tc_once, spender_of_shrinks.
  - eapply tc_l; [by eapply spender_of_shrinks|done].
Qed.

Lemma remove_family p t :
  ∃ d, remove_entry_and_descendants t p = (Ok (), remove_entries p (hs_iter ({[t]} ∪ d))) ∧
       ∀ x, x ∈ hs_iter ({[t]} ∪ d) ↔ x = t ∨ descends p t x.
Proof.
  destruct (descendants_of_spec p t) as (d&Hd&Hx). exists d.
  unfold remove_entry_and_descendants. rewrite Hd. split; [done|]. intros x.
  by rewrite elem_of_hs_iter, elem_of_union, elem_of_singleton, Hx.
Qed.

Definition priority_key (x : list byte * MempoolEntry) : Z * Z := (me_fee_rate x.2, me_seq x.2).

Lemma min_by_from_fee b l :
  me_fee_rate (min_by_from lower_priority b l).2 ≤ me_fee_rate b.2 ∧
  Forall (λ y, me_fee_rate (min_by_from lower_priority b l).2 ≤ me_fee_rate y.2) l.
Proof.
  revert b. induction l as [|x l IH]; intros b; simpl; [by split|].
  destruct (IH (if lower_priority x b then x else b)) as [H1 H2].
  assert (me_fee_rate (if lower_priority x b then x else b).2 ≤ me_fee_rate b.2 ∧
          me_fee_rate (if lower_priority x b then x else b).2 ≤ me_fee_rate x.2) as [? ?].
  { unfold lower_priority. destruct (Z.ltb_spec (me_fee_rate x.2) (me_fee_rate b.2)); simpl; [lia|].
    destruct (Z.eqb_spec (me_fee_rate x.2) (me_fee_rate b.2)); simpl; [|lia].
    destruct (me_seq x.2 <? me_seq b.2); lia. }
  split; [lia|]. constructor; [lia|done].
Qed.

(** The victim is a resident of the least fee rate. *)
Lemma lowest_priority_spec p v :
  lowest_priority_txid p = Some v →
  ∃ e, entries p !! v = Some e ∧
       ∀ t e', entries p !! t = Some e' → me_fee_rate e ≤ me_fee_rate e'.
Proof.
  unfold lowest_priority_txid. intros ([v' e]&Hmin&->)%fmap_Some.
  pose proof (min_by_elem _ _ _ Hmin) as He%elem_of_hm_iter. exists e. split; [done|].
  intros t e' He'. apply elem_of_hm_iter in He'.
  destruct (hm_iter (entries p)) as [|b l]; [done|]. injection Hmin as Hmin.
  destruct (min_by_from_fee b l) as [Hb Hl]. rewrite Hmin in Hb, Hl.
  apply elem_of_cons in He' as [<-|He']; [done|].
  rewrite Forall_forall in Hl. by specialize (Hl _ He').
Qed.

Lemma lowest_priority_None p : lowest_priority_txid p = None → entries p = ∅.
Proof.
  unfold lowest_priority_txid. intros Hm%fmap_None. apply min_by_None in Hm.
  by apply hm_iter_nil.
Qed.

(** [t] was evicted in favour of [cand]: it is, or descends from, a resident that [cand]
    outranks and that pays no more than whoever stays. *)
Definition evicted_for (cand : MempoolEntry) p p' t : Prop :=
  ∃ v e, entries p !! v = Some e ∧ (t = v ∨ descends p v t) ∧ entries p' !! v = None ∧
    (me_fee_rate e < me_fee_rate cand ∨
     me_fee_rate e = me_fee_rate cand ∧ me_seq e < me_seq cand) ∧
    ∀ k e', entries p' !! k = Some e' → me_fee_rate e ≤ me_fee_rate e'.

(** What eviction in favour of [cand] takes out of [p]: nobody while there is room, only
    residents of lower rank, and whole families. *)
Record evicts (cand : MempoolEntry) p p' : Prop := {
  ev_subset : entries p' ⊆ entries p;
  ev_noop : would_exceed_limits p (me_size cand) = false → p' = p;
  ev_outranked : ∀ t, is_Some (entries p !! t) → entries p' !! t = None → evicted_for cand p p' t;
  ev_families : ∀ t1 t2, is_Some (entries p !! t1) → entries p' !! t1 = None → spender_of p t1 t2 →
    entries p' !! t2 = None
}.

Record room_made (cand : MempoolEntry) p (r : Result MempoolError unit) p' : Prop := {
  rm_inv : pool_inv p';
  rm_shrinks : shrinks p p';
  rm_outcome : (r = Ok () ∧ would_exceed_limits p' (me_size cand) = false) ∨
    (r = Err AtCapacity ∧ would_exceed_limits p' (me_size cand) = true ∧
     ∀ t e, entries p' !! t = Some e → me_fee_rate cand ≤ me_fee_rate e);
  rm_evicted : ∀ t, is_Some (entries p !! t) → entries p' !! t = None → evicted_for cand p p' t;
  (** whole families go *)
  rm_closed : ∀ a b, is_Some (entries p !! a) → entries p' !! a = None → spender_of p a b →
    entries p' !! b = None;
  (** nobody is evicted without need *)
  rm_noop : would_exceed_limits p (me_size cand) = false → p' = p
}.

Lemma room_made_evicts cand p r p' : room_made cand p r p' → evicts cand p p'.
Proof. intros [_ [? _] _ ? ? ?]. by split. Qed.

Lemma room_made_refl cand p r :
  pool_inv p →
  (r = Ok () ∧ would_exceed_limits p (me_size cand) = false) ∨
  (r = Err AtCapacity ∧ would_exceed_limits p (me_size cand) = true ∧
    ∀ t e, entries p !! t = Some e → me_fee_rate cand ≤ me_fee_rate e) →
  room_made cand p r p.
Proof.
  intros Hp Ho. split; [done|reflexivity|done| | |done].
  - intros t [e He]. congruence.
  - intros a b [e He]. congruence.
Qed.

Lemma should_evict_true p v e cand :
  entries p !! v = Some e →
  should_evict p v cand = true ↔
  me_fee_rate e < me_fee_rate cand ∨
  me_fee_rate e = me_fee_rate cand ∧ me_seq e < me_seq cand.
Proof.
  intros He. unfold should_evict. rewrite He.
  destruct (Z.ltb_spec (me_fee_rate e) (me_fee_rate cand)); [split; [by left|done]|].
  destruct (Z.ltb_spec (me_fee_rate cand) (me_fee_rate e)); [split; [done|lia]|].
  rewrite Z.ltb_lt. lia.
Qed.

(** The pool after the victim and its descendants were removed. *)
Lemma family_gone p v d t :
  (∀ x, x ∈ hs_iter ({[v]} ∪ d) ↔ x = v ∨ descends p v x) →
  entries (remove_entries p (hs_iter ({[v]} ∪ d))) !! t = None ↔
  entries p !! t = None ∨ t = v ∨ descends p v t.
Proof.
  intros Hd. rewrite remove_entries_entries, map_lookup_filter_None, <- Hd.
  destruct (entries p !! t) as [x|] eqn:Hx.
  - split; [intros [?|H]; [done|]|intros [?|H]; [done|]]; right.
    + apply dec_stable. by apply (H x).
    + intros x' _. intros Hn. by apply Hn.
  - split; auto.
Qed.

(** One round of the loop: [p1] is [p] without the family of the victim [v]. *)
Lemma room_made_family cand p v e p1 r p' :
  pool_inv p → pool_inv p1 → shrinks p p1 →
  (∀ t, entries p1 !! t = None ↔ entries p !! t = None ∨ t = v ∨ descends p v t) →
  entries p !! v = Some e → (∀ t e', entries p !! t = Some e' → me_fee_rate e ≤ me_fee_rate e') →
  should_evict p v cand = true → would_exceed_limits p (me_size cand) = true →
  room_made cand p1 r p' → room_made cand p r p'.
Proof.
  intros Hp Hp1 Hs1 Hnone He Hmin Hse Hw [Hi Hsh Ho Hev Hcl _].
  split; [done|by etransitivity|done| | |by rewrite Hw].
  - intros t Ht Hgone. destruct (entries p1 !! t) as [x|] eqn:Hx.
    + destruct (Hev t) as (v'&e'&He'&Htv&Hgv&Hpr&Hlow); [by eauto|done|].
      exists v', e'. split_and!; try done; [eapply lookup_weaken; [done|apply Hs1]|].
      destruct Htv as [->|Htv]; [by left|right]. by apply (descends_shrinks p p1).
    + apply Hnone in Hx as [Hx|Hx]; [rewrite Hx in Ht; by destruct Ht|].
      exists v, e. split_and!; [done|done| | |].
      * eapply lookup_weaken_None; [|apply Hsh]. apply Hnone. auto.
      * by apply (should_evict_true p v e cand).
      * intros k e' He'. apply (Hmin k). eapply lookup_weaken; [|apply Hs1].
        eapply lookup_weaken; [done|apply Hsh].
  - intros a b Ha Hga Hab. destruct (entries p1 !! a) as [x|] eqn:Hx.
    + destruct (entries p1 !! b) as [y|] eqn:Hy; [|by eapply lookup_weaken_None; [|apply Hsh]].
      apply (Hcl a); [by eauto|done|]. destruct Hab as (o&Ho'&Hoa). exists o. split; [|done].
      apply (pi_spends _ Hp) in Ho' as (eb&Heb&Hob). apply (pi_spends _ Hp1). exists y.
      split; [done|]. assert (entries p !! b = Some y) by (eapply lookup_weaken; [done|apply Hs1]).
      by simplify_eq.
    + eapply lookup_weaken_None; [|apply Hsh]. apply Hnone. right. right.
      apply Hnone in Hx as [Hx|[->|Hx]]; [rewrite Hx in Ha; by destruct Ha|by apply tc_once|].
      by eapply tc_r.
Qed.

Lemma make_room_loop_spec fuel cand p r p' :
  pool_inv p → (size (entries p) ≤ fuel)%nat →
  make_room_loop fuel cand p = (r, p') → room_made cand p r p'.
Proof.
  revert p. induction fuel as [|fuel IH]; intros p Hp Hf; cbn [make_room_loop];
    destruct (would_exceed_limits p (me_size cand)) eqn:Hw; cbn [negb].
  2,4: intros [= <- <-]; apply room_made_refl; auto.
  all: destruct (lowest_priority_txid p) as [v|] eqn:Hv.
  2,4: intros [= <- <-]; apply room_made_refl; [done|]; right; split_and!; try done;
       apply lowest_priority_None in Hv; rewrite Hv; intros t e He; by rewrite lookup_empty in He.
  all: destruct (lowest_priority_spec p v Hv) as (e&He&Hmin).
  all: destruct (should_evict p v cand) eqn:Hse; cbn [negb].
  2,4: intros [= <- <-]; apply room_made_refl; [done|]; right; split_and!; try done;
       intros t e' He'; specialize (Hmin t e' He');
       assert (¬ me_fee_rate e < me_fee_rate cand); [|lia];
       intros Hlt; assert (should_evict p v cand = true); [|congruence];
       apply (should_evict_true p v e cand He); by left.
  { exfalso. apply Nat.le_0_r, map_size_empty_iff in Hf. rewrite Hf, lookup_empty in He. done. }
  destruct (remove_family p v) as (d&Hrm&Hd). unfold sbind. rewrite Hrm.
  pose proof (remove_entries_inv p (hs_iter ({[v]} ∪ d)) Hp) as Hp1.
  pose proof (remove_entries_shrinks p (hs_iter ({[v]} ∪ d))) as Hs1.
  pose proof (λ t, family_gone p v d t Hd) as Hnone.
  set (p1 := remove_entries p (hs_iter ({[v]} ∪ d))) in *.
  assert (size (entries p1) < size (entries p))%nat as Hlt.
  { apply map_subset_size. split; [apply Hs1|]. intros Hsub.
    apply (lookup_weaken _ _ _ _ He) in Hsub. rewrite (proj2 (Hnone v)) in Hsub; auto. done. }
  intros Hroom%IH; [|done|lia]. by apply (room_made_family cand p v e p1).
Qed.

Lemma make_room_spec cand p r p' :
  pool_inv p → make_room_for cand p = (r, p') → room_made cand p r p'.
Proof. intros Hp. by apply make_room_loop_spec. Qed.

(** ** Admission *)

(** The entry [accept_tx] builds. *)
Definition candidate_of p tx (fee : Z) : MempoolEntry := {|
  me_tx := tx;
  me_fee_rate := if 0 <? serialized_size tx then fee / serialized_size tx else 0;
  me_size := serialized_size tx; me_seq := next_seq p |}.

Record admitted tx u p (a : AcceptedTx) p' : Prop := {
  ad_valid : is_valid_for_view tx (build_validation_view p u) = true;
  ad_new : entries p !! tx_id tx = None;
  ad_free : ∀ o, o ∈ map input_outpoint (tx_inputs tx) → spends p !! o = None;
  ad_txid : at_txid a = tx_id tx;
  ad_size : at_size a = serialized_size tx;
  ad_fee : compute_fee tx (build_validation_view p u) = Ok (at_fee a);
  ad_pool : ∃ p1, room_made (candidate_of p tx (at_fee a)) p (Ok ()) p1 ∧
    p' = insert_entry p1 (tx_id tx) (candidate_of p tx (at_fee a))
}.

Definition accept_post tx u p (r : Result MempoolError AcceptedTx) p' : Prop :=
  match r with
  | Ok a => admitted tx u p a p'
  | Err AtCapacity => ∃ fee, compute_fee tx (build_validation_view p u) = Ok fee ∧
      room_made (candidate_of p tx fee) p (Err AtCapacity) p'
  | Err _ => p' = p
  | Panic => False
  end.

(** A check of [accept_tx] passes, or the call returns its error and the pool as it was. *)
Lemma accept_post_err tx u p (e : MempoolError) : e ≠ AtCapacity → accept_post tx u p (Err e) p.
Proof. by destruct e. Qed.

Tactic Notation "accept_check" constr(H) "as" simple_intropattern(pat) ident(Heq) :=
  let Hc := fresh in pose proof H as Hc;
  match type of Hc with clean ?m =>
    let e := fresh "e" in destruct m as [pat|e|] eqn:Heq;
    [clear Hc
    |intros [= <- <-]; apply accept_post_err; intros ->; by destruct Hc
    |by destruct Hc]
  end.

Lemma accept_tx_spec tx u p r p' :
  pool_inv p → accept_tx tx u p = (r, p') → accept_post tx u p r p'.
Proof.
  intros Hp. unfold accept_tx, sbind, slift.
  accept_check (validate_tx_structure_clean tx) as n Hst.
  destruct (is_coinbase tx) eqn:Hcb; [intros [= <- <-]; done|].
  unfold mempool_contains. case_bool_decide as Hin; [intros [= <- <-]; done|].
  apply eq_None_not_Some in Hin.
  accept_check (check_duplicate_inputs_clean tx) as [] Hdup.
  accept_check (check_mempool_conflicts_clean p tx) as [] Hcf.
  set (view := build_validation_view p u).
  accept_check (clean_utxo _ (validate_transaction_no_panic view tx)) as [] Hvt.
  apply map_err_Ok in Hvt.
  accept_check (compute_fee_clean tx view) as fee Hfee.
  accept_check (verify_scripts_clean tx view) as [] Hvs.
  pose proof Hst as (->&_)%validate_tx_structure_Ok.
  change (make_room_for _ p) with (make_room_for (candidate_of p tx fee) p).
  destruct (make_room_for (candidate_of p tx fee) p) as [r1 p1] eqn:Hmr.
  pose proof (make_room_spec _ _ _ _ Hp Hmr) as Hroom.
  destruct (rm_outcome _ _ _ _ Hroom) as [[-> _]|[-> _]].
  - intros [= <- <-]. split; cbn [at_txid at_size at_fee]; try done.
    + unfold is_valid_for_view. fold view. rewrite Hst, Hcb, Hdup, Hvt, Hvs. done.
    + by apply check_mempool_conflicts_Ok.
    + by exists p1.
  - intros [= <- <-]. by exists fee.
Qed.

(** The pool after an admission. *)
Lemma admitted_inv tx u p a p' : pool_inv p → admitted tx u p a p' → pool_inv p'.
Proof.
  intros Hp [Hv Hn Hf _ _ _ (p1&Hr&->)].
  apply is_valid_for_view_true in Hv as ([n Hst]&Hcb&Hnd&_). unfold spent_outpoints in Hnd.
  rewrite Hcb in Hnd. pose proof Hst as (->&_)%validate_tx_structure_Ok.
  assert (spends p1 = filter (λ '(_, t), is_Some (entries p1 !! t)) (spends p)) as Hsp.
  { apply map_eq. intros o. apply option_eq. intros t. rewrite map_lookup_filter_Some.
    rewrite (pi_spends _ (rm_inv _ _ _ _ Hr)), (pi_spends _ Hp). split.
    - intros (e&He&Ho). split; [|eauto]. exists e. split; [|done].
      eapply lookup_weaken; [done|apply Hr].
    - intros [(e&He&Ho) [e' He']]. exists e'. split; [done|].
      assert (entries p !! t = Some e') by (eapply lookup_weaken; [done|apply Hr]). by simplify_eq. }
  apply insert_entry_inv; [apply Hr|by split| | |].
  - eapply lookup_weaken_None; [done|apply Hr].
  - intros o Ho. rewrite Hsp. apply map_lookup_filter_None. left. by apply Hf.
  - by destruct (rm_outcome _ _ _ _ Hr) as [[_ ?]|[? _]].
Qed.

Lemma accept_tx_inv tx u p r p' : pool_inv p → accept_tx tx u p = (r, p') → pool_inv p'.
Proof.
  intros Hp H. pose proof (accept_tx_spec _ _ _ _ _ Hp H) as Hpost.
  destruct r as [a|e|]; simpl in Hpost; [by eapply admitted_inv| |done].
  destruct e; try (by subst). destruct Hpost as (fee&_&Hr). apply Hr.
Qed.
End mempool_evict.
