(* ===== verification/MempoolSync.v ===== *)
(** * Keeping the pool consistent with the chain

    The removal of what a block confirms or contradicts, the revalidation of the rest, and
    the restoration of the transactions of disconnected blocks: the loops end, and what they
    leave. *)

From stdpp Require Import prelude gmap strings list sorting relations.
From Stdlib Require Import Strings.Byte.
From S2P Require Import Prelude Bytes Crypto U256 Wire Transaction Merkle Block Utxo Script.
From S2P Require Import Sighash Journal Store Chain ChainTx Mempool MempoolInv MempoolEvict.

Local Open Scope Z_scope.

Section mempool_sync.
Context {crypto : CryptoLib} {order : HashOrder}.
Implicit Types (p : Mempool) (e : MempoolEntry) (tx : Transaction) (t : list byte).

(** ** The pool in admission order *)

Lemma elem_of_ordered p e : e ∈ ordered p ↔ ∃ t, entries p !! t = Some e.
Proof.
  unfold ordered. rewrite sort_by_key_perm.
  change (map snd) with (fmap (M := list) (@snd (list byte) MempoolEntry)).
  rewrite list_elem_of_fmap. split.
  - intros ([t e']&->&?%elem_of_hm_iter). by exists t.
  - intros [t ?]. exists (t, e). split; [done|]. by apply elem_of_hm_iter.
Qed.

(** Every transaction is valid after its predecessors. *)
Fixpoint valid_seq (u : UtxoSet) (txs : list Transaction) : Prop :=
  match txs with
  | [] => True
  | tx :: txs' => is_valid_for_view tx u = true ∧ valid_seq (utxo_step u tx) txs'
  end.
Definition pool_txs p : list Transaction := map me_tx (ordered p).
Definition pool_valid (u : UtxoSet) p : Prop := valid_seq u (pool_txs p).

Lemma valid_seq_app u txs1 txs2 :
  valid_seq u (txs1 ++ txs2) ↔ valid_seq u txs1 ∧ valid_seq (utxo_after u txs1) txs2.
Proof.
  revert u. induction txs1 as [|tx txs1 IH]; intros u; cbn; [tauto|]. rewrite IH.
  unfold utxo_after. cbn [foldl]. tauto.
Qed.

Lemma build_validation_view_spec p u : build_validation_view p u = utxo_after u (pool_txs p).
Proof.
  unfold build_validation_view, utxo_after, pool_txs. generalize (ordered p). intros l. revert u.
  induction l as [|e l IH]; intros u; cbn; [done|]. by rewrite apply_transaction_snd, IH.
Qed.

(** ** Revalidation *)

Fixpoint invalid_of (view : UtxoSet) (l : list MempoolEntry) : list (list byte) :=
  match l with
  | [] => []
  | e :: l' => if is_valid_for_view (me_tx e) view then invalid_of (utxo_step view (me_tx e)) l'
               else tx_id (me_tx e) :: invalid_of view l'
  end.

Lemma find_invalid_txids_spec p u : find_invalid_txids p u = invalid_of u (ordered p).
Proof.
  unfold find_invalid_txids. generalize (ordered p). intros l.
  enough (∀ inv, (foldl (λ '(invalid, view) entry,
    if negb (is_valid_for_view (me_tx entry) view) then (invalid ++ [tx_id (me_tx entry)], view)
    else (invalid, (apply_transaction view (me_tx entry)).2)) (inv, u) l).1 = inv ++ invalid_of u l)
    as H by apply (H []).
  revert u. induction l as [|e l IH]; intros u inv; cbn; [by rewrite (right_id_L [] (++))|].
  destruct (is_valid_for_view (me_tx e) u); cbn; rewrite IH.
  - by rewrite apply_transaction_snd.
  - by rewrite <- (assoc_L (++)).
Qed.

Lemma invalid_of_nil u l : invalid_of u l = [] ↔ valid_seq u (map me_tx l).
Proof.
  revert u. induction l as [|e l IH]; intros u; cbn; [done|].
  destruct (is_valid_for_view (me_tx e) u); [rewrite IH; tauto|]. split; [done|by intros [? _]].
Qed.
Lemma invalid_of_elem u l t : t ∈ invalid_of u l → ∃ e, e ∈ l ∧ t = tx_id (me_tx e).
Proof.
  revert u. induction l as [|e l IH]; intros u; cbn; [by intros ?%not_elem_of_nil|].
  setoid_rewrite elem_of_cons. destruct (is_valid_for_view (me_tx e) u).
  - intros (e'&?&?)%IH. eauto.
  - intros [->|(e'&?&?)%IH]%elem_of_cons; eauto.
Qed.

Lemma pool_valid_check u p : find_invalid_txids p u = [] → pool_valid u p.
Proof. rewrite find_invalid_txids_spec. apply invalid_of_nil. Qed.

Lemma revalidate_loop_spec fuel u p :
  pool_inv p → (size (entries p) ≤ fuel)%nat →
  ∃ p', revalidate_loop fuel u p = (Ok (), p') ∧ pool_inv p' ∧ shrinks p p' ∧ pool_valid u p'.
Proof.
  revert p. induction fuel as [|fuel IH]; intros p Hp Hf; cbn [revalidate_loop];
    destruct (find_invalid_txids p u) as [|t l] eqn:Hinv.
  1,3: exists p; split_and!; [done|done|reflexivity|];
       apply invalid_of_nil; by rewrite <- find_invalid_txids_spec.
  all: assert (is_Some (entries p !! t)) as [e He]
    by (assert (t ∈ find_invalid_txids p u) as Ht by (rewrite Hinv; apply elem_of_cons; by left);
        rewrite find_invalid_txids_spec in Ht;
        apply invalid_of_elem in Ht as (e&(t'&He)%elem_of_ordered&->);
        rewrite (eo_txid _ _ (pi_entries _ Hp _ _ He)); eauto).
  { exfalso. apply Nat.le_0_r, map_size_empty_iff in Hf. by rewrite Hf, lookup_empty in He. }
  set (p1 := remove_entries p (t :: l)).
  assert (shrinks p p1) as Hs by apply remove_entries_shrinks.
  destruct (IH p1) as (p'&Hr&Hp'&Hs'&Hv).
  - by apply remove_entries_inv.
  - enough (size (entries p1) < size (entries p))%nat by lia.
    apply map_subset_size. split; [apply Hs|]. intros Hsub.
    apply (lookup_weaken _ _ _ _ He) in Hsub. unfold p1 in Hsub.
    rewrite remove_entries_entries in Hsub. apply map_lookup_filter_Some in Hsub as [_ Hn].
    apply Hn, elem_of_cons. by left.
  - exists p'. split_and!; [done|done|by etransitivity|done].
Qed.

Lemma revalidate_pool_spec u p :
  pool_inv p →
  ∃ p', revalidate_pool u p = (Ok (), p') ∧ pool_inv p' ∧ shrinks p p' ∧ pool_valid u p' ∧
        (pool_valid u p → p' = p).
Proof.
  intros Hp. destruct (revalidate_loop_spec (size (entries p)) u p Hp) as (p'&Hr&?&?&?); [done|].
  exists p'. split_and!; try done. intros Hv. unfold revalidate_pool in Hr.
  assert (find_invalid_txids p u = []) as Hn by (rewrite find_invalid_txids_spec; by apply invalid_of_nil).
  destruct (size (entries p)); cbn in Hr; rewrite Hn in Hr; by injection Hr.
Qed.

(** ** Removal for a block *)

(** What a block makes [remove_for_block] remove. *)
Inductive doomed (b : Block) p : list byte → Prop :=
| doomed_confirmed t : t ∈ block_txids b → doomed b p t
| doomed_conflict t e o :
    entries p !! t = Some e → o ∈ map input_outpoint (tx_inputs (me_tx e)) →
    o ∈ block_spends b → doomed b p t
| doomed_child t e o :
    entries p !! t = Some e → o ∈ map input_outpoint (tx_inputs (me_tx e)) →
    doomed b p (op_txid o) → doomed b p t.

(** A pool transaction that spends an outpoint the block spends. *)
Definition conflicting (b : Block) p t : Prop :=
  ∃ e o, entries p !! t = Some e ∧ o ∈ map input_outpoint (tx_inputs (me_tx e)) ∧ o ∈ block_spends b.

(** The doomed entries are the confirmed ones, the conflicting ones and their descendants. *)
Lemma doomed_descends b p t :
  pool_inv p → doomed b p t ↔
  ∃ root, (root ∈ block_txids b ∨ conflicting b p root) ∧ (t = root ∨ tc (spender_of p) root t).
Proof.
  intros Hp. split.
  - induction 1 as [t Ht|t e o He Ho Hb|t e o He Ho _ (root&Hroot&Hd)].
    + exists t. auto.
    + exists t. split; [right; by exists e, o|by left].
    + exists root. split; [done|]. right.
      assert (spender_of p (op_txid o) t) as Hs.
      { exists o. split; [|done]. apply (pi_spends _ Hp). by exists e. }
      destruct Hd as [<-|Hd]; [by apply tc_once|by eapply tc_r].
  - intros (root&Hroot&Hd). assert (doomed b p root) as Hdoom.
    { destruct Hroot as [Ht|(e&o&He&Ho&Hb)]; [by apply doomed_confirmed|by eapply doomed_conflict]. }
    destruct Hd as [->|Hd]; [done|]. clear Hroot. revert Hdoom.
    assert (∀ x y, spender_of p x y → doomed b p x → doomed b p y) as Hstep.
    { intros x y (o&Ho&<-) Hx. apply (pi_spends _ Hp) in Ho as (e&He&Ho). by eapply doomed_child. }
    induction Hd as [x y Hxy|x y z Hxy _ IH]; eauto.
Qed.

Lemma conflicts_with_true bspends remove e :
  conflicts_with bspends remove e = true ↔
  ∃ o, o ∈ map input_outpoint (tx_inputs (me_tx e)) ∧ (o ∈ bspends ∨ op_txid o ∈ remove).
Proof.
  unfold conflicts_with. rewrite existsb_exists.
  change (map input_outpoint) with (fmap (M := list) input_outpoint).
  setoid_rewrite list_elem_of_fmap. setoid_rewrite orb_true_iff.
  setoid_rewrite bool_decide_eq_true. setoid_rewrite <- list_elem_of_In. split.
  - intros (i&Hi&H). exists (input_outpoint i). split; [by exists i|done].
  - intros (o&(i&->&Hi)&H). by exists i.
Qed.

Lemma conflict_pass_spec p (bspends : gset OutPoint) (remove remove' : gset (list byte))
    (added : bool) :
  conflict_pass p bspends remove = (remove', added) →
  remove ⊆ remove' ∧
  (∀ (P : list byte → Prop), (∀ t, t ∈ remove → P t) →
    (∀ t e o, entries p !! t = Some e → o ∈ map input_outpoint (tx_inputs (me_tx e)) →
      o ∈ bspends ∨ P (op_txid o) → P t) → ∀ t, t ∈ remove' → P t) ∧
  (if added then ∃ t, t ∈ remove' ∧ (t ∉ remove) ∧ (t ∈ dom (entries p))
   else remove' = remove ∧ ∀ t e, entries p !! t = Some e → t ∉ remove →
     conflicts_with bspends remove e = false).
Proof.
  unfold conflict_pass. intros Hfold.
  assert (∀ (l : list (list byte * MempoolEntry)) (r0 r1 : gset (list byte)) (b0 b1 : bool),
    (∀ t e, (t, e) ∈ l → entries p !! t = Some e) →
    foldl (λ '(remove, added) '(txid, entry),
      if bool_decide (txid ∈ remove) then (remove, added)
      else if conflicts_with bspends remove entry then ({[txid]} ∪ remove, true)
      else (remove, added)) (r0, b0) l = (r1, b1) →
    r0 ⊆ r1 ∧
    (∀ (P : list byte → Prop), (∀ t, t ∈ r0 → P t) →
      (∀ t e o, entries p !! t = Some e → o ∈ map input_outpoint (tx_inputs (me_tx e)) →
        o ∈ bspends ∨ P (op_txid o) → P t) → ∀ t, t ∈ r1 → P t) ∧
    ((b1 = b0 ∧ r1 = r0 ∧ ∀ t e, (t, e) ∈ l → t ∉ r0 → conflicts_with bspends r0 e = false) ∨
     (b1 = true ∧ ∃ t, t ∈ r1 ∧ (t ∉ r0) ∧ (t ∈ dom (entries p))))) as H.
  { induction l as [|[t e] l IH]; intros r0 r1 b0 b1 Hl; cbn [foldl].
    { intros [= <- <-]. split; [done|]. split; [auto|]. left. split_and!; try done.
      by intros t e ?%not_elem_of_nil. }
    assert (∀ t e, (t, e) ∈ l → entries p !! t = Some e) as Hl'
      by (intros t' e' ?; apply Hl, elem_of_cons; by right).
    assert (entries p !! t = Some e) as Hte by (apply Hl, elem_of_cons; by left).
    case_bool_decide as Hin; [|destruct (conflicts_with bspends r0 e) eqn:Hc].
    - intros (H1&H2&H3)%IH; [|done]. split_and!; [done|done|].
      destruct H3 as [(->&->&H3)|?]; [left|by right]. split_and!; [done|done|].
      intros t' e' [[= -> ->]|Hin']%elem_of_cons Hn; [done|by eapply H3].
    - intros (H1&H2&H3)%IH; [|done]. split_and!; [set_solver|..].
      + intros P HP Hstep. apply H2; [|done]. intros t' [->%elem_of_singleton|?]%elem_of_union; [|auto].
        apply conflicts_with_true in Hc as (o&Ho&[Hb|Hr]); eapply Hstep; eauto.
      + right. split; [by destruct H3 as [(->&_)|[? _]]|]. exists t. split_and!; [set_solver|done|].
        apply elem_of_dom. eauto.
    - intros (H1&H2&H3)%IH; [|done]. split_and!; [done|done|].
      destruct H3 as [(->&->&H3)|?]; [left|by right]. split_and!; [done|done|].
      intros t' e' [[= -> ->]|Hin']%elem_of_cons Hn; [done|by eapply H3]. }
  destruct (H _ _ _ _ _ (λ t e, proj1 (elem_of_hm_iter (entries p) t e)) Hfold) as (H1&H2&H3).
  split_and!; [done|done|]. destruct H3 as [(->&->&H3)|[-> H3]]; [|done]. split; [done|].
  intros t e He. by apply H3, elem_of_hm_iter.
Qed.

Lemma conflict_loop_spec (fuel : nat) (b : Block) p (remove : gset (list byte)) :
  (size (dom (entries p) ∖ remove) ≤ fuel)%nat →
  block_txids b ⊆ remove → (∀ t, t ∈ remove → doomed b p t) →
  ∃ r, conflict_loop fuel p (block_spends b) remove = Some r ∧ ∀ t, t ∈ r ↔ doomed b p t.
Proof.
  revert remove. induction fuel as [|fuel IH]; intros remove Hf Hb Hd; cbn [conflict_loop];
    destruct (conflict_pass p (block_spends b) remove) as [r added] eqn:Hpass;
    destruct (conflict_pass_spec _ _ _ _ _ Hpass) as (Hsub&Hind&Hadd);
    destruct added; cbn [negb].
  2,4: destruct Hadd as [-> Hclosed]; exists remove; split; [done|]; intros t;
    split; [apply Hd|]; induction 1 as [t Ht|t e o He Ho Hbs|t e o He Ho _ IHd];
    [by apply Hb|apply dec_stable; intros Hn; specialize (Hclosed t e He Hn);
      apply not_true_iff_false in Hclosed; apply Hclosed, conflicts_with_true; eauto..].
  all: destruct Hadd as (t&Ht&Hn&Hdom);
    assert (size (dom (entries p) ∖ r) < size (dom (entries p) ∖ remove))%nat
      by (apply subset_size; split; [set_solver|]; intros Hs;
          assert (t ∈ dom (entries p) ∖ r) as [_ ?]%elem_of_difference by (apply Hs; set_solver);
          done).
  { lia. }
  apply IH; [lia|by etransitivity|]. apply Hind; [done|].
  intros t' e o He Ho [?|?]; [by eapply doomed_conflict|by eapply doomed_child].
Qed.

Lemma remove_for_block_spec b p :
  pool_inv p →
  ∃ p', remove_for_block b p = (Ok (), p') ∧ pool_inv p' ∧ shrinks p p' ∧
    ∀ t, is_Some (entries p !! t) → entries p' !! t = None ↔ doomed b p t.
Proof.
  intros Hp. unfold remove_for_block.
  destruct (conflict_loop_spec (size (entries p)) b p (block_txids b)) as (r&->&Hr); [|done|..].
  - rewrite <- size_dom. apply subseteq_size. set_solver.
  - intros t. apply doomed_confirmed.
  - eexists. split; [done|]. split; [by apply remove_entries_inv|].
    split; [apply remove_entries_shrinks|]. intros t [e He].
    rewrite remove_entries_entries, map_lookup_filter_None, He, <- Hr, <- elem_of_hs_iter. split.
    + intros [[=]|Hn]. apply dec_stable. by apply (Hn e).
    + intros Hin. right. intros e' _ Hn. by apply Hn.
Qed.

Lemma remove_for_blocks_spec bs p :
  pool_inv p →
  ∃ p', sfor bs remove_for_block p = (Ok (), p') ∧ pool_inv p' ∧ shrinks p p'.
Proof.
  revert p. induction bs as [|b bs IH]; intros p Hp; cbn [sfor].
  { exists p. split_and!; [done|done|reflexivity]. }
  destruct (remove_for_block_spec b p Hp) as (p1&Hr&Hp1&Hs1&_). unfold sbind. rewrite Hr.
  destruct (IH p1 Hp1) as (p'&Hr'&Hp'&Hs'). exists p'. split_and!; [done|done|by etransitivity].
Qed.

(** ** Restoration *)

(** Every entry of [p'] comes from [p] or is one of [txs]. *)
Definition entries_from p (txs : list Transaction) p' : Prop :=
  limits p' = limits p ∧
  ∀ t e, entries p' !! t = Some e → entries p !! t = Some e ∨ me_tx e ∈ txs.

Lemma shrinks_entries_from p p' txs : shrinks p p' → entries_from p txs p'.
Proof. intros (Hs&Hl&_). split; [done|]. intros t e He. left. by eapply lookup_weaken. Qed.

Lemma entries_from_trans p1 p2 p3 txs1 txs2 txs :
  entries_from p1 txs1 p2 → entries_from p2 txs2 p3 →
  (∀ tx, tx ∈ txs1 → tx ∈ txs) → (∀ tx, tx ∈ txs2 → tx ∈ txs) → entries_from p1 txs p3.
Proof.
  intros [Hl1 H1] [Hl2 H2] Hs1 Hs2. split; [congruence|].
  intros t e He. destruct (H2 t e He) as [He2|?]; [|by right; apply Hs2].
  destruct (H1 t e He2); [by left|by right; apply Hs1].
Qed.

Lemma accept_tx_from tx u p r p' :
  pool_inv p → accept_tx tx u p = (r, p') → r ≠ Panic ∧ pool_inv p' ∧ entries_from p [tx] p'.
Proof.
  intros Hp H. pose proof (accept_tx_inv _ _ _ _ _ Hp H) as Hp'.
  pose proof (accept_tx_spec _ _ _ _ _ Hp H) as Hpost. split; [by destruct r|]. split; [done|].
  destruct r as [a|e|]; simpl in Hpost; [| |done].
  - destruct (ad_pool _ _ _ _ _ Hpost) as (p1&Hr&->). split; [apply Hr|].
    intros t e. cbn [insert_entry entries]. intros [[<- <-]|[_ He]]%lookup_insert_Some; [right; by apply list_elem_of_singleton|].
    left. eapply lookup_weaken; [done|apply Hr].
  - apply shrinks_entries_from. destruct e; try (subst; reflexivity).
    destruct Hpost as (fee&_&Hr). apply Hr.
Qed.

Lemma restore_pass_spec pending u p :
  pool_inv p →
  ∃ progress remaining p', restore_pass pending u p = (Ok (progress, remaining), p') ∧
    pool_inv p' ∧ entries_from p pending p' ∧ (∀ tx, tx ∈ remaining → tx ∈ pending) ∧
    (length remaining + (if progress then 1 else 0) ≤ length pending)%nat.
Proof.
  revert p. induction pending as [|tx pending IH]; intros p Hp; cbn [restore_pass].
  { exists false, [], p. split_and!; try done. by apply shrinks_entries_from. }
  destruct (accept_tx tx u p) as [r p1] eqn:Ha.
  destruct (accept_tx_from _ _ _ _ _ Hp Ha) as (Hr&Hp1&Hf1).
  destruct (IH p1 Hp1) as (progress&remaining&p'&Hpass&Hp'&Hf'&Hin&Hlen).
  assert (entries_from p (tx :: pending) p') as Hf.
  { eapply entries_from_trans; [exact Hf1|exact Hf'| |]; intros tx';
      rewrite ?list_elem_of_singleton, ?elem_of_cons; auto. }
  destruct r as [a|e|]; [| |done]; unfold sbind; rewrite Hpass.
  - exists true, remaining, p'. split_and!; try done.
    + intros tx' ?. apply elem_of_cons. auto.
    + simpl. destruct progress; lia.
  - exists progress, (tx :: remaining), p'. split_and!; try done.
    + intros tx'. rewrite !elem_of_cons. naive_solver.
    + simpl. destruct progress; lia.
Qed.

Lemma restore_loop_spec fuel pending u p :
  pool_inv p → (length pending ≤ fuel)%nat →
  ∃ p', restore_loop fuel pending u p = (Ok (), p') ∧ pool_inv p' ∧ entries_from p pending p'.
Proof.
  revert pending p. induction fuel as [|fuel IH]; intros pending p Hp Hf; cbn [restore_loop];
    destruct (restore_pass_spec pending u p Hp) as (progress&remaining&p1&Hpass&Hp1&Hf1&Hin&Hlen);
    unfold sbind; rewrite Hpass;
    destruct (negb progress || bool_decide (remaining = [])) eqn:Hstop.
  1,3: by exists p1.
  all: apply orb_false_iff in Hstop as [Hpr%negb_false_iff Hne%bool_decide_eq_false];
    subst progress.
  { exfalso. destruct remaining; simpl in *; [done|lia]. }
  destruct (IH remaining p1 Hp1) as (p'&Hr&Hp'&Hf'); [lia|]. exists p'. split_and!; [done|done|].
  by eapply entries_from_trans; [exact Hf1|exact Hf'| |].
Qed.

Lemma restore_candidates_spec candidates u p :
  pool_inv p →
  ∃ p', restore_candidates candidates u p = (Ok (), p') ∧ pool_inv p' ∧
        entries_from p candidates p'.
Proof. intros Hp. by apply restore_loop_spec. Qed.

(** ** Synchronization *)

Lemma synchronize_spec u connected disconnected p :
  pool_inv p →
  ∃ p', synchronize_to_chain u connected disconnected p = (Ok (), p') ∧ pool_inv p' ∧
        entries_from p (restorable disconnected) p'.
Proof.
  intros Hp. unfold synchronize_to_chain.
  destruct (remove_for_blocks_spec connected p Hp) as (p1&H1&Hp1&Hs1).
  destruct (revalidate_pool_spec u p1 Hp1) as (p2&H2&Hp2&Hs2&_).
  destruct (restore_candidates_spec (restorable disconnected) u p2 Hp2) as (p3&H3&Hp3&Hf3).
  exists p3. unfold sbind. rewrite H1, H2. split_and!; [done|done|].
  eapply entries_from_trans; [|exact Hf3|by intros tx ?%not_elem_of_nil|done].
  apply shrinks_entries_from. by etransitivity.
Qed.

Lemma resync_spec c since p :
  pool_inv p →
  match recovery_disconnected_blocks c since with
  | Ok disconnected => ∃ p', resync_to_active_chain c since p = (Ok (), p') ∧ pool_inv p' ∧
      entries_from p (restorable disconnected) p'
  | Err e => resync_to_active_chain c since p = (Err e, p)
  | Panic => True
  end.
Proof.
  intros Hp. unfold resync_to_active_chain.
  destruct (recovery_disconnected_blocks c since) as [ds| |]; [|done|done].
  set (active := omap _ _).
  destruct (synchronize_spec (utxo c) active ds p Hp) as (p'&H&Hp'&Hf').
  unfold synchronize_to_chain in H. rewrite H. by exists p'.
Qed.

(** ** Validity of the whole pool *)

Lemma hm_iter_insert_perm p t e :
  entries p !! t = None →
  map snd (hm_iter (<[t := e]> (entries p))) ≡ₚ map snd (hm_iter (entries p)) ++ [e].
Proof.
  intros Ht. rewrite (Permutation_app_comm (map snd _) [e]).
  change (map snd) with (fmap (M := list) (@snd (list byte) MempoolEntry)).
  rewrite !hm_iter_perm, map_to_list_insert by done. done.
Qed.

Lemma ordered_NoDup_seq p : seq_ok p → NoDup (map me_seq (map snd (hm_iter (entries p)))).
Proof.
  intros Hs. rewrite map_map. change (map (λ x, me_seq x.2)) with
    (fmap (M := list) (λ x : list byte * MempoolEntry, me_seq x.2)).
  apply NoDup_fmap_2_strong.
  - intros [t1 e1] [t2 e2] H1%elem_of_hm_iter H2%elem_of_hm_iter Heq. simpl in Heq.
    assert (t1 = t2) as -> by (by eapply (sq_inj _ Hs)). congruence.
  - apply (NoDup_fmap_1 fst). apply hm_iter_NoDup.
Qed.

(** A new entry comes last. *)
Lemma ordered_insert p t e :
  seq_ok p → entries p !! t = None → me_seq e = next_seq p → next_seq p + 1 < 2 ^ 64 →
  ordered (insert_entry p t e) = ordered p ++ [e].
Proof.
  intros Hs Ht He Hn. pose proof (insert_entry_seq_ok p t e Hs Ht He Hn) as Hs'.
  unfold ordered at 1. cbn [insert_entry entries].
  set (l := map snd (hm_iter (entries p))).
  pose proof (hm_iter_insert_perm p t e Ht) as Hp. fold l in Hp.
  assert (NoDup (map me_seq (l ++ [e]))) as Hnd.
  { pose proof (ordered_NoDup_seq _ Hs') as Hnd. cbn [insert_entry entries] in Hnd.
    change (map me_seq) with (fmap (M := list) me_seq) in *. by rewrite Hp in Hnd. }
  assert (sort_by_key me_seq (l ++ [e]) = ordered p ++ [e]) as <-.
  { apply sort_by_key_snoc; [|done]. apply Forall_forall. intros x Hx.
    unfold l in Hx. change (map snd) with (fmap (M := list) (@snd (list byte) MempoolEntry)) in Hx.
    apply list_elem_of_fmap in Hx as ([t' e']&->&He'%elem_of_hm_iter).
    apply (sq_bound _ Hs) in He'. simpl in *. lia. }
  apply (sorted_unique me_seq); [apply sort_by_key_sorted..| |].
  - change (map me_seq) with (fmap (M := list) me_seq) in *.
    rewrite sort_by_key_perm, Hp. done.
  - by rewrite !sort_by_key_perm, Hp.
Qed.

(** An admission that evicts nothing keeps the whole pool valid. *)
Lemma accept_keeps_valid tx u p a p' :
  pool_inv p → seq_ok p → next_seq p + 1 < 2 ^ 64 → pool_valid u p →
  would_exceed_limits p (serialized_size tx) = false →
  accept_tx tx u p = (Ok a, p') → pool_txs p' = pool_txs p ++ [tx] ∧ pool_valid u p'.
Proof.
  intros Hp Hs Hn Hv Hroom H.
  pose proof (accept_tx_spec _ _ _ _ _ Hp H) as [Hval Hnew _ _ _ _ (p1&Hr&->)].
  rewrite (rm_noop _ _ _ _ Hr Hroom) in *.
  assert (pool_txs (insert_entry p (tx_id tx) (candidate_of p tx (at_fee a))) = pool_txs p ++ [tx])
    as Htxs by (unfold pool_txs; rewrite ordered_insert by done; by rewrite map_app).
  split; [done|]. unfold pool_valid. rewrite Htxs. apply valid_seq_app. split; [done|].
  cbn. by rewrite <- build_validation_view_spec.
Qed.

(** ** Restoring keeps the pool valid while there is room *)

(** Room for [n] more transactions of [s] bytes, and numbers for them. *)
Definition room p (n s : Z) : Prop :=
  mempool_len p + n ≤ max_tx_count (limits p) ∧ total_bytes p + s ≤ max_bytes (limits p) ∧
  next_seq p + n < 2 ^ 64.
Definition sizes (txs : list Transaction) : Z := foldr (λ tx n, serialized_size tx + n) 0 txs.
Definition has_room p (txs : list Transaction) : Prop := room p (zlen txs) (sizes txs).

Lemma sizes_nonneg txs : 0 ≤ sizes txs.
Proof. induction txs as [|tx txs IH]; simpl; [done|]. pose proof (serialized_size_nonneg tx). lia. Qed.

Lemma room_not_exceeded p n s :
  pool_inv p → room p n s → 1 ≤ n → 0 ≤ s → would_exceed_limits p s = false.
Proof.
  intros Hp (Hcount&Hbytes&_) Hn Hs. unfold would_exceed_limits, usize_add.
  destruct (pi_limits _ Hp). pose proof (pool_sizes_nonneg _ Hp).
  assert (0 ≤ total_bytes p) by (rewrite (pi_bytes _ Hp); by apply map_sum_nonneg).
  assert (0 ≤ mempool_len p) by (unfold mempool_len; lia).
  rewrite !Z.mod_small by lia. rewrite orb_false_iff, !Z.ltb_ge. lia.
Qed.

Lemma room_weaken p n n' s s' : room p n s → n' ≤ n → s' ≤ s → room p n' s'.
Proof. intros (?&?&?) ??. split_and!; lia. Qed.

Lemma shrinks_room p p' n s : pool_inv p → pool_inv p' → shrinks p p' → room p n s → room p' n s.
Proof.
  intros Hp Hp' (Hsub&Hl&Hn) (Hcount&Hbytes&Hseq). unfold room, mempool_len in *. rewrite Hl, Hn.
  pose proof (map_subseteq_size _ _ Hsub). rewrite (pi_bytes _ Hp').
  pose proof (map_sum_mono me_size _ _ (pool_sizes_nonneg _ Hp) Hsub) as Hle.
  rewrite <- (pi_bytes _ Hp) in Hle. split_and!; lia.
Qed.

(** What is kept while candidates are restored to a pool with room for [n] and [s]. *)
Record restoring u p (n s : Z) : Prop := {
  re_inv : pool_inv p;
  re_seq : seq_ok p;
  re_valid : pool_valid u p;
  re_room : room p n s
}.

Lemma accept_with_room tx u p n s r p' :
  restoring u p (1 + n) (serialized_size tx + s) → 0 ≤ n → 0 ≤ s →
  accept_tx tx u p = (r, p') →
  match r with Ok _ => restoring u p' n s | Err _ => p' = p | Panic => False end.
Proof.
  intros [Hp Hs Hv Hroom] Hn Hsize H. pose proof (accept_tx_spec _ _ _ _ _ Hp H) as Hpost.
  pose proof (serialized_size_nonneg tx) as Htx.
  assert (would_exceed_limits p (serialized_size tx) = false) as Hfree.
  { apply (room_not_exceeded p (1 + n)); [done| |lia|lia]. eapply room_weaken; [exact Hroom|lia..]. }
  destruct r as [a|e|]; [| |done].
  - destruct (accept_keeps_valid _ _ _ _ _ Hp Hs ltac:(destruct Hroom; lia) Hv Hfree H) as [_ Hv'].
    pose proof (accept_tx_inv _ _ _ _ _ Hp H) as Hp'.
    destruct Hpost as [_ Hnew _ _ _ _ (p1&Hr&->)]. rewrite (rm_noop _ _ _ _ Hr Hfree) in *.
    split; [done| |done|].
    + apply insert_entry_seq_ok; [done..|]. destruct Hroom; lia.
    + destruct Hroom as (Hcount&Hbytes&Hseq). destruct (pi_limits _ Hp).
      pose proof (sq_next _ Hs). unfold room, mempool_len in *.
      cbn [insert_entry entries limits total_bytes next_seq candidate_of me_size].
      rewrite map_size_insert_None by done. unfold usize_add, u64_wrapping_add.
      assert (0 ≤ total_bytes p).
      { rewrite (pi_bytes _ Hp). apply map_sum_nonneg. by apply pool_sizes_nonneg. }
      rewrite !Z.mod_small by lia. lia.
  - destruct e; try done. destruct Hpost as (fee&_&Hr).
    pose proof (rm_noop _ _ _ _ Hr Hfree) as ->.
    destruct (rm_outcome _ _ _ _ Hr) as [[[=] _]|(_&Hfull&_)].
    change (me_size (candidate_of p tx fee)) with (serialized_size tx) in Hfull. congruence.
Qed.

Lemma restore_pass_room pending u p n s :
  restoring u p (zlen pending + n) (sizes pending + s) → 0 ≤ n → 0 ≤ s →
  ∃ progress remaining p', restore_pass pending u p = (Ok (progress, remaining), p') ∧
    restoring u p' (zlen remaining + n) (sizes remaining + s) ∧
    (length remaining + (if progress then 1 else 0) ≤ length pending)%nat.
Proof.
  revert p n s. induction pending as [|tx pending IH]; intros p n s Hre Hn Hs; cbn [restore_pass].
  { by exists false, [], p. }
  rewrite zlen_cons in Hre. cbn [sizes foldr] in Hre. fold (sizes pending) in Hre.
  pose proof (zlen_nonneg pending). pose proof (sizes_nonneg pending).
  pose proof (serialized_size_nonneg tx).
  destruct (accept_tx tx u p) as [r p1] eqn:Ha.
  pose proof (accept_with_room tx u p (zlen pending + n) (sizes pending + s) r p1) as Hacc.
  destruct r as [a|e|]; [|specialize (Hacc ltac:(by rewrite !Z.add_assoc) ltac:(lia) ltac:(lia) Ha); subst p1|].
  - destruct (IH p1 n s) as (progress&remaining&p'&Hpass&Hre'&Hlen);
      [apply Hacc; [by rewrite !Z.add_assoc|lia..|done]|done|done|].
    unfold sbind. rewrite Hpass. exists true, remaining, p'. split_and!; [done|done|].
    simpl. destruct progress; lia.
  - destruct (IH p (1 + n) (serialized_size tx + s)) as (progress&remaining&p'&Hpass&Hre'&Hlen);
      [|lia|lia|].
    { replace (zlen pending + (1 + n)) with (1 + zlen pending + n) by lia.
      by replace (sizes pending + (serialized_size tx + s)) with (serialized_size tx + sizes pending + s) by lia. }
    unfold sbind. rewrite Hpass. exists progress, (tx :: remaining), p'. split_and!; [done| |].
    + rewrite zlen_cons. cbn [sizes foldr]. fold (sizes remaining).
      replace (1 + zlen remaining + n) with (zlen remaining + (1 + n)) by lia.
      by replace (serialized_size tx + sizes remaining + s) with (sizes remaining + (serialized_size tx + s)) by lia.
    + simpl. destruct progress; lia.
  - exfalso. apply Hacc; [by rewrite !Z.add_assoc|lia..|done].
Qed.

Lemma restore_loop_room fuel pending u p :
  restoring u p (zlen pending) (sizes pending) → (length pending ≤ fuel)%nat →
  ∃ p', restore_loop fuel pending u p = (Ok (), p') ∧ pool_valid u p'.
Proof.
  revert pending p. induction fuel as [|fuel IH]; intros pending p Hre Hf; cbn [restore_loop];
    destruct (restore_pass_room pending u p 0 0) as (progress&remaining&p1&Hpass&Hre1&Hlen);
    rewrite ?Z.add_0_r in *; try done; unfold sbind; rewrite Hpass;
    destruct (negb progress || bool_decide (remaining = [])) eqn:Hstop.
  1,3: exists p1; split; [done|apply Hre1].
  all: apply orb_false_iff in Hstop as [Hpr%negb_false_iff Hne%bool_decide_eq_false]; subst progress.
  { exfalso. destruct remaining; simpl in *; [done|lia]. }
  apply IH; [done|lia].
Qed.

(** What a synchronization with a chain whose outputs are [u] leaves: from [p], what
    remains of it is valid, and the candidates are offered to it; the pool is valid again if
    there are none, or if they find room and numbers. *)
Definition synchronized u (candidates : list Transaction) p p' : Prop :=
  ∃ p1, entries p1 ⊆ entries p ∧ pool_valid u p1 ∧ restore_candidates candidates u p1 = (Ok (), p') ∧
    (candidates = [] ∨ (seq_ok p ∧ has_room p candidates) → pool_valid u p').

Lemma synchronize_restores u connected disconnected p :
  pool_inv p → ∃ p', synchronize_to_chain u connected disconnected p = (Ok (), p') ∧
    synchronized u (restorable disconnected) p p'.
Proof.
  intros Hp. unfold synchronize_to_chain.
  destruct (remove_for_blocks_spec connected p Hp) as (p1&H1&Hp1&Hs1).
  destruct (revalidate_pool_spec u p1 Hp1) as (p2&H2&Hp2&Hs2&Hv2&_).
  assert (shrinks p p2) as Hs by by etrans.
  destruct (restore_candidates_spec (restorable disconnected) u p2 Hp2) as (p3&H3&_&_).
  exists p3. rewrite (sbind_run _ _ _ _ _ H1), (sbind_run _ _ _ _ _ H2). split; [done|].
  exists p2. split_and!; [apply Hs|done|done|].
  intros [Hnone|[Hseq Hroom]].
  - rewrite Hnone in H3. unfold restore_candidates in H3. simpl in H3. unfold sbind in H3. simpl in H3.
    injection H3 as <-. done.
  - destruct (restore_loop_room (length (restorable disconnected)) (restorable disconnected) u p2)
      as (p'&Hrun&Hv); [|done|].
    + split; [done|by eapply shrinks_seq_ok|done|by eapply (shrinks_room p)].
    + unfold restore_candidates in H3. by rewrite Hrun in H3; injection H3 as <-.
Qed.

(** ** The pool as the body of a block *)

Lemma concat_map_perm {A B} (f : A → list B) l1 l2 :
  l1 ≡ₚ l2 → concat (map f l1) ≡ₚ concat (map f l2).
Proof.
  induction 1; simpl; [done|by f_equiv| |by etransitivity].
  rewrite !(assoc_L (++)). f_equiv. apply Permutation_app_comm.
Qed.

Lemma NoDup_concat_map {A B} (f : A → list B) l :
  NoDup l → (∀ x, x ∈ l → NoDup (f x)) →
  (∀ x y z, x ∈ l → y ∈ l → z ∈ f x → z ∈ f y → x = y) → NoDup (concat (map f l)).
Proof.
  induction 1 as [|x l Hni Hnd IH]; intros Hf Hd; simpl; [constructor|].
  setoid_rewrite elem_of_cons in Hf. setoid_rewrite elem_of_cons in Hd.
  apply NoDup_app. split_and!; [by apply Hf; left| |].
  - intros z Hz Hin. rewrite list_elem_of_In, in_concat in Hin.
    destruct Hin as (ys&Hys&Hz'). apply in_map_iff in Hys as (y&<-&Hy).
    apply list_elem_of_In in Hy, Hz'. assert (x = y) as -> by (eapply (Hd x y z); auto). done.
  - apply IH; [by intros; apply Hf; right|]. intros; eapply Hd; eauto.
Qed.

Lemma valid_seq_accepted u txs : valid_seq u txs → txs_accepted u txs.
Proof.
  revert u. induction txs as [|tx txs IH]; intros u; cbn; [done|].
  intros [(_&_&Ha)%is_valid_for_view_true Hv]. auto.
Qed.

Lemma pool_spends_NoDup p : pool_inv p → NoDup (concat (map spent_outpoints (pool_txs p))).
Proof.
  intros Hp. unfold pool_txs. rewrite map_map.
  assert (ordered p ≡ₚ map snd (hm_iter (entries p))) as Hperm by apply sort_by_key_perm.
  rewrite (concat_map_perm _ _ _ Hperm), map_map.
  assert (∀ t e, (t, e) ∈ hm_iter (entries p) →
    entries p !! t = Some e ∧ entry_ok t e ∧
    spent_outpoints (me_tx e) = map input_outpoint (tx_inputs (me_tx e))) as Hin.
  { intros t e He%elem_of_hm_iter. pose proof (pi_entries _ Hp _ _ He) as Hok.
    split_and!; [done|done|]. unfold spent_outpoints. by rewrite (eo_coinbase _ _ Hok). }
  apply NoDup_concat_map.
  - apply (NoDup_fmap_1 fst), hm_iter_NoDup.
  - intros [t e] Hte. destruct (Hin _ _ Hte) as (_&Hok&Heq). simpl. rewrite Heq. apply Hok.
  - intros [t1 e1] [t2 e2] o H1 H2. simpl.
    destruct (Hin _ _ H1) as (He1&_&->). destruct (Hin _ _ H2) as (He2&_&->). intros Ho1 Ho2.
    assert (t1 = t2) as -> by (by eapply (pool_inv_no_double_spend p)). congruence.
Qed.
End mempool_sync.
