(* ===== verification/MempoolTheorems.v ===== *)
(** * The transaction pool: the properties

    Reachable pools, the properties of admission, eviction and synchronization, the runs
    that witness them, and five behaviours that are not what the documentation or a caller
    would expect. *)

From stdpp Require Import prelude gmap strings list sorting relations.
From Stdlib Require Import Strings.Byte.
From S2P Require Import Prelude Bytes Crypto U256 Wire Transaction Merkle Block Utxo Script.
From S2P Require Import Sighash Journal Store Chain ChainTx Mempool MempoolInv MempoolEvict.
From S2P Require Import MempoolSync.

Local Open Scope Z_scope.

Section mempool_theorems.
Context {crypto : CryptoLib} {order : HashOrder}.
Implicit Types (p : Mempool) (u : UtxoSet) (tx : Transaction).

(** The pools that the public methods lead to, whatever their arguments and outcomes. *)
Inductive pool_reachable (l : MempoolLimits) : Mempool → Prop :=
| reach_new : pool_reachable l (new_mempool l)
| reach_accept tx u p r p' :
    pool_reachable l p → accept_tx tx u p = (r, p') → pool_reachable l p'
| reach_block b p r p' :
    pool_reachable l p → remove_for_block b p = (r, p') → pool_reachable l p'
| reach_synchronize u connected disconnected p r p' :
    pool_reachable l p → synchronize_to_chain u connected disconnected p = (r, p') →
    pool_reachable l p'
| reach_events events c p r p' :
    pool_reachable l p → apply_chain_events events c p = (r, p') → pool_reachable l p'
| reach_resync c since p r p' :
    pool_reachable l p → resync_to_active_chain c since p = (r, p') → pool_reachable l p'
| reach_serve t u p r p' :
    pool_reachable l p → serve_transaction t u p = (r, p') → pool_reachable l p'.

Lemma recovery_no_panic c since : recovery_disconnected_blocks c since ≠ Panic.
Proof.
  unfold recovery_disconnected_blocks, blocks_since. destruct (head _); [by case_if|done].
Qed.

Lemma reachable_inv l p :
  limits_ok l → pool_reachable l p → pool_inv p ∧ limits p = l.
Proof.
  intros Hl. induction 1 as [|tx u p r p' _ [Hp Hlim] H|b p r p' _ [Hp Hlim] H
    |u cs ds p r p' _ [Hp Hlim] H|evs c p r p' _ [Hp Hlim] H|c since p r p' _ [Hp Hlim] H
    |t u p r p' _ [Hp Hlim] H].
  - split; [by apply new_mempool_inv|done].
  - destruct (accept_tx_from _ _ _ _ _ Hp H) as (_&?&[? _]). split; [done|congruence].
  - destruct (remove_for_block_spec b p Hp) as (p1&H1&?&(_&?&_)&_). rewrite H1 in H.
    injection H as _ <-. split; [done|congruence].
  - destruct (synchronize_spec u cs ds p Hp) as (p1&H1&?&[? _]). rewrite H1 in H.
    injection H as _ <-. split; [done|congruence].
  - unfold apply_chain_events in H.
    match type of H with synchronize_to_chain ?a ?b ?d p = _ =>
      destruct (synchronize_spec a b d p Hp) as (p1&H1&?&[? _]) end.
    rewrite H1 in H. injection H as _ <-. split; [done|congruence].
  - pose proof (resync_spec c since p Hp) as Hr.
    destruct (recovery_disconnected_blocks c since) as [ds|e|] eqn:Hd.
    + destruct Hr as (p1&H1&?&[? _]). rewrite H1 in H. injection H as _ <-. split; [done|congruence].
    + rewrite Hr in H. injection H as _ <-. done.
    + unfold resync_to_active_chain in H. rewrite Hd in H. injection H as _ <-. done.
  - unfold serve_transaction in H. destruct (get_transaction p t) as [tx|]; [|by injection H as _ <-].
    destruct (is_valid_tx p tx u); injection H as _ <-; [done|].
    split; [by apply remove_entry_inv|]. by rewrite remove_entry_limits.
Qed.
End mempool_theorems.

(** ** Properties *)

Section properties.
Context {crypto : CryptoLib} {order : HashOrder}.

(** C9 (invariant): in every reachable pool the entries are well formed and keyed by their
    transaction identifier, an outpoint has an owner exactly when that entry spends it (so
    no two entries spend the same output), the byte count is the sum of the sizes, and both
    configured limits are respected. *)
Theorem pool_invariant (l : MempoolLimits) (p : Mempool) :
  limits_ok l → pool_reachable l p → pool_inv p ∧ limits p = l.
Proof. apply reachable_inv. Qed.

(** C16 (termination): every call on a reachable pool returns: the loops that evict, search
    descendants, propagate conflicts, revalidate and restore end within their fuel, and no
    index is out of range. *)
Theorem pool_calls_return (l : MempoolLimits) (p : Mempool) :
  limits_ok l → pool_reachable l p →
  (∀ tx u, (accept_tx tx u p).1 ≠ Panic) ∧
  (∀ b, (remove_for_block b p).1 = Ok ()) ∧
  (∀ u connected disconnected, (synchronize_to_chain u connected disconnected p).1 = Ok ()) ∧
  (∀ events c, (apply_chain_events events c p).1 = Ok ()) ∧
  (∀ c since, (resync_to_active_chain c since p).1 ≠ Panic).
Proof.
  intros Hl [Hp _]%reachable_inv; [|done]. split_and!.
  - intros tx u. destruct (accept_tx tx u p) as [r p'] eqn:H. by apply accept_tx_from in H as [? _].
  - intros b. by destruct (remove_for_block_spec b p Hp) as (p'&->&_).
  - intros u cs ds. by destruct (synchronize_spec u cs ds p Hp) as (p'&->&_).
  - intros evs c. unfold apply_chain_events.
    match goal with |- (synchronize_to_chain ?a ?b ?d p).1 = _ =>
      by destruct (synchronize_spec a b d p Hp) as (p'&->&_) end.
  - intros c since. pose proof (resync_spec c since p Hp) as H.
    pose proof (recovery_no_panic c since).
    destruct (recovery_disconnected_blocks c since); [|by rewrite H|done].
    by destruct H as (p'&->&_).
Qed.

(** C13 (functional): admission, case by case: a transaction is accepted only if it is valid
    (structure, inputs present, scripts, no value created) against the chain's outputs and
    those of the pool, is new, and spends nothing another entry spends; the reported fee is
    inputs minus outputs.  Every error other than [AtCapacity] leaves the pool as it was. *)
Theorem admission_exact (p : Mempool) (tx : Transaction) (u : UtxoSet)
    (r : Result MempoolError AcceptedTx) (p' : Mempool) :
  pool_inv p → accept_tx tx u p = (r, p') →
  match r with
  | Ok a =>
      is_valid_for_view tx (utxo_after u (pool_txs p)) = true ∧ entries p !! tx_id tx = None ∧
      (∀ o, o ∈ map input_outpoint (tx_inputs tx) → spends p !! o = None) ∧
      at_txid a = tx_id tx ∧ at_size a = serialized_size tx ∧
      (values_ok (utxo_after u (pool_txs p)) → Forall txout_wf (tx_outputs tx) →
       at_fee a = inputs_total (utxo_after u (pool_txs p)) tx - outputs_total tx ∧ 0 ≤ at_fee a) ∧
      me_tx <$> entries p' !! tx_id tx = Some tx
  | Err AtCapacity => entries p' ⊆ entries p
  | Err _ => p' = p
  | Panic => False
  end.
Proof.
  intros Hp H. pose proof (accept_tx_spec _ _ _ _ _ Hp H) as Hpost.
  destruct r as [a|e|]; [|destruct e; try done; destruct Hpost as (fee&_&Hr); apply Hr|done].
  destruct Hpost as [Hv Hn Hf Ht Hs Hfee (p1&_&->)].
  rewrite build_validation_view_spec in Hv, Hfee. split_and!; try done.
  - intros Hu Ho. eapply compute_fee_Ok; [|done..].
    by apply is_valid_for_view_true in Hv as (_&?&_).
  - cbn [insert_entry entries]. by rewrite lookup_insert_eq.
Qed.

(** C14 (safety): eviction, for every outcome of an admission.  A newcomer that is accepted or
    finds no room evicts nobody while there is room; each resident that goes is, or descends
    from, one of no higher fee rate than the newcomer (and admitted before it) and than every
    resident that stays, and the descendants of an evicted resident go with it.  An accepted
    newcomer is inserted in what is left; one that fails for lack of room pays, when it
    fails, no higher rate than any resident that is left, and there is still no room.  Every
    other error evicts nobody. *)
Theorem eviction_policy (p : Mempool) (tx : Transaction) (u : UtxoSet)
    (r : Result MempoolError AcceptedTx) (p' : Mempool) :
  pool_inv p → accept_tx tx u p = (r, p') →
  match r with
  | Ok a => ∃ p1, evicts (candidate_of p tx (at_fee a)) p p1 ∧
      p' = insert_entry p1 (tx_id tx) (candidate_of p tx (at_fee a))
  | Err AtCapacity => ∃ fee, compute_fee tx (build_validation_view p u) = Ok fee ∧
      evicts (candidate_of p tx fee) p p' ∧
      would_exceed_limits p' (serialized_size tx) = true ∧
      ∀ t e, entries p' !! t = Some e → me_fee_rate (candidate_of p tx fee) ≤ me_fee_rate e
  | _ => p' = p
  end.
Proof.
  intros Hp H. pose proof (accept_tx_spec _ _ _ _ _ Hp H) as Hpost.
  destruct r as [a|e|]; [| |done].
  - destruct Hpost as [_ _ _ _ _ _ (p1&Hr&->)]. exists p1. by apply room_made_evicts in Hr.
  - destruct e; try done. destruct Hpost as (fee&Hfee&Hr). exists fee. split; [done|].
    destruct (rm_outcome _ _ _ _ Hr) as [[[=] _]|(_&?&?)].
    split; [by eapply room_made_evicts|done].
Qed.

(** The depth-first search of [descendants_of] always ends and returns
    exactly the transactions that spend, directly or through others, an output of [root]. *)
Theorem descendants_are_closure (p : Mempool) (root : list byte) :
  ∃ d, descendants_of p root = Some d ∧ ∀ t, t ∈ d ↔ tc (spender_of p) root t.
Proof. apply descendants_of_spec. Qed.

(** C15 (functional): the removal for a connected block, in any iteration order, takes out of
    the pool exactly the transactions that the block confirms, those that spend an outpoint
    that it spends, and the descendants in the pool of both; the entries that stay are
    unchanged.  The comment of the source names confirmed and conflicting transactions only:
    the valid descendants of a confirmed transaction go too
    ([child_of_confirmed_parent_removed]). *)
Theorem remove_for_block_exact (p : Mempool) (b : Block) :
  pool_inv p →
  ∃ p', remove_for_block b p = (Ok (), p') ∧ pool_inv p' ∧ entries p' ⊆ entries p ∧
    ∀ t, is_Some (entries p !! t) →
      (entries p' !! t = None ↔
       ∃ root, (root ∈ block_txids b ∨ conflicting b p root) ∧ (t = root ∨ tc (spender_of p) root t)).
Proof.
  intros Hp. destruct (remove_for_block_spec b p Hp) as (p'&Hrun&Hp'&[Hsub _]&Hkept).
  exists p'. split_and!; [done..|]. intros t Ht. rewrite <- doomed_descends by done.
  by apply Hkept.
Qed.

(** Revalidation always ends with a pool in which every transaction, in
    admission order, is valid after its predecessors; it only removes, and it removes
    nothing from a pool that is valid already. *)
Theorem revalidation_leaves_valid_pool (p : Mempool) (u : UtxoSet) :
  pool_inv p →
  ∃ p', revalidate_pool u p = (Ok (), p') ∧ pool_inv p' ∧ entries p' ⊆ entries p ∧
        pool_valid u p' ∧ (pool_valid u p → p' = p).
Proof.
  intros Hp. destruct (revalidate_pool_spec u p Hp) as (p'&?&?&[? _]&?&?). by exists p'.
Qed.

(** An admission that fits without eviction appends the transaction to the
    admission order and keeps the whole pool valid for the chain. *)
Theorem admission_keeps_pool_valid (p : Mempool) (tx : Transaction) (u : UtxoSet)
    (a : AcceptedTx) (p' : Mempool) :
  pool_inv p → seq_ok p → next_seq p + 1 < 2 ^ 64 → pool_valid u p →
  would_exceed_limits p (serialized_size tx) = false →
  accept_tx tx u p = (Ok a, p') → pool_txs p' = pool_txs p ++ [tx] ∧ pool_valid u p'.
Proof. intros Hp Hs Hn Hv Hroom H. by apply (accept_keeps_valid tx u p a). Qed.

(** C12 (refinement): the pool implements a block template: the transactions of a valid pool,
    in admission order, pass the chain's own check of a block's transactions. *)
Theorem valid_pool_is_block_body (p : Mempool) (u : UtxoSet) (h : BlockHeader) :
  pool_inv p → pool_valid u p →
  validate_block_transactions_for_utxo {| header := h; transactions := pool_txs p |} u = Ok ().
Proof.
  intros Hp Hv. apply validate_block_transactions_Ok. cbn [transactions].
  split; [by apply valid_seq_accepted|by apply pool_spends_NoDup].
Qed.

(** Synchronization with the chain introduces no transaction of its own: what
    it leaves was in the pool or in a disconnected block (and is no coinbase). *)
Theorem synchronization_provenance (p : Mempool) (u : UtxoSet)
    (connected disconnected : list Block) :
  pool_inv p →
  ∃ p', synchronize_to_chain u connected disconnected p = (Ok (), p') ∧ pool_inv p' ∧
    ∀ t e, entries p' !! t = Some e → entries p !! t = Some e ∨
      is_coinbase (me_tx e) = false ∧
      ∃ b, b ∈ disconnected ∧ me_tx e ∈ drop 1 (transactions b).
Proof.
  intros Hp. destruct (synchronize_spec u connected disconnected p Hp) as (p'&H&Hp'&[_ Hf]).
  exists p'. split_and!; [done|done|]. intros t e He.
  destruct (Hf t e He) as [?|Hr]; [by left|right].
  unfold restorable in Hr. rewrite list_elem_of_In, in_concat in Hr.
  destruct Hr as (l&(b&<-&Hb%list_elem_of_In)%in_map_iff&Hin%list_elem_of_In).
  apply list_elem_of_filter in Hin as [??]. eauto.
Qed.
End properties.
