(* ===== verification/MempoolExamples.v ===== *)
(** * The transaction pool on concrete transactions

    Witnesses of the pool's properties, and five runs whose outcome is not what the
    documentation or a caller would expect. *)

From stdpp Require Import prelude gmap strings list sorting relations.
From Stdlib Require Import Strings.Byte.
From S2P Require Import Prelude Bytes Crypto U256 Wire Transaction Merkle Block Utxo Script.
From S2P Require Import Sighash Journal Store Chain ChainTx Mempool MempoolInv MempoolEvict.
From S2P Require Import MempoolSync MempoolTheorems.

Local Open Scope Z_scope.

#[local] Existing Instance toy_crypto.
#[local] Existing Instance canonical_order.

(** ** Transactions *)

Definition mx_spend (inputs : list (list byte * Z)) (value : Z) : Transaction := {|
  tx_version := 1;
  tx_inputs := map (λ '(t, i), {| previous_output := t; txin_index := i; script_sig := [];
                                  txin_sequence := U32_MAX |}) inputs;
  tx_outputs := [{| txout_value := value; script_pubkey := [] |}];
  tx_lock_time := 0 |}.
Definition mx_id : list byte := le_bytes 32 7.
(** Four confirmed outputs that anyone can spend. *)
Definition mx_utxo : UtxoSet := list_to_map (map (λ i,
  ({| op_txid := mx_id; op_index := i |}, {| ue_value := 3000; ue_script_pubkey := [] |}))
  [0; 1; 2; 3]).
Definition mx_limits (count bytes : Z) : MempoolLimits :=
  {| max_tx_count := count; max_bytes := bytes |}.

(** Each is 60 bytes; the fee rates are 1, 10, 1 and 20. *)
Definition mx_parent : Transaction := mx_spend [(mx_id, 0)] 2940.
Definition mx_child : Transaction := mx_spend [(tx_id mx_parent, 0)] 2340.
Definition mx_rival : Transaction := mx_spend [(mx_id, 1)] 2940.
Definition mx_rich : Transaction := mx_spend [(mx_id, 2)] 1800.
(** 101 bytes at a fee rate of 10. *)
Definition mx_wide : Transaction := mx_spend [(mx_id, 1); (mx_id, 3)] 4990.

Definition mx_accept (txs : list Transaction) (p : Mempool) : Mempool :=
  foldl (λ p tx, (accept_tx tx mx_utxo p).2) p txs.
Definition mx_pool (count bytes : Z) (txs : list Transaction) : Mempool :=
  mx_accept txs (new_mempool (mx_limits count bytes)).
Definition mx_ids (p : Mempool) : gset (list byte) := dom (entries p).

Lemma mx_limits_ok : limits_ok (mx_limits 10 1000).
Proof. split; by split. Qed.

Lemma mx_reachable l txs : pool_reachable l (mx_accept txs (new_mempool l)).
Proof.
  assert (∀ p, pool_reachable l p → pool_reachable l (mx_accept txs p)) as H; [|apply H, reach_new].
  induction txs as [|tx txs IH]; intros p Hp; [done|]. apply IH.
  eapply (reach_accept l tx mx_utxo p); [done|apply surjective_pairing].
Qed.

Definition mx_family : Mempool := mx_pool 10 1000 [mx_parent; mx_child].
Lemma mx_family_reachable : pool_reachable (mx_limits 10 1000) mx_family.
Proof. apply mx_reachable. Qed.
Lemma mx_family_inv : pool_inv mx_family.
Proof. by apply (reachable_inv (mx_limits 10 1000)); [apply mx_limits_ok|apply mx_family_reachable]. Qed.

(** ** Witnesses *)

Lemma pool_invariant_witness : pool_inv mx_family ∧ limits mx_family = mx_limits 10 1000.
Proof. apply pool_invariant; [exact mx_limits_ok|exact mx_family_reachable]. Defined.

Lemma pool_calls_return_witness : (accept_tx mx_rich mx_utxo mx_family).1 ≠ Panic.
Proof.
  destruct (pool_calls_return (mx_limits 10 1000) mx_family) as [H _];
    [exact mx_limits_ok|exact mx_family_reachable|]. apply H.
Defined.

Definition mx_rich_outcome := accept_tx mx_rich mx_utxo mx_family.
Definition mx_accepted : AcceptedTx :=
  {| at_txid := tx_id mx_rich; at_fee := 1200; at_size := 60 |}.
Lemma mx_rich_accepted : accept_tx mx_rich mx_utxo mx_family = (Ok mx_accepted, mx_rich_outcome.2).
Proof.
  rewrite (surjective_pairing (accept_tx mx_rich mx_utxo mx_family)).
  apply pair_equal_spec. split; [vm_compute; reflexivity|reflexivity].
Qed.

Lemma admission_exact_witness : entries mx_family !! tx_id mx_rich = None.
Proof. apply (admission_exact mx_family mx_rich mx_utxo _ _ mx_family_inv mx_rich_accepted). Defined.

(** A pool for one transaction: the richer newcomer takes the place of the resident. *)
Definition mx_full : Mempool := mx_pool 1 1000 [mx_parent].
Lemma mx_full_inv : pool_inv mx_full.
Proof. apply (reachable_inv (mx_limits 1 1000)); [split; by split|apply mx_reachable]. Qed.
Lemma mx_rich_replaces :
  accept_tx mx_rich mx_utxo mx_full = (Ok mx_accepted, (accept_tx mx_rich mx_utxo mx_full).2).
Proof.
  rewrite (surjective_pairing (accept_tx mx_rich mx_utxo mx_full)).
  apply pair_equal_spec. split; [vm_compute; reflexivity|reflexivity].
Qed.
Lemma mx_parent_evicted :
  is_Some (entries mx_full !! tx_id mx_parent) ∧
  entries (accept_tx mx_rich mx_utxo mx_full).2 !! tx_id mx_parent = None.
Proof. split; [apply (bool_decide_unpack _); vm_compute; exact I|vm_compute; reflexivity]. Qed.

Lemma eviction_policy_witness : ∃ p1,
  entries p1 !! tx_id mx_parent = None ∧
  evicted_for (candidate_of mx_full mx_rich 1200) mx_full p1 (tx_id mx_parent).
Proof.
  destruct (eviction_policy mx_full mx_rich mx_utxo _ _ mx_full_inv mx_rich_replaces)
    as (p1&Hev&Hp'). destruct mx_parent_evicted as [Hin Hout]. rewrite Hp' in Hout.
  cbn [insert_entry entries] in Hout. apply lookup_insert_None in Hout as [Hout _]. exists p1. split; [exact Hout|].
  apply Hev; [exact Hin|exact Hout].
Defined.

Definition mx_block (txs : list Transaction) : Block := {|
  header := {| hdr_version := 1; prev_blockhash := zero32; hdr_merkle_root := zero32;
               hdr_time := 0; hdr_bits := 0; hdr_nonce := 0 |};
  transactions := coinbase_transaction 1 50 :: txs |}.

(** The confirmed parent goes. *)
Lemma remove_for_block_exact_witness : ∃ p',
  remove_for_block (mx_block [mx_parent]) mx_family = (Ok (), p') ∧
  entries p' !! tx_id mx_parent = None.
Proof.
  destruct (remove_for_block_exact mx_family (mx_block [mx_parent]) mx_family_inv)
    as (p'&H1&_&_&Hgone).
  exists p'. split; [exact H1|]. apply Hgone.
  - apply (bool_decide_unpack _). vm_compute. exact I.
  - exists (tx_id mx_parent). split; [left|left; reflexivity].
    apply (bool_decide_unpack _). vm_compute. exact I.
Defined.

Lemma revalidation_leaves_valid_pool_witness : ∃ p',
  revalidate_pool mx_utxo mx_family = (Ok (), p') ∧ pool_valid mx_utxo p'.
Proof.
  destruct (revalidation_leaves_valid_pool mx_family mx_utxo mx_family_inv) as (p'&H1&_&_&H2&_).
  exists p'. split; [exact H1|exact H2].
Defined.

Lemma mx_family_valid : pool_valid mx_utxo mx_family.
Proof. apply pool_valid_check. vm_compute. reflexivity. Qed.
Lemma mx_family_seq : seq_ok mx_family.
Proof.
  split.
  - apply (bool_decide_unpack _). vm_compute. exact I.
  - assert (map_Forall (λ t e, (t = tx_id mx_parent ∧ me_seq e = 0) ∨
                               (t = tx_id mx_child ∧ me_seq e = 1)) (entries mx_family)) as H
      by (apply (bool_decide_unpack _); vm_compute; exact I).
    intros t1 t2 e1 e2 [[-> Hs1]|[-> Hs1]]%H [[-> Hs2]|[-> Hs2]]%H Heq; congruence.
  - split; vm_compute; [intros [=]|reflexivity].
Qed.

Lemma admission_keeps_pool_valid_witness : pool_valid mx_utxo mx_rich_outcome.2.
Proof.
  refine (proj2 (admission_keeps_pool_valid mx_family mx_rich mx_utxo mx_accepted
    mx_rich_outcome.2 mx_family_inv mx_family_seq _ mx_family_valid _ mx_rich_accepted));
    vm_compute; reflexivity.
Defined.

Lemma valid_pool_is_block_body_witness :
  validate_block_transactions_for_utxo
    {| header := header (mx_block []); transactions := pool_txs mx_family |} mx_utxo = Ok ().
Proof. apply valid_pool_is_block_body; [exact mx_family_inv|exact mx_family_valid]. Defined.

Lemma synchronization_provenance_witness : ∃ p',
  synchronize_to_chain mx_utxo [mx_block [mx_rich]] [mx_block [mx_rival]] mx_family = (Ok (), p').
Proof.
  destruct (synchronization_provenance mx_family mx_utxo [mx_block [mx_rich]]
    [mx_block [mx_rival]] mx_family_inv) as (p'&H&_). exists p'. exact H.
Defined.

(** ** Surprising outcomes *)

(** The child is validated against a view that holds its parent's output; making room for
    it evicts that parent; the pool ends with a transaction whose input exists nowhere. *)
Example admission_evicts_own_parent :
  mx_ids (mx_pool 1 1000 [mx_parent; mx_child]) = {[tx_id mx_child]} ∧
  find_invalid_txids (mx_pool 1 1000 [mx_parent; mx_child]) mx_utxo = [tx_id mx_child].
Proof. split; [apply (bool_decide_unpack _); vm_compute; exact I|vm_compute; reflexivity]. Qed.

(** The module documentation says that a newcomer with the fee rate of the lowest resident
    is rejected with [AtCapacity]; it replaces it, since its sequence number is larger. *)
Example equal_fee_rate_replaces :
  (accept_tx mx_rival mx_utxo (mx_pool 1 1000 [mx_parent])).1 =
    Ok {| at_txid := tx_id mx_rival; at_fee := 60; at_size := 60 |} ∧
  mx_ids (mx_pool 1 1000 [mx_parent; mx_rival]) = {[tx_id mx_rival]}.
Proof. split; [vm_compute; reflexivity|apply (bool_decide_unpack _); vm_compute; exact I]. Qed.

(** A newcomer that is finally rejected has already cost a resident its place. *)
Example rejected_newcomer_evicts :
  (accept_tx mx_wide mx_utxo (mx_pool 10 130 [mx_parent; mx_rich])).1 = Err AtCapacity ∧
  mx_ids (mx_pool 10 130 [mx_parent; mx_rich]) = {[tx_id mx_parent; tx_id mx_rich]} ∧
  mx_ids (mx_pool 10 130 [mx_parent; mx_rich; mx_wide]) = {[tx_id mx_rich]}.
Proof.
  split_and!; [vm_compute; reflexivity|apply (bool_decide_unpack _); vm_compute; exact I..].
Qed.

(** When a parent is confirmed, its child, which spends an output the chain now has, is
    removed with it. *)
Example child_of_confirmed_parent_removed :
  mx_ids (remove_for_block (mx_block [mx_parent]) mx_family).2 = ∅ ∧
  is_valid_for_view mx_child
    (apply_transactions mx_utxo (transactions (mx_block [mx_parent]))).2 = true.
Proof. split; [apply (bool_decide_unpack _)|]; vm_compute; done. Qed.

(** A stale transaction is dropped when it is asked for; what spends its outputs stays. *)
Example stale_transaction_leaves_child :
  (serve_transaction (tx_id mx_parent) ∅ mx_family).1 = None ∧
  mx_ids (serve_transaction (tx_id mx_parent) ∅ mx_family).2 = {[tx_id mx_child]}.
Proof. split; [vm_compute; reflexivity|apply (bool_decide_unpack _); vm_compute; exact I]. Qed.
