(* ===== verification/Message.v ===== *)
(** * Peer messages and their payload codecs (bitrst-net: constants.rs, error.rs, message.rs,
      codec/)

    The [version] payload, inventory lists and the dispatch by command name, each with an
    exact specification of what decodes. *)

From stdpp Require Import prelude strings list.
From Stdlib Require Import Strings.Byte.
From S2P Require Import Prelude Bytes Crypto U256 Wire Transaction Block Chain.

Local Open Scope string_scope.
Local Open Scope Z_scope.
Local Open Scope list_scope.

(** ** Constants *)

Definition MESSAGE_HEADER_SIZE : Z := 24.
Definition COMMAND_LENGTH : Z := 12.
Definition PROTOCOL_VERSION : Z := 70016.
Definition MAX_PAYLOAD_SIZE : Z := MAX_BLOCK_SERIALIZED_SIZE.
Definition MAX_INV_COUNT : Z := 50000.
Definition MAX_USER_AGENT_LEN : Z := 256.
Definition LEGACY_ADDRESS_SIZE : Z := 26.

Inductive Network := Mainnet | Testnet.
Definition magic (network : Network) : list byte :=
  match network with
  | Mainnet => [xf9; xbe; xb4; xd9]
  | Testnet => [x0b; x11; x09; x07]
  end.

(** ** Errors *)

Inductive NetError :=
| ConnectionClosed
| Io (context : string)
| InvalidMagic
| InvalidCommand
| PayloadTooLarge (length limit : Z)
| ChecksumMismatch (command : list byte)
| NetDecode (e : DecodeError)
| HandshakeViolation (reason : string)
| HandshakeTimeout (seconds : Z)
| SelfConnection
| ConnectionLimitReached
| OutboundQueueFull
| EventQueueFull
| RegistrationQueueFull
| UnsupportedCommand (command : list byte)
| UnknownInventoryType (inv_type : Z)
| NetChain (e : ChainError)
| SeedsExhausted (attempted : Z) (details : list byte)
| TaskJoinFailed.

(** ** Messages *)

Inductive InvType := InvTransaction | InvBlock | InvFilteredBlock.
#[global] Instance InvType_eq_dec : EqDecision InvType.
Proof. solve_decision. Defined.

Definition from_u32 (value : Z) : option InvType :=
  if value =? 1 then Some InvTransaction
  else if value =? 2 then Some InvBlock
  else if value =? 3 then Some InvFilteredBlock
  else None.
Definition to_u32 (t : InvType) : Z :=
  match t with InvTransaction => 1 | InvBlock => 2 | InvFilteredBlock => 3 end.

Record InventoryVector := { inv_type : InvType; inv_hash : list byte }.
#[global] Instance InventoryVector_eq_dec : EqDecision InventoryVector.
Proof. solve_decision. Defined.

Record VersionMessage := {
  vm_version : Z;
  services : Z;
  timestamp : Z;
  vm_nonce : Z;
  user_agent : list byte;
  start_height : Z;
  relay : bool
}.
#[global] Instance VersionMessage_eq_dec : EqDecision VersionMessage.
Proof. solve_decision. Defined.

Inductive MessagePayload :=
| PVerack
| PVersion (version : VersionMessage)
| PInv (items : list InventoryVector)
| PGetData (items : list InventoryVector)
| PBlock (block : Block)
| PTx (transaction : Transaction).
#[global] Instance MessagePayload_eq_dec : EqDecision MessagePayload.
Proof. solve_decision. Defined.

Record Message := { command : list byte; payload : MessagePayload }.
#[global] Instance Message_eq_dec : EqDecision Message.
Proof. solve_decision. Defined.

Definition msg_verack : Message := {| command := str "verack"; payload := PVerack |}.
Definition msg_version (version : VersionMessage) : Message :=
  {| command := str "version"; payload := PVersion version |}.
Definition msg_inv (items : list InventoryVector) : Message :=
  {| command := str "inv"; payload := PInv items |}.
Definition msg_getdata (items : list InventoryVector) : Message :=
  {| command := str "getdata"; payload := PGetData items |}.
Definition msg_block (block : Block) : Message :=
  {| command := str "block"; payload := PBlock block |}.
Definition msg_tx (transaction : Transaction) : Message :=
  {| command := str "tx"; payload := PTx transaction |}.

(** ** Codecs *)

(** [.map_err(NetError::Decode)?] on a call of the wire reader. *)
Definition net {A} (m : Decoder A) : SM WireReader NetError A := λ r,
  let '(outcome, r) := m r in (map_err NetDecode outcome, r).

(** wire_helpers.rs has a copy of the writer of compact sizes. *)
Definition net_write_compact_size (value : Z) : list byte :=
  if value <=? 0xfc then [zb value]
  else if value <=? 0xffff then xfd :: le_bytes 2 value
  else if value <=? 0xffffffff then xfe :: le_bytes 4 value
  else xff :: le_bytes 8 value.

Definition read_inventory : SM WireReader NetError InventoryVector :=
  let! raw := net (read_u32 "inv entry type") in
  let! inv_type := slift (ok_or (from_u32 raw) (UnknownInventoryType raw)) in
  let! hash := net (read_bytes 32 "inv entry hash") in
  sret {| inv_type := inv_type; inv_hash := hash |}.
Definition decode_inventory_list (bytes : list byte) (context : string)
    : Result NetError (list InventoryVector) :=
  ((let! count := net (read_limited_len context MAX_INV_COUNT) in
   let! items := read_many (Z.to_nat count) read_inventory in
   do! net (finish context) ;;
   sret items) (new_reader bytes)).1.

Definition serialize_inventory (item : InventoryVector) : list byte :=
  le_bytes 4 (to_u32 (inv_type item)) ++ inv_hash item.
Definition encode_inventory_list (items : list InventoryVector) : Result NetError (list byte) :=
  if MAX_INV_COUNT <? zlen items
  then Err (PayloadTooLarge (zlen items mod 2 ^ 32) MAX_INV_COUNT)
  else Ok (net_write_compact_size (zlen items) ++ concat (map serialize_inventory items)).

Definition decode_inv (payload : list byte) := decode_inventory_list payload "inv count".
Definition encode_inv (items : list InventoryVector) := encode_inventory_list items.
Definition decode_getdata (payload : list byte) := decode_inventory_list payload "getdata count".
Definition encode_getdata (items : list InventoryVector) := encode_inventory_list items.

Definition read_limited_string (context : string) (max_len : Z) : Decoder (list byte) :=
  let! length := read_limited_len context max_len in
  let! bytes := read_bytes length context in
  if utf8_valid bytes then sret bytes else sthrow (Truncated context 0 0).

(** The optional last byte of a [version] payload. *)
Definition read_relay : SM WireReader NetError bool :=
  let! r := sget in
  if remaining r =? 0 then sret true
  else if remaining r =? 1 then
    let! bytes := net (read_bytes 1 "relay") in
    sret (negb (bool_decide (bytes = [x00])))
  else sthrow (NetDecode (TrailingBytes "version" (remaining r))).

Definition decode_version (payload : list byte) : Result NetError VersionMessage :=
  ((let! version := net (read_i32 "version") in
   let! services := net (read_u64 "services") in
   let! timestamp := net (read_bytes 8 "timestamp") in
   do! net (read_bytes LEGACY_ADDRESS_SIZE "addr_recv") ;;
   do! net (read_bytes LEGACY_ADDRESS_SIZE "addr_from") ;;
   let! nonce := net (read_u64 "nonce") in
   let! user_agent := net (read_limited_string "user agent" MAX_USER_AGENT_LEN) in
   let! start_height := net (read_i32 "start height") in
   let! relay := read_relay in
   do! net (finish "version") ;;
   sret {| vm_version := version; services := services;
           timestamp := signed 64 (le_val timestamp); vm_nonce := nonce;
           user_agent := user_agent; start_height := start_height; relay := relay |})
  (new_reader payload)).1.

Definition encode_version (message : VersionMessage) : Result NetError (list byte) :=
  if MAX_USER_AGENT_LEN <? zlen (user_agent message)
  then Err (PayloadTooLarge (zlen (user_agent message) mod 2 ^ 32) MAX_USER_AGENT_LEN)
  else
    Ok (le_bytes 4 (vm_version message) ++ le_bytes 8 (services message) ++
        le_bytes 8 (timestamp message) ++ replicate (Z.to_nat LEGACY_ADDRESS_SIZE) x00 ++
        replicate (Z.to_nat LEGACY_ADDRESS_SIZE) x00 ++ le_bytes 8 (vm_nonce message) ++
        net_write_compact_size (zlen (user_agent message)) ++ user_agent message ++
        le_bytes 4 (start_height message) ++
        (if 60002 <=? vm_version message then [if relay message then x01 else x00] else [])).

Definition default_version_message (nonce timestamp start_height : Z) : VersionMessage :=
  {| vm_version := PROTOCOL_VERSION; services := 0; timestamp := timestamp; vm_nonce := nonce;
     user_agent := str "/bitrst:0.1.0/"; start_height := start_height; relay := false |}.

Definition encode_payload (message : Message) : Result NetError (list byte * list byte) :=
  match payload message with
  | PVerack => Ok (command message, [])
  | PVersion version => let? bytes := encode_version version in Ok (command message, bytes)
  | PInv items => let? bytes := encode_inv items in Ok (command message, bytes)
  | PGetData items => let? bytes := encode_getdata items in Ok (command message, bytes)
  | PBlock block => Ok (command message, serialize_block block)
  | PTx transaction => Ok (command message, serialize_tx transaction)
  end.

Definition decode_payload (command bytes : list byte) : Result NetError Message :=
  let? decoded :=
    if bool_decide (command = str "verack") && bool_decide (bytes = []) then Ok PVerack
    else if bool_decide (command = str "version") then
      let? version := decode_version bytes in Ok (PVersion version)
    else if bool_decide (command = str "inv") then
      let? items := decode_inv bytes in Ok (PInv items)
    else if bool_decide (command = str "getdata") then
      let? items := decode_getdata bytes in Ok (PGetData items)
    else if bool_decide (command = str "block") then
      let? block := map_err NetDecode (deserialize_block bytes) in Ok (PBlock block)
    else if bool_decide (command = str "tx") then
      let? transaction := map_err NetDecode (deserialize_tx bytes) in Ok (PTx transaction)
    else Err (UnsupportedCommand command) in
  Ok {| command := command; payload := decoded |}.

(** ** Specifications *)

Definition inventory_wf (item : InventoryVector) : Prop := length (inv_hash item) = 32%nat.
Definition version_wf (v : VersionMessage) : Prop :=
  in_i 32 (vm_version v) ∧ in_u 64 (services v) ∧ in_i 64 (timestamp v) ∧
  in_u 64 (vm_nonce v) ∧ utf8_valid (user_agent v) = true ∧ in_i 32 (start_height v).

(** The payload of a [version] message with given addresses and relay field. *)
Definition version_layout (v : VersionMessage) (addr_recv addr_from relay_field : list byte)
    : list byte :=
  le_bytes 4 (vm_version v) ++ le_bytes 8 (services v) ++ le_bytes 8 (timestamp v) ++
  addr_recv ++ addr_from ++ le_bytes 8 (vm_nonce v) ++ counted_bytes (user_agent v) ++
  le_bytes 4 (start_height v) ++ relay_field.
Definition relay_field_means (relay_field : list byte) (relay : bool) : Prop :=
  relay_field = [] ∧ relay = true ∨
  ∃ b, relay_field = [b] ∧ relay = negb (bool_decide (b = x00)).

(** ** Lemmas *)

Lemma net_write_compact_size_eq v : net_write_compact_size v = write_compact_size v.
Proof. done. Qed.

Lemma net_run {A} (m : Decoder A) r :
  net m r = (map_err NetDecode (m r).1, (m r).2).
Proof. unfold net. by destruct (m r). Qed.

Lemma reads_net {A} (m : Decoder A) R : reads m R → reads (net m) R.
Proof.
  intros Hm r a r'. rewrite net_run, <- (Hm r a r').
  destruct (m r) as [[] ?]; simpl; split; intros [=]; by subst.
Qed.

Lemma reads_slift {A} (m : Result NetError A) :
  reads (slift m) (λ a bs, m = Ok a ∧ bs = []).
Proof.
  destruct m as [a|e|].
  - eapply reads_equiv; [apply reads_sret|]. naive_solver.
  - eapply reads_equiv; [apply reads_sthrow|]. naive_solver.
  - intros r a r'. split; [done|]. by intros (?&[??]&_).
Qed.

Lemma parses_finish {A} context (a : A) :
  parses (do! net (finish context) ;; sret a) (λ x bs, x = a ∧ bs = []).
Proof.
  intros r x r'. unfold sbind. rewrite net_run. unfold finish, sbind, sget, sret, sthrow.
  pose proof (remaining_0 r) as H0.
  assert (r = advance 0 r) as Hadv.
  { destruct r as [bs p]. unfold advance. simpl. by rewrite Nat.add_0_r. }
  destruct (Z.eqb_spec (remaining r) 0) as [Hr|Hr]; simpl.
  - apply H0 in Hr. rewrite Hr. simpl. rewrite <- Hadv. split.
    + intros [= <- <-]. done.
    + by intros [[-> _] ->].
  - split; [done|]. intros [[_ Hu] _]. by apply H0 in Hu.
Qed.

Lemma read_inventory_reads :
  reads read_inventory (λ i bs, inventory_wf i ∧ bs = serialize_inventory i).
Proof.
  eapply reads_equiv.
  { apply reads_sbind; [apply reads_net, read_u32_reads|]. intros raw.
    apply reads_sbind; [apply reads_slift|]. intros t.
    apply reads_sbind; [apply reads_net, read_bytes_reads; done|]. intros h. apply reads_sret. }
  intros i bs. simpl. unfold inventory_wf, serialize_inventory. split.
  - intros (raw&?&?&[Hraw ->]&(t&?&?&[Ht ->]&(h&?&?&[<- Hh]&[-> ->]&->)&->)&->).
    rewrite (right_id_L [] (++)). simpl. split; [unfold zlen in Hh; lia|].
    assert (raw = to_u32 t) as ->; [|done]. apply ok_or_Ok in Ht. unfold from_u32 in Ht.
    repeat case_match; simplify_eq; simpl; lia.
  - intros [Hh ->]. destruct i as [t h]. simpl in *.
    exists (to_u32 t), (le_bytes 4 (to_u32 t)), h. split_and!; try done.
    { destruct t; by unfold in_u. }
    exists t, [], h. split_and!; [by destruct t|done| |done].
    exists h, h, []. unfold zlen. rewrite Hh, (right_id_L [] (++)). by split_and!.
Qed.

Lemma decode_inventory_list_Ok context bs items :
  decode_inventory_list bs context = Ok items ↔
  bs = counted serialize_inventory items ∧ Forall inventory_wf items ∧
  zlen items ≤ MAX_INV_COUNT.
Proof.
  unfold decode_inventory_list. rewrite parses_run.
  2: { apply parses_sbind; [by apply reads_net, read_limited_len_reads|]. intros n.
       apply parses_sbind; [apply read_many_reads, read_inventory_reads|]. intros l.
       apply parses_finish. }
  simpl. unfold counted. split.
  - intros (n&?&?&[Hn ->]&(l&?&?&(Hl&Hw&->)&[-> ->]&->)&->).
    rewrite (right_id_L [] (++)). assert (zlen l = n) as -> by (unfold zlen; lia).
    split_and!; [done|done|lia].
  - intros (->&Hw&Hn). eexists (zlen items), _, _. pose proof (zlen_nonneg items).
    split_and!; [lia|lia|done| |done].
    eexists items, _, []. rewrite (right_id_L [] (++)). split_and!; try done. unfold zlen. lia.
Qed.

Lemma encode_inventory_list_Ok items :
  zlen items ≤ MAX_INV_COUNT →
  encode_inventory_list items = Ok (counted serialize_inventory items).
Proof. intros Hn. unfold encode_inventory_list. by destruct (Z.ltb_spec MAX_INV_COUNT (zlen items)); [lia|]. Qed.

Lemma read_limited_string_reads context limit :
  limit < 2 ^ 64 →
  reads (read_limited_string context limit)
    (λ s bs, zlen s ≤ limit ∧ utf8_valid s = true ∧ bs = counted_bytes s).
Proof.
  intros Hlimit. eapply reads_equiv.
  { apply read_counted_bytes_reads; [done|]. intros l.
    apply reads_if; [apply reads_sret|apply reads_sthrow]. }
  intros s bs. simpl. split.
  - intros (l&bs'&Hl&Hr&->). destruct (utf8_valid l) eqn:Hu; [|done].
    destruct Hr as [-> ->]. by rewrite (right_id_L [] (++)).
  - intros (Hs&Hu&->). exists s, []. rewrite Hu, (right_id_L [] (++)). by split_and!.
Qed.

Lemma read_i64_bytes bs : length bs = 8%nat → le_bytes 8 (signed 64 (le_val bs)) = bs.
Proof.
  intros Hl. pose proof (le_val_bound bs) as Hb. unfold zlen in Hb. rewrite Hl in Hb.
  destruct (signed_range 64 (le_val bs)) as [_ Hm]; [lia|by unfold in_u|].
  rewrite <- (le_bytes_mod 8). change (256 ^ Z.of_nat 8) with (2 ^ 64).
  by rewrite Hm, <- Hl, le_bytes_le_val.
Qed.

Lemma parses_relay {A} (f : bool → A) :
  parses (let! relay := read_relay in do! net (finish "version") ;; sret (f relay))
    (λ x bs, ∃ relay, x = f relay ∧ relay_field_means bs relay).
Proof.
  intros r x r'. unfold read_relay.
  destruct (unread r) as [|b [|b' rest]] eqn:Hu.
  - assert (remaining r = 0) as Hr by (by apply remaining_0).
    unfold sbind at 1 2, sget. rewrite Hr. simpl. rewrite (parses_finish _ _ r x r'), Hu.
    unfold relay_field_means. split.
    + intros [[-> _] ->]. split; [|done]. exists true. split; [done|by left].
    + by intros [(rl&->&[[_ ->]|(?&?&_)]) ->].
  - assert (remaining r = 1) as Hr by (by rewrite remaining_unread, Hu).
    unfold sbind at 1 2, sget. rewrite Hr. simpl. unfold sbind at 1. rewrite net_run.
    assert (read_bytes 1 "relay" r = (Ok [b], advance 1 r)) as ->.
    { apply read_bytes_reads; [done|]. exists [b]. rewrite Hu. by split_and!. }
    simpl. rewrite (parses_finish _ _ (advance 1 r) x r'), unread_advance, Hu. simpl.
    rewrite advance_advance. unfold relay_field_means.
    assert (bool_decide ([b] = [x00]) = bool_decide (b = x00)) as ->
      by (apply bool_decide_ext; naive_solver).
    split.
    + intros [[-> _] ->]. split; [|done]. eexists. split; [done|]. right. by exists b.
    + by intros [(rl&->&[[??]|(?&[= <-]&->)]) ->].
  - assert (remaining r = 2 + zlen rest) as Hr.
    { rewrite remaining_unread, Hu, !zlen_cons. lia. }
    pose proof (zlen_nonneg rest). unfold sbind at 1 2, sget. rewrite Hr.
    destruct (Z.eqb_spec (2 + zlen rest) 0), (Z.eqb_spec (2 + zlen rest) 1); try lia.
    split; [done|]. intros [(rl&_&[[??]|(?&?&_)]) _]; done.
Qed.

Lemma decode_version_Ok bs v :
  decode_version bs = Ok v ↔
  version_wf v ∧ zlen (user_agent v) ≤ MAX_USER_AGENT_LEN ∧
  ∃ addr_recv addr_from relay_field,
    length addr_recv = 26%nat ∧ length addr_from = 26%nat ∧
    bs = version_layout v addr_recv addr_from relay_field ∧
    relay_field_means relay_field (relay v).
Proof.
  unfold decode_version. rewrite parses_run.
  2: { apply parses_sbind; [apply reads_net, read_i32_reads|]. intros version.
       apply parses_sbind; [apply reads_net, read_u64_reads|]. intros svc.
       apply parses_sbind; [apply reads_net, read_bytes_reads; done|]. intros ts.
       apply parses_sbind; [apply reads_net, read_bytes_reads; done|]. intros recv.
       apply parses_sbind; [apply reads_net, read_bytes_reads; done|]. intros from.
       apply parses_sbind; [apply reads_net, read_u64_reads|]. intros nonce.
       apply parses_sbind; [by apply reads_net, read_limited_string_reads|]. intros ua.
       apply parses_sbind; [apply reads_net, read_i32_reads|]. intros sh.
       apply parses_relay. }
  unfold version_wf, version_layout, zlen at 1 2 3. split.
  - intros (version&?&?&[Hv ->]&(svc&?&?&[Hs ->]&(ts&?&?&[<- Ht]&(recv&?&?&[<- Hr]&
      (from&?&?&[<- Hf]&(nonce&?&?&[Hn ->]&(ua&?&?&(Hl&Hu&->)&(sh&?&?&[Hh ->]&
      (rl&->&Hrl)&->)&->)&->)&->)&->)&->)&->)&->). unfold LEGACY_ADDRESS_SIZE in *.
    cbn [vm_version services timestamp vm_nonce user_agent start_height relay] in *.
    pose proof (le_val_bound ts) as Hb. unfold zlen in Hb. rewrite Ht in Hb.
    destruct (signed_range 64 (le_val ts)) as [Hi _]; [lia|by unfold in_u|].
    split_and!; try done. exists recv, from. eexists. split_and!; [lia|lia| |done].
    by rewrite read_i64_bytes by lia.
  - intros ((Hv&Hs&Ht&Hn&Hu&Hh)&Hl&recv&from&rf&Hr&Hf&->&Hrl). destruct v as [? ? ts ? ? ? rl].
    unfold LEGACY_ADDRESS_SIZE in *.
    cbn [vm_version services timestamp vm_nonce user_agent start_height relay] in *. do 3 eexists. split; [split; [exact Hv|done]|]. split; [|done].
    do 3 eexists. split; [split; [exact Hs|done]|]. split; [|done].
    exists (le_bytes 8 ts). do 2 eexists. split; [by rewrite length_le_bytes|]. split; [|done].
    exists recv. do 2 eexists. split; [split; [done|lia]|]. split; [|done].
    exists from. do 2 eexists. split; [split; [done|lia]|]. split; [|done].
    do 3 eexists. split; [split; [exact Hn|done]|]. split; [|done].
    do 3 eexists. split; [split; [exact Hl|split; [exact Hu|done]]|]. split; [|done].
    do 3 eexists. split; [split; [exact Hh|done]|]. split; [|done].
    exists rl. split; [|done]. f_equal. rewrite le_val_le_bytes.
    by rewrite (signed_wrap 64) by (done || lia).
Qed.

(** What a payload of each kind may be, and its bytes. *)
Definition command_of (p : MessagePayload) : list byte :=
  match p with
  | PVerack => str "verack"
  | PVersion _ => str "version"
  | PInv _ => str "inv"
  | PGetData _ => str "getdata"
  | PBlock _ => str "block"
  | PTx _ => str "tx"
  end.
Definition payload_ok (p : MessagePayload) : Prop :=
  match p with
  | PVerack => True
  | PVersion v => version_wf v ∧ zlen (user_agent v) ≤ MAX_USER_AGENT_LEN
  | PInv items | PGetData items => Forall inventory_wf items ∧ zlen items ≤ MAX_INV_COUNT
  | PBlock b => block_wf b ∧ zlen (transactions b) ≤ MAX_TRANSACTIONS_PER_BLOCK ∧
      Forall tx_within_limits (transactions b) ∧
      zlen (serialize_block b) ≤ MAX_BLOCK_SERIALIZED_SIZE
  | PTx tx => tx_wf tx ∧ tx_within_limits tx ∧
      zlen (serialize_tx tx) ≤ MAX_TRANSACTION_SERIALIZED_SIZE
  end.
Definition message_ok (m : Message) : Prop :=
  command m = command_of (payload m) ∧ payload_ok (payload m).
Definition payload_encodes (p : MessagePayload) (bs : list byte) : Prop :=
  match p with
  | PVerack => bs = []
  | PVersion v => ∃ addr_recv addr_from relay_field,
      length addr_recv = 26%nat ∧ length addr_from = 26%nat ∧
      bs = version_layout v addr_recv addr_from relay_field ∧
      relay_field_means relay_field (relay v)
  | PInv items | PGetData items => bs = counted serialize_inventory items
  | PBlock b => bs = serialize_block b
  | PTx tx => bs = serialize_tx tx
  end.

(** The relay flag is not sent below version 60002 and read as set. *)
Definition wire_version (v : VersionMessage) : VersionMessage :=
  if 60002 <=? vm_version v then v
  else {| vm_version := vm_version v; services := services v; timestamp := timestamp v;
          vm_nonce := vm_nonce v; user_agent := user_agent v; start_height := start_height v;
          relay := true |}.
Definition wire_view (m : Message) : Message :=
  match payload m with
  | PVersion v => {| command := command m; payload := PVersion (wire_version v) |}
  | _ => m
  end.

Lemma decode_payload_Ok c bs m :
  decode_payload c bs = Ok m ↔
  c = command m ∧ message_ok m ∧ payload_encodes (payload m) bs.
Proof.
  unfold decode_payload, message_ok. rewrite rbind_Ok. split.
  - intros (p&Hp&[= <-]). simpl. split; [done|].
    repeat case_bool_decide; simplify_eq; simpl in Hp.
    all: try (apply rbind_Ok in Hp as (x&Hx&[= <-]); simpl).
    all: try (apply decode_version_Ok in Hx as (?&?&?); by split_and!).
    all: try (apply decode_inventory_list_Ok in Hx as (?&?&?); by split_and!).
    all: try (apply map_err_Ok, deserialize_block_Ok in Hx as (->&?&?&?&?); by split_and!).
    all: try (apply map_err_Ok, deserialize_tx_Ok in Hx as (->&?&?&?); by split_and!).
    injection Hp as <-. done.
  - intros (->&[Hc Hok]&He). exists (payload m). split; [|by destruct m].
    rewrite Hc. destruct (payload m) as [|v|items|items|b|tx]; simpl in *.
    + by subst.
    + destruct Hok. assert (decode_version bs = Ok v) as ->; [|done].
      by apply decode_version_Ok.
    + destruct Hok. assert (decode_inv bs = Ok items) as ->; [|done].
      by apply decode_inventory_list_Ok.
    + destruct Hok. assert (decode_getdata bs = Ok items) as ->; [|done].
      by apply decode_inventory_list_Ok.
    + destruct Hok as (?&?&?&?). assert (deserialize_block bs = Ok b) as ->; [|done].
      apply deserialize_block_Ok. subst bs. by split_and!.
    + destruct Hok as (?&?&?). assert (deserialize_tx bs = Ok tx) as ->; [|done].
      apply deserialize_tx_Ok. subst bs. by split_and!.
Qed.

Lemma encode_version_layout v :
  zlen (user_agent v) ≤ MAX_USER_AGENT_LEN →
  encode_version v = Ok (version_layout v (replicate 26 x00) (replicate 26 x00)
    (if 60002 <=? vm_version v then [if relay v then x01 else x00] else [])).
Proof.
  intros Hl. unfold encode_version. destruct (Z.ltb_spec MAX_USER_AGENT_LEN (zlen (user_agent v)));
    [lia|]. unfold version_layout, counted_bytes. by rewrite <- (assoc_L (++) (write_compact_size _)).
Qed.

Lemma encode_payload_Ok m :
  message_ok m →
  ∃ bs, encode_payload m = Ok (command m, bs) ∧ payload_encodes (payload (wire_view m)) bs.
Proof.
  intros [_ Hok]. unfold encode_payload, wire_view.
  destruct (payload m) as [|v|items|items|b|tx] eqn:Hp; simpl in Hok.
  - eexists. rewrite Hp. done.
  - destruct Hok as [_ Hl]. rewrite encode_version_layout by done.
    eexists. split; [done|]. cbn [payload payload_encodes]. unfold wire_version.
    exists (replicate 26 x00), (replicate 26 x00),
      (if 60002 <=? vm_version v then [if relay v then x01 else x00] else []).
    split_and!; [done|done| |].
    { by destruct (60002 <=? vm_version v). }
    destruct (60002 <=? vm_version v); [|by left]. right. eexists. split; [done|].
    by destruct (relay v).
  - destruct Hok. unfold encode_inv. rewrite encode_inventory_list_Ok by done.
    eexists. rewrite Hp. done.
  - destruct Hok. unfold encode_getdata. rewrite encode_inventory_list_Ok by done.
    eexists. rewrite Hp. done.
  - eexists. rewrite Hp. done.
  - eexists. rewrite Hp. done.
Qed.

Lemma wire_view_ok m : message_ok m → message_ok (wire_view m) ∧ command (wire_view m) = command m.
Proof.
  intros [Hc Hok]. unfold wire_view, message_ok. destruct (payload m) as [|v| | | |] eqn:Hp;
    cbn [command payload command_of] in *; rewrite ?Hp; split_and!; try done.
  revert Hok. unfold payload_ok, version_wf, wire_version. by destruct (60002 <=? vm_version v).
Qed.

Lemma payload_roundtrip m c bs :
  message_ok m → encode_payload m = Ok (c, bs) → decode_payload c bs = Ok (wire_view m).
Proof.
  intros Hok He. destruct (encode_payload_Ok m Hok) as (bs'&He'&Hb). rewrite He in He'.
  injection He' as -> ->. destruct (wire_view_ok m Hok) as [Hok' Hc].
  apply decode_payload_Ok. by split_and!.
Qed.

(** ** Properties *)

(** C21 (roundtrip): the dispatch by command name decodes exactly the payloads that
    [payload_encodes] describes: of an empty, inventory, block or transaction payload the
    canonical encoding only; of a [version], which is not unique, its layout with any bytes in
    the two address fields, with no relay field (read as relaying) or with any byte in it,
    zero for no relaying; all within every limit, and with valid UTF-8 in the user agent.
    What this node encodes for a message within the limits decodes to [wire_view] of that
    message: the message itself, except that a [version] below 60002 does not carry its relay
    flag and is read as relaying.  A message outside the inventory or user-agent limit is
    refused by the encoder, not truncated. *)
Theorem payload_codec_exact :
  (∀ c bs m, decode_payload c bs = Ok m ↔
     c = command m ∧ message_ok m ∧ payload_encodes (payload m) bs) ∧
  (∀ m, message_ok m → ∃ bs,
     encode_payload m = Ok (command m, bs) ∧ decode_payload (command m) bs = Ok (wire_view m)) ∧
  (∀ m items, payload m = PInv items ∨ payload m = PGetData items → MAX_INV_COUNT < zlen items →
     ∃ e, encode_payload m = Err e) ∧
  (∀ m v, payload m = PVersion v → MAX_USER_AGENT_LEN < zlen (user_agent v) →
     ∃ e, encode_payload m = Err e).
Proof.
  split; [apply decode_payload_Ok|split; [|split]].
  - intros m Hok. destruct (encode_payload_Ok m Hok) as (bs&He&_). exists bs.
    split; [done|]. by apply (payload_roundtrip m).
  - intros m items Hp Hn. unfold encode_payload, encode_inv, encode_getdata, encode_inventory_list.
    destruct Hp as [-> | ->]; (destruct (Z.ltb_spec MAX_INV_COUNT (zlen items)); [by eexists|lia]).
  - intros m v Hp Hn. unfold encode_payload, encode_version. rewrite Hp.
    destruct (Z.ltb_spec MAX_USER_AGENT_LEN (zlen (user_agent v))); [|lia]. by eexists.
Qed.

(** A [version] message from before the relay flag. *)
Definition old_version : VersionMessage :=
  {| vm_version := 60001; services := 1; timestamp := 1700000000; vm_nonce := 7;
     user_agent := str "/old/"; start_height := -1; relay := false |}.

Lemma payload_codec_exact_witness :
  ∃ bs, encode_payload (msg_version old_version) = Ok (str "version", bs) ∧
        decode_payload (str "version") bs = Ok (wire_view (msg_version old_version)).
Proof.
  apply (proj1 (proj2 payload_codec_exact) (msg_version old_version)).
  split; [done|]. split; [|done]. by repeat split.
Defined.

Example old_version_reads_as_relaying :
  payload (wire_view (msg_version old_version)) = PVersion
    {| vm_version := 60001; services := 1; timestamp := 1700000000; vm_nonce := 7;
       user_agent := str "/old/"; start_height := -1; relay := true |}.
Proof. reflexivity. Qed.
