(* ===== verification/Envelope.v ===== *)
(** * The message header (bitrst-net/src/envelope.rs)

    The 24-byte header: magic, NUL-padded command, payload length, checksum.  A [Command] is
    the bytes of its name. *)

From stdpp Require Import prelude strings list.
From Stdlib Require Import Strings.Byte.
From S2P Require Import Prelude Bytes Crypto Wire Transaction Message.

Local Open Scope Z_scope.
Local Open Scope list_scope.

(** ** Commands *)

Record Command := { command_name : list byte }.
#[global] Instance Command_eq_dec : EqDecision Command.
Proof. solve_decision. Defined.

Definition printable (b : byte) : bool := (0x20 <=? bz b) && (bz b <=? 0x7e).

(** [iter().position(|&byte| byte == 0)] *)
Fixpoint position_nul (bytes : list byte) : option nat :=
  match bytes with
  | [] => None
  | b :: bytes' => if bool_decide (b = x00) then Some O else S <$> position_nul bytes'
  end.

Definition from_header_bytes (bytes : list byte) : Result NetError Command :=
  let stop := default (Z.to_nat COMMAND_LENGTH) (position_nul bytes) in
  let command_bytes := take stop bytes in
  if bool_decide (command_bytes = []) then Err InvalidCommand
  else if negb (forallb printable command_bytes) then Err InvalidCommand
  else if existsb (λ b, negb (bool_decide (b = x00))) (drop stop bytes) then Err InvalidCommand
  else if utf8_valid command_bytes then Ok {| command_name := command_bytes |}
  else Err InvalidCommand.

Definition encode_command (name : list byte) : Result NetError (list byte) :=
  if bool_decide (name = []) || (COMMAND_LENGTH <? zlen name) then Err InvalidCommand
  else if negb (forallb printable name) then Err InvalidCommand
  else Ok (name ++ replicate (Z.to_nat COMMAND_LENGTH - length name) x00).

(** ** Headers *)

Record MessageHeader := {
  mh_magic : list byte;
  mh_command : Command;
  payload_len : Z;
  mh_checksum : list byte
}.

Section envelope.
Context {crypto : CryptoLib}.

Definition net_checksum (payload : list byte) : list byte := take 4 (sha256d payload).

Definition decode_message_header (bytes expected_magic : list byte) (max_payload : Z)
    : Result NetError MessageHeader :=
  let magic := take 4 bytes in
  if negb (bool_decide (magic = expected_magic)) then Err InvalidMagic
  else
    let? command := from_header_bytes (take 12 (drop 4 bytes)) in
    let payload_len := le_val (take 4 (drop 16 bytes)) in
    if max_payload <? payload_len then Err (PayloadTooLarge payload_len max_payload)
    else Ok {| mh_magic := magic; mh_command := command; payload_len := payload_len;
               mh_checksum := take 4 (drop 20 bytes) |}.

Definition encode_message_header (command payload magic : list byte) (max_payload : Z)
    : Result NetError (list byte) :=
  if max_payload <? zlen payload
  then Err (PayloadTooLarge (zlen payload mod 2 ^ 32) max_payload)
  else
    let? command_bytes := encode_command command in
    Ok (magic ++ command_bytes ++ le_bytes 4 (zlen payload) ++ net_checksum payload).

Definition verify_checksum (h : MessageHeader) (payload : list byte) : Result NetError unit :=
  if negb (bool_decide (net_checksum payload = mh_checksum h))
  then Err (ChecksumMismatch (command_name (mh_command h)))
  else Ok ().

(** ** Lemmas *)

(** A printable name is ASCII, so the last check of [from_header_bytes] never fails. *)
Lemma printable_utf8 name : forallb printable name = true → utf8_valid name = true.
Proof.
  induction name as [|b name IH]; [done|]. cbn [forallb utf8_valid].
  intros [Hb Hn]%andb_prop. unfold printable in Hb.
  destruct (Z.ltb_spec (bz b) 128); [by apply IH|lia].
Qed.

Lemma printable_not_nul b : printable b = true → b ≠ x00.
Proof. by intros Hb ->. Qed.

Lemma position_nul_name name n :
  forallb printable name = true →
  position_nul (name ++ replicate n x00) =
    match n with O => None | S _ => Some (length name) end.
Proof.
  induction name as [|b name IH]; simpl; [by destruct n|].
  intros [Hb Hn]%andb_prop. rewrite bool_decide_false by by apply printable_not_nul.
  rewrite IH by done. by destruct n.
Qed.

Lemma position_nul_Some bytes k :
  position_nul bytes = Some k → (k < length bytes)%nat.
Proof.
  revert k. induction bytes as [|b bytes IH]; intros k; simpl; [done|].
  case_bool_decide; [intros [= <-]; lia|].
  destruct (position_nul bytes) as [k'|]; [|done]. intros [= <-].
  specialize (IH k' eq_refl). lia.
Qed.

Lemma all_nul bytes :
  existsb (λ b, negb (bool_decide (b = x00))) bytes = false →
  bytes = replicate (length bytes) x00.
Proof.
  induction bytes as [|b bytes IH]; simpl; [done|].
  intros [Hb Hn]%orb_false_elim. f_equal; [|by apply IH].
  by apply negb_false_iff, bool_decide_eq_true in Hb.
Qed.

Lemma existsb_replicate_nul n :
  existsb (λ b, negb (bool_decide (b = x00))) (replicate n x00) = false.
Proof. by induction n. Qed.

(** The two directions are inverse: the command field and the name determine each other. *)
Lemma from_header_bytes_Ok bytes c :
  length bytes = 12%nat →
  from_header_bytes bytes = Ok c ↔ encode_command (command_name c) = Ok bytes.
Proof.
  intros Hlen. unfold from_header_bytes, encode_command, COMMAND_LENGTH.
  change (Z.to_nat 12) with 12%nat. split.
  - set (stop := default 12%nat (position_nul bytes)).
    assert (stop ≤ 12)%nat as Hstop.
    { unfold stop. destruct (position_nul bytes) eqn:Hp; [|done]. simpl.
      apply position_nul_Some in Hp. lia. }
    case_bool_decide as Hne; [done|].
    destruct (forallb printable (take stop bytes)) eqn:Hp; [|done].
    destruct (existsb _ (drop stop bytes)) eqn:Hz; [done|]. simpl.
    rewrite printable_utf8 by done. intros [= <-]. cbn [command_name].
    rewrite bool_decide_false by done. unfold zlen. rewrite Hp, length_take_le by lia.
    destruct (Z.ltb_spec 12 (Z.of_nat stop)); [lia|]. simpl. f_equal.
    apply all_nul in Hz. rewrite length_drop, Hlen in Hz. rewrite <- Hz. apply take_drop.
  - case_bool_decide as Hne; [done|]. unfold zlen.
    destruct (Z.ltb_spec 12 (Z.of_nat (length (command_name c)))); [done|]. simpl.
    destruct (forallb printable (command_name c)) eqn:Hp; [|done]. intros [= <-].
    rewrite position_nul_name by done.
    assert (default 12%nat match (12 - length (command_name c))%nat with
      | O => None | S _ => Some (length (command_name c)) end = length (command_name c)) as ->.
    { destruct (12 - length (command_name c))%nat eqn:Hd; simpl; [lia|done]. }
    rewrite take_app_length, drop_app_length, bool_decide_false, Hp by done.
    rewrite existsb_replicate_nul, printable_utf8 by done. by destruct c.
Qed.

Lemma length_encode_command name bytes : encode_command name = Ok bytes → length bytes = 12%nat.
Proof.
  unfold encode_command, COMMAND_LENGTH, zlen. case_bool_decide; [done|].
  destruct (Z.ltb_spec 12 (Z.of_nat (length name))); [done|]. simpl.
  destruct (forallb printable name); [|done]. intros [= <-].
  rewrite length_app, length_replicate. lia.
Qed.

Lemma four_fields (bytes : list byte) :
  length bytes = 24%nat →
  bytes = take 4 bytes ++ take 12 (drop 4 bytes) ++ take 4 (drop 16 bytes) ++ take 4 (drop 20 bytes).
Proof.
  intros Hlen. rewrite (take_ge (drop 20 bytes)) by (rewrite length_drop; lia).
  rewrite <- (take_drop 4 bytes) at 1. f_equal. rewrite <- (take_drop 12 (drop 4 bytes)) at 1.
  f_equal. rewrite drop_drop. rewrite <- (take_drop 4 (drop (4 + 12) bytes)) at 1.
  f_equal. by rewrite drop_drop.
Qed.

(** The fields of a 24-byte header. *)
Lemma decode_message_header_Ok bytes expected max_payload h :
  length bytes = 24%nat → length expected = 4%nat →
  decode_message_header bytes expected max_payload = Ok h ↔
  ∃ command_bytes,
    mh_magic h = expected ∧ encode_command (command_name (mh_command h)) = Ok command_bytes ∧
    in_u 32 (payload_len h) ∧ payload_len h ≤ max_payload ∧ length (mh_checksum h) = 4%nat ∧
    bytes = expected ++ command_bytes ++ le_bytes 4 (payload_len h) ++ mh_checksum h.
Proof.
  intros Hlen Hmagic. unfold decode_message_header. split.
  - case_bool_decide as Hm; [|done]. simpl. intros (c&Hc&Hr)%rbind_Ok.
    destruct (Z.ltb_spec max_payload (le_val (take 4 (drop 16 bytes)))); [done|].
    injection Hr as <-. cbn [mh_magic mh_command payload_len mh_checksum].
    apply from_header_bytes_Ok in Hc; [|rewrite length_take, length_drop; lia].
    assert (le_bytes 4 (le_val (take 4 (drop 16 bytes))) = take 4 (drop 16 bytes)) as Hle.
    { rewrite <- (le_bytes_le_val (take 4 (drop 16 bytes))) at 2. f_equal.
      rewrite length_take, length_drop. lia. }
    exists (take 12 (drop 4 bytes)). pose proof (le_val_bound (take 4 (drop 16 bytes))) as Hb.
    unfold zlen in Hb. rewrite length_take, length_drop, Hlen in Hb. split_and!; try done.
    { rewrite length_take, length_drop. lia. }
    change (bytes = expected ++ take 12 (drop 4 bytes) ++
      le_bytes 4 (le_val (take 4 (drop 16 bytes))) ++ take 4 (drop 20 bytes)).
    rewrite Hle, <- Hm. by apply four_fields.
  - intros (cb&Hm&Hc&Hr&Hle&Hl&->). pose proof (length_encode_command _ _ Hc) as Hcb.
    rewrite take_app_length' by done. rewrite bool_decide_true by done. cbn [negb].
    rewrite drop_app_length' by done. rewrite take_app_length' by done.
    assert (from_header_bytes cb = Ok (mh_command h)) as -> by (by apply from_header_bytes_Ok).
    cbn [rbind].
    assert (drop 16 (expected ++ cb ++ le_bytes 4 (payload_len h) ++ mh_checksum h)
      = le_bytes 4 (payload_len h) ++ mh_checksum h) as ->.
    { rewrite (assoc_L (++)). apply drop_app_length'. rewrite length_app. lia. }
    assert (drop 20 (expected ++ cb ++ le_bytes 4 (payload_len h) ++ mh_checksum h)
      = mh_checksum h) as ->.
    { rewrite !(assoc_L (++)). apply drop_app_length'. rewrite !length_app, length_le_bytes. lia. }
    rewrite (take_app_length' (le_bytes 4 _)) by by rewrite length_le_bytes.
    rewrite le_val_le_bytes_small by done. rewrite take_ge by lia.
    destruct (Z.ltb_spec max_payload (payload_len h)); [lia|]. destruct h. simpl in *. by subst.
Qed.

Lemma encode_message_header_Ok command payload magic max_payload bytes :
  encode_message_header command payload magic max_payload = Ok bytes ↔
  ∃ command_bytes, encode_command command = Ok command_bytes ∧ zlen payload ≤ max_payload ∧
    bytes = magic ++ command_bytes ++ le_bytes 4 (zlen payload) ++ net_checksum payload.
Proof.
  unfold encode_message_header. destruct (Z.ltb_spec max_payload (zlen payload)).
  - split; [done|]. intros (?&_&?&_). lia.
  - rewrite rbind_Ok. split.
    + intros (cb&?&[= <-]). by exists cb.
    + intros (cb&?&_&->). by exists cb.
Qed.

Lemma length_net_checksum {laws : CryptoLaws crypto} p : length (net_checksum p) = 4%nat.
Proof. unfold net_checksum. by rewrite length_take, length_sha256d. Qed.

Lemma verify_checksum_Ok h p : verify_checksum h p = Ok () ↔ net_checksum p = mh_checksum h.
Proof. unfold verify_checksum. by case_bool_decide. Qed.

(** What an encoder writes, a decoder of the same network reads back. *)
Lemma header_roundtrip {laws : CryptoLaws crypto} command payload magic max_payload bytes :
  length magic = 4%nat → max_payload < 2 ^ 32 →
  encode_message_header command payload magic max_payload = Ok bytes →
  length bytes = 24%nat ∧
  decode_message_header bytes magic max_payload =
    Ok {| mh_magic := magic; mh_command := {| command_name := command |};
          payload_len := zlen payload; mh_checksum := net_checksum payload |}.
Proof.
  intros Hm Hmax (cb&Hc&Hl&->)%encode_message_header_Ok.
  pose proof (length_encode_command _ _ Hc). pose proof (length_net_checksum payload).
  pose proof (zlen_nonneg payload).
  assert (length (magic ++ cb ++ le_bytes 4 (zlen payload) ++ net_checksum payload) = 24%nat)
    as Hlen by (rewrite !length_app, length_le_bytes; lia).
  split; [done|]. apply decode_message_header_Ok; [done..|]. exists cb.
  cbn [mh_magic mh_command payload_len mh_checksum command_name]. unfold in_u. split_and!; try done; lia.
Qed.
End envelope.
