(* ===== verification/Framing.v ===== *)
(** * Framed reading and writing (bitrst-net/src/framing.rs)

    The sockets are tokio's: [AsyncRead] and [AsyncWrite] below are interfaces with the
    documented behaviour of the two traits.  A reader delivers the bytes the peer sends in
    pieces of its own choosing; the theorems hold for every way of cutting them.  The loops
    carry fuel; running out of it would be [Panic]. *)

From stdpp Require Import prelude strings list.
From Stdlib Require Import Strings.Byte.
From S2P Require Import Prelude Bytes Crypto Wire Transaction Message Envelope.

Local Open Scope string_scope.
Local Open Scope Z_scope.
Local Open Scope list_scope.

(** ** Interfaces of the sockets *)

(** How the incoming bytes end: an orderly close or an I/O error. *)
Inductive Ending := Closed | Broken.

(** [read] with a non-empty buffer and [read_buf]: some of the bytes still to come, at most as
    many as the buffer holds; nothing exactly at the end ([Some []], a read of length 0), and
    [None] for an error.  [incoming] are the bytes to come. *)
Class AsyncRead (R : Type) := {
  read : nat → R → option (list byte) * R;
  read_buf : R → option (list byte) * R;
  incoming : R → list byte;
  ending : R → Ending;
  read_some : ∀ limit r, (0 < limit)%nat → incoming r ≠ [] →
    ∃ bs r', read limit r = (Some bs, r') ∧ bs ≠ [] ∧ (length bs ≤ limit)%nat ∧
             incoming r = bs ++ incoming r' ∧ ending r' = ending r;
  read_end : ∀ limit r, (0 < limit)%nat → incoming r = [] →
    ∃ r', read limit r = (match ending r with Closed => Some [] | Broken => None end, r') ∧
          incoming r' = [] ∧ ending r' = ending r;
  read_buf_some : ∀ r, incoming r ≠ [] →
    ∃ bs r', read_buf r = (Some bs, r') ∧ bs ≠ [] ∧
             incoming r = bs ++ incoming r' ∧ ending r' = ending r;
  read_buf_end : ∀ r, incoming r = [] →
    ∃ r', read_buf r = (match ending r with Closed => Some [] | Broken => None end, r') ∧
          incoming r' = [] ∧ ending r' = ending r
}.

(** [write_all] and [flush]: a success has written everything. *)
Class AsyncWrite (W : Type) := {
  write_all : list byte → W → bool * W;
  flush : W → bool * W;
  written : W → list byte;
  write_all_done : ∀ bs w w', write_all bs w = (true, w') → written w' = written w ++ bs;
  flush_written : ∀ w, written (flush w).2 = written w
}.

Section framing.
Context {crypto : CryptoLib}.

(** ** Reading *)

Section reading.
Context {R : Type} {reader : AsyncRead R}.

(** [n] bytes are still wanted. *)
Fixpoint read_exact_loop (fuel n : nat) : SM R NetError (list byte) := λ r,
  match n with
  | O => (Ok [], r)
  | S _ =>
      match fuel with
      | O => (Panic, r)
      | S fuel' =>
          match read n r with
          | (None, r) => (Err (Io "read exact"), r)
          | (Some [], r) => (Err ConnectionClosed, r)
          | (Some bs, r) =>
              sbind (read_exact_loop fuel' (n - length bs)) (λ rest, sret (bs ++ rest)) r
          end
      end
  end.
Definition read_exact_or_closed (n : nat) : SM R NetError (list byte) := read_exact_loop n n.

Definition read_message (network : Network) : SM R NetError Message :=
  let! header_bytes := read_exact_or_closed (Z.to_nat MESSAGE_HEADER_SIZE) in
  let! header := slift (decode_message_header header_bytes (magic network) MAX_PAYLOAD_SIZE) in
  let! payload := read_exact_or_closed (Z.to_nat (payload_len header)) in
  do! slift (verify_checksum header payload) ;;
  slift (decode_payload (command_name (mh_command header)) payload).

(** [FramedReader]: the bytes read and not consumed yet, beside the socket. *)
Definition FR := SM (list byte * R) NetError.

Fixpoint fill_loop (fuel n : nat) : FR unit := λ '(buffer, r),
  if (n <=? length buffer)%nat then (Ok (), (buffer, r))
  else
    match fuel with
    | O => (Panic, (buffer, r))
    | S fuel' =>
        match read_buf r with
        | (None, r) => (Err (Io "read"), (buffer, r))
        | (Some [], r) => (Err ConnectionClosed, (buffer, r))
        | (Some bs, r) => fill_loop fuel' n (buffer ++ bs, r)
        end
    end.
(** [while self.buffer.len() < n] *)
Definition fill_to (n : nat) : FR unit := fill_loop n n.

Definition framed_read_message (network : Network) : FR Message :=
  let header_size := Z.to_nat MESSAGE_HEADER_SIZE in
  do! fill_to header_size ;;
  let! s := sget in
  let header_bytes := take header_size s.1 in
  let! header := slift (decode_message_header header_bytes (magic network) MAX_PAYLOAD_SIZE) in
  let total := (header_size + Z.to_nat (payload_len header))%nat in
  do! fill_to total ;;
  let! s := sget in
  let payload := drop header_size (take total s.1) in
  do! smodify (λ s, (drop total s.1, s.2)) ;;
  do! slift (verify_checksum header payload) ;;
  slift (decode_payload (command_name (mh_command header)) payload).
End reading.

(** ** Writing *)

Section writing.
Context {W : Type} {writer : AsyncWrite W}.

(** A write with its error. *)
Definition write_or (context : string) (op : W → bool * W) : SM W NetError unit := λ w,
  let '(ok, w) := op w in (if ok then Ok () else Err (Io context), w).

Definition write_message (network : Network) (message : Message) : SM W NetError unit :=
  let! encoded := slift (encode_payload message) in
  let '(command, payload) := encoded in
  let! header := slift (encode_message_header command payload (magic network) MAX_PAYLOAD_SIZE) in
  do! write_or "write header" (write_all header) ;;
  do! (if bool_decide (payload = []) then sret ()
       else write_or "write payload" (write_all payload)) ;;
  write_or "flush" flush.

(** The task of [MessageWriter::spawn]: it drains the queue and stops at the first error. *)
Fixpoint writer_task (network : Network) (queue : list Message) (w : W) : W :=
  match queue with
  | [] => w
  | message :: queue =>
      match write_message network message w with
      | (Ok _, w) => writer_task network queue w
      | (_, w) => w
      end
  end.
End writing.

(** ** Specification: one frame at the head of a byte string *)

(** The bytes of a message on the wire. *)
Definition frame (network : Network) (m : Message) : Result NetError (list byte) :=
  let? ' (command, payload) := encode_payload m in
  let? header := encode_message_header command payload (magic network) MAX_PAYLOAD_SIZE in
  Ok (header ++ payload).

(** What a complete input means: too short for a frame ([None]), or the outcome of its first
    frame and the number of bytes the frame occupies. *)
Definition parse_frame (network : Network) (bs : list byte)
    : option (Result NetError Message * nat) :=
  if (length bs <? 24)%nat then None
  else
    match decode_message_header (take 24 bs) (magic network) MAX_PAYLOAD_SIZE with
    | Ok h =>
        let total := (24 + Z.to_nat (payload_len h))%nat in
        if (length bs <? total)%nat then None
        else
          let p := drop 24 (take total bs) in
          Some (check? verify_checksum h p ;; decode_payload (command_name (mh_command h)) p, total)
    | Err e => Some (Err e, 24%nat)
    | Panic => None
    end.

(** Whether the first frame has an acceptable header, so that a [FramedReader] passes it. *)
Definition header_ok (network : Network) (bs : list byte) : bool :=
  is_ok (decode_message_header (take 24 bs) (magic network) MAX_PAYLOAD_SIZE).

Definition end_error (context : string) (e : Ending) : NetError :=
  match e with Closed => ConnectionClosed | Broken => Io context end.

(** ** Lemmas *)

Section reading_lemmas.
Context {R : Type} {reader : AsyncRead R}.

(** What is left and how it will end, after a call. *)
Definition leaves (r r' : R) (rest : list byte) : Prop :=
  incoming r' = rest ∧ ending r' = ending r.

Lemma read_exact_loop_spec fuel n r :
  (n ≤ fuel)%nat →
  ∃ r', if (n <=? length (incoming r))%nat
        then read_exact_loop fuel n r = (Ok (take n (incoming r)), r') ∧
             leaves r r' (drop n (incoming r))
        else read_exact_loop fuel n r = (Err (end_error "read exact" (ending r)), r') ∧
             leaves r r' [].
Proof.
  revert n r. induction fuel as [|fuel IH]; intros [|n] r Hn; try lia; try (exists r; simpl; by unfold leaves).
  assert (0 < S n)%nat as Hpos by lia. cbn [read_exact_loop].
  destruct (incoming r) as [|b bs] eqn:Hin.
  { destruct (read_end (S n) r Hpos Hin) as (r'&Hr&Hi&He). exists r'. simpl.
    rewrite Hr. unfold leaves. by destruct (ending r). }
  destruct (read_some (S n) r Hpos) as (bs'&r'&Hr&Hne&Hl&Hi&He); [by rewrite Hin|].
  rewrite <- Hin, Hi, Hr. clear b bs Hin. destruct bs' as [|b bs']; [done|].
  set (p := b :: bs') in *. assert (1 ≤ length p)%nat by (simpl; lia).
  destruct (IH (S n - length p)%nat r') as (r2&Hr2); [lia|]. exists r2. unfold leaves in *.
  rewrite He in Hr2. rewrite length_app, take_app, drop_app, take_ge, drop_ge by lia.
  destruct (Nat.leb_spec (S n - length p) (length (incoming r')));
    destruct (Nat.leb_spec (S n) (length p + length (incoming r'))); try lia.
  all: unfold sbind; destruct Hr2 as (->&->&->); done.
Qed.

Lemma read_exact_spec n r :
  ∃ r', if (n <=? length (incoming r))%nat
        then read_exact_or_closed n r = (Ok (take n (incoming r)), r') ∧
             leaves r r' (drop n (incoming r))
        else read_exact_or_closed n r = (Err (end_error "read exact" (ending r)), r') ∧
             leaves r r' [].
Proof. by apply read_exact_loop_spec. Qed.

(** The bytes a [FramedReader] has still to parse. *)
Definition view (s : list byte * R) : list byte := s.1 ++ incoming s.2.

Lemma fill_loop_spec fuel n buffer r :
  (n ≤ fuel + length buffer)%nat →
  ∃ buffer' r',
    fill_loop fuel n (buffer, r) =
      (if (n <=? length (view (buffer, r)))%nat then Ok ()
       else Err (end_error "read" (ending r)), (buffer', r')) ∧
    view (buffer', r') = view (buffer, r) ∧ ending r' = ending r ∧
    ((n ≤ length (view (buffer, r)))%nat → (n ≤ length buffer')%nat).
Proof.
  unfold view. cbn [fst snd]. revert buffer r. induction fuel as [|fuel IH]; intros buffer r Hn.
  all: cbn [fill_loop]; rewrite length_app.
  all: destruct (Nat.leb_spec n (length buffer)) as [Hb|Hb]; [|try lia].
  1,2: exists buffer, r; destruct (Nat.leb_spec n (length buffer + length (incoming r)));
    [done|lia].
  destruct (incoming r) as [|b bs] eqn:Hin.
  { destruct (read_buf_end r Hin) as (r'&Hr&Hi&He). exists buffer, r'. rewrite Hr, Hi, He. simpl.
    destruct (Nat.leb_spec n (length buffer + 0)); [lia|]. destruct (ending r); split_and!; try done; lia. }
  destruct (read_buf_some r) as (bs'&r'&Hr&Hne&Hi&He); [by rewrite Hin|].
  rewrite <- Hin, Hr. clear b bs Hin. destruct bs' as [|b bs']; [done|].
  destruct (IH (buffer ++ b :: bs') r') as (buffer2&r2&Hl&Hv&He2&Hlen).
  { rewrite length_app. simpl. lia. }
  exists buffer2, r2. rewrite Hl, Hv, He2, He, Hi.
  rewrite <- (assoc_L (++)) in *. rewrite <- Hi, length_app in *. by split_and!.
Qed.

Lemma fill_to_spec n buffer r :
  ∃ buffer' r',
    fill_to n (buffer, r) =
      (if (n <=? length (view (buffer, r)))%nat then Ok ()
       else Err (end_error "read" (ending r)), (buffer', r')) ∧
    view (buffer', r') = view (buffer, r) ∧ ending r' = ending r ∧
    ((n ≤ length (view (buffer, r)))%nat → (n ≤ length buffer')%nat).
Proof. apply fill_loop_spec. lia. Qed.

Lemma decode_header_no_panic bytes mg limit : decode_message_header bytes mg limit ≠ Panic.
Proof.
  unfold decode_message_header, from_header_bytes. repeat case_match; try done.
  all: unfold rbind; repeat case_match; simplify_eq; done.
Qed.

(** The outcome of one call against what [parse_frame] says of the bytes to come. *)
Lemma read_message_spec network r :
  ∃ r', match parse_frame network (incoming r) with
        | None => read_message network r = (Err (end_error "read exact" (ending r)), r') ∧
                  leaves r r' []
        | Some (outcome, n) => read_message network r = (outcome, r') ∧
                               leaves r r' (drop n (incoming r))
        end.
Proof.
  unfold parse_frame, read_message, MESSAGE_HEADER_SIZE. change (Z.to_nat 24) with 24%nat.
  destruct (read_exact_spec 24 r) as (r1&H1).
  destruct (Nat.ltb_spec (length (incoming r)) 24) as [Hs|Hs];
    destruct (Nat.leb_spec 24 (length (incoming r))) as [Hs'|Hs']; try lia.
  { destruct H1 as [H1 ?]. exists r1. by rewrite (sbind_run_Err _ _ _ _ _ H1). }
  destruct H1 as [H1 [Hi1 He1]]. rewrite (sbind_run _ _ _ _ _ H1).
  destruct (decode_message_header _ _ _) as [h|e|] eqn:Hh; [|by exists r1|].
  2: by apply decode_header_no_panic in Hh.
  rewrite (sbind_run (slift (Ok h)) _ r1 h r1) by done.
  set (len := Z.to_nat (payload_len h)). destruct (read_exact_spec len r1) as (r2&H2).
  unfold leaves in *. rewrite Hi1, length_drop, He1 in H2. exists r2.
  destruct (Nat.ltb_spec (length (incoming r)) (24 + len)) as [Hl|Hl];
    destruct (Nat.leb_spec len (length (incoming r) - 24)) as [Hl'|Hl']; try lia.
  { destruct H2 as [H2 ?]. by rewrite (sbind_run_Err _ _ _ _ _ H2). }
  destruct H2 as [H2 [Hi ?]]. rewrite (sbind_run _ _ _ _ _ H2). rewrite drop_drop in Hi.
  rewrite take_drop_commute. split; [|done].
  unfold sbind, slift. by destruct (verify_checksum h _) as [[]| |].
Qed.

(** A [FramedReader] yields the same outcomes from its buffer and the bytes to come; a frame
    whose header it refuses stays where it is, and so does an incomplete one. *)
Lemma framed_read_spec network buffer r :
  let v := view (buffer, r) in
  ∃ buffer' r', ending r' = ending r ∧
    match parse_frame network v with
    | None => framed_read_message network (buffer, r) =
                (Err (end_error "read" (ending r)), (buffer', r')) ∧ view (buffer', r') = v
    | Some (outcome, n) => framed_read_message network (buffer, r) = (outcome, (buffer', r')) ∧
        view (buffer', r') = if header_ok network v then drop n v else v
    end.
Proof.
  intros v. unfold parse_frame, framed_read_message, MESSAGE_HEADER_SIZE, header_ok.
  change (Z.to_nat 24) with 24%nat.
  destruct (fill_to_spec 24 buffer r) as (b1&r1&H1&Hv1&He1&Hl1). fold v in H1, Hv1, Hl1.
  destruct (Nat.ltb_spec (length v) 24) as [Hs|Hs];
    destruct (Nat.leb_spec 24 (length v)) as [Hs'|Hs']; try lia.
  { exists b1, r1. by rewrite (sbind_run_Err _ _ _ _ _ H1). }
  specialize (Hl1 Hs). rewrite (sbind_run _ _ _ _ _ H1).
  rewrite (sbind_run sget _ _ (b1, r1) (b1, r1)) by done. cbn [fst].
  assert (take 24 b1 = take 24 v) as ->.
  { rewrite <- Hv1. unfold view. cbn [fst snd]. by rewrite take_app_le. }
  destruct (decode_message_header _ _ _) as [h|e|] eqn:Hh; [|by exists b1, r1|].
  2: by apply decode_header_no_panic in Hh.
  rewrite (sbind_run (slift (Ok h)) _ _ h (b1, r1)) by done.
  cbn [is_ok]. set (total := (24 + Z.to_nat (payload_len h))%nat).
  destruct (fill_to_spec total b1 r1) as (b2&r2&H2&Hv2&He2&Hl2). rewrite Hv1 in H2, Hv2, Hl2.
  rewrite He1 in He2, H2.
  destruct (Nat.ltb_spec (length v) total) as [Hl|Hl];
    destruct (Nat.leb_spec total (length v)) as [Hl'|Hl']; try lia.
  { exists b2, r2. by rewrite (sbind_run_Err _ _ _ _ _ H2). }
  specialize (Hl2 Hl). rewrite (sbind_run _ _ _ _ _ H2).
  unfold sbind, sget, smodify, slift. cbn [fst snd].
  assert (take total b2 = take total v) as ->.
  { rewrite <- Hv2. unfold view. cbn [fst snd]. by rewrite take_app_le. }
  exists (drop total b2), r2. split; [done|]. split.
  - by destruct (verify_checksum h _) as [[]| |].
  - rewrite <- Hv2. unfold view. cbn [fst snd]. by rewrite drop_app_le.
Qed.
End reading_lemmas.

(** What [write_message] writes when it succeeds, and that it fails without panicking. *)
Lemma write_message_Ok {W} {writer : AsyncWrite W} network m w w' :
  write_message network m w = (Ok (), w') →
  ∃ bs, frame network m = Ok bs ∧ written w' = written w ++ bs.
Proof.
  unfold write_message, frame. intros (enc&w1&[= -> ->]&H)%sbind_Ok.
  destruct enc as [c p]. apply sbind_Ok in H as (header&w2&[= Hh ->]&H).
  cbn [rbind]. rewrite Hh. cbn [rbind]. apply sbind_Ok in H as ([]&w3&Hw3&H). apply sbind_Ok in H as ([]&w4&Hw4&H).
  exists (header ++ p). split; [done|]. unfold write_or in *.
  destruct (write_all header w2) as [[] w3'] eqn:Ha; [|done]. injection Hw3 as ->.
  apply write_all_done in Ha.
  assert (written w4 = written w3 ++ p) as Hp.
  { case_bool_decide; [subst p; injection Hw4 as ->; by rewrite (right_id_L [] (++))|].
    destruct (write_all p w3) as [[] w4'] eqn:Hb; [|done]. injection Hw4 as ->.
    by apply write_all_done in Hb. }
  pose proof (flush_written w4) as Hf. destruct (flush w4) as [[] w5]; [|done].
  injection H as ->. simpl in Hf. by rewrite Hf, Hp, Ha, (assoc_L (++)).
Qed.

(** ** Frames *)

Lemma zlen_concat_const {A} (f : A → list byte) n l :
  Forall (λ x, zlen (f x) = n) l → zlen (concat (map f l)) = n * zlen l.
Proof.
  induction 1 as [|x l Hx _ IH]; [by rewrite Z.mul_0_r|].
  cbn [map concat]. rewrite zlen_app, zlen_cons, Hx, IH. lia.
Qed.

Lemma zlen_counted_inventory items :
  Forall inventory_wf items → zlen items ≤ MAX_INV_COUNT →
  zlen (counted serialize_inventory items) ≤ MAX_PAYLOAD_SIZE.
Proof.
  intros Hw Hn. unfold counted. rewrite zlen_app, zlen_write_compact_size.
  rewrite (zlen_concat_const _ 36).
  - pose proof (compact_size_encoded_len_pos (zlen items)). unfold MAX_INV_COUNT in Hn.
    unfold MAX_PAYLOAD_SIZE, MAX_BLOCK_SERIALIZED_SIZE. lia.
  - eapply Forall_impl; [exact Hw|]. intros i Hi. unfold inventory_wf in Hi.
    unfold serialize_inventory. rewrite zlen_app, zlen_le_bytes. unfold zlen. lia.
Qed.

(** Every message within the limits fits a frame. *)
Lemma payload_encodes_bound p bs :
  payload_ok p → payload_encodes p bs → zlen bs ≤ MAX_PAYLOAD_SIZE.
Proof.
  destruct p as [|v|items|items|b|tx]; simpl.
  - by intros _ ->.
  - intros [_ Hl] (recv&from&rf&Hr&Hf&->&Hrf). unfold version_layout, counted_bytes.
    rewrite !zlen_app, !zlen_le_bytes, zlen_write_compact_size.
    pose proof (compact_size_encoded_len_pos (zlen (user_agent v))).
    unfold MAX_USER_AGENT_LEN in Hl. unfold MAX_PAYLOAD_SIZE, MAX_BLOCK_SERIALIZED_SIZE.
    assert (zlen rf ≤ 1) by (destruct Hrf as [[-> _]|(?&->&_)]; unfold zlen; simpl; lia).
    assert (zlen recv = 26 ∧ zlen from = 26) by (unfold zlen; lia). lia.
  - intros [??] ->. by apply zlen_counted_inventory.
  - intros [??] ->. by apply zlen_counted_inventory.
  - by intros (?&?&?&?) ->.
  - by intros (?&?&?) ->.
Qed.

Lemma command_of_encodes p :
  ∃ bs, encode_command (command_of p) = Ok bs.
Proof. destruct p; by eexists. Qed.

Lemma frame_total network m : message_ok m → ∃ bs, frame network m = Ok bs.
Proof.
  intros Hok. destruct (encode_payload_Ok m Hok) as (p&He&Hp).
  destruct (wire_view_ok m Hok) as [[_ Hok'] _]. destruct Hok as [Hc _].
  apply payload_encodes_bound in Hp; [|done].
  destruct (command_of_encodes (payload m)) as (cb&Hcb).
  unfold frame. rewrite He. cbn [rbind].
  assert (∃ h, encode_message_header (command m) p (magic network) MAX_PAYLOAD_SIZE = Ok h)
    as (h&->); [|by eexists].
  eexists. apply encode_message_header_Ok. exists cb. rewrite Hc. by split_and!.
Qed.

(** A frame is read back, whatever follows it. *)
Lemma parse_frame_frame {laws : CryptoLaws crypto} network m bs rest :
  message_ok m → frame network m = Ok bs →
  parse_frame network (bs ++ rest) = Some (Ok (wire_view m), length bs) ∧
  header_ok network (bs ++ rest) = true.
Proof.
  unfold frame. intros Hok. destruct (encode_payload m) as [[c p]| |] eqn:He; [|done..].
  cbn [rbind]. destruct (encode_message_header _ _ _ _) as [h| |] eqn:Hh; [|done..].
  intros [= <-]. assert (length (magic network) = 4%nat) as Hm4 by (by destruct network).
  destruct (header_roundtrip _ _ _ MAX_PAYLOAD_SIZE _ Hm4 eq_refl Hh) as [Hlen Hd].
  unfold header_ok, parse_frame. rewrite <- (assoc_L (++)), (take_app_length' h) by done.
  rewrite Hd. cbn [is_ok payload_len mh_command command_name]. split; [|done].
  rewrite !length_app. unfold zlen. rewrite Nat2Z.id.
  destruct (Nat.ltb_spec (length h + (length p + length rest)) 24); [lia|].
  destruct (Nat.ltb_spec (length h + (length p + length rest)) (24 + length p)); [lia|].
  assert (drop 24 (take (24 + length p) (h ++ p ++ rest)) = p) as ->.
  { rewrite (assoc_L (++)), take_app_length' by (rewrite length_app; lia).
    by apply drop_app_length'. }
  unfold verify_checksum. cbn [mh_checksum]. rewrite bool_decide_true by done. cbn [negb rbind].
  rewrite (payload_roundtrip m) by done. rewrite Hlen. done.
Qed.

Definition framed_read_n {R} {reader : AsyncRead R} (network : Network) : nat → FR (list Message) :=
  fix go n :=
    match n with
    | O => sret []
    | S n' => let! m := framed_read_message network in let! ms := go n' in sret (m :: ms)
    end.

Lemma framed_read_frames {laws : CryptoLaws crypto} {R} {reader : AsyncRead R} network ms :
  Forall message_ok ms → ∀ frames rest buffer (r : R),
  rmap (frame network) ms = Ok frames → view (buffer, r) = concat frames ++ rest →
  ∃ s', framed_read_n network (length ms) (buffer, r) = (Ok (map wire_view ms), s') ∧
        view s' = rest ∧ ending s'.2 = ending r.
Proof.
  induction 1 as [|m ms Hm Hms IH]; intros frames rest buffer r Hf Hv.
  { injection Hf as <-. by exists (buffer, r). }
  simpl in Hf. apply rbind_Ok in Hf as (bs&Hbs&(fs&Hfs&[= <-])%rbind_Ok).
  cbn [concat] in Hv. rewrite <- (assoc_L (++)) in Hv.
  destruct (parse_frame_frame network m bs (concat fs ++ rest) Hm Hbs) as [Hp Hh].
  destruct (framed_read_spec network buffer r) as (b1&r1&He1&H1). rewrite Hv, Hp, Hh in H1.
  destruct H1 as [H1 Hv1]. rewrite drop_app_length in Hv1.
  destruct (IH fs rest b1 r1 Hfs Hv1) as (s'&Hs'&Hr'&He').
  exists s'. cbn [length framed_read_n map]. rewrite (sbind_run _ _ _ _ _ H1).
  change (fix go n := match n with O => sret [] | S n' => _ end) with (@framed_read_n R reader network).
  rewrite (sbind_run _ _ _ _ _ Hs'). split; [done|]. split; [done|]. by rewrite He'.
Qed.

Lemma write_messages_Ok {W} {writer : AsyncWrite W} network ms w w' :
  sfor ms (write_message network) w = (Ok (), w') →
  ∃ frames, rmap (frame network) ms = Ok frames ∧ written w' = written w ++ concat frames.
Proof.
  revert w. induction ms as [|m ms IH]; intros w; simpl.
  - intros [= ->]. exists []. simpl. by rewrite (right_id_L [] (++)).
  - intros ([]&w1&(bs&Hbs&Hw1)%write_message_Ok&(fs&Hfs&Hw')%IH)%sbind_Ok.
    exists (bs :: fs). rewrite Hbs, Hfs. split; [done|]. by rewrite Hw', Hw1, <- (assoc_L (++)).
Qed.
End framing.

(** ** Properties *)

(** C19 (refinement): both readers compute the frame parser of the byte stream, however the
    socket cuts the stream into reads: the outcome and the bytes consumed are those of
    [parse_frame] on the bytes received so far and still to come; an incomplete frame ends in
    [ConnectionClosed] on an orderly close and in an I/O error otherwise, never in a partial
    message; and each call returns.  A [FramedReader] keeps an incomplete frame, and also a
    frame with a refused header, in its buffer, so that a refused header is refused again by
    every later call. *)
Theorem framed_reading_exact {crypto : CryptoLib} {R : Type} {reader : AsyncRead R}
    (network : Network) (r : R) (buffer : list byte) :
  (∃ r', ending r' = ending r ∧
    match parse_frame network (incoming r) with
    | None => read_message network r = (Err (end_error "read exact" (ending r)), r') ∧
              incoming r' = []
    | Some (outcome, n) => read_message network r = (outcome, r') ∧
                           incoming r' = drop n (incoming r)
    end) ∧
  (∃ buffer' r', ending r' = ending r ∧
    let v := buffer ++ incoming r in
    match parse_frame network v with
    | None => framed_read_message network (buffer, r) =
                (Err (end_error "read" (ending r)), (buffer', r')) ∧ buffer' ++ incoming r' = v
    | Some (outcome, n) => framed_read_message network (buffer, r) = (outcome, (buffer', r')) ∧
        buffer' ++ incoming r' = if header_ok network v then drop n v else v
    end).
Proof.
  split; [|exact (framed_read_spec network buffer r)].
  destruct (read_message_spec network r) as (r'&H). exists r'.
  destruct (parse_frame network (incoming r)) as [[??]|]; destruct H as (?&?&?); by split_and!.
Qed.

(** C20 (roundtrip): what one node writes another reads.  Every message within the limits has
    a frame; the messages a writer accepts are read back by a [FramedReader], in order and
    each equal to the one sent up to the relay flag of old [version] messages, whatever the
    pieces in which the bytes arrive; the next read reports how the stream ended. *)
Theorem stream_roundtrip {crypto : CryptoLib} {laws : CryptoLaws crypto} {R W : Type}
    {reader : AsyncRead R} {writer : AsyncWrite W} (network : Network) (ms : list Message)
    (w w' : W) (r : R) :
  Forall message_ok ms →
  written w = [] → sfor ms (write_message network) w = (Ok (), w') → incoming r = written w' →
  (∃ frames, rmap (frame network) ms = Ok frames ∧ written w' = concat frames) ∧
  ∃ s' s'', framed_read_n network (length ms) ([], r) = (Ok (map wire_view ms), s') ∧
            framed_read_message network s' = (Err (end_error "read" (ending r)), s'').
Proof.
  intros Hok Hw Hrun Hin. apply write_messages_Ok in Hrun as (frames&Hf&Hw').
  rewrite Hw in Hw'. simpl in Hw'. split; [by exists frames|].
  destruct (framed_read_frames network ms Hok frames [] [] r Hf) as ([b r']&Hs&Hv&He).
  { unfold view. simpl. by rewrite Hin, Hw', (right_id_L [] (++)). }
  destruct (framed_read_spec network b r') as (b2&r2&_&H2). rewrite Hv in H2. simpl in H2, He.
  destruct H2 as [H2 _]. rewrite He in H2. eauto.
Qed.

(** A socket that delivers one byte at a time and then closes, and a buffer to write to. *)
Program Definition dribble : AsyncRead (list byte) := {|
  read := λ _ r, match r with [] => (Some [], []) | b :: r' => (Some [b], r') end;
  read_buf := λ r, match r with [] => (Some [], []) | b :: r' => (Some [b], r') end;
  incoming := λ r, r;
  ending := λ _, Closed
|}.
Next Obligation. intros limit [|b r] Hl Hr; [done|]. exists [b], r. by split_and!. Qed.
Next Obligation. intros limit r _ ->. by exists []. Qed.
Next Obligation. intros [|b r] Hr; [done|]. exists [b], r. by split_and!. Qed.
Next Obligation. intros r ->. by exists []. Qed.

Program Definition byte_buffer : AsyncWrite (list byte) := {|
  write_all := λ bs w, (true, w ++ bs);
  flush := λ w, (true, w);
  written := λ w, w
|}.
Next Obligation. by intros bs w w' [= <-]. Qed.
Next Obligation. done. Qed.

Definition sample_messages : list Message :=
  [msg_version (default_version_message 1 2 3); msg_verack;
   msg_inv [{| inv_type := InvBlock; inv_hash := replicate 32 x07 |}]].

Definition sample_run : Result NetError () * list byte :=
  sfor sample_messages (write_message (crypto := toy_crypto) (writer := byte_buffer) Testnet) [].

Lemma stream_roundtrip_witness :
  ∃ s' s'',
    sample_run.1 = Ok () ∧
    framed_read_n (crypto := toy_crypto) (reader := dribble) Testnet 3 ([], sample_run.2) =
      (Ok sample_messages, s') ∧
    framed_read_message (crypto := toy_crypto) (reader := dribble) Testnet s' =
      (Err ConnectionClosed, s'').
Proof.
  assert (sample_run = (Ok (), sample_run.2)) as Hrun by (vm_compute; reflexivity).
  destruct (stream_roundtrip (crypto := toy_crypto) (laws := toy_laws) (reader := dribble)
    (writer := byte_buffer) Testnet sample_messages [] sample_run.2 sample_run.2)
    as (_&s'&s''&H1&H2); [|reflexivity|exact Hrun|reflexivity|].
  { apply Forall_cons_2; [|apply Forall_cons_2; [by split|]].
    - apply conj; [reflexivity|]. apply conj; [|discriminate].
      unfold version_wf, in_i, in_u. split_and!; reflexivity || discriminate.
    - apply Forall_cons_2; [|constructor]. apply conj; [reflexivity|].
      apply conj; [|discriminate]. apply Forall_cons_2; [reflexivity|constructor]. }
  exists s', s''. split; [by rewrite Hrun|]. split; [exact H1|exact H2].
Defined.
