(* ===== verification/Handshake.v ===== *)
(** * The version/verack handshake (bitrst-net/src/handshake.rs and the loop of peer.rs)

    [HandshakeState] as the code has it; [handshake_loop] is the [while] of [run_peer] on the
    messages the peer sends; [hs_step] interleaves the loops of the two ends of one
    connection.  The clock and the timeout are not modelled. *)

From stdpp Require Import prelude strings list.
From Stdlib Require Import Strings.Byte.
From S2P Require Import Prelude Bytes Crypto Wire Transaction Message.

Local Open Scope string_scope.
Local Open Scope Z_scope.
Local Open Scope list_scope.

(** ** The state machine *)

Inductive ConnectionDirection := Outbound | Inbound.
#[global] Instance ConnectionDirection_eq_dec : EqDecision ConnectionDirection.
Proof. solve_decision. Defined.

Record HandshakeConfig := { local_nonce : Z; hs_timeout : Z }.

Inductive HandshakePhase := AwaitingVersion | AwaitingPeerVersion | AwaitingVerack | Established.
#[global] Instance HandshakePhase_eq_dec : EqDecision HandshakePhase.
Proof. solve_decision. Defined.

Record HandshakeState := {
  direction : ConnectionDirection;
  config : HandshakeConfig;
  phase : HandshakePhase;
  peer_version : option VersionMessage
}.

Definition new_handshake (direction : ConnectionDirection) (config : HandshakeConfig)
    : HandshakeState := {|
  direction := direction;
  config := config;
  phase := match direction with Outbound => AwaitingPeerVersion | Inbound => AwaitingVersion end;
  peer_version := None
|}.

Definition set_phase (p : HandshakePhase) (h : HandshakeState) : HandshakeState :=
  {| direction := direction h; config := config h; phase := p; peer_version := peer_version h |}.
Definition set_peer_version (v : VersionMessage) (h : HandshakeState) : HandshakeState :=
  {| direction := direction h; config := config h; phase := phase h; peer_version := Some v |}.

Definition initial_outbound_messages (h : HandshakeState) (version : VersionMessage)
    : list Message :=
  if bool_decide (direction h = Outbound) && bool_decide (phase h = AwaitingPeerVersion)
  then [msg_version version] else [].

Definition validate_peer_version (h : HandshakeState) (version : VersionMessage)
    : Result NetError unit :=
  if vm_nonce version =? local_nonce (config h) then Err SelfConnection else Ok ().

Definition on_message (message : Message) (local_version : option VersionMessage)
    : SM HandshakeState NetError (list Message) :=
  let! h := sget in
  match phase h, payload message with
  | AwaitingVersion, PVersion version =>
      do! slift (validate_peer_version h version) ;;
      do! smodify (set_peer_version version) ;;
      do! smodify (set_phase AwaitingVerack) ;;
      let! local := slift (ok_or local_version
        (HandshakeViolation "missing local version for inbound handshake")) in
      sret [msg_version local; msg_verack]
  | AwaitingPeerVersion, PVersion version =>
      do! slift (validate_peer_version h version) ;;
      do! smodify (set_peer_version version) ;;
      do! smodify (set_phase AwaitingVerack) ;;
      sret [msg_verack]
  | AwaitingVerack, PVerack =>
      do! smodify (set_phase Established) ;;
      sret []
  | Established, _ => sret []
  | _, _ => sthrow (HandshakeViolation "unexpected handshake message")
  end.

(** [while handshake.phase() != Established]: the replies sent, or [None] when the peer has
    sent no more messages. *)
Fixpoint handshake_loop (inbox : list Message) (local : VersionMessage)
    : SM HandshakeState NetError (option (list Message)) := λ h,
  if bool_decide (phase h = Established) then (Ok (Some []), h)
  else
    match inbox with
    | [] => (Ok None, h)
    | message :: inbox =>
        (let! replies := on_message message
           (if bool_decide (direction h = Inbound) then Some local else None) in
         let! more := handshake_loop inbox local in
         sret (app replies <$> more)) h
    end.

(** ** Two peers *)

(** The two ends of a connection and the messages under way in each direction. *)
Record Connection := {
  opener : Result NetError HandshakeState;
  acceptor : Result NetError HandshakeState;
  to_acceptor : list Message;
  to_opener : list Message
}.

(** One end takes its next message; an error ends its task. *)
Definition deliver (message : Message) (local : VersionMessage) (h : HandshakeState)
    : Result NetError HandshakeState * list Message :=
  match on_message message (if bool_decide (direction h = Inbound) then Some local else None) h with
  | (Ok replies, h') => (Ok h', replies)
  | (Err e, _) => (Err e, [])
  | (Panic, _) => (Panic, [])
  end.

Inductive hs_step (va vb : VersionMessage) : Connection → Connection → Prop :=
| step_acceptor a b message q p :
    phase b ≠ Established →
    hs_step va vb
      {| opener := a; acceptor := Ok b; to_acceptor := message :: q; to_opener := p |}
      {| opener := a; acceptor := (deliver message vb b).1; to_acceptor := q;
         to_opener := p ++ (deliver message vb b).2 |}
| step_opener a b message q p :
    phase a ≠ Established →
    hs_step va vb
      {| opener := Ok a; acceptor := b; to_acceptor := q; to_opener := message :: p |}
      {| opener := (deliver message va a).1; acceptor := b;
         to_acceptor := q ++ (deliver message va a).2; to_opener := p |}.

(** The opener has sent its [version]. *)
Definition connection_start (ca cb : HandshakeConfig) (va : VersionMessage) : Connection :=
  let a := new_handshake Outbound ca in
  {| opener := Ok a; acceptor := Ok (new_handshake Inbound cb);
     to_acceptor := initial_outbound_messages a va; to_opener := [] |}.

(** ** Lemmas *)

Lemma on_message_established m local h :
  phase h = Established → on_message m local h = (Ok [], h).
Proof. intros Hh. unfold on_message, sbind, sget. rewrite Hh. by destruct (payload m). Qed.

(** A first message that is acceptable is a [version] of another node. *)
Lemma loop_awaiting_verack h inbox local :
  phase h = AwaitingVerack →
  handshake_loop inbox local h =
    match inbox with
    | [] => (Ok None, h)
    | m :: inbox' =>
        match payload m with
        | PVerack => (Ok (Some []), set_phase Established h)
        | _ => (Err (HandshakeViolation "unexpected handshake message"), h)
        end
    end.
Proof.
  intros Hh. destruct inbox as [|m inbox]; cbn [handshake_loop]; rewrite bool_decide_false by congruence.
  { done. }
  unfold on_message, sbind, sget. rewrite Hh. destruct (payload m); try done.
  unfold smodify, sret. destruct inbox; simpl; done.
Qed.

(** The phase that waits for the [version] of the peer. *)
Definition awaits_version (h : HandshakeState) : Prop :=
  phase h = match direction h with Outbound => AwaitingPeerVersion | Inbound => AwaitingVersion end.

Definition version_replies (d : ConnectionDirection) (local : VersionMessage) : list Message :=
  match d with Outbound => [msg_verack] | Inbound => [msg_version local; msg_verack] end.

Lemma on_message_version h m v local :
  awaits_version h → payload m = PVersion v →
  on_message m (if bool_decide (direction h = Inbound) then Some local else None) h =
    if vm_nonce v =? local_nonce (config h) then (Err SelfConnection, h)
    else (Ok (version_replies (direction h) local),
          {| direction := direction h; config := config h; phase := AwaitingVerack;
             peer_version := Some v |}).
Proof.
  intros Hh Hm. unfold on_message, sbind, sget. rewrite Hm. unfold awaits_version in Hh.
  unfold validate_peer_version, slift. rewrite Hh.
  destruct (direction h) eqn:Hd; destruct (vm_nonce v =? _); try done.
  all: unfold smodify, set_phase, set_peer_version; simpl; by rewrite ?Hd.
Qed.

Lemma on_message_other h m local :
  awaits_version h → (∀ v, payload m ≠ PVersion v) →
  on_message m local h = (Err (HandshakeViolation "unexpected handshake message"), h).
Proof.
  intros Hh Hm. unfold on_message, sbind, sget. unfold awaits_version in Hh. rewrite Hh.
  destruct (direction h), (payload m); try done; by destruct (Hm version).
Qed.

(** The states an end goes through. *)
Definition with_version (h : HandshakeState) (p : HandshakePhase) (v : VersionMessage)
    : HandshakeState :=
  {| direction := direction h; config := config h; phase := p; peer_version := Some v |}.

Lemma deliver_version h m v local :
  awaits_version h → payload m = PVersion v → vm_nonce v ≠ local_nonce (config h) →
  deliver m local h = (Ok (with_version h AwaitingVerack v), version_replies (direction h) local).
Proof.
  intros Hh Hm Hn. unfold deliver. rewrite (on_message_version h m v local) by done.
  by destruct (Z.eqb_spec (vm_nonce v) (local_nonce (config h))).
Qed.

Lemma deliver_verack h v local :
  deliver msg_verack local (with_version h AwaitingVerack v) =
    (Ok (with_version h Established v), []).
Proof. done. Qed.

Section two_peers.
Context (ca cb : HandshakeConfig) (va vb : VersionMessage).
Let a0 := new_handshake Outbound ca.
Let b0 := new_handshake Inbound cb.

(** The connections reachable when neither nonce is the other end's. *)
Inductive honest_stage : nat → Connection → Prop :=
| stage0 : honest_stage 0 {| opener := Ok a0; acceptor := Ok b0;
    to_acceptor := [msg_version va]; to_opener := [] |}
| stage1 : honest_stage 1 {| opener := Ok a0; acceptor := Ok (with_version b0 AwaitingVerack va);
    to_acceptor := []; to_opener := [msg_version vb; msg_verack] |}
| stage2 : honest_stage 2 {| opener := Ok (with_version a0 AwaitingVerack vb);
    acceptor := Ok (with_version b0 AwaitingVerack va);
    to_acceptor := [msg_verack]; to_opener := [msg_verack] |}
| stage3a : honest_stage 3 {| opener := Ok (with_version a0 AwaitingVerack vb);
    acceptor := Ok (with_version b0 Established va); to_acceptor := []; to_opener := [msg_verack] |}
| stage3b : honest_stage 3 {| opener := Ok (with_version a0 Established vb);
    acceptor := Ok (with_version b0 AwaitingVerack va); to_acceptor := [msg_verack]; to_opener := [] |}
| stage4 : honest_stage 4 {| opener := Ok (with_version a0 Established vb);
    acceptor := Ok (with_version b0 Established va); to_acceptor := []; to_opener := [] |}.

Context (Ha : vm_nonce va ≠ local_nonce cb) (Hb : vm_nonce vb ≠ local_nonce ca).

Lemma honest_stage_step n c c' :
  honest_stage n c → hs_step va vb c c' → honest_stage (S n) c'.
Proof.
  intros Hc Hs. destruct Hc; inversion Hs; subst; try (by exfalso; auto).
  - rewrite (deliver_version b0 _ va) by done. constructor.
  - rewrite (deliver_version a0 _ vb) by done. constructor.
  - rewrite deliver_verack. constructor.
  - rewrite deliver_verack. constructor.
  - rewrite deliver_verack. constructor.
  - rewrite deliver_verack. constructor.
Qed.

Lemma honest_stage_progress n c :
  honest_stage n c → n = 4%nat ∨ ∃ c', hs_step va vb c c'.
Proof.
  intros Hc. destruct Hc; [right; eexists; by constructor..| |by left].
  right. eexists. by constructor.
Qed.

Lemma honest_stages n c :
  nsteps (hs_step va vb) n (connection_start ca cb va) c → honest_stage n c.
Proof.
  intros Hn. assert (∀ k c0, honest_stage k c0 → nsteps (hs_step va vb) n c0 c →
    honest_stage (k + n) c) as Hgen.
  { clear Hn. induction n as [|n IH]; intros k c0 Hk Hn; inversion Hn; subst.
    - by rewrite Nat.add_0_r.
    - rewrite Nat.add_succ_r. apply (IH (S k) y); [by eapply honest_stage_step|done]. }
  apply (Hgen 0%nat _ stage0 Hn).
Qed.
End two_peers.

(** ** Properties *)

(** The outcome of the handshake loop on whatever the peer sends.  The
    handshake is established exactly by a [version] whose nonce is not this node's followed
    by a [verack], after answering with the messages of the connection's direction; its own
    nonce ends it as a self-connection before anything is sent; anything else, a second
    [version] or an application message included, is a violation; with fewer messages the
    loop is still waiting. *)
Theorem handshake_loop_exact (d : ConnectionDirection) (cfg : HandshakeConfig)
    (local : VersionMessage) (inbox : list Message) :
  let h := new_handshake d cfg in
  let violation := Err (HandshakeViolation "unexpected handshake message") in
  handshake_loop inbox local h =
  match inbox with
  | [] => (Ok None, h)
  | first :: rest =>
      match payload first with
      | PVersion v =>
          if decide (vm_nonce v = local_nonce cfg) then (Err SelfConnection, h)
          else
            let h1 := with_version h AwaitingVerack v in
            match payload <$> head rest with
            | None => (Ok None, h1)
            | Some PVerack => (Ok (Some (version_replies d local)), with_version h Established v)
            | Some _ => (violation, h1)
            end
      | _ => (violation, h)
      end
  end.
Proof.
  intros h violation. assert (awaits_version h) as Hh by (by destruct d).
  assert (phase h ≠ Established) as Hp by (by destruct d).
  destruct inbox as [|m inbox]; cbn [handshake_loop]; rewrite bool_decide_false by done; [done|].
  destruct (payload m) as [|v| | | |] eqn:Hm.
  2: { unfold sbind at 1. rewrite (on_message_version h m v local Hh Hm).
       change (local_nonce (config h)) with (local_nonce cfg).
       case_decide as Hn; destruct (Z.eqb_spec (vm_nonce v) (local_nonce cfg)); try done.
       unfold sbind. rewrite loop_awaiting_verack by done.
       destruct inbox as [|m2 inbox]; simpl; [done|].
       destruct (payload m2); try done. simpl. by rewrite (right_id_L [] (++)). }
  all: rewrite (sbind_run_Err _ _ _ _ _ (on_message_other h m _ Hh ltac:(congruence))); done.
Qed.

(** C31 (liveness): two ends that do not share a nonce always complete the handshake.  In
    every interleaving of their deliveries no end fails, at most four deliveries happen, and
    as long as fewer have happened another is possible; when no message is left both ends
    are established and each holds the other's [version]. *)
Theorem two_peers_establish (ca cb : HandshakeConfig) (va vb : VersionMessage) (n : nat)
    (c : Connection) :
  vm_nonce va ≠ local_nonce cb → vm_nonce vb ≠ local_nonce ca →
  nsteps (hs_step va vb) n (connection_start ca cb va) c →
  (n ≤ 4)%nat ∧ ((n < 4)%nat → ∃ c', hs_step va vb c c') ∧
  ∃ a b, opener c = Ok a ∧ acceptor c = Ok b ∧
    (n = 4%nat → phase a = Established ∧ peer_version a = Some vb ∧
                 phase b = Established ∧ peer_version b = Some va ∧
                 to_acceptor c = [] ∧ to_opener c = []).
Proof.
  intros Ha Hb Hn%honest_stages; [|done..]. split; [by destruct Hn; lia|]. split.
  - intros Hlt. destruct (honest_stage_progress ca cb va vb n c Hn); [lia|done].
  - destruct Hn; eexists _, _; (split; [done|]); (split; [done|]); try (intros; lia). done.
Qed.

(** A node that connects to itself is never established on either end: its
    nonce is recognised by the accepting end, which fails, and the opening end is left
    without an answer. *)
Theorem self_connection_rejected (cfg : HandshakeConfig) (va vb : VersionMessage) (c : Connection) :
  vm_nonce va = local_nonce cfg →
  rtc (hs_step va vb) (connection_start cfg cfg va) c →
  c = connection_start cfg cfg va ∨
  (acceptor c = Err SelfConnection ∧ opener c = Ok (new_handshake Outbound cfg) ∧
   to_opener c = [] ∧ ∀ c', ¬ hs_step va vb c c').
Proof.
  intros Hn. apply (rtc_ind_r (λ c,
    c = connection_start cfg cfg va ∨
    (acceptor c = Err SelfConnection ∧ opener c = Ok (new_handshake Outbound cfg) ∧
     to_opener c = [] ∧ ∀ c', ¬ hs_step va vb c c'))); [by left|].
  intros c1 c2 _ Hs [->|(_&_&_&Hstuck)]; [|by destruct (Hstuck c2)]. right.
  inversion Hs; subst. simpl in *. unfold deliver.
  rewrite (on_message_version (new_handshake Inbound cfg) (msg_version va) va vb) by done.
  change (local_nonce (config (new_handshake Inbound cfg))) with (local_nonce cfg).
  rewrite Hn, Z.eqb_refl. simpl. split_and!; try done. intros c' Hc'. inversion Hc'.
Qed.

(** ** Examples *)

Definition config_1 : HandshakeConfig := {| local_nonce := 1; hs_timeout := 60 |}.
Definition config_2 : HandshakeConfig := {| local_nonce := 2; hs_timeout := 60 |}.
Definition version_1 : VersionMessage := default_version_message 1 1700000000 0.
Definition version_2 : VersionMessage := default_version_message 2 1700000001 5.

Lemma run_to_stage4 :
  nsteps (hs_step version_1 version_2) 4 (connection_start config_1 config_2 version_1)
    {| opener := Ok (with_version (new_handshake Outbound config_1) Established version_2);
       acceptor := Ok (with_version (new_handshake Inbound config_2) Established version_1);
       to_acceptor := []; to_opener := [] |}.
Proof.
  eapply nsteps_l; [by apply step_acceptor|]. eapply nsteps_l; [by apply step_opener|].
  eapply nsteps_l; [by apply step_acceptor|]. eapply nsteps_l; [by apply step_opener|].
  apply nsteps_O.
Qed.

Lemma two_peers_establish_witness :
  ∃ a b,
    Ok (with_version (new_handshake Outbound config_1) Established version_2) = @Ok NetError _ a ∧
    Ok (with_version (new_handshake Inbound config_2) Established version_1) = @Ok NetError _ b ∧
    (4%nat = 4%nat → phase a = Established ∧ peer_version a = Some version_2 ∧
       phase b = Established ∧ peer_version b = Some version_1 ∧
       @nil Message = [] ∧ @nil Message = []).
Proof.
  exact (proj2 (proj2 (two_peers_establish config_1 config_2 version_1 version_2 4 _
    ltac:(discriminate) ltac:(discriminate) run_to_stage4))).
Defined.

Lemma self_connection_rejected_witness :
  ∃ c, rtc (hs_step version_1 version_1) (connection_start config_1 config_1 version_1) c ∧
    (c = connection_start config_1 config_1 version_1 ∨
     acceptor c = Err SelfConnection ∧ opener c = Ok (new_handshake Outbound config_1) ∧
     to_opener c = [] ∧ ∀ c', ¬ hs_step version_1 version_1 c c').
Proof.
  assert (rtc (hs_step version_1 version_1) (connection_start config_1 config_1 version_1)
    {| opener := Ok (new_handshake Outbound config_1); acceptor := Err SelfConnection;
       to_acceptor := []; to_opener := [] |}) as Hrun.
  { eapply rtc_l; [by apply step_acceptor|]. apply rtc_refl. }
  eexists. split; [exact Hrun|].
  exact (self_connection_rejected config_1 version_1 version_1 _ eq_refl Hrun).
Defined.
