(* ===== verification/Capacity.v ===== *)
(** * Inbound slot reservation (bitrst-net/src/inbound_capacity.rs)

    [try_acquire] is a compare-and-swap loop on an atomic counter that any number of tasks
    run concurrently; dropping a guard decrements the counter.  [cap_step] interleaves the
    atomic operations of the tasks; a weak compare-exchange may fail spuriously.  [usize] is
    64 bits wide. *)

From stdpp Require Import prelude list.
From S2P Require Import Prelude Bytes.

Local Open Scope Z_scope.

(** ** Definitions *)

(** Where a task is: not in a call or about to load, after the load, holding a guard,
    refused. *)
Inductive Task := Trying | Loaded (current : Z) | Holding | Refused.
#[global] Instance Task_eq_dec : EqDecision Task.
Proof. solve_decision. Defined.

Record InboundCapacity := { active : Z; max_inbound : Z; tasks : list Task }.

Definition new_capacity (max : Z) (n : nat) : InboundCapacity :=
  {| active := 0; max_inbound := max; tasks := replicate n Trying |}.

Definition set_task (i : nat) (t : Task) (new_active : Z) (s : InboundCapacity) : InboundCapacity :=
  {| active := new_active; max_inbound := max_inbound s; tasks := <[i := t]> (tasks s) |}.

(** [self.active.load()], and the return of [None]. *)
Definition load (s : InboundCapacity) : Task :=
  if max_inbound s <=? active s then Refused else Loaded (active s).

(** [compare_exchange_weak(current, current + 1)]: the new counter and whether it succeeded. *)
Definition compare_exchange (spurious : bool) (current : Z) (s : InboundCapacity) : Z * bool :=
  if negb spurious && (active s =? current) then ((current + 1) mod 2 ^ 64, true)
  else (active s, false).

(** [fetch_sub(1)] *)
Definition release (s : InboundCapacity) : Z := (active s - 1) mod 2 ^ 64.

Inductive cap_step : InboundCapacity → InboundCapacity → Prop :=
| cap_load s i :
    tasks s !! i = Some Trying → cap_step s (set_task i (load s) (active s) s)
| cap_exchange s i current spurious new_active ok :
    tasks s !! i = Some (Loaded current) →
    compare_exchange spurious current s = (new_active, ok) →
    cap_step s (set_task i (if ok : bool then Holding else Trying) new_active s)
| cap_release s i :
    tasks s !! i = Some Holding → cap_step s (set_task i Trying (release s) s)
| cap_retry s i :
    tasks s !! i = Some Refused → cap_step s (set_task i Trying (active s) s).

(** The whole call, when no other task runs in between. *)
Definition try_acquire (s : InboundCapacity) : Task * Z :=
  match load s with
  | Loaded current =>
      let '(new_active, ok) := compare_exchange false current s in
      (if ok : bool then Holding else Trying, new_active)
  | t => (t, active s)
  end.

(** ** Specification *)

Definition holders (s : InboundCapacity) : Z := zlen (filter (λ t, t = Holding) (tasks s)).

Definition cap_inv (s : InboundCapacity) : Prop :=
  active s = holders s ∧ holders s ≤ max_inbound s ∧
  Forall (λ t, match t with Loaded current => 0 ≤ current < max_inbound s | _ => True end) (tasks s).

(** ** Lemmas *)

Definition held (t : Task) : Z := if decide (t = Holding) then 1 else 0.

Lemma holders_insert (l : list Task) i t t' :
  l !! i = Some t →
  zlen (filter (λ t, t = Holding) (<[i := t']> l)) =
    zlen (filter (λ t, t = Holding) l) - held t + held t'.
Proof.
  intros Hi. rewrite (insert_take_drop l i t' (lookup_lt_Some _ _ _ Hi)).
  rewrite <- (take_drop_middle l i t Hi) at 3.
  rewrite !filter_app, !zlen_app, !filter_cons. unfold held.
  repeat case_decide; rewrite ?zlen_cons; lia.
Qed.

Lemma holders_nonneg s : 0 ≤ holders s.
Proof. apply zlen_nonneg. Qed.

Lemma cap_inv_step s s' :
  max_inbound s < 2 ^ 64 → cap_inv s → cap_step s s' →
  cap_inv s' ∧ max_inbound s' = max_inbound s.
Proof.
  intros Hmax (Ha&Hm&Ht) Hs. split; [|by destruct Hs]. unfold cap_inv, holders in *.
  pose proof (holders_nonneg s) as Hnn. unfold holders in Hnn.
  destruct Hs as [s i Hi|s i current spurious na ok Hi Hc|s i Hi|s i Hi]; simpl in *.
  - rewrite (holders_insert _ i Trying) by done. unfold load, held in *.
    destruct (Z.leb_spec (max_inbound s) (active s)); repeat case_decide; try done.
    + split_and!; [lia|lia|]. by apply Forall_insert.
    + split_and!; [lia|lia|]. apply Forall_insert; [done|]. lia.
  - rewrite (holders_insert _ i (Loaded current)) by done.
    assert (0 ≤ current < max_inbound s) as Hcur.
    { rewrite Forall_forall in Ht. apply (Ht (Loaded current)). by eapply list_elem_of_lookup_2. }
    unfold compare_exchange, held in *.
    destruct (negb spurious); simpl in Hc; [destruct (Z.eqb_spec (active s) current)|];
      injection Hc as <- <-; repeat case_decide; try done.
    + rewrite Z.mod_small by lia. split_and!; [lia|lia|]. by apply Forall_insert.
    + split_and!; [lia|lia|]. by apply Forall_insert.
    + split_and!; [lia|lia|]. by apply Forall_insert.
  - rewrite (holders_insert _ i Holding) by done. unfold release, held in *.
    assert (1 ≤ zlen (filter (λ t, t = Holding) (tasks s))) as Hpos.
    { assert (Holding ∈ filter (λ t, t = Holding) (tasks s)) as Hin.
      { apply list_elem_of_filter. split; [done|]. by eapply list_elem_of_lookup_2. }
      destruct (filter _ _) as [|t l]; [by apply elem_of_nil in Hin|]. rewrite zlen_cons.
      pose proof (zlen_nonneg l). lia. }
    rewrite Z.mod_small by lia.
    repeat case_decide; try done. split_and!; [lia|lia|by apply Forall_insert].
  - rewrite (holders_insert _ i Refused) by done. unfold held.
    repeat case_decide; try done. split_and!; [lia|lia|]. by apply Forall_insert.
Qed.

Lemma cap_inv_new max n : 0 ≤ max → cap_inv (new_capacity max n).
Proof.
  intros Hmax. unfold cap_inv, holders, new_capacity. simpl.
  assert (filter (λ t, t = Holding) (replicate n Trying) = []) as ->
    by (induction n as [|n IH]; [done|by simpl]).
  split_and!; [done|done|]. by apply Forall_replicate.
Qed.

(** ** Properties *)

(** C30 (invariant): however the tasks' loads, compare-exchanges (spurious failures included)
    and releases interleave, the counter is the number of guards alive, it never exceeds the
    limit and never wraps; and a call that finds the counter below the limit and is not
    disturbed takes exactly one slot, while one that finds it at the limit is refused. *)
Theorem inbound_slots_bounded (max : Z) (n : nat) (s : InboundCapacity) :
  0 ≤ max < 2 ^ 64 → rtc cap_step (new_capacity max n) s →
  active s = holders s ∧ holders s ≤ max ∧
  try_acquire s = (if decide (holders s < max) then (Holding, holders s + 1)
                   else (Refused, holders s)).
Proof.
  intros Hmax Hr.
  assert (cap_inv s ∧ max_inbound s = max) as [(Ha&Hm&_) Hmx].
  { revert Hr. apply (rtc_ind_r (λ s, cap_inv s ∧ max_inbound s = max)).
    - split; [apply cap_inv_new; lia|done].
    - intros s1 s2 _ Hs [Hi Hx]. destruct (cap_inv_step s1 s2) as [? Hx2]; [lia|done..|].
      split; [done|congruence]. }
  split; [done|]. split; [lia|]. unfold try_acquire, load. rewrite Hmx, Ha.
  pose proof (holders_nonneg s).
  destruct (Z.leb_spec max (holders s)); case_decide; try lia; [done|].
  unfold compare_exchange. rewrite Ha, Z.eqb_refl. simpl. by rewrite Z.mod_small by lia.
Qed.

Lemma inbound_slots_bounded_witness :
  ∃ s, tasks s = [Holding; Loaded 0] ∧
    active s = holders s ∧ holders s ≤ 1 ∧
    try_acquire s = (if decide (holders s < 1) then (Holding, holders s + 1)
                     else (Refused, holders s)).
Proof.
  assert (rtc cap_step (new_capacity 1 2)
    {| active := 1; max_inbound := 1; tasks := [Holding; Loaded 0] |}) as Hr.
  { eapply rtc_l; [by apply (cap_load _ 0)|]. eapply rtc_l; [by apply (cap_load _ 1)|].
    eapply rtc_l; [by apply (cap_exchange _ 0 0 false 1 true)|]. apply rtc_refl. }
  eexists. split; [|exact (inbound_slots_bounded 1 2 _ ltac:(split; done) Hr)]. reflexivity.
Defined.

(** The task that loaded before the slot was taken fails its exchange and is refused. *)
Example late_exchange_is_refused :
  let s := {| active := 1; max_inbound := 1; tasks := [Holding; Loaded 0] |} in
  compare_exchange false 0 s = (1, false) ∧ load s = Refused.
Proof. by vm_compute. Qed.
