(* ===== verification/Handles.v ===== *)
(** * Shared handles (bitrst-core/src/chain_handle.rs, mempool_handle.rs)

    An [Arc<RwLock<T>>]: the value and the poison flag of the standard library's lock, which a
    panic under a write guard sets.  Every method takes the lock for one call, so a method is
    one atomic step on the lock. *)

From stdpp Require Import prelude gmap strings list.
From Stdlib Require Import Strings.Byte.
From S2P Require Import Prelude Bytes Crypto U256 Wire Transaction Merkle Block Utxo Script.
From S2P Require Import Sighash Journal Store Chain Mempool.

Local Open Scope Z_scope.

(** ** Locks *)

Record RwLock (A : Type) := { contents : A; poisoned : bool }.
Arguments contents {A} _.
Arguments poisoned {A} _.

Definition new_lock {A} (a : A) : RwLock A := {| contents := a; poisoned := false |}.

(** A call under the read guard: the state does not change, and a panic does not poison. *)
Definition with_read {A E B} (err : E) (f : A → Result E B) (l : RwLock A) : Result E B :=
  if poisoned l then Err err else f (contents l).

(** A call under the write guard. *)
Definition with_write {A E B} (err : E) (m : SM A E B) : SM (RwLock A) E B := λ l,
  if poisoned l then (Err err, l)
  else
    let '(r, a) := m (contents l) in
    (r, {| contents := a; poisoned := match r with Panic => true | _ => false end |}).

(** [.map_err(From::from)] on a stateful call. *)
Definition smap_err {S E E' A} (f : E → E') (m : SM S E A) : SM S E' A := λ s,
  let '(r, s) := m s in (map_err f r, s).

Section handles.
Context {crypto : CryptoLib} {order : HashOrder} {flags : BuildFlags}.

(** ** [ChainHandle] *)

Definition ChainHandle := RwLock Chain.

Definition handle_new_genesis (genesis : Block) (network_time : Z) : Result ChainError ChainHandle :=
  let? chain := new_genesis genesis network_time in Ok (new_lock chain).

Definition with_chain {B} (f : Chain → B) (h : ChainHandle) : Result ChainError B :=
  with_read LockPoisoned (λ c, Ok (f c)) h.
Definition handle_tip_hash (h : ChainHandle) : Result ChainError (list byte) :=
  with_read LockPoisoned (λ c, Ok (tip_hash c)) h.
Definition handle_height (h : ChainHandle) : Result ChainError Z :=
  with_read LockPoisoned (λ c, Ok (height c)) h.
Definition handle_event_cursor (h : ChainHandle) : Result ChainError ChainEventCursor :=
  with_read LockPoisoned (λ c, Ok (event_cursor (event_journal c))) h.
Definition has_block (hash : list byte) (h : ChainHandle) : Result ChainError bool :=
  with_read LockPoisoned (λ c, Ok (has_block_hash c hash)) h.
Definition get_block (hash : list byte) (h : ChainHandle) : Result ChainError (option Block) :=
  with_read LockPoisoned (λ c, Ok (block_by_hash c hash)) h.

Definition handle_connect_block (block : Block) : SM ChainHandle ChainError ConnectResult :=
  with_write LockPoisoned (connect_block block).
Definition handle_set_network_time (t : Z) : SM ChainHandle ChainError unit :=
  with_write LockPoisoned (set_network_time t).
Definition handle_take_events : SM ChainHandle ChainError (list ChainEvent) :=
  with_write LockPoisoned chain_take_events.

(** [collect_events] reads the journal under the write lock and moves the caller's cursor. *)
Definition handle_collect_events
    : SM (ChainHandle * ChainEventCursor) ChainError (list ChainEvent) := λ '(h, cursor),
  if poisoned h then (Err LockPoisoned, (h, cursor))
  else
    let '(r, cursor) := collect_events (event_journal (contents h)) cursor in
    (map_err ErrEventCursor r, (h, cursor)).

(** ** [MempoolHandle] *)

Inductive MempoolHandleError :=
| PoolLockPoisoned
| Admission (e : MempoolError)
| Resync (e : DisconnectedBlockRecoveryError).

Definition MempoolHandle := RwLock Mempool.

Definition pool_with_limits (limits : MempoolLimits) : MempoolHandle := new_lock (new_mempool limits).

Definition pool_len (h : MempoolHandle) : Result MempoolHandleError Z :=
  with_read PoolLockPoisoned (λ p, Ok (mempool_len p)) h.
Definition pool_contains (txid : list byte) (h : MempoolHandle) : Result MempoolHandleError bool :=
  with_read PoolLockPoisoned (λ p, Ok (mempool_contains p txid)) h.
Definition pool_get_transaction (txid : list byte) (h : MempoolHandle)
    : Result MempoolHandleError (option Transaction) :=
  with_read PoolLockPoisoned (λ p, Ok (get_transaction p txid)) h.

Definition pool_accept_tx (tx : Transaction) (chain_utxo : UtxoSet)
    : SM MempoolHandle MempoolHandleError AcceptedTx :=
  with_write PoolLockPoisoned (smap_err Admission (accept_tx tx chain_utxo)).
Definition pool_apply_chain_events (events : list ChainEvent) (chain : Chain)
    : SM MempoolHandle MempoolHandleError unit :=
  with_write PoolLockPoisoned (smap_err Admission (apply_chain_events events chain)).
Definition pool_resync_to_active_chain (chain : Chain) (since_event_seq : Z)
    : SM MempoolHandle MempoolHandleError unit :=
  with_write PoolLockPoisoned (smap_err Resync (resync_to_active_chain chain since_event_seq)).
Definition pool_serve_transaction (txid : list byte) (chain_utxo : UtxoSet)
    : SM MempoolHandle MempoolHandleError (option Transaction) :=
  with_write PoolLockPoisoned (λ p,
    let '(tx, p) := serve_transaction txid chain_utxo p in (Ok tx, p)).
End handles.

(** ** Lemmas *)

Lemma with_write_run {A E B} (err : E) (m : SM A E B) l r a :
  poisoned l = false → m (contents l) = (r, a) →
  with_write err m l =
    (r, {| contents := a; poisoned := match r with Panic => true | _ => false end |}).
Proof. unfold with_write. by intros -> ->. Qed.

(** A call that never panics on good contents keeps the lock usable and the contents good. *)
Definition lock_ok {A} (P : A → Prop) (l : RwLock A) : Prop := poisoned l = false ∧ P (contents l).

Lemma with_write_lock_ok {A E B} (P : A → Prop) (err : E) (m : SM A E B) l r l' :
  (∀ a r a', P a → m a = (r, a') → r ≠ Panic ∧ P a') →
  lock_ok P l → with_write err m l = (r, l') → r ≠ Panic ∧ lock_ok P l'.
Proof.
  intros Hm [Hl HP]. destruct (m (contents l)) as [r1 a1] eqn:Hr.
  rewrite (with_write_run _ _ _ r1 a1) by done. intros [= <- <-].
  destruct (Hm _ _ _ HP Hr) as [Hnp HP1]. split; [done|]. split; [|done]. by destruct r1.
Qed.

Lemma smap_err_run {S E E' A} (f : E → E') (m : SM S E A) s r s' :
  smap_err f m s = (r, s') → ∃ r0, m s = (r0, s') ∧ r = map_err f r0.
Proof. unfold smap_err. destruct (m s) as [r0 s0]. intros [= <- <-]. by exists r0. Qed.
