(* ===== verification/Relay.v ===== *)
(** * Block and transaction relay (bitrst-net/src/relay.rs)

    The request trackers of one peer and the handler of its messages, over the shared chain
    and pool.  An [Instant] is an integer number of seconds.  The two trackers of the source
    are the same code for two kinds of objects; [tx_requests] is a [TxRequestTracker], the
    same record. *)

From stdpp Require Import prelude gmap strings list relations.
From Stdlib Require Import Strings.Byte.
From S2P Require Import Prelude Bytes Crypto U256 Wire Transaction Merkle Block Utxo Script.
From S2P Require Import Sighash Journal Store Chain Mempool Message Handles.

Local Open Scope Z_scope.
Local Open Scope list_scope.

(** ** Request trackers *)

Definition MAX_PENDING_BLOCK_REQUESTS : Z := 256.
Definition BLOCK_REQUEST_TTL `{BuildFlags} : Z := if test_short_period then 30 else 300.

Record PendingRequest := { requested_at : Z }.

Record BlockRequestTracker := {
  pending : gmap (list byte) PendingRequest;
  max_pending : Z;
  request_ttl : Z
}.
Definition TxRequestTracker := BlockRequestTracker.

Definition new_tracker (max_pending request_ttl : Z) : BlockRequestTracker :=
  {| pending := ∅; max_pending := max_pending; request_ttl := request_ttl |}.
Definition set_pending (p : gmap (list byte) PendingRequest) (t : BlockRequestTracker)
    : BlockRequestTracker :=
  {| pending := p; max_pending := max_pending t; request_ttl := request_ttl t |}.

(** [now.saturating_duration_since(requested_at) < ttl] *)
Definition live (now ttl : Z) (r : PendingRequest) : bool := Z.max 0 (now - requested_at r) <? ttl.

Definition expire_before (now : Z) (t : BlockRequestTracker) : BlockRequestTracker :=
  set_pending (filter (λ '(_, r), live now (request_ttl t) r = true) (pending t)) t.
Definition pending_count (t : BlockRequestTracker) : Z := Z.of_nat (size (pending t)).

Definition mark_requested (hash : list byte) (now : Z) (t : BlockRequestTracker)
    : bool * BlockRequestTracker :=
  let t := expire_before now t in
  if bool_decide (is_Some (pending t !! hash)) then (false, t)
  else if max_pending t <=? pending_count t then (false, t)
  else (true, set_pending (<[hash := {| requested_at := now |}]> (pending t)) t).

Definition clear (hash : list byte) (t : BlockRequestTracker) : BlockRequestTracker :=
  set_pending (delete hash (pending t)) t.

(** ** Per-peer state and results *)

Record PeerRelayState := {
  block_requests : BlockRequestTracker;
  tx_requests : TxRequestTracker;
  chain_events : ChainEventCursor
}.

Inductive RelayAction :=
| NoAction
| Reply (messages : list Message)
| Announce (items : list InventoryVector).

Inductive RelayError :=
| RelayChain (e : ChainError)
| RelayMempool (e : MempoolHandleError).

(** What one call of [handle_peer_message] works on. *)
Record Node := { n_chain : ChainHandle; n_pool : MempoolHandle; n_relay : PeerRelayState }.
Definition RM := SM Node RelayError.

Definition set_chain (h : ChainHandle) (n : Node) : Node :=
  {| n_chain := h; n_pool := n_pool n; n_relay := n_relay n |}.
Definition set_pool (h : MempoolHandle) (n : Node) : Node :=
  {| n_chain := n_chain n; n_pool := h; n_relay := n_relay n |}.
Definition set_relay (r : PeerRelayState) (n : Node) : Node :=
  {| n_chain := n_chain n; n_pool := n_pool n; n_relay := r |}.
Definition set_cursor (cursor : ChainEventCursor) (n : Node) : Node :=
  set_relay {| block_requests := block_requests (n_relay n); tx_requests := tx_requests (n_relay n);
               chain_events := cursor |} n.
Definition set_block_requests (t : BlockRequestTracker) (n : Node) : Node :=
  set_relay {| block_requests := t; tx_requests := tx_requests (n_relay n);
               chain_events := chain_events (n_relay n) |} n.
Definition set_tx_requests (t : TxRequestTracker) (n : Node) : Node :=
  set_relay {| block_requests := block_requests (n_relay n); tx_requests := t;
               chain_events := chain_events (n_relay n) |} n.

Section relay.
Context {crypto : CryptoLib} {order : HashOrder} {flags : BuildFlags}.

Definition default_tracker : BlockRequestTracker :=
  new_tracker MAX_PENDING_BLOCK_REQUESTS BLOCK_REQUEST_TTL.
Definition with_event_cursor (cursor : ChainEventCursor) : PeerRelayState :=
  {| block_requests := default_tracker; tx_requests := default_tracker; chain_events := cursor |}.

(** Calls on the shared parts. *)
Definition read_chain {B} (f : ChainHandle → Result ChainError B) : RM B := λ n,
  (map_err RelayChain (f (n_chain n)), n).
Definition read_pool {B} (f : MempoolHandle → Result MempoolHandleError B) : RM B := λ n,
  (map_err RelayMempool (f (n_pool n)), n).

(** [chain.with_chain(|active| mempool.f(.., active))], both errors converted. *)
Definition with_chain_on_pool {B} (f : Chain → SM MempoolHandle MempoolHandleError B) : RM B := λ n,
  if poisoned (n_chain n) then (Err (RelayChain LockPoisoned), n)
  else
    let '(r, pool) := f (contents (n_chain n)) (n_pool n) in
    (map_err RelayMempool r, set_pool pool n).

Definition mark_block_requested (hash : list byte) (now : Z) : RM bool := λ n,
  let '(fresh, t) := mark_requested hash now (block_requests (n_relay n)) in
  (Ok fresh, set_block_requests t n).
Definition mark_tx_requested (hash : list byte) (now : Z) : RM bool := λ n,
  let '(fresh, t) := mark_requested hash now (tx_requests (n_relay n)) in
  (Ok fresh, set_tx_requests t n).
Definition clear_block_request (hash : list byte) : RM unit :=
  smodify (λ n, set_block_requests (clear hash (block_requests (n_relay n))) n).
Definition clear_tx_request (hash : list byte) : RM unit :=
  smodify (λ n, set_tx_requests (clear hash (tx_requests (n_relay n))) n).

(** ** Handlers *)

Definition sync_mempool : RM unit := λ n,
  match handle_collect_events (n_chain n, chain_events (n_relay n)) with
  | (Ok events, (_, cursor)) =>
      let n := set_cursor cursor n in
      if bool_decide (events = []) then (Ok (), n)
      else with_chain_on_pool (pool_apply_chain_events events) n
  | (Err (ErrEventCursor _), (_, cursor)) =>
      let since_seq := last_seq cursor in
      (let! fresh := read_chain handle_event_cursor in
       do! smodify (set_cursor fresh) ;;
       with_chain_on_pool (λ active, pool_resync_to_active_chain active since_seq)) n
  | (Err e, (_, cursor)) => (Err (RelayChain e), set_cursor cursor n)
  | (Panic, _) => (Panic, n)
  end.

Definition handle_tx (tx : Transaction) : RM RelayAction :=
  let txid := tx_id tx in
  do! clear_tx_request txid ;;
  λ n, match with_chain_on_pool (λ active, pool_accept_tx tx (utxo active)) n with
       | (Ok accepted, n) =>
           (Ok (Announce [{| inv_type := InvTransaction; inv_hash := at_txid accepted |}]), n)
       | (Err (RelayMempool (Admission _)), n) => (Ok NoAction, n)
       | (Err e, n) => (Err e, n)
       | (Panic, n) => (Panic, n)
       end.

Definition request_missing_block (hash : list byte) (now : Z) : RM RelayAction :=
  let! known := read_chain (has_block hash) in
  if known : bool then sret NoAction
  else
    let! fresh := mark_block_requested hash now in
    if negb fresh then sret NoAction
    else sret (Reply [msg_getdata [{| inv_type := InvBlock; inv_hash := hash |}]]).

Definition handle_block (block : Block) (now : Z) : RM RelayAction :=
  let hash := block_hash block in
  let parent_hash := prev_blockhash (header block) in
  λ n, let '(r, chain) := handle_connect_block block (n_chain n) in
       let n := set_chain chain n in
       match r with
       | Ok (Connected _ _) | Ok (Reorganized _ _) =>
           (do! clear_block_request hash ;;
            do! sync_mempool ;;
            sret (Announce [{| inv_type := InvBlock; inv_hash := hash |}])) n
       | Ok (Orphaned _) => request_missing_block parent_hash now n
       | Ok (SideChain _ _) => (Ok NoAction, n)
       | Err BlockAlreadyKnown => (Ok NoAction, n)
       | Err e =>
           (do! clear_block_request hash ;;
            do! clear_block_request parent_hash ;;
            sthrow (RelayChain e)) n
       | Panic => (Panic, n)
       end.

(** The body of the loop of [handle_inv]: whether the item is to be requested. *)
Definition wanted (item : InventoryVector) (now : Z) : RM bool :=
  match inv_type item with
  | InvBlock =>
      let! known := read_chain (has_block (inv_hash item)) in
      if known : bool then sret false else mark_block_requested (inv_hash item) now
  | InvTransaction =>
      let! known := read_pool (pool_contains (inv_hash item)) in
      if known : bool then sret false else mark_tx_requested (inv_hash item) now
  | InvFilteredBlock => sret false
  end.
Fixpoint collect_requests (items : list InventoryVector) (now : Z) : RM (list InventoryVector) :=
  match items with
  | [] => sret []
  | item :: items =>
      let! want := wanted item now in
      let! requests := collect_requests items now in
      sret (if want : bool then item :: requests else requests)
  end.
Definition handle_inv (items : list InventoryVector) (now : Z) : RM RelayAction :=
  let! requests := collect_requests items now in
  sret (if bool_decide (requests = []) then NoAction else Reply [msg_getdata requests]).

(** The body of the loop of [handle_getdata]; errors are ignored. *)
Definition serve_item (item : InventoryVector) : RM (list Message) := λ n,
  match inv_type item with
  | InvBlock =>
      match get_block (inv_hash item) (n_chain n) with
      | Ok (Some block) => (Ok [msg_block block], n)
      | Panic => (Panic, n)
      | _ => (Ok [], n)
      end
  | InvTransaction =>
      match with_chain_on_pool (λ active, pool_serve_transaction (inv_hash item) (utxo active)) n with
      | (Ok (Some tx), n) => (Ok [msg_tx tx], n)
      | (Panic, n) => (Panic, n)
      | (_, n) => (Ok [], n)
      end
  | InvFilteredBlock => (Ok [], n)
  end.
Fixpoint serve_items (items : list InventoryVector) : RM (list Message) :=
  match items with
  | [] => sret []
  | item :: items =>
      let! reply := serve_item item in
      let! replies := serve_items items in
      sret (reply ++ replies)
  end.
Definition handle_getdata (items : list InventoryVector) : RM RelayAction :=
  let! replies := serve_items items in
  sret (if bool_decide (replies = []) then NoAction else Reply replies).

Definition handle_peer_message (message : Message) (now : Z) : RM RelayAction :=
  match payload message with
  | PBlock block => handle_block block now
  | PInv items => handle_inv items now
  | PGetData items => handle_getdata items
  | PTx tx => handle_tx tx
  | PVersion _ | PVerack => sret NoAction
  end.
End relay.
