(* ===== verification/RelayTheorems.v ===== *)
(** * Theorems about relaying (bitrst-net/src/relay.rs over the shared chain and pool)

    The request trackers do not repeat a request within its lifetime; one message of a peer
    takes a node from good state to good state whatever it contains; an inventory is answered
    with the unknown objects only; a relayed block leaves a pool that is valid on the new
    chain. *)

From stdpp Require Import prelude gmap strings list sorting relations.
From Stdlib Require Import Strings.Byte.
From S2P Require Import Prelude Bytes Crypto U256 Wire Transaction Merkle Block Utxo Script.
From S2P Require Import Sighash Journal Store Chain ChainTx ChainInv ChainReorg ChainProps.
From S2P Require Import ChainTheorems ChainEvents Mempool MempoolInv MempoolEvict MempoolSync.
From S2P Require Import MempoolTheorems Message Handles Relay.

Local Open Scope Z_scope.
Local Open Scope list_scope.

(** ** Trackers *)

Lemma pending_set p t : pending (set_pending p t) = p.
Proof. done. Qed.

(** A request that is still outstanding at [now]. *)
Definition outstanding (now : Z) (t : BlockRequestTracker) (hash : list byte) : Prop :=
  ∃ r, pending t !! hash = Some r ∧ live now (request_ttl t) r = true.

Lemma expire_lookup now t hash r :
  pending (expire_before now t) !! hash = Some r ↔
  pending t !! hash = Some r ∧ live now (request_ttl t) r = true.
Proof. unfold expire_before. simpl. by rewrite map_lookup_filter_Some. Qed.

Lemma expire_count now t : pending_count (expire_before now t) ≤ pending_count t.
Proof.
  unfold pending_count, expire_before. simpl. apply inj_le, map_subseteq_size, map_filter_subseteq.
Qed.

(** One call of [mark_requested], exactly. *)
Lemma mark_requested_spec hash now t fresh t' :
  mark_requested hash now t = (fresh, t') →
  max_pending t' = max_pending t ∧ request_ttl t' = request_ttl t ∧
  (fresh = true ↔ ¬ outstanding now t hash ∧ pending_count (expire_before now t) < max_pending t) ∧
  (∀ h r, pending t' !! h = Some r ↔
    (fresh = true ∧ h = hash ∧ r = {| requested_at := now |}) ∨
    ((fresh = false ∨ h ≠ hash) ∧ pending t !! h = Some r ∧ live now (request_ttl t) r = true)) ∧
  pending_count t' ≤ (if fresh then pending_count (expire_before now t) + 1 else pending_count t).
Proof.
  unfold mark_requested. intros H.
  assert (is_Some (pending (expire_before now t) !! hash) ↔ outstanding now t hash) as Ho.
  { split; intros [r Hr]; exists r; by apply expire_lookup. }
  pose proof (expire_count now t) as Hcount.
  case_bool_decide as Hp; [|destruct (Z.leb_spec (max_pending (expire_before now t))
    (pending_count (expire_before now t))) as [Hm|Hm]]; injection H as <- <-.
  1,2: split; [done|]; split; [done|]; split; [|split; [|done]].
  - split; [done|]. intros [Hn _]. by apply Ho in Hp.
  - intros h r. rewrite expire_lookup. naive_solver.
  - split; [done|]. intros [_ ?]. simpl in Hm. lia.
  - intros h r. rewrite expire_lookup. naive_solver.
  - split; [done|]. split; [done|]. split; [|split].
    + split; [|done]. intros _. split; [by rewrite <- Ho|done].
    + intros h r. rewrite pending_set, lookup_insert_Some, map_lookup_filter_Some. naive_solver.
    + unfold pending_count, expire_before in *. rewrite !pending_set in *.
      rewrite map_size_insert_None; [lia|]. by apply eq_None_not_Some.
Qed.

(** The trackers of a connection. *)
Definition tracker_ok `{BuildFlags} (t : BlockRequestTracker) : Prop :=
  max_pending t = MAX_PENDING_BLOCK_REQUESTS ∧ request_ttl t = BLOCK_REQUEST_TTL ∧
  pending_count t ≤ MAX_PENDING_BLOCK_REQUESTS.

Lemma mark_requested_ok `{BuildFlags} hash now t fresh t' :
  tracker_ok t → mark_requested hash now t = (fresh, t') → tracker_ok t'.
Proof.
  intros (Hm&Ht&Hc) (?&?&Hf&_&Hcount)%mark_requested_spec. split_and!; [congruence..|].
  destruct fresh; [|lia]. destruct Hf as [Hf _]. destruct (Hf eq_refl). lia.
Qed.

Lemma clear_ok `{BuildFlags} hash t : tracker_ok t → tracker_ok (clear hash t).
Proof.
  intros (Hm&Ht&Hc). split_and!; [done..|]. unfold clear, pending_count in *. rewrite pending_set.
  etrans; [|exact Hc]. apply inj_le, map_subseteq_size, delete_subseteq.
Qed.

(** A sequence of calls and their answers. *)
Fixpoint mark_all (calls : list (list byte * Z)) (t : BlockRequestTracker)
    : list bool * BlockRequestTracker :=
  match calls with
  | [] => ([], t)
  | (hash, now) :: calls =>
      let '(fresh, t) := mark_requested hash now t in
      let '(answers, t) := mark_all calls t in
      (fresh :: answers, t)
  end.

(** A request recorded before suppresses the same request for its lifetime. *)
Lemma mark_all_suppressed calls t t' answers hash r (i : nat) now :
  mark_all calls t = (answers, t') → pending t !! hash = Some r →
  StronglySorted Z.le (requested_at r :: map snd calls) →
  calls !! i = Some (hash, now) → answers !! i = Some true →
  request_ttl t ≤ now - requested_at r.
Proof.
  revert t t' answers i. induction calls as [|[h1 t1] calls IH]; intros t t' answers i Hrun Hp Hs Hi Ha;
    [done|]. simpl in Hrun.
  destruct (mark_requested h1 t1 t) as [fresh t2] eqn:Hm.
  destruct (mark_all calls t2) as [answers2 t3] eqn:Hrest. injection Hrun as <- _.
  apply mark_requested_spec in Hm as (_&Httl&Hfresh&Hpend&_).
  apply StronglySorted_inv in Hs as [Hs Hle]. simpl in Hs, Hle.
  apply Forall_cons in Hle as [Hle1 Hle]. apply StronglySorted_inv in Hs as [Hs Hle2].
  destruct (live t1 (request_ttl t) r) eqn:Hlive.
  - destruct i as [|i]; simpl in Hi, Ha.
    + injection Hi as -> ->. injection Ha as ->. exfalso.
      destruct Hfresh as [[Hn _] _]; [done|]. apply Hn. by exists r.
    + rewrite <- Httl. eapply (IH t2 t3 answers2 i Hrest); try done.
      * apply Hpend. right. split; [|done]. destruct fresh; [|by left]. right. intros ->.
        destruct Hfresh as [[Hn _] _]; [done|]. apply Hn. by exists r.
      * by constructor.
  - unfold live in Hlive. assert (t1 ≤ now) as Hnow; [|lia].
    destruct i as [|i]; simpl in Hi; [injection Hi; lia|].
    rewrite Forall_forall in Hle2. apply Hle2. apply list_elem_of_fmap.
    exists (hash, now). split; [done|]. by eapply list_elem_of_lookup_2.
Qed.

Lemma mark_all_bound calls t answers t' :
  mark_all calls t = (answers, t') → pending_count t ≤ max_pending t →
  pending_count t' ≤ max_pending t ∧ request_ttl t' = request_ttl t ∧ max_pending t' = max_pending t.
Proof.
  revert t answers. induction calls as [|[h1 t1] calls IH]; intros t answers Hrun Hc; simpl in Hrun.
  { by injection Hrun as _ <-. }
  destruct (mark_requested h1 t1 t) as [fresh t2] eqn:Hm.
  destruct (mark_all calls t2) as [answers2 t3] eqn:Hrest. injection Hrun as _ <-.
  apply mark_requested_spec in Hm as (Hmx&Httl&Hf&_&Hcount).
  assert (pending_count t2 ≤ max_pending t2) as Hc2.
  { rewrite Hmx. destruct fresh; [|lia]. destruct Hf as [Hf _]. destruct (Hf eq_refl). lia. }
  destruct (IH t2 _ Hrest Hc2) as (?&?&?). rewrite <- Hmx, <- Httl. done.
Qed.

(** A tracker never holds more requests than its capacity, and in any sequence of
    calls with a clock that does not go back two granted requests for one object are at
    least the request lifetime apart: a peer that repeats an announcement does not make the
    node repeat its request. *)
Theorem requests_not_repeated (max ttl : Z) (calls : list (list byte * Z)) (answers : list bool)
    (t' : BlockRequestTracker) :
  0 ≤ max → StronglySorted Z.le (map snd calls) →
  mark_all calls (new_tracker max ttl) = (answers, t') →
  pending_count t' ≤ max ∧
  ∀ (i j : nat) hash ti tj, (i < j)%nat →
    calls !! i = Some (hash, ti) → calls !! j = Some (hash, tj) →
    answers !! i = Some true → answers !! j = Some true → ttl ≤ tj - ti.
Proof.
  intros Hmax Hs Hrun. split.
  { apply mark_all_bound in Hrun as (?&_&_); [done|].
    unfold pending_count, new_tracker. simpl. by rewrite map_size_empty. }
  change ttl with (request_ttl (new_tracker max ttl)). generalize dependent (new_tracker max ttl).
  revert answers. induction calls as [|[h1 t1] calls IH]; intros answers t Hrun i j hash ti tj Hij
    Hi Hj Hai Haj; [done|]. simpl in Hrun.
  destruct (mark_requested h1 t1 t) as [fresh t2] eqn:Hm.
  destruct (mark_all calls t2) as [answers2 t3] eqn:Hrest. injection Hrun as <- <-.
  apply mark_requested_spec in Hm as (_&Httl&_&Hpend&_). rewrite <- Httl.
  destruct j as [|j]; [lia|]. simpl in Hj, Haj. destruct i as [|i]; simpl in Hi, Hai.
  - injection Hi as -> ->. injection Hai as ->.
    eapply (mark_all_suppressed calls t2 t3 answers2 hash {| requested_at := ti |} j);
      [done| |done|done|done]. apply Hpend. by left.
  - apply StronglySorted_inv in Hs as [Hs _].
    eapply (IH Hs answers2 t2 Hrest i j hash ti tj); [lia|done..].
Qed.

(** ** One message to a node *)

Section node.
Context {crypto : CryptoLib} {order : HashOrder} {flags : BuildFlags}.
Context (gen : Block) (l : MempoolLimits) (Hl : limits_ok l).

(** A running node: both locks usable, a reachable chain and pool behind them, trackers
    within their bounds. *)
Record node_ok (n : Node) : Prop := {
  no_chain : lock_ok (reachable gen) (n_chain n);
  no_pool : lock_ok (pool_reachable l) (n_pool n);
  no_blocks : tracker_ok (block_requests (n_relay n));
  no_txs : tracker_ok (tx_requests (n_relay n))
}.

(** A computation that returns and keeps the node running. *)
Definition safe {A} (m : RM A) : Prop := ∀ n r n', node_ok n → m n = (r, n') → r ≠ Panic ∧ node_ok n'.

Lemma safe_sret {A} (a : A) : safe (sret a).
Proof. by intros n r n' Hn [= <- <-]. Qed.
Lemma safe_sthrow {A} e : safe (sthrow e : RM A).
Proof. by intros n r n' Hn [= <- <-]. Qed.
Lemma safe_sbind {A B} (m : RM A) (f : A → RM B) : safe m → (∀ a, safe (f a)) → safe (sbind m f).
Proof.
  intros Hm Hf n r n' Hn [(a&n1&H1&H2)|[(e&H1&->)|[H1 ->]]]%sbind_inv.
  - destruct (Hm _ _ _ Hn H1) as [_ Hn1]. by eapply Hf.
  - split; [done|]. by eapply Hm.
  - by destruct (Hm _ _ _ Hn H1).
Qed.

Lemma safe_read_chain {B} (f : ChainHandle → Result ChainError B) :
  (∀ h, f h ≠ Panic) → safe (read_chain f).
Proof. intros Hf n r n' Hn [= <- <-]. split; [|done]. specialize (Hf (n_chain n)). by destruct (f _). Qed.
Lemma safe_read_pool {B} (f : MempoolHandle → Result MempoolHandleError B) :
  (∀ h, f h ≠ Panic) → safe (read_pool f).
Proof. intros Hf n r n' Hn [= <- <-]. split; [|done]. specialize (Hf (n_pool n)). by destruct (f _). Qed.

Lemma with_read_no_panic {A E B} (err : E) (f : A → B) (h : RwLock A) :
  with_read err (λ a, Ok (f a)) h ≠ Panic.
Proof. unfold with_read. by destruct (poisoned h). Qed.

Lemma safe_mark_block hash now : safe (mark_block_requested hash now).
Proof.
  intros n r n' [????]. unfold mark_block_requested.
  destruct (mark_requested _ _ _) as [fresh t] eqn:Hm. intros [= <- <-]. split; [done|].
  apply mark_requested_ok in Hm; [|done]. by split.
Qed.
Lemma safe_mark_tx hash now : safe (mark_tx_requested hash now).
Proof.
  intros n r n' [????]. unfold mark_tx_requested.
  destruct (mark_requested _ _ _) as [fresh t] eqn:Hm. intros [= <- <-]. split; [done|].
  apply mark_requested_ok in Hm; [|done]. by split.
Qed.
Lemma safe_clear_block hash : safe (clear_block_request hash).
Proof. intros n r n' [????] [= <- <-]. split; [done|]. split; try done. by apply clear_ok. Qed.
Lemma safe_clear_tx hash : safe (clear_tx_request hash).
Proof. intros n r n' [????] [= <- <-]. split; [done|]. split; try done. by apply clear_ok. Qed.
Lemma safe_set_cursor cursor : safe (smodify (set_cursor cursor)).
Proof. by intros n r n' [????] [= <- <-]. Qed.

(** A pool call that returns on reachable pools and leads to reachable pools. *)
Lemma safe_with_chain_on_pool {B} (f : Chain → SM MempoolHandle MempoolHandleError B) :
  (∀ c h r h', lock_ok (pool_reachable l) h → f c h = (r, h') →
     r ≠ Panic ∧ lock_ok (pool_reachable l) h') →
  safe (with_chain_on_pool f).
Proof.
  intros Hf n r n' Hn. pose proof Hn as [[Hc ?] Hp ??]. unfold with_chain_on_pool. rewrite Hc.
  destruct (f _ (n_pool n)) as [r1 h1] eqn:Hrun. intros [= <- <-].
  destruct (Hf _ _ _ _ Hp Hrun) as [Hr ?]. split; [by destruct r1|]. by split.
Qed.

Lemma reachable_pool_inv p : pool_reachable l p → pool_inv p.
Proof. intros Hp. by apply (reachable_inv l p). Qed.

Lemma pool_accept_safe tx u h r h' :
  lock_ok (pool_reachable l) h → pool_accept_tx tx u h = (r, h') →
  r ≠ Panic ∧ lock_ok (pool_reachable l) h'.
Proof.
  apply with_write_lock_ok. intros p r1 p' Hp (r0&H&->)%smap_err_run.
  destruct (accept_tx_from _ _ _ _ _ (reachable_pool_inv p Hp) H) as (Hr&_&_).
  split; [by destruct r0|]. by eapply reach_accept.
Qed.
Lemma pool_events_safe events c h r h' :
  lock_ok (pool_reachable l) h → pool_apply_chain_events events c h = (r, h') →
  r ≠ Panic ∧ lock_ok (pool_reachable l) h'.
Proof.
  apply with_write_lock_ok. intros p r1 p' Hp (r0&H&->)%smap_err_run.
  split; [|by eapply reach_events]. unfold apply_chain_events in H.
  match type of H with synchronize_to_chain ?a ?b ?d p = _ =>
    destruct (synchronize_spec a b d p (reachable_pool_inv p Hp)) as (p1&H1&_) end.
  rewrite H1 in H. by injection H as <- _.
Qed.
Lemma pool_resync_safe c since h r h' :
  lock_ok (pool_reachable l) h → pool_resync_to_active_chain c since h = (r, h') →
  r ≠ Panic ∧ lock_ok (pool_reachable l) h'.
Proof.
  apply with_write_lock_ok. intros p r1 p' Hp (r0&H&->)%smap_err_run.
  split; [|by eapply reach_resync].
  pose proof (resync_spec c since p (reachable_pool_inv p Hp)) as Hs.
  pose proof (recovery_no_panic c since).
  destruct (recovery_disconnected_blocks c since); [|by rewrite Hs in H; injection H as <- _|done].
  destruct Hs as (p1&H1&_). rewrite H1 in H. by injection H as <- _.
Qed.
Lemma pool_serve_safe txid u h r h' :
  lock_ok (pool_reachable l) h → pool_serve_transaction txid u h = (r, h') →
  r ≠ Panic ∧ lock_ok (pool_reachable l) h'.
Proof.
  apply with_write_lock_ok. intros p r1 p' Hp H.
  destruct (serve_transaction txid u p) as [tx p1] eqn:Hs. injection H as <- <-.
  split; [done|]. by eapply reach_serve.
Qed.

Lemma collect_events_no_panic j cursor r cursor' :
  collect_events j cursor = (r, cursor') → r ≠ Panic.
Proof. unfold collect_events. destruct (lags j (last_seq cursor)); by intros [= <- _]. Qed.

Lemma safe_sync_mempool : safe sync_mempool.
Proof.
  intros n r n' Hn. unfold sync_mempool, handle_collect_events.
  rewrite (proj1 (no_chain n Hn)).
  destruct (collect_events _ _) as [r1 cursor] eqn:Hc. pose proof (collect_events_no_panic _ _ _ _ Hc).
  destruct r1 as [events|e|]; [| |done]; cbn [map_err].
  - case_bool_decide; [intros [= <- <-]; split; [done|by destruct Hn]|].
    apply (safe_with_chain_on_pool _ (pool_events_safe events)). by destruct Hn.
  - revert n r n' Hn Hc. intros n r n' Hn _. revert n r n' Hn.
    match goal with |- ∀ n r n', node_ok n → ?m n = (r, n') → _ => change (safe m) end.
    apply safe_sbind; [apply safe_read_chain; intros h; apply with_read_no_panic|]. intros fresh.
    apply safe_sbind; [apply safe_set_cursor|]. intros _.
    apply safe_with_chain_on_pool. intros c. apply pool_resync_safe.
Qed.

Lemma safe_handle_tx tx : safe (handle_tx tx).
Proof.
  apply safe_sbind; [apply safe_clear_tx|]. intros [] n r n' Hn.
  destruct (with_chain_on_pool _ n) as [r1 n1] eqn:Hrun.
  destruct (safe_with_chain_on_pool (λ c, pool_accept_tx tx (utxo c))
    (λ c, pool_accept_safe tx (utxo c)) n r1 n1 Hn Hrun) as [Hr Hn1].
  destruct r1 as [a|[e|[|e|e]]|]; try done; by intros [= <- <-].
Qed.

Lemma safe_request_missing hash now : safe (request_missing_block hash now).
Proof.
  apply safe_sbind; [apply safe_read_chain; intros h; apply with_read_no_panic|].
  intros []; [apply safe_sret|]. apply safe_sbind; [apply safe_mark_block|].
  intros []; apply safe_sret.
Qed.

Lemma safe_wanted item now : safe (wanted item now).
Proof.
  unfold wanted. destruct (inv_type item); [| |apply safe_sret].
  - apply safe_sbind; [apply safe_read_pool; intros h; apply with_read_no_panic|].
    intros []; [apply safe_sret|apply safe_mark_tx].
  - apply safe_sbind; [apply safe_read_chain; intros h; apply with_read_no_panic|].
    intros []; [apply safe_sret|apply safe_mark_block].
Qed.

Lemma safe_collect_requests items now : safe (collect_requests items now).
Proof.
  induction items as [|item items IH]; [apply safe_sret|].
  apply safe_sbind; [apply safe_wanted|]. intros want.
  apply safe_sbind; [apply IH|]. intros requests. apply safe_sret.
Qed.

Lemma safe_serve_item item : safe (serve_item item).
Proof.
  intros n r n' Hn. unfold serve_item. destruct (inv_type item).
  - destruct (with_chain_on_pool _ n) as [r1 n1] eqn:Hrun.
    destruct (safe_with_chain_on_pool (λ c, pool_serve_transaction (inv_hash item) (utxo c))
      (λ c, pool_serve_safe _ (utxo c)) n r1 n1 Hn Hrun) as [Hr Hn1].
    destruct r1 as [[tx|]| |]; try done; by intros [= <- <-].
  - pose proof (with_read_no_panic LockPoisoned (λ c, block_by_hash c (inv_hash item)) (n_chain n)).
    unfold get_block. destruct (with_read _ _ _) as [[b|]| |]; try done; by intros [= <- <-].
  - by intros [= <- <-].
Qed.
Lemma safe_serve_items items : safe (serve_items items).
Proof.
  induction items as [|item items IH]; [apply safe_sret|].
  apply safe_sbind; [apply safe_serve_item|]. intros reply.
  apply safe_sbind; [apply IH|]. intros replies. apply safe_sret.
Qed.

(** Only a panic inside [connect_block] escapes the handler, and it poisons the chain's lock. *)
Definition connect_crash (b : Block) (n n' : Node) : Prop :=
  (connect_block b (contents (n_chain n))).1 = Panic ∧ poisoned (n_chain n') = true ∧
  n_pool n' = n_pool n ∧ n_relay n' = n_relay n.

Lemma handle_block_safe b now n r n' :
  node_ok n → handle_block b now n = (r, n') →
  (r ≠ Panic ∧ node_ok n') ∨ (r = Panic ∧ connect_crash b n n').
Proof.
  intros Hn. unfold handle_block, handle_connect_block.
  pose proof (no_chain n Hn) as [Hlock Hreach].
  destruct (connect_block b (contents (n_chain n))) as [rc c'] eqn:Hc.
  rewrite (with_write_run _ _ _ rc c') by done.
  destruct rc as [result|e|]; [| |intros [= <- <-]; right; unfold connect_crash; by rewrite Hc].
  all: set (n1 := set_chain _ n); assert (node_ok n1) as Hn1 by
    (destruct Hn; split; try done; split; [done|by eapply reach_connect]).
  all: clearbody n1; intros Hrun; left; revert n1 r n' Hn1 Hrun.
  - destruct result.
    1,3: match goal with |- ∀ n r n', node_ok n → ?m n = (r, n') → _ => change (safe m) end;
      apply safe_sbind; [apply safe_clear_block|]; intros [];
      apply safe_sbind; [apply safe_sync_mempool|]; intros []; apply safe_sret.
    + apply (safe_request_missing (prev_blockhash (header b)) now).
    + apply (safe_sret NoAction).
  - assert (safe (do! clear_block_request (block_hash b) ;;
            do! clear_block_request (prev_blockhash (header b)) ;;
            sthrow (RelayChain e) : RM RelayAction)) as Herr.
    { apply safe_sbind; [apply safe_clear_block|]. intros [].
      apply safe_sbind; [apply safe_clear_block|]. intros []. apply safe_sthrow. }
    destruct e; try exact Herr. apply (safe_sret NoAction).
Qed.

Lemma handle_peer_message_safe m now n r n' :
  node_ok n → handle_peer_message m now n = (r, n') →
  (r ≠ Panic ∧ node_ok n') ∨ (r = Panic ∧ ∃ b, payload m = PBlock b ∧ connect_crash b n n').
Proof.
  intros Hn. unfold handle_peer_message.
  destruct (payload m) as [|v|items|items|b|tx]; intros Hrun.
  5: { destruct (handle_block_safe _ _ _ _ _ Hn Hrun) as [?|[-> ?]]; [by left|right; eauto]. }
  all: left; revert n r n' Hn Hrun.
  - apply (safe_sret NoAction).
  - apply (safe_sret NoAction).
  - apply safe_sbind; [apply safe_collect_requests|]. intros requests. apply safe_sret.
  - apply safe_sbind; [apply safe_serve_items|]. intros replies. apply safe_sret.
  - apply safe_handle_tx.
Qed.

(** ** Inventories *)

(** An object this node neither has nor is waiting for. *)
Definition unknown (n : Node) (item : InventoryVector) : Prop :=
  match inv_type item with
  | InvBlock => has_block_hash (contents (n_chain n)) (inv_hash item) = false
  | InvTransaction => mempool_contains (contents (n_pool n)) (inv_hash item) = false
  | InvFilteredBlock => False
  end.
Definition requested (now : Z) (n : Node) (item : InventoryVector) : Prop :=
  match inv_type item with
  | InvBlock => outstanding now (block_requests (n_relay n)) (inv_hash item)
  | InvTransaction => outstanding now (tx_requests (n_relay n)) (inv_hash item)
  | InvFilteredBlock => False
  end.
Definition same_shared (n n' : Node) : Prop := n_chain n' = n_chain n ∧ n_pool n' = n_pool n.

Lemma ttl_pos : 0 < BLOCK_REQUEST_TTL.
Proof. unfold BLOCK_REQUEST_TTL. by destruct test_short_period. Qed.

Lemma mark_outstanding hash now t fresh t' :
  tracker_ok t → mark_requested hash now t = (fresh, t') →
  (∀ h, outstanding now t h → outstanding now t' h) ∧
  (fresh = true → ¬ outstanding now t hash ∧ outstanding now t' hash).
Proof.
  intros (_&Ht&_) (_&Httl&Hf&Hp&_)%mark_requested_spec. split.
  - intros h (r&Hr&Hlive). exists r. rewrite Httl. split; [|done]. apply Hp. right.
    split_and!; [|done|done]. destruct fresh; [|by left]. right. intros ->.
    destruct Hf as [[Hn _] _]; [done|]. apply Hn. by exists r.
  - intros ->. destruct Hf as [[Hn _] _]; [done|]. split; [done|].
    exists {| requested_at := now |}. split; [apply Hp; by left|].
    unfold live. simpl. rewrite Httl, Ht. pose proof ttl_pos. lia.
Qed.

Lemma wanted_spec item now n want n' :
  node_ok n → wanted item now n = (Ok want, n') →
  same_shared n n' ∧ (∀ it, requested now n it → requested now n' it) ∧
  (want = true → unknown n item ∧ ¬ requested now n item ∧ requested now n' item).
Proof.
  intros Hn. unfold wanted, unknown, requested.
  destruct (inv_type item) eqn:Ht; [| |by intros [= <- <-]].
  - intros (known&n1&H1&H2)%sbind_Ok. unfold read_pool, pool_contains, with_read in H1.
    rewrite (proj1 (no_pool n Hn)) in H1. injection H1 as <- <-.
    destruct (mempool_contains _ _); [by injection H2 as <- <-|].
    unfold mark_tx_requested in H2. destruct (mark_requested _ _ _) as [fresh t] eqn:Hm.
    injection H2 as <- <-. apply mark_outstanding in Hm as [H3 H4]; [|apply Hn].
    split; [done|]. split; [|intros ->; by destruct H4].
    intros it. destruct (inv_type it); [apply H3|done|done].
  - intros (known&n1&H1&H2)%sbind_Ok. unfold read_chain, has_block, with_read in H1.
    rewrite (proj1 (no_chain n Hn)) in H1. injection H1 as <- <-.
    destruct (has_block_hash _ _); [by injection H2 as <- <-|].
    unfold mark_block_requested in H2. destruct (mark_requested _ _ _) as [fresh t] eqn:Hm.
    injection H2 as <- <-. apply mark_outstanding in Hm as [H3 H4]; [|apply Hn].
    split; [done|]. split; [|intros ->; by destruct H4].
    intros it. destruct (inv_type it); [done|apply H3|done].
Qed.

Lemma collect_requests_spec items now n requests n' :
  node_ok n → collect_requests items now n = (Ok requests, n') →
  same_shared n n' ∧ requests `sublist_of` items ∧ NoDup requests ∧
  Forall (λ it, unknown n it ∧ ¬ requested now n it) requests.
Proof.
  revert n requests n'. induction items as [|item items IH]; intros n requests n' Hn.
  { intros [= <- <-]. split_and!; try done. constructor. }
  cbn [collect_requests].
  intros (want&n1&H1&(rest&n2&H2&[= <- <-])%sbind_Ok)%sbind_Ok.
  destruct (safe_wanted item now n (Ok want) n1 Hn H1) as [_ Hn1].
  destruct (wanted_spec _ _ _ _ _ Hn H1) as ([Hc Hp]&Hkeep&Hwant).
  destruct (IH n1 rest n2 Hn1 H2) as ([Hc2 Hp2]&Hsub&Hnd&Hall).
  assert (Forall (λ it, unknown n it ∧ ¬ requested now n it) rest) as Hrest.
  { eapply Forall_impl; [exact Hall|]. intros it [Hu Hr]. split; [|naive_solver].
    unfold unknown in *. by rewrite <- Hc, <- Hp. }
  split; [split; congruence|]. destruct want; [|split_and!; [by apply sublist_cons|done|done]].
  destruct (Hwant eq_refl) as (Hu&Hnr&Hr). split_and!; [by apply sublist_skip| |by constructor].
  constructor; [|done]. rewrite Forall_forall in Hall. intros Hin.
  by destruct (Hall _ Hin) as [_ Hn'].
Qed.

(** ** Blocks and the pool *)

(** The blocks of the disconnections among [events]. *)
Definition disconnected_blocks (events : list ChainEvent) (c : Chain) : list Block :=
  omap (λ event, match event with
    | BlockDisconnected _ hash => block_by_hash c hash | _ => None end) events.

(** What one peer's synchronization of the pool [p] with the chain [c] reads, and what it
    leaves: the cursor at the end of the events, and the pool [p']. *)
Definition pool_follows (c : Chain) (cursor cursor' : ChainEventCursor) (p p' : Mempool) : Prop :=
  match collect_events (event_journal c) cursor with
  | (Ok [], _) => cursor' = cursor ∧ p' = p
  | (Ok events, after) => cursor' = after ∧
      synchronized (utxo c) (restorable (disconnected_blocks events c)) p p'
  | (Err _, _) => cursor' = event_cursor (event_journal c) ∧
      ∃ ds, recovery_disconnected_blocks c (last_seq cursor) = Ok ds ∧
        synchronized (utxo c) (restorable ds) p p'
  | (Panic, _) => False
  end.

Lemma collect_events_nothing j cursor after : collect_events j cursor = (Ok [], after) → after = cursor.
Proof.
  unfold collect_events, events_after. destruct (lags j (last_seq cursor)); [done|].
  intros [= Hnil%map_eq_nil <-]. by rewrite Hnil.
Qed.

Lemma sync_mempool_follows n n' :
  node_ok n → sync_mempool n = (Ok (), n') →
  n_chain n' = n_chain n ∧
  pool_follows (contents (n_chain n)) (chain_events (n_relay n)) (chain_events (n_relay n'))
    (contents (n_pool n)) (contents (n_pool n')).
Proof.
  intros Hn. pose proof (no_chain n Hn) as [Hlock _]. pose proof (no_pool n Hn) as [Hplock Hreach].
  unfold sync_mempool, handle_collect_events, pool_follows. rewrite Hlock.
  destruct (collect_events _ _) as [[events|e|] cursor] eqn:Hc; cbn [map_err]; [| |done].
  - case_bool_decide as He.
    { intros [= <-]. subst events. by apply collect_events_nothing in Hc as ->. }
    unfold with_chain_on_pool. cbn [n_chain n_pool set_cursor set_relay]. rewrite Hlock.
    destruct (synchronize_restores (utxo (contents (n_chain n)))
      (omap (λ event, match event with
         | BlockConnected _ hash _ => block_by_hash (contents (n_chain n)) hash | _ => None end) events)
      (disconnected_blocks events (contents (n_chain n))) (contents (n_pool n)))
      as (p'&Hrun&Hsync); [by apply reachable_pool_inv|].
    assert (smap_err Admission (apply_chain_events events (contents (n_chain n)))
      (contents (n_pool n)) = (Ok (), p')) as Hs.
    { unfold smap_err, apply_chain_events, disconnected_blocks in *. by rewrite Hrun. }
    unfold pool_apply_chain_events. rewrite (with_write_run _ _ _ _ _ Hplock Hs).
    intros [= <-]. split; [done|]. destruct events; [done|]. by split.
  - intros Hrun. apply sbind_Ok in Hrun as (fresh&n1&Hfresh&Hrun).
    unfold read_chain, handle_event_cursor, with_read in Hfresh. rewrite Hlock in Hfresh.
    injection Hfresh as <- <-. apply sbind_Ok in Hrun as ([]&n2&[= <-]&Hrun).
    assert (cursor = chain_events (n_relay n)) as ->.
    { unfold collect_events in Hc. by destruct (lags _ _); injection Hc. }
    unfold with_chain_on_pool in Hrun. cbn [n_chain n_pool set_cursor set_relay] in Hrun.
    rewrite Hlock in Hrun. set (since := last_seq (chain_events (n_relay n))) in *.
    unfold pool_resync_to_active_chain, with_write in Hrun. rewrite Hplock in Hrun.
    unfold smap_err, resync_to_active_chain in Hrun.
    destruct (recovery_disconnected_blocks (contents (n_chain n)) since) as [ds|e'|]; [|done..].
    destruct (synchronize_restores (utxo (contents (n_chain n)))
      (omap (active_block_at (contents (n_chain n))) (seqZ 0 (height (contents (n_chain n)) + 1)))
      ds (contents (n_pool n))) as (p'&Hsrun&Hsync); [by apply reachable_pool_inv|].
    unfold synchronize_to_chain in Hsrun. rewrite Hsrun in Hrun. injection Hrun as <-.
    split; [done|]. split; [done|]. by exists ds.
Qed.

Lemma handle_block_announce b now n items n' :
  node_ok n → handle_block b now n = (Ok (Announce items), n') →
  items = [{| inv_type := InvBlock; inv_hash := block_hash b |}] ∧
  ∃ result c', connect_block b (contents (n_chain n)) = (Ok result, c') ∧
    (∃ n1, node_ok n1 ∧ contents (n_chain n1) = c' ∧
       chain_events (n_relay n1) = chain_events (n_relay n) ∧ n_pool n1 = n_pool n ∧
       sync_mempool n1 = (Ok (), n')) ∧
    match result with Connected _ _ | Reorganized _ _ => True | _ => False end.
Proof.
  intros Hn. unfold handle_block, handle_connect_block.
  pose proof (no_chain n Hn) as [Hlock Hreach].
  destruct (connect_block b (contents (n_chain n))) as [rc c'] eqn:Hc.
  rewrite (with_write_run _ _ _ rc c') by done.
  destruct rc as [result|e|]; [|by destruct e|done].
  set (n1 := set_chain _ n). assert (node_ok n1) as Hn1
    by (destruct Hn; split; try done; split; [done|by eapply reach_connect]).
  destruct result as [h hash|hash|ot nt|h hash]; [| | |done].
  2: { unfold request_missing_block. intros (k&n2&_&H2)%sbind_Ok. destruct k; [done|].
       apply sbind_Ok in H2 as (f&n3&_&H3). by destruct f. }
  all: intros ([]&n2&H2&([]&n3&H3&[= <- <-])%sbind_Ok)%sbind_Ok; split; [done|];
    eexists _, c'; (split; [done|]); (split; [|done]); exists n2;
    destruct (safe_clear_block (block_hash b) n1 _ n2 Hn1 H2) as [_ ?];
    injection H2 as <-; by split_and!.
Qed.
End node.

(** ** Properties *)

Section properties.
Context {crypto : CryptoLib} {order : HashOrder} {flags : BuildFlags}.

(** One message of a peer, whatever it contains, takes a running node to a
    running node: both locks stay usable, the chain and the pool stay reachable states of
    their components (so every theorem about those applies), and the request trackers stay
    within their bounds.  The only way out is a panic inside [connect_block], which poisons
    the chain's lock and touches neither the pool nor the peer's relay state. *)
Theorem node_survives_any_message (gen : Block) (l : MempoolLimits) (m : Message) (now : Z)
    (n n' : Node) (r : Result RelayError RelayAction) :
  limits_ok l → node_ok gen l n → handle_peer_message m now n = (r, n') →
  (r ≠ Panic ∧ node_ok gen l n') ∨
  (r = Panic ∧ ∃ b, payload m = PBlock b ∧ connect_crash b n n').
Proof. intros Hl Hn. by apply handle_peer_message_safe. Qed.

(** An inventory is answered with a request for some of its items, in their
    order and each once, all of them unknown to this node and not already requested from
    this peer; chain and pool are not touched. *)
Theorem inventory_requests_unknown_once (gen : Block) (l : MempoolLimits) (m : Message)
    (items : list InventoryVector) (now : Z) (n n' : Node) (action : RelayAction) :
  limits_ok l → node_ok gen l n → payload m = PInv items →
  handle_peer_message m now n = (Ok action, n') →
  n_chain n' = n_chain n ∧ n_pool n' = n_pool n ∧
  ∃ requests, requests `sublist_of` items ∧ NoDup requests ∧
    Forall (λ it, unknown n it ∧ ¬ requested now n it) requests ∧
    action = (if decide (requests = []) then NoAction else Reply [msg_getdata requests]).
Proof.
  intros Hl Hn Hm. unfold handle_peer_message. rewrite Hm.
  intros (requests&n1&H1&[= <- <-])%sbind_Ok.
  destruct (collect_requests_spec gen l _ _ _ _ _ Hn H1) as ([??]&?&?&?).
  split_and!; [done|done|]. exists requests. split_and!; [done..|].
  by destruct (decide (requests = [])); case_bool_decide.
Qed.

(** C22 (safety): a block is announced to the other peers only after it has been connected to
    the active chain, as an extension or by a reorganization, and the handler that announces
    it has synchronized the pool with the new chain: the peer's cursor stands at the end of
    the events, and whether the peer read the events or lagged behind them, what remains of
    the old pool is valid on the outputs of the new chain, each transaction after its
    predecessors, and the transactions of the disconnected blocks were then offered to it.
    The final pool is valid if there are none, or if they all find room without eviction and
    admission numbers (an eviction may take the parent of the newcomer,
    [admission_evicts_own_parent]).  The peer's cursor is not ahead of the chain's journal
    when the message is handled, and the numbers of the events have not run out. *)
Theorem announced_block_leaves_valid_pool (gen : Block) (l : MempoolLimits) (m : Message)
    (b : Block) (items : list InventoryVector) (now : Z) (n n' : Node) :
  limits_ok l → node_ok gen l n → payload m = PBlock b →
  last_seq (chain_events (n_relay n)) ≤ latest_seq (event_journal (contents (n_chain n))) →
  handle_peer_message m now n = (Ok (Announce items), n') →
  Journal.next_seq (event_journal (contents (n_chain n'))) < U64_MAX →
  items = [{| inv_type := InvBlock; inv_hash := block_hash b |}] ∧
  ∃ result c' candidates, connect_block b (contents (n_chain n)) = (Ok result, c') ∧
    match result with Connected _ _ | Reorganized _ _ => True | _ => False end ∧
    contents (n_chain n') = c' ∧
    synchronized (utxo c') candidates (contents (n_pool n)) (contents (n_pool n')) ∧
    match collect_events (event_journal c') (chain_events (n_relay n)) with
    | (Ok events, after) =>
        chain_events (n_relay n') = after ∧
        candidates = restorable (disconnected_blocks events c')
    | (Err _, _) =>
        chain_events (n_relay n') = event_cursor (event_journal c') ∧
        ∃ ds, recovery_disconnected_blocks c' (last_seq (chain_events (n_relay n))) = Ok ds ∧
          candidates = restorable ds
    | (Panic, _) => False
    end.
Proof.
  intros Hl Hn Hm Hahead. unfold handle_peer_message. rewrite Hm. intros Hrun Hmax.
  destruct (handle_block_announce gen l b now n items n' Hn Hrun)
    as (->&result&c'&Hc&(n1&Hn1&<-&Hcur&Hpool&Hsync)&Hres).
  split; [done|].
  destruct (sync_mempool_follows gen l Hl _ _ Hn1 Hsync) as [Hchain Hfollows].
  rewrite Hcur, Hpool in Hfollows. rewrite Hchain in Hmax |- *.
  pose proof (tip_moved_events gen b _ _ _ _ (proj2 (no_chain _ _ _ Hn)) Hc Hres Hahead Hmax) as Hev.
  unfold pool_follows in Hfollows.
  destruct (collect_events _ _) as [[events|e|] after] eqn:Hcol; [| |done].
  - destruct events as [|e events]; [done|]. destruct Hfollows as [? Hs].
    eexists result, _, _. split; [exact Hc|]. split; [exact Hres|]. split; [done|].
    split; [exact Hs|]. rewrite Hcol. by split.
  - destruct Hfollows as (?&ds&?&Hs). eexists result, _, _.
    split; [exact Hc|]. split; [exact Hres|]. split; [done|]. split; [exact Hs|].
    rewrite Hcol. split; [done|]. by exists ds.
Qed.
End properties.
