(* ===== verification/RelayExamples.v ===== *)
(** * A node handling concrete messages

    Witnesses of the relay theorems: a node on the genesis chain with a pooled spend receives
    the block that confirms it, an inventory with a repeated item, and tracks requests. *)

From stdpp Require Import prelude gmap strings list sorting relations.
From Stdlib Require Import Strings.Byte.
From S2P Require Import Prelude Bytes Crypto U256 Wire Transaction Merkle Block Utxo Script.
From S2P Require Import Sighash Journal Store Chain ChainTx ChainInv ChainReorg ChainProps.
From S2P Require Import ChainTheorems ChainExamples Mempool MempoolInv MempoolEvict MempoolSync.
From S2P Require Import MempoolTheorems MempoolExamples Message Handles Relay RelayTheorems.

Local Open Scope Z_scope.
Local Open Scope list_scope.

#[local] Existing Instance toy_crypto.
#[local] Existing Instance canonical_order.
#[local] Existing Instance ex_flags.

Lemma pair_of_fst {A B} (p : A * B) (a : A) : p.1 = a → p = (a, p.2).
Proof. destruct p. by intros <-. Qed.

(** ** Trackers *)

Definition rx_calls : list (list byte * Z) := [(zero32, 0); (zero32, 100); (zero32, 400)].

Example rx_answers : (mark_all rx_calls (new_tracker 2 300)).1 = [true; false; true].
Proof. reflexivity. Qed.

Lemma requests_not_repeated_witness : 300 ≤ 400 - 0.
Proof.
  destruct (requests_not_repeated 2 300 rx_calls [true; false; true]
    (mark_all rx_calls (new_tracker 2 300)).2) as [_ H];
    [discriminate|repeat constructor; discriminate|reflexivity|].
  by apply (H 0%nat 2%nat zero32 0 400); [lia|..].
Defined.

(** ** A node *)

Definition rx_limits : MempoolLimits := mx_limits 10 1000.
Definition rx_pool : Mempool := (accept_tx ex_spend1 (utxo ex_c0) (new_mempool rx_limits)).2.
Definition rx_node : Node := {|
  n_chain := new_lock ex_c0; n_pool := new_lock rx_pool;
  n_relay := with_event_cursor (event_cursor (event_journal ex_c0)) |}.

Lemma rx_tracker_ok : tracker_ok default_tracker.
Proof. by split_and!. Qed.

Lemma rx_node_ok : node_ok ex_genesis rx_limits rx_node.
Proof.
  split.
  - split; [done|exact ex_c0_reachable].
  - split; [done|]. eapply (reach_accept _ ex_spend1 (utxo ex_c0)); [apply reach_new|].
    apply surjective_pairing.
  - exact rx_tracker_ok.
  - exact rx_tracker_ok.
Qed.

Example rx_pool_holds_spend : mempool_contains rx_pool (tx_id ex_spend1) = true.
Proof. vm_compute. reflexivity. Qed.

Abbreviation rx_outcome := (handle_peer_message (msg_block ex_b1) 0 rx_node).
Definition rx_items : list InventoryVector :=
  [{| inv_type := InvBlock; inv_hash := block_hash ex_b1 |}].
Lemma rx_announces : handle_peer_message (msg_block ex_b1) 0 rx_node = (Ok (Announce rx_items), rx_outcome.2).
Proof. refine (pair_of_fst rx_outcome _ _). vm_compute. reflexivity. Qed.

Lemma node_survives_any_message_witness :
  rx_outcome.1 ≠ Panic ∧ node_ok ex_genesis rx_limits rx_outcome.2.
Proof.
  destruct (node_survives_any_message ex_genesis rx_limits (msg_block ex_b1) 0 rx_node
    rx_outcome.2 (Ok (Announce rx_items)) mx_limits_ok rx_node_ok rx_announces) as [[_ H]|[H _]].
  - split; [|exact H]. rewrite rx_announces. discriminate.
  - discriminate H.
Defined.

(** A node on the two spending blocks hears of the block that makes the fork heavier: the
    chain reorganizes, and both transactions of the disconnected blocks return to its pool,
    which has room for them. *)
Definition rx_fork_node : Node := {|
  n_chain := new_lock ex_c4; n_pool := new_lock (new_mempool rx_limits);
  n_relay := with_event_cursor (event_cursor (event_journal ex_c4)) |}.
Lemma rx_fork_node_ok : node_ok ex_genesis rx_limits rx_fork_node.
Proof.
  split; [split; [done|exact ex_c4_reachable]|split; [done|apply reach_new]|exact rx_tracker_ok..].
Qed.

Abbreviation rx_fork_outcome := (handle_peer_message (msg_block ex_f3) 0 rx_fork_node).
Definition rx_fork_items : list InventoryVector :=
  [{| inv_type := InvBlock; inv_hash := block_hash ex_f3 |}].
Lemma rx_fork_announces :
  handle_peer_message (msg_block ex_f3) 0 rx_fork_node = (Ok (Announce rx_fork_items), rx_fork_outcome.2).
Proof. refine (pair_of_fst rx_fork_outcome _ _). vm_compute. reflexivity. Qed.

(** The events the peer's cursor has not seen, wherever the chain comes from. *)
Lemma rx_fork_candidates result c' :
  connect_block ex_f3 (contents (n_chain rx_fork_node)) = (Ok result, c') →
  ∃ events after,
    collect_events (event_journal c') (chain_events (n_relay rx_fork_node)) = (Ok events, after) ∧
    restorable (disconnected_blocks events c') = [ex_spend2; ex_spend1].
Proof.
  intros Hc. assert (c' = (connect_block ex_f3 (contents (n_chain rx_fork_node))).2) as -> by (by rewrite Hc).
  eexists _, _. split; [refine (pair_of_fst _ _ _)|]; vm_compute; reflexivity.
Qed.

Lemma rx_empty_seq_ok limits : seq_ok (new_mempool limits).
Proof.
  split; [apply map_Forall_empty| |done]. intros t1 t2 e1 e2 H1 _. cbn in H1.
  by rewrite lookup_empty in H1.
Qed.
Lemma rx_fork_room : has_room (new_mempool rx_limits) [ex_spend2; ex_spend1].
Proof.
  assert (sizes [ex_spend2; ex_spend1] ≤ 1000) as Hsizes by (vm_compute; discriminate).
  unfold has_room, room. split_and!; [by vm_compute|cbn [total_bytes new_mempool]|by vm_compute].
  exact Hsizes.
Qed.

Lemma announced_block_leaves_valid_pool_witness :
  ∃ result c',
    connect_block ex_f3 (contents (n_chain rx_fork_node)) = (Ok result, c') ∧
    pool_valid (utxo c') (contents (n_pool rx_fork_outcome.2)).
Proof.
  destruct (announced_block_leaves_valid_pool ex_genesis rx_limits (msg_block ex_f3) ex_f3 rx_fork_items 0
    rx_fork_node rx_fork_outcome.2 mx_limits_ok rx_fork_node_ok eq_refl (Z.le_refl _) rx_fork_announces)
    as (_&result&c'&candidates&Hc&_&_&(p1&_&_&_&Hvalid)&Hread); [vm_compute; reflexivity|].
  exists result, c'. split; [exact Hc|]. apply Hvalid. right.
  destruct (rx_fork_candidates result c' Hc) as (events&after&Hevents&Hlist).
  rewrite Hevents, Hlist in Hread. destruct Hread as [_ ->].
  exact (conj (rx_empty_seq_ok rx_limits) rx_fork_room).
Defined.

(** ** An inventory *)

Definition rx_inv : list InventoryVector :=
  [{| inv_type := InvBlock; inv_hash := block_hash ex_b1 |};
   {| inv_type := InvTransaction; inv_hash := tx_id ex_spend1 |};
   {| inv_type := InvBlock; inv_hash := block_hash ex_b1 |}].
Abbreviation rx_inv_outcome := (handle_peer_message (msg_inv rx_inv) 0 rx_node).
Lemma rx_inv_requests :
  handle_peer_message (msg_inv rx_inv) 0 rx_node =
    (Ok (Reply [msg_getdata rx_items]), rx_inv_outcome.2).
Proof. refine (pair_of_fst rx_inv_outcome _ _). vm_compute. reflexivity. Qed.

Lemma inventory_requests_unknown_once_witness :
  ∃ requests, requests `sublist_of` rx_inv ∧ NoDup requests.
Proof.
  destruct (inventory_requests_unknown_once ex_genesis rx_limits (msg_inv rx_inv) rx_inv 0 rx_node
    rx_inv_outcome.2 _ mx_limits_ok rx_node_ok eq_refl rx_inv_requests) as (_&_&rs&H1&H2&_).
  exists rs. split; [exact H1|exact H2].
Defined.
