(* ===== verification/TypedState.v ===== *)
(** * Well-typed chains and pools

    The integers, hashes and lists of a decoded block or transaction are within the ranges of
    their Rust types and within the limits of the codec.  The chain and the pool keep only
    such values, wherever they keep blocks and transactions, whatever the outcome of a call,
    so what is read back from them can be sent. *)

From stdpp Require Import prelude gmap strings list sorting.
From Stdlib Require Import Strings.Byte.
From S2P Require Import Prelude Bytes Crypto U256 Pow Difficulty Wire Transaction Merkle Block.
From S2P Require Import Utxo Script Sighash Journal Store Chain Mempool MempoolInv Message Handles.

Local Open Scope Z_scope.
Local Open Scope list_scope.

(** ** Calls that keep an invariant and yield good values *)

Section yields.
Context {S E : Type} (I : S → Prop).

(** Whatever the outcome the invariant holds, and a returned value is good. *)
Definition yields {A} (Q : A → Prop) (m : SM S E A) : Prop :=
  triple I m (λ a s, Q a ∧ I s) I.

Lemma yields_run {A} (Q : A → Prop) (m : SM S E A) s : yields Q m → I s → I (m s).2.
Proof. intros Hm Hs. specialize (Hm s Hs). destruct (m s) as [[a|e|] s']; [apply Hm|done..]. Qed.
Lemma yields_Ok {A} (Q : A → Prop) (m : SM S E A) s a s' :
  yields Q m → I s → m s = (Ok a, s') → Q a ∧ I s'.
Proof. intros Hm Hs Hr. specialize (Hm s Hs). by rewrite Hr in Hm. Qed.
Lemma yields_intro {A} (Q : A → Prop) (m : SM S E A) :
  (∀ s, I s → I (m s).2 ∧ ∀ a, (m s).1 = Ok a → Q a) → yields Q m.
Proof. intros Hm s Hs. destruct (Hm s Hs) as [HI HQ]. destruct (m s) as [[a|e|] s']; auto. Qed.

Lemma yields_sret {A} (Q : A → Prop) a : Q a → yields Q (sret a).
Proof. intros Ha. apply triple_sret. auto. Qed.
Lemma yields_sthrow {A} (Q : A → Prop) e : yields Q (sthrow e : SM S E A).
Proof. by intros s Hs. Qed.
Lemma yields_spanic {A} (Q : A → Prop) : yields Q (spanic : SM S E A).
Proof. by intros s Hs. Qed.
Lemma yields_sget : yields I (sget : SM S E S).
Proof. by intros s Hs. Qed.
Lemma yields_slift {A} (Q : A → Prop) (r : Result E A) : (∀ a, r = Ok a → Q a) → yields Q (slift r).
Proof. intros Hr. apply yields_intro. intros s Hs. split; [done|]. exact Hr. Qed.
Lemma yields_smodify (f : S → S) : (∀ s, I s → I (f s)) → yields (λ _, True) (smodify f : SM S E unit).
Proof. intros Hf s Hs. split; [done|]. by apply Hf. Qed.
Lemma yields_sbind {A B} (P : A → Prop) (Q : B → Prop) (m : SM S E A) (f : A → SM S E B) :
  yields P m → (∀ a, P a → yields Q (f a)) → yields Q (sbind m f).
Proof.
  intros Hm Hf. eapply triple_sbind; [exact Hm|]. intros a s [Ha Hs]. exact (Hf a Ha s Hs).
Qed.
Lemma yields_sfor {A} (P : A → Prop) (l : list A) (body : A → SM S E unit) :
  Forall P l → (∀ x, P x → yields (λ _, True) (body x)) → yields (λ _, True) (sfor l body).
Proof.
  intros Hl Hb. induction Hl as [|x l Hx _ IH]; simpl; [by apply yields_sret|].
  eapply yields_sbind; [by apply Hb|]. by intros [] _.
Qed.
Lemma yields_any {A} (r : Result E A) : yields (λ _, True) (slift r).
Proof. by apply yields_slift. Qed.
Lemma yields_conseq {A} (P Q : A → Prop) (m : SM S E A) :
  (∀ a, P a → Q a) → yields P m → yields Q m.
Proof. intros HPQ. apply triple_conseq; [done|]. intros a s [? ?]. auto. Qed.
End yields.

Create HintDb yields discriminated.
#[export] Hint Resolve yields_sget yields_any yields_sthrow yields_spanic : yields.
#[export] Hint Extern 2 (yields _ _ (sret _)) => apply yields_sret; done : yields.
(** The next call of a sequence keeps the invariant. *)
Ltac keep_next := eapply yields_sbind; [solve [eauto with yields]|intros ? ?].

(** A call under a lock, and a converted error. *)
Lemma yields_smap_err {S E E' A} (I : S → Prop) (Q : A → Prop) (f : E → E') (m : SM S E A) :
  yields I Q m → yields I Q (smap_err f m).
Proof.
  intros Hm s Hs. specialize (Hm s Hs). unfold smap_err. by destruct (m s) as [[a|e|] s'].
Qed.
Lemma yields_with_write {S E A} (I : S → Prop) (Q : A → Prop) (err : E) (m : SM S E A) :
  yields I Q m → yields (λ l, I (contents l)) Q (with_write err m).
Proof.
  intros Hm l Hl. unfold with_write. destruct (poisoned l); [done|].
  specialize (Hm _ Hl). by destruct (m (contents l)) as [[a|e|] s'].
Qed.

(** ** Typed values *)

Definition block_typed (b : Block) : Prop := payload_ok (PBlock b).
Definition tx_typed (tx : Transaction) : Prop := payload_ok (PTx tx).

Lemma block_typed_wf b : block_typed b → block_wf b.
Proof. by intros [? _]. Qed.

Lemma block_typed_txs b : block_typed b → Forall tx_typed (transactions b).
Proof.
  intros (Hwf&_&Hlim&Hsize). rewrite block_serialized_size_spec in Hsize by done.
  destruct Hwf as [_ Hwf]. rewrite Forall_forall in Hwf, Hlim |- *. intros tx Hin.
  split; [by apply Hwf|]. split; [by apply Hlim|].
  rewrite serialized_size_spec by apply (Hwf tx Hin).
  assert (serialized_size tx ≤ block_serialized_size b); [|unfold MAX_TRANSACTION_SERIALIZED_SIZE; lia].
  unfold block_serialized_size.
  assert (serialized_size tx ≤ foldr (λ tx acc, serialized_size tx + acc) 0 (transactions b)) as Hle.
  { clear -Hin. induction (transactions b) as [|x l IH]; [by apply not_elem_of_nil in Hin|]. simpl.
    pose proof (serialized_size_nonneg x).
    assert (0 ≤ foldr (λ tx acc, serialized_size tx + acc) 0 l) as H0.
    { clear. induction l as [|y l IH]; simpl; [lia|]. pose proof (serialized_size_nonneg y). lia. }
    apply elem_of_cons in Hin as [->|Hin]; [lia|]. specialize (IH Hin). lia. }
  unfold compact_size_encoded_len. repeat case_match; lia.
Qed.

(** ** The chain *)

(** Every block the chain holds, whichever way it can be reached. *)
Record chain_typed (c : Chain) : Prop := {
  ct_blocks : Forall block_typed (blocks c);
  ct_known : ∀ h m, known c !! h = Some m → block_typed (bm_block m);
  ct_orphans : ∀ h o, orphans c !! h = Some o → block_typed (oe_block o);
  ct_store : ∀ h b, store c !! h = Some b → block_typed b;
  ct_disconnected : Forall (λ e, block_typed (de_block e)) (d_entries (disconnected_journal c))
}.

Section chain.
Context {crypto : CryptoLib} {order : HashOrder} {flags : BuildFlags}.

Abbreviation cyields := (yields (E:=ChainError) chain_typed).

(** The setters that bring no block in. *)
Lemma typed_set_active bs hs w u c : Forall block_typed bs → chain_typed c → chain_typed (set_active bs hs w u c).
Proof. by intros ? []. Qed.
Lemma typed_set_known h m c : block_typed (bm_block m) → chain_typed c → chain_typed (set_known (<[h := m]> (known c)) c).
Proof.
  intros Hm []. split; try done. simpl. intros h' m' [[_ <-]|[_ ?]]%lookup_insert_Some; [done|eauto].
Qed.
Lemma typed_set_orphans o seq c :
  (∀ h e, o !! h = Some e → block_typed (oe_block e)) → chain_typed c → chain_typed (set_orphans o seq c).
Proof. by intros ? []. Qed.
Lemma typed_set_events j c : chain_typed c → chain_typed (set_journals j (disconnected_journal c) c).
Proof. by intros []. Qed.

(** The same blocks, with other hashes, work or outputs. *)
#[local] Hint Extern 2 (yields chain_typed _ (smodify _)) =>
  apply yields_smodify; intros ? ?; apply typed_set_active; [by apply ct_blocks|done] : yields.

Lemma yields_push_event e : cyields (λ _, True) (push_event e).
Proof.
  apply yields_intro. intros c Hc. unfold push_event. destruct (journal_push _ _) as [seq j].
  split; [by apply typed_set_events|done].
Qed.
Lemma yields_store_put b : block_typed b → cyields (λ _, True) (store_put b).
Proof.
  intros Hb. apply yields_intro. intros c []. split; [|done]. split; try done. simpl.
  intros h b' [[_ <-]|[_ ?]]%lookup_insert_Some; [done|eauto].
Qed.
Lemma yields_index h m :
  block_typed (bm_block m) →
  cyields (λ _, True) (smodify (λ c, set_known (<[h := m]> (known c)) c)).
Proof. intros Hm. apply yields_smodify. intros c. by apply typed_set_known. Qed.
Lemma yields_apply_block_transactions b : cyields (λ _, True) (apply_block_transactions b).
Proof.
  apply yields_intro. intros c Hc. unfold apply_block_transactions.
  destruct (apply_transactions _ _) as [undos u]. split; [|done]. by apply typed_set_active; [apply Hc|].
Qed.
#[local] Hint Resolve yields_push_event yields_store_put yields_index
  yields_apply_block_transactions : yields.

Lemma yields_evict_oldest_orphan : cyields (λ _, True) evict_oldest_orphan.
Proof.
  unfold evict_oldest_orphan. keep_next. destruct (min_by _ _) as [[hash o]|]; [|by apply yields_sret].
  eapply yields_sbind.
  { apply yields_smodify. intros s Hs. apply typed_set_orphans; [|done].
    intros h e [_ He]%lookup_delete_Some. by eapply ct_orphans. }
  intros _ _. keep_next. by apply yields_sret.
Qed.

Lemma yields_insert_orphan b : block_typed b → cyields (λ _, True) (insert_orphan b).
Proof.
  intros Hb. unfold insert_orphan. keep_next. apply (yields_sbind _ (λ _, True)).
  { case_match; [apply yields_evict_oldest_orphan|by apply yields_sret]. }
  intros _ _. eapply yields_sbind.
  { apply yields_smodify. intros s Hs. apply typed_set_orphans; [|done].
    intros h e [[_ <-]|[_ He]]%lookup_insert_Some; [done|by eapply ct_orphans]. }
  intros _ _. do 2 keep_next. by apply yields_sret.
Qed.

Lemma yields_push_active_block b m :
  block_typed b → block_typed (bm_block m) → cyields (λ _, True) (push_active_block b m).
Proof.
  intros Hb Hm. unfold push_active_block. do 2 keep_next. eapply yields_sbind.
  { apply yields_smodify. intros c Hc. apply typed_set_active; [|done].
    apply Forall_app. split; [apply Hc|by constructor]. }
  intros _ _. eauto with yields.
Qed.

Lemma yields_tip c :
  chain_typed c → cyields block_typed (slift (ok_or (last (blocks c)) NoActiveTip)).
Proof.
  intros Hc. apply yields_slift. intros b Hb.
  destruct (last (blocks c)) as [b'|] eqn:Hl; [|done]. injection Hb as <-.
  apply last_Some in Hl as [l Hl]. pose proof (ct_blocks c Hc) as H.
  rewrite Hl in H. by apply Forall_app in H as [_ [? _]%Forall_cons].
Qed.

Lemma yields_disconnect_tip_block : cyields (λ _, True) disconnect_tip_block.
Proof.
  unfold disconnect_tip_block. eapply yields_sbind; [apply yields_sget|]. intros c Hc.
  eapply yields_sbind; [by apply yields_tip|]. intros b Hb. eapply yields_sbind.
  { apply yields_smodify. intros s Hs. apply typed_set_active; [|done]. by apply Forall_take, Hs. }
  intros _ _. do 6 keep_next.
  apply yields_smodify. intros s []. split; try done. simpl. apply Forall_app.
  split; [|by constructor]. case_match; [by apply Forall_drop|done].
Qed.
#[local] Hint Resolve yields_insert_orphan yields_push_active_block yields_disconnect_tip_block : yields.

Lemma collect_fork_typed fuel c path oldest path' fork :
  chain_typed c → Forall block_typed path → collect_fork_loop fuel c path oldest = Ok (path', fork) →
  Forall block_typed path'.
Proof.
  intros Hc. revert path oldest. induction fuel as [|fuel IH]; intros path oldest Hp; simpl; [done|].
  case_bool_decide; [by intros [= <- <-]|].
  destruct (known c !! prev_blockhash (header oldest)) as [m|] eqn:Hm; [|done]. simpl.
  apply IH. constructor; [by eapply ct_known|done].
Qed.

Lemma yields_disconnect_until fuel fork n : cyields (λ _, True) (disconnect_until fuel fork n).
Proof.
  revert n. induction fuel as [|fuel IH]; intros n; simpl; [apply yields_spanic|].
  keep_next. case_bool_decide; [by apply yields_sret|]. keep_next. apply IH.
Qed.

Lemma yields_reconnect_block b : block_typed b → cyields (λ _, True) (reconnect_block b).
Proof.
  intros Hb. unfold reconnect_block. do 7 keep_next. by apply yields_sret.
Qed.

Lemma yields_try_reorg path fork w :
  Forall block_typed path → cyields (λ _, True) (try_reorg_to_block path fork w).
Proof.
  intros Hp. unfold try_reorg_to_block. do 2 keep_next.
  eapply yields_sbind; [apply yields_disconnect_until|]. intros n _.
  eapply yields_sbind; [eapply yields_sfor; [exact Hp|]; apply yields_reconnect_block|]. intros _ _.
  keep_next. by apply yields_sret.
Qed.

Lemma yields_reorg b w : block_typed b → cyields (λ _, True) (reorg_to_block b w).
Proof.
  intros Hb. eapply yields_sbind; [apply yields_sget|]. intros c Hc.
  eapply (yields_sbind _ (λ path, Forall block_typed path.1)).
  { apply yields_slift. intros [path fork] Hpath. eapply (collect_fork_typed _ c [b] b); [done| |done].
    by constructor. }
  intros [path fork] Hp. apply yields_intro. intros c1 Hc1.
  pose proof (yields_run _ _ _ _ (yields_try_reorg path fork w Hp) Hc1) as H.
  destruct (try_reorg_to_block path fork w c1) as [[d|e|] c2]; simpl in *; [done| |done].
  split; [|done]. by apply typed_set_active; [apply Hc1|].
Qed.
#[local] Hint Resolve yields_reorg : yields.

Lemma yields_connect_block_with after b :
  block_typed b → cyields (λ _, True) after → cyields (λ _, True) (connect_block_with after b).
Proof.
  intros Hb Hafter. unfold connect_block_with. do 2 keep_next. case_match; [apply yields_sthrow|].
  destruct (known _ !! _) as [pm|]; [|keep_next; by apply yields_sret].
  do 2 keep_next. case_bool_decide.
  - do 5 keep_next. by apply yields_sret.
  - case_match; [keep_next; by apply yields_sret|]. do 4 keep_next. by apply yields_sret.
Qed.

Lemma yields_enqueue_ready queue :
  Forall block_typed queue → cyields (Forall block_typed) (enqueue_ready_orphans queue).
Proof.
  intros Hq. apply yields_intro. intros c Hc. unfold enqueue_ready_orphans.
  set (ready := map fst _).
  assert (∀ q (o : gmap (list byte) OrphanEntry),
    Forall block_typed q → (∀ h e, o !! h = Some e → block_typed (oe_block e)) →
    let r := foldl (λ '(queue, o) hash, match o !! hash with
      | Some entry => (queue ++ [oe_block entry], delete hash o) | None => (queue, o) end) (q, o) ready in
    Forall block_typed r.1 ∧ ∀ h e, r.2 !! h = Some e → block_typed (oe_block e)) as Hfold.
  { induction ready as [|h ready IH]; intros q o Hq' Ho; [done|]. simpl.
    destruct (o !! h) as [e|] eqn:He; [|by apply IH]. apply IH.
    - apply Forall_app. split; [done|]. constructor; [by eapply Ho|done].
    - intros h' e' [_ ?]%lookup_delete_Some. by eapply Ho. }
  destruct (Hfold queue (orphans c) Hq (ct_orphans c Hc)) as [H1 H2].
  destruct (foldl _ _ ready) as [q o]. split; [by apply typed_set_orphans|by intros ? [= <-]].
Qed.

Lemma yields_process_queue fuel queue :
  Forall block_typed queue → cyields (λ _, True) (process_queue fuel queue).
Proof.
  revert queue. induction fuel as [|fuel IH]; intros queue Hq.
  { destruct queue; [by apply yields_sret|apply yields_spanic]. }
  destruct Hq as [|b queue Hb Hq]; [by apply yields_sret|]. cbn [process_queue].
  eapply yields_sbind; [apply yields_connect_block_with; [done|by apply yields_sret]|]. intros _ _.
  eapply yields_sbind; [by apply yields_enqueue_ready|]. apply IH.
Qed.

Lemma yields_connect_block b : block_typed b → cyields (λ _, True) (connect_block b).
Proof.
  intros Hb. apply yields_connect_block_with; [done|]. unfold process_orphans. keep_next.
  eapply yields_sbind; [by apply yields_enqueue_ready|]. intros q Hq. by apply yields_process_queue.
Qed.
End chain.

(** ** The pool *)

Definition pool_typed (p : Mempool) : Prop := ∀ t e, entries p !! t = Some e → tx_typed (me_tx e).

Lemma restorable_typed bs : Forall block_typed bs → Forall tx_typed (restorable bs).
Proof.
  intros Hbs. unfold restorable. apply Forall_concat, Forall_map. eapply Forall_impl; [exact Hbs|].
  intros b Hb%block_typed_txs. simpl. apply (Forall_drop _ 1) in Hb. rewrite Forall_forall in Hb.
  apply Forall_forall. intros tx [_ Hin]%list_elem_of_filter. by apply Hb.
Qed.

Section pool.
Context {crypto : CryptoLib} {order : HashOrder} {flags : BuildFlags}.

Abbreviation pyields := (yields (E:=MempoolError) pool_typed).

Lemma typed_remove_entry p t : pool_typed p → pool_typed (remove_entry p t).
Proof.
  intros Hp. unfold remove_entry. destruct (entries p !! t) as [e|]; [|done].
  intros t' e' He'. simpl in He'. apply lookup_delete_Some in He' as [_ ?]. by eapply Hp.
Qed.
Lemma typed_remove_entries ts p : pool_typed p → pool_typed (remove_entries p ts).
Proof. revert p. induction ts as [|t ts IH]; intros p Hp; [done|]. by apply IH, typed_remove_entry. Qed.

Lemma yields_remove_descendants t : pyields (λ _, True) (remove_entry_and_descendants t).
Proof.
  apply yields_intro. intros p Hp. unfold remove_entry_and_descendants.
  destruct (descendants_of p t); (split; [|done]); [by apply typed_remove_entries|done].
Qed.
Lemma yields_make_room_loop fuel e : pyields (λ _, True) (make_room_loop fuel e).
Proof.
  induction fuel as [|fuel IH]; apply yields_intro; intros p Hp; cbn [make_room_loop];
    (destruct (negb _); [done|]); (destruct (lowest_priority_txid p) as [v|]; [|done]);
    (destruct (negb _); [done|]); [done|].
  split; [|done]. eapply yields_run; [|exact Hp].
  eapply yields_sbind; [apply yields_remove_descendants|]. intros _ _. exact IH.
Qed.
#[local] Hint Resolve yields_remove_descendants : yields.

Lemma yields_accept_tx tx u :
  tx_typed tx → pyields (λ a, at_txid a = tx_id tx) (accept_tx tx u).
Proof.
  intros Htx p Hp. unfold accept_tx.
  match goal with |- context [sbind ?m ?f p] =>
    assert (pyields (λ a, at_txid a = tx_id tx) (sbind m f)) as H; [|exact (H p Hp)] end.
  keep_next. case_match; [apply yields_sthrow|]. case_match; [apply yields_sthrow|].
  do 5 keep_next. eapply (yields_sbind _ (λ _, True)).
  { intros p1 Hp1. exact (yields_make_room_loop _ _ p1 Hp1). }
  intros _ _. eapply yields_sbind; [|intros _ _; by apply yields_sret].
  apply yields_smodify. intros p1 Hp1 t e He. simpl in He.
  apply lookup_insert_Some in He as [[_ <-]|[_ ?]]; [done|by eapply Hp1].
Qed.

Lemma yields_remove_for_block b : pyields (λ _, True) (remove_for_block b).
Proof.
  apply yields_intro. intros p Hp. unfold remove_for_block.
  destruct (conflict_loop _ p _ _); (split; [|done]); [by apply typed_remove_entries|done].
Qed.
Lemma yields_revalidate u : pyields (λ _, True) (revalidate_pool u).
Proof.
  apply yields_intro. intros p Hp. split; [|done]. unfold revalidate_pool.
  generalize (size (entries p)). intros fuel. revert p Hp. induction fuel as [|fuel IH]; intros p Hp;
    cbn [revalidate_loop]; destruct (find_invalid_txids p u); try done.
  by apply IH, typed_remove_entries.
Qed.

Lemma yields_restore_pass pending u :
  Forall tx_typed pending → pyields (λ r, Forall tx_typed r.2) (restore_pass pending u).
Proof.
  induction 1 as [|tx pending Htx Hpend IH]; [by apply yields_sret; constructor|].
  intros p Hp. cbn [restore_pass]. pose proof (yields_run _ _ _ _ (yields_accept_tx tx u Htx) Hp) as Hp1.
  destruct (accept_tx tx u p) as [[a|e|] p1]; [| |done].
  - revert Hp1. apply (yields_sbind _ _ (λ r : bool * list Transaction, Forall tx_typed r.2) _ _ IH).
    intros [pr rem] Hr. by apply yields_sret.
  - revert Hp1. apply (yields_sbind _ _ (λ r : bool * list Transaction, Forall tx_typed r.2) _ _ IH).
    intros [pr rem] Hr. apply yields_sret. by constructor.
Qed.
Lemma yields_restore_loop fuel pending u :
  Forall tx_typed pending → pyields (λ _, True) (restore_loop fuel pending u).
Proof.
  revert pending. induction fuel as [|fuel IH]; intros pending Hp; cbn [restore_loop];
    (eapply yields_sbind; [by apply yields_restore_pass|]); intros [pr rem] Hr;
    (case_match; [by apply yields_sret|]); [apply yields_spanic|by apply IH].
Qed.
#[local] Hint Resolve yields_accept_tx yields_remove_for_block yields_revalidate : yields.

Lemma yields_synchronize u connected disconnected :
  Forall block_typed disconnected → pyields (λ _, True) (synchronize_to_chain u connected disconnected).
Proof.
  intros Hd. unfold synchronize_to_chain. eapply yields_sbind.
  { apply (yields_sfor _ (λ _, True)); [by apply Forall_true|]. intros b _. apply yields_remove_for_block. }
  intros _ _. keep_next. by apply yields_restore_loop, restorable_typed.
Qed.

Lemma block_by_hash_typed c h b : chain_typed c → block_by_hash c h = Some b → block_typed b.
Proof.
  intros Hc. unfold block_by_hash. destruct (known c !! h) as [m|] eqn:Hm; simpl.
  - intros [= <-]. by eapply ct_known.
  - destruct (orphans c !! h) as [o|] eqn:Ho; [|done]. intros [= <-]. by eapply ct_orphans.
Qed.

Lemma yields_apply_chain_events events c :
  chain_typed c → pyields (λ _, True) (apply_chain_events events c).
Proof.
  intros Hc. apply yields_synchronize. apply Forall_forall. intros b Hb.
  apply list_elem_of_omap in Hb as (e&_&He).
  destruct e; try done. by eapply block_by_hash_typed.
Qed.

Lemma yields_resync c since :
  chain_typed c →
  yields (E:=DisconnectedBlockRecoveryError) pool_typed (λ _, True) (resync_to_active_chain c since).
Proof.
  intros Hc. apply yields_intro. intros p Hp. split; [|done]. unfold resync_to_active_chain.
  destruct (recovery_disconnected_blocks c since) as [disc|e|] eqn:Hd; [|done..].
  assert (Forall block_typed disc) as Hdisc.
  { unfold recovery_disconnected_blocks, blocks_since in Hd. pose proof (ct_disconnected c Hc) as H.
    assert (disc = map de_block (filter (λ entry, since < de_event_seq entry)
      (d_entries (disconnected_journal c)))) as ->.
    { destruct (head _); [destruct (_ <? _)|]; congruence. }
    apply Forall_map, Forall_forall. intros x [_ Hx]%list_elem_of_filter. rewrite Forall_forall in H. by apply H. }
  match goal with |- pool_typed (match ?m p with _ => _ end).2 =>
    assert (pyields (λ _, True) m) as Hm end.
  { eapply yields_sbind.
    { apply (yields_sfor _ (λ _, True)); [by apply Forall_true|]. intros b _. apply yields_remove_for_block. }
    intros _ _. keep_next. by apply yields_restore_loop, restorable_typed. }
  pose proof (yields_run _ _ _ _ Hm Hp) as H.
  match goal with |- pool_typed (match ?r with _ => _ end).2 => destruct r as [[[]|e|] p'] end; exact H.
Qed.

Lemma typed_serve_transaction t u p :
  pool_typed p → pool_typed (serve_transaction t u p).2 ∧
  ∀ tx, (serve_transaction t u p).1 = Some tx → tx_typed tx.
Proof.
  intros Hp. unfold serve_transaction, get_transaction.
  destruct (entries p !! t) as [e|] eqn:He; simpl; [|done].
  destruct (is_valid_tx p (me_tx e) u); simpl; (split; [|try done]); [done| |by apply typed_remove_entry].
  intros tx [= <-]. by eapply Hp.
Qed.
End pool.

(** ** The first chain *)

Section genesis.
Context {crypto : CryptoLib} {order : HashOrder} {flags : BuildFlags}.

Lemma new_genesis_typed gen now c : block_typed gen → new_genesis gen now = Ok c → chain_typed c.
Proof.
  intros Hg. unfold new_genesis, with_journal_capacities. destruct (now =? 0); [done|].
  set (c0 := {| blocks := [] |}). assert (chain_typed c0) as H0 by (by split).
  intros ([]&_&H)%rbind_Ok. apply rbind_Ok in H as ([]&_&H).
  destruct (apply_transactions _ _) as [undo u]. apply rbind_Ok in H as (w&_&H).
  match type of H with match ?m c0 with _ => _ end = _ =>
    assert (yields chain_typed (λ _, True) m) as Hm end.
  { eapply yields_sbind; [by apply yields_store_put|]. intros _ _.
    eapply yields_sbind; [by apply yields_index|]. intros _ _. eapply yields_sbind.
    { apply yields_smodify. intros c1 Hc1. apply typed_set_active; [by constructor|done]. }
    intros _ _. eapply yields_sbind; [apply yields_push_event|]. intros _ _. by apply yields_sret. }
  pose proof (yields_run _ _ _ _ Hm H0) as Hrun.
  match type of H with match ?r with _ => _ end = _ => destruct r as [[[]|e|] c1] end; [|done..].
  by injection H as <-.
Qed.
End genesis.
