(* ===== verification/TypedNode.v ===== *)
(** * Well-typed nodes

    A node whose chain and pool hold only well-typed blocks and transactions, and that takes
    a well-typed message, is such a node afterwards, and what it answers or announces is
    well-typed: it can be encoded and every peer can decode it. *)

From stdpp Require Import prelude gmap strings list sorting.
From Stdlib Require Import Strings.Byte.
From S2P Require Import Prelude Bytes Crypto U256 Pow Difficulty Wire Transaction Merkle Block.
From S2P Require Import Utxo Script Sighash Journal Store Chain Mempool MempoolInv Message Handles.
From S2P Require Import Relay TypedState.

Local Open Scope Z_scope.
Local Open Scope list_scope.

Section node.
Context {crypto : CryptoLib} {laws : CryptoLaws crypto} {order : HashOrder} {flags : BuildFlags}.

Definition node_typed (n : Node) : Prop :=
  chain_typed (contents (n_chain n)) ∧ pool_typed (contents (n_pool n)).
Definition action_typed (a : RelayAction) : Prop :=
  match a with
  | NoAction => True
  | Reply messages => Forall message_ok messages
  | Announce items => payload_ok (PInv items)
  end.

Abbreviation nyields := (yields (E:=RelayError) node_typed).

Lemma yields_on_pool {A} (Q : A → Prop) (f : Chain → SM MempoolHandle MempoolHandleError A) :
  (∀ c, chain_typed c → yields (λ l, pool_typed (contents l)) Q (f c)) →
  nyields Q (with_chain_on_pool f).
Proof.
  intros Hf n [Hc Hp]. unfold with_chain_on_pool. destruct (poisoned (n_chain n)); [done|].
  specialize (Hf _ Hc (n_pool n) Hp). destruct (f _ _) as [[a|e|] pool]; [by destruct Hf|done..].
Qed.
Lemma yields_relay (Q : bool → Prop) (m : RM bool) :
  (∀ n, n_chain (m n).2 = n_chain n ∧ n_pool (m n).2 = n_pool n) → (∀ b, Q b) → nyields Q m.
Proof.
  intros Hm HQ. apply yields_intro. intros n [Hc Hp]. destruct (Hm n) as [H1 H2]. split; [|done].
  unfold node_typed. by rewrite H1, H2.
Qed.
Lemma yields_mark_block h now : nyields (λ _, True) (mark_block_requested h now).
Proof. apply yields_relay; [|done]. intros n. unfold mark_block_requested. by destruct (mark_requested _ _ _). Qed.
Lemma yields_mark_tx h now : nyields (λ _, True) (mark_tx_requested h now).
Proof. apply yields_relay; [|done]. intros n. unfold mark_tx_requested. by destruct (mark_requested _ _ _). Qed.
Lemma yields_read_chain {A} (f : ChainHandle → Result ChainError A) : nyields (λ _, True) (read_chain f).
Proof. apply yields_intro. by intros n. Qed.
Lemma yields_read_pool {A} (f : MempoolHandle → Result MempoolHandleError A) : nyields (λ _, True) (read_pool f).
Proof. apply yields_intro. by intros n. Qed.
Lemma yields_clear_block h : nyields (λ _, True) (clear_block_request h).
Proof. by apply yields_smodify. Qed.
Lemma yields_clear_tx h : nyields (λ _, True) (clear_tx_request h).
Proof. by apply yields_smodify. Qed.
Hint Resolve yields_mark_block yields_mark_tx yields_read_chain yields_read_pool yields_clear_block
  yields_clear_tx : yields.

Lemma yields_sync_mempool : nyields (λ _, True) sync_mempool.
Proof.
  intros n Hn. unfold sync_mempool, handle_collect_events.
  destruct (poisoned (n_chain n)); [exact Hn|].
  destruct (collect_events _ _) as [[events|e|] cursor]; [| |exact Hn]; simpl.
  - case_bool_decide; [done|].
    assert (nyields (λ _, True) (with_chain_on_pool (pool_apply_chain_events events))) as Hy; [|by apply Hy].
    apply yields_on_pool. intros c Hc. apply yields_with_write, yields_smap_err.
    by apply yields_apply_chain_events.
  - match goal with |- context [sbind ?a ?f n] =>
      assert (nyields (λ _, True) (sbind a f)) as Hy; [|exact (Hy n Hn)] end.
    keep_next. eapply yields_sbind; [by apply yields_smodify|]. intros _ _.
    apply yields_on_pool. intros c Hc. apply yields_with_write, yields_smap_err. by apply yields_resync.
Qed.
Hint Resolve yields_sync_mempool : yields.

Lemma yields_handle_tx tx : tx_typed tx → nyields action_typed (handle_tx tx).
Proof.
  intros Htx. unfold handle_tx. eapply yields_sbind; [apply yields_clear_tx|]. intros _ _ n Hn.
  assert (nyields (λ a, at_txid a = tx_id tx)
    (with_chain_on_pool (λ active, pool_accept_tx tx (utxo active)))) as Hpool.
  { apply yields_on_pool. intros c Hc. apply yields_with_write, yields_smap_err. by apply yields_accept_tx. }
  specialize (Hpool n Hn). destruct (with_chain_on_pool _ n) as [[a|[e|[| |]]|] n']; try done.
  destruct Hpool as [-> Hn']. split; [|done]. simpl. split; [|done]. constructor; [|done].
  apply length_sha256d.
Qed.

Lemma yields_request_missing h now : length h = 32%nat → nyields action_typed (request_missing_block h now).
Proof.
  intros Hh. unfold request_missing_block. keep_next. case_match; [by apply yields_sret|].
  keep_next. case_match; apply yields_sret; [done|]. constructor; [|done].
  split; [done|]. split; [|done]. by constructor.
Qed.

Lemma yields_handle_block b now : block_typed b → nyields action_typed (handle_block b now).
Proof.
  intros Hb n [Hc Hp]. unfold handle_block.
  assert (yields (λ l, chain_typed (contents l)) (λ _, True) (handle_connect_block b)) as H.
  { apply yields_with_write. by apply yields_connect_block. }
  pose proof (yields_run _ _ _ _ H Hc) as Hc'. destruct (handle_connect_block b (n_chain n)) as [r chain].
  simpl in Hc'. assert (node_typed (set_chain chain n)) as Hn by done.
  assert (nyields action_typed (do! clear_block_request (block_hash b) ;; do! sync_mempool ;;
    sret (Announce [{| inv_type := InvBlock; inv_hash := block_hash b |}]))) as Hann.
  { do 2 keep_next. apply yields_sret. split; [|done]. constructor; [|done]. apply length_sha256d. }
  assert (∀ e, nyields action_typed (do! clear_block_request (block_hash b) ;;
    do! clear_block_request (prev_blockhash (header b)) ;; sthrow (RelayChain e))) as Herr.
  { intros e. do 2 keep_next. apply yields_sthrow. }
  destruct r as [[| | |]|e|]; [by apply Hann| |by apply Hann|done| |done].
  - by apply yields_request_missing; [apply Hb|].
  - destruct e; try (by apply Herr); done.
Qed.

Lemma yields_wanted item now : nyields (λ _, True) (wanted item now).
Proof.
  unfold wanted. destruct (inv_type item); [| |by apply yields_sret];
    (keep_next; case_match; [by apply yields_sret|eauto with yields]).
Qed.
Lemma yields_collect items now :
  Forall inventory_wf items →
  nyields (λ rs, Forall inventory_wf rs ∧ zlen rs ≤ zlen items) (collect_requests items now).
Proof.
  induction 1 as [|i items Hi _ IH]; [by apply yields_sret|].
  cbn [collect_requests]. eapply yields_sbind; [apply yields_wanted|]. intros want _.
  eapply yields_sbind; [exact IH|]. intros rs [Hrs Hl]. apply yields_sret. rewrite zlen_cons.
  destruct want; [|split; [done|lia]]. rewrite zlen_cons. split; [by constructor|lia].
Qed.

Lemma yields_serve_item item : nyields (Forall message_ok) (serve_item item).
Proof.
  intros n Hn. unfold serve_item. destruct (inv_type item); [| |by split].
  - assert (nyields (λ o, ∀ tx, o = Some tx → tx_typed tx) (with_chain_on_pool (λ active,
      pool_serve_transaction (inv_hash item) (utxo active)))) as H.
    { apply yields_on_pool. intros c _. apply yields_with_write, yields_intro. intros p Hp.
      destruct (typed_serve_transaction (inv_hash item) (utxo c) p Hp) as [H1 H2].
      destruct (serve_transaction _ _ p) as [o p']. split; [done|]. by intros a [= <-]. }
    specialize (H n Hn). destruct (with_chain_on_pool _ n) as [[[tx|]|e|] n']; try done.
    + destruct H as [H ?]. split; [|done]. constructor; [|done]. split; [done|]. by apply H.
    + by destruct H.
  - unfold get_block, with_read. destruct (poisoned (n_chain n)); [done|]. cbv beta iota.
    destruct (block_by_hash _ _) as [b|] eqn:Hb; [|done]. split; [|done]. constructor; [|done].
    split; [done|]. eapply block_by_hash_typed; [apply Hn|done].
Qed.
Lemma yields_serve items : nyields (Forall message_ok) (serve_items items).
Proof.
  induction items as [|i items IH]; [by apply yields_sret|]. cbn [serve_items].
  eapply yields_sbind; [apply yields_serve_item|]. intros r1 H1.
  eapply yields_sbind; [exact IH|]. intros r2 H2. apply yields_sret. by apply Forall_app.
Qed.

Lemma yields_handle_peer_message m now :
  message_ok m → nyields action_typed (handle_peer_message m now).
Proof.
  intros [_ Hm]. unfold handle_peer_message. destruct (payload m) as [|v|items|items|b|tx].
  - by apply yields_sret.
  - by apply yields_sret.
  - destruct Hm as [Hwf Hlen]. eapply yields_sbind; [by apply yields_collect|]. intros rs [Hrs Hl].
    apply yields_sret. case_bool_decide; [done|]. constructor; [|done]. split; [done|].
    split; [done|]. lia.
  - eapply yields_sbind; [apply yields_serve|]. intros rs Hrs. apply yields_sret.
    by case_bool_decide.
  - by apply yields_handle_block.
  - by apply yields_handle_tx.
Qed.
End node.
