(* ===== verification/Peer.v ===== *)
(** * The task of one peer (bitrst-net/src/peer.rs)

    [run_peer] as a state machine over its inputs: what the framed reader returns, commands of
    the manager, the handshake's timeout.  The task owns a queue to its writer and one from
    the manager; handing a message to the writer, or an event to the manager, waits while the
    queue is full, so each is a step of its own.  A step works on the shared chain and pool,
    the queue of events and the task.  Handling a message is one step, although the handler
    (peer.rs:222, on a blocking thread) takes the locks of the chain and the pool one after
    the other (relay.rs:205-219, 260). *)

From stdpp Require Import prelude gmap strings list.
From Stdlib Require Import Strings.Byte.
From S2P Require Import Prelude Bytes Crypto U256 Wire Transaction Merkle Block Utxo Script.
From S2P Require Import Sighash Journal Store Chain Mempool Message Handshake Handles Relay.

Local Open Scope string_scope.
Local Open Scope Z_scope.
Local Open Scope list_scope.

(** ** Data *)

(** The bytes of the IP address, and the port. *)
Abbreviation SocketAddr := (list Z * Z)%type.

Definition MAX_OUTBOUND_QUEUE : Z := 128.
Definition MAX_PEER_EVENTS : Z := 256.
Definition MAX_PEER_REGISTRATIONS : Z := 32.
(** The capacity of the command channel that [spawn_peer] creates. *)
Definition COMMAND_QUEUE : Z := 32.

Inductive PeerEvent :=
| PeerReady (addr : SocketAddr)
| PeerAnnounce (addr : SocketAddr) (items : list InventoryVector)
| PeerDisconnected (addr : SocketAddr) (error : NetError)
| RegistrationRejected (addr : SocketAddr) (error : NetError).

Inductive PeerCommand :=
| Send (message : Message)
| Shutdown.

(** Where a task is: in the handshake loop, in the main loop, waiting to hand an event to the
    manager, told to stop and waiting for its writer to finish, at its end. *)
Inductive Stage :=
| Handshaking
| Running
| Emitting (event : PeerEvent)
| Closing
| Finished.

Record PeerTask := {
  t_addr : SocketAddr;
  t_handshake : HandshakeState;
  t_version : VersionMessage;
  t_relay : PeerRelayState;
  t_stage : Stage;
  t_sending : list Message;       (* still to be handed to the writer *)
  t_outbox : list Message;        (* the queue of the [MessageWriter] *)
  t_writer : bool;                (* the writer task is running *)
  t_commands : list PeerCommand;  (* the command channel *)
  t_guard : bool                  (* the task owns an inbound guard *)
}.

(** ** Updates *)

Definition set_stage (s : Stage) (t : PeerTask) : PeerTask :=
  {| t_addr := t_addr t; t_handshake := t_handshake t; t_version := t_version t;
     t_relay := t_relay t; t_stage := s; t_sending := t_sending t; t_outbox := t_outbox t;
     t_writer := t_writer t; t_commands := t_commands t; t_guard := t_guard t |}.
Definition set_handshake (h : HandshakeState) (t : PeerTask) : PeerTask :=
  {| t_addr := t_addr t; t_handshake := h; t_version := t_version t;
     t_relay := t_relay t; t_stage := t_stage t; t_sending := t_sending t; t_outbox := t_outbox t;
     t_writer := t_writer t; t_commands := t_commands t; t_guard := t_guard t |}.
Definition set_task_relay (r : PeerRelayState) (t : PeerTask) : PeerTask :=
  {| t_addr := t_addr t; t_handshake := t_handshake t; t_version := t_version t;
     t_relay := r; t_stage := t_stage t; t_sending := t_sending t; t_outbox := t_outbox t;
     t_writer := t_writer t; t_commands := t_commands t; t_guard := t_guard t |}.
Definition set_sending (s : list Message) (t : PeerTask) : PeerTask :=
  {| t_addr := t_addr t; t_handshake := t_handshake t; t_version := t_version t;
     t_relay := t_relay t; t_stage := t_stage t; t_sending := s; t_outbox := t_outbox t;
     t_writer := t_writer t; t_commands := t_commands t; t_guard := t_guard t |}.
Definition set_outbox (o : list Message) (running : bool) (t : PeerTask) : PeerTask :=
  {| t_addr := t_addr t; t_handshake := t_handshake t; t_version := t_version t;
     t_relay := t_relay t; t_stage := t_stage t; t_sending := t_sending t; t_outbox := o;
     t_writer := running; t_commands := t_commands t; t_guard := t_guard t |}.
Definition set_commands (c : list PeerCommand) (t : PeerTask) : PeerTask :=
  {| t_addr := t_addr t; t_handshake := t_handshake t; t_version := t_version t;
     t_relay := t_relay t; t_stage := t_stage t; t_sending := t_sending t; t_outbox := t_outbox t;
     t_writer := t_writer t; t_commands := c; t_guard := t_guard t |}.
Definition drop_guard (t : PeerTask) : PeerTask :=
  {| t_addr := t_addr t; t_handshake := t_handshake t; t_version := t_version t;
     t_relay := t_relay t; t_stage := t_stage t; t_sending := t_sending t; t_outbox := t_outbox t;
     t_writer := t_writer t; t_commands := t_commands t; t_guard := false |}.

(** [run_peer] has returned: its receiver of commands, its guard and its writer handle are
    dropped. *)
Definition leave (s : Stage) (t : PeerTask) : PeerTask :=
  drop_guard (set_commands [] (set_sending [] (set_stage s t))).
Definition closed (t : PeerTask) : bool :=
  match t_stage t with Finished | Emitting (PeerDisconnected _ _) => true | _ => false end.

(** [run_peer] returns an error: [spawn_peer] has an event to send. *)
Definition fail (e : NetError) (t : PeerTask) : PeerTask :=
  leave (Emitting (PeerDisconnected (t_addr t) e)) t.
(** [run_peer] returns [Ok(())]. *)
Definition finish_task (t : PeerTask) : PeerTask := leave Finished t.

Definition relay_error_to_net (error : RelayError) : NetError :=
  match error with
  | RelayChain e => NetChain e
  | RelayMempool _ => Io "mempool relay"
  end.

Section peer.
Context {crypto : CryptoLib} {order : HashOrder} {flags : BuildFlags}.

(** ** The steps of [run_peer] *)

(** [spawn_peer], up to the handshake loop. *)
Definition spawn_peer (addr : SocketAddr) (dir : ConnectionDirection) (cfg : HandshakeConfig)
    (start_height unix_timestamp : Z) (guard : bool) (chain : ChainHandle) : PeerTask :=
  let handshake := new_handshake dir cfg in
  let local := default_version_message (local_nonce cfg) unix_timestamp start_height in
  let task cursor := {|
    t_addr := addr; t_handshake := handshake; t_version := local;
    t_relay := with_event_cursor cursor; t_stage := Handshaking;
    t_sending := initial_outbound_messages handshake local;
    t_outbox := []; t_writer := true; t_commands := []; t_guard := guard |} in
  match handle_event_cursor chain with
  | Ok cursor => task cursor
  | Err e => fail (NetChain e) (task {| last_seq := 0 |})
  | Panic => fail TaskJoinFailed (task {| last_seq := 0 |})
  end.

(** The condition of the handshake loop, once everything has been handed to the writer. *)
Definition check_established (t : PeerTask) : PeerTask :=
  match t_stage t, t_sending t with
  | Handshaking, [] =>
      if bool_decide (phase (t_handshake t) = Established)
      then set_stage (Emitting (PeerReady (t_addr t))) t else t
  | _, _ => t
  end.

(** The framed reader returns in the handshake loop. *)
Definition handshake_receive (r : Result NetError Message) (t : PeerTask) : PeerTask :=
  match r with
  | Ok message =>
      match on_message message
              (if bool_decide (direction (t_handshake t) = Inbound) then Some (t_version t) else None)
              (t_handshake t) with
      | (Ok replies, h) => check_established (set_sending replies (set_handshake h t))
      | (Err e, h) => fail e (set_handshake h t)
      | (Panic, h) => fail TaskJoinFailed (set_handshake h t)
      end
  | Err e => fail e t
  | Panic => fail TaskJoinFailed t
  end.

(** The shared handles a task works on. *)
Definition Shared : Type := ChainHandle * MempoolHandle.

(** The framed reader returns in the main loop. *)
Definition running_receive (r : Result NetError Message) (now : Z) (sh : Shared) (t : PeerTask)
    : Shared * PeerTask :=
  match r with
  | Ok message =>
      match payload message with
      | PVersion _ | PVerack => (sh, fail (HandshakeViolation "version/verack after handshake") t)
      | _ =>
          let '(action, n) := handle_peer_message message now
            {| n_chain := sh.1; n_pool := sh.2; n_relay := t_relay t |} in
          let sh := (n_chain n, n_pool n) in
          let t := set_task_relay (n_relay n) t in
          match action with
          | Ok NoAction => (sh, t)
          | Ok (Reply messages) => (sh, set_sending messages t)
          | Ok (Announce items) => (sh, set_stage (Emitting (PeerAnnounce (t_addr t) items)) t)
          | Err e => (sh, fail (relay_error_to_net e) t)
          | Panic => (sh, fail TaskJoinFailed t)
          end
      end
  | Err e => (sh, fail e t)
  | Panic => (sh, fail TaskJoinFailed t)
  end.

(** A command; [None] when every sender is gone. *)
Definition take_command (command : option PeerCommand) (t : PeerTask) : PeerTask :=
  match command with
  | Some (Send message) => set_sending [message] t
  | Some Shutdown | None => set_stage Closing t
  end.

(** [writer.send(message).await] *)
Definition push (message : Message) (rest : list Message) (t : PeerTask) : PeerTask :=
  if t_writer t
  then check_established (set_sending rest (set_outbox (t_outbox t ++ [message]) true t))
  else fail OutboundQueueFull t.

(** The manager's queue of events, as a sender finds it: with room, full, or without its
    receiver. *)
Inductive EventQueue := Room | Full | Gone.

(** After [emit_event] has handed the event over. *)
Definition emitted (event : PeerEvent) (t : PeerTask) : PeerTask :=
  match event with
  | PeerDisconnected _ _ => set_stage Finished t
  | _ => set_stage Running t
  end.
(** After [emit_event] has found that nobody receives: [run_peer] returns the error, and the
    disconnection that [spawn_peer] then sends is lost as well. *)
Definition unheard (event : PeerEvent) (t : PeerTask) : PeerTask :=
  match event with
  | PeerDisconnected _ _ => set_stage Finished t
  | _ => fail EventQueueFull t
  end.

(** What the framed reader can return: an error, or a message that some bytes decode to. *)
Definition readable (r : Result NetError Message) : Prop :=
  match r with Ok message => ∃ c bs, decode_payload c bs = Ok message | _ => True end.

(** What a step shows to the outside. *)
Inductive Label :=
| Quiet
| Says (message : Message)
| Emits (event : PeerEvent).

(** One step of a task.  [linked] says that the manager still holds a sender of commands,
    [queue] what has become of its queue of events. *)
Inductive peer_step (linked : bool) (queue : EventQueue) (sh : Shared) (t : PeerTask)
    : Label → Shared → PeerTask → Prop :=
| peer_handshake r :
    t_stage t = Handshaking → t_sending t = [] → readable r →
    peer_step linked queue sh t Quiet sh (handshake_receive r t)
| peer_timeout :
    t_stage t = Handshaking → t_sending t = [] →
    peer_step linked queue sh t Quiet sh
      (fail (HandshakeTimeout (hs_timeout (config (t_handshake t)))) t)
| peer_receive r now sh' t' :
    t_stage t = Running → t_sending t = [] → running_receive r now sh t = (sh', t') →
    readable r → peer_step linked queue sh t Quiet sh' t'
| peer_command c commands :
    t_stage t = Running → t_sending t = [] → t_commands t = c :: commands →
    peer_step linked queue sh t Quiet sh (take_command (Some c) (set_commands commands t))
| peer_unlinked :
    t_stage t = Running → t_sending t = [] → t_commands t = [] → linked = false →
    peer_step linked queue sh t Quiet sh (take_command None t)
| peer_drained :
    t_stage t = Closing → t_writer t = false ∨ t_outbox t = [] →
    peer_step linked queue sh t Quiet sh (finish_task t)
| peer_push message rest :
    t_sending t = message :: rest → t_writer t = true → zlen (t_outbox t) < MAX_OUTBOUND_QUEUE →
    peer_step linked queue sh t (Says message) sh (push message rest t)
| peer_push_error message rest :
    t_sending t = message :: rest → t_writer t = false →
    peer_step linked queue sh t Quiet sh (push message rest t)
| peer_write message outbox :
    t_writer t = true → t_outbox t = message :: outbox →
    peer_step linked queue sh t Quiet sh (set_outbox outbox true t)
| peer_write_error :
    t_writer t = true → peer_step linked queue sh t Quiet sh (set_outbox [] false t)
| peer_emit event :
    t_stage t = Emitting event → t_sending t = [] → queue = Room →
    peer_step linked queue sh t (Emits event) sh (emitted event t)
| peer_unheard event :
    t_stage t = Emitting event → t_sending t = [] → queue = Gone →
    peer_step linked queue sh t (Emits event) sh (unheard event t).

(** ** The protocol of one task *)

(** A run: the events it sends, heard or not, and the messages it hands to its writer. *)
Inductive peer_run (t0 : PeerTask) : list PeerEvent → list Message → PeerTask → Prop :=
| run_start : peer_run t0 [] [] t0
| run_next events said t linked queue sh l sh' t' :
    peer_run t0 events said t → peer_step linked queue sh t l sh' t' →
    peer_run t0
      (match l with Emits e => events ++ [e] | _ => events end)
      (match l with Says m => said ++ [m] | _ => said end) t'.

(** The messages of the handshake, and those already said or being said at each phase. *)
Definition greeting (t : PeerTask) : list Message := [msg_version (t_version t); msg_verack].
Definition greeted (t : PeerTask) : list Message :=
  match phase (t_handshake t) with
  | AwaitingVersion => []
  | AwaitingPeerVersion => [msg_version (t_version t)]
  | AwaitingVerack | Established => greeting t
  end.

Definition is_announce (addr : SocketAddr) (e : PeerEvent) : Prop :=
  match e with PeerAnnounce a _ => a = addr | _ => False end.
(** Nothing emitted yet and part of the greeting said; or established and announcing. *)
Definition unready (t : PeerTask) (events : list PeerEvent) (said : list Message) : Prop :=
  events = [] ∧ said `prefix_of` greeting t.
Definition ready (t : PeerTask) (events : list PeerEvent) (said : list Message) : Prop :=
  (∃ announces, events = PeerReady (t_addr t) :: announces ∧
     Forall (is_announce (t_addr t)) announces) ∧
  greeting t `prefix_of` said ∧ phase (t_handshake t) = Established.

Definition peer_inv (t : PeerTask) (events : list PeerEvent) (said : list Message) : Prop :=
  (phase (t_handshake t) = AwaitingVersion → direction (t_handshake t) = Inbound) ∧
  (phase (t_handshake t) = AwaitingPeerVersion → direction (t_handshake t) = Outbound) ∧
  match t_stage t with
  | Handshaking => events = [] ∧ said ++ t_sending t = greeted t
  | Running => ready t events said
  | Emitting (PeerReady addr) =>
      addr = t_addr t ∧ events = [] ∧ said = greeting t ∧ t_sending t = [] ∧
      phase (t_handshake t) = Established
  | Emitting (PeerAnnounce addr _) => addr = t_addr t ∧ ready t events said ∧ t_sending t = []
  | Emitting (PeerDisconnected addr _) =>
      addr = t_addr t ∧ (unready t events said ∨ ready t events said) ∧ t_sending t = []
  | Emitting (RegistrationRejected _ _) => False
  | Closing => t_sending t = [] ∧ ready t events said
  | Finished => t_sending t = [] ∧ (ready t events said ∨ ∃ e before,
      events = before ++ [PeerDisconnected (t_addr t) e] ∧
      (unready t before said ∨ ready t before said))
  end.

Lemma greeted_prefix t said rest : said ++ rest = greeted t → said `prefix_of` greeting t.
Proof.
  intros Heq. trans (greeted t); [rewrite <- Heq; by apply prefix_app_r|].
  unfold greeted, greeting. destruct (phase _); [apply prefix_nil| |done|done].
  by exists [msg_verack].
Qed.

Lemma check_established_inv t events said :
  t_stage t = Handshaking → peer_inv t events said → peer_inv (check_established t) events said.
Proof.
  intros Hs Hinv. unfold check_established. rewrite Hs. destruct (t_sending t) eqn:He; [|done].
  case_bool_decide as Hp; [|done]. destruct Hinv as (Hd1&Hd2&Hst). rewrite Hs, He in Hst.
  destruct Hst as [-> Hg]. rewrite (right_id_L [] (++)) in Hg. split_and!; [done|done|].
  simpl. split_and!; [done|done| |done|done]. rewrite Hg. unfold greeted. by rewrite Hp.
Qed.

Lemma fail_inv e t events said :
  (unready t events said ∨ ready t events said) →
  (phase (t_handshake t) = AwaitingVersion → direction (t_handshake t) = Inbound) →
  (phase (t_handshake t) = AwaitingPeerVersion → direction (t_handshake t) = Outbound) →
  peer_inv (fail e t) events said.
Proof. by intros H ??. Qed.

Lemma peer_inv_handshaking t events said :
  peer_inv t events said → t_stage t = Handshaking → unready t events said.
Proof.
  intros (_&_&Hs) Hst. rewrite Hst in Hs. destruct Hs as [-> Hs]. split; [done|].
  by eapply greeted_prefix.
Qed.

(** The four ways [on_message] can end, for an end whose first phase fits its direction. *)
Lemma on_message_cases m local h r h' :
  (phase h = AwaitingVersion → direction h = Inbound) →
  (phase h = AwaitingPeerVersion → direction h = Outbound) →
  on_message m (if bool_decide (direction h = Inbound) then Some local else None) h = (r, h') →
  (∃ e, r = Err e ∧ h' = h) ∨
  (awaits_version h ∧ ∃ v, r = Ok (version_replies (direction h) local) ∧
     h' = with_version h AwaitingVerack v) ∨
  (phase h = AwaitingVerack ∧ r = Ok [] ∧ h' = set_phase Established h) ∨
  (phase h = Established ∧ r = Ok [] ∧ h' = h).
Proof.
  intros Hd1 Hd2. assert (phase h = AwaitingVerack ∨ phase h = Established ∨ awaits_version h) as Hp.
  { unfold awaits_version. destruct (phase h); auto; right; right; [by rewrite Hd1|by rewrite Hd2]. }
  destruct Hp as [Hp|[Hp|Hp]].
  - unfold on_message, sbind, sget. rewrite Hp. destruct (payload m); intros [= <- <-]; eauto 10.
  - rewrite on_message_established by done. intros [= <- <-]. by do 3 right.
  - assert ((∃ v, payload m = PVersion v) ∨ ∀ v, payload m ≠ PVersion v) as [[v Hm]|Hm].
    { destruct (payload m); eauto; by right. }
    + rewrite (on_message_version _ _ v) by done.
      destruct (vm_nonce v =? _); intros [= <- <-]; [left; by eauto|]. right; left. eauto.
    + rewrite on_message_other by done. intros [= <- <-]. left. eauto.
Qed.

Lemma handshake_receive_inv r t events said :
  t_stage t = Handshaking → t_sending t = [] → peer_inv t events said →
  peer_inv (handshake_receive r t) events said.
Proof.
  intros Hst Hse Hinv. pose proof (peer_inv_handshaking _ _ _ Hinv Hst) as Hu.
  destruct Hinv as (Hd1&Hd2&Hs). rewrite Hst, Hse, (right_id_L [] (++)) in Hs.
  destruct Hs as [-> Hg]. destruct r as [m|e|]; [|apply fail_inv; [by left|exact Hd1|exact Hd2]..].
  unfold handshake_receive. destruct (on_message m _ (t_handshake t)) as [r h] eqn:Hm.
  destruct (on_message_cases _ _ _ _ _ Hd1 Hd2 Hm)
    as [(e&->&->)|[(Haw&v&->&->)|[(Hp&->&->)|(Hp&->&->)]]].
  - apply fail_inv; [by left|exact Hd1|exact Hd2].
  - apply check_established_inv; [done|]. split_and!; [done|done|]. simpl. rewrite Hst.
    split; [done|]. rewrite Hg. unfold greeted, greeting, awaits_version in *. simpl. rewrite Haw.
    by destruct (direction (t_handshake t)).
  - apply check_established_inv; [done|]. split_and!; [done|done|]. simpl. rewrite Hst.
    split; [done|]. rewrite Hg, (right_id_L [] (++)). unfold greeted. simpl. by rewrite Hp.
  - apply check_established_inv; [done|]. split_and!; [exact Hd1|exact Hd2|]. simpl.
    rewrite Hst. split; [done|]. by rewrite Hg, (right_id_L [] (++)).
Qed.

Lemma running_receive_inv r now sh t sh' t' events said :
  t_stage t = Running → t_sending t = [] → running_receive r now sh t = (sh', t') →
  peer_inv t events said → peer_inv t' events said.
Proof.
  intros Hst Hse Hrun (Hd1&Hd2&Hs). rewrite Hst in Hs.
  assert (∀ e, peer_inv (fail e t) events said) as Hfail by (intros e; apply fail_inv; auto).
  unfold running_receive in Hrun. destruct r as [m|e|]; [|by injection Hrun as _ <-..].
  assert (∀ n action,
    (let t1 := set_task_relay n t in
     match action with
     | Ok NoAction => t1
     | Ok (Reply messages) => set_sending messages t1
     | Ok (Announce items) => set_stage (Emitting (PeerAnnounce (t_addr t1) items)) t1
     | Err e => fail (relay_error_to_net e) t1
     | Panic => fail TaskJoinFailed t1
     end) = t' → peer_inv t' events said) as Haction.
  { intros n action <-. destruct action as [[|messages|items]|e|]; simpl.
    - split_and!; [done|done|]. simpl. by rewrite Hst.
    - split_and!; [done|done|]. simpl. by rewrite Hst.
    - split_and!; [done|done|]. simpl. by split_and!.
    - apply Hfail.
    - apply Hfail. }
  destruct (payload m); try (injection Hrun as _ <-; apply Hfail);
    (destruct (handle_peer_message m now _) as [action n]; apply (Haction (n_relay n) action);
     destruct action as [[| |]| |]; by injection Hrun).
Qed.

Lemma peer_step_inv linked queue sh t l sh' t' events said :
  peer_step linked queue sh t l sh' t' → peer_inv t events said →
  peer_inv t' (match l with Emits e => events ++ [e] | _ => events end)
    (match l with Says m => said ++ [m] | _ => said end).
Proof.
  intros Hstep Hinv. destruct Hstep as
    [r Hst Hse|Hst Hse|r now sh' t' Hst Hse Hr|c cs Hst Hse Hc|Hst Hse Hc Hl|Hst Hdr|m rest Hse Hw Hroom
    |m rest Hse Hw|m ob Hw Hob|Hw|e Hst Hse Hroom|e Hst Hse Hgone].
  - by apply handshake_receive_inv.
  - apply fail_inv; [left; by apply peer_inv_handshaking|apply Hinv..].
  - by eapply running_receive_inv.
  - destruct Hinv as (Hd1&Hd2&Hs). rewrite Hst in Hs. destruct c as [m|]; simpl.
    + split_and!; [done|done|]. simpl. by rewrite Hst.
    + by split_and!.
  - destruct Hinv as (Hd1&Hd2&Hs). rewrite Hst in Hs. by split_and!.
  - destruct Hinv as (Hd1&Hd2&Hs). rewrite Hst in Hs. destruct Hs as [_ Hs].
    split_and!; [done|done|]. simpl. split; [done|]. by left.
  - unfold push. rewrite Hw. destruct Hinv as (Hd1&Hd2&Hs).
    destruct (t_stage t) as [| |e| |] eqn:Hst; rewrite ?Hse in Hs.
    + apply check_established_inv; [done|]. split_and!; [done|done|]. simpl. rewrite Hst.
      destruct Hs as [-> Hs]. split; [done|]. by rewrite <- (assoc_L (++)).
    + unfold check_established. simpl. rewrite Hst. split_and!; [done|done|]. simpl. rewrite Hst.
      destruct Hs as (Ha&Hp&Hph). split_and!; [done|by apply prefix_app_r|done].
    + by destruct e as [|? ?|? ?|? ?]; naive_solver.
    + by destruct Hs.
    + by destruct Hs.
  - unfold push. rewrite Hw. pose proof Hinv as (Hd1&Hd2&Hs). apply fail_inv; [|done|done].
    destruct (t_stage t) as [| |e| |] eqn:Hst; [left; by apply peer_inv_handshaking|by right|..];
      rewrite ?Hse in Hs; [destruct e| |]; naive_solver.
  - exact Hinv.
  - exact Hinv.
  - destruct Hinv as (Hd1&Hd2&Hs). rewrite Hst in Hs. destruct e as [a|a items|a e|a e]; simpl.
    + destruct Hs as (->&->&->&_&Hph). split_and!; [done|done|]. simpl. split_and!; [|done|done].
      by exists [].
    + destruct Hs as (->&((anns&->&Hf)&Hg&Hph)&_). split_and!; [done|done|]. simpl.
      split_and!; [|done|done]. exists (anns ++ [PeerAnnounce (t_addr t) items]). split; [done|].
      apply Forall_app. by split; [|constructor].
    + destruct Hs as (->&Hr&Hse'). split_and!; [done|done|]. simpl. split; [done|]. right.
      by exists e, events.
    + done.
  - destruct Hinv as (Hd1&Hd2&Hs). rewrite Hst in Hs. destruct e as [a|a items|a e|a e]; simpl.
    + destruct Hs as (->&->&->&_&Hph). apply fail_inv; [|done..]. right. split_and!; [|done|done].
      by exists [].
    + destruct Hs as (->&((anns&->&Hf)&Hg&Hph)&_). apply fail_inv; [|done..]. right.
      split_and!; [|done|done]. exists (anns ++ [PeerAnnounce (t_addr t) items]). split; [done|].
      apply Forall_app. by split; [|constructor].
    + destruct Hs as (->&Hr&Hse'). split_and!; [done|done|]. simpl. split; [done|]. right.
      by exists e, events.
    + done.
Qed.

(** What a task keeps: its address and its own [version]. *)
Lemma check_established_keeps t :
  t_addr (check_established t) = t_addr t ∧ t_version (check_established t) = t_version t.
Proof. unfold check_established. destruct (t_stage t), (t_sending t); try done. by case_bool_decide. Qed.

Lemma peer_step_keeps linked queue sh t l sh' t' :
  peer_step linked queue sh t l sh' t' → t_addr t' = t_addr t ∧ t_version t' = t_version t.
Proof.
  intros [r _ _|_ _|r now sh1 t1 _ _ Hr|[m|] cs _ _ _|_ _ _ _|_ _|m rest _ Hw _|m rest _ Hw|m ob _ _|_|e _ _ _|e _ _ _];
    try done.
  - unfold handshake_receive. destruct r as [m|e|]; [|done..].
    destruct (on_message m _ _) as [[replies|e|] h]; [|done..].
    by destruct (check_established_keeps (set_sending replies (set_handshake h t))) as [-> ->].
  - unfold running_receive in Hr. destruct r as [m|e|]; [|by injection Hr as _ <-..].
    destruct (payload m); try (injection Hr as _ <-; done);
      (destruct (handle_peer_message m now _) as [[[| |]|e|] n]; by injection Hr as _ <-).
  - unfold push. rewrite Hw.
    by destruct (check_established_keeps (set_sending rest (set_outbox (t_outbox t ++ [m]) true t)))
      as [-> ->].
  - unfold push. by rewrite Hw.
  - by destruct e.
  - by destruct e.
Qed.

Lemma spawn_peer_inv addr dir cfg height ts guard chain :
  let t := spawn_peer addr dir cfg height ts guard chain in
  peer_inv t [] [] ∧ t_addr t = addr ∧
  t_version t = default_version_message (local_nonce cfg) ts height.
Proof.
  unfold spawn_peer.
  destruct (handle_event_cursor chain); (split; [|done]); (split; [by destruct dir|]);
    (split; [by destruct dir|]); [|split_and!; [done| |done]; left; split; [done|apply prefix_nil]..].
  by destruct dir.
Qed.

Lemma peer_run_inv t0 events said t :
  peer_inv t0 [] [] → peer_run t0 events said t →
  peer_inv t events said ∧ t_addr t = t_addr t0 ∧ t_version t = t_version t0.
Proof.
  intros H0. induction 1 as [|events said t linked queue sh l sh' t' _ [IH [Ha Hv]] Hstep]; [done|].
  destruct (peer_step_keeps _ _ _ _ _ _ _ Hstep) as [-> ->]. split; [|done].
  by eapply peer_step_inv.
Qed.

(** C26 (safety): the protocol of a peer task, whatever the peer sends, the manager commands
    and however the steps interleave.  The task says its [version] and [verack] first and
    nothing else before it has announced that it is ready, which needs a completed handshake;
    then it announces inventory, and at most once, at its very end, that it is disconnected.
    Every event carries the address of the task. *)
Theorem peer_protocol (addr : SocketAddr) (dir : ConnectionDirection) (cfg : HandshakeConfig)
    (height ts : Z) (guard : bool) (chain : ChainHandle) (events : list PeerEvent)
    (said : list Message) (t : PeerTask) :
  peer_run (spawn_peer addr dir cfg height ts guard chain) events said t →
  let hello := [msg_version (default_version_message (local_nonce cfg) ts height); msg_verack] in
  ∃ announces ending,
    Forall (is_announce addr) announces ∧
    (ending = [] ∨ t_stage t = Finished ∧ ∃ e, ending = [PeerDisconnected addr e]) ∧
    ((events = ending ∧ said `prefix_of` hello ∧ t_stage t ≠ Running) ∨
     (events = PeerReady addr :: announces ++ ending ∧ hello `prefix_of` said ∧
      phase (t_handshake t) = Established)).
Proof.
  intros Hrun hello.
  destruct (spawn_peer_inv addr dir cfg height ts guard chain) as (H0&Ha0&Hv0).
  destruct (peer_run_inv _ _ _ _ H0 Hrun) as ((_&_&Hs)&Ha&Hv).
  rewrite Ha0 in Ha. rewrite Hv0 in Hv.
  assert (greeting t = hello) as Hg by (unfold greeting; by rewrite Hv).
  assert (∀ before, ready t before said →
    ∃ announces, Forall (is_announce addr) announces ∧ before = PeerReady addr :: announces ∧
      hello `prefix_of` said ∧ phase (t_handshake t) = Established) as Hready.
  { intros before ((anns&->&Hf)&Hp&Hph). rewrite Ha in *. rewrite Hg in Hp. by exists anns. }
  destruct (t_stage t) as [| |[a|a items|a e|a e]| |] eqn:Hst.
  - destruct Hs as [-> Hs]. exists [], []. split_and!; [done|by left|]. left.
    split_and!; [done|rewrite <- Hg; by eapply greeted_prefix|done].
  - destruct (Hready _ Hs) as (anns&?&->&?&?). exists anns, []. split_and!; [done|by left|].
    right. by rewrite (right_id_L [] (++)).
  - destruct Hs as (_&->&->&_&_). exists [], []. split_and!; [done|by left|]. left. by rewrite Hg.
  - destruct Hs as (_&Hs&_). destruct (Hready _ Hs) as (anns&?&->&?&?). exists anns, [].
    split_and!; [done|by left|]. right. by rewrite (right_id_L [] (++)).
  - destruct Hs as (_&[[-> Hs]|Hs]&_).
    + exists [], []. split_and!; [done|by left|]. left. by rewrite <- Hg.
    + destruct (Hready _ Hs) as (anns&?&->&?&?). exists anns, []. split_and!; [done|by left|].
      right. by rewrite (right_id_L [] (++)).
  - done.
  - destruct Hs as [_ Hs]. destruct (Hready _ Hs) as (anns&?&->&?&?). exists anns, [].
    split_and!; [done|by left|]. right. by rewrite (right_id_L [] (++)).
  - destruct Hs as (_&[Hs|(e&before&->&[[-> Hs]|Hs])]).
    + destruct (Hready _ Hs) as (anns&?&->&?&?). exists anns, []. split_and!; [done|by left|].
      right. by rewrite (right_id_L [] (++)).
    + exists [], [PeerDisconnected addr e]. rewrite Ha. split_and!; [done|right; eauto|]. left.
      by rewrite <- Hg.
    + destruct (Hready _ Hs) as (anns&?&->&?&?). exists anns, [PeerDisconnected addr e].
      rewrite Ha. split_and!; [done|right; eauto|]. by right.
Qed.
End peer.
