(* ===== verification/Peers.v ===== *)
(** * The peer manager (bitrst-net/src/peers.rs, seeds.rs)

    The manager, the accept loop and the tasks of all peers over the shared chain and pool:
    one [World], with a step relation that interleaves them.  Every channel is a queue with
    its capacity; a send that waits for room is a step that is not possible yet.  [poll] is
    split where it awaits: after the registrations, after each event, at each send of a
    broadcast.  Aborting a task only asks for its cancellation: it ends in a step of its own,
    and may go on until then; the message handler that it may have left on a blocking thread
    still runs to its end ([step_detached]).  A handler is one step on the chain and the pool,
    although it takes their locks several times (peer.rs:222, relay.rs:205-219): what other
    tasks do between two of its lock acquisitions is not modelled. *)

From stdpp Require Import prelude gmap strings list relations.
From Stdlib Require Import Strings.Byte.
From S2P Require Import Prelude Bytes Crypto U256 Wire Transaction Merkle Block Utxo Script.
From S2P Require Import Sighash Journal Store Chain Mempool Message Handshake Handles Relay.
From S2P Require Import Peer.

Local Open Scope string_scope.
Local Open Scope Z_scope.
Local Open Scope list_scope.

(** ** Seeds *)

Inductive SeedStrategy :=
| Fixed (addresses : list SocketAddr)
| Localhost (base_port count : Z)
| Builtin.

Definition loopback (port : Z) : SocketAddr := ([127; 0; 0; 1], port).
Definition builtin_seeds (network : Network) : list SocketAddr :=
  match network with
  | Mainnet => [loopback 8333; loopback 18333]
  | Testnet => [loopback 18333; loopback 18334]
  end.
(** Ports are [u16] and wrap. *)
Definition seed_addresses (s : SeedStrategy) (network : Network) : list SocketAddr :=
  match s with
  | Fixed addresses => addresses
  | Localhost base_port count =>
      map (λ offset, loopback ((base_port + Z.of_nat offset) mod 2 ^ 16)) (seq 0 (Z.to_nat count))
  | Builtin => builtin_seeds network
  end.

(** ** The manager *)

Record PeerManagerConfig := {
  mc_network : Network;
  listen_addr : SocketAddr;
  max_inbound : Z;
  max_outbound : Z;
  mc_seeds : SeedStrategy
}.

Inductive PeerLifecycle := LHandshaking | LReady.
#[global] Instance PeerLifecycle_eq_dec : EqDecision PeerLifecycle.
Proof. solve_decision. Defined.

(** A task is named by its number; the number stands for the sender of its commands and for
    its join handle. *)
Record PeerEntry := { e_task : nat; e_direction : ConnectionDirection; e_state : PeerLifecycle }.
Record PeerRegistration := {
  r_addr : SocketAddr; r_direction : ConnectionDirection; r_task : nat }.

(** What the manager is doing: nothing; draining its events; sending a broadcast to the tasks
    still listed; shutting down, with the tasks still to be told and those still to be
    awaited.  [Failed] is a [poll] that has returned an error, [Down] a [shutdown] that has
    returned, [Dropped] a manager that is no more. *)
Inductive Job :=
| Idle
| Draining
| Relaying (message : Message) (targets : list nat)
| ShuttingDown (targets joining : list nat)
| Failed (e : NetError)
| Down
| Dropped.

Record PeerManager := {
  m_config : PeerManagerConfig;
  outbound_count : Z;
  peers : gmap SocketAddr PeerEntry;
  shutting_down : bool;           (* the flag, and the signal to the accept loop *)
  job : Job
}.

(** Everything: the shared state, the tasks, the manager's two queues, the registration the
    accept loop is about to send, the counter of the inbound capacity, the tasks whose
    cancellation has been requested. *)
Record World := {
  w_shared : Shared;
  w_tasks : gmap nat PeerTask;
  w_events : list PeerEvent;
  w_registrations : list PeerRegistration;
  w_accepted : option PeerRegistration;
  w_reserved : Z;
  w_cancelled : gset nat;
  w_manager : PeerManager
}.

Definition set_job (j : Job) (m : PeerManager) : PeerManager :=
  {| m_config := m_config m; outbound_count := outbound_count m; peers := peers m;
     shutting_down := shutting_down m; job := j |}.
Definition set_peers (p : gmap SocketAddr PeerEntry) (count : Z) (m : PeerManager) : PeerManager :=
  {| m_config := m_config m; outbound_count := count; peers := p;
     shutting_down := shutting_down m; job := job m |}.

Definition with_manager (m : PeerManager) (w : World) : World :=
  {| w_shared := w_shared w; w_tasks := w_tasks w; w_events := w_events w;
     w_registrations := w_registrations w; w_accepted := w_accepted w;
     w_reserved := w_reserved w; w_cancelled := w_cancelled w; w_manager := m |}.
Definition with_queues (events : list PeerEvent) (regs : list PeerRegistration)
    (accepted : option PeerRegistration) (w : World) : World :=
  {| w_shared := w_shared w; w_tasks := w_tasks w; w_events := events;
     w_registrations := regs; w_accepted := accepted;
     w_reserved := w_reserved w; w_cancelled := w_cancelled w; w_manager := w_manager w |}.
(** A task changes; dropping its guard frees an inbound slot. *)
Definition with_task (id : nat) (t : PeerTask) (w : World) : World :=
  let dropped := match w_tasks w !! id with Some old => t_guard old && negb (t_guard t) | None => false end in
  {| w_shared := w_shared w; w_tasks := <[id := t]> (w_tasks w); w_events := w_events w;
     w_registrations := w_registrations w; w_accepted := w_accepted w;
     w_reserved := if dropped then w_reserved w - 1 else w_reserved w;
     w_cancelled := w_cancelled w; w_manager := w_manager w |}.
Definition with_shared (sh : Shared) (w : World) : World :=
  {| w_shared := sh; w_tasks := w_tasks w; w_events := w_events w;
     w_registrations := w_registrations w; w_accepted := w_accepted w;
     w_reserved := w_reserved w; w_cancelled := w_cancelled w; w_manager := w_manager w |}.
Definition with_reserved (n : Z) (w : World) : World :=
  {| w_shared := w_shared w; w_tasks := w_tasks w; w_events := w_events w;
     w_registrations := w_registrations w; w_accepted := w_accepted w;
     w_reserved := n; w_cancelled := w_cancelled w; w_manager := w_manager w |}.

(** Whether somebody still holds a sender of commands for the task. *)
Definition linked (w : World) (id : nat) : bool :=
  existsb (λ '(_, e), e_task e =? id)%nat (map_to_list (peers (w_manager w))) ||
  existsb (λ r, r_task r =? id)%nat (w_registrations w ++ option_list (w_accepted w)) ||
  match job (w_manager w) with ShuttingDown _ joining => existsb (Nat.eqb id) joining | _ => false end.

(** The queue of events, as a task finds it. *)
Definition event_queue (w : World) : EventQueue :=
  match job (w_manager w) with
  | Dropped => Gone
  | _ => if zlen (w_events w) <? MAX_PEER_EVENTS then Room else Full
  end.
(** The queue after a step of a task. *)
Definition events_after (l : Label) (w : World) : list PeerEvent :=
  match l, event_queue w with
  | Emits e, Room => w_events w ++ [e]
  | _, _ => w_events w
  end.
(** [JoinHandle::abort] asks for the cancellation, which takes effect when the task next
    awaits. *)
Definition abort_task (id : nat) (w : World) : World :=
  {| w_shared := w_shared w; w_tasks := w_tasks w; w_events := w_events w;
     w_registrations := w_registrations w; w_accepted := w_accepted w;
     w_reserved := w_reserved w; w_cancelled := {[id]} ∪ w_cancelled w;
     w_manager := w_manager w |}.

Section manager.
Context {crypto : CryptoLib} {order : HashOrder} {flags : BuildFlags}.

Definition new_manager (config : PeerManagerConfig) : PeerManager :=
  {| m_config := config; outbound_count := 0; peers := ∅; shutting_down := false; job := Idle |}.
(** [PeerManager::new], and the accept loop started. *)
Definition new_world (config : PeerManagerConfig) (sh : Shared) : World :=
  {| w_shared := sh; w_tasks := ∅; w_events := []; w_registrations := []; w_accepted := None;
     w_reserved := 0; w_cancelled := ∅; w_manager := new_manager config |}.

Definition peer_count (m : PeerManager) : Z := Z.of_nat (size (peers m)).
Definition ready_peer_count (m : PeerManager) : Z :=
  zlen (filter (λ e, e_state e.2 = LReady) (map_to_list (peers m))).

(** A nonce is a [u64], a timestamp an [i64]. *)
Definition machine_inputs (cfg : HandshakeConfig) (ts : Z) : Prop :=
  in_u 64 (local_nonce cfg) ∧ in_i 64 ts.
(** [chain.height().unwrap_or(0) as i32] *)
Definition advertised_height (chain : ChainHandle) : Z :=
  signed 32 (match handle_height chain with Ok h => h mod 2 ^ 32 | _ => 0 end).

(** One connection of the accept loop. *)
Definition accept (addr : SocketAddr) (cfg : HandshakeConfig) (ts : Z) (w : World) : World :=
  if max_inbound (m_config (w_manager w)) <=? w_reserved w then w
  else
    let id := fresh (dom (w_tasks w)) in
    let t := spawn_peer addr Inbound cfg (advertised_height (w_shared w).1) ts true (w_shared w).1 in
    with_task id t (with_reserved (w_reserved w + 1 - (if t_guard t then 0 else 1))
      (with_queues (w_events w) (w_registrations w)
        (Some {| r_addr := addr; r_direction := Inbound; r_task := id |}) w)).

(** [connect_seed]; [connected] is the outcome of [TcpStream::connect]. *)
Definition connect_seed (addr : SocketAddr) (connected : bool) (cfg : HandshakeConfig) (ts : Z)
    : SM World NetError unit := λ w,
  let m := w_manager w in
  if max_outbound (m_config m) <=? outbound_count m then (Err ConnectionLimitReached, w)
  else if bool_decide (is_Some (peers m !! addr)) then (Ok (), w)
  else if negb connected then (Err (Io "connect"), w)
  else
    let id := fresh (dom (w_tasks w)) in
    let t := spawn_peer addr Outbound cfg (advertised_height (w_shared w).1) ts false (w_shared w).1 in
    let entry := {| e_task := id; e_direction := Outbound; e_state := LHandshaking |} in
    (Ok (), with_manager (set_peers (<[addr := entry]> (peers m)) (outbound_count m + 1) m)
              (with_task id t w)).

(** [connect_seeds_report]: the first seed that connects, and the failures before it. *)
Fixpoint connect_all (addrs : list SocketAddr) (connected : SocketAddr → bool)
    (cfg : HandshakeConfig) (ts : Z) (w : World)
    : option SocketAddr * list (SocketAddr * NetError) * World :=
  match addrs with
  | [] => (None, [], w)
  | addr :: addrs =>
      match connect_seed addr (connected addr) cfg ts w with
      | (Ok _, w) => (Some addr, [], w)
      | (Err e, w) =>
          let '(found, failures, w) := connect_all addrs connected cfg ts w in
          (found, (addr, e) :: failures, w)
      | (Panic, w) => (None, [], w)
      end
  end.
Definition connect_seeds_report (connected : SocketAddr → bool) (cfg : HandshakeConfig) (ts : Z)
    (w : World) : option SocketAddr * list (SocketAddr * NetError) * World :=
  let c := m_config (w_manager w) in
  connect_all (seed_addresses (mc_seeds c) (mc_network c)) connected cfg ts w.
(** [SeedConnectReport::into_result]; [format_failures] is the text of the failures. *)
Definition into_result (format_failures : list (SocketAddr * NetError) → list byte)
    (report : option SocketAddr * list (SocketAddr * NetError)) : Result NetError SocketAddr :=
  match report.1 with
  | Some addr => Ok addr
  | None => Err (SeedsExhausted (zlen report.2) (format_failures report.2))
  end.

(** The body of the loop of [process_registrations]. *)
Definition process_registration (r : PeerRegistration) (w : World) : World :=
  let m := w_manager w in
  if bool_decide (r_direction r = Outbound) && (max_outbound (m_config m) <=? outbound_count m) then
    let w := abort_task (r_task r) w in
    if zlen (w_events w) <? MAX_PEER_EVENTS
    then with_queues (w_events w ++ [RegistrationRejected (r_addr r) ConnectionLimitReached])
           (w_registrations w) (w_accepted w) w
    else w
  else
    let count := if bool_decide (r_direction r = Outbound) then outbound_count m + 1
                 else outbound_count m in
    with_manager (set_peers (<[r_addr r := {| e_task := r_task r; e_direction := r_direction r;
                                              e_state := LHandshaking |}]> (peers m)) count m) w.
Definition process_registrations (w : World) : World :=
  foldl (λ w r, process_registration r w) (with_queues (w_events w) [] (w_accepted w) w)
    (w_registrations w).

(** [poll], up to its loop over the events. *)
Definition begin_poll (w : World) : World :=
  let w := process_registrations w in with_manager (set_job Draining (w_manager w)) w.

(** The receivers of a broadcast, in the order of the map. *)
Definition relay_targets (origin : option SocketAddr) (m : PeerManager) : list nat :=
  map (λ '(_, e), e_task e)
    (filter (λ '(addr, e), origin ≠ Some addr ∧ e_state e = LReady) (hm_iter (peers m))).
(** [relay_inventory], up to its first send. *)
Definition relay_inventory (origin : option SocketAddr) (items : list InventoryVector)
    (m : PeerManager) : PeerManager :=
  if bool_decide (items = []) then set_job Draining m
  else set_job (Relaying (msg_inv items) (relay_targets origin m)) m.

Definition relayed_type (item : InventoryVector) : bool :=
  match inv_type item with InvBlock | InvTransaction => true | InvFilteredBlock => false end.
Definition handle_event (event : PeerEvent) (m : PeerManager) : PeerManager :=
  match event with
  | PeerAnnounce addr items =>
      relay_inventory (Some addr) (List.filter relayed_type items) m
  | PeerReady addr =>
      match peers m !! addr with
      | Some e => set_peers (<[addr := {| e_task := e_task e; e_direction := e_direction e;
                                          e_state := LReady |}]> (peers m)) (outbound_count m) m
      | None => m
      end
  | PeerDisconnected addr _ =>
      match peers m !! addr with
      | Some e => set_peers (delete addr (peers m))
                    (if bool_decide (e_direction e = Outbound) then Z.max 0 (outbound_count m - 1)
                     else outbound_count m) m
      | None => m
      end
  | RegistrationRejected _ _ => m
  end.

(** [entry.command_tx.send(command).await]: the receiver is gone, or the command is queued;
    [None] while the queue is full. *)
Definition send_command (c : PeerCommand) (t : PeerTask) : option (Result NetError PeerTask) :=
  if closed t then Some (Err ConnectionClosed)
  else if zlen (t_commands t) <? COMMAND_QUEUE then Some (Ok (set_commands (t_commands t ++ [c]) t))
  else None.

(** The tasks of the table. *)
Definition entry_tasks (m : PeerManager) : list nat := map (λ '(_, e), e_task e) (hm_iter (peers m)).
(** [shutdown], up to its first send: the accept loop is stopped and the peers drained.  A
    registration that the loop still sends while it is awaited is one sent just before. *)
Definition begin_shutdown (w : World) : World :=
  let m := w_manager w in
  if shutting_down m then w
  else
    let ids := entry_tasks m in
    with_manager {| m_config := m_config m; outbound_count := outbound_count m; peers := ∅;
                    shutting_down := true; job := ShuttingDown ids ids |}
         (with_queues (w_events w) (w_registrations w) None w).

(** [Drop for PeerManager], and the end of its fields: the accept loop and the peers in the
    table are aborted, unless [shutdown] has been called; the receivers of both queues are
    dropped with what is in them, and every sender of commands. *)
Definition drop_manager (w : World) : World :=
  let m := w_manager w in
  let w := if shutting_down m then w else foldl (λ w id, abort_task id w) w (entry_tasks m) in
  with_manager {| m_config := m_config m; outbound_count := outbound_count m; peers := ∅;
                  shutting_down := true; job := Dropped |} (with_queues [] [] None w).

(** ** Steps *)

Inductive world_step (w : World) : World → Prop :=
| step_peer id t l sh t' :
    w_tasks w !! id = Some t →
    peer_step (linked w id) (event_queue w) (w_shared w) t l sh t' →
    world_step w (with_shared sh (with_task id t'
      (with_queues (events_after l w) (w_registrations w) (w_accepted w) w)))
| step_accept addr cfg ts :
    shutting_down (w_manager w) = false → w_accepted w = None → machine_inputs cfg ts →
    world_step w (accept addr cfg ts w)
| step_register r :
    w_accepted w = Some r → zlen (w_registrations w) < MAX_PEER_REGISTRATIONS →
    world_step w (with_queues (w_events w) (w_registrations w ++ [r]) None w)
| step_connect addr connected cfg ts :
    job (w_manager w) = Idle → machine_inputs cfg ts →
    world_step w (connect_seed addr connected cfg ts w).2
| step_poll :
    job (w_manager w) = Idle →
    world_step w (begin_poll w)
| step_event e events :
    job (w_manager w) = Draining → w_events w = e :: events →
    world_step w (with_manager (handle_event e (w_manager w))
                    (with_queues events (w_registrations w) (w_accepted w) w))
| step_drained :
    job (w_manager w) = Draining → w_events w = [] →
    world_step w (with_manager (set_job Idle (w_manager w)) w)
| step_relay message id targets t t' :
    job (w_manager w) = Relaying message (id :: targets) → w_tasks w !! id = Some t →
    send_command (Send message) t = Some (Ok t') →
    world_step w (with_manager (set_job (Relaying message targets) (w_manager w)) (with_task id t' w))
| step_relay_error message id targets t e :
    job (w_manager w) = Relaying message (id :: targets) → w_tasks w !! id = Some t →
    send_command (Send message) t = Some (Err e) →
    world_step w (with_manager (set_job (Failed e) (w_manager w)) w)
| step_relayed message :
    job (w_manager w) = Relaying message [] →
    world_step w (with_manager (set_job Draining (w_manager w)) w)
| step_shutdown :
    job (w_manager w) = Idle ∨ (∃ e, job (w_manager w) = Failed e) → world_step w (begin_shutdown w)
| step_shutdown_send id targets joining t t' :
    job (w_manager w) = ShuttingDown (id :: targets) joining → w_tasks w !! id = Some t →
    (send_command Shutdown t = Some (Ok t') ∨ (∃ e, send_command Shutdown t = Some (Err e)) ∧ t' = t) →
    world_step w (with_manager (set_job (ShuttingDown targets joining) (w_manager w))
                    (with_task id t' w))
| step_join id joining t :
    job (w_manager w) = ShuttingDown [] (id :: joining) → w_tasks w !! id = Some t →
    t_stage t = Finished →
    world_step w (with_manager (set_job (ShuttingDown [] joining) (w_manager w)) w)
| step_down :
    job (w_manager w) = ShuttingDown [] [] →
    world_step w (with_manager (set_job Down (set_peers (peers (w_manager w)) 0 (w_manager w))) w)
| step_drop :
    job (w_manager w) ≠ Dropped → world_step w (drop_manager w)
(* [shutdown]: the task does not end in time, and is aborted but not awaited *)
| step_join_timeout id joining :
    job (w_manager w) = ShuttingDown [] (id :: joining) →
    world_step w (with_manager (set_job (ShuttingDown [] joining) (w_manager w)) (abort_task id w))
(* [shutdown]: the task has panicked; no panic of a task outside its handlers is modelled, so
   this is possible for any task *)
| step_join_failed id joining t :
    job (w_manager w) = ShuttingDown [] (id :: joining) → w_tasks w !! id = Some t →
    world_step w (with_manager (set_job (Failed TaskJoinFailed) (w_manager w))
                    (with_task id (finish_task t) w))
(* a cancelled task ends where it awaits *)
| step_cancel id t :
    id ∈ w_cancelled w → w_tasks w !! id = Some t →
    world_step w (with_task id (finish_task t) w)
(* the handler that a cancelled task has left on a blocking thread; there is at most one of
   them, which the model does not count *)
| step_detached id t message now action n :
    id ∈ w_cancelled w → w_tasks w !! id = Some t → t_stage t = Finished →
    readable (Ok message) →
    handle_peer_message message now
      {| n_chain := (w_shared w).1; n_pool := (w_shared w).2; n_relay := t_relay t |} = (action, n) →
    world_step w (with_shared (n_chain n, n_pool n) w).
End manager.
