(* ===== verification/PeersTyped.v ===== *)
(** * A node of well-typed peers

    All tasks, queues and the shared state of a node hold only well-typed values, whatever the
    peers send: what a task hands to its writer can always be encoded, and is decoded by the
    peer that reads it. *)

From stdpp Require Import prelude gmap strings list sorting relations.
From Stdlib Require Import Strings.Byte.
From S2P Require Import Prelude Bytes Crypto U256 Wire Transaction Merkle Block Utxo Script.
From S2P Require Import Sighash Journal Store Chain Mempool Message Handshake Handles Relay.
From S2P Require Import TypedState TypedNode Peer Peers.

Local Open Scope Z_scope.
Local Open Scope list_scope.

Section tasks.
Context {crypto : CryptoLib} {laws : CryptoLaws crypto} {order : HashOrder} {flags : BuildFlags}.

Definition event_typed (e : PeerEvent) : Prop :=
  match e with PeerAnnounce _ items => payload_ok (PInv items) | _ => True end.
Definition command_typed (c : PeerCommand) : Prop :=
  match c with Send m => message_ok m | Shutdown => True end.
Definition stage_typed (s : Stage) : Prop :=
  match s with Emitting e => event_typed e | _ => True end.
Definition shared_typed (sh : Shared) : Prop :=
  chain_typed (contents sh.1) ∧ pool_typed (contents sh.2).

Record task_typed (t : PeerTask) : Prop := {
  tt_sending : Forall message_ok (t_sending t);
  tt_outbox : Forall message_ok (t_outbox t);
  tt_commands : Forall command_typed (t_commands t);
  tt_version : message_ok (msg_version (t_version t));
  tt_stage : stage_typed (t_stage t)
}.

Lemma leave_typed s t : stage_typed s → task_typed t → task_typed (leave s t).
Proof. by intros ? []. Qed.
Lemma fail_typed e t : task_typed t → task_typed (fail e t).
Proof. by apply leave_typed. Qed.
Lemma sending_typed ms t : Forall message_ok ms → task_typed t → task_typed (set_sending ms t).
Proof. by intros ? []. Qed.
Lemma check_established_typed t : task_typed t → task_typed (check_established t).
Proof.
  intros Ht. unfold check_established. destruct (t_stage t), (t_sending t) eqn:Hs; try done.
  case_bool_decide; [|done]. destruct Ht. by split.
Qed.

Lemma on_message_replies m local h replies h' :
  on_message m local h = (Ok replies, h') →
  (∀ v, local = Some v → message_ok (msg_version v)) → Forall message_ok replies.
Proof.
  assert (message_ok msg_verack) as Hv by done.
  intros Hrun Hl. unfold on_message, sbind, sget in Hrun.
  destruct (phase h), (payload m) as [|v|?|?|?|?]; try done;
    try (by injection Hrun as <- <-); unfold slift, validate_peer_version in Hrun;
    destruct (vm_nonce v =? _); try done; [|by injection Hrun as <- <-; constructor].
  destruct local as [v'|]; [|done]. injection Hrun as <- <-. constructor; [by apply Hl|by constructor].
Qed.

Lemma handshake_receive_typed r t : task_typed t → task_typed (handshake_receive r t).
Proof.
  intros Ht. unfold handshake_receive. destruct r as [m|e|]; [|by apply fail_typed..].
  destruct (on_message m _ _) as [[replies|e|] h] eqn:Hm.
  - apply check_established_typed, sending_typed; [|by destruct Ht].
    eapply on_message_replies; [exact Hm|]. intros v Hv. case_bool_decide; [|done].
    injection Hv as <-. apply Ht.
  - apply fail_typed. by destruct Ht.
  - apply fail_typed. by destruct Ht.
Qed.

Lemma readable_ok m : readable (Ok m) → message_ok m.
Proof. intros (c&bs&Hd). by apply decode_payload_Ok in Hd as (_&?&_). Qed.

Lemma running_receive_typed r now sh t sh' t' :
  readable r → shared_typed sh → task_typed t → running_receive r now sh t = (sh', t') →
  shared_typed sh' ∧ task_typed t'.
Proof.
  intros Hr Hsh Ht Hrun. unfold running_receive in Hrun.
  destruct r as [m|e|]; [|injection Hrun as <- <-; by split; [|apply fail_typed]..].
  apply readable_ok in Hr. set (n := {| n_chain := sh.1; n_pool := sh.2; n_relay := t_relay t |}) in Hrun.
  pose proof (yields_handle_peer_message m now Hr n Hsh) as Hy.
  destruct (payload m); try (injection Hrun as <- <-; by split; [|apply fail_typed]);
    (destruct (handle_peer_message m now n) as [[[|ms|its]|e0|] n0];
      [destruct Hy as [Ha Hn]..| |]; injection Hrun as <- <-;
      (split; [done|]); [|by apply sending_typed; [|destruct Ht]| | |];
      [by destruct Ht|by destruct Ht|apply fail_typed; by destruct Ht..]).
Qed.

Lemma push_typed m rest t :
  t_sending t = m :: rest → task_typed t → task_typed (push m rest t).
Proof.
  intros Hs Ht. unfold push. destruct (t_writer t); [|by apply fail_typed].
  apply check_established_typed. pose proof (tt_sending t Ht) as Hms. rewrite Hs in Hms.
  apply Forall_cons in Hms as [Hm Hrest]. apply sending_typed; [done|]. destruct Ht. split; try done.
  apply Forall_app. by split; [|constructor].
Qed.

Lemma peer_step_typed linked queue sh t l sh' t' :
  peer_step linked queue sh t l sh' t' → shared_typed sh → task_typed t →
  shared_typed sh' ∧ task_typed t' ∧ (∀ e, l = Emits e → event_typed e).
Proof.
  intros Hstep Hsh Ht. destruct Hstep as [r Hs Hse _|Hs Hse|r now sh' t' Hs Hse Hr Hread|c cs Hs Hse Hc
    |Hs Hse Hc Hl|Hs Hd|m rest Hse Hw Hroom|m rest Hse Hw|m ob Hw Hob|Hw|e Hs Hse Hq|e Hs Hse Hq].
  - split_and!; [done|by apply handshake_receive_typed|done].
  - split_and!; [done|by apply fail_typed|done].
  - destruct (running_receive_typed _ _ _ _ _ _ Hread Hsh Ht Hr). by split_and!.
  - split_and!; [done| |done]. pose proof (tt_commands t Ht) as H. rewrite Hc in H.
    apply Forall_cons in H as [Hc1 Hcs]. destruct Ht, c; split; try done. by constructor.
  - split_and!; [done|by destruct Ht|done].
  - split_and!; [done|by apply leave_typed|done].
  - split_and!; [done|by apply push_typed|done].
  - split_and!; [done|by apply push_typed|done].
  - split_and!; [done| |done]. pose proof (tt_outbox t Ht) as H. rewrite Hob in H.
    apply Forall_cons in H as [_ H]. by destruct Ht.
  - split_and!; [done| |done]. destruct Ht. by split.
  - pose proof (tt_stage t Ht) as He. rewrite Hs in He. split_and!; [done| |by intros ? [= <-]].
    destruct Ht. by destruct e.
  - pose proof (tt_stage t Ht) as He. rewrite Hs in He. split_and!; [done| |by intros ? [= <-]].
    destruct e; [by apply fail_typed..| |by apply fail_typed]. by destruct Ht.
Qed.

Lemma spawn_typed addr dir cfg height ts guard chain :
  machine_inputs cfg ts → in_i 32 height → task_typed (spawn_peer addr dir cfg height ts guard chain).
Proof.
  intros [Hn Hts] Hh.
  assert (message_ok (msg_version (default_version_message (local_nonce cfg) ts height))) as Hv.
  { split; [done|]. simpl. split; [|vm_compute; discriminate]. unfold version_wf. simpl.
    split_and!; try done. }
  assert (∀ cursor, task_typed {|
    t_addr := addr; t_handshake := new_handshake dir cfg;
    t_version := default_version_message (local_nonce cfg) ts height;
    t_relay := with_event_cursor cursor; t_stage := Handshaking;
    t_sending := initial_outbound_messages (new_handshake dir cfg)
      (default_version_message (local_nonce cfg) ts height);
    t_outbox := []; t_writer := true; t_commands := []; t_guard := guard |}) as Ht.
  { intros cursor. split; try done. simpl. unfold initial_outbound_messages.
    destruct (_ && _); [by constructor|done]. }
  unfold spawn_peer. destruct (handle_event_cursor chain); [done|by apply fail_typed..].
Qed.
End tasks.

(** ** The world *)

Section world.
Context {crypto : CryptoLib} {laws : CryptoLaws crypto} {order : HashOrder} {flags : BuildFlags}.

Definition job_typed (j : Job) : Prop :=
  match j with Relaying message _ => message_ok message | _ => True end.

Record world_typed (w : World) : Prop := {
  wt_shared : shared_typed (w_shared w);
  wt_tasks : ∀ id t, w_tasks w !! id = Some t → task_typed t;
  wt_events : Forall event_typed (w_events w);
  wt_job : job_typed (job (w_manager w))
}.

Lemma typed_with_task id t w : world_typed w → task_typed t → world_typed (with_task id t w).
Proof.
  intros [] Ht. split; try done. simpl.
  intros id' t' [[_ <-]|[_ ?]]%lookup_insert_Some; [done|eauto].
Qed.
Lemma typed_with_manager m w : world_typed w → job_typed (job m) → world_typed (with_manager m w).
Proof. by intros []. Qed.
Lemma typed_with_queues ev regs acc w :
  world_typed w → Forall event_typed ev → world_typed (with_queues ev regs acc w).
Proof. by intros []. Qed.
Lemma typed_with_reserved n w : world_typed w → world_typed (with_reserved n w).
Proof. by intros []. Qed.

Lemma abort_task_typed id w : world_typed w → world_typed (abort_task id w).
Proof. by intros []. Qed.

Lemma advertised_height_i32 chain : in_i 32 (advertised_height chain).
Proof.
  unfold advertised_height. apply signed_range; [done|]. unfold in_u.
  destruct (handle_height chain); [apply Z.mod_pos_bound|..]; lia.
Qed.

Lemma accept_typed addr cfg ts w : machine_inputs cfg ts → world_typed w → world_typed (accept addr cfg ts w).
Proof.
  intros Hi Hw. unfold accept. destruct (_ <=? _); [done|].
  apply typed_with_task; [|apply spawn_typed; [done|apply advertised_height_i32]].
  apply typed_with_reserved, typed_with_queues; [done|apply Hw].
Qed.
Lemma connect_seed_typed addr connected cfg ts w :
  machine_inputs cfg ts → world_typed w → world_typed (connect_seed addr connected cfg ts w).2.
Proof.
  intros Hi Hw. unfold connect_seed. destruct (_ <=? _); [done|]. case_bool_decide; [done|].
  destruct connected; [|done]. apply typed_with_manager; [|apply Hw].
  apply typed_with_task; [done|]. apply spawn_typed; [done|apply advertised_height_i32].
Qed.

Lemma process_registration_typed r w : world_typed w → world_typed (process_registration r w).
Proof.
  intros Hw. unfold process_registration. case_match; [|by apply typed_with_manager; [|apply Hw]].
  pose proof (abort_task_typed (r_task r) w Hw) as Hw1. case_match; [|done].
  apply typed_with_queues; [done|]. apply Forall_app. split; [apply Hw1|by constructor].
Qed.
Lemma process_registrations_typed w : world_typed w → world_typed (process_registrations w).
Proof.
  intros Hw. unfold process_registrations.
  assert (world_typed (with_queues (w_events w) [] (w_accepted w) w)) as H0 by by apply typed_with_queues; [|apply Hw].
  revert H0. generalize (with_queues (w_events w) [] (w_accepted w) w).
  induction (w_registrations w) as [|r rs IH]; intros w0 H0; [done|].
  by apply IH, process_registration_typed.
Qed.

Lemma drop_manager_typed w : world_typed w → world_typed (drop_manager w).
Proof.
  intros Hw. unfold drop_manager. apply typed_with_manager; [|done]. apply typed_with_queues; [|done].
  destruct (shutting_down _); [done|]. revert w Hw. generalize (entry_tasks).
  intros f w. generalize (f (w_manager w)). intros ids. revert w.
  induction ids as [|id ids IH]; intros w Hw; [done|]. by apply IH, abort_task_typed.
Qed.

Lemma handle_event_typed e m :
  event_typed e → job_typed (job m) → job_typed (job (handle_event e m)).
Proof.
  intros He Hm. destruct e as [a|a items|a e|a e]; simpl; [by case_match| |by case_match|done].
  unfold relay_inventory. case_bool_decide; [done|]. simpl. split; [done|]. simpl in *.
  destruct He as [Hwf Hlen]. split.
  - apply Forall_forall. intros x [Hx _]%list_elem_of_In%List.filter_In.
    rewrite Forall_forall in Hwf. by apply Hwf, list_elem_of_In.
  - pose proof (List.filter_length_le relayed_type items). unfold zlen in *. lia.
Qed.

Lemma send_command_typed c t t' :
  command_typed c → task_typed t → send_command c t = Some (Ok t') → task_typed t'.
Proof.
  intros Hc Ht. unfold send_command. destruct (closed t); [done|]. destruct (_ <? _); [|done].
  intros [= <-]. destruct Ht. split; try done. apply Forall_app. by split; [|constructor].
Qed.

Lemma world_step_typed w w' : world_step w w' → world_typed w → world_typed w'.
Proof.
  intros Hstep Hw. pose proof (wt_job w Hw) as Hjt.
  destruct Hstep as [id t lb sh t' Ht Hs|addr cfg ts _ _ Hi|r Hr Hroom|addr connected cfg ts Hj Hi|Hj
    |e events Hj He|Hj He|msg id tg t t' Hj Ht Hs|msg id tg t e Hj Ht Hs|msg Hj|Hj
    |id tg jn t t' Hj Ht Hs|id jn t Hj Ht Hs|Hj|Hj|id jn Hj|id jn t Hj Ht|id t Hc Ht
    |id t m now a n Hc Ht Hf Hread Hrun]; try (by apply typed_with_manager).
  - destruct (peer_step_typed _ _ _ _ _ _ _ Hs (wt_shared w Hw) (wt_tasks w Hw _ _ Ht)) as (Hsh&Ht'&He).
    assert (world_typed (with_task id t' (with_queues (events_after lb w) (w_registrations w) (w_accepted w) w)))
      as []; [|by split].
    apply typed_with_task; [|done]. apply typed_with_queues; [done|]. pose proof (wt_events w Hw).
    unfold events_after. destruct lb as [|m|e]; try done. destruct (event_queue w); try done.
    apply Forall_app. split; [done|]. constructor; [by apply He|done].
  - by apply accept_typed.
  - apply typed_with_queues; [done|apply Hw].
  - by apply connect_seed_typed.
  - apply typed_with_manager; [by apply process_registrations_typed|done].
  - pose proof (wt_events w Hw) as Hev. rewrite He in Hev. apply Forall_cons in Hev as [He1 Hev].
    apply typed_with_manager; [by apply typed_with_queues|by apply handle_event_typed].
  - rewrite Hj in Hjt. apply typed_with_manager; [|done]. apply typed_with_task; [done|].
    eapply send_command_typed; [|by eapply wt_tasks|done]. done.
  - unfold begin_shutdown. destruct (shutting_down _); [done|]. apply typed_with_manager; [|done].
    apply typed_with_queues; [done|apply Hw].
  - apply typed_with_manager; [|done]. apply typed_with_task; [done|]. pose proof (wt_tasks w Hw _ _ Ht).
    destruct Hs as [Hs|[_ ->]]; [by eapply (send_command_typed Shutdown)|done].
  - by apply drop_manager_typed.
  - apply typed_with_manager; [by apply abort_task_typed|done].
  - apply typed_with_manager; [|done]. apply typed_with_task; [done|]. by eapply leave_typed, wt_tasks.
  - apply typed_with_task; [done|]. by eapply leave_typed, wt_tasks.
  - pose proof (yields_handle_peer_message m now (readable_ok m Hread)
      {| n_chain := (w_shared w).1; n_pool := (w_shared w).2; n_relay := t_relay t |} (wt_shared w Hw)) as Hy.
    rewrite Hrun in Hy. destruct Hw. split; try done. by destruct a; [destruct Hy|..].
Qed.

Lemma reachable_world_typed c sh w :
  shared_typed sh → rtc world_step (new_world c sh) w → world_typed w.
Proof.
  intros Hsh Hrun. assert (world_typed (new_world c sh)) as H0 by by split.
  induction Hrun as [|w1 w2 w3 Hs _ IH]; [done|]. apply IH. by eapply world_step_typed.
Qed.

(** C24 (type): a node keeps its types.  Started on a chain and a pool that hold only
    well-typed blocks and transactions (all integers within their Rust types, 32-byte hashes,
    every count and size within the limits of the codec), it holds only such values in every
    state it reaches, whatever bytes its peers send: in the active chain, the index, the
    orphans, the block store, the journal of disconnected blocks and the pool.  So every
    message a task has still to send, be it a block, a transaction, an inventory, a request
    or its [version], can be encoded, and a peer that reads those bytes decodes it (as
    [wire_view] says: only a [version] below 60002 loses its relay flag). *)
Theorem node_speaks_well_typed (c : PeerManagerConfig) (sh : Shared) (w : World) :
  shared_typed sh → rtc world_step (new_world c sh) w →
  chain_typed (contents (w_shared w).1) ∧ pool_typed (contents (w_shared w).2) ∧
  ∀ id t m, w_tasks w !! id = Some t →
    m ∈ t_sending t ++ t_outbox t ∨ Send m ∈ t_commands t →
    message_ok m ∧
    ∃ bs, encode_payload m = Ok (command m, bs) ∧ decode_payload (command m) bs = Ok (wire_view m).
Proof.
  intros Hsh Hrun. destruct (reachable_world_typed c sh w Hsh Hrun) as [[Hc Hp] Ht _ _].
  split; [done|]. split; [done|]. intros id t m Hid Hm. destruct (Ht _ _ Hid) as [H1 H2 H3 _ _].
  assert (message_ok m) as Hok.
  { rewrite Forall_forall in H1, H2. rewrite Forall_forall in H3. destruct Hm as [[Hm|Hm]%elem_of_app|Hm]; [by apply H1|by apply H2|].
    by apply (H3 (Send m)). }
  split; [done|]. destruct (encode_payload_Ok m Hok) as (bs&He&_). exists bs.
  split; [done|]. by apply (payload_roundtrip m).
Qed.
End world.
