(* ===== verification/PeersInv.v ===== *)
(** * Invariants of the peer manager's world (bitrst-net/src/peers.rs, peer.rs)

    Every queue stays within its capacity, the manager's counter of outbound connections and
    the counter of inbound guards stay within their limits, and the shared chain and pool and
    the trackers of every task stay good, whatever all the peers send and however the tasks
    interleave. *)

From stdpp Require Import prelude gmap strings list sorting relations.
From Stdlib Require Import Strings.Byte.
From S2P Require Import Prelude Bytes Crypto U256 Wire Transaction Merkle Block Utxo Script.
From S2P Require Import Sighash Journal Store Chain ChainTx ChainInv ChainReorg ChainProps.
From S2P Require Import ChainTheorems Mempool MempoolInv MempoolEvict MempoolSync.
From S2P Require Import MempoolTheorems Message Handshake Handles Relay RelayTheorems Peer Peers.

Local Open Scope Z_scope.
Local Open Scope list_scope.

(** ** Counting the entries of a map *)

Section count.
Context {K V : Type} `{Countable K} (f : V → bool).
Implicit Types m : gmap K V.

Definition count_if m : Z := Z.of_nat (size (filter (λ kv, f kv.2 = true) m)).

Lemma count_if_nonneg m : 0 ≤ count_if m.
Proof. unfold count_if. lia. Qed.

Lemma count_if_delete m k :
  count_if (delete k m) =
    count_if m - match m !! k with Some x => Z.b2z (f x) | None => 0 end.
Proof.
  unfold count_if. rewrite map_filter_delete. destruct (m !! k) as [x|] eqn:Hk.
  - destruct (f x) eqn:Hf.
    + rewrite map_size_delete_Some; [|exists x; by apply map_lookup_filter_Some].
      assert (filter (λ kv, f kv.2 = true) m !! k = Some x) as Hs by (by apply map_lookup_filter_Some).
      assert (size (filter (λ kv, f kv.2 = true) m) ≠ 0%nat) as Hne.
      { intros Hz. apply map_size_empty_inv in Hz. by rewrite Hz in Hs. }
      simpl. lia.
    + rewrite map_size_delete_None; [simpl; lia|]. apply map_lookup_filter_None. right.
      intros y Hy. simpl. congruence.
  - rewrite map_size_delete_None; [lia|]. apply map_lookup_filter_None. by left.
Qed.

Lemma count_if_insert m k x :
  count_if (<[k := x]> m) =
    count_if m - match m !! k with Some y => Z.b2z (f y) | None => 0 end + Z.b2z (f x).
Proof.
  rewrite <- insert_delete_eq, <- count_if_delete. unfold count_if at 1.
  destruct (f x) eqn:Hf; simpl.
  - rewrite map_filter_insert_True by done. rewrite map_size_insert_None; [unfold count_if; lia|].
    apply map_lookup_filter_None. left. apply lookup_delete_eq.
  - rewrite map_filter_insert_False by (simpl; congruence). rewrite delete_delete_eq. unfold count_if. lia.
Qed.
End count.

(** ** A poisoned chain lock stays poisoned *)

Section poison.
Context {crypto : CryptoLib} {order : HashOrder} {flags : BuildFlags}.

Definition chain_poisoned (n : Node) : Prop := poisoned (n_chain n) = true.
Definition keeps {A} (m : RM A) : Prop := triple chain_poisoned m (λ _, chain_poisoned) chain_poisoned.

Lemma keeps_sbind {A B} (m : RM A) (f : A → RM B) : keeps m → (∀ a, keeps (f a)) → keeps (sbind m f).
Proof. intros. by eapply triple_sbind. Qed.
Lemma keeps_same {A} (m : RM A) : (∀ n, n_chain (m n).2 = n_chain n) → keeps m.
Proof.
  intros Hm n Hn. specialize (Hm n). destruct (m n) as [[a|e|] n']; unfold chain_poisoned in *;
    simpl in *; by rewrite Hm.
Qed.
Lemma keeps_on_pool {A} (f : Chain → SM MempoolHandle MempoolHandleError A) : keeps (with_chain_on_pool f).
Proof.
  apply keeps_same. intros n. unfold with_chain_on_pool. destruct (poisoned _); [done|].
  by destruct (f _ _).
Qed.
Lemma keeps_mark_block hash now : keeps (mark_block_requested hash now).
Proof. apply keeps_same. intros n. unfold mark_block_requested. by destruct (mark_requested _ _ _). Qed.
Lemma keeps_mark_tx hash now : keeps (mark_tx_requested hash now).
Proof. apply keeps_same. intros n. unfold mark_tx_requested. by destruct (mark_requested _ _ _). Qed.

Lemma keeps_sync : keeps sync_mempool.
Proof.
  intros n Hn. unfold sync_mempool, handle_collect_events.
  rewrite (Hn : poisoned (n_chain n) = true). exact Hn.
Qed.
Lemma keeps_request_missing hash now : keeps (request_missing_block hash now).
Proof.
  apply keeps_sbind; [by apply keeps_same|]. intros [|]; [by apply keeps_same|].
  apply keeps_sbind; [apply keeps_mark_block|]. intros [|]; by apply keeps_same.
Qed.
Lemma keeps_handle_block b now : keeps (handle_block b now).
Proof.
  intros n Hn. unfold handle_block, handle_connect_block, with_write.
  rewrite (Hn : poisoned (n_chain n) = true).
  assert (keeps (do! clear_block_request (block_hash b) ;;
            do! clear_block_request (prev_blockhash (header b)) ;;
            sthrow (RelayChain LockPoisoned) : RM RelayAction)) as Hk.
  { apply keeps_sbind; [by apply keeps_same|]. intros _.
    apply keeps_sbind; [by apply keeps_same|]. intros _. by apply keeps_same. }
  apply (Hk (set_chain (n_chain n) n)). exact Hn.
Qed.
Lemma keeps_wanted item now : keeps (wanted item now).
Proof.
  unfold wanted. destruct (inv_type item); [| |by apply keeps_same].
  - apply keeps_sbind; [by apply keeps_same|]. intros [|]; [by apply keeps_same|apply keeps_mark_tx].
  - apply keeps_sbind; [by apply keeps_same|]. intros [|]; [by apply keeps_same|apply keeps_mark_block].
Qed.
Lemma keeps_collect items now : keeps (collect_requests items now).
Proof.
  induction items as [|i items IH]; [by apply keeps_same|].
  apply keeps_sbind; [apply keeps_wanted|]. intros w. apply keeps_sbind; [exact IH|].
  intros r. by apply keeps_same.
Qed.
Lemma keeps_serve_item item : keeps (serve_item item).
Proof.
  apply keeps_same. intros n. unfold serve_item. destruct (inv_type item); [| |done].
  - unfold with_chain_on_pool. destruct (poisoned _); [done|].
    destruct (pool_serve_transaction _ _ _) as [[[tx|]|e|] p]; done.
  - by destruct (get_block _ _) as [[b|]|e|].
Qed.
Lemma keeps_serve items : keeps (serve_items items).
Proof.
  induction items as [|i items IH]; [by apply keeps_same|].
  apply keeps_sbind; [apply keeps_serve_item|]. intros w. apply keeps_sbind; [exact IH|].
  intros r. by apply keeps_same.
Qed.
Lemma keeps_handle_tx tx : keeps (handle_tx tx).
Proof.
  apply keeps_sbind; [by apply keeps_same|]. intros _. apply keeps_same. intros n.
  unfold with_chain_on_pool. destruct (poisoned _); [done|].
  by destruct (pool_accept_tx _ _ _) as [[a|[|e|e]|] p].
Qed.

Lemma poison_persists m now n r n' :
  handle_peer_message m now n = (r, n') → poisoned (n_chain n') = false →
  poisoned (n_chain n) = false.
Proof.
  intros Hrun Hn'. apply not_true_is_false. intros Hn.
  assert (keeps (handle_peer_message m now)) as Hk.
  { unfold handle_peer_message. destruct (payload m).
    - by apply keeps_same.
    - by apply keeps_same.
    - apply keeps_sbind; [apply keeps_collect|]. intros. by apply keeps_same.
    - apply keeps_sbind; [apply keeps_serve|]. intros. by apply keeps_same.
    - apply keeps_handle_block.
    - apply keeps_handle_tx. }
  specialize (Hk n Hn). rewrite Hrun in Hk. unfold chain_poisoned in Hk.
  destruct r; congruence.
Qed.
End poison.

(** ** The steps of a task *)

Section tasks.
Context {crypto : CryptoLib} {order : HashOrder} {flags : BuildFlags}.
Context (gen : Block) (l : MempoolLimits) (Hl : limits_ok l).

Definition task_small (t : PeerTask) : Prop :=
  zlen (t_outbox t) ≤ MAX_OUTBOUND_QUEUE ∧ zlen (t_commands t) ≤ COMMAND_QUEUE.
(** Queues within their capacities, and no guard out of nothing. *)
Definition tame (t t' : PeerTask) : Prop :=
  (task_small t → task_small t') ∧ (t_guard t' = true → t_guard t = true).

Lemma tame_same t t' :
  t_outbox t' = t_outbox t → (t_commands t' = t_commands t ∨ t_commands t' = []) →
  (t_guard t' = t_guard t ∨ t_guard t' = false) → tame t t'.
Proof.
  intros Ho Hc Hg. unfold tame, task_small. rewrite Ho.
  split; [|by destruct Hg as [-> | ->]]. intros [? ?]. split; [done|].
  by destruct Hc as [-> | ->].
Qed.

Lemma check_established_same t :
  let t' := check_established t in
  t_outbox t' = t_outbox t ∧ t_commands t' = t_commands t ∧ t_guard t' = t_guard t ∧
  t_relay t' = t_relay t.
Proof. unfold check_established. destruct (t_stage t), (t_sending t); try done. by case_bool_decide. Qed.

Lemma handshake_receive_same r t :
  let t' := handshake_receive r t in
  tame t t' ∧ t_relay t' = t_relay t.
Proof.
  unfold handshake_receive. destruct r as [m|e|]; [|by split; [apply tame_same; auto|]..].
  destruct (on_message m _ _) as [[replies|e|] h]; [|by split; [apply tame_same; auto|]..].
  destruct (check_established_same (set_sending replies (set_handshake h t))) as (?&?&?&?).
  split; [|done]. apply tame_same; auto.
Qed.

Lemma running_receive_tame r now sh t sh' t' :
  running_receive r now sh t = (sh', t') → tame t t'.
Proof.
  unfold running_receive. intros Hr. destruct r as [m|e|];
    [|injection Hr as _ <-; apply tame_same; auto..].
  destruct (payload m); try (injection Hr as _ <-; apply tame_same; by auto);
    (destruct (handle_peer_message m now _) as [[[| |]|e|] n]; injection Hr as _ <-;
     apply tame_same; by auto).
Qed.

Lemma peer_step_tame linked queue sh t lb sh' t' :
  peer_step linked queue sh t lb sh' t' → tame t t'.
Proof.
  intros [r _ _|_ _|r now sh1 t1 _ _ Hr|[m|] cs _ _ Hc|_ _ Hc _|_ _|m rest _ Hw Hroom|m rest _ Hw|m ob Hw Hob
    |Hw|e _ _ _|e _ _ _].
  - apply handshake_receive_same.
  - apply tame_same; auto.
  - by eapply running_receive_tame.
  - split; [|done]. intros [Ho Hn]. split; [done|]. simpl. rewrite Hc, zlen_cons in Hn. lia.
  - split; [|done]. intros [Ho Hn]. split; [done|]. simpl. rewrite Hc, zlen_cons in Hn. lia.
  - apply tame_same; auto.
  - apply tame_same; auto.
  - unfold push. rewrite Hw.
    destruct (check_established_same (set_sending rest (set_outbox (t_outbox t ++ [m]) true t)))
      as (Ho&Hc&Hg&_).
    unfold tame, task_small. rewrite Ho, Hc, Hg. simpl. split; [|done]. intros [_ ?]. split; [|done].
    rewrite zlen_app. change (zlen [m]) with 1. lia.
  - unfold push. rewrite Hw. apply tame_same; auto.
  - split; [|done]. intros [Ho Hn]. split; [|done]. simpl. rewrite Hob, zlen_cons in Ho. lia.
  - split; [|done]. intros [_ Hn]. split; [|done]. done.
  - by destruct e.
  - destruct e; apply tame_same; auto.
Qed.

(** The shared state and the trackers, as long as the chain's lock is not poisoned. *)
Definition relay_ok (r : PeerRelayState) : Prop :=
  tracker_ok (block_requests r) ∧ tracker_ok (tx_requests r).
Definition shared_ok (sh : Shared) : Prop :=
  lock_ok (reachable gen) sh.1 ∧ lock_ok (pool_reachable l) sh.2.

Lemma peer_step_shared linked queue sh t lb sh' t' :
  peer_step linked queue sh t lb sh' t' → poisoned sh'.1 = false →
  poisoned sh.1 = false ∧
  (shared_ok sh → relay_ok (t_relay t) → shared_ok sh' ∧ relay_ok (t_relay t')).
Proof.
  intros Hstep Hp. destruct Hstep as
    [r _ _|_ _|r now sh1 t1 _ _ Hr|[m|] cs _ _ Hc|_ _ Hc _|_ _|m rest _ Hw Hroom|m rest _ Hw|m ob Hw Hob
    |Hw|e _ _ _|e _ _ _]; try (by split; [|intros]).
  - split; [done|]. by destruct (handshake_receive_same r t) as [_ ->].
  - unfold running_receive in Hr. destruct r as [m|e|]; [|by injection Hr as <- <-..].
    assert (∀ n, t_relay (fail n t) = t_relay t) as Hf by done.
    destruct (payload m) eqn:Hm; try (by injection Hr as <- <-);
    (destruct (handle_peer_message m now _) as [action n] eqn:Hrun;
     assert (sh1 = (n_chain n, n_pool n) ∧ t_relay t1 = n_relay n) as [-> ->] by
       (destruct action as [[| |]|e|]; by injection Hr as <- <-);
     pose proof (poison_persists _ _ _ _ _ Hrun Hp) as Hp0; simpl in Hp0;
     split; [done|]; intros [Hc Hpl] [Hb Ht];
     destruct (handle_peer_message_safe gen l Hl _ _ _ _ _ (Build_node_ok gen l {| n_chain := sh.1; n_pool := sh.2; n_relay := t_relay t |} Hc Hpl Hb Ht) Hrun)
       as [[_ [????]]|[_ (b&_&_&Hbad&_)]]; [by (split; split)|simpl in Hp; congruence]).
  - unfold push. rewrite Hw.
    destruct (check_established_same (set_sending rest (set_outbox (t_outbox t ++ [m]) true t)))
      as (_&_&_&->). by split.
  - unfold push. rewrite Hw. by split.
  - split; [done|]. by destruct e.
  - split; [done|]. by destruct e.
Qed.

Lemma spawn_peer_ok addr dir cfg height ts guard chain :
  let t := spawn_peer addr dir cfg height ts guard chain in
  task_small t ∧ relay_ok (t_relay t) ∧ (t_guard t = true → guard = true) ∧
  (poisoned chain = false → t_guard t = guard).
Proof.
  assert (tracker_ok default_tracker) as Hd.
  { split_and!; [done..|]. unfold pending_count, default_tracker, new_tracker. simpl.
    by rewrite map_size_empty. }
  unfold spawn_peer, handle_event_cursor, with_read.
  destruct (poisoned chain); by split_and!.
Qed.
End tasks.

(** ** The world *)

Section world.
Context {crypto : CryptoLib} {order : HashOrder} {flags : BuildFlags}.
Context (gen : Block) (l : MempoolLimits) (Hl : limits_ok l) (c : PeerManagerConfig).
Context (Hmax : 0 ≤ max_inbound c) (Hmaxo : 0 ≤ max_outbound c).

Definition is_outbound (e : PeerEntry) : bool := bool_decide (e_direction e = Outbound).

Record manager_ok (m : PeerManager) : Prop := {
  mo_config : m_config m = c;
  mo_outbound : count_if is_outbound (peers m) ≤ outbound_count m ≤ max_outbound c;
  mo_down : match job m with
            | ShuttingDown _ _ | Down | Dropped => peers m = ∅ ∧ shutting_down m = true
            | _ => True
            end
}.

Record world_inv (w : World) : Prop := {
  wi_events : zlen (w_events w) ≤ MAX_PEER_EVENTS;
  wi_registrations : zlen (w_registrations w) ≤ MAX_PEER_REGISTRATIONS;
  wi_tasks : ∀ id t, w_tasks w !! id = Some t → task_small t;
  wi_inbound : w_reserved w = count_if t_guard (w_tasks w) ∧ w_reserved w ≤ max_inbound c;
  wi_manager : manager_ok (w_manager w);
  wi_shared : poisoned (w_shared w).1 = false →
    shared_ok gen l (w_shared w) ∧ ∀ id t, w_tasks w !! id = Some t → relay_ok (t_relay t)
}.

Lemma inv_with_manager w m : world_inv w → manager_ok m → world_inv (with_manager m w).
Proof. intros [????? Hs] Hm. by split. Qed.

Lemma inv_with_queues w events regs accepted :
  world_inv w → zlen events ≤ MAX_PEER_EVENTS → zlen regs ≤ MAX_PEER_REGISTRATIONS →
  world_inv (with_queues events regs accepted w).
Proof. intros [????? Hs] ??. by split. Qed.

(** A known task takes a step. *)
Lemma inv_with_task w id t t' :
  world_inv w → w_tasks w !! id = Some t → tame t t' →
  (poisoned (w_shared w).1 = false → relay_ok (t_relay t')) →
  world_inv (with_task id t' w).
Proof.
  intros [He Hr Ht [Hi1 Hi2] Hm Hs] Hid [Hsmall Hguard] Hrelay. split; simpl; [done|done| | |done|].
  - intros id' t0 [[<- <-]|[_ ?]]%lookup_insert_Some; [by eapply Hsmall, Ht|by eapply Ht].
  - rewrite Hid, count_if_insert, Hid, Hi1.
    destruct (t_guard t), (t_guard t'); simpl; lia.
  - intros Hp. destruct (Hs Hp) as [? Htr]. split; [done|].
    intros id' t0 [[<- <-]|[_ ?]]%lookup_insert_Some; [by apply Hrelay|by eapply Htr].
Qed.

(** A new task is spawned. *)
Lemma inv_new_task w t (n : Z) :
  world_inv w → task_small t → relay_ok (t_relay t) →
  n = w_reserved w + Z.b2z (t_guard t) → n ≤ max_inbound c →
  world_inv (with_task (fresh (dom (w_tasks w))) t (with_reserved n w)).
Proof.
  intros [He Hr Ht [Hi1 Hi2] Hm Hs] Hsmall Hrelay Hn Hmx.
  pose proof (is_fresh (dom (w_tasks w))) as Hf. apply not_elem_of_dom in Hf.
  split; simpl; [done|done| | |done|].
  - intros id' t0 [[<- <-]|[_ ?]]%lookup_insert_Some; [done|by eapply Ht].
  - rewrite Hf, count_if_insert, Hf. split; [lia|done].
  - intros Hp. destruct (Hs Hp) as [? Htr]. split; [done|].
    intros id' t0 [[<- <-]|[_ ?]]%lookup_insert_Some; [done|by eapply Htr].
Qed.

(** The handler of a cancelled task runs to its end. *)
Lemma inv_detached w id t m now a n :
  world_inv w → w_tasks w !! id = Some t →
  handle_peer_message m now
    {| n_chain := (w_shared w).1; n_pool := (w_shared w).2; n_relay := t_relay t |} = (a, n) →
  world_inv (with_shared (n_chain n, n_pool n) w).
Proof.
  intros [????? Hs] Ht Hrun. split; try done. intros Hp.
  destruct (Hs (poison_persists _ _ _ _ _ Hrun Hp)) as [[Hc Hpl] Htr]. split; [|done].
  destruct (Htr _ _ Ht) as [Hb Hx].
  destruct (handle_peer_message_safe gen l Hl _ _ _ _ _ (Build_node_ok gen l
    {| n_chain := (w_shared w).1; n_pool := (w_shared w).2; n_relay := t_relay t |} Hc Hpl Hb Hx) Hrun)
    as [[_ [????]]|[_ (b&_&_&Hbad&_)]]; [by split|simpl in Hp; congruence].
Qed.

Lemma manager_job m j :
  manager_ok m → (match j with ShuttingDown _ _ | Down | Dropped => False | _ => True end) →
  manager_ok (set_job j m).
Proof. intros [Hc Ho _] Hj. split; [done..|]. simpl. by destruct j. Qed.

Lemma count_empty {K} `{Countable K} {V} (f : V → bool) : count_if f (∅ : gmap K V) = 0.
Proof. unfold count_if. by rewrite map_filter_empty, map_size_empty. Qed.

Lemma handle_event_ok e m : job m = Draining → manager_ok m → manager_ok (handle_event e m).
Proof.
  intros Hj Hm. pose proof Hm as [Hc [Ho1 Ho2] _]. destruct e as [a|a items|a e|a e]; simpl; [| | |done].
  - destruct (peers m !! a) as [en|] eqn:Ha; [|done]. split; [done| |by simpl; rewrite Hj].
    simpl. rewrite count_if_insert, Ha. unfold is_outbound at 2 3. simpl. lia.
  - unfold relay_inventory. case_bool_decide; by apply manager_job.
  - destruct (peers m !! a) as [en|] eqn:Ha; [|done]. split; [done| |by simpl; rewrite Hj].
    simpl. pose proof (count_if_nonneg is_outbound (delete a (peers m))) as Hnn.
    rewrite count_if_delete, Ha in *. unfold is_outbound at 2 in Hnn. unfold is_outbound at 2.
    case_bool_decide; simpl in *; lia.
Qed.

Lemma abort_task_inv w id : world_inv w → world_inv (abort_task id w).
Proof. by intros []. Qed.
Lemma abort_tasks_inv ids w :
  world_inv w → world_inv (foldl (λ w id, abort_task id w) w ids).
Proof. revert w. induction ids as [|id ids IH]; intros w Hw; [done|]. by apply IH, abort_task_inv. Qed.

Lemma drop_manager_inv w : world_inv w → world_inv (drop_manager w).
Proof.
  intros Hw. unfold drop_manager. pose proof (wi_manager w Hw) as [Hc [Ho1 Ho2] _].
  apply inv_with_manager.
  - apply inv_with_queues; [|done|done]. destruct (shutting_down _); [done|by apply abort_tasks_inv].
  - split; [done| |done]. simpl. rewrite count_empty.
    pose proof (count_if_nonneg is_outbound (peers (w_manager w))). lia.
Qed.

Lemma process_registration_inv w r :
  job (w_manager w) = Idle → world_inv w →
  world_inv (process_registration r w) ∧ job (w_manager (process_registration r w)) = Idle.
Proof.
  intros Hj Hw. unfold process_registration. pose proof (wi_manager w Hw) as [Hc [Ho1 Ho2] _].
  destruct (bool_decide (r_direction r = Outbound)) eqn:Hd; simpl.
  1: destruct (Z.leb_spec (max_outbound (m_config (w_manager w))) (outbound_count (w_manager w))) as [Hle|Hlt].
  - pose proof (abort_task_inv w (r_task r) Hw) as Hw1.
    destruct (Z.ltb_spec (zlen (w_events w)) MAX_PEER_EVENTS); (split; [|done]); [|done].
    apply inv_with_queues; [done| |by apply Hw1]. rewrite zlen_app.
    change (zlen [_]) with 1. lia.
  - split; [|done]. apply inv_with_manager; [done|]. split; [done| |by simpl; rewrite Hj].
    simpl. rewrite count_if_insert. rewrite Hc in Hlt.
    assert (Z.b2z (is_outbound {| e_task := r_task r; e_direction := r_direction r; e_state := LHandshaking |}) = 1)
      as -> by (unfold is_outbound; simpl; by rewrite Hd).
    destruct (peers (w_manager w) !! r_addr r) as [en|]; [destruct (is_outbound en)|]; simpl; lia.
  - split; [|done]. apply inv_with_manager; [done|]. split; [done| |by simpl; rewrite Hj].
    simpl. rewrite count_if_insert.
    assert (Z.b2z (is_outbound {| e_task := r_task r; e_direction := r_direction r; e_state := LHandshaking |}) = 0)
      as -> by (unfold is_outbound; simpl; by rewrite Hd).
    destruct (peers (w_manager w) !! r_addr r) as [en|]; [destruct (is_outbound en)|]; simpl; lia.
Qed.

Lemma process_registrations_inv w :
  job (w_manager w) = Idle → world_inv w →
  world_inv (process_registrations w) ∧ job (w_manager (process_registrations w)) = Idle.
Proof.
  intros Hj Hw. unfold process_registrations.
  assert (∀ rs w0, job (w_manager w0) = Idle → world_inv w0 →
    let w1 := foldl (λ w r, process_registration r w) w0 rs in
    world_inv w1 ∧ job (w_manager w1) = Idle) as Hfold.
  { induction rs as [|r rs IH]; intros w0 Hj0 Hw0; [done|]. simpl.
    destruct (process_registration_inv w0 r Hj0 Hw0). by apply IH. }
  apply Hfold; [done|]. apply inv_with_queues; [done|by apply Hw|done].
Qed.

Lemma accept_inv addr cfg ts w : world_inv w → world_inv (accept addr cfg ts w).
Proof.
  intros Hw. unfold accept. pose proof (mo_config _ (wi_manager w Hw)) as Hc. rewrite Hc.
  destruct (Z.leb_spec (max_inbound c) (w_reserved w)) as [|Hlt]; [done|].
  set (t := spawn_peer _ _ _ _ _ _ _).
  destruct (spawn_peer_ok addr Inbound cfg (advertised_height (w_shared w).1) ts true (w_shared w).1)
    as (Hsmall&Hrelay&_). fold t in Hsmall, Hrelay.
  set (w1 := with_queues _ _ _ w).
  assert (world_inv w1) as Hw1 by (by apply inv_with_queues; [|apply Hw..]).
  apply (inv_new_task w1); [done..| |]; destruct (t_guard t); simpl; lia.
Qed.

Lemma connect_seed_inv addr connected cfg ts w :
  job (w_manager w) = Idle → world_inv w → world_inv (connect_seed addr connected cfg ts w).2.
Proof.
  intros Hj Hw. unfold connect_seed. pose proof (wi_manager w Hw) as [Hc [Ho1 Ho2] _].
  destruct (Z.leb_spec (max_outbound (m_config (w_manager w))) (outbound_count (w_manager w))) as [|Hlt];
    [done|]. rewrite Hc in Hlt.
  case_bool_decide as Ha; [done|]. destruct connected; [|done]. simpl.
  set (t := spawn_peer _ _ _ _ _ _ _).
  destruct (spawn_peer_ok addr Outbound cfg (advertised_height (w_shared w).1) ts false (w_shared w).1)
    as (Hsmall&Hrelay&Hg&_). fold t in Hsmall, Hrelay, Hg.
  apply inv_with_manager.
  - pose proof (inv_new_task w t (w_reserved w) Hw Hsmall Hrelay) as H.
    assert (t_guard t = false) as Hg0 by (destruct (t_guard t); [by discriminate (Hg eq_refl)|done]).
    rewrite Hg0 in H. destruct w. simpl in *. apply H; [lia|apply (wi_inbound _ Hw)].
  - split; [done| |by simpl; rewrite Hj]. simpl. apply eq_None_not_Some in Ha.
    rewrite count_if_insert, Ha. simpl. lia.
Qed.

Lemma send_command_tame cmd t t' : send_command cmd t = Some (Ok t') → tame t t' ∧ t_relay t' = t_relay t.
Proof.
  unfold send_command. destruct (closed t); [done|].
  destruct (Z.ltb_spec (zlen (t_commands t)) COMMAND_QUEUE) as [Hlt|]; [|done]. intros [= <-].
  split; [|done]. split; [|done]. intros [? ?]. split; [done|]. simpl.
  rewrite zlen_app. change (zlen [cmd]) with 1. lia.
Qed.

Lemma begin_shutdown_inv w : world_inv w → world_inv (begin_shutdown w).
Proof.
  intros Hw. unfold begin_shutdown. destruct (shutting_down (w_manager w)); [done|].
  apply inv_with_manager; [apply inv_with_queues; [done|apply Hw..]|].
  pose proof (wi_manager w Hw) as [Hc [Ho1 Ho2] _]. split; [done| |done]. simpl.
  rewrite count_empty. pose proof (count_if_nonneg is_outbound (peers (w_manager w))). lia.
Qed.

(** A task takes a step and the manager moves on. *)
Lemma inv_task_and_job w id t t' m :
  world_inv w → w_tasks w !! id = Some t → tame t t' → t_relay t' = t_relay t → manager_ok m →
  world_inv (with_manager m (with_task id t' w)).
Proof.
  intros Hw Ht Htame Hr Hm. apply inv_with_manager; [|done].
  eapply inv_with_task; [done..|]. intros Hp. rewrite Hr. by eapply (wi_shared w Hw Hp).
Qed.

Lemma events_after_bounded lb w :
  zlen (w_events w) ≤ MAX_PEER_EVENTS → zlen (events_after lb w) ≤ MAX_PEER_EVENTS.
Proof.
  intros He. unfold events_after, event_queue. destruct lb as [|m|e]; [done..|].
  destruct (Z.ltb_spec (zlen (w_events w)) MAX_PEER_EVENTS); destruct (job _); try done;
    rewrite zlen_app; change (zlen [e]) with 1; lia.
Qed.

Lemma peer_step_world_inv w id t lb sh t' :
  world_inv w → w_tasks w !! id = Some t →
  peer_step (linked w id) (event_queue w) (w_shared w) t lb sh t' →
  world_inv (with_shared sh (with_task id t'
      (with_queues (events_after lb w) (w_registrations w) (w_accepted w) w))).
Proof.
  intros Hw Ht Hstep.
  set (w1 := with_queues _ _ _ w).
  assert (world_inv w1) as Hw1.
  { apply inv_with_queues; [done|by apply events_after_bounded, Hw|apply Hw]. }
  pose proof (peer_step_tame _ _ _ _ _ _ _ Hstep) as Htame.
  pose proof (peer_step_shared gen l Hl _ _ _ _ _ _ _ Hstep) as Hsh.
  split; simpl.
  - apply Hw1.
  - apply Hw1.
  - intros id' t0 [[<- <-]|[_ ?]]%lookup_insert_Some.
    + by eapply Htame, (wi_tasks w Hw).
    + by eapply (wi_tasks w Hw).
  - rewrite Ht, count_if_insert, Ht. destruct (wi_inbound w Hw) as [Hi1 Hi2]. rewrite Hi1 in *.
    destruct Htame as [_ Hg]. destruct (t_guard t), (t_guard t'); simpl; lia.
  - apply (wi_manager w Hw).
  - intros Hp. destruct (Hsh Hp) as [Hp0 Hok]. destruct (wi_shared w Hw Hp0) as [Hs Htr].
    destruct (Hok Hs (Htr _ _ Ht)) as [Hs' Hr']. split; [done|].
    intros id' t0 [[<- <-]|[_ ?]]%lookup_insert_Some; [done|by eapply Htr].
Qed.

Lemma world_step_inv w w' : world_step w w' → world_inv w → world_inv w'.
Proof.
  intros Hstep Hw. pose proof (wi_manager w Hw) as Hm.
  destruct Hstep as [id t lb sh t' Ht Hs|addr cfg ts _ _|r Hr Hroom|addr connected cfg ts Hj|Hj
    |e events Hj He|Hj He|msg id tg t t' Hj Ht Hs|msg id tg t e Hj Ht Hs|msg Hj|Hj
    |id tg jn t t' Hj Ht Hs|id jn t Hj Ht Hs|Hj|Hj|id jn Hj|id jn t Hj Ht|id t Hcan Ht
    |id t m now a n Hcan Ht Hf Hread Hrun].
  - by eapply peer_step_world_inv.
  - by apply accept_inv.
  - apply inv_with_queues; [done|apply Hw|]. rewrite zlen_app. change (zlen [r]) with 1. lia.
  - by apply connect_seed_inv.
  - destruct (process_registrations_inv w Hj Hw) as [Hw1 _]. apply inv_with_manager; [done|].
    apply manager_job; [apply (wi_manager _ Hw1)|done].
  - apply inv_with_manager; [|by apply handle_event_ok].
    apply inv_with_queues; [done| |apply Hw]. pose proof (wi_events w Hw) as Hl'.
    rewrite He, zlen_cons in Hl'. lia.
  - apply inv_with_manager; [done|]. by apply manager_job.
  - destruct (send_command_tame _ _ _ Hs). eapply inv_task_and_job; [done..|]. by apply manager_job.
  - apply inv_with_manager; [done|]. by apply manager_job.
  - apply inv_with_manager; [done|]. by apply manager_job.
  - by apply begin_shutdown_inv.
  - destruct Hm as [Hc Ho Hd]. rewrite Hj in Hd.
    assert (tame t t' ∧ t_relay t' = t_relay t) as [??].
    { destruct Hs as [Hs|[_ ->]]; [by eapply send_command_tame|]. split; [|done]. by apply tame_same; auto. }
    by eapply inv_task_and_job.
  - apply inv_with_manager; [done|]. destruct Hm as [Hc Ho Hd]. rewrite Hj in Hd. by split.
  - apply inv_with_manager; [done|]. destruct Hm as [Hc Ho Hd]. rewrite Hj in Hd. destruct Hd as [Hp Hd].
    split; [done| |done]. simpl. rewrite Hp, count_empty. lia.
  - by apply drop_manager_inv.
  - apply inv_with_manager; [by apply abort_task_inv|]. destruct Hm as [Hc Ho Hd].
    rewrite Hj in Hd. by split.
  - eapply inv_task_and_job; [done..| |done|by apply manager_job]. apply tame_same; auto.
  - eapply inv_with_task; [done..|by apply tame_same; auto|]. intros Hp. simpl.
    by eapply (wi_shared w Hw Hp).
  - by eapply inv_detached.
Qed.

Lemma new_world_inv sh : (poisoned sh.1 = false → shared_ok gen l sh) → world_inv (new_world c sh).
Proof.
  intros Hsh. split; simpl; [done|done|done| | |].
  - rewrite count_empty. lia.
  - split; [done| |done]. simpl. rewrite count_empty. lia.
  - intros Hp. split; [by apply Hsh|done].
Qed.

Lemma reachable_world_inv sh w :
  shared_ok gen l sh → rtc world_step (new_world c sh) w → world_inv w.
Proof.
  intros Hsh Hrun. assert (world_inv (new_world c sh)) as H0 by (by apply new_world_inv).
  induction Hrun as [|w1 w2 w3 Hs _ IH]; [done|]. apply IH. by eapply world_step_inv.
Qed.
End world.
