(* ===== verification/PeersTheorems.v ===== *)
(** * Theorems about the peer manager (bitrst-net/src/peers.rs, peer.rs)

    Bounds of every queue and counter, the safety of the shared state under all peers, and
    what a broadcast reaches. *)

From stdpp Require Import prelude gmap strings list sorting relations.
From Stdlib Require Import Strings.Byte.
From S2P Require Import Prelude Bytes Crypto U256 Wire Transaction Merkle Block Utxo Script.
From S2P Require Import Sighash Journal Store Chain ChainTx ChainInv ChainReorg ChainProps.
From S2P Require Import ChainTheorems Mempool MempoolInv MempoolEvict MempoolSync.
From S2P Require Import MempoolTheorems Message Handshake Handles Relay RelayTheorems Peer Peers.
From S2P Require Import PeersInv.

Local Open Scope Z_scope.
Local Open Scope list_scope.

(** ** Tasks and their addresses *)

Section address.
Context {crypto : CryptoLib} {order : HashOrder} {flags : BuildFlags}.

Definition established (t : PeerTask) : Prop := phase (t_handshake t) = Established.

(** A task in its main loop, or announcing, has completed its handshake. *)
Definition stage_ok (t : PeerTask) : Prop :=
  match t_stage t with
  | Running => established t
  | Emitting (PeerReady a) | Emitting (PeerAnnounce a _) => a = t_addr t ∧ established t
  | Emitting (RegistrationRejected _ _) => False
  | _ => True
  end.
(** How a task may change in one step of anybody. *)
Definition evolves (t t' : PeerTask) : Prop :=
  t_addr t' = t_addr t ∧ (established t → established t') ∧ (stage_ok t → stage_ok t').

Lemma evolves_refl t : evolves t t.
Proof. done. Qed.

Lemma check_established_evolves t : evolves t (check_established t).
Proof.
  unfold check_established, evolves. destruct (t_stage t) eqn:Hs, (t_sending t); try done.
  case_bool_decide; [|done]. by split_and!.
Qed.

Lemma evolves_trans t1 t2 t3 : evolves t1 t2 → evolves t2 t3 → evolves t1 t3.
Proof. intros (Ha&?&?) (Ha2&?&?). split_and!; [congruence|auto|auto]. Qed.

Lemma handshake_receive_evolves r t : t_stage t = Handshaking → evolves t (handshake_receive r t).
Proof.
  intros Hst. unfold handshake_receive. destruct r as [m|e|]; [|by split_and!..].
  assert (∀ local rep h, on_message m local (t_handshake t) = (rep, h) →
    phase (t_handshake t) = Established → phase h = Established) as Hkeep.
  { intros local rep h Hm Hp. rewrite on_message_established in Hm by done. by injection Hm as _ <-. }
  destruct (on_message m _ _) as [[replies|e|] h] eqn:Hm.
  - eapply evolves_trans; [|apply check_established_evolves]. split_and!; [done|by eapply Hkeep|].
    unfold stage_ok. simpl. by rewrite Hst.
  - split_and!; [done|by eapply Hkeep|done].
  - split_and!; [done|by eapply Hkeep|done].
Qed.

Lemma running_receive_evolves r now sh t sh' t' :
  t_stage t = Running → running_receive r now sh t = (sh', t') → evolves t t'.
Proof.
  unfold running_receive, evolves, stage_ok. intros Hst Hr. rewrite Hst.
  destruct r as [m|e|]; [|by injection Hr as _ <-..].
  destruct (payload m); try (by injection Hr as _ <-);
    (destruct (handle_peer_message m now _) as [[[| |]|e|] n]; injection Hr as _ <-; simpl;
     rewrite ?Hst; done).
Qed.

Lemma peer_step_evolves linked queue sh t lb sh' t' :
  peer_step linked queue sh t lb sh' t' → evolves t t'.
Proof.
  intros [r Hs _|_ _|r now sh1 t1 Hs _ Hr|[m|] cs Hs _ Hc|Hs _ Hc _|Hs _|m rest Hse Hw Hroom|m rest _ Hw
    |m ob Hw Hob|Hw|e Hs _ _|e Hs _ _]; try done.
  - by apply handshake_receive_evolves.
  - by eapply running_receive_evolves.
  - unfold push. rewrite Hw. eapply evolves_trans; [|apply check_established_evolves]. done.
  - unfold push. by rewrite Hw.
  - unfold evolves, stage_ok. rewrite Hs. destruct e; simpl; split_and!; try done; by intros [_ ?].
  - unfold evolves, stage_ok. rewrite Hs. by destruct e.
Qed.

Lemma spawn_peer_stage addr dir cfg height ts guard chain :
  stage_ok (spawn_peer addr dir cfg height ts guard chain) ∧
  t_addr (spawn_peer addr dir cfg height ts guard chain) = addr.
Proof. unfold spawn_peer. by destruct (handle_event_cursor chain). Qed.

(** ** The addresses of the world *)

Definition task_at (w : World) (addr : SocketAddr) (id : nat) : Prop :=
  ∃ t, w_tasks w !! id = Some t ∧ t_addr t = addr.
(** Some connection from the address has completed its handshake. *)
Definition greeted_at (w : World) (addr : SocketAddr) : Prop :=
  ∃ id t, w_tasks w !! id = Some t ∧ t_addr t = addr ∧ established t.

Definition event_ok (w : World) (e : PeerEvent) : Prop :=
  match e with PeerReady a | PeerAnnounce a _ => greeted_at w a | _ => True end.
Definition job_tasks (j : Job) : list nat :=
  match j with Relaying _ targets => targets | ShuttingDown targets joining => targets ++ joining | _ => [] end.

Record addr_inv (w : World) : Prop := {
  ai_entries : ∀ a e, peers (w_manager w) !! a = Some e →
    task_at w a (e_task e) ∧ (e_state e = LReady → greeted_at w a);
  ai_registrations : ∀ r, r ∈ w_registrations w ++ option_list (w_accepted w) →
    task_at w (r_addr r) (r_task r);
  ai_events : Forall (event_ok w) (w_events w);
  ai_stages : ∀ id t, w_tasks w !! id = Some t → stage_ok t;
  ai_job : Forall (λ id, is_Some (w_tasks w !! id)) (job_tasks (job (w_manager w)))
}.

(** Tasks only evolve, so what is known of an address stays known. *)
Definition grows (w w' : World) : Prop :=
  ∀ id t, w_tasks w !! id = Some t → ∃ t', w_tasks w' !! id = Some t' ∧ evolves t t'.

Lemma grows_task_at w w' a id : grows w w' → task_at w a id → task_at w' a id.
Proof.
  intros Hg (t&Ht&Ha). destruct (Hg _ _ Ht) as (t'&Ht'&Ha'&_). exists t'. by rewrite Ha'.
Qed.
Lemma grows_greeted w w' a : grows w w' → greeted_at w a → greeted_at w' a.
Proof.
  intros Hg (id&t&Ht&Ha&He). destruct (Hg _ _ Ht) as (t'&Ht'&Ha'&He'&_). exists id, t'.
  rewrite Ha'. auto.
Qed.
Lemma grows_event w w' e : grows w w' → event_ok w e → event_ok w' e.
Proof. intros Hg. destruct e; simpl; [by apply grows_greeted..|done|done]. Qed.

(** The tasks grow and the rest stays: what the invariant says of the rest. *)
Lemma addr_inv_grow w w' :
  grows w w' → w_manager w' = w_manager w → w_registrations w' = w_registrations w →
  w_accepted w' = w_accepted w → w_events w' = w_events w →
  (∀ id t, w_tasks w' !! id = Some t → stage_ok t) → addr_inv w → addr_inv w'.
Proof.
  intros Hg Hm Hr Ha He Hs [H1 H2 H3 _ H5]. split.
  - intros a e Hae. rewrite Hm in Hae. destruct (H1 _ _ Hae) as [Ht Hgr].
    split; [by eapply grows_task_at|]. intros Hl. eapply grows_greeted; [done|by apply Hgr].
  - intros r Hin. rewrite Hr, Ha in Hin. by eapply grows_task_at, H2.
  - rewrite He. eapply Forall_impl; [exact H3|]. intros e. by apply grows_event.
  - done.
  - rewrite Hm. eapply Forall_impl; [exact H5|]. intros id [t Ht].
    destruct (Hg _ _ Ht) as (t'&?&_). by eexists.
Qed.

Lemma with_task_grows w id t t' : w_tasks w !! id = Some t → evolves t t' → grows w (with_task id t' w).
Proof.
  intros Ht He id' t0 Ht0. simpl. destruct (decide (id' = id)) as [->|Hne].
  - rewrite lookup_insert_eq. exists t'. by simplify_eq.
  - rewrite lookup_insert_ne by done. by exists t0.
Qed.
Lemma new_task_grows w n t : grows w (with_task (fresh (dom (w_tasks w))) t (with_reserved n w)).
Proof.
  intros id t0 Ht0. simpl. rewrite lookup_insert_ne; [by exists t0|]. intros <-.
  pose proof (is_fresh (dom (w_tasks w))) as Hf. apply Hf, elem_of_dom. by eexists.
Qed.

Lemma addr_with_task w id t t' :
  addr_inv w → w_tasks w !! id = Some t → evolves t t' → addr_inv (with_task id t' w).
Proof.
  intros Hw Ht He. apply (addr_inv_grow w); try done; [by eapply with_task_grows|].
  simpl. intros id' t0 [[<- <-]|[_ ?]]%lookup_insert_Some; [|by eapply (ai_stages w Hw)].
  destruct He as (_&_&Hs). by eapply Hs, (ai_stages w Hw).
Qed.
Lemma addr_with_job w j :
  addr_inv w → Forall (λ id, is_Some (w_tasks w !! id)) (job_tasks j) →
  addr_inv (with_manager (set_job j (w_manager w)) w).
Proof. intros [] ?. by split. Qed.
Lemma addr_with_entry w a e count :
  addr_inv w → task_at w a (e_task e) → (e_state e = LReady → greeted_at w a) →
  addr_inv (with_manager (set_peers (<[a := e]> (peers (w_manager w))) count (w_manager w)) w).
Proof.
  intros [H1 H2 H3 H4 H5] ??. split; try done. simpl.
  intros a' e' [[<- <-]|[_ ?]]%lookup_insert_Some; [done|by apply H1].
Qed.
Lemma addr_with_queues w events regs accepted :
  addr_inv w → Forall (event_ok w) events →
  (∀ r, r ∈ regs ++ option_list accepted → task_at w (r_addr r) (r_task r)) →
  addr_inv (with_queues events regs accepted w).
Proof. intros [] ??. by split. Qed.

(** A new task that is registered, or entered at once, under its own address. *)
Lemma addr_new_task w n t :
  addr_inv w → stage_ok t →
  let w' := with_task (fresh (dom (w_tasks w))) t (with_reserved n w) in
  addr_inv w' ∧ task_at w' (t_addr t) (fresh (dom (w_tasks w))) ∧ grows w w'.
Proof.
  intros Hw Ht w'. pose proof (new_task_grows w n t) as Hg. split_and!; [|exists t; split; [|done]|done].
  - apply (addr_inv_grow w); try done.
    simpl. intros id t0 [[<- <-]|[_ ?]]%lookup_insert_Some; [done|by eapply (ai_stages w Hw)].
  - simpl. by rewrite lookup_insert_eq.
Qed.

Lemma accept_addr addr cfg ts w : addr_inv w → w_accepted w = None → addr_inv (accept addr cfg ts w).
Proof.
  intros Hw Hacc. unfold accept. destruct (max_inbound _ <=? _); [done|].
  set (t := spawn_peer _ _ _ _ _ _ _).
  destruct (spawn_peer_stage addr Inbound cfg (advertised_height (w_shared w).1) ts true (w_shared w).1)
    as [Hst Ha]. fold t in Hst, Ha.
  set (n := w_reserved w + 1 - _).
  destruct (addr_new_task w n t Hw Hst) as (Hw'&Ht&Hg). rewrite Ha in Ht.
  apply (addr_with_queues _ (w_events w) (w_registrations w)
    (Some {| r_addr := addr; r_direction := Inbound; r_task := fresh (dom (w_tasks w)) |})) in Hw'.
  - exact Hw'.
  - apply Hw'.
  - intros r [Hr|Hr]%elem_of_app; [|by apply list_elem_of_singleton in Hr as ->].
    eapply grows_task_at; [exact Hg|]. apply (ai_registrations w Hw). by apply elem_of_app; left.
Qed.

Lemma connect_seed_addr addr connected cfg ts w :
  addr_inv w → addr_inv (connect_seed addr connected cfg ts w).2.
Proof.
  intros Hw. unfold connect_seed. destruct (max_outbound _ <=? _); [done|].
  case_bool_decide as Hp; [done|]. destruct connected; [|done]. simpl.
  set (t := spawn_peer _ _ _ _ _ _ _).
  destruct (spawn_peer_stage addr Outbound cfg (advertised_height (w_shared w).1) ts false (w_shared w).1)
    as [Hst Ha]. fold t in Hst, Ha.
  destruct (addr_new_task w (w_reserved w) t Hw Hst) as (Hw'&Ht&_). rewrite Ha in Ht.
  set (en := {| e_task := fresh (dom (w_tasks w)); e_direction := Outbound; e_state := LHandshaking |}).
  pose proof (addr_with_entry _ addr en (outbound_count (w_manager w) + 1) Hw' Ht) as H.
  destruct w. by apply H.
Qed.

Lemma abort_task_addr w id : addr_inv w → addr_inv (abort_task id w) ∧ grows w (abort_task id w).
Proof.
  intros Hw. split; [by destruct Hw|]. intros i t Ht. by exists t.
Qed.
Lemma abort_tasks_addr ids w : addr_inv w → addr_inv (foldl (λ w id, abort_task id w) w ids).
Proof. revert w. induction ids as [|id ids IH]; intros w Hw; [done|]. by apply IH, abort_task_addr. Qed.

Lemma drop_manager_addr w : addr_inv w → addr_inv (drop_manager w).
Proof.
  intros Hw. unfold drop_manager.
  assert (addr_inv (if shutting_down (w_manager w) then w
    else foldl (λ w id, abort_task id w) w (entry_tasks (w_manager w)))) as [_ _ _ Hs _].
  { destruct (shutting_down _); [done|by apply abort_tasks_addr]. }
  split; simpl; [done| |done|exact Hs|done]. intros r Hr. by apply not_elem_of_nil in Hr.
Qed.

Lemma process_registration_addr w r :
  addr_inv w → task_at w (r_addr r) (r_task r) →
  addr_inv (process_registration r w) ∧ grows w (process_registration r w).
Proof.
  intros Hw Hr. unfold process_registration.
  destruct (bool_decide (r_direction r = Outbound) && _).
  - destruct (abort_task_addr w (r_task r) Hw) as [Hw1 Hg1].
    destruct (_ <? _); [|done]. split; [|done].
    apply addr_with_queues; [done| |apply Hw1].
    apply Forall_app. split; [apply Hw1|by constructor].
  - split; [|intros id t ?; by exists t]. by apply addr_with_entry.
Qed.

Lemma process_registrations_addr w : addr_inv w → addr_inv (process_registrations w).
Proof.
  intros Hw. unfold process_registrations.
  assert (∀ rs w0, addr_inv w0 → Forall (λ r, task_at w0 (r_addr r) (r_task r)) rs →
    addr_inv (foldl (λ w r, process_registration r w) w0 rs)) as Hfold.
  { induction rs as [|r rs IH]; intros w0 Hw0 Hrs; [done|]. simpl.
    apply Forall_cons in Hrs as [Hr Hrs].
    destruct (process_registration_addr w0 r Hw0 Hr) as [Hw1 Hg]. apply IH; [done|].
    eapply Forall_impl; [exact Hrs|]. intros r'. by apply grows_task_at. }
  apply Hfold.
  - apply addr_with_queues; [done|apply Hw|]. intros r Hr. apply (ai_registrations w Hw).
    by apply elem_of_app; right.
  - apply Forall_forall. intros r Hr. apply (ai_registrations w Hw). by apply elem_of_app; left.
Qed.

Lemma entries_tasks w :
  addr_inv w → Forall (λ id, is_Some (w_tasks w !! id))
    (entry_tasks (w_manager w)).
Proof.
  intros Hw. apply Forall_forall. intros id ((a&e)&->&Hin)%list_elem_of_fmap.
  apply elem_of_hm_iter in Hin. destruct (ai_entries w Hw _ _ Hin) as [(t&?&_) _]. by eexists.
Qed.

Lemma handle_event_addr w e :
  addr_inv w → event_ok w e → job (w_manager w) = Draining →
  addr_inv (with_manager (handle_event e (w_manager w)) w).
Proof.
  intros Hw He Hj. pose proof Hw as [H1 H2 H3 H4 H5].
  destruct e as [a|a items|a e|a e]; simpl in *; [| | |by split].
  - destruct (peers (w_manager w) !! a) as [en|] eqn:Ha; [|by split].
    apply addr_with_entry; [done|apply (H1 _ _ Ha)|done].
  - unfold relay_inventory. case_bool_decide; apply addr_with_job; [done|constructor|done|].
    simpl. apply Forall_forall. intros id ((b&en)&->&[_ Hin]%list_elem_of_filter)%list_elem_of_fmap.
    apply elem_of_hm_iter in Hin. destruct (H1 _ _ Hin) as [(t&?&_) _]. by eexists.
  - destruct (peers (w_manager w) !! a) as [en|] eqn:Ha; [|by split]. split; try done. simpl.
    intros a' e' [_ Hae]%lookup_delete_Some. by apply H1.
Qed.

Lemma send_command_evolves cmd t t' : send_command cmd t = Some (Ok t') → evolves t t'.
Proof. unfold send_command. destruct (closed t); [done|]. destruct (_ <? _); [|done]. by intros [= <-]. Qed.

Lemma addr_step_job w id t t' j :
  addr_inv w → w_tasks w !! id = Some t → evolves t t' →
  Forall (λ id, is_Some (w_tasks w !! id)) (job_tasks j) →
  addr_inv (with_manager (set_job j (w_manager w)) (with_task id t' w)).
Proof.
  intros Hw Ht He Hj. pose proof (with_task_grows _ _ _ _ Ht He) as Hg.
  apply (addr_with_task _ _ _ _ Hw Ht) in He as [H1 H2 H3 H4 _]. split; try done.
  eapply Forall_impl; [exact Hj|]. intros id' [t0 Ht0]. destruct (Hg _ _ Ht0) as (t1&?&_). by exists t1.
Qed.

Lemma world_step_addr w w' : world_step w w' → addr_inv w → addr_inv w'.
Proof.
  intros Hstep Hw. pose proof (ai_job w Hw) as Hjt.
  destruct Hstep as [id t lb sh t' Ht Hs|addr cfg ts _ Hacc|r Hr Hroom|addr connected cfg ts Hj|Hj
    |e events Hj He|Hj He|msg id tg t t' Hj Ht Hs|msg id tg t e Hj Ht Hs|msg Hj|Hj
    |id tg jn t t' Hj Ht Hs|id jn t Hj Ht Hs|Hj|Hj|id jn Hj|id jn t Hj Ht|id t Hcan Ht
    |id t m now act n Hcan Ht Hf Hread Hrun]; [rewrite ?Hj in Hjt..|].
  - pose proof (peer_step_evolves _ _ _ _ _ _ _ Hs) as He.
    pose proof (with_task_grows _ _ _ _ Ht He) as Hg.
    assert (addr_inv (with_task id t' w)) as [H1 H2 H3 H4 H5] by (by eapply addr_with_task).
    split; try done. simpl. unfold events_after.
    destruct lb as [|m|e]; [done..|]. destruct (event_queue w) eqn:Hq; try done.
    apply Forall_app. split; [done|].
    constructor; [|done]. inversion Hs as [| | | | | | | | | |e' Hst ??|]; subst; try done.
    pose proof (ai_stages w Hw _ _ Ht) as Hok. unfold stage_ok in Hok. rewrite Hst in Hok.
    destruct He as (Ha&Hest&_).
    destruct e as [a|a items|a e|a e]; simpl; try done; destruct Hok as [-> Hok];
      (exists id; eexists; simpl; rewrite lookup_insert_eq; split; [done|]; split; [done|by apply Hest]).
  - by apply accept_addr.
  - apply addr_with_queues; [done|apply Hw|]. intros r' Hr'. apply (ai_registrations w Hw).
    rewrite Hr. simpl in *. by rewrite (right_id_L [] (++)) in Hr'.
  - by apply connect_seed_addr.
  - apply addr_with_job; [by apply process_registrations_addr|constructor].
  - pose proof (ai_events w Hw) as Hev. rewrite He in Hev. apply Forall_cons in Hev as [Hev1 Hev2].
    apply (handle_event_addr (with_queues events (w_registrations w) (w_accepted w) w)); [|done|done].
    apply addr_with_queues; [done|done|apply Hw].
  - apply addr_with_job; [done|constructor].
  - apply Forall_cons in Hjt as [_ Hjt]. eapply addr_step_job; [done..| |done].
    by eapply send_command_evolves.
  - apply addr_with_job; [done|constructor].
  - apply addr_with_job; [done|constructor].
  - unfold begin_shutdown. destruct (shutting_down _); [done|]. pose proof (entries_tasks w Hw) as Hen.
    destruct Hw as [H1 H2 H3 H4 H5]. split; simpl; [done| |done|done|by apply Forall_app].
    intros r Hr. apply H2. rewrite (right_id_L [] (++)) in Hr. by apply elem_of_app; left.
  - apply Forall_app in Hjt as [[_ Htg]%Forall_cons Hjn]. eapply addr_step_job; [done..| |by apply Forall_app].
    destruct Hs as [Hs|[_ ->]]; [by eapply send_command_evolves|done].
  - apply Forall_cons in Hjt as [_ Hjn]. by apply addr_with_job.
  - pose proof Hw as [H1 H2 H3 H4 H5]. split; try done.
  - by apply drop_manager_addr.
  - apply Forall_cons in Hjt as [_ Hjn]. by destruct Hw.
  - eapply addr_step_job; [done..| |constructor]. done.
  - eapply addr_with_task; [done..|]. done.
  - by destruct Hw.
Qed.

Lemma reachable_addr c sh w : rtc world_step (new_world c sh) w → addr_inv w.
Proof.
  intros Hrun. assert (addr_inv (new_world c sh)) as H0.
  { split; simpl; [done| |done|done|done]. intros r Hr. by apply not_elem_of_nil in Hr. }
  induction Hrun as [|w1 w2 w3 Hs _ IH]; [done|]. apply IH. by eapply world_step_addr.
Qed.
End address.

(** ** Broadcasts *)

Section broadcast.
Context {crypto : CryptoLib} {order : HashOrder} {flags : BuildFlags}.

(** A channel that takes a command at once. *)
Definition open_with_room (t : PeerTask) : Prop := closed t = false ∧ zlen (t_commands t) < COMMAND_QUEUE.
(** The entries a broadcast is meant for. *)
Definition receives (origin : SocketAddr) (m : PeerManager) (id : nat) : Prop :=
  ∃ b e, peers m !! b = Some e ∧ b ≠ origin ∧ e_state e = LReady ∧ e_task e = id.

Lemma elem_of_relay_targets a m id : id ∈ relay_targets (Some a) m ↔ receives a m id.
Proof.
  unfold relay_targets, receives. rewrite list_elem_of_fmap. split.
  - intros ((b&e)&->&[[Hb Hs] Hin]%list_elem_of_filter). apply elem_of_hm_iter in Hin.
    exists b, e. split_and!; [done|congruence|done|done].
  - intros (b&e&Hin&Hb&Hs&<-). exists (b, e). split; [done|]. apply list_elem_of_filter.
    split; [split; [congruence|done]|]. by apply elem_of_hm_iter.
Qed.

Lemma relay_targets_NoDup w a : addr_inv w → NoDup (relay_targets (Some a) (w_manager w)).
Proof.
  intros Hw. unfold relay_targets. apply NoDup_fmap_2_strong.
  - intros [b1 e1] [b2 e2] [_ H1]%list_elem_of_filter [_ H2]%list_elem_of_filter Heq.
    apply elem_of_hm_iter in H1, H2.
    destruct (ai_entries w Hw _ _ H1) as [(t1&Ht1&Ha1) _].
    destruct (ai_entries w Hw _ _ H2) as [(t2&Ht2&Ha2) _]. simpl in Heq. congruence.
  - apply NoDup_filter. eapply (NoDup_fmap_1 fst), hm_iter_NoDup.
Qed.

(** *** Every run of a broadcast *)

(** Nobody is sent a command, except perhaps one task: queues of commands only get shorter. *)
Definition no_commands (except : option nat) (w w' : World) : Prop :=
  ∀ id t t', Some id ≠ except → w_tasks w !! id = Some t → w_tasks w' !! id = Some t' →
    t_commands t' `suffix_of` t_commands t.
(** The commands that tasks are sent in the steps from one state to another. *)
Inductive delivered (w : World) : list (nat * PeerCommand) → World → Prop :=
| delivered_none : delivered w [] w
| delivered_quiet sent w1 w2 :
    delivered w sent w1 → world_step w1 w2 → no_commands None w1 w2 → delivered w sent w2
| delivered_one sent w1 w2 id t c :
    delivered w sent w1 → world_step w1 w2 → no_commands (Some id) w1 w2 →
    w_tasks w1 !! id = Some t →
    w_tasks w2 !! id = Some (set_commands (t_commands t ++ [c]) t) →
    delivered w (sent ++ [(id, c)]) w2.
(** A step of the node while the manager is in the loop of a broadcast. *)
Definition relaying_step (w w' : World) : Prop :=
  world_step w w' ∧ ∃ message targets, job (w_manager w) = Relaying message targets.

(** Sending to the listed tasks, each open and with room. *)
Lemma relay_run message targets w :
  job (w_manager w) = Relaying message targets → NoDup targets →
  Forall (λ id, ∃ t, w_tasks w !! id = Some t ∧ open_with_room t) targets →
  ∃ w', rtc relaying_step w w' ∧ job (w_manager w') = Draining.
Proof.
  revert w. induction targets as [|id targets IH]; intros w Hj Hnd Hopen.
  { eexists. split; [apply rtc_once; split; [by eapply step_relayed|by eauto]|done]. }
  apply NoDup_cons in Hnd as [Hnew Hnd]. apply Forall_cons in Hopen as [(t&Ht&Hc&Hroom) Hopen].
  assert (send_command (Send message) t = Some (Ok (set_commands (t_commands t ++ [Send message]) t))) as Hs.
  { unfold send_command. rewrite Hc. by rewrite (proj2 (Z.ltb_lt _ _) Hroom). }
  destruct (IH (with_manager (set_job (Relaying message targets) (w_manager w))
    (with_task id (set_commands (t_commands t ++ [Send message]) t) w))) as (w'&Hrun&Hj'); [done|done| |].
  { rewrite Forall_forall in Hopen |- *. intros id' Hin. destruct (Hopen id' Hin) as (t0&Ht0&?).
    exists t0. split; [|done]. simpl. rewrite lookup_insert_ne; [done|]. by intros ->. }
  exists w'. split; [|done]. eapply rtc_l; [|done]. split; [by eapply step_relay|by eauto].
Qed.

Lemma peer_step_commands linked queue sh t lb sh' t' :
  peer_step linked queue sh t lb sh' t' → t_commands t' `suffix_of` t_commands t.
Proof.
  assert (∀ t, t_commands (check_established t) = t_commands t) as Hc.
  { intros t0. unfold check_established. destruct (t_stage t0), (t_sending t0); try done. by case_bool_decide. }
  intros [r _ _|_ _|r now sh1 t1 _ _ Hr|[m|] cs _ _ Hcs|_ _ _ _|_ _|m rest _ Hw _|m rest _ Hw
    |m ob _ _|_|e _ _ _|e _ _ _]; try done; try apply suffix_nil.
  - unfold handshake_receive. destruct r as [m|e|]; [|apply suffix_nil..].
    destruct (on_message m _ _) as [[replies|e|] h]; [|apply suffix_nil..]. by rewrite Hc.
  - unfold running_receive in Hr. destruct r as [m|e|]; [|injection Hr as _ <-; apply suffix_nil..].
    destruct (payload m); try (injection Hr as _ <-; apply suffix_nil);
      (destruct (handle_peer_message m now _) as [[[| |]|e|] n]; injection Hr as _ <-;
       [done..|apply suffix_nil|apply suffix_nil]).
  - rewrite Hcs. simpl. by apply suffix_cons_r.
  - rewrite Hcs. simpl. by apply suffix_cons_r.
  - unfold push. rewrite Hw. by rewrite Hc.
  - unfold push. rewrite Hw. apply suffix_nil.
  - by destruct e.
  - destruct e; [apply suffix_nil..|done|apply suffix_nil].
Qed.

Lemma no_commands_same w w' : w_tasks w' = w_tasks w → no_commands None w w'.
Proof. intros Heq id t t' _ H1 H2. rewrite Heq in H2. by simplify_eq. Qed.
Lemma no_commands_task w w' id t' :
  w_tasks w' = <[id := t']> (w_tasks w) →
  (∀ t, w_tasks w !! id = Some t → t_commands t' `suffix_of` t_commands t) → no_commands None w w'.
Proof.
  intros Heq Ht i t1 t2 _ H1 H2. rewrite Heq in H2.
  apply lookup_insert_Some in H2 as [[-> ->]|[_ H2]]; [by apply Ht|by simplify_eq].
Qed.

(** What a step can do while the tasks [targets] are still to be sent a message. *)
Lemma relaying_step_cases w w' message targets :
  job (w_manager w) = Relaying message targets → world_step w w' →
  (no_commands None w w' ∧ w_manager w' = w_manager w) ∨
  (∃ id rest t, targets = id :: rest ∧ no_commands (Some id) w w' ∧ w_tasks w !! id = Some t ∧
     w_tasks w' !! id = Some (set_commands (t_commands t ++ [Send message]) t) ∧
     w_manager w' = set_job (Relaying message rest) (w_manager w)) ∨
  (targets = [] ∧ no_commands None w w' ∧ w_manager w' = set_job Draining (w_manager w)) ∨
  (∃ id rest t, targets = id :: rest ∧ no_commands None w w' ∧ w_tasks w' !! id = Some t ∧
     closed t = true ∧ w_manager w' = set_job (Failed ConnectionClosed) (w_manager w)) ∨
  (no_commands None w w' ∧ job (w_manager w') = Dropped).
Proof.
  intros Hj Hstep. destruct Hstep as [id t lb sh t' Ht Hs|addr cfg ts _ _|r Hr Hroom
    |addr connected cfg ts Hi|Hi|e events Hi He|Hi He|msg id tg t t' Hi Ht Hs|msg id tg t e Hi Ht Hs
    |msg Hi|Hi|id tg jn t t' Hi Ht Hs|id jn t Hi Ht Hs|Hi|Hi|id jn Hi|id jn t Hi Ht|id t Hcan Ht
    |id t m now a n Hcan Ht Hf Hread Hrun]; try (rewrite Hj in Hi; discriminate).
  - left. split; [|done]. eapply (no_commands_task _ _ id); [done|]. intros t0 Ht0.
    rewrite Ht in Ht0. injection Ht0 as <-. by eapply peer_step_commands.
  - left. unfold accept. destruct (_ <=? _); [by split; [apply no_commands_same|]|]. split; [|done].
    eapply no_commands_task; [done|]. intros t0 Ht0%elem_of_dom_2. by destruct (is_fresh (dom (w_tasks w))).
  - left. split; [by apply no_commands_same|done].
  - right; left. rewrite Hj in Hi. injection Hi as <- ->. exists id, tg, t.
    assert (t' = set_commands (t_commands t ++ [Send message]) t) as ->.
    { unfold send_command in Hs. destruct (closed t); [done|]. destruct (_ <? _); [|done]. by injection Hs as <-. }
    split_and!; [done| |done| |done]; [|simpl; by rewrite lookup_insert_eq].
    intros i t1 t2 Hne H1 H2. simpl in H2. rewrite lookup_insert_ne in H2 by congruence. by simplify_eq.
  - do 3 right; left. rewrite Hj in Hi. injection Hi as <- ->. exists id, tg, t.
    unfold send_command in Hs. destruct (closed t) eqn:Hc; [|by destruct (_ <? _)]. injection Hs as <-.
    split_and!; [done|by apply no_commands_same|done..].
  - do 2 right; left. rewrite Hj in Hi. injection Hi as <- ->.
    split_and!; [done|by apply no_commands_same|done].
  - exfalso. rewrite Hj in Hi. destruct Hi as [Hi|[e Hi]]; discriminate.
  - do 4 right. split; [|done]. apply no_commands_same. unfold drop_manager.
    destruct (shutting_down _); [done|]. simpl. generalize (entry_tasks (w_manager w)). intros ids.
    assert (∀ w0, w_tasks (foldl (λ w id, abort_task id w) w0 ids) = w_tasks w0) as Hids; [|apply Hids].
    induction ids as [|id ids IH]; intros w0; [done|]. simpl. by rewrite IH.
  - left. split; [|done]. eapply (no_commands_task _ _ id); [done|]. intros; apply suffix_nil.
  - left. split; [by apply no_commands_same|done].
Qed.

(** Where a broadcast to [targets] is after it has sent [sent]. *)
Definition broadcast_at (message : Message) (targets sent : list nat) (w : World) : Prop :=
  match job (w_manager w) with
  | Relaying message' rest => message' = message ∧ targets = sent ++ rest
  | Draining => targets = sent
  | Failed e => e = ConnectionClosed ∧ ∃ id rest t,
      targets = sent ++ id :: rest ∧ w_tasks w !! id = Some t ∧ closed t = true
  | Dropped => sent `prefix_of` targets
  | _ => False
  end.

Lemma broadcast_record message targets w w' :
  job (w_manager w) = Relaying message targets → rtc relaying_step w w' →
  ∃ sent, delivered w (map (λ id, (id, Send message)) sent) w' ∧ broadcast_at message targets sent w' ∧
    (job (w_manager w') = Dropped ∨ peers (w_manager w') = peers (w_manager w)).
Proof.
  intros Hj Hrun. pattern w'. eapply rtc_ind_r; [| |exact Hrun]; clear w' Hrun; cbv beta.
  2: intros w1 w2 _ [Hstep (m1&tg&Hj1)] (sent&Hd&Hat&Hp).
  { exists []. split; [constructor|]. unfold broadcast_at. rewrite Hj. by split; [|right]. }
  destruct Hp as [Hp|Hp]; [congruence|]. unfold broadcast_at in Hat. rewrite Hj1 in Hat.
  destruct Hat as [-> ->].
  destruct (relaying_step_cases _ _ _ _ Hj1 Hstep)
    as [[Hq Hm]|[(id&rest&t&->&Hq&Ht&Ht'&Hm)|[(->&Hq&Hm)|[(id&rest&t&->&Hq&Ht&Hc&Hm)|[Hq Hm]]]]].
  - exists sent. split; [by eapply delivered_quiet|]. unfold broadcast_at. rewrite Hm, Hj1. by split; [|right].
  - exists (sent ++ [id]). split.
    + rewrite map_app. by eapply delivered_one.
    + unfold broadcast_at. rewrite Hm. simpl. rewrite <- (assoc_L (++)). by split; [|right].
  - exists sent. split; [by eapply delivered_quiet|]. unfold broadcast_at. rewrite Hm. simpl.
    rewrite (right_id_L [] (++)). by split; [|right].
  - exists sent. split; [by eapply delivered_quiet|]. unfold broadcast_at. rewrite Hm. simpl.
    split; [|by right]. split; [done|]. by exists id, rest, t.
  - exists sent. split; [by eapply delivered_quiet|]. unfold broadcast_at. rewrite Hm.
    split; [by eexists|by left].
Qed.
End broadcast.

(** ** Properties *)

Section properties.
Context {crypto : CryptoLib} {order : HashOrder} {flags : BuildFlags}.

(** C25 (bounds): whatever the peers send and however the tasks, the accept loop and the
    manager interleave, every queue of the node stays within its capacity, there are at most
    [max_inbound] connections with an inbound guard (exactly as many as the counter says),
    and the manager has at most [max_outbound] outbound peers, never more than it counts. *)
Theorem node_queues_bounded (gen : Block) (l : MempoolLimits) (c : PeerManagerConfig)
    (sh : Shared) (w : World) :
  limits_ok l → 0 ≤ max_inbound c → 0 ≤ max_outbound c → shared_ok gen l sh →
  rtc world_step (new_world c sh) w →
  zlen (w_events w) ≤ 256 ∧ zlen (w_registrations w) ≤ 32 ∧
  (∀ id t, w_tasks w !! id = Some t → zlen (t_outbox t) ≤ 128 ∧ zlen (t_commands t) ≤ 32) ∧
  w_reserved w = count_if t_guard (w_tasks w) ∧ w_reserved w ≤ max_inbound c ∧
  count_if is_outbound (peers (w_manager w)) ≤ outbound_count (w_manager w) ≤ max_outbound c.
Proof.
  intros Hl Hi Ho Hsh Hrun.
  destruct (reachable_world_inv gen l Hl c Hi Ho sh w Hsh Hrun) as [He Hr Ht [Hin1 Hin2] [_ Hout _] _].
  split_and!; try done; apply Hout.
Qed.

(** C23 (invariant): all peers together cannot break the node.  In every state it reaches,
    with any number of connections sending anything in any order, the chain and the pool
    behind their locks are reachable states of their components, neither lock is poisoned and
    the trackers of every connection are within their bounds, unless [connect_block] has
    panicked, which leaves the chain's lock poisoned for good. *)
Theorem peers_keep_shared_state_good (gen : Block) (l : MempoolLimits) (c : PeerManagerConfig)
    (sh : Shared) (w : World) :
  limits_ok l → 0 ≤ max_inbound c → 0 ≤ max_outbound c → shared_ok gen l sh →
  rtc world_step (new_world c sh) w →
  poisoned (w_shared w).1 = true ∨
  (lock_ok (reachable gen) (w_shared w).1 ∧ lock_ok (pool_reachable l) (w_shared w).2 ∧
   ∀ id t, w_tasks w !! id = Some t →
     tracker_ok (block_requests (t_relay t)) ∧ tracker_ok (tx_requests (t_relay t))).
Proof.
  intros Hl Hi Ho Hsh Hrun. destruct (poisoned (w_shared w).1) eqn:Hp; [by left|right].
  destruct (reachable_world_inv gen l Hl c Hi Ho sh w Hsh Hrun) as [_ _ _ _ _ Hs].
  by destruct (Hs Hp) as [[? ?] ?].
Qed.

(** C27 (functional): a broadcast.  In a reachable state in which the manager takes an
    announcement with blocks or transactions from its queue, the targets are the ready peers
    other than the one it comes from, each once.  In every run from there, as long as the
    broadcast is on, the commands that tasks are sent are the inventory of the announced
    blocks and transactions to the targets, in order and each once, and nothing else.  The
    broadcast ends when all of them have got it; or it fails, because the next target's
    channel is closed (so some targets get nothing: [one_disconnect_stops_node]), or the
    manager is dropped.  It can always go on to its end if every target can take a command.
    The table of peers does not change.  From the address of the sender, and from that of
    every peer marked ready, some connection has completed a handshake (not necessarily the
    one in the table: the address is all that the events name). *)
Theorem broadcast_reaches_ready_peers (c : PeerManagerConfig) (sh : Shared) (w w1 : World)
    (a : SocketAddr) (items : list InventoryVector) (rest : list PeerEvent) :
  rtc world_step (new_world c sh) w →
  job (w_manager w) = Draining → w_events w = PeerAnnounce a items :: rest →
  List.filter relayed_type items ≠ [] →
  w1 = with_manager (handle_event (PeerAnnounce a items) (w_manager w))
    (with_queues rest (w_registrations w) (w_accepted w) w) →
  let message := msg_inv (List.filter relayed_type items) in
  let targets := relay_targets (Some a) (w_manager w) in
  world_step w w1 ∧ NoDup targets ∧
  (∀ id, id ∈ targets ↔ ∃ b e, peers (w_manager w) !! b = Some e ∧ b ≠ a ∧ e_state e = LReady ∧ e_task e = id) ∧
  (∀ w', rtc relaying_step w1 w' →
     ∃ sent, delivered w1 (map (λ id, (id, Send message)) sent) w' ∧
       broadcast_at message targets sent w' ∧
       (job (w_manager w') = Dropped ∨ peers (w_manager w') = peers (w_manager w))) ∧
  ((∀ id, id ∈ targets → ∃ t, w_tasks w !! id = Some t ∧ open_with_room t) →
     ∃ w', rtc relaying_step w1 w' ∧ job (w_manager w') = Draining) ∧
  greeted_at w a ∧
  (∀ b e, peers (w_manager w) !! b = Some e → e_state e = LReady → greeted_at w b).
Proof.
  intros Hrun Hj He Hsent Hw1 message targets. pose proof (reachable_addr c sh w Hrun) as Hw.
  assert (w_manager w1 = set_job (Relaying message targets) (w_manager w)) as Hm.
  { rewrite Hw1. simpl. unfold relay_inventory. by rewrite bool_decide_false. }
  assert (job (w_manager w1) = Relaying message targets) as Hj1 by by rewrite Hm.
  assert (NoDup targets) as Hnd by by apply relay_targets_NoDup.
  split_and!.
  - rewrite Hw1. by apply step_event.
  - done.
  - intros id. apply elem_of_relay_targets.
  - intros w' Hr. destruct (broadcast_record _ _ _ _ Hj1 Hr) as (sent&Hd&Hat&Hp). exists sent.
    rewrite Hm in Hp. by split_and!.
  - intros Hopen. destruct (relay_run message targets w1) as (w'&Hr&Hj'); [done|done| |by exists w'].
    apply Forall_forall. intros id Hin. destruct (Hopen id Hin) as (t&?&?). exists t. by rewrite Hw1.
  - pose proof (ai_events w Hw) as Hev. rewrite He in Hev. by apply Forall_cons in Hev as [? _].
  - intros b e Hb. by apply (ai_entries w Hw _ _ Hb).
Qed.

(** A peer whose task has ended, but whose disconnection is still queued, stops the node: a
    broadcast that comes to it can only fail, or be dropped with its manager; a [poll] that
    fails ends the node's loop. *)
Lemma closed_peer_fails_broadcast (w w' : World) message id targets t :
  job (w_manager w) = Relaying message (id :: targets) → w_tasks w !! id = Some t →
  closed t = true → world_step w w' → w_manager w' ≠ w_manager w →
  job (w_manager w') = Failed ConnectionClosed ∨ w' = drop_manager w.
Proof.
  intros Hj Ht Hc Hstep Hm. destruct Hstep; simpl in *; try congruence; try done.
  - exfalso. apply Hm. unfold accept. by destruct (_ <=? _).
  - unfold send_command in *. rewrite Hj in *. simplify_eq. rewrite Hc in *. done.
  - unfold send_command in *. rewrite Hj in *. simplify_eq. rewrite Hc in *. simplify_eq. by left.
  - destruct H as [H|[e H]]; congruence.
  - by right.
Qed.
End properties.
