(* ===== verification/PeersShutdown.v ===== *)
(** * The end of the peer manager (bitrst-net/src/peers.rs)

    [shutdown] tells every task in the table to stop, and then waits for it or aborts it: when
    it has returned, each of them has ended or is being cancelled, or, if the wait for one of
    them has failed, has at least been told. *)

From stdpp Require Import prelude gmap strings list sorting relations.
From Stdlib Require Import Strings.Byte.
From S2P Require Import Prelude Bytes Crypto U256 Wire Transaction Merkle Block Utxo Script.
From S2P Require Import Sighash Journal Store Chain Mempool Message Handshake Handles Relay.
From S2P Require Import Peer Peers.

Local Open Scope Z_scope.
Local Open Scope list_scope.

Section shutdown.
Context {crypto : CryptoLib} {order : HashOrder} {flags : BuildFlags}.

(** A task that has ended has nothing left to say, and one that has returned from [run_peer]
    has given back its guard. *)
Definition silent (t : PeerTask) : Prop :=
  (t_stage t = Finished → t_sending t = []) ∧ (closed t = true → t_guard t = false).
Definition ended (t : PeerTask) : Prop := t_stage t = Finished ∧ t_sending t = [].
Definition all_silent (w : World) : Prop := map_Forall (λ _ t, silent t) (w_tasks w).
Definition ended_in (w : World) (id : nat) : Prop := ∃ t, w_tasks w !! id = Some t ∧ ended t.

(** What a step that has not ended the task leaves of its guard. *)
Definition open_or_free (t : PeerTask) : Prop := closed t = true → t_guard t = false.
Lemma check_established_guard t : open_or_free t → open_or_free (check_established t).
Proof.
  unfold check_established, open_or_free. destruct (t_stage t) eqn:E, (t_sending t); try done.
  by case_bool_decide.
Qed.
Lemma not_closed_guard t :
  (t_stage t = Handshaking ∨ t_stage t = Running ∨ t_stage t = Closing) → open_or_free t.
Proof. unfold open_or_free, closed. by intros [-> | [-> | ->]]. Qed.

Lemma peer_step_guard linked queue sh t l sh' t' :
  peer_step linked queue sh t l sh' t' → open_or_free t → open_or_free t'.
Proof.
  intros [r Hs Hse|Hs Hse|r now sh1 t1 Hs Hse Hr|[m|] cs Hs Hse Hc|Hs Hse Hc _
    |Hs _|m rest Hse Hw _|m rest Hse Hw|m ob _ _|_|e Hs Hse _|e Hs Hse _] Ht; try done.
  - unfold handshake_receive. destruct r as [m|e|]; [|done..].
    destruct (on_message m _ _) as [[replies|e|] h]; [|done..].
    apply check_established_guard, not_closed_guard. left. simpl. exact Hs.
  - unfold running_receive in Hr. destruct r as [m|e|]; [|by injection Hr as _ <-..].
    destruct (payload m); try (by injection Hr as _ <-);
      (destruct (handle_peer_message m now _) as [[[| |]|e|] n]; injection Hr as _ <-;
       unfold open_or_free, closed; simpl; by rewrite ?Hs).
  - unfold push. rewrite Hw. by apply check_established_guard.
  - unfold push. by rewrite Hw.
  - unfold open_or_free, closed in *. rewrite Hs in Ht. by destruct e.
  - unfold open_or_free, closed in *. rewrite Hs in Ht. by destruct e.
Qed.

Lemma check_established_stage t :
  t_stage t ≠ Finished → t_stage (check_established t) ≠ Finished.
Proof.
  unfold check_established. intros Hs. destruct (t_stage t) eqn:E, (t_sending t); try done;
    try (by rewrite E). by case_bool_decide; [|rewrite E].
Qed.

Lemma handshake_receive_stage r t :
  t_stage t = Handshaking → t_stage (handshake_receive r t) ≠ Finished.
Proof.
  intros Hs. unfold handshake_receive. destruct r as [m|e|]; [|done..].
  destruct (on_message m _ _) as [[replies|e|] h]; [|done..].
  apply check_established_stage. simpl. by rewrite Hs.
Qed.

Lemma running_receive_stage r now sh t sh' t' :
  t_stage t = Running → running_receive r now sh t = (sh', t') → t_stage t' ≠ Finished.
Proof.
  intros Hs Hr. unfold running_receive in Hr. destruct r as [m|e|]; [|by injection Hr as _ <-..].
  destruct (payload m); try (by injection Hr as _ <-);
    (destruct (handle_peer_message m now _) as [[[| |]|e|] n]; injection Hr as _ <-; simpl;
     rewrite ?Hs; done).
Qed.

Lemma peer_step_ended linked queue sh t l sh' t' :
  peer_step linked queue sh t l sh' t' → (t_stage t = Finished → t_sending t = []) →
  (t_stage t' = Finished → t_sending t' = []) ∧ (ended t → ended t').
Proof.
  unfold ended. intros [r Hs Hse|Hs Hse|r now sh1 t1 Hs Hse Hr|[m|] cs Hs Hse Hc|Hs Hse Hc _
    |Hs _|m rest Hse Hw _|m rest Hse Hw|m ob _ _|_|e Hs Hse _|e Hs Hse _] Ht.
  - split; [|intros [? _]; congruence]. intros Hf. by apply handshake_receive_stage in Hf.
  - split; [done|intros [? _]; congruence].
  - split; [|intros [? _]; congruence]. intros Hf. by eapply running_receive_stage in Hf.
  - split; [|intros [? _]; congruence]. intros Hf. simpl in Hf. congruence.
  - split; [done|intros [? _]; congruence].
  - split; [done|intros [? _]; congruence].
  - split; [done|intros [? _]; congruence].
  - split; [|intros [_ ?]; congruence]. unfold push. rewrite Hw. intros Hf.
    refine (False_ind _ (check_established_stage _ _ Hf)). simpl. intros Heq.
    by rewrite (Ht Heq) in Hse.
  - unfold push. rewrite Hw. split; [done|intros [_ ?]; congruence].
  - done.
  - done.
  - split; [|intros [? _]; congruence]. by destruct e.
  - split; [|intros [? _]; congruence]. by destruct e.
Qed.

Lemma peer_step_silent linked queue sh t l sh' t' :
  peer_step linked queue sh t l sh' t' → silent t → silent t' ∧ (ended t → ended t').
Proof.
  intros Hs [H1 H2]. destruct (peer_step_ended _ _ _ _ _ _ _ Hs H1) as [H1' He].
  split; [|done]. split; [done|]. by eapply peer_step_guard.
Qed.

Lemma silent_insert w id t : all_silent w → silent t → all_silent (with_task id t w).
Proof. intros Hw Ht. by apply map_Forall_insert_2. Qed.
Lemma ended_insert w id t id' :
  ended_in w id' → (∀ t0, w_tasks w !! id = Some t0 → ended t0 → ended t) →
  ended_in (with_task id t w) id'.
Proof.
  intros (t0&Ht0&He) Ht. destruct (decide (id' = id)) as [->|Hne].
  - exists t. simpl. rewrite lookup_insert_eq. split; [done|by eapply Ht].
  - exists t0. simpl. by rewrite lookup_insert_ne.
Qed.

(** A task that is to stop: it has ended, it is finishing, or the command is in its queue. *)
Definition told (t : PeerTask) : Prop :=
  closed t = true ∨ t_stage t = Closing ∨ Shutdown ∈ t_commands t.
Definition told_in (w : World) (id : nat) : Prop := ∃ t, w_tasks w !! id = Some t ∧ told t.

Lemma check_established_told t : told t → told (check_established t).
Proof.
  intros Ht. unfold check_established.
  destruct (t_stage t) eqn:E; try exact Ht. destruct (t_sending t); [|exact Ht].
  case_bool_decide; [|exact Ht]. destruct Ht as [H'|[H'|H']].
  - unfold closed in H'. by rewrite E in H'.
  - congruence.
  - by right; right.
Qed.

(** A message or an error leaves an open task open and its commands alone, or closes it. *)
Lemma peer_step_told linked queue sh t l sh' t' :
  peer_step linked queue sh t l sh' t' → told t → told t'.
Proof.
  unfold told, closed.
  intros [r Hs Hse|Hs Hse|r now sh1 t1 Hs Hse Hr|[m|] cs Hs Hse Hc|Hs Hse Hc _
    |Hs _|m rest Hse Hw _|m rest Hse Hw|m ob _ _|_|e Hs Hse _|e Hs Hse _] Ht; auto; try (by left).
  - unfold handshake_receive. rewrite Hs in Ht. destruct Ht as [?|[?|Ht]]; [done|done|].
    destruct r as [m|e|]; [|by left..].
    destruct (on_message m _ _) as [[replies|e|] h]; [|by left..].
    apply check_established_told. right; right. exact Ht.
  - unfold running_receive in Hr. destruct r as [m|e|]; [|injection Hr as _ <-; by left..].
    rewrite Hs in Ht. destruct Ht as [?|[?|Ht]]; [done|done|].
    destruct (payload m); try (injection Hr as _ <-; by left);
      (destruct (handle_peer_message m now _) as [[[| |]|e|] n]; injection Hr as _ <-; simpl;
       by auto).
  - rewrite Hs, Hc in Ht. destruct Ht as [?|[?|[?|?]%elem_of_cons]]; [done..|]. right; right. done.
  - unfold push. rewrite Hw. by apply check_established_told.
  - unfold push. rewrite Hw. by left.
  - rewrite Hs in Ht. destruct e; simpl in *; auto; naive_solver.
  - rewrite Hs in Ht. destruct e; by left.
Qed.

Lemma told_insert w id t id' :
  told_in w id' → (∀ t0, w_tasks w !! id = Some t0 → told t0 → told t) →
  told_in (with_task id t w) id'.
Proof.
  intros (t0&Ht0&He) Ht. destruct (decide (id' = id)) as [->|Hne].
  - exists t. simpl. rewrite lookup_insert_eq. split; [done|by eapply Ht].
  - exists t0. simpl. by rewrite lookup_insert_ne.
Qed.
Lemma shutdown_send_told t t' :
  send_command Shutdown t = Some (Ok t') ∨ (∃ e, send_command Shutdown t = Some (Err e)) ∧ t' = t →
  told t'.
Proof.
  unfold send_command, told. destruct (closed t) eqn:Hc.
  - intros [H|[_ ->]]; [done|by left].
  - destruct (_ <? _); [|by intros [H|[[e H] _]]]. intros [[= <-]|[[e H] _]]; [|done].
    right; right. simpl. set_solver.
Qed.

Lemma spawn_silent addr dir cfg h ts g chain : silent (spawn_peer addr dir cfg h ts g chain).
Proof. unfold spawn_peer. by destruct (handle_event_cursor chain). Qed.

Lemma accept_silent addr cfg ts w : all_silent w → all_silent (accept addr cfg ts w).
Proof.
  intros Hw. unfold accept. destruct (_ <=? _); [done|]. apply silent_insert; [exact Hw|apply spawn_silent].
Qed.
Lemma accept_ended addr cfg ts w id : ended_in w id → ended_in (accept addr cfg ts w) id.
Proof.
  intros Hw. unfold accept. destruct (_ <=? _); [done|]. apply ended_insert; [exact Hw|].
  intros t0 Ht0. pose proof (is_fresh (dom (w_tasks w))) as Hf. apply not_elem_of_dom in Hf.
  simpl in Ht0. congruence.
Qed.

Lemma abort_task_silent w id : all_silent w → all_silent (abort_task id w).
Proof. done. Qed.
Lemma abort_tasks_silent ids w : all_silent w → all_silent (foldl (λ w id, abort_task id w) w ids).
Proof. revert w. induction ids as [|id ids IH]; intros w Hw; [done|]. by apply IH, abort_task_silent. Qed.

Lemma process_registrations_fold (P : World → Prop) w :
  (∀ w r, P w → P (process_registration r w)) →
  P (with_queues (w_events w) [] (w_accepted w) w) → P (process_registrations w).
Proof.
  intros Hstep. unfold process_registrations.
  generalize (with_queues (w_events w) [] (w_accepted w) w). generalize (w_registrations w).
  intros rs. induction rs as [|r rs IH]; intros w0 H0; [done|]. by apply IH, Hstep.
Qed.
Lemma process_registrations_tasks w : w_tasks (process_registrations w) = w_tasks w.
Proof.
  apply (process_registrations_fold (λ w', w_tasks w' = w_tasks w)); [|done].
  intros w' r Hw'. unfold process_registration. destruct (_ && _); [|done]. by destruct (_ <? _).
Qed.
Lemma process_registrations_cancelled w : w_cancelled w ⊆ w_cancelled (process_registrations w).
Proof.
  apply (process_registrations_fold (λ w', w_cancelled w ⊆ w_cancelled w')); [|done].
  intros w' r Hw'. unfold process_registration. destruct (_ && _); [|done].
  destruct (_ <? _); unfold abort_task; cbn; set_solver.
Qed.
Lemma abort_tasks_spec ids w :
  let w' := foldl (λ w id, abort_task id w) w ids in
  w_tasks w' = w_tasks w ∧ w_cancelled w' = list_to_set ids ∪ w_cancelled w.
Proof.
  revert w. induction ids as [|id ids IH]; intros w; cbn; [by rewrite (left_id_L ∅ (∪))|].
  destruct (IH (abort_task id w)) as [-> ->]. split; [done|]. unfold abort_task. cbn. set_solver.
Qed.
Lemma drop_manager_tasks w : w_tasks (drop_manager w) = w_tasks w.
Proof. unfold drop_manager. destruct (shutting_down _); [done|]. cbn. apply abort_tasks_spec. Qed.
Lemma drop_manager_cancelled w : w_cancelled w ⊆ w_cancelled (drop_manager w).
Proof.
  unfold drop_manager. destruct (shutting_down _); [done|]. cbn.
  rewrite (proj2 (abort_tasks_spec _ w)). set_solver.
Qed.

Lemma process_registrations_silent w : all_silent w → all_silent (process_registrations w).
Proof. unfold all_silent. by rewrite process_registrations_tasks. Qed.

Lemma send_command_silent c t t' :
  send_command c t = Some (Ok t') → (silent t → silent t') ∧ (ended t → ended t').
Proof. unfold send_command. destruct (closed t); [done|]. destruct (_ <? _); [|done]. by intros [= <-]. Qed.

Lemma shutdown_send_silent t t' :
  send_command Shutdown t = Some (Ok t') ∨ (∃ e, send_command Shutdown t = Some (Err e)) ∧ t' = t →
  (silent t → silent t') ∧ (ended t → ended t').
Proof. intros [H|[_ ->]]; [by eapply send_command_silent|done]. Qed.

Lemma world_step_silent w w' : world_step w w' → all_silent w → all_silent w'.
Proof.
  intros Hstep Hw. destruct Hstep as [id t lb sh t' Ht Hs|addr cfg ts _ _|r Hr Hroom
    |addr connected cfg ts Hj|Hj|e events Hj He|Hj He|msg id tg t t' Hj Ht Hs|msg id tg t e Hj Ht Hs
    |msg Hj|Hj|id tg jn t t' Hj Ht Hs|id jn t Hj Ht Hs|Hj|Hj|id jn Hj|id jn t Hj Ht|id t Hc Ht
    |id t m now a n Hc Ht Hf Hread Hrun]; try exact Hw.
  - apply (silent_insert _ id); [exact Hw|]. eapply peer_step_silent; [exact Hs|]. exact (Hw _ _ Ht).
  - by apply accept_silent.
  - unfold connect_seed. destruct (_ <=? _); [done|]. case_bool_decide; [done|].
    destruct connected; [|done]. apply (silent_insert w); [done|apply spawn_silent].
  - by apply process_registrations_silent.
  - apply (silent_insert w id); [exact Hw|]. eapply send_command_silent; [exact Hs|]. exact (Hw _ _ Ht).
  - unfold begin_shutdown. by destruct (shutting_down _).
  - apply (silent_insert w id); [exact Hw|]. eapply shutdown_send_silent; [exact Hs|]. exact (Hw _ _ Ht).
  - unfold drop_manager. destruct (shutting_down _); [done|by apply abort_tasks_silent].
  - by apply (silent_insert w id).
  - by apply (silent_insert w id).
Qed.

(** Tasks that have ended stay so, and what a task was told it stays told. *)
Lemma world_step_keeps w w' id :
  world_step w w' → all_silent w →
  (ended_in w id → ended_in w' id) ∧ (told_in w id → told_in w' id).
Proof.
  intros Hstep Hsil. assert (∀ id' t', (∀ t, w_tasks w !! id' = Some t → (ended t → ended t') ∧ (told t → told t')) →
    (ended_in w id → ended_in (with_task id' t' w) id) ∧ (told_in w id → told_in (with_task id' t' w) id)) as Htask.
  { intros id' t' Ht'. split; intros H; [apply ended_insert|apply told_insert]; try done;
      intros t0 Ht0; by destruct (Ht' t0 Ht0). }
  assert (∀ t', (ended_in w id → ended_in (with_task (fresh (dom (w_tasks w))) t' w) id) ∧
    (told_in w id → told_in (with_task (fresh (dom (w_tasks w))) t' w) id)) as Hnew.
  { intros t'. apply Htask. intros t Ht%elem_of_dom_2. by destruct (is_fresh (dom (w_tasks w))). }
  destruct Hstep as [id' t lb sh t' Ht Hs|addr cfg ts _ _|r Hr Hroom
    |addr connected cfg ts Hj|Hj|e events Hj He|Hj He|msg id' tg t t' Hj Ht Hs|msg id' tg t e Hj Ht Hs
    |msg Hj|Hj|id' tg jn t t' Hj Ht Hs|id' jn t Hj Ht Hs|Hj|Hj|id' jn Hj|id' jn t Hj Ht|id' t Hc Ht
    |id' t m now a n Hc Ht Hf Hread Hrun]; try done.
  - apply (Htask id' t'). intros t0 Ht0. rewrite Ht in Ht0. injection Ht0 as <-.
    split; [|by eapply peer_step_told]. eapply peer_step_silent; [exact Hs|exact (Hsil _ _ Ht)].
  - unfold accept. destruct (_ <=? _); [done|]. apply Hnew.
  - unfold connect_seed. destruct (_ <=? _); [done|]. case_bool_decide; [done|].
    destruct connected; [|done]. apply Hnew.
  - unfold begin_poll, ended_in, told_in. cbn [w_tasks with_manager].
    by rewrite process_registrations_tasks.
  - apply (Htask id' t'). intros t0 Ht0. rewrite Ht in Ht0. injection Ht0 as <-.
    unfold send_command in Hs. destruct (closed t); [done|]. destruct (_ <? _); [|done].
    injection Hs as <-. split; [done|]. unfold told. simpl. set_solver.
  - unfold begin_shutdown. by destruct (shutting_down _).
  - apply (Htask id' t'). intros t0 Ht0. rewrite Ht in Ht0. injection Ht0 as <-.
    split; [by eapply shutdown_send_silent|]. intros _. by eapply shutdown_send_told.
  - unfold ended_in, told_in. by rewrite drop_manager_tasks.
  - apply (Htask id' (finish_task t)). intros t0 Ht0. split; [done|]. intros _. by left.
  - apply (Htask id' (finish_task t)). intros t0 Ht0. split; [done|]. intros _. by left.
Qed.

(** A cancellation, once requested, stays requested. *)
Lemma world_step_cancelled w w' : world_step w w' → w_cancelled w ⊆ w_cancelled w'.
Proof.
  intros Hstep. destruct Hstep; try done.
  - unfold accept. by destruct (_ <=? _).
  - unfold connect_seed. destruct (_ <=? _); [done|]. case_bool_decide; [done|]. by destruct connected.
  - apply process_registrations_cancelled.
  - unfold begin_shutdown. by destruct (shutting_down _).
  - apply drop_manager_cancelled.
  - unfold abort_task. cbn. set_solver.
Qed.

(** What [shutdown] has still to do for the tasks [ids]. *)
Definition stopped_in (w : World) (id : nat) : Prop := ended_in w id ∨ id ∈ w_cancelled w.
Definition stopping (ids : list nat) (w : World) : Prop :=
  all_silent w ∧ shutting_down (w_manager w) = true ∧ peers (w_manager w) = ∅ ∧
  match job (w_manager w) with
  | ShuttingDown targets joining =>
      ∀ id, id ∈ ids → (id ∈ targets ∨ told_in w id) ∧ (id ∈ joining ∨ stopped_in w id)
  | Failed e => e = TaskJoinFailed ∧ ∀ id, id ∈ ids → told_in w id
  | Down => outbound_count (w_manager w) = 0 ∧ ∀ id, id ∈ ids → told_in w id ∧ stopped_in w id
  | Dropped => True
  | _ => False
  end.

Lemma world_step_stopped w w' id :
  world_step w w' → all_silent w → stopped_in w id → stopped_in w' id.
Proof.
  intros Hstep Hsil [H|H]; [left; by eapply world_step_keeps|right; by eapply world_step_cancelled].
Qed.

Lemma stopping_step ids w w' : world_step w w' → stopping ids w → stopping ids w'.
Proof.
  intros Hstep (Hsil&Hsd&Hp&Hjob). pose proof (world_step_silent _ _ Hstep Hsil) as Hsil'.
  pose proof (λ id, proj2 (world_step_keeps _ _ id Hstep Hsil)) as Htold.
  pose proof (λ id, world_step_stopped _ _ id Hstep Hsil) as Hstop.
  assert (w_manager w' = w_manager w → stopping ids w') as Hsame.
  { intros Hm. split; [exact Hsil'|]. rewrite Hm. split; [done|]. split; [done|].
    destruct (job (w_manager w)); try done; naive_solver. }
  destruct Hstep as [id t lb sh t' Ht Hs|addr cfg ts Hsd' _|r Hr Hroom
    |addr connected cfg ts Hj|Hj|e events Hj He|Hj He|msg id tg t t' Hj Ht Hs|msg id tg t e Hj Ht Hs
    |msg Hj|Hj|id tg jn t t' Hj Ht Hs|id jn t Hj Ht Hs|Hj|Hj|id jn Hj|id jn t Hj Ht|id t Hc Ht
    |id t m now a n Hc Ht Hf Hread Hrun]; try (by rewrite Hj in Hjob); try (by apply Hsame);
    try (rewrite Hj in Hjob).
  - congruence.
  - apply Hsame. unfold begin_shutdown. by rewrite Hsd.
  - split; [exact Hsil'|]. split_and!; [done|done|]. intros i Hi. destruct (Hjob i Hi) as [Ht1 Hj1].
    split; [|naive_solver]. destruct Ht1 as [[->|?]%elem_of_cons|?]; [right|by left|by right; apply Htold].
    exists t'. simpl. rewrite lookup_insert_eq. split; [done|]. by eapply shutdown_send_told.
  - split; [exact Hsil'|]. split_and!; [done|done|]. intros i Hi. destruct (Hjob i Hi) as [Ht1 Hj1].
    split; [naive_solver|]. destruct Hj1 as [[->|?]%elem_of_cons|?]; [right|by left|right; by apply Hstop].
    left. exists t. split; [done|]. split; [done|]. by apply (proj1 (Hsil _ _ Ht)).
  - split; [exact Hsil'|]. split_and!; [done|done|]. split; [done|]. intros i Hi.
    destruct (Hjob i Hi) as [[?%not_elem_of_nil|?] [?%not_elem_of_nil|?]]; by auto.
  - split; [exact Hsil'|]. split_and!; [done|done|]. naive_solver.
  - split; [exact Hsil'|]. split_and!; [done|done|]. intros i Hi. destruct (Hjob i Hi) as [Ht1 Hj1].
    split; [naive_solver|]. destruct Hj1 as [[->|?]%elem_of_cons|?]; [right|by left|right; by apply Hstop].
    right. unfold abort_task. cbn. set_solver.
  - split; [exact Hsil'|]. split_and!; [done|done|]. split; [done|]. intros i Hi.
    destruct (Hjob i Hi) as [[?%not_elem_of_nil|?] _]; [done|by apply Htold].
Qed.

Lemma stopping_run ids w w' : rtc world_step w w' → stopping ids w → stopping ids w'.
Proof. induction 1 as [|w1 w2 w3 Hs _ IH]; [done|]. intros H. apply IH. by eapply stopping_step. Qed.

Lemma begin_shutdown_stopping w :
  all_silent w → shutting_down (w_manager w) = false →
  stopping (entry_tasks (w_manager w)) (begin_shutdown w).
Proof.
  intros Hw Hsd. unfold begin_shutdown. rewrite Hsd. split; [exact Hw|]. split; [done|].
  split; [done|]. simpl. intros id Hid. by split; left.
Qed.

Lemma reachable_silent c sh w : rtc world_step (new_world c sh) w → all_silent w.
Proof.
  intros Hrun. assert (all_silent (new_world c sh)) as H0 by apply map_Forall_empty.
  induction Hrun as [|w1 w2 w3 Hs _ IH]; [done|]. apply IH. by eapply world_step_silent.
Qed.

(** A call of [shutdown], with the rest of the node running while it waits. *)
Definition shutdown_returns (w : World) (r : Result NetError unit) (w' : World) : Prop :=
  rtc world_step (begin_shutdown w) w' ∧
  match r with
  | Ok _ => job (w_manager w') = Down
  | Err e => job (w_manager w') = Failed e
  | Panic => False
  end.

Lemma shutdown_stops w r w' :
  all_silent w → shutting_down (w_manager w) = false → shutdown_returns w r w' →
  peers (w_manager w') = ∅ ∧ (∀ id, id ∈ entry_tasks (w_manager w) → told_in w' id) ∧
  match r with
  | Err e => e = TaskJoinFailed
  | Panic => False
  | Ok _ => outbound_count (w_manager w') = 0 ∧
      ∀ id, id ∈ entry_tasks (w_manager w) → stopped_in w' id
  end.
Proof.
  intros Hw Hsd [Hrun Hr].
  destruct (stopping_run _ _ _ Hrun (begin_shutdown_stopping w Hw Hsd)) as (_&_&Hp&Hj).
  destruct r as [u|e|]; [|rewrite Hr in Hj; naive_solver|done].
  rewrite Hr in Hj. split; [done|]. split; [|split; [apply Hj|]]; intros id Hid; by apply Hj.
Qed.

Lemma entry_task addr e m : peers m !! addr = Some e → e_task e ∈ entry_tasks m.
Proof.
  intros He. apply list_elem_of_fmap. exists (addr, e). split; [done|]. by apply elem_of_hm_iter.
Qed.

(** C28 (safety): what [shutdown] has done when it returns.  Every peer that was in the table
    when it was called has been told to stop (its [Shutdown] is queued or being carried out,
    or it has ended by itself), and the table is empty.  If it returns [Ok], each of them has
    ended, or did not end in time and its cancellation has been requested, which is not
    awaited (although its documentation promises [TaskJoinFailed] in that case), and no
    outbound connection is counted.  The only error it returns is [TaskJoinFailed], when a
    task has panicked: the tasks after that one are then neither awaited nor aborted. *)
Theorem shutdown_ends_every_peer (c : PeerManagerConfig) (sh : Shared) (w w' : World)
    (r : Result NetError unit) :
  rtc world_step (new_world c sh) w → shutting_down (w_manager w) = false →
  shutdown_returns w r w' →
  peers (w_manager w') = ∅ ∧
  (∀ addr e, peers (w_manager w) !! addr = Some e →
     ∃ t, w_tasks w' !! e_task e = Some t ∧
       (closed t = true ∨ t_stage t = Closing ∨ Shutdown ∈ t_commands t)) ∧
  match r with
  | Err e => e = TaskJoinFailed
  | Panic => False
  | Ok _ =>
      outbound_count (w_manager w') = 0 ∧
      ∀ addr e, peers (w_manager w) !! addr = Some e →
        (∃ t, w_tasks w' !! e_task e = Some t ∧ t_stage t = Finished) ∨ e_task e ∈ w_cancelled w'
  end.
Proof.
  intros Hrun Hsd Hret. pose proof (reachable_silent _ _ _ Hrun) as Hw.
  destruct (shutdown_stops _ _ _ Hw Hsd Hret) as (Hp&Htold&Hr). split; [done|].
  split; [intros addr e He; by apply Htold, (entry_task addr)|].
  destruct r as [u|e|]; [|done..]. destruct Hr as [Ho Hr]. split; [done|]. intros addr e He.
  destruct (Hr (e_task e) (entry_task addr e _ He)) as [(t&Ht&[Hf _])|?]; [left; by exists t|by right].
Qed.
End shutdown.
