(* ===== verification/PeersDrive.v ===== *)
(** * Driving and dropping the peer manager (bitrst-net/src/peers.rs)

    The calls that wait while the rest of the node runs: a [poll] from its start to its
    return, [drive_until] around it, the seed connections one after the other.  And what
    happens to the peers of a manager that is dropped: every one of them can end by itself,
    without anything more from the peer at the other end, nor an error of the connection. *)

From stdpp Require Import prelude gmap strings list sorting relations.
From Stdlib Require Import Strings.Byte.
From S2P Require Import Prelude Bytes Crypto U256 Wire Transaction Merkle Block Utxo Script.
From S2P Require Import Sighash Journal Store Chain Mempool MempoolInv MempoolEvict Message Handshake Handles.
From S2P Require Import Relay Peer Peers PeersInv PeersTheorems PeersShutdown.

Local Open Scope Z_scope.
Local Open Scope list_scope.

(** ** Calls of the manager's owner *)

Section drive.
Context {crypto : CryptoLib} {order : HashOrder} {flags : BuildFlags}.

(** The rest of the node runs while the owner of an idle manager waits. *)
Definition idle_step (w w' : World) : Prop :=
  world_step w w' ∧ job (w_manager w) = Idle ∧ w_manager w' = w_manager w.
(** A step while [poll] runs: of the rest of the node, or of [poll] itself. *)
Definition polling (j : Job) : Prop :=
  match j with Draining | Relaying _ _ => True | _ => False end.
Definition poll_step (w w' : World) : Prop := world_step w w' ∧ polling (job (w_manager w)).

(** [poll], and [process_events], which is the same. *)
Definition poll_returns (w : World) (r : Result NetError unit) (w' : World) : Prop :=
  job (w_manager w) = Idle ∧ rtc poll_step (begin_poll w) w' ∧
  match r with
  | Ok _ => job (w_manager w') = Idle
  | Err e => job (w_manager w') = Failed e
  | Panic => False
  end.

(** [drive_until]: it ends when the condition holds, at its deadline, or with the error of a
    [poll]; between two polls it sleeps. *)
Inductive drive_until (condition : PeerManager → bool) :
    World → Result NetError unit → World → Prop :=
| drive_met w : condition (w_manager w) = true → drive_until condition w (Ok ()) w
| drive_deadline w : condition (w_manager w) = false → drive_until condition w (Ok ()) w
| drive_error w e w' :
    condition (w_manager w) = false → poll_returns w (Err e) w' →
    drive_until condition w (Err e) w'
| drive_again w w1 w2 r w' :
    condition (w_manager w) = false → poll_returns w (Ok ()) w1 → rtc idle_step w1 w2 →
    drive_until condition w2 r w' → drive_until condition w r w'.

(** The loop of [connect_seeds_report], with the rest of the node running before each
    attempt. *)
Inductive seeds_tried : list SocketAddr → World →
    option SocketAddr * list (SocketAddr * NetError) → World → Prop :=
| tried_all w : seeds_tried [] w (None, []) w
| tried_connected addr addrs connected cfg ts w w1 w2 :
    rtc idle_step w w1 → machine_inputs cfg ts →
    connect_seed addr connected cfg ts w1 = (Ok (), w2) →
    seeds_tried (addr :: addrs) w (Some addr, []) w2
| tried_next addr addrs connected cfg ts e found failures w w1 w2 w3 :
    rtc idle_step w w1 → machine_inputs cfg ts →
    connect_seed addr connected cfg ts w1 = (Err e, w2) →
    seeds_tried addrs w2 (found, failures) w3 →
    seeds_tried (addr :: addrs) w (found, (addr, e) :: failures) w3.

Lemma idle_steps w w' : rtc idle_step w w' → rtc world_step w w'.
Proof. apply rtc_subrel. by intros ?? [? _]. Qed.
Lemma idle_steps_manager w w' : rtc idle_step w w' → w_manager w' = w_manager w.
Proof. induction 1 as [|w1 w2 w3 (_&_&<-) _ IH]; [done|exact IH]. Qed.

Lemma poll_returns_steps w r w' : poll_returns w r w' → rtc world_step w w'.
Proof.
  intros (Hj&Hrun&_). eapply rtc_l; [by apply step_poll|].
  revert Hrun. apply rtc_subrel. by intros ?? [? _].
Qed.

(** What [drive_until] has done is steps of the node, and how it has ended shows. *)
Lemma drive_until_steps condition w r w' :
  job (w_manager w) = Idle → drive_until condition w r w' →
  rtc world_step w w' ∧
  match r with
  | Ok _ => job (w_manager w') = Idle
  | Err e => job (w_manager w') = Failed e
  | Panic => False
  end.
Proof.
  intros Hj. induction 1 as [w Hc|w Hc|w e w' Hc Hp|w w1 w2 r w' Hc Hp Hi Hd IH].
  - done.
  - done.
  - split; [by eapply poll_returns_steps|]. by destruct Hp as (_&_&?).
  - destruct IH as [Hrun Hr].
    { rewrite (idle_steps_manager _ _ Hi). by destruct Hp as (_&_&?). }
    split; [|done]. trans w1; [by eapply poll_returns_steps|]. trans w2; [by apply idle_steps|done].
Qed.

Lemma connect_seed_job addr connected cfg ts w :
  job (w_manager (connect_seed addr connected cfg ts w).2) = job (w_manager w).
Proof.
  unfold connect_seed. destruct (_ <=? _); [done|]. case_bool_decide; [done|]. by destruct connected.
Qed.
Lemma connect_seed_step addr connected cfg ts w r w' :
  job (w_manager w) = Idle → machine_inputs cfg ts →
  connect_seed addr connected cfg ts w = (r, w') →
  world_step w w' ∧ job (w_manager w') = Idle.
Proof.
  intros Hj Hm Hc. pose proof (step_connect w addr connected cfg ts Hj Hm) as Hs.
  pose proof (connect_seed_job addr connected cfg ts w) as Hk. rewrite Hc in Hs, Hk.
  split; [exact Hs|]. by rewrite <- Hj.
Qed.
Lemma seeds_tried_steps addrs w report w' :
  job (w_manager w) = Idle → seeds_tried addrs w report w' →
  rtc world_step w w' ∧ job (w_manager w') = Idle.
Proof.
  intros Hj. induction 1 as [w|addr addrs cn cfg ts w w1 w2 Hi Hm Hc|addr addrs cn cfg ts e f fs w w1 w2 w3 Hi Hm Hc _ IH];
    [done|..]; (destruct (connect_seed_step _ _ _ _ _ _ _ (eq_trans (f_equal job (idle_steps_manager _ _ Hi)) Hj) Hm Hc)
      as [Hs Hj2]).
  - split; [|done]. eapply rtc_r; [by apply idle_steps|done].
  - destruct (IH Hj2) as [Hr ?]. split; [|done]. trans w1; [by apply idle_steps|]. by eapply rtc_l.
Qed.

(** None of these calls shuts the manager down. *)
Lemma idle_steps_down w w' : rtc idle_step w w' → shutting_down (w_manager w') = shutting_down (w_manager w).
Proof. intros H. by rewrite (idle_steps_manager _ _ H). Qed.
Lemma begin_poll_down w : shutting_down (w_manager (begin_poll w)) = shutting_down (w_manager w).
Proof.
  unfold begin_poll. cbn.
  apply (process_registrations_fold (λ w', shutting_down (w_manager w') = shutting_down (w_manager w))); [|done].
  intros w' r Hw'. unfold process_registration. destruct (_ && _); [|exact Hw']. by destruct (_ <? _).
Qed.
Lemma poll_step_down w w' :
  poll_step w w' → shutting_down (w_manager w) = false →
  shutting_down (w_manager w') = false ∨ job (w_manager w') = Dropped.
Proof.
  intros [Hstep Hp] Hd. destruct Hstep as [id t lb sh t' Ht Hs|addr cfg ts _ _|r Hr Hroom
    |addr connected cfg ts Hj|Hj|e events Hj He|Hj He|msg id tg t t' Hj Ht Hs|msg id tg t e Hj Ht Hs
    |msg Hj|Hj|id tg jn t t' Hj Ht Hs|id jn t Hj Ht Hs|Hj|Hj|id jn Hj|id jn t Hj Ht|id t Hc Ht
    |id t m now a n Hc Ht Hf Hread Hrun]; try (by rewrite Hj in Hp); try (by left); try (by right).
  - left. unfold accept. by destruct (_ <=? _).
  - left. cbn. destruct e as [a|a items|a e|a e]; cbn; [by case_match| |by case_match|done].
    unfold relay_inventory. by case_bool_decide.
  - exfalso. destruct Hj as [Hj|[e Hj]]; by rewrite Hj in Hp.
Qed.
Lemma poll_returns_down w r w' :
  poll_returns w r w' → shutting_down (w_manager w) = false → shutting_down (w_manager w') = false.
Proof.
  intros (_&Hrun&Hr) Hd. rewrite <- begin_poll_down in Hd.
  assert (job (w_manager w') ≠ Dropped) as Hj by (destruct r; [by rewrite Hr..|done]).
  clear Hr. induction Hrun as [|w1 w2 w3 Hs Hrun IH]; [done|].
  destruct (poll_step_down _ _ Hs Hd) as [?|Hdr]; [by apply IH|]. exfalso.
  destruct Hrun as [|w2 w4 w3 [_ Hp] _]; [done|]. by rewrite Hdr in Hp.
Qed.
Lemma connect_seed_down addr connected cfg ts w r w' :
  connect_seed addr connected cfg ts w = (r, w') →
  shutting_down (w_manager w') = shutting_down (w_manager w).
Proof.
  unfold connect_seed. destruct (_ <=? _); [by intros [= _ <-]|].
  case_bool_decide; [by intros [= _ <-]|]. by destruct connected; intros [= _ <-].
Qed.
Lemma seeds_tried_down addrs w report w' :
  seeds_tried addrs w report w' → shutting_down (w_manager w') = shutting_down (w_manager w).
Proof.
  induction 1 as [w|addr addrs cn cfg ts w w1 w2 Hi _ Hc|addr addrs cn cfg ts e f fs w w1 w2 w3 Hi _ Hc _ IH];
    [done|..]; apply connect_seed_down in Hc; rewrite (idle_steps_down _ _ Hi) in Hc; congruence.
Qed.

(** The function of Peers is the run in which nothing else happens. *)
Lemma connect_all_tried addrs connected cfg ts w report w' :
  machine_inputs cfg ts → connect_all addrs connected cfg ts w = (report, w') →
  seeds_tried addrs w report w'.
Proof.
  intros Hm. revert w report. induction addrs as [|addr addrs IH]; intros w report; simpl; [intros [= <- <-]; constructor|].
  destruct (connect_seed addr (connected addr) cfg ts w) as [[[]|e|] w1] eqn:Hc.
  - intros [= <- <-]. by eapply tried_connected.
  - destruct (connect_all addrs connected cfg ts w1) as [[found failures] w2] eqn:Ha.
    intros [= <- <-]. eapply tried_next; [done..|by apply IH].
  - exfalso. revert Hc. unfold connect_seed. destruct (_ <=? _); [done|]. case_bool_decide; [done|].
    by destruct (connected addr).
Qed.
End drive.

(** ** The peers of a manager that is no more *)

Section wind_down.
Context {crypto : CryptoLib} {order : HashOrder} {flags : BuildFlags}.

(** The steps of a task for which the peer need not send anything, and the connection need not
    break; only what is written to it must be taken. *)
Inductive unforced (linked : bool) (queue : EventQueue) (t : PeerTask) : Label → PeerTask → Prop :=
| free_timeout :
    t_stage t = Handshaking → t_sending t = [] →
    unforced linked queue t Quiet (fail (HandshakeTimeout (hs_timeout (config (t_handshake t)))) t)
| free_command c commands :
    t_stage t = Running → t_sending t = [] → t_commands t = c :: commands →
    unforced linked queue t Quiet (take_command (Some c) (set_commands commands t))
| free_unlinked :
    t_stage t = Running → t_sending t = [] → t_commands t = [] → linked = false →
    unforced linked queue t Quiet (take_command None t)
| free_drained :
    t_stage t = Closing → t_writer t = false ∨ t_outbox t = [] →
    unforced linked queue t Quiet (finish_task t)
| free_push message rest :
    t_sending t = message :: rest → t_writer t = true → zlen (t_outbox t) < MAX_OUTBOUND_QUEUE →
    unforced linked queue t (Says message) (push message rest t)
| free_push_error message rest :
    t_sending t = message :: rest → t_writer t = false →
    unforced linked queue t Quiet (push message rest t)
| free_write message outbox :
    t_writer t = true → t_outbox t = message :: outbox →
    unforced linked queue t Quiet (set_outbox outbox true t)
| free_unheard event :
    t_stage t = Emitting event → t_sending t = [] → queue = Gone →
    unforced linked queue t (Emits event) (unheard event t).

Lemma unforced_step linked queue sh t l t' :
  unforced linked queue t l t' → peer_step linked queue sh t l sh t'.
Proof. by destruct 1; econstructor. Qed.

(** One task on its own, with nobody to command it and nobody to hear it. *)
Definition alone_step (t t' : PeerTask) : Prop := ∃ l, unforced false Gone t l t'.
Definition can_end (t : PeerTask) : Prop := ∃ t', rtc alone_step t t' ∧ ended t'.

Lemma can_end_step t t' : alone_step t t' → can_end t' → can_end t.
Proof. intros Hs (t1&?&?). exists t1. split; [by eapply rtc_l|done]. Qed.
Lemma can_end_run t t' : rtc alone_step t t' → can_end t' → can_end t.
Proof. intros Hs (t1&?&?). exists t1. split; [by trans t'|done]. Qed.

Lemma can_end_fail e t : can_end (fail e t).
Proof.
  exists (finish_task t). split; [|done]. apply rtc_once.
  exists (Emits (PeerDisconnected (t_addr t) e)). by apply free_unheard.
Qed.

(** What is queued can be written. *)
Lemma alone_drain t : t_writer t = true → rtc alone_step t (set_outbox [] true t).
Proof.
  intros Hw. remember (t_outbox t) as ob eqn:Hob. revert t Hw Hob.
  induction ob as [|m ob IH]; intros t Hw Hob; symmetry in Hob.
  - destruct t. simpl in *. by rewrite Hw, Hob.
  - eapply rtc_l; [exists Quiet; by eapply free_write|]. apply (IH (set_outbox ob true t)); done.
Qed.

(** What is still to be handed to the writer can be. *)
Lemma alone_flush ms t :
  t_sending t = ms → (t_stage t = Finished → t_sending t = []) →
  can_end t ∨ ∃ t', rtc alone_step t t' ∧ t_sending t' = [] ∧
    (t_stage t' = t_stage t ∧ t_commands t' = t_commands t ∨
     t_stage t = Handshaking ∧ ∃ e, t_stage t' = Emitting e).
Proof.
  revert t. induction ms as [|m ms IH]; intros t Hs Hf.
  { right. exists t. split; [done|]. split; [done|]. by left. }
  destruct (t_writer t) eqn:Hw.
  2: { left. eapply can_end_step; [exists Quiet; by eapply free_push_error|].
       unfold push. rewrite Hw. apply can_end_fail. }
  set (t1 := set_outbox [] true t).
  assert (rtc alone_step t (push m ms t1)) as Hrun.
  { eapply rtc_r; [by apply alone_drain|]. exists (Says m). by apply free_push. }
  assert (push m ms t1 = check_established (set_sending ms (set_outbox [m] true t))) as Hpush by done.
  set (t2 := set_sending ms (set_outbox [m] true t)) in Hpush. rewrite Hpush in Hrun.
  assert (t_stage t ≠ Finished) as Hnf by (intros Heq; rewrite (Hf Heq) in Hs; discriminate).
  assert (check_established t2 = t2 ∨
    t_stage t = Handshaking ∧ t_sending t2 = [] ∧ check_established t2 = set_stage (Emitting (PeerReady (t_addr t2))) t2)
    as [Heq|(Hh&Hnil&Heq)].
  { unfold check_established. change (t_stage t2) with (t_stage t).
    destruct (t_stage t) eqn:Hst; auto. destruct (t_sending t2) eqn:Hse; auto. case_bool_decide; auto. }
  - rewrite Heq in Hrun. destruct (IH t2 eq_refl) as [Hend|(t'&Hr&Hn&Hc)]; [done|left; by eapply can_end_run|].
    right. exists t'. split; [by trans t2|]. split; [done|exact Hc].
  - right. eexists. split; [exact Hrun|]. rewrite Heq. split; [exact Hnil|]. right. split; [done|by eexists].
Qed.

Lemma alone_closing t : t_stage t = Closing → can_end t.
Proof.
  intros Hst. assert (∀ t0, t_stage t0 = Closing → t_writer t0 = false ∨ t_outbox t0 = [] → can_end t0) as Hdr.
  { intros t0 H0 Hw. exists (finish_task t0). split; [|done]. apply rtc_once. exists Quiet. by apply free_drained. }
  destruct (t_writer t) eqn:Hw; [|apply Hdr; auto].
  eapply can_end_run; [by apply alone_drain|]. apply Hdr; [done|by right].
Qed.

Lemma alone_emitting e t : t_stage t = Emitting e → t_sending t = [] → can_end t.
Proof.
  intros Hst Hse. eapply can_end_step; [exists (Emits e); by apply free_unheard|].
  destruct e as [a|a items|a e|a e]; [apply can_end_fail..| |apply can_end_fail].
  exists (set_stage Finished t). by split.
Qed.

(** The commands in the queue are taken one after the other, down to the end of the queue. *)
Lemma alone_running cs t : t_stage t = Running → t_sending t = [] → t_commands t = cs → can_end t.
Proof.
  revert t. induction cs as [|c cs IH]; intros t Hst Hse Hc.
  - eapply can_end_step; [exists Quiet; by apply free_unlinked|]. by apply alone_closing.
  - eapply can_end_step; [exists Quiet; by eapply free_command|]. destruct c as [m|]; [|by apply alone_closing].
    destruct (alone_flush [m] (take_command (Some (Send m)) (set_commands cs t)))
      as [?|(t'&Hr&Hn&[[Hs' Hc']|[Hh _]])]; [done| |done|..].
    + simpl. congruence.
    + eapply can_end_run; [exact Hr|]. apply IH; [by rewrite Hs'|done|by rewrite Hc'].
    + simpl in Hh. congruence.
Qed.

Lemma alone_ends t : silent t → can_end t.
Proof.
  intros [Hf _]. destruct (alone_flush _ t eq_refl Hf) as [?|(t'&Hr&Hn&Hst)]; [done|].
  eapply can_end_run; [exact Hr|]. destruct Hst as [[Hst _]|[_ [e Hst]]]; [|by eapply alone_emitting].
  destruct (t_stage t') as [| |e| |] eqn:Hs'.
  - eapply can_end_step; [exists Quiet; by apply free_timeout|]. apply can_end_fail.
  - by eapply alone_running.
  - by eapply alone_emitting.
  - by apply alone_closing.
  - exists t'. by split.
Qed.

(** ** The world without its manager *)

Record dropped (w : World) : Prop := {
  dr_job : job (w_manager w) = Dropped;
  dr_down : shutting_down (w_manager w) = true;
  dr_peers : peers (w_manager w) = ∅;
  dr_registrations : w_registrations w = [];
  dr_accepted : w_accepted w = None
}.

Lemma drop_manager_dropped w : dropped (drop_manager w).
Proof. by split. Qed.
(** Unless it has been shut down, its peers are aborted. *)
Lemma drop_manager_aborts w id :
  shutting_down (w_manager w) = false → id ∈ entry_tasks (w_manager w) → id ∈ w_cancelled (drop_manager w).
Proof.
  intros Hd Hid. unfold drop_manager. rewrite Hd. cbn. rewrite (proj2 (abort_tasks_spec _ w)).
  by apply elem_of_union_l, elem_of_list_to_set.
Qed.

Lemma dropped_unlinked w id : dropped w → linked w id = false.
Proof.
  intros [Hj _ Hp Hr Ha]. unfold linked. rewrite Hj, Hp, Hr, Ha. by rewrite map_to_list_empty.
Qed.

(** Nothing but steps of the tasks there are. *)
Lemma dropped_step w w' :
  world_step w w' → dropped w → dropped w' ∧ dom (w_tasks w') = dom (w_tasks w).
Proof.
  intros Hstep [Hj Hd Hp Hr Ha].
  destruct Hstep as [id t lb sh t' Ht Hs|addr cfg ts Hsd _|r Hacc Hroom|addr connected cfg ts Hi|Hi
    |e events Hi He|Hi He|msg id tg t t' Hi Ht Hs|msg id tg t e Hi Ht Hs|msg Hi|Hi
    |id tg jn t t' Hi Ht Hs|id jn t Hi Ht Hs|Hi|Hi|id jn Hi|id jn t Hi Ht|id t Hc Ht
    |id t m now a n Hc Ht Hf Hread Hrun]; try congruence.
  - split; [by split|]. simpl. rewrite dom_insert_L. assert (id ∈ dom (w_tasks w)) by by eapply elem_of_dom_2.
    set_solver.
  - exfalso. destruct Hi as [Hi|[e Hi]]; congruence.
  - split; [by split|]. simpl. rewrite dom_insert_L. assert (id ∈ dom (w_tasks w)) by by eapply elem_of_dom_2.
    set_solver.
  - by split.
Qed.
Lemma dropped_run w w' :
  rtc world_step w w' → dropped w → dropped w' ∧ dom (w_tasks w') = dom (w_tasks w).
Proof.
  induction 1 as [|w1 w2 w3 Hs _ IH]; [done|]. intros Hd.
  destruct (dropped_step _ _ Hs Hd) as [Hd2 <-]. by apply IH.
Qed.

(** The steps by which the node ends its connections: the tasks on their own, and the
    cancellations that have been requested. *)
Inductive closing_step (w : World) : World → Prop :=
| closing_task id t l t' :
    w_tasks w !! id = Some t → unforced (linked w id) (event_queue w) t l t' →
    closing_step w (with_shared (w_shared w) (with_task id t'
      (with_queues (events_after l w) (w_registrations w) (w_accepted w) w)))
| closing_cancel id t :
    id ∈ w_cancelled w → w_tasks w !! id = Some t →
    closing_step w (with_task id (finish_task t) w).

Lemma closing_step_world w w' : closing_step w w' → world_step w w'.
Proof.
  intros [id t l t' Ht Hu|id t Hc Ht]; [|by apply step_cancel].
  apply (step_peer w id t l (w_shared w) t' Ht). by apply unforced_step.
Qed.
Lemma closing_steps_world w w' : rtc closing_step w w' → rtc world_step w w'.
Proof. apply rtc_subrel. intros. by apply closing_step_world. Qed.

(** A task alone is a run of the world. *)
Lemma alone_run w id t t' :
  dropped w → w_tasks w !! id = Some t → rtc alone_step t t' →
  ∃ w', rtc closing_step w w' ∧ w_tasks w' = <[id := t']> (w_tasks w).
Proof.
  intros Hd Ht Hrun. revert w Hd Ht. induction Hrun as [t|t1 t2 t3 [lb Hs] _ IH]; intros w Hd Ht.
  { exists w. split; [done|]. by rewrite insert_id. }
  assert (event_queue w = Gone) as Hq by (unfold event_queue; by rewrite (dr_job w Hd)).
  assert (closing_step w (with_shared (w_shared w) (with_task id t2
    (with_queues (events_after lb w) (w_registrations w) (w_accepted w) w)))) as Hstep.
  { apply (closing_task w id t1 lb t2 Ht). by rewrite (dropped_unlinked _ _ Hd), Hq. }
  destruct (IH _ (proj1 (dropped_step _ _ (closing_step_world _ _ Hstep) Hd))) as (w'&Hr&Htasks); [apply lookup_insert_eq|].
  exists w'. split; [by eapply rtc_l|]. rewrite Htasks. simpl. by rewrite insert_insert_eq.
Qed.

Lemma silent_run w w' : rtc world_step w w' → all_silent w → all_silent w'.
Proof. induction 1 as [|w1 w2 w3 Hs _ IH]; [done|]. intros H. apply IH. by eapply world_step_silent. Qed.

Lemma tasks_end (ids : list nat) w :
  dropped w → all_silent w →
  ∃ w', rtc closing_step w w' ∧ ∀ id, id ∈ ids → id ∈ dom (w_tasks w) → ended_in w' id.
Proof.
  intros Hd Hsil. induction ids as [|id ids (w1&Hrun&Hend)].
  { exists w. split; [done|]. by intros id ?%not_elem_of_nil. }
  destruct (dropped_run _ _ (closing_steps_world _ _ Hrun) Hd) as [Hd1 Hdom].
  destruct (w_tasks w1 !! id) as [t|] eqn:Ht.
  2:{ exists w1. split; [done|]. intros id' [->|?]%elem_of_cons Hin; [|by apply Hend].
      apply not_elem_of_dom in Ht. set_solver. }
  destruct (alone_ends t) as (t'&Halone&He); [exact (silent_run _ _ (closing_steps_world _ _ Hrun) Hsil _ _ Ht)|].
  destruct (alone_run w1 id t t' Hd1 Ht Halone) as (w'&Hrun'&Htasks).
  exists w'. split; [by trans w1|]. intros id' Hid Hin. unfold ended_in. rewrite Htasks.
  destruct (decide (id' = id)) as [->|Hne].
  - exists t'. by rewrite lookup_insert_eq.
  - rewrite lookup_insert_ne by done. apply Hend; [|done].
    by apply elem_of_cons in Hid as [?|?].
Qed.

Lemma count_none {K} `{Countable K} {V} (f : V → bool) (m : gmap K V) :
  (∀ k x, m !! k = Some x → f x = false) → count_if f m = 0.
Proof.
  intros Hf. unfold count_if. rewrite map_empty_filter_2; [by rewrite map_size_empty|].
  intros k x Hk Hx. simpl in Hx. rewrite (Hf k x Hk) in Hx. discriminate.
Qed.

(** A manager dropped at any moment: no new task starts, and the node can reach a state in
    which every task has ended and every inbound slot is free. *)
Lemma dropped_winds_down (gen : Block) (l : MempoolLimits) (c : PeerManagerConfig)
    (sh : Shared) (w : World) :
  limits_ok l → 0 ≤ max_inbound c → 0 ≤ max_outbound c → shared_ok gen l sh →
  rtc world_step (new_world c sh) w → dropped w →
  ∃ w', rtc closing_step w w' ∧ dom (w_tasks w') = dom (w_tasks w) ∧ w_reserved w' = 0 ∧
    ∀ id t, w_tasks w' !! id = Some t → t_stage t = Finished.
Proof.
  intros Hl Hi Ho Hsh Hrun Hd. pose proof (reachable_silent _ _ _ Hrun) as Hsil.
  destruct (tasks_end (elements (dom (w_tasks w))) w Hd Hsil) as (w'&Hclose&Hend).
  pose proof (closing_steps_world _ _ Hclose) as Hrun'.
  destruct (dropped_run _ _ Hrun' Hd) as [Hd' Hdom]. exists w'.
  assert (∀ id t, w_tasks w' !! id = Some t → t_stage t = Finished) as Hfin.
  { intros id t Ht. assert (id ∈ dom (w_tasks w)) as Hin by (rewrite <- Hdom; by eapply elem_of_dom_2).
    destruct (Hend id) as (t0&Ht0&Hf&_); [by apply elem_of_elements|done|]. congruence. }
  split_and!; [done|done| |done].
  assert (rtc world_step (new_world c sh) w') as Hreach by by trans w.
  destruct (reachable_world_inv gen l Hl c Hi Ho sh w' Hsh Hreach) as [_ _ _ [-> _] _ _].
  apply count_none. intros id t Ht. apply (silent_run _ _ Hrun' Hsil _ _ Ht).
  unfold closed. by rewrite (Hfin id t Ht).
Qed.
End wind_down.
