(* ===== verification/PeersExamples.v ===== *)
(** * The peer manager on concrete runs

    An executable scheduler of the steps of Peers, sound for the step relation, runs of a node with
    two inbound peers and of one task, and four runs that may surprise. *)

From stdpp Require Import prelude gmap strings list sorting relations.
From Stdlib Require Import Strings.Byte.
From S2P Require Import Prelude Bytes Crypto U256 Pow Difficulty Wire Transaction Merkle Block.
From S2P Require Import Utxo Script Sighash Journal Store Chain ChainTx ChainInv ChainReorg.
From S2P Require Import ChainProps ChainTheorems ChainExamples Mempool MempoolInv MempoolEvict.
From S2P Require Import MempoolSync MempoolTheorems Message Handshake Handles Relay RelayTheorems.
From S2P Require Import RelayExamples TypedState TypedNode Peer Peers PeersTyped PeersInv PeersTheorems.
From S2P Require Import PeersShutdown.

Local Open Scope Z_scope.
Local Open Scope list_scope.

#[local] Existing Instance toy_crypto.
#[local] Existing Instance canonical_order.
#[local] Existing Instance ex_flags.

(** ** A scheduler *)

(** What happens next: a step of the task [id], or of the accept loop or the manager. *)
Inductive Action :=
| Receives (id : nat) (m : Message) (now : Z)
| Breaks (id : nat)
| Pushes (id : nat)
| EmitsEvent (id : nat)
| Accepts (addr : SocketAddr) (nonce : Z)
| Registers
| Connects (addr : SocketAddr) (nonce : Z)
| Polls
| TakesEvent
| Drains
| Relays
| Stops
| Tells
| Aborts
| Leaves
| Drops
| Writes (id : nat)
| Obeys (id : nat)
| Joins
| Cancels (id : nat).

(** What a peer reads of a message sent to it. *)
Definition wire (m : Message) : Result NetError Message :=
  let? ' (c, bs) := encode_payload m in decode_payload c bs.
Lemma wire_readable m : readable (wire m).
Proof.
  unfold wire, readable. destruct (encode_payload m) as [[c bs]|e|]; simpl; [|done..].
  destruct (decode_payload c bs) as [m'|e|] eqn:Hd; [|done..]. by exists c, bs.
Qed.
Definition peer_moves (id : nat) (l : Label) (sh : Shared) (t : PeerTask) (w : World) : World :=
  with_shared sh (with_task id t
    (with_queues (events_after l w) (w_registrations w) (w_accepted w) w)).

Definition peer_reads (id : nat) (r : Result NetError Message) (now : Z) (t : PeerTask) (w : World)
    : option World :=
  match t_stage t, t_sending t with
  | Handshaking, [] => Some (peer_moves id Quiet (w_shared w) (handshake_receive r t) w)
  | Running, [] =>
      let '(sh, t) := running_receive r now (w_shared w) t in Some (peer_moves id Quiet sh t w)
  | _, _ => None
  end.
Definition ex_config (nonce : Z) : HandshakeConfig := {| local_nonce := nonce mod 2 ^ 64; hs_timeout := 60 |}.
Lemma ex_config_inputs nonce : machine_inputs (ex_config nonce) 0.
Proof. split; [|done]. unfold in_u. simpl. apply Z.mod_pos_bound. lia. Qed.

Definition perform (a : Action) (w : World) : option World :=
  match a with
  | Receives id m now => t ← w_tasks w !! id; peer_reads id (wire m) now t w
  | Breaks id => t ← w_tasks w !! id; peer_reads id (Err ConnectionClosed) 0 t w
  | Pushes id =>
      t ← w_tasks w !! id;
      match t_sending t with
      | m :: rest =>
          if t_writer t && (zlen (t_outbox t) <? MAX_OUTBOUND_QUEUE)
          then Some (peer_moves id (Says m) (w_shared w) (push m rest t) w) else None
      | [] => None
      end
  | EmitsEvent id =>
      t ← w_tasks w !! id;
      match t_stage t, t_sending t with
      | Emitting e, [] =>
          match event_queue w with
          | Room => Some (peer_moves id (Emits e) (w_shared w) (emitted e t) w)
          | Full => None
          | Gone => Some (peer_moves id (Emits e) (w_shared w) (unheard e t) w)
          end
      | _, _ => None
      end
  | Accepts addr nonce =>
      match shutting_down (w_manager w), w_accepted w with
      | false, None => Some (accept addr (ex_config nonce) 0 w)
      | _, _ => None
      end
  | Registers =>
      r ← w_accepted w;
      if zlen (w_registrations w) <? MAX_PEER_REGISTRATIONS
      then Some (with_queues (w_events w) (w_registrations w ++ [r]) None w) else None
  | Connects addr nonce =>
      match job (w_manager w) with
      | Idle => Some (connect_seed addr true (ex_config nonce) 0 w).2
      | _ => None
      end
  | Polls =>
      match job (w_manager w) with
      | Idle => Some (begin_poll w)
      | _ => None
      end
  | TakesEvent =>
      match job (w_manager w), w_events w with
      | Draining, e :: events =>
          Some (with_manager (handle_event e (w_manager w))
                  (with_queues events (w_registrations w) (w_accepted w) w))
      | _, _ => None
      end
  | Drains =>
      match job (w_manager w), w_events w with
      | Draining, [] => Some (with_manager (set_job Idle (w_manager w)) w)
      | _, _ => None
      end
  | Relays =>
      match job (w_manager w) with
      | Relaying message [] => Some (with_manager (set_job Draining (w_manager w)) w)
      | Relaying message (id :: targets) =>
          t ← w_tasks w !! id;
          match send_command (Send message) t with
          | Some (Ok t') => Some (with_manager (set_job (Relaying message targets) (w_manager w))
                                    (with_task id t' w))
          | Some (Err e) => Some (with_manager (set_job (Failed e) (w_manager w)) w)
          | _ => None
          end
      | _ => None
      end
  | Stops => match job (w_manager w) with Idle => Some (begin_shutdown w) | _ => None end
  | Tells =>
      match job (w_manager w) with
      | ShuttingDown (id :: targets) joining =>
          t ← w_tasks w !! id;
          match send_command Shutdown t with
          | Some (Ok t') => Some (with_manager (set_job (ShuttingDown targets joining) (w_manager w))
                                    (with_task id t' w))
          | _ => None
          end
      | _ => None
      end
  | Aborts =>
      match job (w_manager w) with
      | ShuttingDown [] (id :: joining) =>
          Some (with_manager (set_job (ShuttingDown [] joining) (w_manager w)) (abort_task id w))
      | _ => None
      end
  | Leaves =>
      match job (w_manager w) with
      | ShuttingDown [] [] =>
          Some (with_manager (set_job Down (set_peers (peers (w_manager w)) 0 (w_manager w))) w)
      | _ => None
      end
  | Drops => match job (w_manager w) with Dropped => None | _ => Some (drop_manager w) end
  | Writes id =>
      t ← w_tasks w !! id;
      match t_writer t, t_outbox t with
      | true, _ :: outbox => Some (peer_moves id Quiet (w_shared w) (set_outbox outbox true t) w)
      | _, _ => None
      end
  | Obeys id =>
      t ← w_tasks w !! id;
      match t_stage t, t_sending t, t_commands t, t_outbox t with
      | Running, [], c :: commands, _ =>
          Some (peer_moves id Quiet (w_shared w) (take_command (Some c) (set_commands commands t)) w)
      | Closing, _, _, [] => Some (peer_moves id Quiet (w_shared w) (finish_task t) w)
      | _, _, _, _ => None
      end
  | Joins =>
      match job (w_manager w) with
      | ShuttingDown [] (id :: joining) =>
          t ← w_tasks w !! id;
          match t_stage t with
          | Finished => Some (with_manager (set_job (ShuttingDown [] joining) (w_manager w)) w)
          | _ => None
          end
      | _ => None
      end
  | Cancels id =>
      t ← w_tasks w !! id;
      if decide (id ∈ w_cancelled w) then Some (with_task id (finish_task t) w) else None
  end.

Lemma peer_reads_sound id r now t w w' :
  w_tasks w !! id = Some t → readable r → peer_reads id r now t w = Some w' → world_step w w'.
Proof.
  intros Ht Hr H. unfold peer_reads in H. destruct (t_stage t) eqn:Hst, (t_sending t) eqn:Hse; try done.
  - injection H as <-. eapply (step_peer w id t Quiet); [done|]. by apply peer_handshake.
  - destruct (running_receive _ _ _ _) as [sh t'] eqn:Hrun. injection H as <-.
    eapply (step_peer w id t Quiet); [done|]. by eapply peer_receive.
Qed.

Lemma perform_sound a w w' : perform a w = Some w' → world_step w w'.
Proof.
  destruct a as [id m now|id|id|id|addr nonce| |addr nonce| | | | | | | | | |id|id| |id]; simpl; intros H.
  - apply bind_Some in H as (t&Ht&H). eapply peer_reads_sound; [done|apply wire_readable|done].
  - apply bind_Some in H as (t&Ht&H). by eapply (peer_reads_sound id (Err ConnectionClosed)).
  - apply bind_Some in H as (t&Ht&H). destruct (t_sending t) as [|m rest] eqn:Hse; [done|].
    destruct (t_writer t) eqn:Hw; [|done]. destruct (Z.ltb_spec (zlen (t_outbox t)) MAX_OUTBOUND_QUEUE); [|done].
    injection H as <-. eapply (step_peer w id t (Says m)); [done|]. by apply peer_push.
  - apply bind_Some in H as (t&Ht&H). destruct (t_stage t) eqn:Hst, (t_sending t) eqn:Hse; try done.
    destruct (event_queue w) eqn:Hq; [|done|]; injection H as <-;
      (eapply (step_peer w id t (Emits event)); [done|]); [by apply peer_emit|by apply peer_unheard].
  - destruct (shutting_down _) eqn:Hs, (w_accepted w) eqn:Ha; try done. injection H as <-. apply step_accept; [done..|apply ex_config_inputs].
  - apply bind_Some in H as (r&Hr&H). destruct (Z.ltb_spec (zlen (w_registrations w)) MAX_PEER_REGISTRATIONS); [|done].
    injection H as <-. by apply step_register.
  - destruct (job _) eqn:Hj; try done. injection H as <-. apply step_connect; [done|apply ex_config_inputs].
  - destruct (job _) eqn:Hj; try done. injection H as <-. by apply step_poll.
  - destruct (job _) eqn:Hj; try done. destruct (w_events w) eqn:He; [done|]. injection H as <-.
    by apply step_event.
  - destruct (job _) eqn:Hj; try done. destruct (w_events w) eqn:He; [|done]. injection H as <-.
    by apply step_drained.
  - destruct (job _) as [| |message [|id targets]| | | |] eqn:Hj; try done.
    + injection H as <-. by eapply step_relayed.
    + apply bind_Some in H as (t&Ht&H).
      destruct (send_command (Send message) t) as [[t'|e|]|] eqn:Hs; try done; injection H as <-;
        [by eapply step_relay|by eapply step_relay_error].
  - destruct (job _) eqn:Hj; try done. injection H as <-. apply step_shutdown. by left.
  - destruct (job _) as [| | |[|id targets] joining| | |] eqn:Hj; try done.
    apply bind_Some in H as (t&Ht&H).
    destruct (send_command Shutdown t) as [[t'|e|]|] eqn:Hs; try done; injection H as <-.
    eapply step_shutdown_send; [done..|]. by left.
  - destruct (job _) as [| | |[|id targets] [|id' joining]| | |] eqn:Hj; try done.
    injection H as <-. by apply step_join_timeout.
  - destruct (job _) as [| | |[|id targets] [|id' joining]| | |] eqn:Hj; try done.
    injection H as <-. by apply step_down.
  - destruct (job _) eqn:Hj; try done; injection H as <-; apply step_drop; by rewrite Hj.
  - apply bind_Some in H as (t&Ht&H). destruct (t_writer t) eqn:Hw, (t_outbox t) as [|m ob] eqn:Hob; try done.
    injection H as <-. eapply (step_peer w id t Quiet); [done|]. by eapply peer_write.
  - apply bind_Some in H as (t&Ht&H).
    destruct (t_stage t) eqn:Hst, (t_sending t) eqn:Hse, (t_commands t) eqn:Hc, (t_outbox t) eqn:Hob; try done;
      injection H as <-; (eapply (step_peer w id t Quiet); [done|]);
      first [by apply peer_command|apply peer_drained; [done|by right]].
  - destruct (job _) as [| | |[|id targets] [|id' joining]| | |] eqn:Hj; try done.
    apply bind_Some in H as (t&Ht&H). destruct (t_stage t) eqn:Hst; try done. injection H as <-.
    by eapply step_join.
  - apply bind_Some in H as (t&Ht&H). case_decide; [|done]. injection H as <-. by apply step_cancel.
Qed.

Fixpoint perform_all (actions : list Action) (w : World) : option World :=
  match actions with
  | [] => Some w
  | a :: actions => w ← perform a w; perform_all actions w
  end.
Lemma perform_all_sound actions w w' : perform_all actions w = Some w' → rtc world_step w w'.
Proof.
  revert w. induction actions as [|a actions IH]; intros w; simpl; [by intros [= <-]|].
  intros (w1&H1%perform_sound&H2)%bind_Some. eapply rtc_l; [done|by apply IH].
Qed.

(** ** Two inbound peers *)

Definition px_config : PeerManagerConfig := {|
  mc_network := Testnet; listen_addr := loopback 18333; max_inbound := 8; max_outbound := 8;
  mc_seeds := Builtin |}.
Definition px_shared : Shared := (new_lock ex_c0, new_lock (new_mempool default_limits)).
Definition px_world : World := new_world px_config px_shared.

Definition addr_a : SocketAddr := ([10; 0; 0; 1], 5001).
Definition addr_b : SocketAddr := ([10; 0; 0; 2], 5002).
Definition px_version (nonce : Z) : Message := msg_version (default_version_message nonce 0 0).

(** A connection is accepted and registered; its handshake runs to the end. *)
Definition joins (addr : SocketAddr) (nonce : Z) : list Action := [Accepts addr nonce; Registers].
Definition greets (id : nat) (nonce : Z) : list Action :=
  [Receives id (px_version nonce) 0; Pushes id; Pushes id; Receives id msg_verack 0;
   EmitsEvent id].
Definition both_ready : list Action :=
  joins addr_a 1 ++ joins addr_b 2 ++ greets 0 101 ++ greets 1 102 ++
  [Polls; TakesEvent; TakesEvent; Drains].
Definition announces : list Action := [Receives 0 (msg_block ex_b1) 0; EmitsEvent 0; Polls].

Definition px_final (actions : list Action) : World := default px_world (perform_all actions px_world).
Definition px_possible (actions : list Action) : bool :=
  bool_decide (is_Some (perform_all actions px_world)).
Lemma px_final_run actions : px_possible actions = true → rtc world_step px_world (px_final actions).
Proof.
  intros [w Hw]%bool_decide_eq_true. apply (perform_all_sound actions). unfold px_final. by rewrite Hw.
Qed.

Lemma px_limits_ok : limits_ok default_limits.
Proof. by split_and!. Qed.
Lemma px_shared_ok : shared_ok ex_genesis default_limits px_shared.
Proof. split; (split; [done|]); [exact ex_c0_reachable|apply reach_new]. Qed.

(** ** The first peer sends a block, the second is told *)

Abbreviation px_announced := (px_final (both_ready ++ announces)).
Definition px_items : list InventoryVector :=
  [{| inv_type := InvBlock; inv_hash := block_hash ex_b1 |}].

Lemma px_announced_run : rtc world_step px_world px_announced.
Proof. apply px_final_run. vm_compute. reflexivity. Qed.

Lemma node_queues_bounded_witness : w_reserved px_announced ≤ 8.
Proof.
  refine (proj1 (proj2 (proj2 (proj2 (proj2 (node_queues_bounded ex_genesis default_limits px_config
    px_shared px_announced px_limits_ok _ _ px_shared_ok px_announced_run)))))); discriminate.
Defined.

Example px_not_poisoned : poisoned (w_shared px_announced).1 = false.
Proof. vm_compute. reflexivity. Qed.
Lemma peers_keep_shared_state_good_witness :
  lock_ok (reachable ex_genesis) (w_shared px_announced).1.
Proof.
  destruct (peers_keep_shared_state_good ex_genesis default_limits px_config px_shared px_announced
    px_limits_ok) as [H|[H _]]; [discriminate|discriminate|exact px_shared_ok|exact px_announced_run| |exact H].
  rewrite px_not_poisoned in H. discriminate H.
Defined.

Lemma px_draining : job (w_manager px_announced) = Draining.
Proof. vm_compute. reflexivity. Qed.
Lemma px_event : w_events px_announced = [PeerAnnounce addr_a px_items].
Proof. vm_compute. reflexivity. Qed.
Lemma px_targets : relay_targets (Some addr_a) (w_manager px_announced) = [1%nat].
Proof. vm_compute. reflexivity. Qed.
Lemma px_target_open :
  match w_tasks px_announced !! 1%nat with
  | Some t => negb (closed t) && (zlen (t_commands t) <? COMMAND_QUEUE) | None => false
  end = true.
Proof. vm_compute. reflexivity. Qed.
Lemma px_open id :
  id ∈ relay_targets (Some addr_a) (w_manager px_announced) →
  ∃ t, w_tasks px_announced !! id = Some t ∧ open_with_room t.
Proof.
  rewrite px_targets. intros ->%list_elem_of_singleton. pose proof px_target_open as Ho.
  destruct (w_tasks px_announced !! 1%nat) as [t|]; [|discriminate Ho].
  apply andb_true_iff in Ho as [Hc Hz]. exists t. split; [reflexivity|].
  split; [by apply negb_true_iff|by apply Z.ltb_lt].
Qed.

(** The broadcast of the block to the second peer, to its end. *)
Lemma broadcast_reaches_ready_peers_witness :
  ∃ w1 w', world_step px_announced w1 ∧ rtc relaying_step w1 w' ∧ job (w_manager w') = Draining ∧
    delivered w1 [(1%nat, Send (msg_inv px_items))] w'.
Proof.
  destruct (broadcast_reaches_ready_peers px_config px_shared px_announced _ addr_a px_items []
    px_announced_run px_draining px_event ltac:(discriminate) eq_refl)
    as (Hstep&_&_&Hall&Hend&_).
  destruct (Hend px_open) as (w'&Hrun&Hj). eexists _, w'. split; [exact Hstep|]. split; [exact Hrun|].
  split; [exact Hj|].
  destruct (Hall w' Hrun) as (sent&Hd&Hat&_). unfold broadcast_at in Hat. rewrite Hj, px_targets in Hat.
  rewrite <- Hat in Hd. exact Hd.
Defined.

(** ** What is said is well-typed *)

Lemma px_shared_typed : shared_typed px_shared.
Proof.
  split; [|intros t e He; discriminate He].
  assert (wire (msg_block ex_genesis) = Ok (msg_block ex_genesis)) as Hw by (vm_compute; reflexivity).
  pose proof (wire_readable (msg_block ex_genesis)) as Hr. rewrite Hw in Hr.
  apply (new_genesis_typed ex_genesis 1000); [exact (proj2 (readable_ok _ Hr))|].
  vm_compute. reflexivity.
Qed.

(** The broadcast of the announced block to the second peer. *)
Definition px_told : World := px_final (both_ready ++ announces ++ [TakesEvent; Relays]).
Lemma px_told_run : rtc world_step px_world px_told.
Proof. apply px_final_run. vm_compute. reflexivity. Qed.
Lemma px_told_command :
  (t ← w_tasks px_told !! 1%nat; Some (t_commands t)) = Some [Send (msg_inv px_items)].
Proof. vm_compute. reflexivity. Qed.

Lemma node_speaks_well_typed_witness :
  message_ok (msg_inv px_items) ∧
  ∃ bs, encode_payload (msg_inv px_items) = Ok (command (msg_inv px_items), bs) ∧
    decode_payload (command (msg_inv px_items)) bs = Ok (msg_inv px_items).
Proof.
  pose proof px_told_command as Hc. destruct (w_tasks px_told !! 1%nat) as [t|] eqn:Ht; [|discriminate Hc].
  injection Hc as Hc.
  apply (proj2 (proj2 (node_speaks_well_typed px_config px_shared px_told px_shared_typed px_told_run))
    1%nat t (msg_inv px_items) Ht).
  right. rewrite Hc. left.
Defined.

(** ** One task from its start to its end *)

Definition tx_cfg : HandshakeConfig := {| local_nonce := 1; hs_timeout := 60 |}.
Definition tx_start : PeerTask := spawn_peer addr_a Inbound tx_cfg 0 0 true (new_lock ex_c0).
Definition tx_hello : list Message := [msg_version (default_version_message 1 0 0); msg_verack].
Definition tx_version : PeerTask := handshake_receive (Ok (px_version 7)) tx_start.
Definition tx_said : PeerTask := push (msg_version (default_version_message 1 0 0)) [msg_verack] tx_version.
Definition tx_greeted : PeerTask := push msg_verack [] tx_said.
Definition tx_verack : PeerTask := handshake_receive (Ok msg_verack) tx_greeted.
Definition tx_ready : PeerTask := emitted (PeerReady addr_a) tx_verack.
Definition tx_gone : PeerTask := fail ConnectionClosed tx_ready.
Definition tx_end : PeerTask := emitted (PeerDisconnected addr_a ConnectionClosed) tx_gone.

Abbreviation tx_step l t t' := (peer_step true Room px_shared t l px_shared t').
Lemma wire_reads m : wire m = Ok m → readable (Ok m).
Proof. intros Hw. pose proof (wire_readable m) as Hr. by rewrite Hw in Hr. Qed.
Lemma tx_steps :
  tx_step Quiet tx_start tx_version ∧
  tx_step (Says (msg_version (default_version_message 1 0 0))) tx_version tx_said ∧
  tx_step (Says msg_verack) tx_said tx_greeted ∧ tx_step Quiet tx_greeted tx_verack ∧
  tx_step (Emits (PeerReady addr_a)) tx_verack tx_ready ∧ tx_step Quiet tx_ready tx_gone ∧
  tx_step (Emits (PeerDisconnected addr_a ConnectionClosed)) tx_gone tx_end.
Proof.
  split_and!.
  - apply peer_handshake; [done..|]. apply wire_reads. vm_compute. reflexivity.
  - by apply peer_push.
  - by apply peer_push.
  - apply peer_handshake; [done..|]. apply wire_reads. vm_compute. reflexivity.
  - by apply peer_emit.
  - by apply (peer_receive _ _ _ _ (Err ConnectionClosed) 0).
  - by apply peer_emit.
Qed.
Lemma tx_run :
  peer_run tx_start [PeerReady addr_a; PeerDisconnected addr_a ConnectionClosed] tx_hello tx_end.
Proof.
  destruct tx_steps as (H1&H2&H3&H4&H5&H6&H7).
  exact (run_next _ _ _ _ _ _ _ _ _ _ (run_next _ _ _ _ _ _ _ _ _ _ (run_next _ _ _ _ _ _ _ _ _ _
    (run_next _ _ _ _ _ _ _ _ _ _ (run_next _ _ _ _ _ _ _ _ _ _ (run_next _ _ _ _ _ _ _ _ _ _
    (run_next _ _ _ _ _ _ _ _ _ _ (run_start _) H1) H2) H3) H4) H5) H6) H7).
Qed.

Lemma peer_protocol_witness :
  ∃ announces ending,
    [PeerReady addr_a; PeerDisconnected addr_a ConnectionClosed] =
      PeerReady addr_a :: announces ++ ending.
Proof.
  destruct (peer_protocol addr_a Inbound tx_cfg 0 0 true (new_lock ex_c0) _ _ _ tx_run)
    as (anns&ending&_&_&[(H&_)|(H&_)]).
  - exists [], [PeerDisconnected addr_a ConnectionClosed]. reflexivity.
  - exists anns, ending. exact H.
Defined.

(** ** The node stops *)

(** Both peers are told; the first writes what it has still to say and ends, the second does
    not end in time. *)
Definition px_stop : list Action :=
  [Tells; Tells; Obeys 0; Writes 0; Writes 0; Obeys 0; Joins; Aborts; Leaves].
Definition px_ready : World := px_final both_ready.
Definition px_down : World := default px_world (perform_all px_stop (begin_shutdown px_ready)).
Lemma px_ready_run : rtc world_step px_world px_ready.
Proof. apply px_final_run. vm_compute. reflexivity. Qed.
Lemma px_down_run : rtc world_step (begin_shutdown px_ready) px_down.
Proof.
  apply (perform_all_sound px_stop). unfold px_down.
  assert (bool_decide (is_Some (perform_all px_stop (begin_shutdown px_ready))) = true) as H
    by (vm_compute; reflexivity).
  apply bool_decide_eq_true in H as [w Hw]. by rewrite Hw.
Qed.
Lemma px_down_job : job (w_manager px_down) = Down.
Proof. vm_compute. reflexivity. Qed.

Lemma shutdown_ends_every_peer_witness :
  peers (w_manager px_down) = ∅ ∧ outbound_count (w_manager px_down) = 0 ∧
  ∀ addr e, peers (w_manager px_ready) !! addr = Some e →
    (∃ t, w_tasks px_down !! e_task e = Some t ∧ t_stage t = Finished) ∨ e_task e ∈ w_cancelled px_down.
Proof.
  assert (shutting_down (w_manager px_ready) = false) as Hs by (vm_compute; reflexivity).
  destruct (shutdown_ends_every_peer px_config px_shared px_ready px_down (Ok ()) px_ready_run Hs
    (conj px_down_run px_down_job)) as (Hp&_&Ho&Hr).
  split; [exact Hp|]. split; [exact Ho|exact Hr].
Defined.

(** [shutdown] has returned, and the task it has aborted is still running; it ends when it is
    cancelled. *)
Example aborted_task_still_runs :
  job (w_manager px_down) = Down ∧
  (t ← w_tasks px_down !! 1%nat; Some (t_stage t)) = Some Running ∧
  (t ← w_tasks (default px_world (perform (Cancels 1) px_down)) !! 1%nat; Some (t_stage t)) = Some Finished.
Proof. vm_compute. split_and?; reflexivity. Qed.

(** ** Four surprises *)

(** A disconnecting peer stops the node: between the end of its task and the handling of its
    disconnection, a broadcast fails, and with it [poll] and the node's loop. *)
Definition closes : list Action :=
  [Breaks 1; Receives 0 (msg_block ex_b1) 0; EmitsEvent 0;
   EmitsEvent 1; Polls; TakesEvent; Relays].
Example one_disconnect_stops_node :
  rtc world_step px_world (px_final (both_ready ++ closes)) ∧
  job (w_manager (px_final (both_ready ++ closes))) = Failed ConnectionClosed.
Proof. split; [apply px_final_run|]; vm_compute; reflexivity. Qed.

(** A task that ends before its registration has been read leaves an entry for good: the
    disconnection finds nothing to remove, the registration is inserted afterwards. *)
Definition late_registration : list Action :=
  [Accepts addr_a 1; Breaks 0; EmitsEvent 0; Polls; TakesEvent; Drains;
   Registers; Polls; Drains].
Example late_registration_leaves_entry :
  rtc world_step px_world (px_final late_registration) ∧
  peer_count (w_manager (px_final late_registration)) = 1 ∧
  w_reserved (px_final late_registration) = 0 ∧ w_events (px_final late_registration) = [].
Proof. split; [apply px_final_run|]; vm_compute; split_and?; reflexivity. Qed.

(** An inbound connection from the address of an outbound one takes over its entry, and the
    count of outbound connections stays up when both are gone. *)
Definition same_address : list Action :=
  [Connects addr_a 1; Accepts addr_a 2; Registers; Polls; Drains;
   Pushes 0; Breaks 0; EmitsEvent 0; Breaks 1; EmitsEvent 1;
   Polls; TakesEvent; TakesEvent; Drains].
Example outbound_count_stays_up :
  rtc world_step px_world (px_final same_address) ∧
  peer_count (w_manager (px_final same_address)) = 0 ∧
  outbound_count (w_manager (px_final same_address)) = 1.
Proof. split; [apply px_final_run|]; vm_compute; split_and?; reflexivity. Qed.

(** Every connection draws a nonce of its own, so the two ends of a node's connection to
    itself do not recognise each other. *)
Example connects_to_itself :
  let out := spawn_peer (loopback 18333) Outbound {| local_nonce := 1; hs_timeout := 60 |} 0 0 false (new_lock ex_c0) in
  let inn := spawn_peer (loopback 50000) Inbound {| local_nonce := 2; hs_timeout := 60 |} 0 0 true (new_lock ex_c0) in
  let inn := handshake_receive (Ok (px_version 1)) inn in
  let inn := push msg_verack [] (push (px_version 2) [msg_verack] inn) in
  let out := handshake_receive (Ok (px_version 2)) (push (px_version 1) [] out) in
  let out := push msg_verack [] out in
  t_stage (handshake_receive (Ok msg_verack) inn) = Emitting (PeerReady (loopback 50000)) ∧
  t_stage (handshake_receive (Ok msg_verack) out) = Emitting (PeerReady (loopback 18333)).
Proof. vm_compute. split; reflexivity. Qed.
