(* ===== verification/Wallet.v ===== *)
(** * The wallet (bitrst-wallet: error.rs, key.rs, address.rs, sign.rs, wallet.rs)

    Keys and addresses, the signing of a P2PKH input, and the tracking of the outputs of
    watched addresses from chain events.  [owned] is the specification of the tracked outputs:
    the part of a UTXO set locked to a watched hash. *)

From stdpp Require Import prelude gmap strings list fin_maps.
From Stdlib Require Import Strings.Byte.
From S2P Require Import Prelude Bytes Crypto U256 Wire Transaction Block Utxo Script Sighash.
From S2P Require Import Journal Store Chain.

Local Open Scope Z_scope.
Local Open Scope list_scope.

(** ** Errors, keys, addresses *)

Inductive WalletError :=
| InvalidPrivateKey
| WalletInputIndexOutOfRange
| WalletSighash (e : SighashError)
| MissingActiveBlock (height : Z).

Inductive AddressNetwork := AddrMainnet | AddrTestnet.
Definition p2pkh_version (network : AddressNetwork) : byte :=
  match network with AddrMainnet => x00 | AddrTestnet => x6f end.

Record Address := { addr_network : AddressNetwork; addr_pubkey_hash : list byte; encoded : string }.

Section keys.
Context {crypto : CryptoLib}.

Record PrivateKey := { inner : SecretKey }.

Definition key_from_bytes (bytes : list byte) : Result WalletError PrivateKey :=
  let? inner := ok_or (SecretKey_from_slice bytes) InvalidPrivateKey in
  Ok {| inner := inner |}.
Definition public_key (key : PrivateKey) : list byte :=
  PublicKey_serialize (PublicKey_from_secret_key (inner key)).
Definition key_pubkey_hash (key : PrivateKey) : list byte := hash160 (public_key key).

Definition address_p2pkh (pubkey_hash : list byte) (network : AddressNetwork) : Address := {|
  addr_network := network; addr_pubkey_hash := pubkey_hash;
  encoded := encode_check (p2pkh_version network) pubkey_hash |}.

(** ** Signing *)

Definition set_script_sig (tx : Transaction) (i : nat) (script : list byte) : Transaction := {|
  tx_version := tx_version tx;
  tx_inputs := alter (λ input, {|
    previous_output := previous_output input; txin_index := txin_index input;
    script_sig := script; txin_sequence := txin_sequence input |}) i (tx_inputs tx);
  tx_outputs := tx_outputs tx;
  tx_lock_time := tx_lock_time tx |}.

Definition sign_p2pkh_input (input_index : nat) (prev_script_pubkeys : list (list byte))
    (key : PrivateKey) : SM Transaction WalletError unit :=
  let! tx := sget in
  if (length (tx_inputs tx) <=? input_index)%nat then sthrow WalletInputIndexOutOfRange
  else
    let! sighash := slift (map_err WalletSighash (sighash_all tx input_index prev_script_pubkeys)) in
    let signature := sign_der_with_hashtype (inner key) sighash (zb SIGHASH_ALL) in
    smodify (λ tx, set_script_sig tx input_index (p2pkh_script_sig signature (public_key key))).
End keys.
Arguments PrivateKey : clear implicits.
Arguments PrivateKey {crypto}.

(** ** Tracked outputs *)

Record WalletUtxo := { wu_outpoint : OutPoint; wu_value : Z; wu_script_pubkey : list byte }.
#[global] Instance WalletUtxo_eq_dec : EqDecision WalletUtxo.
Proof. solve_decision. Defined.

Record WalletBlockUndo := { wb_created : list OutPoint; wb_removed : list WalletUtxo }.

Record Wallet := {
  watched : gset (list byte);
  wallet_utxos : gmap OutPoint WalletUtxo;
  block_undo : gmap (list byte) WalletBlockUndo
}.

Definition new_wallet : Wallet := {| watched := ∅; wallet_utxos := ∅; block_undo := ∅ |}.
Definition watch_address (address : Address) (w : Wallet) : Wallet := {|
  watched := {[addr_pubkey_hash address]} ∪ watched w;
  wallet_utxos := wallet_utxos w; block_undo := block_undo w |}.
Definition set_tracked (u : gmap OutPoint WalletUtxo) (b : gmap (list byte) WalletBlockUndo)
    (w : Wallet) : Wallet :=
  {| watched := watched w; wallet_utxos := u; block_undo := b |}.

Definition p2pkh_pubkey_hash (script : list byte) : option (list byte) :=
  if bool_decide (length script = 25%nat) && bool_decide (script !! 0%nat = Some x76) &&
     bool_decide (script !! 1%nat = Some xa9) && bool_decide (script !! 2%nat = Some x14) &&
     bool_decide (script !! 23%nat = Some x88) && bool_decide (script !! 24%nat = Some xac)
  then Some (take 20 (drop 3 script)) else None.

Definition wallet_output (o : OutPoint) (e : UtxoEntry) : WalletUtxo :=
  {| wu_outpoint := o; wu_value := ue_value e; wu_script_pubkey := ue_script_pubkey e |}.

(** The tracked outputs and the undo record under construction. *)
Abbreviation Tracking := (gmap OutPoint WalletUtxo * WalletBlockUndo)%type.

Definition spend_tracked (st : Tracking) (input : TxInput) : Tracking :=
  let '(utxos, undo) := st in
  let outpoint := input_outpoint input in
  match utxos !! outpoint with
  | Some utxo => (delete outpoint utxos,
                  {| wb_created := wb_created undo; wb_removed := wb_removed undo ++ [utxo] |})
  | None => (utxos, undo)
  end.

Definition is_watched (watched : gset (list byte)) (script : list byte) : bool :=
  match p2pkh_pubkey_hash script with
  | Some pubkey_hash => bool_decide (pubkey_hash ∈ watched)
  | None => false
  end.
Fixpoint create_tracked (watched : gset (list byte)) (txid : list byte) (index : nat)
    (outputs : list TxOutput) (st : Tracking) : Tracking :=
  match outputs with
  | [] => st
  | output :: outputs =>
      let '(utxos, undo) := st in
      let outpoint := output_outpoint txid index in
      create_tracked watched txid (S index) outputs
        (if is_watched watched (script_pubkey output)
         then (<[outpoint := wallet_output outpoint (output_entry output)]> utxos,
               {| wb_created := wb_created undo ++ [outpoint]; wb_removed := wb_removed undo |})
         else (utxos, undo))
  end.

Definition balance (w : Wallet) : Z := map_sum wu_value (wallet_utxos w) mod 2 ^ 64.

Section tracking.
Context {crypto : CryptoLib}.

Definition track_tx (watched : gset (list byte)) (st : Tracking) (tx : Transaction) : Tracking :=
  create_tracked watched (tx_id tx) 0 (tx_outputs tx) (foldl spend_tracked st (tx_inputs tx)).
Definition track_block (watched : gset (list byte)) (utxos : gmap OutPoint WalletUtxo)
    (block : Block) : Tracking :=
  foldl (track_tx watched) (utxos, {| wb_created := []; wb_removed := [] |}) (transactions block).

Definition untrack (undo : WalletBlockUndo) (utxos : gmap OutPoint WalletUtxo)
    : gmap OutPoint WalletUtxo :=
  foldl (λ u utxo, <[wu_outpoint utxo := utxo]> u)
    (foldl (λ u outpoint, delete outpoint u) utxos (wb_created undo)) (wb_removed undo).

Definition apply_event (chain : Chain) (event : ChainEvent) : SM Wallet WalletError unit :=
  match event with
  | BlockConnected height _ _ =>
      let! block := slift (ok_or (active_block_at chain height) (MissingActiveBlock height)) in
      smodify (λ w,
        let '(utxos, undo) := track_block (watched w) (wallet_utxos w) block in
        set_tracked utxos (<[block_hash block := undo]> (block_undo w)) w)
  | BlockDisconnected _ hash =>
      smodify (λ w,
        match block_undo w !! hash with
        | Some undo =>
            set_tracked (untrack undo (wallet_utxos w)) (delete hash (block_undo w)) w
        | None => w
        end)
  | ChainReorg _ _ _ | OrphanAdded _ _ | OrphanEvicted _ _ => sret ()
  end.
Definition apply_events (events : list ChainEvent) (chain : Chain) : SM Wallet WalletError unit :=
  sfor events (apply_event chain).
End tracking.

(** ** Specification *)

(** What a wallet that watches [watched] should hold when the unspent outputs are [u]. *)
Definition owned (watched : gset (list byte)) (u : UtxoSet) : gmap OutPoint WalletUtxo :=
  map_imap (λ o e, if is_watched watched (ue_script_pubkey e) then Some (wallet_output o e) else None) u.

(** ** Lemmas *)

Lemma p2pkh_pubkey_hash_Some script hash :
  p2pkh_pubkey_hash script = Some hash ↔
  length hash = 20%nat ∧ script = p2pkh_script_pubkey hash.
Proof.
  unfold p2pkh_pubkey_hash, p2pkh_script_pubkey, OP_DUP, OP_HASH160, OP_EQUALVERIFY, OP_CHECKSIG.
  split.
  - repeat case_bool_decide; try done. simpl. intros [= <-].
    split; [rewrite length_take, length_drop; lia|].
    destruct script as [|b0 [|b1 [|b2 rest]]]; simplify_eq/=. do 3 f_equal.
    rewrite drop_0. rewrite <- (take_drop 20 rest) at 1. f_equal.
    assert (length (drop 20 rest) = 2%nat) as Hl by (rewrite length_drop; lia).
    assert (drop 20 rest !! 0%nat = Some x88) by (by rewrite lookup_drop).
    assert (drop 20 rest !! 1%nat = Some xac) by (by rewrite lookup_drop).
    by destruct (drop 20 rest) as [|? [|? [|]]]; simplify_eq/=.
  - intros [Hl ->].
    assert (([x76; xa9; x14] ++ hash ++ [x88; xac]) !! 23%nat = Some x88) as H1.
    { simpl. by rewrite lookup_app_r, Hl by lia. }
    assert (([x76; xa9; x14] ++ hash ++ [x88; xac]) !! 24%nat = Some xac) as H2.
    { simpl. by rewrite lookup_app_r, Hl by lia. }
    rewrite (bool_decide_true _ H1), (bool_decide_true _ H2), bool_decide_true by
      (rewrite !length_app; simpl; lia).
    simpl. f_equal. rewrite drop_0. by apply take_app_length'.
Qed.

Lemma owned_lookup watched u o :
  owned watched u !! o =
    e ← u !! o; if is_watched watched (ue_script_pubkey e) then Some (wallet_output o e) else None.
Proof. apply map_lookup_imap. Qed.

Lemma owned_empty watched : owned watched ∅ = ∅.
Proof. apply map_eq. intros o. rewrite owned_lookup. by rewrite !lookup_empty. Qed.
Lemma owned_mono watched u v : u ⊆ v → owned watched u ⊆ owned watched v.
Proof.
  intros Huv. apply map_subseteq_spec. intros o x. rewrite !owned_lookup.
  intros (e&He&Hx)%bind_Some. by rewrite (lookup_weaken _ _ _ _ He Huv).
Qed.

(** The entries are keyed by their outpoints. *)
Definition tracked_keyed (u : gmap OutPoint WalletUtxo) : Prop :=
  map_Forall (λ o x, wu_outpoint x = o) u.

Lemma owned_keyed watched u : tracked_keyed (owned watched u).
Proof.
  intros o x. rewrite owned_lookup. intros (e&_&Hx)%bind_Some. case_match; [|done].
  by injection Hx as <-.
Qed.

(** Spending: the outpoints of the inputs disappear. *)
Lemma spend_tracked_fst inputs st o :
  (foldl spend_tracked st inputs).1 !! o =
    if decide (o ∈ map input_outpoint inputs) then None else st.1 !! o.
Proof.
  revert st. induction inputs as [|i inputs IH]; intros st; cbn [foldl map].
  { rewrite decide_False; [done|apply not_elem_of_nil]. }
  rewrite IH. destruct st as [utxos undo]. unfold spend_tracked.
  destruct (decide (o ∈ map input_outpoint inputs)) as [Hin|Hin].
  { rewrite decide_True; [done|]. apply elem_of_cons. by right. }
  destruct (decide (o = input_outpoint i)) as [->|Hne].
  - rewrite decide_True by (apply elem_of_cons; by left).
    destruct (utxos !! input_outpoint i) eqn:Hu; simpl; [apply lookup_delete_eq|done].
  - rewrite decide_False by (rewrite elem_of_cons; naive_solver).
    destruct (utxos !! input_outpoint i); simpl; [by rewrite lookup_delete_ne|done].
Qed.
