(* ===== verification/WalletTheorems.v ===== *)
(** * Theorems about the wallet (bitrst-wallet)

    The tracked outputs are the watched part of the chain's UTXO set; disconnecting a block
    undoes its connection; the balance is the sum of the tracked values; what the wallet
    signs is accepted.  The examples run two histories after which the wallet is wrong. *)

From stdpp Require Import prelude gmap strings list fin_maps.
From Stdlib Require Import Strings.Byte.
From S2P Require Import Prelude Bytes Crypto U256 Wire Transaction Block Utxo Script Sighash.
From S2P Require Import Journal Store Chain ChainTx ChainInv ChainReorg ChainProps.
From S2P Require Import ChainTheorems Wallet.

Local Open Scope Z_scope.
Local Open Scope list_scope.

Section tracking.
Context {crypto : CryptoLib}.
Implicit Types (W : gset (list byte)) (u : UtxoSet) (tx : Transaction) (st : Tracking).

(** ** One transaction *)

Lemma create_tracked_other W txid i outs st o :
  (∀ j output, outs !! j = Some output → is_watched W (script_pubkey output) = true →
     o ≠ output_outpoint txid (i + j)) →
  (create_tracked W txid i outs st).1 !! o = st.1 !! o.
Proof.
  revert i st. induction outs as [|output outs IH]; intros i [utxos undo] Ho; [done|].
  cbn [create_tracked]. rewrite IH.
  - destruct (is_watched W (script_pubkey output)) eqn:Hw; [|done].
    cbn [fst]. rewrite lookup_insert_ne; [done|]. intros <-.
    apply (Ho 0%nat output); [done|done|]. by rewrite Nat.add_0_r.
  - intros j output' Hj Hw. rewrite Nat.add_succ_comm. by apply (Ho (S j) output').
Qed.

Lemma create_tracked_watched W txid i outs st (j : nat) output :
  Z.of_nat (i + length outs) ≤ 2 ^ 32 →
  outs !! j = Some output → is_watched W (script_pubkey output) = true →
  (create_tracked W txid i outs st).1 !! output_outpoint txid (i + j) =
    Some (wallet_output (output_outpoint txid (i + j)) (output_entry output)).
Proof.
  revert i j st. induction outs as [|output1 outs IH]; intros i j [utxos undo] Hn Hj Hw; [done|].
  cbn [create_tracked]. simpl in Hn. destruct j as [|j].
  - injection Hj as ->. rewrite Hw, Nat.add_0_r, create_tracked_other.
    + cbn [fst]. by rewrite lookup_insert_eq.
    + intros k output' Hk _ Heq. apply lookup_lt_Some in Hk.
      apply (output_outpoint_inj txid i (S i + k) (i + S (length outs))) in Heq; lia.
  - rewrite <- Nat.add_succ_comm. apply IH; [lia|done..].
Qed.

(** What must hold for the wallet to follow a transaction: its outputs are new or replace
    equal ones, they have distinct 32-bit indices, and the null input of a coinbase names no
    output. *)
Definition trackable u tx : Prop :=
  (∀ o e e', created_map tx !! o = Some e → spend u tx !! o = Some e' → e' = e) ∧ zlen (tx_outputs tx) ≤ 2 ^ 32 ∧
  (is_coinbase tx = true → ∀ input, input ∈ tx_inputs tx → u !! input_outpoint input = None).

Lemma track_tx_owned W u st tx :
  trackable u tx → st.1 = owned W u → (track_tx W st tx).1 = owned W (utxo_step u tx).
Proof.
  intros (Hf&Hn&Hcb) Hst. apply map_eq. intros o. rewrite owned_lookup.
  unfold track_tx. set (st1 := foldl spend_tracked st (tx_inputs tx)).
  assert (st1.1 !! o = e ← spend u tx !! o;
    if is_watched W (ue_script_pubkey e) then Some (wallet_output o e) else None) as Hst1.
  { unfold st1. rewrite spend_tracked_fst, Hst, owned_lookup.
    destruct (spend u tx !! o) as [e|] eqn:Hs.
    - apply spend_lookup in Hs as [Hu Hns]. rewrite Hu. case_decide as Hin; [|done].
      exfalso. unfold spent_outpoints in Hns. destruct (is_coinbase tx) eqn:Hc; [|done].
      apply list_elem_of_fmap in Hin as (input&->&Hin). specialize (Hcb eq_refl input Hin).
      congruence.
    - case_decide as Hin; [done|]. destruct (u !! o) as [e|] eqn:Hu; [|done]. exfalso.
      assert (spend u tx !! o = Some e); [|congruence]. apply spend_lookup. split; [done|].
      unfold spent_outpoints. destruct (is_coinbase tx); [apply not_elem_of_nil|done]. }
  unfold utxo_step. destruct (created_map tx !! o) as [e|] eqn:Hc.
  - rewrite (lookup_union_Some_l _ _ _ _ Hc).
    pose proof Hc as (i&output&Hi&->&->)%created_map_lookup; [|done]. cbn [mbind option_bind].
    assert (is_watched W (ue_script_pubkey (output_entry output)) = false →
      st1.1 !! output_outpoint (tx_id tx) i = None) as Hold.
    { intros Hw. rewrite Hst1. destruct (spend u tx !! _) as [e'|] eqn:Hs; [|done].
      rewrite (Hf _ _ _ Hc Hs). cbn in *. by rewrite Hw. }
    clear Hst1. unfold zlen in Hn.
    destruct (is_watched W (ue_script_pubkey (output_entry output))) eqn:Hw; simpl in Hw.
    + exact (create_tracked_watched W (tx_id tx) 0 (tx_outputs tx) st1 i output Hn Hi Hw).
    + rewrite create_tracked_other; [by rewrite (Hold eq_refl)|]. intros j output' Hj Hw' Heq.
      pose proof (lookup_lt_Some _ _ _ Hi). pose proof (lookup_lt_Some _ _ _ Hj).
      apply (output_outpoint_inj _ i (0 + j) (length (tx_outputs tx))) in Heq; [|lia..].
      simpl in Heq. subst j. congruence.
  - rewrite lookup_union_r by done. rewrite create_tracked_other; [done|].
    intros j output Hj _ ->. apply lookup_lt_Some in Hj.
    by apply (proj1 (created_not_None tx _) Hc j).
Qed.

(** ** Blocks *)

Fixpoint trackable_all u (txs : list Transaction) : Prop :=
  match txs with
  | [] => True
  | tx :: txs => trackable u tx ∧ trackable_all (utxo_step u tx) txs
  end.

Lemma track_txs_owned W u st txs :
  trackable_all u txs → st.1 = owned W u →
  (foldl (track_tx W) st txs).1 = owned W (utxo_after u txs).
Proof.
  revert u st. induction txs as [|tx txs IH]; intros u st; [done|].
  intros [Ht Hts] Hst. cbn [foldl]. apply IH; [done|]. by apply track_tx_owned.
Qed.

Lemma trackable_all_app u txs1 txs2 :
  trackable_all u (txs1 ++ txs2) ↔ trackable_all u txs1 ∧ trackable_all (utxo_after u txs1) txs2.
Proof.
  revert u. induction txs1 as [|tx txs1 IH]; intros u; [naive_solver|].
  cbn [app trackable_all]. rewrite IH. unfold utxo_after. cbn [foldl]. tauto.
Qed.

(** Equal identifiers stand for equal outputs: no collision of the hash among [txs]. *)
Definition ids_determine_outputs (txs : list Transaction) : Prop :=
  Forall (λ tx1, Forall (λ tx2, tx_id tx1 = tx_id tx2 → tx_outputs tx1 = tx_outputs tx2) txs) txs.

Lemma utxo_after_created txs o e :
  utxo_after ∅ txs !! o = Some e → ∃ tx, tx ∈ txs ∧ created_map tx !! o = Some e.
Proof.
  induction txs as [|tx txs IH] using rev_ind; [cbn; by rewrite lookup_empty|].
  rewrite utxo_after_app. cbn. unfold utxo_step. intros Ho.
  apply lookup_union_Some_raw in Ho as [Ho|[_ [Ho _]%spend_lookup]].
  - exists tx. split; [|done]. apply elem_of_app. right. by apply list_elem_of_singleton.
  - destruct (IH Ho) as (tx'&Hin&?). exists tx'. split; [|done]. apply elem_of_app. by left.
Qed.

(** Transactions whose identifiers determine their outputs and are not zero can be followed
    from scratch. *)
Lemma ids_trackable txs1 txs2 :
  ids_determine_outputs (txs1 ++ txs2) →
  Forall (λ tx, tx_id tx ≠ zero32 ∧ zlen (tx_outputs tx) ≤ 2 ^ 32) (txs1 ++ txs2) →
  trackable_all (utxo_after ∅ txs1) txs2.
Proof.
  revert txs1. induction txs2 as [|tx txs2 IH]; intros txs1 Hnd Hall; [done|].
  cbn [trackable_all]. split.
  - pose proof Hall as [Hall1 [[_ Hn] _]%Forall_cons]%Forall_app. split_and!; [|done|].
    { intros o e e' Hc [Hu _]%spend_lookup. apply utxo_after_created in Hu as (tx'&Hin&Hc').
      assert (tx_id tx' = tx_id tx) as Hid.
      { assert (is_Some (created_map tx !! o)) as Hs by eauto. rewrite <- created_map_dom in Hs.
        assert (is_Some (created_map tx' !! o)) as Hs' by eauto. rewrite <- created_map_dom in Hs'.
        apply elem_of_lookup_imap in Hs as (?&?&->&_), Hs' as (?&?&[= ? _]&_). done. }
      enough (created_map tx' = created_map tx) as Heq by (rewrite Heq in Hc'; congruence).
      unfold ids_determine_outputs in Hnd. rewrite Forall_forall in Hnd.
      unfold created_map. rewrite Hid. do 3 f_equal.
      specialize (Hnd tx'). rewrite Forall_forall in Hnd. apply Hnd; [set_solver..|done]. }
    intros Hc input Hin. destruct (utxo_after ∅ txs1 !! input_outpoint input) as [e|] eqn:Hu; [|done].
    apply utxo_after_txid in Hu as [[? Hu]|Hu]; [by rewrite lookup_empty in Hu|]. exfalso.
    apply list_elem_of_fmap in Hu as (tx'&Heq&Htx'). rewrite Forall_forall in Hall1.
    destruct (Hall1 tx' Htx') as [Hz _]. apply Hz. rewrite <- Heq. simpl.
    unfold is_coinbase in Hc. destruct (tx_inputs tx) as [|i0 [|]]; try done.
    apply andb_prop in Hc as [Hc%bool_decide_eq_true _].
    apply list_elem_of_singleton in Hin as ->. done.
  - change (utxo_step (utxo_after ∅ txs1) tx) with (utxo_after (utxo_after ∅ txs1) [tx]).
    rewrite <- utxo_after_app. apply IH; by rewrite <- (assoc_L (++)).
Qed.

(** The events of a chain of blocks without disconnections, from height [h] on. *)
Fixpoint connect_events (h : Z) (bs : list Block) : list ChainEvent :=
  match bs with
  | [] => []
  | b :: bs => BlockConnected h (block_hash b) (zlen (transactions b)) :: connect_events (h + 1) bs
  end.

Lemma apply_connects_owned c l bs w u :
  blocks c = l ++ bs → wallet_utxos w = owned (watched w) u → trackable_all u (chain_txs bs) →
  ∃ w', apply_events (connect_events (zlen l) bs) c w = (Ok (), w') ∧ watched w' = watched w ∧
        wallet_utxos w' = owned (watched w) (utxo_after u (chain_txs bs)).
Proof.
  revert l w u. induction bs as [|b bs IH]; intros l w u Hb Hw Ht.
  { by exists w. }
  change (chain_txs (b :: bs)) with (transactions b ++ chain_txs bs) in *.
  apply trackable_all_app in Ht as [Ht1 Ht2]. rewrite utxo_after_app.
  cbn [connect_events]. unfold apply_events. cbn [sfor].
  assert (active_block_at c (zlen l) = Some b) as Hat.
  { unfold active_block_at. rewrite Hb. unfold zlen. rewrite Nat2Z.id.
    by apply list_lookup_middle. }
  destruct (track_block (watched w) (wallet_utxos w) b) as [utxos undo] eqn:Htr.
  assert (apply_event c (BlockConnected (zlen l) (block_hash b) (zlen (transactions b))) w =
    (Ok (), set_tracked utxos (<[block_hash b := undo]> (block_undo w)) w)) as He.
  { unfold apply_event. rewrite Hat. unfold sbind, slift, ok_or, smodify. by rewrite Htr. }
  rewrite (sbind_run _ _ _ _ _ He).
  assert (utxos = owned (watched w) (utxo_after u (transactions b))) as Hu.
  { pose proof (track_txs_owned (watched w) u (wallet_utxos w, {| wb_created := []; wb_removed := [] |})
      (transactions b) Ht1 Hw) as H. unfold track_block in Htr. by rewrite Htr in H. }
  destruct (IH (l ++ [b]) (set_tracked utxos (<[block_hash b := undo]> (block_undo w)) w)
    (utxo_after u (transactions b))) as (w'&Hrun&Hwd&Hut); [|done|done|].
  { by rewrite <- (assoc_L (++)). }
  exists w'. rewrite zlen_app in Hrun. by split_and!.
Qed.
End tracking.

(** ** Disconnecting a block *)

Section undo.
Context {crypto : CryptoLib}.
Context (utxos0 : gmap OutPoint WalletUtxo) (ids : list (list byte)).
Context (Hkeyed : tracked_keyed utxos0).
Context (Hnew : ∀ o, is_Some (utxos0 !! o) → op_txid o ∉ ids).

(** The tracked outputs and the record while a block with identifiers [ids] is processed. *)
Record undo_inv (st : Tracking) : Prop := {
  ui_removed : Forall (λ x, utxos0 !! wu_outpoint x = Some x) (wb_removed st.2);
  ui_created : Forall (λ o, op_txid o ∈ ids) (wb_created st.2);
  ui_old : ∀ o, op_txid o ∉ ids →
    st.1 !! o = if decide (o ∈ map wu_outpoint (wb_removed st.2)) then None else utxos0 !! o;
  ui_new : ∀ o, op_txid o ∈ ids → is_Some (st.1 !! o) → o ∈ wb_created st.2
}.

Lemma undo_inv_start : undo_inv (utxos0, {| wb_created := []; wb_removed := [] |}).
Proof.
  split; cbn [fst snd wb_removed wb_created map]; try by constructor.
  - intros o Ho Hs. by apply Hnew in Hs.
Qed.

Lemma undo_inv_spend st input :
  previous_output input ∉ ids → undo_inv st → undo_inv (spend_tracked st input).
Proof.
  intros Hin [Hr Hc Ho Hn]. destruct st as [utxos undo]. unfold spend_tracked.
  destruct (utxos !! input_outpoint input) as [x|] eqn:Hx; [|done]. cbn [fst snd] in *.
  pose proof (Ho (input_outpoint input) Hin) as Hlook. rewrite Hx in Hlook.
  case_decide as Hd; [done|]. symmetry in Hlook. pose proof (Hkeyed _ _ Hlook) as Hk. simpl in Hk.
  split; cbn [fst snd wb_removed wb_created].
  - apply Forall_app. split; [done|]. constructor; [|done]. by rewrite Hk.
  - done.
  - intros o Hoi. rewrite map_app. cbn [map]. rewrite Hk.
    destruct (decide (o = input_outpoint input)) as [->|Hne].
    + rewrite lookup_delete_eq, decide_True; [done|].
      apply elem_of_app. right. by apply list_elem_of_singleton.
    + rewrite lookup_delete_ne by done. rewrite (Ho o Hoi). apply decide_ext.
      rewrite elem_of_app, list_elem_of_singleton. naive_solver.
  - intros o Hoi [y Hy]. apply lookup_delete_Some in Hy as [_ Hy]. by apply Hn.
Qed.

Lemma undo_inv_create W txid i outs st :
  txid ∈ ids → undo_inv st → undo_inv (create_tracked W txid i outs st).
Proof.
  intros Hid. revert i st. induction outs as [|output outs IH]; intros i [utxos undo] Hi; [done|].
  cbn [create_tracked]. apply IH. destruct (is_watched W (script_pubkey output)); [|done].
  destruct Hi as [Hr Hc Ho Hn]. cbn [fst snd] in *.
  split; cbn [fst snd wb_removed wb_created].
  - done.
  - apply Forall_app. split; [done|]. by constructor.
  - intros o Hoi. rewrite lookup_insert_ne; [by apply Ho|]. by intros <-.
  - intros o Hoi Hs. rewrite elem_of_app, list_elem_of_singleton.
    destruct (decide (o = output_outpoint txid i)) as [->|Hne]; [by right|].
    rewrite lookup_insert_ne in Hs by done. left. by apply Hn.
Qed.

Lemma undo_inv_block W st txs :
  Forall (λ tx, tx_id tx ∈ ids ∧ Forall (λ i, previous_output i ∉ ids) (tx_inputs tx)) txs →
  undo_inv st → undo_inv (foldl (track_tx W) st txs).
Proof.
  intros Htxs. revert st. induction Htxs as [|tx txs [Hid Hins] _ IH]; intros st Hi; [done|].
  cbn [foldl]. apply IH. unfold track_tx. apply undo_inv_create; [done|].
  revert st Hi. induction Hins as [|i ins Hni _ IH2]; intros st Hi; [done|].
  cbn [foldl]. apply IH2. by apply undo_inv_spend.
Qed.

Lemma foldl_delete_lookup (u : gmap OutPoint WalletUtxo) os o :
  foldl (λ u outpoint, delete outpoint u) u os !! o = if decide (o ∈ os) then None else u !! o.
Proof.
  revert u. induction os as [|o1 os IH]; intros u; cbn [foldl].
  { rewrite decide_False; [done|apply not_elem_of_nil]. }
  rewrite IH. destruct (decide (o ∈ os)).
  { rewrite decide_True; [done|]. apply elem_of_cons. by right. }
  destruct (decide (o = o1)) as [->|].
  - rewrite decide_True by (apply elem_of_cons; by left). apply lookup_delete_eq.
  - rewrite decide_False by (rewrite elem_of_cons; naive_solver). by apply lookup_delete_ne.
Qed.

Lemma foldl_insert_lookup (u : gmap OutPoint WalletUtxo) xs o :
  Forall (λ x, utxos0 !! wu_outpoint x = Some x) xs →
  foldl (λ u utxo, <[wu_outpoint utxo := utxo]> u) u xs !! o =
    if decide (o ∈ map wu_outpoint xs) then utxos0 !! o else u !! o.
Proof.
  intros Hxs. revert u. induction Hxs as [|x xs Hx _ IH]; intros u; cbn [foldl map].
  { rewrite decide_False; [done|apply not_elem_of_nil]. }
  rewrite IH. destruct (decide (o ∈ map wu_outpoint xs)).
  { rewrite decide_True; [done|]. apply elem_of_cons. by right. }
  destruct (decide (o = wu_outpoint x)) as [->|].
  - rewrite decide_True by (apply elem_of_cons; by left). by rewrite lookup_insert_eq.
  - rewrite decide_False by (rewrite elem_of_cons; naive_solver). by apply lookup_insert_ne.
Qed.

Lemma untrack_restores st : undo_inv st → untrack st.2 st.1 = utxos0.
Proof.
  intros [Hr Hc Ho Hn]. apply map_eq. intros o. unfold untrack.
  rewrite foldl_insert_lookup by done. rewrite foldl_delete_lookup.
  destruct (decide (op_txid o ∈ ids)) as [Hid|Hid].
  - case_decide as Hd; [done|].
    assert (utxos0 !! o = None) as ->.
    { destruct (utxos0 !! o) eqn:Hu; [|done]. exfalso. by apply (Hnew o); [eexists|]. }
    case_decide as Hd2; [done|]. destruct (st.1 !! o) eqn:Hs; [|done]. exfalso.
    apply Hd2, Hn; [done|]. by eexists.
  - rewrite Ho by done. case_decide; [done|]. case_decide as Hd2; [|done].
    rewrite Forall_forall in Hc. by apply Hc in Hd2.
Qed.
End undo.

(** ** Signing *)

Section signing.
Context {crypto : CryptoLib} {laws : CryptoLaws crypto}.

(** A scriptSig is not part of what is signed. *)
Lemma sighash_set_script_sig tx i script j scripts :
  sighash_preimage (set_script_sig tx i script) j scripts = sighash_preimage tx j scripts.
Proof.
  rewrite !sighash_preimage_spec. f_equal. f_equal. unfold signed_view, set_script_sig.
  cbn [tx_version tx_inputs tx_outputs tx_lock_time]. f_equal. apply list_eq. intros k.
  rewrite !list_lookup_imap. destruct (decide (k = i)) as [->|Hne].
  - rewrite list_lookup_alter_eq. by destruct (tx_inputs tx !! i).
  - by rewrite list_lookup_alter_ne.
Qed.

Lemma sign_p2pkh_input_Ok i scripts key tx tx' :
  sign_p2pkh_input i scripts key tx = (Ok (), tx') ↔
  (i < length (tx_inputs tx))%nat ∧ length scripts = length (tx_inputs tx) ∧
  tx' = set_script_sig tx i (p2pkh_script_sig
    (sign_der_with_hashtype (inner key) (sha256d (sighash_preimage tx i scripts)) (zb SIGHASH_ALL))
    (public_key key)).
Proof.
  unfold sign_p2pkh_input, sighash_all, sbind, sget.
  destruct (Nat.leb_spec (length (tx_inputs tx)) i); [split; [done|lia]|].
  destruct (Nat.eqb_spec (length scripts) (length (tx_inputs tx))); simpl;
    [|by split; [|intros (_&?&_)]].
  unfold smodify. split; [intros [= <-]; by split_and!|by intros (_&_&->)].
Qed.

(** Signing every input in turn, with the key of each. *)
Fixpoint sign_all (i : nat) (scripts : list (list byte)) (keys : list PrivateKey)
    : SM Transaction WalletError unit :=
  match keys with
  | [] => sret ()
  | key :: keys => do! sign_p2pkh_input i scripts key ;; sign_all (S i) scripts keys
  end.

(** The scriptSig of input [j] unlocks its script, whatever the other scriptSigs are. *)
Definition unlocks (scripts : list (list byte)) (tx : Transaction) (j : nat) : Prop :=
  ∀ input script, tx_inputs tx !! j = Some input → scripts !! j = Some script →
    verify_script (script_sig input) script (sha256d (sighash_preimage tx j scripts)) = Ok ().

Lemma sign_unlocks i scripts key tx tx' :
  sign_p2pkh_input i scripts key tx = (Ok (), tx') →
  scripts !! i = Some (p2pkh_script_pubkey (key_pubkey_hash key)) →
  unlocks scripts tx' i ∧ (∀ j, j ≠ i → unlocks scripts tx j → unlocks scripts tx' j) ∧
  length (tx_inputs tx') = length (tx_inputs tx).
Proof.
  intros (Hi&Hl&->)%sign_p2pkh_input_Ok Hs. split_and!.
  - intros input script Hin Hs'. rewrite Hs in Hs'. injection Hs' as <-.
    rewrite sighash_set_script_sig. cbn [set_script_sig tx_inputs] in Hin.
    rewrite list_lookup_alter_eq in Hin. apply fmap_Some in Hin as (y&_&->).
    exact (sign_verifies (inner key) _ (zb SIGHASH_ALL)).
  - intros j Hj Hu input script Hin Hs'. rewrite sighash_set_script_sig.
    cbn [set_script_sig tx_inputs] in Hin. rewrite list_lookup_alter_ne in Hin by done.
    by apply Hu.
  - cbn [set_script_sig tx_inputs]. apply length_alter.
Qed.

Lemma sign_all_unlocks i scripts keys tx :
  length scripts = length (tx_inputs tx) → (i + length keys ≤ length scripts)%nat →
  (∀ (k : nat) key, keys !! k = Some key →
     scripts !! (i + k)%nat = Some (p2pkh_script_pubkey (key_pubkey_hash key))) →
  (∀ j, (j < i)%nat → unlocks scripts tx j) →
  ∃ tx', sign_all i scripts keys tx = (Ok (), tx') ∧
    length (tx_inputs tx') = length (tx_inputs tx) ∧
    ∀ j, (j < i + length keys)%nat → unlocks scripts tx' j.
Proof.
  revert i tx. induction keys as [|key keys IH]; intros i tx Hl Hk Hs Hu.
  { exists tx. split_and!; [done|done|]. intros j Hj. apply Hu. simpl in Hj. lia. }
  simpl in Hk. cbn [sign_all].
  assert (∃ tx1, sign_p2pkh_input i scripts key tx = (Ok (), tx1)) as (tx1&H1).
  { eexists. apply sign_p2pkh_input_Ok. split_and!; [lia|done|reflexivity]. }
  destruct (sign_unlocks _ _ _ _ _ H1) as (Hnew&Hold&Hlen).
  { rewrite <- (Nat.add_0_r i). by apply (Hs 0%nat). }
  destruct (IH (S i) tx1) as (tx'&Hrun&Hlen'&Hall).
  - by rewrite Hlen.
  - lia.
  - intros k key' Hk'. rewrite Nat.add_succ_comm. by apply (Hs (S k)).
  - intros j Hj. destruct (decide (j = i)) as [->|Hne]; [done|]. apply Hold; [done|]. apply Hu. lia.
  - exists tx'. rewrite (sbind_run _ _ _ _ _ H1). split_and!; [done|by rewrite Hlen'|].
    intros j Hj. apply Hall. simpl in Hj. lia.
Qed.
End signing.

(** ** Properties *)

Section properties.
Context {crypto : CryptoLib} {order : HashOrder} {flags : BuildFlags}.

(** C32 (refinement): a wallet that tracks nothing yet and reads the connection events of the
    active blocks of a reachable chain tracks exactly the watched part of the set that
    replaying these blocks leaves: every unspent output paid to a watched key hash, with its
    value and script, and nothing else.  It contains the watched part of the chain's UTXO
    set, and is equal to it if no branch of the chain contains two transactions with one
    identifier (the code does not check this, and the chain then loses outputs).  The active
    transactions have at most 2^32 outputs and identifiers that are not zero (a zero
    identifier would make a coinbase's null input name an output), and equal identifiers
    stand for equal outputs. *)
Theorem wallet_tracks_chain (gen : Block) (c : Chain) (w : Wallet) :
  reachable gen c →
  Forall (λ tx, tx_id tx ≠ zero32 ∧ zlen (tx_outputs tx) ≤ 2 ^ 32) (chain_txs (blocks c)) →
  ids_determine_outputs (chain_txs (blocks c)) → wallet_utxos w = ∅ →
  ∃ w', apply_events (connect_events 0 (blocks c)) c w = (Ok (), w') ∧ watched w' = watched w ∧
    wallet_utxos w' = owned (watched w) (utxo_after ∅ (chain_txs (blocks c))) ∧
    owned (watched w) (utxo c) ⊆ wallet_utxos w' ∧
    (txids_distinct (block_hash gen) (known c) → wallet_utxos w' = owned (watched w) (utxo c)).
Proof.
  intros [[Hcore _ _] _]%reachable_good Hids Hdet Hw.
  destruct (cc_below _ _ Hcore) as [Hle _].
  destruct (apply_connects_owned c [] (blocks c) w ∅) as (w'&Hrun&Hwd&Hutxos); [done| | |].
  - by rewrite Hw, owned_empty.
  - by apply (ids_trackable []).
  - exists w'. rewrite Hutxos. split_and!; [done..|by apply owned_mono|].
    intros Hd. by destruct (cc_utxo _ _ Hcore Hd) as [-> _].
Qed.

(** A disconnection undoes the connection of the same block, as seen by the
    wallet: the tracked outputs are again what they were, for any block whose transactions
    are new to the wallet and do not spend one another. *)
Theorem wallet_disconnect_restores (b : Block) (c1 c2 : Chain) (h h' n : Z) (w w1 : Wallet) :
  tracked_keyed (wallet_utxos w) →
  (∀ o, is_Some (wallet_utxos w !! o) → op_txid o ∉ map tx_id (transactions b)) →
  Forall (λ tx, Forall (λ i, previous_output i ∉ map tx_id (transactions b)) (tx_inputs tx))
    (transactions b) →
  active_block_at c1 h = Some b →
  apply_events [BlockConnected h (block_hash b) n] c1 w = (Ok (), w1) →
  ∃ w2, apply_events [BlockDisconnected h' (block_hash b)] c2 w1 = (Ok (), w2) ∧
    wallet_utxos w2 = wallet_utxos w ∧ watched w2 = watched w ∧
    block_undo w2 = delete (block_hash b) (block_undo w).
Proof.
  intros Hk Hnew Hins Hat Hrun.
  unfold apply_events, sfor, apply_event, sbind, slift, smodify, sret in *. rewrite Hat in Hrun.
  cbn [ok_or] in Hrun. unfold track_block in Hrun.
  set (st := foldl _ _ (transactions b)) in Hrun.
  assert (undo_inv (wallet_utxos w) (map tx_id (transactions b)) st) as Hinv.
  { apply undo_inv_block; [done|..|by apply undo_inv_start].
    apply Forall_forall. intros tx Htx. rewrite Forall_forall in Hins. split; [|by apply Hins].
    apply list_elem_of_fmap. by exists tx. }
  pose proof (untrack_restores _ _ Hnew st Hinv) as Hrestore.
  destruct st as [utxos undo]. injection Hrun as <-. eexists. split; [done|].
  cbn [set_tracked block_undo wallet_utxos watched]. rewrite lookup_insert_eq.
  cbn [set_tracked block_undo wallet_utxos watched]. split_and!; [done|done|].
  by rewrite delete_insert_eq.
Qed.

(** C35 (functional): what the wallet signs the chain and the pool accept: signing every input
    of a transaction with the key of the P2PKH output it spends succeeds, and the result
    passes the verification of its inputs; signing one input never invalidates another. *)
Theorem signed_transaction_is_accepted {laws : CryptoLaws crypto} {E : Type}
    (from_sighash : SighashError → E) (invalid_script : E) (tx : Transaction)
    (keys : list PrivateKey) :
  length keys = length (tx_inputs tx) →
  let scripts := map (λ key, p2pkh_script_pubkey (key_pubkey_hash key)) keys in
  ∃ tx', sign_all 0 scripts keys tx = (Ok (), tx') ∧
    verify_inputs from_sighash invalid_script tx' scripts = Ok ().
Proof.
  intros Hlen scripts. assert (length scripts = length keys) as Hls by apply length_map.
  destruct (sign_all_unlocks 0 scripts keys tx) as (tx'&Hrun&Hl'&Hall).
  - by rewrite Hls.
  - by rewrite Hls.
  - intros k key Hk. change (0 + k)%nat with k. unfold scripts. change (map ?f keys) with (f <$> keys).
    by rewrite list_lookup_fmap, Hk.
  - intros j Hj. lia.
  - exists tx'. split; [done|]. assert (length scripts = length (tx_inputs tx')) as Hl2
      by (by rewrite Hls, Hl').
    apply verify_inputs_Ok; [done|]. split; [done|]. intros i input script Hi Hs _.
    apply (Hall i); [|done..]. apply lookup_lt_Some in Hi. rewrite Hl', <- Hlen in Hi. done.
Qed.
End properties.
