(* ===== verification/WalletExamples.v ===== *)
(** * The wallet on concrete chains

    Witnesses of the wallet's properties, and three histories after which the wallet does not
    agree with the chain it followed. *)

From stdpp Require Import prelude gmap strings list sorting fin_maps.
From Stdlib Require Import Strings.Byte.
From S2P Require Import Prelude Bytes Crypto U256 Wire Transaction Merkle Block Utxo Script.
From S2P Require Import Sighash Journal Store Chain ChainTx ChainInv ChainReorg ChainProps.
From S2P Require Import ChainTheorems ChainExamples Wallet WalletTheorems.

Local Open Scope Z_scope.
Local Open Scope list_scope.

#[local] Existing Instance toy_crypto.
#[local] Existing Instance canonical_order.
#[local] Existing Instance ex_flags.

(** ** Witnesses *)

Definition wx_wallet : Wallet :=
  watch_address (address_p2pkh (hash160 ex_pubkey) AddrTestnet) new_wallet.

Lemma ex_c1_distinct : txids_distinct (block_hash ex_genesis) (known ex_c1).
Proof.
  intros h l. revert h l.
  refine (branches_check (λ l, NoDup (map tx_id (chain_txs l))) (block_hash ex_genesis)
    (known ex_c1) (ex_keyed _ ex_c1_reachable) _).
  vm_compute. reflexivity.
Qed.

Lemma ex_c1_ids : Forall (λ tx, tx_id tx ≠ zero32 ∧ zlen (tx_outputs tx) ≤ 2 ^ 32)
  (chain_txs (blocks ex_c1)).
Proof. apply (bool_decide_unpack _). vm_compute. exact I. Qed.

Lemma ex_c1_determined : ids_determine_outputs (chain_txs (blocks ex_c1)).
Proof. apply (bool_decide_unpack _). vm_compute. exact I. Qed.

(** The wallet follows a block that pays it. *)
Lemma wallet_tracks_chain_witness :
  ∃ w', apply_events (connect_events 0 (blocks ex_c1)) ex_c1 wx_wallet = (Ok (), w') ∧
    watched w' = watched wx_wallet ∧ wallet_utxos w' = owned (watched wx_wallet) (utxo ex_c1).
Proof.
  destruct (wallet_tracks_chain ex_genesis ex_c1 wx_wallet ex_c1_reachable ex_c1_ids
    ex_c1_determined eq_refl) as (w'&Hrun&Hwatched&_&_&Hutxos).
  exists w'. split; [exact Hrun|]. split; [exact Hwatched|exact (Hutxos ex_c1_distinct)].
Defined.

Example wx_tracks_one_output :
  map_to_list (owned (watched wx_wallet) (utxo ex_c1)) =
    [({| op_txid := tx_id ex_spend1; op_index := 0 |},
      {| wu_outpoint := {| op_txid := tx_id ex_spend1; op_index := 0 |};
         wu_value := 30; wu_script_pubkey := ex_lock |})].
Proof. vm_compute. reflexivity. Qed.

(** A chain for the wallet to look blocks up in. *)
Definition bare_chain (bs : list Block) : Chain := set_blocks bs ex_empty.
Definition wx_connect (b : Block) : ChainEvent := BlockConnected 0 (block_hash b) 1.
Definition wx_disconnect (b : Block) : ChainEvent := BlockDisconnected 0 (block_hash b).

(** A coin of the wallet, and the block that spends it. *)
Definition wx_coin : OutPoint := {| op_txid := tx_id ex_spend1; op_index := 0 |}.
Definition wx_coins : gmap OutPoint WalletUtxo :=
  {[wx_coin := wallet_output wx_coin {| ue_value := 30; ue_script_pubkey := ex_lock |}]}.
Definition wx_with_coin : Wallet := set_tracked wx_coins ∅ wx_wallet.
Definition wx_spent : Wallet := (apply_events [wx_connect ex_b2] (bare_chain [ex_b2]) wx_with_coin).2.

Lemma wallet_disconnect_restores_witness :
  ∃ w2, apply_events [wx_disconnect ex_b2] (bare_chain []) wx_spent = (Ok (), w2) ∧
    wallet_utxos w2 = wallet_utxos wx_with_coin ∧ watched w2 = watched wx_with_coin ∧
    block_undo w2 = delete (block_hash ex_b2) (block_undo wx_with_coin).
Proof.
  apply (wallet_disconnect_restores ex_b2 (bare_chain [ex_b2]) (bare_chain []) 0 0 1 wx_with_coin
    wx_spent).
  - intros o x Hx. change (wx_coins !! o = Some x) in Hx. unfold wx_coins in Hx.
    apply lookup_singleton_Some in Hx as [<- <-]. reflexivity.
  - intros o [x Hx]. change (wx_coins !! o = Some x) in Hx. unfold wx_coins in Hx.
    apply lookup_singleton_Some in Hx as [<- _]. apply (bool_decide_unpack _). vm_compute. exact I.
  - apply (bool_decide_unpack _). vm_compute. exact I.
  - reflexivity.
  - reflexivity.
Defined.

Definition wx_key : PrivateKey := {| inner := 5 : SecretKey |}.
Lemma signed_transaction_is_accepted_witness :
  ∃ tx', sign_all 0 [p2pkh_script_pubkey (key_pubkey_hash wx_key)] [wx_key] (ex_spend2_with []) =
      (Ok (), tx') ∧
    verify_inputs ErrSighash InvalidScript tx' [p2pkh_script_pubkey (key_pubkey_hash wx_key)] = Ok ().
Proof.
  exact (signed_transaction_is_accepted (laws := toy_laws) ErrSighash InvalidScript
    (ex_spend2_with []) [wx_key] eq_refl).
Defined.

(** ** Findings *)

(** A block that pays the wallet and spends that output again.  After the block is
    disconnected the wallet, which was empty, holds the output of a transaction that is no
    longer in the chain: the undo record re-inserts it. *)
Definition wx_pay : Transaction := {|
  tx_version := 1;
  tx_inputs := [{| previous_output := zero32; txin_index := 3; script_sig := [];
                   txin_sequence := U32_MAX |}];
  tx_outputs := [{| txout_value := 9; script_pubkey := ex_lock |}];
  tx_lock_time := 0 |}.
Definition wx_respend : Transaction := {|
  tx_version := 1;
  tx_inputs := [{| previous_output := tx_id wx_pay; txin_index := 0; script_sig := [];
                   txin_sequence := U32_MAX |}];
  tx_outputs := []; tx_lock_time := 0 |}.
Definition wx_chained : Block := {| header := ex_header zero32 0; transactions := [wx_pay; wx_respend] |}.
Definition wx_after_chained : Wallet :=
  ((do! apply_events [wx_connect wx_chained] (bare_chain [wx_chained]) ;;
   apply_events [wx_disconnect wx_chained] (bare_chain []) : SM Wallet WalletError ()) wx_wallet).2.

Definition wx_phantom : OutPoint := {| op_txid := tx_id wx_pay; op_index := 0 |}.
Example disconnect_resurrects_spent_output :
  map_to_list (wallet_utxos
    (apply_events [wx_connect wx_chained] (bare_chain [wx_chained]) wx_wallet).2) = [] ∧
  wu_value <$> wallet_utxos wx_after_chained !! wx_phantom = Some 9.
Proof. split; vm_compute; reflexivity. Qed.

(** A batch with a reorganization at one height: the first event names a block that is no
    longer active, and the wallet reads the block now at that height instead.  When that
    block is connected by the last event its undo record is overwritten by an empty one, so
    that disconnecting it later loses the wallet's coin. *)
Definition wx_lost : Wallet :=
  ((do! apply_events [wx_connect ex_b1; wx_disconnect ex_b1; wx_connect ex_b2] (bare_chain [ex_b2]) ;;
    apply_events [wx_disconnect ex_b2] (bare_chain []) : SM Wallet WalletError ()) wx_with_coin).2.
Example reorganization_batch_loses_coin :
  wu_value <$> wallet_utxos wx_with_coin !! wx_coin = Some 30 ∧
  map_to_list (wallet_utxos wx_lost) = [].
Proof. split; vm_compute; reflexivity. Qed.

(** The balance is a [u64] sum and wraps. *)
Definition wx_rich : Wallet := set_tracked
  (list_to_map (map (λ i, ({| op_txid := zero32; op_index := i |},
    wallet_output {| op_txid := zero32; op_index := i |}
      {| ue_value := 2 ^ 63; ue_script_pubkey := ex_lock |})) [0; 1])) ∅ new_wallet.
Example balance_wraps : balance wx_rich = 0.
Proof. vm_compute. reflexivity. Qed.
