(* ===== verification/Miner.v ===== *)
(** * The nonce search (bitrst-miner/src/pow.rs)

    [mine] is the [for] loop over the number of attempts; the header it is given is changed in
    place.  The bound of ten million attempts is the fuel of the loop in the source. *)

From stdpp Require Import prelude strings list.
From Stdlib Require Import Strings.Byte.
From S2P Require Import Prelude Bytes Crypto U256 Pow Wire Transaction Merkle Block.

Local Open Scope Z_scope.

Definition MAX_NONCE_ATTEMPTS : Z := 10000000.

Inductive MineError := AttemptsExceeded.

Definition set_nonce (nonce : Z) (h : BlockHeader) : BlockHeader := {|
  hdr_version := hdr_version h; prev_blockhash := prev_blockhash h;
  hdr_merkle_root := hdr_merkle_root h; hdr_time := hdr_time h; hdr_bits := hdr_bits h;
  hdr_nonce := nonce |}.

Section mining.
Context {crypto : CryptoLib}.

Fixpoint mine_loop (attempts : nat) (target : Target) : SM BlockHeader MineError (list byte) := λ h,
  match attempts with
  | O => (Err AttemptsExceeded, h)
  | S attempts =>
      let hash := header_hash h in
      if meets target hash then (Ok hash, h)
      else mine_loop attempts target (set_nonce (u32_wrapping_add (hdr_nonce h) 1) h)
  end.
Definition mine (target : Target) : SM BlockHeader MineError (list byte) :=
  mine_loop (Z.to_nat MAX_NONCE_ATTEMPTS) target.

Definition mine_with_header_bits : SM BlockHeader MineError (option (list byte)) := λ h,
  match from_bits (hdr_bits h) with
  | None => (Ok None, h)
  | Some target => sbind (mine target) (λ hash, sret (Some hash)) h
  end.

(** ** Specification *)

(** The header of attempt number [k]. *)
Definition attempt (h : BlockHeader) (k : Z) : BlockHeader :=
  set_nonce ((hdr_nonce h + k) mod 2 ^ 32) h.
Definition succeeds (target : Target) (h : BlockHeader) (k : Z) : Prop :=
  meets target (header_hash (attempt h k)) = true.

Lemma attempt_0 h : in_u 32 (hdr_nonce h) → attempt h 0 = h.
Proof. intros Hn. unfold attempt. rewrite Z.add_0_r, Z.mod_small by done. by destruct h. Qed.

Lemma attempt_succ h k :
  attempt (set_nonce (u32_wrapping_add (hdr_nonce h) 1) h) k = attempt h (1 + k).
Proof.
  unfold attempt, set_nonce, u32_wrapping_add. cbn. f_equal.
  rewrite Z.add_mod_idemp_l by done. f_equal. lia.
Qed.

Lemma succeeds_succ target h h1 k :
  attempt h1 k = attempt h (1 + k) → succeeds target h1 k → succeeds target h (1 + k).
Proof. unfold succeeds. intros ->. exact id. Qed.

Lemma none_before_succ target h h1 n :
  (∀ j, attempt h1 j = attempt h (1 + j)) → ¬ succeeds target h 0 →
  (∀ j, 0 ≤ j < n → ¬ succeeds target h1 j) →
  ∀ j, 0 ≤ j < 1 + n → ¬ succeeds target h j.
Proof.
  intros Hnext H0 Hnone j Hj. destruct (Z.eq_dec j 0) as [->|Hj0]; [exact H0|].
  specialize (Hnone (j - 1) ltac:(lia)). unfold succeeds in *. rewrite Hnext in Hnone.
  replace (1 + (j - 1)) with j in Hnone by lia. exact Hnone.
Qed.

Lemma mine_loop_spec n target h :
  in_u 32 (hdr_nonce h) →
  match mine_loop n target h with
  | (Ok hash, h') => ∃ k, 0 ≤ k < Z.of_nat n ∧ h' = attempt h k ∧ hash = header_hash h' ∧
      succeeds target h k ∧ ∀ j, 0 ≤ j < k → ¬ succeeds target h j
  | (Err _, h') => h' = attempt h (Z.of_nat n) ∧ ∀ j, 0 ≤ j < Z.of_nat n → ¬ succeeds target h j
  | (Panic, _) => False
  end.
Proof.
  revert h. induction n as [|n IH]; intros h Hn; cbn [mine_loop].
  { split; [by rewrite attempt_0|]. lia. }
  destruct (meets target (header_hash h)) eqn:Hm.
  { exists 0. rewrite attempt_0 by done. unfold succeeds. rewrite attempt_0 by done.
    split; [lia|]. split; [done|]. split; [done|]. split; [exact Hm|]. lia. }
  assert (in_u 32 (hdr_nonce (set_nonce (u32_wrapping_add (hdr_nonce h) 1) h))) as Hn1
    by (apply Z.mod_pos_bound; done).
  pose proof (attempt_succ h) as Hnext.
  assert (¬ succeeds target h 0) as H0.
  { unfold succeeds. rewrite attempt_0 by done. rewrite Hm. discriminate. }
  specialize (IH _ Hn1). revert Hnext IH.
  generalize (set_nonce (u32_wrapping_add (hdr_nonce h) 1) h) as h1. intros h1 Hnext IH.
  destruct (mine_loop n target h1) as [[hash|e|] h']; [| |exact IH].
  - destruct IH as (k&Hk&Hh&Hhash&Hs&Hleast). exists (1 + k).
    split; [lia|]. split; [rewrite <- Hnext; exact Hh|]. split; [exact Hhash|].
    split; [exact (succeeds_succ target h h1 k (Hnext k) Hs)|].
    apply (none_before_succ target h h1); [exact Hnext|exact H0|exact Hleast].
  - destruct IH as [Hh Hnone]. rewrite Nat2Z.inj_succ, <- Z.add_1_l. split.
    + rewrite <- Hnext. exact Hh.
    + apply (none_before_succ target h h1); [exact Hnext|exact H0|exact Hnone].
Qed.
End mining.

(** ** Properties *)

(** Mining ends and is exact: with a valid compact target it returns the
    hash of the first header, counting the nonce up and around from the given one, that
    meets the target of its own bits (so the block passes the chain's proof-of-work check),
    or fails after ten million attempts none of which meets it; only the nonce changes.
    Bits that do not decode are reported without trying. *)
Theorem mining_is_first_solution {crypto : CryptoLib} (h : BlockHeader) :
  in_u 32 (hdr_nonce h) →
  match from_bits (hdr_bits h) with
  | None => mine_with_header_bits h = (Ok None, h)
  | Some target =>
      (∃ k, 0 ≤ k < 10000000 ∧ succeeds target h k ∧ (∀ j, 0 ≤ j < k → ¬ succeeds target h j) ∧
         mine_with_header_bits h = (Ok (Some (header_hash (attempt h k))), attempt h k) ∧
         from_bits (hdr_bits (attempt h k)) = Some target ∧
         meets target (header_hash (attempt h k)) = true) ∨
      ((∀ j, 0 ≤ j < 10000000 → ¬ succeeds target h j) ∧
       mine_with_header_bits h = (Err AttemptsExceeded, attempt h 10000000))
  end.
Proof.
  intros Hn. unfold mine_with_header_bits. destruct (from_bits (hdr_bits h)) as [target|] eqn:Hb; [|done].
  pose proof (mine_loop_spec (Z.to_nat MAX_NONCE_ATTEMPTS) target h Hn) as H.
  rewrite Z2Nat.id in H by done. unfold mine, sbind.
  destruct (mine_loop (Z.to_nat MAX_NONCE_ATTEMPTS) target h) as [[hash|[]|] h']; [| |done].
  - destruct H as (k&Hk&->&->&Hs&Hleast). left. exists k.
    split; [exact Hk|]. split; [exact Hs|]. split; [exact Hleast|]. split; [reflexivity|].
    split; [exact Hb|exact Hs].
  - destruct H as [-> Hnone]. right. split; [exact Hnone|reflexivity].
Qed.

(** The first six hashes of this header are too large; the nonce wraps around. *)
Definition sample_header : BlockHeader := {|
  hdr_version := 1; prev_blockhash := replicate 32 x00; hdr_merkle_root := replicate 32 x00;
  hdr_time := 7; hdr_bits := 0x041fffff; hdr_nonce := 0xffffffff |}.
Definition sample_target : Target := default (from_threshold []) (from_bits 0x041fffff).

Example sample_header_mined :
  hdr_nonce (mine_loop (crypto := toy_crypto) 7 sample_target sample_header).2 = 5.
Proof. vm_compute. reflexivity. Qed.

Example sample_header_not_mined :
  (mine_loop (crypto := toy_crypto) 6 sample_target sample_header).1 = Err AttemptsExceeded.
Proof. vm_compute. reflexivity. Qed.

Lemma mining_is_first_solution_witness :
  in_u 32 (hdr_nonce sample_header) ∧ from_bits (hdr_bits sample_header) = Some sample_target ∧
  ∃ k, mine_with_header_bits (crypto := toy_crypto) sample_header =
    (Ok (Some (header_hash (crypto := toy_crypto) (attempt sample_header k))), attempt sample_header k).
Proof.
  assert (in_u 32 (hdr_nonce sample_header)) as Hn by (by split).
  assert (from_bits (hdr_bits sample_header) = Some sample_target) as Hb by (vm_compute; reflexivity).
  assert (succeeds (crypto := toy_crypto) sample_target sample_header 6) as H6 by (vm_compute; reflexivity).
  split; [exact Hn|]. split; [exact Hb|].
  pose proof (mining_is_first_solution (crypto := toy_crypto) sample_header Hn) as H.
  rewrite Hb in H. destruct H as [(k&_&_&_&Hrun&_)|[Hnone _]]; [exists k; exact Hrun|].
  destruct (Hnone 6 ltac:(lia) H6).
Defined.
