(* ===== verification/Cli.v ===== *)
(** * The command line: the chain of a command, [mine] and [tip] (src/cli)

    args.rs, error.rs, chain.rs, mine.rs and tip.rs.  Every command builds a chain of its own
    in memory, whose genesis block it mines, and writes lines to its output, which may fail
    at any line.  [clock] is the system's time in seconds, when it can be read. *)

From stdpp Require Import prelude gmap strings list pretty.
From Stdlib Require Import Strings.Byte.
From S2P Require Import Prelude Bytes Crypto U256 Pow Wire Transaction Merkle Block Utxo Script.
From S2P Require Import Sighash Journal Store DiskStore Chain Handles Message Wallet Miner.

Local Open Scope Z_scope.
Local Open Scope list_scope.

(** ** Errors (error.rs) *)

(** What an [InvalidInput] complains about, for the text it carries. *)
Inductive InputProblem :=
| CountIsZero
| InvalidCompactBits (bits : Z)
| UnexpectedResult (height : Z) (result : ConnectResult)
| NoMerkleRoot
| KeyNotHex
| KeyNot32Bytes
| NoPrivateKey.

(** [Clap] wraps an error of the argument parser. *)
Inductive CliError :=
| CliInvalidNetworkTime
| SystemTimeUnavailable
| Clap
| CliChain (e : ChainError)
| CliMine (e : MineError)
| CliWallet (e : WalletError)
| CliNet (e : NetError)
| InvalidInput (problem : InputProblem)
| InvalidAddress
| AddressNetworkMismatch (expected : list byte)
| CliIo (message : list byte).

(** ** Arguments (args.rs) *)

Inductive NetworkArg := ArgMainnet | ArgTestnet.

Definition wallet_network (n : NetworkArg) : AddressNetwork :=
  match n with ArgMainnet => AddrMainnet | ArgTestnet => AddrTestnet end.
Definition p2p_network (n : NetworkArg) : Network :=
  match n with ArgMainnet => Mainnet | ArgTestnet => Testnet end.
Definition label (n : NetworkArg) : list byte :=
  match n with ArgMainnet => str "mainnet" | ArgTestnet => str "testnet" end.
Definition arg_p2pkh_version (n : NetworkArg) : byte :=
  match n with ArgMainnet => x00 | ArgTestnet => x6f end.

Definition current_unix_time (clock : option Z) : Result CliError Z :=
  match clock with
  | Some seconds => Ok (Z.min seconds U32_MAX)
  | None => Err SystemTimeUnavailable
  end.
Definition resolve_network_time (explicit clock : option Z) : Result CliError Z :=
  match explicit with
  | Some 0 => Err CliInvalidNetworkTime
  | Some value => Ok value
  | None => current_unix_time clock
  end.

(** ** The output of a command *)

(** The text written, and the line at which writing fails, with the error's text. *)
Record Out := { o_text : list byte; o_fault : option (nat * list byte) }.

(** [writeln!(out, ..)?] *)
Definition write_line (line : list byte) : SM Out CliError unit := λ o,
  match o_fault o with
  | Some (O, message) => (Err (CliIo message), o)
  | Some (S n, message) =>
      (Ok (), {| o_text := o_text o ++ line ++ [x0a]; o_fault := Some (n, message) |})
  | None => (Ok (), {| o_text := o_text o ++ line ++ [x0a]; o_fault := None |})
  end.
Definition decimal (n : Z) : list byte := str (pretty (Z.to_N n)).

(** ** The chain of a command (chain.rs) *)

Definition GENESIS_TIME : Z := 1231006505.
Definition DEFAULT_BITS : Z := 0x1f00ffff.
Definition DEFAULT_COINBASE_VALUE : Z := 5000000000.
Definition EPHEMERAL_NOTICE : list byte :=
  str "(ephemeral in-memory chain — changes are not persisted to disk)".

Section cli.
Context {crypto : CryptoLib} {order : HashOrder} {flags : BuildFlags} {hex : HexLib}.

Definition target_of_bits (bits : Z) : Result CliError Target :=
  ok_or (from_bits bits) (InvalidInput (InvalidCompactBits bits)).

Definition mine_header (bits : Z) : SM BlockHeader CliError unit :=
  let! target := slift (target_of_bits bits) in
  do! smap_err CliMine (mine target) ;;
  sret ().

(** The loop of [mine_header_bounded]; [attempts] counts down. *)
Fixpoint bounded_loop (attempts : nat) (target : Target) : SM BlockHeader CliError unit := λ h,
  match attempts with
  | O => (Err (CliMine AttemptsExceeded), h)
  | S attempts =>
      if meets target (header_hash h) then (Ok (), h)
      else bounded_loop attempts target (set_nonce (u32_wrapping_add (hdr_nonce h) 1) h)
  end.
Definition mine_header_bounded (bits max_attempts : Z) : SM BlockHeader CliError unit :=
  let! target := slift (target_of_bits bits) in
  bounded_loop (Z.to_nat (Z.min max_attempts MAX_NONCE_ATTEMPTS)) target.

(** With the full number of attempts the bounded search is the other one. *)
Lemma bounded_loop_mine n target h :
  bounded_loop n target h = (do! smap_err CliMine (mine_loop n target) ;; sret ()) h.
Proof.
  revert h. unfold sbind, smap_err. induction n as [|n IH]; intros h; [done|].
  cbn [bounded_loop mine_loop]. destruct (meets target (header_hash h)); [done|]. apply IH.
Qed.
Lemma mine_header_bounded_all bits max_attempts h :
  MAX_NONCE_ATTEMPTS ≤ max_attempts → mine_header_bounded bits max_attempts h = mine_header bits h.
Proof.
  intros Hmax. unfold mine_header_bounded, mine_header, mine, sbind at 1 2, slift.
  destruct (target_of_bits bits) as [target|e|]; [|done..]. rewrite Z.min_r by done.
  apply bounded_loop_mine.
Qed.

(** [mine_header(&mut block.header, bits)?] *)
Definition mine_block (bits : Z) (block : Block) : Result CliError Block :=
  match mine_header bits (header block) with
  | (Ok _, h) => Ok {| header := h; transactions := transactions block |}
  | (Err e, _) => Err e
  | (Panic, _) => Panic
  end.

Definition mined_genesis (bits : Z) : Result CliError Block :=
  let header := {| hdr_version := 1; prev_blockhash := zero32; hdr_merkle_root := zero32;
                   hdr_time := GENESIS_TIME; hdr_bits := bits; hdr_nonce := 0 |} in
  mine_block bits (coinbase_block header 0 DEFAULT_COINBASE_VALUE).

Definition ephemeral_chain (network_time bits : Z) : Result CliError ChainHandle :=
  let? genesis := mined_genesis bits in
  let? handle := map_err CliChain (handle_new_genesis genesis network_time) in
  let '(r, handle) := handle_take_events handle in
  check? map_err CliChain r ;;
  Ok handle.

(** ** [bitrst tip] (tip.rs) *)

Definition run_tip (network_time clock : option Z) : SM Out CliError unit :=
  let! network_time := slift (resolve_network_time network_time clock) in
  let! handle := slift (ephemeral_chain network_time DEFAULT_BITS) in
  let! tip := slift (map_err CliChain (handle_tip_hash handle)) in
  do! write_line (encode_hex tip) ;;
  do! write_line EPHEMERAL_NOTICE ;;
  sret ().

(** ** [bitrst mine] (mine.rs) *)

Record MineArgs := {
  ma_count : Z;
  ma_value : Z;
  ma_time : option Z;
  ma_bits : Z;
  ma_network_time : option Z
}.
Record MinedBlockInfo := { mb_height : Z; mb_hash : list byte; mb_nonce : Z }.

Definition build_coinbase_block (handle : ChainHandle) (height time value bits : Z)
    : Result CliError Block :=
  let? prev := map_err CliChain (handle_tip_hash handle) in
  let h := {| hdr_version := 1; prev_blockhash := prev; hdr_merkle_root := zero32;
              hdr_time := time; hdr_bits := bits; hdr_nonce := 0 |} in
  let block := coinbase_block h height value in
  let? root := ok_or (block_merkle_root block) (InvalidInput NoMerkleRoot) in
  let h := header block in
  Ok {| header := {| hdr_version := hdr_version h; prev_blockhash := prev_blockhash h;
                     hdr_merkle_root := root; hdr_time := hdr_time h; hdr_bits := hdr_bits h;
                     hdr_nonce := hdr_nonce h |};
        transactions := transactions block |}.

(** The chain of the running command and its output. *)
Abbreviation Session := (ChainHandle * Out)%type.
Definition on_chain {A} (m : SM ChainHandle ChainError A) : SM Session CliError A := λ '(h, o),
  let '(r, h) := m h in (map_err CliChain r, (h, o)).
Definition on_out {A} (m : SM Out CliError A) : SM Session CliError A := λ '(h, o),
  let '(r, o) := m o in (r, (h, o)).

Definition mined_line (height : Z) (hash : list byte) (nonce : Z) : list byte :=
  str "mined block height=" ++ decimal height ++ str " hash=" ++ encode_hex hash ++
  str " nonce=" ++ decimal nonce.

(** The body of [for index in 0..args.count]. *)
Definition mine_one (args : MineArgs) (base_time index : Z) : SM Session CliError MinedBlockInfo :=
  let height := u32_wrapping_add index 1 in
  let block_time := u32_saturating_add base_time (u32_saturating_mul index 600) in
  let! s := sget in
  let! block := slift (build_coinbase_block s.1 height block_time (ma_value args) (ma_bits args)) in
  let! block := slift (mine_block (ma_bits args) block) in
  let hash := block_hash block in
  let nonce := hdr_nonce (header block) in
  let! result := on_chain (handle_connect_block block) in
  let! info := match result with
               | Connected connected connected_hash =>
                   sret {| mb_height := connected; mb_hash := connected_hash; mb_nonce := nonce |}
               | other => sthrow (InvalidInput (UnexpectedResult height other))
               end in
  do! on_chain handle_take_events ;;
  do! on_out (write_line (mined_line (mb_height info) hash nonce)) ;;
  sret info.
Fixpoint mine_blocks (args : MineArgs) (base_time : Z) (n : nat) (index : Z)
    : SM Session CliError (list MinedBlockInfo) :=
  match n with
  | O => sret []
  | S n =>
      let! info := mine_one args base_time index in
      let! rest := mine_blocks args base_time n (index + 1) in
      sret (info :: rest)
  end.

(** [run], with the chain it drops at its end. *)
Definition mine_session (args : MineArgs) (clock : option Z)
    : SM Out CliError (list MinedBlockInfo * ChainHandle) := λ out,
  if ma_count args =? 0 then (Err (InvalidInput CountIsZero), out)
  else
    match (let? network_time := resolve_network_time (ma_network_time args) clock in
           let? handle := ephemeral_chain network_time (ma_bits args) in
           Ok (network_time, handle)) with
    | Ok (network_time, handle) =>
        let base_time := default (Z.max network_time GENESIS_TIME) (ma_time args) in
        let '(r, (handle, out)) :=
          (let! mined := mine_blocks args base_time (Z.to_nat (ma_count args)) 0 in
           do! on_out (write_line EPHEMERAL_NOTICE) ;;
           sret mined) (handle, out) in
        match r with
        | Ok mined => (Ok (mined, handle), out)
        | Err e => (Err e, out)
        | Panic => (Panic, out)
        end
    | Err e => (Err e, out)
    | Panic => (Panic, out)
    end.
Definition run_mine (args : MineArgs) (clock : option Z) : SM Out CliError (list MinedBlockInfo) :=
  let! result := mine_session args clock in
  sret result.1.
End cli.
