(* ===== verification/CliMining.v ===== *)
(** * What the [mine] command mines (src/cli/mine.rs, chain.rs)

    The blocks it builds satisfy every rule of the chain, as long as their times do; so a
    session ends with all its blocks on the chain, unless the nonce search gives up. *)

From stdpp Require Import prelude gmap strings list sorting.
From Stdlib Require Import Strings.Byte.
From S2P Require Import Prelude Bytes Crypto U256 Pow Difficulty Wire Transaction Merkle Block.
From S2P Require Import Utxo Script Sighash Journal Store DiskStore Chain ChainTx ChainInv.
From S2P Require Import ChainReorg ChainProps ChainTheorems ChainExamples ChainExtend Handles.
From S2P Require Import Message Wallet Miner Cli.

Local Open Scope Z_scope.
Local Open Scope list_scope.

Section blocks.
Context {crypto : CryptoLib} {order : HashOrder} {flags : BuildFlags}.

(** ** One mined block *)

(** A block with one coinbase whose header commits to it. *)
Definition coinbase_only (b : Block) (height value : Z) : Prop :=
  transactions b = [coinbase_transaction height value] ∧
  Some (hdr_merkle_root (header b)) = merkle_root_from_transactions [coinbase_transaction height value].

Lemma coinbase_root height value :
  ∃ root, merkle_root_from_transactions [coinbase_transaction height value] = Some root.
Proof. eexists. reflexivity. Qed.

Lemma coinbase_block_only h height value :
  let b := coinbase_block h height value in
  coinbase_only b height value ∧ prev_blockhash (header b) = prev_blockhash h ∧
  hdr_time (header b) = hdr_time h ∧ hdr_bits (header b) = hdr_bits h ∧
  hdr_nonce (header b) = hdr_nonce h.
Proof. unfold coinbase_block. destruct (coinbase_root height value) as [root Hr]. rewrite Hr. by split_and!. Qed.

Lemma coinbase_only_limits b height value :
  coinbase_only b height value → validate_block_limits b = Ok ().
Proof. intros [Ht _]. unfold validate_block_limits, block_serialized_size. by rewrite Ht. Qed.

Lemma coinbase_only_txs b height value u :
  coinbase_only b height value → 0 ≤ value ≤ U64_MAX →
  validate_block_transactions_for_utxo b u = Ok ().
Proof.
  intros [Ht _] Hv. unfold validate_block_transactions_for_utxo. rewrite Ht.
  cbn [rfold]. unfold validate_block_tx.
  change (is_coinbase (coinbase_transaction height value)) with true. cbn [negb].
  unfold validate_transaction. change (is_coinbase (coinbase_transaction height value)) with true.
  assert (validate_output_sum (coinbase_transaction height value) = Ok ()) as ->; [|done].
  unfold validate_output_sum, output_sum, u64_checked_add. simpl.
  rewrite Z.add_0_l. destruct (Z.leb_spec value U64_MAX); [done|lia].
Qed.

Lemma coinbase_only_sane b height value t :
  coinbase_only b height value → from_bits (hdr_bits (header b)) = Some t →
  meets t (block_hash b) = true → block_sane b.
Proof.
  intros [Ht Hr] Hbits Hm. split; [by exists t|]. split.
  - unfold header_merkle_root_matches, block_merkle_root. rewrite Ht, <- Hr.
    by rewrite bool_decide_true.
  - exists (coinbase_transaction height value), []. by split_and!.
Qed.

(** What [mine_block] returns. *)
Lemma mine_block_outcomes bits b t :
  from_bits bits = Some t → in_u 32 (hdr_nonce (header b)) →
  (mine_block bits b = Err (CliMine AttemptsExceeded) ∧
   ∀ j, 0 ≤ j < 10000000 → ¬ succeeds t (header b) j) ∨
  ∃ nonce, let b' := {| header := set_nonce nonce (header b); transactions := transactions b |} in
    mine_block bits b = Ok b' ∧ meets t (block_hash b') = true.
Proof.
  intros Ht Hn. unfold mine_block, mine_header, target_of_bits, sbind, slift, smap_err. rewrite Ht.
  cbn [ok_or]. pose proof (mine_loop_spec (Z.to_nat MAX_NONCE_ATTEMPTS) t (header b) Hn) as H.
  rewrite Z2Nat.id in H by done.
  unfold mine. destruct (mine_loop _ t (header b)) as [[hash|[]|] h];
    [|by left; split; [|apply H]|done].
  destruct H as (k&_&->&_&Hs&_). right. eexists. split; [done|]. exact Hs.
Qed.

(** ** The median of the past *)

Lemma ancestor_times_bound n c h bound :
  map_Forall (λ _ m, hdr_time (header (bm_block m)) < bound) (known c) →
  Forall (λ t, t < bound) (ancestor_times n c h).
Proof.
  intros Hk. revert h. induction n as [|n IH]; intros h; simpl; [done|].
  destruct (known c !! h) as [m|] eqn:Hm; [|done]. constructor; [by eapply Hk|apply IH].
Qed.

Lemma median_bound c h bound :
  map_Forall (λ _ m, hdr_time (header (bm_block m)) < bound) (known c) → 0 < bound →
  median_past_time_before c h < bound.
Proof.
  intros Hk Hb. unfold median_past_time_before. case_bool_decide as Hne; [done|].
  set (times := ancestor_times 11 c h) in *.
  assert (length times / 2 < length (merge_sort Z.le times))%nat as Hlt.
  { rewrite (Permutation_length (merge_sort_Permutation Z.le times)).
    apply Nat.div_lt; [|lia]. destruct times; [done|simpl; lia]. }
  apply lookup_lt_is_Some_2 in Hlt as [x Hx]. rewrite (list_lookup_total_correct _ _ _ Hx).
  assert (Forall (λ t, t < bound) (merge_sort Z.le times)) as Hf.
  { rewrite merge_sort_Permutation. by apply ancestor_times_bound. }
  exact (Forall_lookup_1 _ _ _ _ Hf Hx).
Qed.

(** ** The parts of one round *)

Lemma build_coinbase_spec c height time value bits :
  ∃ b, build_coinbase_block (new_lock c) height time value bits = Ok b ∧
    coinbase_only b height value ∧ parent_of b = tip_hash c ∧ hdr_time (header b) = time ∧
    hdr_bits (header b) = bits ∧ hdr_nonce (header b) = 0.
Proof.
  unfold build_coinbase_block, handle_tip_hash, with_read. cbn [poisoned contents new_lock map_err rbind].
  unfold coinbase_block, block_merkle_root. destruct (coinbase_root height value) as [root Hr].
  rewrite Hr. cbn [transactions header]. rewrite Hr. cbn [ok_or rbind].
  eexists. split; [reflexivity|]. split; [split; [done|by rewrite Hr]|]. by split_and!.
Qed.

(** A journal whose events have all been taken. *)
Definition journal_read (j : ChainEventJournal) (n : Z) : Prop :=
  ∃ log, journal_rel j log ∧ wallet_high_water j = zlen log ∧ zlen log ≤ n.

Lemma take_after_push e j n :
  journal_read j n → n + 1 < U64_MAX →
  ∃ events j', take_events (journal_push e j).2 = (Ok events, j') ∧ journal_read j' (n + 1).
Proof.
  intros (log&Hr&Hw&Hn) Hmax. destruct (journal_rel_push j log e Hr ltac:(lia)) as [_ Hr'].
  destruct (take_events_spec _ _ Hr') as (r&j'&Ht&_&Hj'&Hcase).
  assert (zlen (log ++ [e]) = zlen log + 1) as Hlen by (rewrite zlen_app; done).
  rewrite decide_False in Hcase.
  - destruct Hcase as [Hw' ->]. eexists _, j'. split; [exact Ht|]. exists (log ++ [e]).
    split_and!; [done|done|lia].
  - pose proof (jr_capacity _ _ Hr) as Hc. unfold journal_push. cbn [snd wallet_high_water capacity].
    lia.
Qed.
End blocks.

(** ** How a session can fail *)

(** None of ten million nonces, from zero on, solves some header with these bits. *)
Definition gives_up {crypto : CryptoLib} (bits : Z) : Prop :=
  ∃ t h, from_bits bits = Some t ∧ hdr_bits h = bits ∧ hdr_nonce h = 0 ∧
    ∀ j, 0 ≤ j < 10000000 → ¬ succeeds t h j.

(** A later header on the tip of some reachable chain has the hash of one that the chain has
    indexed. *)
Definition collision `{CryptoLib, HashOrder, BuildFlags} : Prop :=
  ∃ gen c m h, reachable gen c ∧ known c !! header_hash h = Some m ∧
    prev_blockhash h = tip_hash c ∧ hdr_time (header (bm_block m)) < hdr_time h.

(** The search gives up, or two headers collide. *)
Definition mining_failed `{CryptoLib, HashOrder, BuildFlags} (bits : Z) (r : CliError) : Prop :=
  r = CliMine AttemptsExceeded ∧ gives_up bits ∨ r = CliChain BlockAlreadyKnown ∧ collision.

(** ** A session *)

Section session.
Context {crypto : CryptoLib} {order : HashOrder} {flags : BuildFlags} {hex : HexLib}.
Context (gen : Block) (args : MineArgs) (count now base : Z) (target : Target) (w : ChainWork).
Context (Hcount : count < difficulty_adjustment_interval test_short_period).
Context (Hvalue : 0 ≤ ma_value args ≤ U64_MAX).
Context (Htarget : from_bits (ma_bits args) = Some target).
Context (Hwork : block_work (ma_bits args) = Ok w).
Context (Hbase : GENESIS_TIME < base).
Context (Htimes : base + 600 * (count - 1) ≤ u32_saturating_add now MAX_FUTURE_BLOCK_TIME).

(** The chain after [n] rounds. *)
Record mined_chain (n : Z) (c : Chain) : Prop := {
  mi_reachable : reachable gen c;
  mi_blocks : zlen (blocks c) = n + 1;
  mi_orphans : orphans c = ∅;
  mi_now : network_time c = now;
  mi_bits : ∃ tip, last (blocks c) = Some tip ∧ hdr_bits (header tip) = ma_bits args;
  mi_times : map_Forall (λ _ m, hdr_time (header (bm_block m)) < base + 600 * n) (known c)
}.
(** Its events have been taken. *)
Record mining (n : Z) (c : Chain) : Prop := {
  mi_chain :> mined_chain n c;
  mi_journal : journal_read (event_journal c) (n + 1)
}.

Lemma interval_bound : 0 < difficulty_adjustment_interval test_short_period < 2 ^ 31.
Proof. unfold difficulty_adjustment_interval. destruct test_short_period; split; reflexivity. Qed.

Lemma mined_height n c pm :
  mined_chain n c → 0 ≤ n < count → known c !! tip_hash c = Some pm → next_height pm = n + 1.
Proof.
  intros Hm Hn Hpm. pose proof interval_bound as Hi. pose proof (mi_reachable _ _ Hm) as [[Hc _ _] _]%reachable_good.
  destruct (ko_meta _ _ (cc_known _ _ Hc) _ _ Hpm) as (l&Hl&Hh&_&_).
  rewrite (ko_keyed _ _ (cc_known _ _ Hc) _ _ Hpm) in Hl.
  rewrite (branch_fun _ _ _ _ _ Hl (cc_tip _ _ Hc)) in Hh.
  unfold next_height, u32_wrapping_add. rewrite Hh, (mi_blocks _ _ Hm).
  rewrite Zplus_mod_idemp_l, Z.mod_small; lia.
Qed.

Lemma mined_expected_bits n c pm :
  mined_chain n c → 0 ≤ n < count → known c !! tip_hash c = Some pm →
  expected_bits c (next_height pm) (ma_bits args) = Ok (ma_bits args).
Proof.
  intros Hm Hn Hpm. rewrite (mined_height n c pm) by done. destruct (mi_bits _ _ Hm) as (tip&Htip&Hb).
  unfold expected_bits. destruct (Z.eqb_spec (n + 1) 0); [done|].
  rewrite Z.mod_small by lia. destruct (Z.eqb_spec (n + 1) 0); [done|]. cbn [negb].
  by rewrite Htip, Hb.
Qed.

(** A mined child of the tip is connected, unless its hash is the hash of an older header. *)
Lemma mined_block_connects n c b height :
  mined_chain n c → 0 ≤ n < count → coinbase_only b height (ma_value args) →
  parent_of b = tip_hash c → hdr_time (header b) = base + 600 * n →
  hdr_bits (header b) = ma_bits args → meets target (block_hash b) = true →
  (connect_block b c = (Err BlockAlreadyKnown, c) ∧ collision) ∨
  ∃ pm, known c !! tip_hash c = Some pm ∧
    connect_block b c = (Ok (Connected (n + 1) (block_hash b)), extended c pm b w).
Proof.
  intros Hm Hn Hcb Hp Ht Hbits Hmeets.
  pose proof (mi_reachable _ _ Hm) as [[Hc (pm&Hpm&_) _] _]%reachable_good.
  destruct (known c !! block_hash b) as [m|] eqn:Hk.
  - left. split.
    + unfold connect_block, connect_block_inner, connect_block_with, sbind, slift, sget.
      rewrite (coinbase_only_limits _ _ _ Hcb). unfold has_block_hash. rewrite Hk.
      by rewrite bool_decide_true by eauto.
    + exists gen, c, m, (header b). split_and!; [apply Hm|done|done|].
      rewrite Ht. exact (mi_times _ _ Hm _ _ Hk).
  - right. exists pm. split; [done|]. rewrite <- (mined_height n c pm) by done.
    apply connect_block_extends; try done; [by rewrite Hbits| |apply Hm].
    split; try done.
    + by eapply coinbase_only_limits.
    + by rewrite (mi_orphans _ _ Hm), lookup_empty.
    + eapply coinbase_only_sane; [exact Hcb|by rewrite Hbits|done].
    + rewrite Ht, (mi_now _ _ Hm). split; [|lia].
      apply median_bound; [apply Hm|]. unfold GENESIS_TIME in *. lia.
    + rewrite Hbits. by eapply mined_expected_bits.
    + by eapply coinbase_only_txs.
    + exists w. by rewrite Hbits.
Qed.

(** The chain after the block was connected and the events were taken. *)
Lemma mining_next n c b pm :
  mining n c → 0 ≤ n < count → known c !! tip_hash c = Some pm →
  hdr_time (header b) = base + 600 * n → hdr_bits (header b) = ma_bits args →
  connect_block b c = (Ok (Connected (n + 1) (block_hash b)), extended c pm b w) →
  ∃ events c', chain_take_events (extended c pm b w) = (Ok events, c') ∧ mining (n + 1) c' ∧
    blocks c' = blocks c ++ [b].
Proof.
  intros Hm Hn Hpm Ht Hbits Hrun. pose proof interval_bound as Hi.
  assert (reachable gen (extended c pm b w)) as Hr.
  { eapply reach_connect; [apply Hm|exact Hrun|done]. }
  destruct (take_after_push (BlockConnected (next_height pm) (block_hash b) (zlen (transactions b)))
    (event_journal c) (n + 1) (mi_journal _ _ Hm)) as (events&j'&Htake&Hj'); [unfold U64_MAX; lia|].
  set (c1 := extended c pm b w) in *.
  assert (chain_take_events c1 = (Ok events, set_journals j' (disconnected_journal c1) c1)) as Htake1.
  { unfold chain_take_events. change (event_journal c1) with
      (journal_push (BlockConnected (next_height pm) (block_hash b) (zlen (transactions b)))
         (event_journal c)).2. by rewrite Htake. }
  exists events, (set_journals j' (disconnected_journal c1) c1). split; [exact Htake1|].
  split; [|reflexivity]. split; [split|exact Hj'].
  - by eapply reach_take.
  - change (zlen (blocks c ++ [b]) = n + 1 + 1). rewrite zlen_app, (mi_blocks _ _ Hm). reflexivity.
  - exact (mi_orphans _ _ Hm).
  - exact (mi_now _ _ Hm).
  - exists b. split; [|done]. change (last (blocks c ++ [b]) = Some b). apply last_snoc.
  - change (map_Forall (λ _ m, hdr_time (header (bm_block m)) < base + 600 * (n + 1))
      (<[block_hash b := {| bm_block := b; bm_height := next_height pm;
          bm_work := work_add (bm_work pm) w;
          bm_undo := (apply_transactions (utxo c) (transactions b)).1 |}]> (known c))).
    apply map_Forall_insert_2; [simpl; lia|]. eapply map_Forall_impl; [apply Hm|].
    intros h m Hlt. simpl in *. lia.
Qed.

(** The text of the lines of a session. *)
Definition mined_text (mined : list MinedBlockInfo) : list byte :=
  concat (map (λ i, mined_line (mb_height i) (mb_hash i) (mb_nonce i) ++ [x0a]) mined).
Definition printed (text : list byte) (o : Out) : Out :=
  {| o_text := o_text o ++ text; o_fault := None |}.
Lemma write_line_printed line o :
  o_fault o = None → write_line line o = (Ok (), printed (line ++ [x0a]) o).
Proof. unfold write_line. by intros ->. Qed.

Lemma on_chain_write {A} (m : SM Chain ChainError A) c o r c' :
  m c = (r, c') → r ≠ Panic →
  on_chain (with_write LockPoisoned m) (new_lock c, o) = (map_err CliChain r, (new_lock c', o)).
Proof. intros Hrun Hr. unfold on_chain, with_write. simpl. rewrite Hrun. by destruct r. Qed.

Lemma mine_one_step n c o :
  mining n c → 0 ≤ n < count → o_fault o = None →
  (∃ e s, mine_one args base n (new_lock c, o) = (Err e, s) ∧ mining_failed (ma_bits args) e) ∨
  ∃ b c', let info := {| mb_height := n + 1; mb_hash := block_hash b; mb_nonce := hdr_nonce (header b) |} in
    mine_one args base n (new_lock c, o) =
      (Ok info, (new_lock c', printed (mined_text [info]) o)) ∧
    mining (n + 1) c' ∧ blocks c' = blocks c ++ [b].
Proof.
  intros Hm Hn Ho. pose proof interval_bound as Hi.
  assert (u32_saturating_add base (u32_saturating_mul n 600) = base + 600 * n) as Htime.
  { unfold u32_saturating_add, u32_saturating_mul, U32_MAX, GENESIS_TIME in *. lia. }
  destruct (build_coinbase_spec c (u32_wrapping_add n 1) (base + 600 * n) (ma_value args) (ma_bits args))
    as (b0&Hb0&Hcb&Hp&Ht&Hbits&Hnonce).
  destruct (mine_one args base n (new_lock c, o)) as [r s] eqn:Hone. unfold mine_one in Hone.
  rewrite Htime in Hone. unfold sbind at 1, sget at 1 in Hone. unfold sbind at 1, slift at 1 in Hone.
  cbn [fst] in Hone. rewrite Hb0 in Hone. unfold sbind at 1, slift at 1 in Hone.
  destruct (mine_block_outcomes (ma_bits args) b0 target Htarget) as [[Hf Hnone]|(nonce&Hb&Hmeets)];
    [by rewrite Hnonce| |].
  { rewrite Hf in Hone. injection Hone as <- <-. left. eexists _, _. split; [done|]. left.
    split; [done|]. by exists target, (header b0). }
  rewrite Hb in Hone. set (b := {| header := _; transactions := _ |}) in *.
  unfold handle_connect_block, handle_take_events in Hone. unfold sbind at 1 in Hone.
  destruct (mined_block_connects n c b (u32_wrapping_add n 1)) as [[Hrun Hcol]|(pm&Hpm&Hrun)];
    [by apply Hm|done..| |];
    rewrite (on_chain_write _ _ _ _ _ Hrun ltac:(done)) in Hone; cbn [map_err] in Hone.
  - injection Hone as <- <-. left. eexists _, _. split; [done|by right].
  - right. destruct (mining_next n c b pm) as (events&c'&Htake&Hm'&Hbl); try done.
    exists b, c'. split; [|done]. rewrite <- Hone. unfold sret at 1. unfold sbind at 1.
    unfold sbind at 1. rewrite (on_chain_write _ _ _ _ _ Htake ltac:(done)). cbn [map_err].
    unfold sbind, on_out. rewrite write_line_printed by done.
    unfold sret, mined_text. cbn [map concat mb_height mb_hash mb_nonce].
    by rewrite (right_id_L [] (++)).
Qed.

Lemma mine_blocks_run k n c o :
  mining n c → 0 ≤ n → n + Z.of_nat k ≤ count → o_fault o = None →
  (∃ e s, mine_blocks args base k n (new_lock c, o) = (Err e, s) ∧ mining_failed (ma_bits args) e) ∨
  ∃ mined new c',
    mine_blocks args base k n (new_lock c, o) =
      (Ok mined, (new_lock c', printed (mined_text mined) o)) ∧
    mining (n + Z.of_nat k) c' ∧ blocks c' = blocks c ++ new ∧
    map mb_hash mined = map block_hash new ∧
    map mb_height mined = map (λ i, n + 1 + Z.of_nat i) (seq 0 k).
Proof.
  revert n c o. induction k as [|k IH]; intros n c o Hm Hn Hk Ho.
  { right. exists [], [], c. rewrite Z.add_0_r. split_and!; [|done|by rewrite (right_id_L [] (++))|done|done].
    unfold printed, mined_text. simpl. rewrite (right_id_L [] (++)). destruct o as [text fault].
    simpl in Ho. by subst fault. }
  destruct (mine_blocks args base (S k) n (new_lock c, o)) as [r s] eqn:Hrun.
  cbn [mine_blocks] in Hrun. unfold sbind at 1 in Hrun.
  destruct (mine_one_step n c o Hm ltac:(lia) Ho) as [(e&s1&Hone&He)|(b&c1&Hone&Hm1&Hb1)];
    rewrite Hone in Hrun.
  { injection Hrun as <- <-. left. by exists e, s1. }
  set (info := {| mb_height := n + 1; mb_hash := _; mb_nonce := _ |}) in *.
  unfold sbind in Hrun.
  destruct (IH (n + 1) c1 (printed (mined_text [info]) o) Hm1 ltac:(lia) ltac:(lia) eq_refl)
    as [(e&s1&Hrest&He)|(mined&new&c'&Hrest&Hm'&Hb'&Hh&Hht)]; rewrite Hrest in Hrun.
  { injection Hrun as <- <-. left. by exists e, s1. }
  injection Hrun as <- <-. right. exists (info :: mined), (b :: new), c'. split_and!.
  - unfold printed, mined_text. cbn [o_text map concat].
    by rewrite (right_id_L [] (++)), <- !(assoc_L (++)).
  - by replace (n + Z.of_nat (S k)) with (n + 1 + Z.of_nat k) by lia.
  - by rewrite Hb', Hb1, <- (assoc_L (++)).
  - simpl. by f_equal.
  - cbn [map seq]. f_equal; [simpl; lia|]. rewrite Hht, <- fmap_S_seq.
    change (map (λ i, n + 1 + 1 + Z.of_nat i) (seq 0 k) =
      (λ i, n + 1 + Z.of_nat i) <$> (S <$> seq 0 k)). rewrite <- list_fmap_compose.
    apply list_fmap_ext. intros _ i _. simpl. lia.
Qed.
(** A block that would be too far in the future stops the command. *)
Definition too_late (n : Z) : Prop :=
  u32_saturating_add now MAX_FUTURE_BLOCK_TIME < u32_saturating_add base (u32_saturating_mul n 600).

Lemma late_round_fails n c o info :
  mining n c → too_late n → (mine_one args base n (new_lock c, o)).1 ≠ Ok info.
Proof.
  intros Hm Hlate Hok. destruct (mine_one args base n (new_lock c, o)) as [r s] eqn:Hone.
  simpl in Hok. subst r. unfold mine_one in Hone. apply sbind_Ok in Hone as (s0&s1&[= <- <-]&Hone).
  destruct (build_coinbase_spec c (u32_wrapping_add n 1)
    (u32_saturating_add base (u32_saturating_mul n 600)) (ma_value args) (ma_bits args))
    as (b0&Hb0&Hcb&Hp&Ht&Hbits&Hnonce).
  apply sbind_Ok in Hone as (b1&s1&Hb&Hone). unfold slift in Hb. cbn [fst] in Hb. rewrite Hb0 in Hb.
  injection Hb as <- <-. apply sbind_Ok in Hone as (b&s1&Hb&Hone). unfold slift in Hb.
  destruct (mine_block_outcomes (ma_bits args) b0 target Htarget) as [[Hf _]|(nonce&Hmine&_)];
    [by rewrite Hnonce|by rewrite Hf in Hb|]. rewrite Hmine in Hb. injection Hb as <- <-.
  apply sbind_Ok in Hone as (r&s1&Hc&Hone). apply sbind_Ok in Hone as (i&s2&Hr&_).
  destruct r as [h x|x|h x|x y]; try done. set (b := {| header := _; transactions := _ |}) in *.
  assert (∃ c', connect_block b c = (Ok (Connected h x), c')) as [c' Hrun].
  { unfold on_chain, handle_connect_block, with_write in Hc. cbn [poisoned contents new_lock] in Hc.
    destruct (connect_block b c) as [[res|e|] c'] eqn:Hrun; try done. injection Hc as <- _. by exists c'. }
  pose proof (mi_reachable _ _ Hm) as [[_ (pm&Hpm&_) _] _]%reachable_good.
  pose proof (ex_time _ _ _ (connect_block_Connected c pm b _ _ _ Hpm Hp Hrun)) as [_ Htime].
  rewrite (mi_now _ _ Hm) in Htime. change (hdr_time (header b)) with (hdr_time (header b0)) in Htime.
  rewrite Ht in Htime. unfold too_late in Hlate. lia.
Qed.

Lemma late_rounds_fail k j n c o mined :
  mining n c → 0 ≤ n → n + Z.of_nat k ≤ count → o_fault o = None → too_late (n + Z.of_nat k) →
  (mine_blocks args base (k + S j) n (new_lock c, o)).1 ≠ Ok mined.
Proof.
  revert n c o mined. induction k as [|k IH]; intros n c o mined Hm Hn Hk Ho Hlate Hok;
    destruct (mine_blocks _ _ _ n _) as [r s] eqn:Hrun in Hok; simpl in Hok; subst r;
    cbn [plus mine_blocks] in Hrun; apply sbind_Ok in Hrun as (info&s1&Hone&Hrun).
  - rewrite Z.add_0_r in Hlate. apply (late_round_fails n c o info Hm Hlate). by rewrite Hone.
  - apply sbind_Ok in Hrun as (rest&s2&Hrest&_).
    destruct (mine_one_step n c o Hm ltac:(lia) Ho) as [(e&s0&H1&_)|(b&c1&H1&Hm1&_)];
      rewrite H1 in Hone; [done|].
    apply (f_equal snd) in Hone. cbn [snd] in Hone. subst s1.
    refine (IH (n + 1) c1 (printed (mined_text [_]) o) rest Hm1 _ _ _ _ (f_equal fst Hrest)); [lia|lia|done|].
    by replace (n + 1 + Z.of_nat k) with (n + Z.of_nat (S k)) by lia.
Qed.
End session.

(** ** The chain of a command *)

Section genesis.
Context {crypto : CryptoLib} {order : HashOrder} {flags : BuildFlags} {hex : HexLib}.

Lemma new_genesis_run gen now value t w :
  now ≠ 0 → coinbase_only gen 0 value → 0 ≤ value ≤ U64_MAX →
  from_bits (hdr_bits (header gen)) = Some t → meets t (block_hash gen) = true →
  block_work (hdr_bits (header gen)) = Ok w →
  ∃ c m, new_genesis gen now = Ok c ∧ blocks c = [gen] ∧ orphans c = ∅ ∧ network_time c = now ∧
    known c = {[block_hash gen := m]} ∧ bm_block m = gen ∧
    event_journal c = (journal_push (BlockConnected 0 (block_hash gen) (zlen (transactions gen)))
                         (journal_with_capacity DEFAULT_JOURNAL_CAPACITY)).2.
Proof.
  intros Hnow Hcb Hv Ht Hm Hw. unfold new_genesis, with_journal_capacities.
  rewrite (proj2 (Z.eqb_neq now 0)) by done. cbv zeta.
  rewrite (coinbase_only_limits _ _ _ Hcb). cbn [rbind].
  unfold validate_block_for_parent.
  rewrite validate_header_of_rules; [|by eapply coinbase_only_sane|done|done]. cbn [rbind utxo].
  rewrite (coinbase_only_txs _ _ _ _ Hcb Hv). cbn [rbind].
  destruct (apply_transactions new_utxo_set (transactions gen)) as [undo u] eqn:Ha. rewrite Hw. cbn [rbind].
  eexists _, _. split; [reflexivity|]. by split_and!.
Qed.

Lemma ephemeral_chain_outcomes args now base t w :
  now ≠ 0 → GENESIS_TIME < base → from_bits (ma_bits args) = Some t →
  block_work (ma_bits args) = Ok w →
  (ephemeral_chain now (ma_bits args) = Err (CliMine AttemptsExceeded) ∧
   gives_up (ma_bits args)) ∨
  ∃ gen c, ephemeral_chain now (ma_bits args) = Ok (new_lock c) ∧
    mining gen args now base 0 c ∧ blocks c = [gen].
Proof.
  intros Hnow Hbase Ht Hw. unfold ephemeral_chain, mined_genesis. cbv zeta.
  set (h := {| hdr_version := 1; prev_blockhash := zero32; hdr_merkle_root := _; hdr_time := _;
               hdr_bits := _; hdr_nonce := 0 |}).
  destruct (coinbase_block_only h 0 DEFAULT_COINBASE_VALUE) as (Hcb&_&Htime&Hbits&Hnonce).
  set (b0 := coinbase_block h 0 DEFAULT_COINBASE_VALUE) in *.
  destruct (mine_block_outcomes (ma_bits args) b0 t Ht) as [[Hf Hnone]|(nonce&Hb&Hm)];
    [by rewrite Hnonce|left; rewrite Hf; split; [done|by exists t, (header b0)]|right].
  rewrite Hb. cbn [rbind]. set (gen := {| header := _; transactions := _ |}) in *.
  assert (hdr_bits (header gen) = ma_bits args) as Hgbits by exact Hbits.
  assert (hdr_time (header gen) = GENESIS_TIME) as Hgtime by exact Htime.
  destruct (new_genesis_run gen now DEFAULT_COINBASE_VALUE t w) as
    (c&m&Hnew&Hbl&Ho&Hn&Hk&Hmb&Hj); try done.
  unfold handle_new_genesis. rewrite Hnew. cbn [map_err rbind].
  destruct (take_after_push (BlockConnected 0 (block_hash gen) (zlen (transactions gen)))
    (journal_with_capacity DEFAULT_JOURNAL_CAPACITY) 0) as (events&j'&Htake&Hj');
    [exists []; by split_and!; [apply journal_rel_new|..]|done|].
  assert (chain_take_events c = (Ok events, set_journals j' (disconnected_journal c) c)) as Htake1.
  { unfold chain_take_events. rewrite Hj, Htake. done. }
  unfold handle_take_events, with_write. cbn [poisoned contents new_lock]. rewrite Htake1.
  cbn [map_err rbind]. exists gen. eexists. split; [reflexivity|]. split; [|exact Hbl]. split; [split|exact Hj'].
  - eapply reach_take; [|exact Htake1]. exact (reach_genesis gen now DEFAULT_JOURNAL_CAPACITY c Hnew).
  - change (zlen (blocks c) = 0 + 1). by rewrite Hbl.
  - exact Ho.
  - exact Hn.
  - exists gen. split; [|exact Hgbits]. change (last (blocks c) = Some gen). by rewrite Hbl.
  - change (map_Forall (λ _ m, hdr_time (header (bm_block m)) < base + 600 * 0) (known c)).
    rewrite Hk. apply map_Forall_singleton. rewrite Hmb, Hgtime. lia.
Qed.
End genesis.

(** ** Properties *)

Section properties.
Context {crypto : CryptoLib} {order : HashOrder} {flags : BuildFlags} {hex : HexLib}.

(** C33 (liveness): [bitrst mine] mines.  On a sound output, with usable bits, a value in the
    range of u64, at least one block but fewer than a retargeting period, and times after the
    genesis block of which the last is at most two hours ahead of the network time, the
    command connects all its blocks, at heights 1, 2, ..., on top of its genesis block, and
    prints a line for each and the notice; it fails only if for some header none of ten
    million nonces meets the target, or if a header on the tip of a chain has the hash of an
    older block of this chain. *)
Theorem mine_command_mines (args : MineArgs) (clock : option Z) (now base : Z) (t : Target)
    (w : ChainWork) (out : Out) :
  1 ≤ ma_count args < difficulty_adjustment_interval test_short_period →
  0 ≤ ma_value args ≤ U64_MAX →
  from_bits (ma_bits args) = Some t → block_work (ma_bits args) = Ok w →
  resolve_network_time (ma_network_time args) clock = Ok now → now ≠ 0 →
  base = default (Z.max now GENESIS_TIME) (ma_time args) → GENESIS_TIME < base →
  base + 600 * (ma_count args - 1) ≤ u32_saturating_add now MAX_FUTURE_BLOCK_TIME →
  o_fault out = None →
  (∃ e, (mine_session args clock out).1 = Err e ∧ mining_failed (ma_bits args) e) ∨
  ∃ mined gen new c,
    mine_session args clock out =
      (Ok (mined, new_lock c), printed (mined_text mined ++ EPHEMERAL_NOTICE ++ [x0a]) out) ∧
    reachable gen c ∧ blocks c = gen :: new ∧ map mb_hash mined = map block_hash new ∧
    map mb_height mined = map (λ i, 1 + Z.of_nat i) (seq 0 (Z.to_nat (ma_count args))).
Proof.
  intros [Hc1 Hc2] Hv Ht Hw Hres Hnow Hbase Hlt Htimes Ho.
  destruct (mine_session args clock out) as [r o'] eqn:Hs. unfold mine_session in Hs.
  rewrite (proj2 (Z.eqb_neq (ma_count args) 0)) in Hs by lia. rewrite Hres in Hs. cbn [rbind] in Hs.
  destruct (ephemeral_chain_outcomes args now base t w) as [[Hf Hup]|(gen&c0&He&Hm&Hb0)]; try done.
  { left. rewrite Hf in Hs. injection Hs as <- <-. eexists. split; [done|by left]. }
  rewrite He in Hs. cbn [rbind] in Hs. rewrite <- Hbase in Hs. unfold sbind at 1 in Hs. cbv beta in Hs.
  destruct (mine_blocks_run gen args (ma_count args) now base t w Hc2 Hv Ht Hw Hlt Htimes (Z.to_nat (ma_count args))
    0 c0 out Hm ltac:(lia) ltac:(lia) Ho)
    as [(e&[h o]&Hrun&Hfail)|(mined&new&c&Hrun&Hm'&Hbl&Hh&Hht)];
    unfold ChainHandle in *; rewrite Hrun in Hs.
  { injection Hs as <- <-. left. by exists e. }
  unfold sbind, on_out in Hs. rewrite write_line_printed in Hs by done. injection Hs as <- <-.
  right. exists mined, gen, new, c. split_and!; [|apply Hm'|by rewrite Hbl, Hb0|done|done].
  unfold printed. cbn [o_text]. by rewrite <- (assoc_L (++)).
Qed.

(** With the default times, [bitrst mine] cannot mine more than thirteen blocks: the
    fourteenth would be dated more than two hours ahead. *)
Theorem default_mine_stops_after_thirteen (args : MineArgs) (clock : option Z) (now : Z)
    (t : Target) (w : ChainWork) (out : Out) result :
  14 ≤ ma_count args → 0 ≤ ma_value args ≤ U64_MAX →
  from_bits (ma_bits args) = Some t → block_work (ma_bits args) = Ok w →
  ma_time args = None → resolve_network_time (ma_network_time args) clock = Ok now →
  GENESIS_TIME < now → now + 7800 ≤ U32_MAX → o_fault out = None →
  (mine_session args clock out).1 ≠ Ok result.
Proof.
  intros Hc Hv Ht Hw Htime Hres Hnow Hmax Ho Hok.
  destruct (mine_session args clock out) as [r o'] eqn:Hs. simpl in Hok. subst r.
  unfold mine_session in Hs. rewrite (proj2 (Z.eqb_neq (ma_count args) 0)) in Hs by lia.
  rewrite Hres, Htime in Hs. cbn [rbind default] in Hs.
  assert (Z.max now GENESIS_TIME = now) as Hbase by lia.
  destruct (ephemeral_chain_outcomes args now now t w) as [[Hf _]|(gen&c0&He&Hm&_)];
    [unfold GENESIS_TIME in *; lia|done|done|done|by rewrite Hf in Hs|].
  rewrite He in Hs. cbn [rbind] in Hs. rewrite Hbase in Hs. unfold sbind at 1 in Hs. cbv beta in Hs.
  assert (13 < difficulty_adjustment_interval test_short_period) as Hint
    by (unfold difficulty_adjustment_interval; by destruct test_short_period).
  assert (now + 600 * (13 - 1) ≤ u32_saturating_add now MAX_FUTURE_BLOCK_TIME) as H12
    by (unfold u32_saturating_add, MAX_FUTURE_BLOCK_TIME; lia).
  destruct (mine_blocks args now (Z.to_nat (ma_count args)) 0 (new_lock c0, out)) as [[mined|e|] [h o]]
    eqn:Hrun; unfold ChainHandle in *; rewrite Hrun in Hs; [|done..].
  apply (late_rounds_fail gen args 13 now now t w Hint Hv Ht Hw Hnow H12 13
    (Z.to_nat (ma_count args) - 14)%nat 0 c0 out mined Hm); [lia|lia|done| |].
  - unfold too_late, u32_saturating_add, u32_saturating_mul, MAX_FUTURE_BLOCK_TIME, U32_MAX in *. lia.
  - replace (13 + S (Z.to_nat (ma_count args) - 14))%nat with (Z.to_nat (ma_count args)) by lia.
    unfold ChainHandle in *. by rewrite Hrun.
Qed.
End properties.
