(* ===== verification/TestSupport.v ===== *)
(** * Blocks and transactions for tests (bitrst-net/src/testutil.rs)

    The builders search a nonce without a bound; here the search has fuel, and [solve_ends]
    says that 2^32 attempts are enough whenever some nonce solves the header.  An [expect] of
    the source is [Panic]. *)

From stdpp Require Import prelude gmap strings list sorting.
From Stdlib Require Import Strings.Byte.
From S2P Require Import Prelude Bytes Testing Crypto U256 Pow Difficulty Wire Transaction Merkle Block.
From S2P Require Import Utxo Script Sighash Journal Store Chain ChainTx ChainInv ChainReorg.
From S2P Require Import ChainProps ChainTheorems ChainExamples ChainExtend Mempool Handles Wallet WalletTheorems Miner Cli CliMining.

Local Open Scope Z_scope.
Local Open Scope list_scope.

Definition NETWORK_TIME : Z := 1231006505.
Definition TEST_BITS : Z := 0x1f00ffff.

(** The search has not ended. *)
Inductive Searching := OutOfFuel.
Section testutil.
Context {crypto : CryptoLib} {order : HashOrder} {flags : BuildFlags}.

(** [while !target.meets(&block.header.hash())] *)
Fixpoint solve (fuel : nat) (target : Target) (h : BlockHeader) : Result Searching BlockHeader :=
  match fuel with
  | O => Err OutOfFuel
  | S fuel =>
      if meets target (header_hash h) then Ok h
      else solve fuel target (set_nonce (u32_wrapping_add (hdr_nonce h) 1) h)
  end.
Definition solve_block (fuel : nat) (block : Block) : Result Searching Block :=
  let? target := expect_some (from_bits TEST_BITS) in
  let? h := solve fuel target (header block) in
  Ok {| header := h; transactions := transactions block |}.
Definition commit_merkle (block : Block) : Result Searching Block :=
  let? root := expect_some (block_merkle_root block) in
  let h := header block in
  Ok {| header := {| hdr_version := hdr_version h; prev_blockhash := prev_blockhash h;
                     hdr_merkle_root := root; hdr_time := hdr_time h; hdr_bits := hdr_bits h;
                     hdr_nonce := hdr_nonce h |};
        transactions := transactions block |}.

Definition genesis_block (fuel : nat) : Result Searching Block :=
  let h := {| hdr_version := 1; prev_blockhash := zero32; hdr_merkle_root := zero32;
              hdr_time := NETWORK_TIME; hdr_bits := TEST_BITS; hdr_nonce := 0 |} in
  solve_block fuel (coinbase_block h 0 5000000000).
Definition child_block (fuel : nat) (parent : Block) (height time_offset : Z) : Result Searching Block :=
  let h := {| hdr_version := 1; prev_blockhash := block_hash parent; hdr_merkle_root := zero32;
              hdr_time := u32_wrapping_add NETWORK_TIME time_offset; hdr_bits := TEST_BITS;
              hdr_nonce := 0 |} in
  let? block := commit_merkle (coinbase_block h height 5000000000) in
  solve_block fuel block.
Definition orphan_block (fuel : nat) (unknown_parent : list byte) (height : Z) : Result Searching Block :=
  let h := {| hdr_version := 1; prev_blockhash := unknown_parent; hdr_merkle_root := zero32;
              hdr_time := NETWORK_TIME + 600; hdr_bits := TEST_BITS; hdr_nonce := 0 |} in
  let? block := commit_merkle (coinbase_block h height 5000000000) in
  solve_block fuel block.

(** [block.transactions[0].outputs[0].script_pubkey = lock_script] *)
Definition lock_first_output (lock_script : list byte) (block : Block) : Result Searching Block :=
  match transactions block with
  | tx :: txs =>
      match tx_outputs tx with
      | output :: outputs =>
          let output := {| txout_value := txout_value output; script_pubkey := lock_script |} in
          Ok {| header := header block;
                transactions :=
                  {| tx_version := tx_version tx; tx_inputs := tx_inputs tx;
                     tx_outputs := output :: outputs; tx_lock_time := tx_lock_time tx |} :: txs |}
      | [] => Panic
      end
  | [] => Panic
  end.
Definition funding_block (fuel : nat) (lock_script : list byte) : Result Searching Block :=
  let? genesis := genesis_block fuel in
  let? fund_block := child_block fuel genesis 1 100 in
  let? fund_block := lock_first_output lock_script fund_block in
  let? fund_block := commit_merkle fund_block in
  solve_block fuel fund_block.

(** The transaction, before it is signed. *)
Definition unsigned_spend (funding_txid : list byte) : Transaction := {|
  tx_version := 1;
  tx_inputs := [{| previous_output := funding_txid; txin_index := 0; script_sig := [];
                   txin_sequence := U32_MAX |}];
  tx_outputs := [{| txout_value := 4900000000; script_pubkey := [] |}];
  tx_lock_time := 0 |}.
Definition signed_spend (sk : SecretKey) (lock_script funding_txid : list byte)
    : Result Searching Transaction :=
  let spend := unsigned_spend funding_txid in
  let pubkey_bytes := PublicKey_serialize (PublicKey_from_secret_key sk) in
  let? sighash := expect (sighash_all spend 0 [lock_script]) in
  let sig_bytes := Signature_serialize_der (sign_ecdsa sighash sk) ++ [x01] in
  Ok (set_script_sig spend 0 (p2pkh_script_sig sig_bytes pubkey_bytes)).

Definition funded_p2pkh_spend (fuel : nat) : SM ChainHandle Searching (Transaction * list byte) :=
  let! sk := slift (expect_some (SecretKey_from_slice (replicate 32 (zb 0x44)))) in
  let pubkey_bytes := PublicKey_serialize (PublicKey_from_secret_key sk) in
  let lock_script := p2pkh_script_pubkey (hash160 pubkey_bytes) in
  let! fund_block := slift (funding_block fuel lock_script) in
  do! (λ chain, let '(r, chain) := handle_connect_block fund_block chain in (expect r, chain)) ;;
  let! chain := sget in
  let! tip := slift (expect (handle_tip_hash chain)) in
  let! found := slift (expect (get_block tip chain)) in
  let! block := slift (expect_some found) in
  let! funding := slift (expect_some (head (transactions block))) in
  let! spend := slift (signed_spend sk lock_script (tx_id funding)) in
  sret (spend, tx_id spend).
End testutil.

(** ** The nonce search *)

Section search.
Context {crypto : CryptoLib}.

Lemma solve_mine fuel target h :
  solve fuel target h =
  match mine_loop fuel target h with (Ok _, h') => Ok h' | _ => Err OutOfFuel end.
Proof.
  revert h. induction fuel as [|fuel IH]; intros h; [done|]. cbn [solve mine_loop].
  destruct (meets target (header_hash h)); [done|]. apply IH.
Qed.

Lemma solve_Ok fuel target h h' :
  in_u 32 (hdr_nonce h) → solve fuel target h = Ok h' →
  ∃ nonce, h' = set_nonce nonce h ∧ meets target (header_hash h') = true.
Proof.
  intros Hn. rewrite solve_mine. pose proof (mine_loop_spec fuel target h Hn) as Hspec.
  destruct (mine_loop fuel target h) as [[hash|e|] h1]; [|done..]. intros [= <-].
  destruct Hspec as (k&_&->&_&Hs&_). by eexists.
Qed.

(** The search ends if and only if some nonce solves the header, and then within 2^32
    attempts, whatever the first nonce is. *)
Theorem solve_ends (target : Target) (h : BlockHeader) :
  in_u 32 (hdr_nonce h) →
  ((∃ nonce, in_u 32 nonce ∧ meets target (header_hash (set_nonce nonce h)) = true) ↔
   ∃ fuel h', solve fuel target h = Ok h') ∧
  ((∃ nonce, in_u 32 nonce ∧ meets target (header_hash (set_nonce nonce h)) = true) →
   ∀ fuel, 2 ^ 32 ≤ Z.of_nat fuel → ∃ h', solve fuel target h = Ok h').
Proof.
  intros Hn.
  assert ((∃ nonce, in_u 32 nonce ∧ meets target (header_hash (set_nonce nonce h)) = true) →
    ∀ fuel, 2 ^ 32 ≤ Z.of_nat fuel → ∃ h', solve fuel target h = Ok h') as Hends.
  { intros (nonce&Hnonce&Hm) fuel Hfuel. rewrite solve_mine.
    pose proof (mine_loop_spec fuel target h Hn) as Hspec.
    destruct (mine_loop fuel target h) as [[hash|e|] h1]; [by eexists| |done]. exfalso.
    destruct Hspec as [_ Hnone]. pose proof (Z.mod_pos_bound (nonce - hdr_nonce h) (2 ^ 32) ltac:(done)) as Hb.
    apply (Hnone ((nonce - hdr_nonce h) mod 2 ^ 32)); [lia|]. unfold succeeds, attempt.
    rewrite Z.add_mod_idemp_r by done. replace (hdr_nonce h + (nonce - hdr_nonce h)) with nonce by lia.
    by rewrite Z.mod_small. }
  split; [|done]. split.
  - intros Hex. exists (Z.to_nat (2 ^ 32)). apply Hends; [done|]. by rewrite Z2Nat.id.
  - intros (fuel&h'&Hs). rewrite solve_mine in Hs. pose proof (mine_loop_spec fuel target h Hn) as Hspec.
    destruct (mine_loop fuel target h) as [[hash|e|] h1]; [|done..].
    destruct Hspec as (k&_&_&_&Hk&_). exists ((hdr_nonce h + k) mod 2 ^ 32).
    split; [apply Z.mod_pos_bound; done|exact Hk].
Qed.
End search.

(** ** What the builders build *)

Section builders.
Context {crypto : CryptoLib} {order : HashOrder} {flags : BuildFlags}.

Lemma test_bits_usable :
  (∃ t, from_bits TEST_BITS = Some t) ∧ ∃ w, block_work TEST_BITS = Ok w.
Proof. split; eexists; vm_compute; reflexivity. Qed.

Lemma solve_block_Ok fuel block block' :
  in_u 32 (hdr_nonce (header block)) → solve_block fuel block = Ok block' →
  ∃ nonce target, from_bits TEST_BITS = Some target ∧
    block' = {| header := set_nonce nonce (header block); transactions := transactions block |} ∧
    meets target (block_hash block') = true.
Proof.
  intros Hn. unfold solve_block. destruct test_bits_usable as [[target Ht] _]. rewrite Ht. cbn [expect_some rbind].
  intros (h&Hs&Heq)%rbind_Ok. injection Heq as <-. destruct (solve_Ok _ _ _ _ Hn Hs) as (nonce&->&Hm).
  by exists nonce, target.
Qed.

(** A block on [parent] with the test bits, one coinbase and the time of its header. *)
Record test_block (parent : list byte) (height time : Z) (b : Block) : Prop := {
  tb_coinbase : coinbase_only b height 5000000000;
  tb_parent : parent_of b = parent;
  tb_time : hdr_time (header b) = time;
  tb_bits : hdr_bits (header b) = TEST_BITS;
  tb_solved : ∃ target, from_bits TEST_BITS = Some target ∧ meets target (block_hash b) = true
}.

Lemma commit_merkle_coinbase h height :
  ∃ b, commit_merkle (coinbase_block h height 5000000000) = Ok b ∧
    coinbase_only b height 5000000000 ∧ parent_of b = prev_blockhash h ∧
    hdr_time (header b) = hdr_time h ∧ hdr_bits (header b) = hdr_bits h ∧ hdr_nonce (header b) = hdr_nonce h.
Proof.
  destruct (coinbase_block_only h height 5000000000) as (Hcb&?&?&?&?). destruct Hcb as [Htx Hroot].
  destruct (coinbase_root height 5000000000) as [root Hr]. unfold commit_merkle, block_merkle_root.
  rewrite Htx, Hr. cbn [expect_some rbind]. eexists. split; [reflexivity|].
  split; [by split|]. by split_and!.
Qed.

Lemma solved_test_block fuel b b' parent height time :
  coinbase_only b height 5000000000 → parent_of b = parent → hdr_time (header b) = time →
  hdr_bits (header b) = TEST_BITS → hdr_nonce (header b) = 0 → solve_block fuel b = Ok b' →
  test_block parent height time b'.
Proof.
  intros Hcb Hp Ht Hb Hn Hs.
  destruct (solve_block_Ok fuel b b') as (nonce&target&Htarget&->&Hm); [by rewrite Hn|done|].
  split; [exact Hcb|exact Hp|exact Ht|exact Hb|by exists target].
Qed.

Lemma genesis_block_Ok fuel b : genesis_block fuel = Ok b → test_block zero32 0 NETWORK_TIME b.
Proof.
  unfold genesis_block. set (h := {| hdr_version := 1; prev_blockhash := _; hdr_merkle_root := _;
    hdr_time := _; hdr_bits := _; hdr_nonce := 0 |}).
  destruct (coinbase_block_only h 0 5000000000) as (Hcb&?&?&?&?).
  eapply solved_test_block; try done.
Qed.
Lemma child_block_Ok fuel parent height offset b :
  child_block fuel parent height offset = Ok b →
  test_block (block_hash parent) height (u32_wrapping_add NETWORK_TIME offset) b.
Proof.
  unfold child_block. set (h := {| hdr_version := 1; prev_blockhash := _; hdr_merkle_root := _;
    hdr_time := _; hdr_bits := _; hdr_nonce := 0 |}).
  destruct (commit_merkle_coinbase h height) as (b0&->&Hcb&?&?&?&?). cbn [rbind].
  by apply solved_test_block.
Qed.
Lemma orphan_block_Ok fuel parent height b :
  orphan_block fuel parent height = Ok b → test_block parent height (NETWORK_TIME + 600) b.
Proof.
  unfold orphan_block. set (h := {| hdr_version := 1; prev_blockhash := _; hdr_merkle_root := _;
    hdr_time := _; hdr_bits := _; hdr_nonce := 0 |}).
  destruct (commit_merkle_coinbase h height) as (b0&->&Hcb&?&?&?&?). cbn [rbind].
  by apply solved_test_block.
Qed.

(** The chain of the test genesis block, as the state of a session before its first round. *)
Definition test_args (offset now : Z) : MineArgs := {|
  ma_count := 1; ma_value := 5000000000; ma_time := Some (NETWORK_TIME + offset);
  ma_bits := TEST_BITS; ma_network_time := Some now |}.
Lemma test_value : 0 ≤ 5000000000 ≤ U64_MAX.
Proof. done. Qed.
Lemma test_genesis_chain gen now offset :
  now ≠ 0 → 0 < offset → test_block zero32 0 NETWORK_TIME gen →
  ∃ c, new_genesis gen now = Ok c ∧ blocks c = [gen] ∧
    mined_chain gen (test_args offset now) now (NETWORK_TIME + offset) 0 c.
Proof.
  intros Hnow Hoff [Hcb _ Htime Hbits (target&Ht&Hm)]. destruct test_bits_usable as [_ [w Hw]].
  pose proof test_value as Hv. rewrite <- Hbits in Ht, Hw.
  destruct (new_genesis_run gen now 5000000000 target w Hnow Hcb Hv Ht Hm Hw)
    as (c&m&Hnew&Hbl&Ho&Hn&Hk&Hmb&_).
  exists c. split; [exact Hnew|]. split; [exact Hbl|]. clear Hw Ht Hm. split.
  - exact (reach_genesis gen now DEFAULT_JOURNAL_CAPACITY c Hnew).
  - by rewrite Hbl.
  - exact Ho.
  - exact Hn.
  - exists gen. by rewrite Hbl.
  - rewrite Hk. apply map_Forall_singleton. rewrite Hmb, Htime. lia.
Qed.

(** The test blocks do what the tests expect of them: on the chain of the genesis block a
    child is connected at height 1, unless its header has the hash of the genesis header, and
    a block on an unknown parent is kept as an orphan. *)
Theorem test_blocks_behave (fuel : nat) (gen b : Block) (now offset : Z) :
  now ≠ 0 → 0 < offset → NETWORK_TIME + offset ≤ u32_saturating_add now MAX_FUTURE_BLOCK_TIME →
  genesis_block fuel = Ok gen →
  ∃ c, new_genesis gen now = Ok c ∧ reachable gen c ∧
    (child_block fuel gen 1 offset = Ok b →
     (connect_block b c).1 = Ok (Connected 1 (block_hash b)) ∨ collision) ∧
    ∀ parent height, orphan_block fuel parent height = Ok b →
      known c !! parent = None → known c !! block_hash b = None →
      (connect_block b c).1 = Ok (Orphaned (block_hash b)).
Proof.
  intros Hnow Hoff Htime Hgen. destruct test_bits_usable as [[target Ht] [w Hw]].
  destruct (test_genesis_chain gen now offset Hnow Hoff) as (c&Hnew&Hbl&Hm); [by eapply genesis_block_Ok|].
  exists c. split; [exact Hnew|]. split; [apply Hm|]. split.
  - intros Hb%child_block_Ok. destruct Hb as [Hcb Hp Hbt Hbits (t&Ht'&Hsolved)].
    assert (u32_wrapping_add NETWORK_TIME offset = NETWORK_TIME + offset) as Hwrap.
    { unfold u32_wrapping_add. apply Z.mod_small. unfold u32_saturating_add, U32_MAX, NETWORK_TIME in *. lia. }
    assert (1 < difficulty_adjustment_interval test_short_period) as Hcount.
    { clear. unfold difficulty_adjustment_interval. by destruct test_short_period. }
    assert (GENESIS_TIME < NETWORK_TIME + offset) as Hbase by (unfold GENESIS_TIME, NETWORK_TIME; lia).
    destruct (mined_block_connects gen (test_args offset now) 1 now (NETWORK_TIME + offset) target w
      Hcount test_value Ht Hw Hbase ltac:(lia) 0 c b 1 Hm) as [[_ Hcol]|(pm&_&Hrun)];
      [lia|exact Hcb| | |exact Hbits| |right; exact Hcol|left].
    + unfold tip_hash. rewrite Hbl. exact Hp.
    + rewrite Hbt, Hwrap. lia.
    + rewrite Ht in Ht'. injection Ht' as ->. exact Hsolved.
    + by rewrite Hrun.
  - intros parent height Hb%orphan_block_Ok Hunknown Hnew'.
    destruct Hb as [Hcb Hp _ _ _]. unfold parent_of in Hp.
    assert (orphans c !! block_hash b = None) as Hno by by rewrite (mi_orphans _ _ _ _ _ _ Hm), lookup_empty.
    destruct (insert_orphan_spec b c Hno) as (c1&seq&kept&Hins&_).
    unfold connect_block, connect_block_inner, connect_block_with, sbind, slift, sget, sret.
    rewrite (coinbase_only_limits _ _ _ Hcb).
    assert (has_block_hash c (block_hash b) = false) as ->.
    { unfold has_block_hash. rewrite Hnew', Hno. by rewrite !bool_decide_false by (by intros []). }
    by rewrite Hp, Hunknown, Hins.
Qed.

(** The spend of the tests. *)
Lemma signed_spend_verifies {laws : CryptoLaws crypto} {E} (from_sighash : SighashError → E)
    (invalid_script : E) sk funding_txid :
  let lock := p2pkh_script_pubkey (hash160 (PublicKey_serialize (PublicKey_from_secret_key sk))) in
  ∃ spend, signed_spend sk lock funding_txid = Ok spend ∧
    map previous_output (tx_inputs spend) = [funding_txid] ∧
    verify_inputs from_sighash invalid_script spend [lock] = Ok ().
Proof.
  intros lock. set (key := {| inner := sk |}).
  destruct (sign_p2pkh_input 0 [lock] key (unsigned_spend funding_txid)) as [r spend] eqn:Hsign.
  assert (r = Ok () ∧ signed_spend sk lock funding_txid = Ok spend) as [-> Hspend].
  { unfold sign_p2pkh_input, sbind, sget, slift, smodify in Hsign. by injection Hsign as <- <-. }
  exists spend. split; [exact Hspend|]. destruct (sign_unlocks _ _ _ _ _ Hsign eq_refl) as (Hunlocks&_&Hlen).
  apply sign_p2pkh_input_Ok in Hsign as (_&_&->). split; [done|].
  apply verify_inputs_Ok; [done|]. split; [done|]. intros i input script Hi Hs _.
  destruct i; [by apply Hunlocks|done].
Qed.

Lemma slift_Ok {S E A} (m : Result E A) (s : S) a s' : slift m s = (Ok a, s') → m = Ok a ∧ s' = s.
Proof. by intros [= -> ->]. Qed.
(** When [funded_p2pkh_spend] returns, its transaction spends the first transaction of the
    block at the tip of the chain, with a scriptSig that unlocks the script of its key, and
    the identifier is its own. *)
Theorem funded_spend_is_signed {laws : CryptoLaws crypto} {E} (from_sighash : SighashError → E)
    (invalid_script : E) (fuel : nat) (chain chain' : ChainHandle) (spend : Transaction) (id : list byte) :
  funded_p2pkh_spend fuel chain = (Ok (spend, id), chain') →
  id = tx_id spend ∧ ∃ sk tip block funding,
    SecretKey_from_slice (replicate 32 (zb 0x44)) = Some sk ∧
    handle_tip_hash chain' = Ok tip ∧ get_block tip chain' = Ok (Some block) ∧
    head (transactions block) = Some funding ∧
    map previous_output (tx_inputs spend) = [tx_id funding] ∧
    verify_inputs from_sighash invalid_script spend
      [p2pkh_script_pubkey (hash160 (PublicKey_serialize (PublicKey_from_secret_key sk)))] = Ok ().
Proof.
  unfold funded_p2pkh_spend.
  intros (sk&s1&[Hsk%expect_some_Ok ->]%slift_Ok&Hrun)%sbind_Ok.
  apply sbind_Ok in Hrun as (fund&s2&[_ ->]%slift_Ok&Hrun).
  apply sbind_Ok in Hrun as (result&s3&_&Hrun).
  apply sbind_Ok in Hrun as (chain1&s4&[= <- ->]&Hrun).
  apply sbind_Ok in Hrun as (tip&s5&[Htip%expect_Ok ->]%slift_Ok&Hrun).
  apply sbind_Ok in Hrun as (found&s6&[Hfound%expect_Ok ->]%slift_Ok&Hrun).
  apply sbind_Ok in Hrun as (block&s7&[->%expect_some_Ok ->]%slift_Ok&Hrun).
  apply sbind_Ok in Hrun as (funding&s8&[Hfunding%expect_some_Ok ->]%slift_Ok&Hrun).
  apply sbind_Ok in Hrun as (spend'&s9&[Hspend ->]%slift_Ok&[= <- <- <-]).
  split; [done|]. destruct (signed_spend_verifies from_sighash invalid_script sk (tx_id funding))
    as (spend1&Hspend1&Hprev&Hverify).
  rewrite Hspend in Hspend1. injection Hspend1 as <-. by exists sk, tip, block, funding.
Qed.
End builders.

(** ** The builders at work *)

#[local] Existing Instance toy_crypto.
#[local] Existing Instance canonical_order.
#[local] Existing Instance ex_flags.

(** On a new chain the funding block is connected and the pool admits the spend. *)
Definition spend_admitted : option (Result ChainError Z * Result MempoolHandleError Z) :=
  match genesis_block 1 with
  | Ok genesis =>
      match handle_new_genesis genesis NETWORK_TIME with
      | Ok chain =>
          match funded_p2pkh_spend 1 chain with
          | (Ok (spend, _), chain) =>
              let r := (pool_accept_tx spend (utxo (contents chain)) (pool_with_limits default_limits)).1 in
              Some (handle_height chain, let? accepted := r in Ok (at_fee accepted))
          | _ => None
          end
      | _ => None
      end
  | _ => None
  end.
Example funded_spend_is_admitted : spend_admitted = Some (Ok 1, Ok 100000000).
Proof. vm_compute. reflexivity. Qed.
