(* ===== verification/ChainTests.v ===== *)
(** * The unit tests of the chain (bitrst-core/src/chain.rs)

    With the toy primitives, whose hashes meet the test target at the first nonce or soon
    after; the search of the tests has 16 attempts here. *)

From stdpp Require Import prelude gmap strings list.
From Stdlib Require Import Strings.Byte.
From S2P Require Import Prelude Bytes Testing Crypto U256 Pow Wire Transaction Merkle Block Utxo.
From S2P Require Import Script Sighash Journal Store Chain ChainExamples Miner TestSupport.

Local Open Scope Z_scope.
Local Open Scope list_scope.

#[local] Existing Instance toy_crypto.
#[local] Existing Instance canonical_order.
#[local] Existing Instance ex_flags.

(** ** Blocks *)

(** [mine_header]; giving up is a panic. *)
Definition test_mine_header (header : BlockHeader) (target : Target) : Result unit BlockHeader :=
  expect (solve 16 target header).
(** [Target::from_bits(..).expect(..)] and [mine_header] of a block. *)
Definition test_mined (block : Block) : Result unit Block :=
  let? target := expect_some (from_bits (hdr_bits (header block))) in
  let? h := test_mine_header (header block) target in
  Ok {| header := h; transactions := transactions block |}.
Definition test_merkle (block : Block) : Result unit Block :=
  let? root := expect_some (block_merkle_root block) in
  let h := header block in
  Ok {| header := {| hdr_version := hdr_version h; prev_blockhash := prev_blockhash h;
                     hdr_merkle_root := root; hdr_time := hdr_time h; hdr_bits := hdr_bits h;
                     hdr_nonce := hdr_nonce h |};
        transactions := transactions block |}.
Definition test_header (prev : list byte) (time : Z) : BlockHeader := {|
  hdr_version := 1; prev_blockhash := prev; hdr_merkle_root := zero32; hdr_time := time;
  hdr_bits := 0x1f00ffff; hdr_nonce := 0 |}.
Definition test_genesis_block : Result unit Block :=
  test_mined (coinbase_block (test_header zero32 1231006505) 0 5000000000).
(** The blocks that the tests build on a parent. *)
Definition test_child_block (prev : list byte) (height time : Z) : Result unit Block :=
  let? block := test_merkle (coinbase_block (test_header prev time) height 5000000000) in
  test_mined block.
(** [block.transactions[0].outputs[0].script_pubkey = lock_script] before the Merkle root. *)
Definition test_locked_block (prev : list byte) (height time : Z) (lock_script : list byte) : Result unit Block :=
  match transactions (coinbase_block (test_header prev time) height 5000000000) with
  | tx :: txs =>
      match tx_outputs tx with
      | output :: outputs =>
          let output := {| txout_value := txout_value output; script_pubkey := lock_script |} in
          let tx := {| tx_version := tx_version tx; tx_inputs := tx_inputs tx;
                       tx_outputs := output :: outputs; tx_lock_time := tx_lock_time tx |} in
          let? block := test_merkle {| header := test_header prev time; transactions := tx :: txs |} in
          test_mined block
      | [] => Panic
      end
  | [] => Panic
  end.
(** [block.transactions.push(tx)] before the Merkle root. *)
Definition test_block_with (prev : list byte) (height time : Z) (tx : Transaction) : Result unit Block :=
  let block := coinbase_block (test_header prev time) height 5000000000 in
  let? block := test_merkle {| header := header block; transactions := transactions block ++ [tx] |} in
  test_mined block.
Definition test_chain : Result unit (Block * Chain) :=
  let? genesis := test_genesis_block in
  let? chain := expect (new_genesis genesis 1231006505) in
  Ok (genesis, chain).

(** The tip, the height and the number of unspent outputs, as the tests compare them. *)
Definition observed (c : Chain) : list byte * Z * nat := (tip_hash c, height c, size (utxo c)).

(** ** Tests *)

Definition cumulative_work_adds_for_same_bits : Test :=
  let? one := expect (block_work 0x1f00ffff) in
  let two := work_add one one in
  assert (match work_cmp two one with Gt => true | _ => false end).

Definition connects_genesis_block : Test :=
  let? genesis := test_genesis_block in
  let? chain := expect (new_genesis genesis 1231006505) in
  check? assert_eq (height chain) 0 ;;
  assert_eq (size (utxo chain)) 1%nat.

Definition rejects_block_with_bad_proof_of_work : Test :=
  let? ' (genesis, chain) := test_chain in
  let before := observed chain in
  let h := header genesis in
  let bad_header := {| hdr_version := hdr_version h; prev_blockhash := block_hash genesis;
                       hdr_merkle_root := hdr_merkle_root h; hdr_time := hdr_time h;
                       hdr_bits := 0; hdr_nonce := 0 |} in
  let bad := coinbase_block bad_header 1 5000000000 in
  let '(r, chain) := connect_block bad chain in
  check? assert (match r with Err InvalidProofOfWork => true | _ => false end) ;;
  assert_eq (observed chain) before.

Definition rejects_block_with_mismatched_merkle_root : Test :=
  let? ' (genesis, chain) := test_chain in
  let before := observed chain in
  let header := {| hdr_version := 1; prev_blockhash := block_hash genesis;
                   hdr_merkle_root := replicate 32 (zb 1); hdr_time := 1231006600;
                   hdr_bits := 0x1f00ffff; hdr_nonce := 0 |} in
  let? bad := test_mined {| header := header; transactions := [coinbase_transaction 1 5000000000] |} in
  let '(r, chain) := connect_block bad chain in
  check? assert (match r with Err MerkleRootMismatch => true | _ => false end) ;;
  assert_eq (observed chain) before.

Definition is_orphaned (r : ConnectResult) : bool := if r is Orphaned _ then true else false.
Definition is_connected (at_height : Z) (r : ConnectResult) : bool :=
  match r with Connected h _ => h =? at_height | _ => false end.

Definition stores_orphan_when_parent_missing : Test :=
  let? ' (_, chain) := test_chain in
  let orphan := coinbase_block (test_header (replicate 32 (zb 1)) 1231006600) 1 5000000000 in
  let '(r, chain) := connect_block orphan chain in
  let? result := expect r in
  check? assert (is_orphaned result) ;;
  assert_eq (height chain) 0.

Definition promotes_orphan_after_parent_connects : Test :=
  let? ' (genesis, chain) := test_chain in
  let? parent := test_child_block (block_hash genesis) 1 1231006550 in
  let? child := test_child_block (block_hash parent) 2 1231006600 in
  let '(r, chain) := connect_block child chain in
  let? stored := expect r in
  check? assert (is_orphaned stored) ;;
  let '(r, chain) := connect_block parent chain in
  let? result := expect r in
  check? assert (is_connected 1 result) ;;
  check? assert_eq (height chain) 2 ;;
  assert_eq (size (utxo chain)) 3%nat.

Definition connects_mined_block_one : Test :=
  let? ' (genesis, chain) := test_chain in
  let? block_one := test_child_block (block_hash genesis) 1 1231006600 in
  let '(r, chain) := connect_block block_one chain in
  let? result := expect r in
  check? assert (is_connected 1 result) ;;
  assert_eq (size (utxo chain)) 2%nat.

Definition reorgs_to_heavier_fork : Test :=
  let? ' (genesis, chain) := test_chain in
  let? fork_a := test_child_block (block_hash genesis) 1 1231006600 in
  let '(r, chain) := connect_block fork_a chain in
  let? _ := expect r in
  check? assert_eq (height chain) 1 ;;
  let? fork_b1 := test_child_block (block_hash genesis) 1 1231006700 in
  let '(r, chain) := connect_block fork_b1 chain in
  let? result := expect r in
  check? assert (match result with SideChain 1 _ => true | _ => false end) ;;
  check? assert_eq (tip_hash chain) (block_hash fork_a) ;;
  let? fork_b2 := test_child_block (block_hash fork_b1) 2 1231006800 in
  let '(r, chain) := connect_block fork_b2 chain in
  let? result := expect r in
  check? assert (match result with Reorganized _ _ => true | _ => false end) ;;
  check? assert_eq (height chain) 2 ;;
  check? assert_eq (tip_hash chain) (block_hash fork_b2) ;;
  assert_eq (size (utxo chain)) 3%nat.

Definition rejects_zero_network_time_at_genesis : Test :=
  let? genesis := test_genesis_block in
  assert (match new_genesis genesis 0 with Err InvalidNetworkTime => true | _ => false end).

(** The blocks at the heights from [height] on, each on the one before. *)
Fixpoint block_run (n : nat) (height : Z) (prev_hash : list byte) : Result unit (list Block) :=
  match n with
  | O => Ok []
  | S n =>
      let? block := test_child_block prev_hash height (1231006505 + height) in
      let? blocks := block_run n (height + 1) (block_hash block) in
      Ok (block :: blocks)
  end.
Fixpoint store_orphans (blocks : list Block) (chain : Chain) : Result unit Chain :=
  match blocks with
  | [] => Ok chain
  | block :: blocks =>
      let '(r, chain) := connect_block block chain in
      let? result := expect r in
      check? assert (is_orphaned result) ;;
      store_orphans blocks chain
  end.
Definition promotes_deep_orphan_chain_iteratively : Test :=
  let? ' (genesis, chain) := test_chain in
  let? blocks := block_run 12 1 (block_hash genesis) in
  let? chain := store_orphans (drop 1 blocks) chain in
  check? assert_eq (height chain) 0 ;;
  let? first := expect_some (blocks !! 0%nat) in
  let '(r, chain) := connect_block first chain in
  let? result := expect r in
  check? assert (is_connected 1 result) ;;
  check? assert_eq (height chain) 12 ;;
  assert_eq (size (utxo chain)) 13%nat.

(** The key and the script of the two tests that spend. *)
Definition test_key (byte_value : Z) : Result unit (SecretKey * list byte * list byte) :=
  let? sk := expect_some (SecretKey_from_slice (replicate 32 (zb byte_value))) in
  let pubkey_bytes := PublicKey_serialize (PublicKey_from_secret_key sk) in
  Ok (sk, pubkey_bytes, p2pkh_script_pubkey (hash160 pubkey_bytes)).
Definition spend_with_sig (funding_txid script_sig : list byte) : Transaction := {|
  tx_version := 1;
  tx_inputs := [{| previous_output := funding_txid; txin_index := 0; script_sig := script_sig;
                   txin_sequence := U32_MAX |}];
  tx_outputs := [{| txout_value := 4900000000; script_pubkey := [] |}];
  tx_lock_time := 0 |}.

Definition connects_block_with_valid_p2pkh_spend : Test :=
  let? key := test_key 0x33 in
  let '(sk, pubkey_bytes, lock_script) := key in
  let? ' (genesis, chain) := test_chain in
  let? block1 := test_locked_block (block_hash genesis) 1 1231006600 lock_script in
  let '(r, chain) := connect_block block1 chain in
  let? _ := expect r in
  let? funding := expect_some (transactions block1 !! 0%nat) in
  let spend_tx := spend_with_sig (tx_id funding) [] in
  let? sighash := expect (sighash_all spend_tx 0 [lock_script]) in
  let sig_bytes := Signature_serialize_der (sign_ecdsa sighash sk) ++ [x01] in
  let spend_tx := spend_with_sig (tx_id funding) (p2pkh_script_sig sig_bytes pubkey_bytes) in
  let? block2 := test_block_with (block_hash block1) 2 1231006700 spend_tx in
  let '(r, chain) := connect_block block2 chain in
  let? _ := expect r in
  check? assert_eq (height chain) 2 ;;
  assert_eq (size (utxo chain)) 3%nat.

Definition rejects_block_with_invalid_p2pkh_script_sig : Test :=
  let? key := test_key 0x44 in
  let '(_, _, lock_script) := key in
  let? ' (genesis, chain) := test_chain in
  let? block1 := test_locked_block (block_hash genesis) 1 1231006600 lock_script in
  let '(r, chain) := connect_block block1 chain in
  let? _ := expect r in
  let? funding := expect_some (transactions block1 !! 0%nat) in
  let spend_tx := spend_with_sig (tx_id funding) [x00] in
  let? block2 := test_block_with (block_hash block1) 2 1231006700 spend_tx in
  let before := observed chain in
  let '(r, chain) := connect_block block2 chain in
  check? assert (match r with Err InvalidScript => true | _ => false end) ;;
  assert_eq (observed chain) before.

Example chain_tests : all_pass [cumulative_work_adds_for_same_bits; connects_genesis_block;
  rejects_block_with_bad_proof_of_work; rejects_block_with_mismatched_merkle_root;
  stores_orphan_when_parent_missing; promotes_orphan_after_parent_connects;
  connects_mined_block_one; reorgs_to_heavier_fork; rejects_zero_network_time_at_genesis;
  connects_block_with_valid_p2pkh_spend; rejects_block_with_invalid_p2pkh_script_sig].
Proof. vm_compute. reflexivity. Qed.
Example deep_orphan_test : all_pass [promotes_deep_orphan_chain_iteratively].
Proof. vm_compute. reflexivity. Qed.
