(* ===== verification/MempoolTests.v ===== *)
(** * The unit tests of the mempool and the handles

    The [mod tests] of mempool.rs, mempool_handle.rs, chain_handle.rs and sighash.rs of
    bitrst-core, with the toy primitives.  A test of the pool is a computation on its chain
    and its pool. *)

From stdpp Require Import prelude gmap strings list.
From Stdlib Require Import Strings.Byte.
From S2P Require Import Prelude Bytes Testing Crypto U256 Pow Wire Transaction Merkle Block Utxo.
From S2P Require Import Script Sighash Journal Store Chain ChainExamples Mempool Handles ChainTests.

Local Open Scope Z_scope.
Local Open Scope list_scope.

#[local] Existing Instance toy_crypto.
#[local] Existing Instance canonical_order.
#[local] Existing Instance ex_flags.

(** ** Tests of the pool *)

Definition PoolTest (A : Type) : Type := SM (Chain * Mempool) unit A.
Definition attempt_chain {E A} (m : SM Chain E A) : PoolTest (Result E A) := λ '(c, p),
  let '(r, c) := m c in (Ok r, (c, p)).
Definition attempt_pool {E A} (m : SM Mempool E A) : PoolTest (Result E A) := λ '(c, p),
  let '(r, p) := m p in (Ok r, (c, p)).
Definition must_chain {E A} (m : SM Chain E A) : PoolTest A :=
  let! r := attempt_chain m in slift (expect r).
Definition must_pool {E A} (m : SM Mempool E A) : PoolTest A :=
  let! r := attempt_pool m in slift (expect r).
Definition chain_utxo : PoolTest UtxoSet := let! s := sget in sret (utxo s.1).
Definition sassert (b : bool) : PoolTest unit := slift (assert b).
Definition pool_has (txid : list byte) (expected : bool) : PoolTest unit :=
  let! s := sget in sassert (bool_decide (mempool_contains s.2 txid = expected)).
(** The tests pass the current unspent outputs of the chain to the pool. *)
Definition accept (tx : Transaction) : PoolTest (Result MempoolError AcceptedTx) :=
  let! u := chain_utxo in attempt_pool (accept_tx tx u).
Definition must_accept (tx : Transaction) : PoolTest AcceptedTx :=
  let! r := accept tx in slift (expect r).
Definition run_on (start : Result unit (Chain * Mempool)) (m : PoolTest unit) : Test :=
  let? s := start in (m s).1.

(** ** Helpers (mempool.rs, from line 698) *)

Definition TEST_NETWORK_TIME : Z := 1231006505.
Definition lock_script_of (pubkey_bytes : list byte) : list byte := p2pkh_script_pubkey (hash160 pubkey_bytes).

Definition two_output_coinbase (lock_script : list byte) : Transaction :=
  let tx := coinbase_transaction 1 5000000000 in
  {| tx_version := tx_version tx; tx_inputs := tx_inputs tx;
     tx_outputs := [{| txout_value := 2500000000; script_pubkey := lock_script |};
                    {| txout_value := 2500000000; script_pubkey := lock_script |}];
     tx_lock_time := tx_lock_time tx |}.
Definition funded_chain_with_two_p2pkh_outputs : Result unit (Chain * list byte * list byte) :=
  let? key := test_key 0x33 in
  let '(_, pubkey_bytes, _) := key in
  let lock_script := lock_script_of pubkey_bytes in
  let? ' (genesis, chain) := test_chain in
  let? block1 := test_merkle {| header := test_header (block_hash genesis) (TEST_NETWORK_TIME + 100);
                                transactions := [two_output_coinbase lock_script] |} in
  let? block1 := test_mined block1 in
  let '(r, chain) := connect_block block1 chain in
  let? _ := expect r in
  let? b1 := expect_some (active_block_at chain 1) in
  let? funding := expect_some (transactions b1 !! 0%nat) in
  Ok (chain, lock_script, tx_id funding).

Definition sign_p2pkh_spend_from_output (funding_txid : list byte) (output_index : Z)
    (lock_script : list byte) (output_value : Z) : Result unit Transaction :=
  let? key := test_key 0x33 in
  let '(sk, pubkey_bytes, _) := key in
  let tx script_sig := {|
    tx_version := 1;
    tx_inputs := [{| previous_output := funding_txid; txin_index := output_index;
                     script_sig := script_sig; txin_sequence := U32_MAX |}];
    tx_outputs := [{| txout_value := output_value; script_pubkey := [] |}];
    tx_lock_time := 0 |} in
  let? sighash := expect (sighash_all (tx []) 0 [lock_script]) in
  let sig_bytes := Signature_serialize_der (sign_ecdsa sighash sk) ++ [x01] in
  Ok (tx (p2pkh_script_sig sig_bytes pubkey_bytes)).
Definition sign_p2pkh_spend (funding_txid : list byte) (output_index : Z) (lock_script : list byte)
    (input_value fee : Z) : Result unit Transaction :=
  sign_p2pkh_spend_from_output funding_txid output_index lock_script (Z.max 0 (input_value - fee)).

Definition mine_block_on (parent : Block) (time height : Z) : Result unit Block :=
  let h := {| hdr_version := 1; prev_blockhash := block_hash parent; hdr_merkle_root := zero32;
              hdr_time := time; hdr_bits := hdr_bits (header parent); hdr_nonce := 0 |} in
  let? block := test_merkle (coinbase_block h height 5000000000) in
  test_mined block.
(** [block.transactions.push(tx)], the Merkle root and the search again. *)
Definition push_transaction (tx : Transaction) (block : Block) : Result unit Block :=
  let? block := test_merkle {| header := header block; transactions := transactions block ++ [tx] |} in
  test_mined block.
(** [spend.inputs[0].script_sig = script_sig] *)
Definition with_script_sig (script : list byte) (tx : Transaction) : Transaction := {|
  tx_version := tx_version tx;
  tx_inputs := match tx_inputs tx with
               | i :: rest => {| previous_output := previous_output i; txin_index := txin_index i;
                               script_sig := script; txin_sequence := txin_sequence i |} :: rest
               | [] => []
               end;
  tx_outputs := tx_outputs tx; tx_lock_time := tx_lock_time tx |}.

Definition genesis_pool : Result unit (Chain * Mempool) :=
  let? ' (_, chain) := test_chain in Ok (chain, new_mempool default_limits).
(** A test on the funded chain, with its script and its funding transaction. *)
Definition on_funded (limits : MempoolLimits) (m : list byte → list byte → PoolTest unit) : Test :=
  let? funded := funded_chain_with_two_p2pkh_outputs in
  let '(chain, lock_script, funding_txid) := funded in
  (m lock_script funding_txid (chain, new_mempool limits)).1.
Definition spend_of_missing (txid : list byte) (script : list byte) (outputs : list TxOutput) : Transaction := {|
  tx_version := 1;
  tx_inputs := [{| previous_output := txid; txin_index := 0; script_sig := script; txin_sequence := U32_MAX |}];
  tx_outputs := outputs; tx_lock_time := 0 |}.

(** ** mempool.rs *)

(** The pool of the first half goes on with the funded chain. *)
Definition rejects_coinbase_and_duplicate : Test :=
  let? start := genesis_pool in
  let first : PoolTest unit :=
    let! r := accept (coinbase_transaction 1 1) in
    do! sassert (match r with Err MempoolCoinbase => true | _ => false end) ;;
    let tx := spend_of_missing (replicate 32 (zb 9)) [] [{| txout_value := 1; script_pubkey := [] |}] in
    let! r := accept tx in
    sassert (match r with Err (MempoolUtxo (MissingInput _ _)) => true | _ => false end) in
  let '(r, (_, pool)) := first start in
  check? r ;;
  let? funded := funded_chain_with_two_p2pkh_outputs in
  let '(chain, lock_script, funding_txid) := funded in
  let second : PoolTest unit :=
    let! valid := slift (sign_p2pkh_spend funding_txid 0 lock_script 2500000000 100000000) in
    let! _ := must_accept valid in
    let! r := accept valid in
    sassert (match r with Err (Duplicate _) => true | _ => false end) in
  (second (chain, pool)).1.

Definition rejects_duplicate_inputs_within_transaction : Test :=
  on_funded default_limits (λ lock_script funding_txid,
    let! tx := slift (sign_p2pkh_spend funding_txid 0 lock_script 2500000000 100000000) in
    let! input := slift (expect_some (tx_inputs tx !! 0%nat)) in
    let tx := {| tx_version := tx_version tx; tx_inputs := tx_inputs tx ++ [input];
                 tx_outputs := tx_outputs tx; tx_lock_time := tx_lock_time tx |} in
    let! r := accept tx in
    sassert (match r with Err (DuplicateInput _ _) => true | _ => false end)).

Definition rejects_oversized_and_malformed_transactions : Test :=
  run_on genesis_pool (
    let! r := accept (spend_of_missing (replicate 32 (zb 1)) [] []) in
    do! sassert (match r with Err (Malformed _) => true | _ => false end) ;;
    let huge_script := replicate (Z.to_nat (MAX_SCRIPT_SIZE + 1)) x00 in
    let! r := accept (spend_of_missing (replicate 32 (zb 1)) huge_script
                        [{| txout_value := 0; script_pubkey := [] |}]) in
    sassert (match r with Err (Malformed _) => true | _ => false end)).

Definition accepts_valid_p2pkh_and_reports_fee_metadata : Test :=
  on_funded default_limits (λ lock_script funding_txid,
    let fee := 200000000 in
    let! tx := slift (sign_p2pkh_spend funding_txid 0 lock_script 2500000000 fee) in
    let! accepted := must_accept tx in
    do! sassert (at_fee accepted =? fee) ;;
    do! sassert (0 <? at_size accepted) ;;
    pool_has (at_txid accepted) true).

Definition rejects_conflicting_spends_and_invalid_scripts : Test :=
  on_funded default_limits (λ lock_script funding_txid,
    let! bad := slift (sign_p2pkh_spend funding_txid 0 lock_script 2500000000 100000000) in
    let! r := accept (with_script_sig [x01] bad) in
    do! sassert (match r with Err MempoolInvalidScript => true | _ => false end) ;;
    let! first := slift (sign_p2pkh_spend funding_txid 0 lock_script 2500000000 100000000) in
    let! _ := must_accept first in
    let! conflict := slift (sign_p2pkh_spend funding_txid 0 lock_script 2500000000 200000000) in
    let! r := accept conflict in
    sassert (match r with Err (ConflictingSpend _ _) => true | _ => false end)).

Definition evicts_lowest_fee_rate_then_oldest : Test :=
  on_funded {| max_tx_count := 1; max_bytes := DEFAULT_MAX_MEMPOOL_BYTES |} (λ lock_script funding_txid,
    let! low_fee := slift (sign_p2pkh_spend funding_txid 0 lock_script 2500000000 1) in
    let! _ := must_accept low_fee in
    let! high_fee := slift (sign_p2pkh_spend funding_txid 1 lock_script 2500000000 500000000) in
    let! _ := must_accept high_fee in
    do! pool_has (tx_id low_fee) false ;;
    pool_has (tx_id high_fee) true).

Definition rejects_low_fee_when_pool_is_full : Test :=
  on_funded {| max_tx_count := 1; max_bytes := U64_MAX |} (λ lock_script funding_txid,
    let! resident := slift (sign_p2pkh_spend funding_txid 0 lock_script 2500000000 500000000) in
    let! _ := must_accept resident in
    let! challenger := slift (sign_p2pkh_spend funding_txid 1 lock_script 2500000000 1) in
    let! r := accept challenger in
    sassert (match r with Err AtCapacity => true | _ => false end)).

Definition rejects_when_byte_capacity_is_exceeded : Test :=
  let? funded := funded_chain_with_two_p2pkh_outputs in
  let '(chain, lock_script, funding_txid) := funded in
  let? resident := sign_p2pkh_spend funding_txid 0 lock_script 2500000000 500000000 in
  let limits := {| max_tx_count := 100; max_bytes := serialized_size resident |} in
  let body : PoolTest unit :=
    let! _ := must_accept resident in
    let! challenger := slift (sign_p2pkh_spend funding_txid 1 lock_script 2500000000 1) in
    let! r := accept challenger in
    sassert (match r with Err AtCapacity => true | _ => false end) in
  (body (chain, new_mempool limits)).1.

Definition evicting_parent_removes_descendants_and_frees_capacity : Test :=
  on_funded {| max_tx_count := 2; max_bytes := U64_MAX |} (λ lock_script funding_txid,
    let! tx_a := slift (sign_p2pkh_spend funding_txid 0 lock_script 2500000000 1) in
    let! tx_b := slift (sign_p2pkh_spend_from_output (tx_id tx_a) 0 [] 2300000000) in
    let! _ := must_accept tx_a in
    let! _ := must_accept tx_b in
    do! pool_has (tx_id tx_b) true ;;
    let! tx_c := slift (sign_p2pkh_spend funding_txid 1 lock_script 2500000000 500000000) in
    let! _ := must_accept tx_c in
    do! pool_has (tx_id tx_a) false ;;
    do! pool_has (tx_id tx_b) false ;;
    let! s := sget in
    sassert (is_none (get_transaction s.2 (tx_id tx_b)))).

Example mempool_admission_tests : all_pass [rejects_coinbase_and_duplicate;
  rejects_duplicate_inputs_within_transaction; rejects_oversized_and_malformed_transactions;
  accepts_valid_p2pkh_and_reports_fee_metadata; rejects_conflicting_spends_and_invalid_scripts;
  evicts_lowest_fee_rate_then_oldest; rejects_low_fee_when_pool_is_full;
  rejects_when_byte_capacity_is_exceeded; evicting_parent_removes_descendants_and_frees_capacity].
Proof. vm_compute. reflexivity. Qed.

(** ** mempool.rs: confirmation and reorganization *)

(** A spend of the first funding output is admitted; a block with it is mined. *)
Definition admitted_spend (lock_script funding_txid : list byte) : PoolTest Transaction :=
  let! spend := slift (sign_p2pkh_spend funding_txid 0 lock_script 2500000000 100000000) in
  let! _ := must_accept spend in
  sret spend.
Definition active_block (h : Z) : PoolTest Block :=
  let! s := sget in slift (expect_some (active_block_at s.1 h)).
Definition block_with_spend (fund_parent : Block) (spend : Transaction) : PoolTest Block :=
  let! block := slift (mine_block_on fund_parent (TEST_NETWORK_TIME + 300) 2) in
  slift (push_transaction spend block).
(** [pool.synchronize_to_chain(chain.utxo(), &[chain.active_block_at(2)..], &[])] *)
Definition synchronize_with_b2 : PoolTest unit :=
  let! b2 := active_block 2 in
  let! u := chain_utxo in
  must_pool (synchronize_to_chain u [b2] []).
(** The two alternative blocks; the second makes the chain reorganize. *)
Definition connect_alternative (fund_parent : Block) : PoolTest ConnectResult :=
  let! alt_b2 := slift (mine_block_on fund_parent (TEST_NETWORK_TIME + 500) 2) in
  let! alt_b3 := slift (mine_block_on alt_b2 (TEST_NETWORK_TIME + 600) 3) in
  let! _ := must_chain (connect_block alt_b2) in
  let! _ := must_chain chain_take_events in
  must_chain (connect_block alt_b3).
(** [pool.apply_chain_events(&chain.take_events()..., &chain)] *)
Definition apply_taken_events : PoolTest unit :=
  let! events := must_chain chain_take_events in
  let! s := sget in
  must_pool (apply_chain_events events s.1).
Definition pool_validates (tx : Transaction) (expected : bool) : PoolTest unit :=
  let! s := sget in sassert (bool_decide (is_valid_tx s.2 tx (utxo s.1) = expected)).

Definition removes_confirmed_and_conflicting_on_block_connect : Test :=
  on_funded default_limits (λ lock_script funding_txid,
    let! spend := admitted_spend lock_script funding_txid in
    let! parent := active_block 1 in
    let! block := slift (test_block_with (block_hash parent) 2 (TEST_NETWORK_TIME + 200) spend) in
    let! _ := must_chain (connect_block block) in
    do! apply_taken_events ;;
    pool_has (tx_id spend) false).

Definition resync_removes_confirmed_active_chain_transactions : Test :=
  on_funded default_limits (λ lock_script funding_txid,
    let! fund_parent := active_block 1 in
    let! spend := admitted_spend lock_script funding_txid in
    let! block := block_with_spend fund_parent spend in
    let! _ := must_chain (connect_block block) in
    do! pool_has (tx_id spend) true ;;
    let! s := sget in
    do! must_pool (resync_to_active_chain s.1 0) ;;
    pool_has (tx_id spend) false).

Definition reorg_restores_disconnected_valid_tx : Test :=
  on_funded default_limits (λ lock_script funding_txid,
    let! fund_parent := active_block 1 in
    let! spend := admitted_spend lock_script funding_txid in
    let! block := block_with_spend fund_parent spend in
    let! _ := must_chain (connect_block block) in
    do! synchronize_with_b2 ;;
    do! pool_has (tx_id spend) false ;;
    let! result := connect_alternative fund_parent in
    do! sassert (match result with Reorganized _ _ => true | _ => false end) ;;
    do! apply_taken_events ;;
    do! pool_has (tx_id spend) true ;;
    pool_validates spend true).

Definition reorg_evicts_stale_invalid_entries_using_validation_view : Test :=
  on_funded default_limits (λ lock_script funding_txid,
    let! fund_parent := active_block 1 in
    let! spend := admitted_spend lock_script funding_txid in
    let! block := block_with_spend fund_parent spend in
    let! _ := must_chain (connect_block block) in
    do! synchronize_with_b2 ;;
    let! _ := connect_alternative fund_parent in
    do! apply_taken_events ;;
    let invalid := with_script_sig [x01] spend in
    do! pool_validates invalid false ;;
    do! pool_has (tx_id invalid) false ;;
    let! s := sget in
    do! sfor (map fst (map_to_list (entries s.2))) (λ txid,
          let! tx := slift (expect_some (get_transaction s.2 txid)) in
          pool_validates tx true) ;;
    pool_has (tx_id spend) true).

Definition resync_after_cursor_lag_restores_disconnected_valid_tx : Test :=
  on_funded default_limits (λ lock_script funding_txid,
    let! fund_parent := active_block 1 in
    let! spend := admitted_spend lock_script funding_txid in
    let! block := block_with_spend fund_parent spend in
    let! _ := must_chain (connect_block block) in
    do! synchronize_with_b2 ;;
    do! pool_has (tx_id spend) false ;;
    let! s := sget in
    let since_seq := last_seq (event_cursor (event_journal s.1)) in
    let! _ := connect_alternative fund_parent in
    let! s := sget in
    do! must_pool (resync_to_active_chain s.1 since_seq) ;;
    do! pool_has (tx_id spend) true ;;
    pool_validates spend true).

Definition serve_transaction_drops_stale_entries : Test :=
  on_funded default_limits (λ lock_script funding_txid,
    let! fund_parent := active_block 1 in
    let! spend := admitted_spend lock_script funding_txid in
    let! block := block_with_spend fund_parent spend in
    let! _ := must_chain (connect_block block) in
    let! u := chain_utxo in
    let! served := (λ '(c, p), let '(tx, p) := serve_transaction (tx_id spend) u p in (Ok tx, (c, p))) in
    do! sassert (is_none served) ;;
    pool_has (tx_id spend) false).

Example mempool_reorganization_tests : all_pass [removes_confirmed_and_conflicting_on_block_connect;
  resync_removes_confirmed_active_chain_transactions; reorg_restores_disconnected_valid_tx;
  reorg_evicts_stale_invalid_entries_using_validation_view;
  resync_after_cursor_lag_restores_disconnected_valid_tx; serve_transaction_drops_stale_entries].
Proof. vm_compute. reflexivity. Qed.

(** ** mempool_handle.rs *)

Definition concurrent_reads_and_exclusive_accept : Test :=
  let? ' (_, chain) := test_chain in
  let handle := pool_with_limits {| max_tx_count := 10; max_bytes := 1000000 |} in
  let? len := expect (pool_len handle) in
  check? assert_eq len 0 ;;
  let tx := spend_of_missing (replicate 32 (zb 1)) [] [{| txout_value := 1; script_pubkey := [] |}] in
  let '(r, handle) := pool_accept_tx tx (utxo chain) handle in
  check? assert (match r with Err (Admission _) => true | _ => false end) ;;
  let? len := expect (pool_len handle) in
  assert_eq len 0.

(** ** chain_handle.rs *)

Definition handle_test_chain : Result unit (Block * ChainHandle) :=
  let? genesis := test_genesis_block in
  let? handle := expect (handle_new_genesis genesis TEST_NETWORK_TIME) in
  Ok (genesis, handle).
Definition take_events_returns_and_clears_genesis_event : Test :=
  let? ' (_, handle) := handle_test_chain in
  let '(r, handle) := handle_take_events handle in
  let? events := expect r in
  check? assert_eq (length events) 1%nat ;;
  let '(r, handle) := handle_take_events handle in
  let? events := expect r in
  assert_eq (length events) 0%nat.
Definition get_block_returns_genesis_by_hash : Test :=
  let? ' (genesis, handle) := handle_test_chain in
  let hash := block_hash genesis in
  let? has := expect (has_block hash handle) in
  check? assert has ;;
  let? found := expect (get_block hash handle) in
  let? block := expect_some found in
  assert_eq (block_hash block) hash.
Definition collect_events_is_non_destructive_and_survives_take_events : Test :=
  let? ' (genesis, handle) := handle_test_chain in
  let cursor := {| last_seq := 0 |} in
  let '(r, (handle, cursor)) := handle_collect_events (handle, cursor) in
  let? collected := expect r in
  check? assert_eq (length collected) 1%nat ;;
  let '(r, (handle, cursor)) := handle_collect_events (handle, cursor) in
  let? again := expect r in
  check? assert_eq (length again) 0%nat ;;
  let '(r, handle) := handle_take_events handle in
  let? wallet := expect r in
  check? assert_eq (length wallet) 1%nat ;;
  let? child := test_child_block (block_hash genesis) 1 (TEST_NETWORK_TIME + 600) in
  let '(r, handle) := handle_connect_block child handle in
  let? _ := expect r in
  let '(r, _) := handle_collect_events (handle, cursor) in
  let? collected := expect r in
  assert (match collected with [BlockConnected 1 _ _] => true | _ => false end).

(** ** sighash.rs *)

Definition sighash_all_matches_hand_computed_fixture : Test :=
  let funding_script := bytes_of [0x76; 0xa9; 0x14] ++ replicate 20 (zb 0xab) ++ bytes_of [0x88; 0xac] in
  let tx := {|
    tx_version := 1;
    tx_inputs := [{| previous_output := replicate 32 (zb 1); txin_index := 0; script_sig := [zb 0x51];
                     txin_sequence := 0xffffffff |}];
    tx_outputs := [{| txout_value := 4900000000; script_pubkey := [zb 0x51] |}];
    tx_lock_time := 0 |} in
  let? digest := expect (sighash_all tx 0 [funding_script]) in
  let manual := le_bytes 4 1 ++ [zb 1] ++ replicate 32 (zb 1) ++ le_bytes 4 0 ++
    [zb (zlen funding_script)] ++ funding_script ++ le_bytes 4 0xffffffff ++ [zb 1] ++
    le_bytes 8 4900000000 ++ [zb 1] ++ [zb 0x51] ++ le_bytes 4 0 ++ le_bytes 4 SIGHASH_ALL in
  assert_eq digest (sha256d manual).

Example handle_tests : all_pass [concurrent_reads_and_exclusive_accept;
  take_events_returns_and_clears_genesis_event; get_block_returns_genesis_by_hash;
  collect_events_is_non_destructive_and_survives_take_events;
  sighash_all_matches_hand_computed_fixture].
Proof. vm_compute. reflexivity. Qed.
