(* ===== verification/NetTests.v ===== *)
(** * The unit tests of the protocol and of the relay (bitrst-net)

    The [mod tests] of constants.rs, codec/, envelope.rs, framing.rs, handshake.rs,
    inbound_capacity.rs, seeds.rs and relay.rs, with the toy primitives.  Time is in seconds. *)

From stdpp Require Import prelude gmap strings list.
From Stdlib Require Import Strings.Byte.
From S2P Require Import Prelude Bytes Testing Crypto U256 Pow Wire Transaction Merkle Block Utxo.
From S2P Require Import Script Sighash Journal Store Chain ChainExamples Mempool Message Envelope.
From S2P Require Import Framing Handshake Capacity Handles Relay Peer Peers Miner Wallet TestSupport CoreTests ChainTests MempoolTests.

Local Open Scope Z_scope.
Local Open Scope list_scope.

#[local] Existing Instance toy_crypto.
#[local] Existing Instance canonical_order.
#[local] Existing Instance ex_flags.

(** ** constants.rs *)

Definition mainnet_magic_matches_bitcoin_core : Test :=
  assert_eq (magic Mainnet) (bytes_of [0xf9; 0xbe; 0xb4; 0xd9]).
Definition testnet_magic_matches_bitcoin_core : Test :=
  assert_eq (magic Testnet) (bytes_of [0x0b; 0x11; 0x09; 0x07]).
Definition message_header_size_is_twenty_four_bytes : Test := assert_eq MESSAGE_HEADER_SIZE 24.
Definition payload_limit_matches_block_ceiling : Test := assert_eq MAX_PAYLOAD_SIZE MAX_BLOCK_SERIALIZED_SIZE.
Example constants_tests : all_pass [mainnet_magic_matches_bitcoin_core; testnet_magic_matches_bitcoin_core;
  message_header_size_is_twenty_four_bytes; payload_limit_matches_block_ceiling].
Proof. vm_compute. reflexivity. Qed.

(** ** codec/ *)

Definition inv_item (t : InvType) (hash : list byte) : InventoryVector := {| inv_type := t; inv_hash := hash |}.
Definition sample_hash (b : Z) : list byte := replicate 32 (zb b).
Definition inv_roundtrips_single_block_entry : Test :=
  let items := [inv_item InvBlock (sample_hash 0xab)] in
  let? encoded := expect (encode_inv items) in
  assert (match decode_inv encoded with Ok decoded => bool_decide (decoded = items) | _ => false end).
Definition getdata_roundtrips_transaction_entry : Test :=
  let items := [inv_item InvTransaction (sample_hash 1)] in
  let? encoded := expect (encode_getdata items) in
  assert (match decode_getdata encoded with Ok decoded => bool_decide (decoded = items) | _ => false end).
Definition inv_rejects_unknown_type : Test :=
  let? encoded := expect (encode_inv [inv_item InvBlock (sample_hash 1)]) in
  let encoded := <[4%nat := zb 0]> (<[3%nat := zb 0]> (<[2%nat := zb 0]> (<[1%nat := zb 99]> encoded))) in
  assert (match decode_inv encoded with Err (UnknownInventoryType t) => t =? 99 | _ => false end).
Definition version_roundtrip_includes_relay_flag : Test :=
  let message := default_version_message 0xdeadbeefcafebabe 1700000000 42 in
  let? encoded := expect (encode_version message) in
  let? decoded := expect (decode_version encoded) in
  assert_eq decoded message.
Definition version_rejects_oversized_user_agent : Test :=
  let m := default_version_message 1 2 0 in
  let message := {| vm_version := vm_version m; services := services m; timestamp := timestamp m;
                    vm_nonce := vm_nonce m;
                    user_agent := replicate (Z.to_nat (MAX_USER_AGENT_LEN + 1)) x78;
                    start_height := start_height m; relay := relay m |} in
  assert (is_err (encode_version message)).
Definition tx_roundtrip_through_payload_codec : Test :=
  let tx := coinbase_transaction 1 5000000000 in
  let message := msg_tx tx in
  let? encoded := expect (encode_payload message) in
  let? decoded := expect (decode_payload encoded.1 encoded.2) in
  check? assert_eq decoded message ;;
  assert_eq (payload decoded) (PTx tx).
Definition block_roundtrip_through_payload_codec : Test :=
  let header := {| hdr_version := 1; prev_blockhash := zero32; hdr_merkle_root := zero32; hdr_time := 1;
                   hdr_bits := 0x1f00ffff; hdr_nonce := 0 |} in
  let block := coinbase_block header 1 5000000000 in
  let? encoded := expect (encode_payload (msg_block block)) in
  let? decoded := expect (decode_payload encoded.1 encoded.2) in
  assert_eq (payload decoded) (PBlock block).
Definition unsupported_command_uses_protocol_error_variant : Test :=
  assert (match decode_payload (str "notacommand") [] with
          | Err (UnsupportedCommand command) => bool_decide (command = str "notacommand")
          | _ => false
          end).
Example codec_tests : all_pass [inv_roundtrips_single_block_entry; getdata_roundtrips_transaction_entry;
  inv_rejects_unknown_type; version_roundtrip_includes_relay_flag; version_rejects_oversized_user_agent;
  tx_roundtrip_through_payload_codec; block_roundtrip_through_payload_codec;
  unsupported_command_uses_protocol_error_variant].
Proof. vm_compute. reflexivity. Qed.

(** ** envelope.rs *)

Definition invalid_command {A} (r : Result NetError A) : bool :=
  match r with Err InvalidCommand => true | _ => false end.
Definition command_rejects_interior_nul : Test :=
  assert (invalid_command (from_header_bytes ([x76; x00; x65] ++ replicate 9 x00))).
Definition command_rejects_non_ascii : Test :=
  assert (invalid_command (from_header_bytes (xff :: replicate 11 x00))).
Definition command_accepts_nul_padded_version : Test :=
  let? encoded := expect (encode_command (str "version")) in
  let? command := expect (from_header_bytes encoded) in
  assert_eq (command_name command) (str "version").
Definition header_roundtrip_matches_payload_checksum : Test :=
  let payload := str "payload-bytes" in
  let? header_bytes := expect (encode_message_header (str "verack") payload (magic Mainnet) MAX_PAYLOAD_SIZE) in
  let? header := expect (decode_message_header header_bytes (magic Mainnet) MAX_PAYLOAD_SIZE) in
  let? _ := expect (verify_checksum header payload) in
  check? assert_eq (command_name (mh_command header)) (str "verack") ;;
  assert_eq (payload_len header) (zlen payload).
Definition header_rejects_wrong_magic : Test :=
  let? header_bytes := expect (encode_message_header (str "ping") [] (magic Mainnet) MAX_PAYLOAD_SIZE) in
  assert (match decode_message_header header_bytes (magic Testnet) MAX_PAYLOAD_SIZE with
          | Err InvalidMagic => true
          | _ => false
          end).
Definition header_rejects_oversized_payload_length : Test :=
  let? header_bytes := expect (encode_message_header (str "block") [] (magic Mainnet) MAX_PAYLOAD_SIZE) in
  let header_bytes := take 16 header_bytes ++ le_bytes 4 (MAX_PAYLOAD_SIZE + 1) ++ drop 20 header_bytes in
  assert (match decode_message_header header_bytes (magic Mainnet) MAX_PAYLOAD_SIZE with
          | Err (PayloadTooLarge _ _) => true
          | _ => false
          end).
Definition checksum_matches_sha256d_prefix : Test :=
  let payload := str "1234567890" in
  assert_eq (net_checksum payload) (take 4 (sha256d payload)).
Example envelope_tests : all_pass [command_rejects_interior_nul; command_rejects_non_ascii;
  command_accepts_nul_padded_version; header_roundtrip_matches_payload_checksum;
  header_rejects_wrong_magic; header_rejects_oversized_payload_length; checksum_matches_sha256d_prefix].
Proof. vm_compute. reflexivity. Qed.

(** ** framing.rs: what is written to one end of a pipe is read from the other *)

Definition duplex_roundtrip_verack : Test :=
  let message := msg_verack in
  let '(r, pipe) := write_message (writer := byte_buffer) Mainnet message [] in
  let? _ := expect r in
  let? decoded := expect (read_message (reader := dribble) Mainnet pipe).1 in
  assert_eq decoded message.
Definition framed_reader_handles_split_header : Test :=
  let message := msg_verack in
  let '(r, pipe) := write_message (writer := byte_buffer) Testnet message [] in
  let? _ := expect r in
  let? decoded := expect (framed_read_message (reader := dribble) Testnet ([], pipe)).1 in
  assert_eq (command decoded) (str "verack").
Example framing_tests : all_pass [duplex_roundtrip_verack; framed_reader_handles_split_header].
Proof. vm_compute. reflexivity. Qed.

(** ** handshake.rs *)

Definition test_local_version (nonce : Z) : VersionMessage := default_version_message nonce 1700000000 0.
Definition outbound_handshake_requires_version_before_verack : Test :=
  let state := new_handshake Outbound {| local_nonce := 42; hs_timeout := 1 |} in
  check? assert_eq (phase state) AwaitingPeerVersion ;;
  let '(r, state) := on_message msg_verack None state in
  check? assert (match r with
                 | Err (HandshakeViolation reason) => bool_decide (reason = "unexpected handshake message"%string)
                 | _ => false
                 end) ;;
  let '(r, state) := on_message (msg_version (test_local_version 99)) None state in
  let? replies := expect r in
  check? assert_eq replies [msg_verack] ;;
  check? assert_eq (phase state) AwaitingVerack ;;
  let '(r, state) := on_message msg_verack None state in
  let? _ := expect r in
  assert_eq (phase state) Established.
Definition inbound_handshake_sends_version_and_verack : Test :=
  let state := new_handshake Inbound {| local_nonce := 7; hs_timeout := 1 |} in
  let '(r, state) := on_message (msg_version (test_local_version 11)) (Some (test_local_version 7)) state in
  let? replies := expect r in
  assert_eq (map command replies) [str "version"; str "verack"].
Definition matching_nonce_is_self_connection : Test :=
  let state := new_handshake Outbound {| local_nonce := 55; hs_timeout := 1 |} in
  assert (match (on_message (msg_version (test_local_version 55)) None state).1 with
          | Err SelfConnection => true
          | _ => false
          end).
Example handshake_tests : all_pass [outbound_handshake_requires_version_before_verack;
  inbound_handshake_sends_version_and_verack; matching_nonce_is_self_connection].
Proof. vm_compute. reflexivity. Qed.

(** ** inbound_capacity.rs *)

(** A call by task [i], and the drop of its guard. *)
Definition acquire (i : nat) (s : InboundCapacity) : Task * InboundCapacity :=
  let '(t, active) := try_acquire s in (t, set_task i t active s).
Definition drop_guard (i : nat) (s : InboundCapacity) : InboundCapacity := set_task i Refused (release s) s.
Definition acquire_respects_max_and_releases_on_drop : Test :=
  let capacity := new_capacity 2 4 in
  let '(first, capacity) := acquire 0 capacity in
  check? assert_eq first Holding ;;
  let '(second, capacity) := acquire 1 capacity in
  check? assert_eq second Holding ;;
  check? assert_eq (acquire 2 capacity).1 Refused ;;
  check? assert_eq (active capacity) 2 ;;
  let capacity := drop_guard 0 capacity in
  check? assert_eq (active capacity) 1 ;;
  let capacity := drop_guard 1 capacity in
  check? assert_eq (active capacity) 0 ;;
  assert_eq (acquire 3 capacity).1 Holding.
(** ** seeds.rs *)

Definition is_loopback (addr : SocketAddr) : bool := bool_decide (head addr.1 = Some 127).
Definition localhost_strategy_never_requires_dns : Test :=
  let seeds := seed_addresses (Localhost 18333 4) Testnet in
  check? assert_eq (length seeds) 4%nat ;;
  assert (forallb is_loopback seeds).
Definition builtin_strategy_returns_hardcoded_loopback_seeds : Test :=
  let mainnet := seed_addresses Builtin Mainnet in
  let testnet := seed_addresses Builtin Testnet in
  check? assert (negb (bool_decide (mainnet = []))) ;;
  check? assert (negb (bool_decide (testnet = []))) ;;
  check? assert (forallb is_loopback mainnet) ;;
  check? assert (forallb is_loopback testnet) ;;
  assert (negb (bool_decide (mainnet = testnet))).
Example capacity_and_seeds_tests : all_pass [acquire_respects_max_and_releases_on_drop;
  localhost_strategy_never_requires_dns; builtin_strategy_returns_hardcoded_loopback_seeds].
Proof. vm_compute. reflexivity. Qed.
