(* ===== verification/RelayTests.v ===== *)
(** * The unit tests of the relay (bitrst-net/src/relay.rs)

    The tests call the message handler on a chain with one block, an empty pool and the state
    of a new peer, with the builders of TestSupport.v and the toy primitives.  A test is a
    computation on the node; time is in seconds. *)

From stdpp Require Import prelude gmap strings list.
From Stdlib Require Import Strings.Byte.
From S2P Require Import Prelude Bytes Testing Crypto U256 Wire Transaction Merkle Block Utxo Chain ChainExamples.
From S2P Require Import Script Sighash Mempool Message Handles Relay Wallet TestSupport.

Local Open Scope Z_scope.
Local Open Scope list_scope.

#[local] Existing Instance toy_crypto.
#[local] Existing Instance canonical_order.
#[local] Existing Instance ex_flags.

#[export] Instance RelayAction_eq_dec : EqDecision RelayAction.
Proof. solve_decision. Defined.

Definition RelayTest : Type → Type := SM Node unit.
(** The call, with its error as a value. *)
Definition handle (message : Message) (now : Z) : RelayTest (Result RelayError RelayAction) := λ n,
  let '(r, n) := handle_peer_message message now n in (Ok r, n).
Definition must_handle (message : Message) (now : Z) : RelayTest RelayAction :=
  let! r := handle message now in slift (expect r).
Definition must_return (message : Message) (now : Z) (action : RelayAction) : RelayTest unit :=
  let! a := must_handle message now in slift (assert_eq a action).
(** [matches!(handle_peer_message(..), Ok(RelayAction::Reply(_)))] *)
Definition must_reply (message : Message) (now : Z) : RelayTest unit :=
  let! r := handle message now in
  slift (assert (match r with Ok (Reply _) => true | _ => false end)).
(** One reply, with this command. *)
Definition must_serve (message : Message) (now : Z) (name : list byte) : RelayTest unit :=
  let! a := must_handle message now in
  slift (match a with
         | Reply messages => check? assert_eq (length messages) 1%nat ;; assert_eq (map command messages) [name]
         | _ => Panic
         end).
Definition on_chain {E A} (m : SM ChainHandle E A) : RelayTest A := λ n,
  let '(r, chain) := m (n_chain n) in (expect r, set_chain chain n).
Definition accept_spend (spend : Transaction) : RelayTest unit := λ n,
  let '(r, n) := with_chain_on_pool (λ active, pool_accept_tx spend (utxo active)) n in
  (let? _ := expect r in Ok (), n).
Definition pool_lacks (txid : list byte) : RelayTest unit :=
  let! n := sget in
  let! present := slift (expect (pool_contains txid (n_pool n))) in
  slift (assert (negb present)).

Definition relay_state (chain : ChainHandle) : Result unit PeerRelayState :=
  let? cursor := expect (handle_event_cursor chain) in Ok (with_event_cursor cursor).
(** The test, with the genesis block it begins with. *)
Definition with_node (test : Block → RelayTest unit) : Test :=
  let? genesis := expect (genesis_block 1) in
  let? chain := expect (handle_new_genesis genesis NETWORK_TIME) in
  let? relay := relay_state chain in
  (test genesis {| n_chain := chain; n_pool := pool_with_limits default_limits; n_relay := relay |}).1.

Definition now : Z := 1000.
Definition hash_of (b : Z) : list byte := replicate 32 (zb b).
Definition one_item (t : InvType) (hash : list byte) : list InventoryVector :=
  [{| inv_type := t; inv_hash := hash |}].

(** ** Announcements and requests *)

Definition inv_requests_unknown_blocks_only : Test := with_node (λ _,
  let unknown := one_item InvBlock (hash_of 9) in
  must_return (msg_inv unknown) now (Reply [msg_getdata unknown])).
Definition inv_requests_unknown_transactions_only : Test := with_node (λ _,
  let unknown := one_item InvTransaction (hash_of 8) in
  must_return (msg_inv unknown) now (Reply [msg_getdata unknown])).
Definition inv_suppresses_duplicate_requests : Test := with_node (λ _,
  let unknown := one_item InvBlock (hash_of 9) in
  do! must_reply (msg_inv unknown) now ;;
  must_return (msg_inv unknown) now NoAction).

Definition expired_requests_can_be_retried : Test :=
  let tracker := new_tracker 8 60 in
  let hash := hash_of 1 in
  let '(first, tracker) := mark_requested hash now tracker in
  check? assert first ;;
  let '(again, tracker) := mark_requested hash now tracker in
  check? assert (negb again) ;;
  let retry_at := now + 61 in
  let tracker := expire_before retry_at tracker in
  check? assert_eq (pending_count tracker) 0 ;;
  assert (mark_requested hash retry_at tracker).1.
Definition tx_tracker_respects_capacity : Test :=
  let tracker : TxRequestTracker := new_tracker 1 60 in
  let '(first, tracker) := mark_requested (hash_of 1) now tracker in
  check? assert first ;;
  assert (negb (mark_requested (hash_of 2) now tracker).1).

(** ** What is served *)

Definition getdata_serves_known_block : Test := with_node (λ genesis,
  must_serve (msg_getdata (one_item InvBlock (block_hash genesis))) now (str "block")).

(** [child_block(&parent, 2, 200)] with the spend, solved again. *)
Definition confirming_block (parent : Block) (spend : Transaction) : Result unit Block :=
  let? confirm := expect (child_block 1 parent 2 200) in
  let? confirm := expect (commit_merkle
    {| header := header confirm; transactions := transactions confirm ++ [spend] |}) in
  expect (solve_block 1 confirm).
Definition getdata_does_not_serve_stale_mempool_transaction : Test := with_node (λ _,
  let! funded := on_chain (funded_p2pkh_spend 1) in
  let '(spend, txid) := funded in
  do! accept_spend spend ;;
  let! n := sget in
  let! tip := slift (expect (handle_tip_hash (n_chain n))) in
  let! found := slift (expect (get_block tip (n_chain n))) in
  let! parent := slift (expect_some found) in
  let! confirm := slift (confirming_block parent spend) in
  do! on_chain (handle_connect_block confirm) ;;
  do! must_return (msg_getdata (one_item InvTransaction txid)) now NoAction ;;
  pool_lacks txid).
Definition getdata_serves_mempool_transaction : Test := with_node (λ _,
  let! funded := on_chain (funded_p2pkh_spend 1) in
  let spend := funded.1 in
  let txid := tx_id spend in
  do! accept_spend spend ;;
  must_serve (msg_getdata (one_item InvTransaction txid)) now (str "tx")).

(** ** Transactions and blocks *)

Definition accepted_tx_announces_inventory : Test := with_node (λ _,
  let! funded := on_chain (funded_p2pkh_spend 1) in
  let spend := funded.1 in
  must_return (msg_tx spend) now (Announce (one_item InvTransaction (tx_id spend)))).
Definition invalid_tx_is_ignored_without_disconnect : Test := with_node (λ _,
  let! funded := on_chain (funded_p2pkh_spend 1) in
  let spend := funded.1 in
  must_return (msg_tx (set_script_sig spend 0 [x01])) now NoAction).
Definition connected_block_triggers_inv_announcement : Test := with_node (λ genesis,
  let! child := slift (expect (child_block 1 genesis 1 600)) in
  must_return (msg_block child) now (Announce (one_item InvBlock (block_hash child)))).
Definition duplicate_known_block_is_ignored : Test := with_node (λ genesis,
  must_return (msg_block genesis) now NoAction).
Definition missing_parent : list byte := hash_of 0xab.
Definition orphaned_block_requests_missing_parent : Test := with_node (λ _,
  let! orphan := slift (expect (orphan_block 1 missing_parent 1)) in
  must_return (msg_block orphan) now (Reply [msg_getdata (one_item InvBlock missing_parent)])).
Definition orphaned_parent_request_is_not_repeated : Test := with_node (λ _,
  let! orphan := slift (expect (orphan_block 1 missing_parent 1)) in
  do! must_reply (msg_block orphan) now ;;
  must_return (msg_block orphan) now NoAction).

Example inventory_tests : all_pass [inv_requests_unknown_blocks_only; inv_requests_unknown_transactions_only;
  inv_suppresses_duplicate_requests; expired_requests_can_be_retried; tx_tracker_respects_capacity].
Proof. vm_compute. reflexivity. Qed.
Example serving_tests : all_pass [getdata_serves_known_block; getdata_does_not_serve_stale_mempool_transaction;
  getdata_serves_mempool_transaction].
Proof. vm_compute. reflexivity. Qed.
Example delivery_tests : all_pass [accepted_tx_announces_inventory; invalid_tx_is_ignored_without_disconnect;
  connected_block_triggers_inv_announcement; duplicate_known_block_is_ignored;
  orphaned_block_requests_missing_parent; orphaned_parent_request_is_not_repeated].
Proof. vm_compute. reflexivity. Qed.
