(* ===== verification/WalletTests.v ===== *)
(** * The unit tests of the keys, scripts, miner and wallet

    The tests of bitrst-crypto (base58.rs, ecdsa.rs), bitrst-script (interpreter.rs),
    bitrst-miner (pow.rs), bitrst-wallet (key.rs, sign.rs, wallet.rs) and of
    bitrst-core/src/disconnected_block_journal.rs, with the toy primitives.  Those that compare
    with a digest, a point of the curve or a base58 text of the real libraries are left out. *)

From stdpp Require Import prelude gmap strings list.
From Stdlib Require Import Strings.Byte.
From S2P Require Import Prelude Bytes Testing Crypto U256 Pow Wire Transaction Merkle Block Utxo.
From S2P Require Import Script Sighash Journal Store Chain ChainExamples Miner Wallet TestSupport ChainTests.

Local Open Scope Z_scope.
Local Open Scope list_scope.

#[local] Existing Instance toy_crypto.
#[local] Existing Instance canonical_order.
#[local] Existing Instance ex_flags.

Definition flip_byte (i : nat) (bs : list byte) : list byte := alter (λ b, zb (Z.lxor (bz b) 0xff)) i bs.
Definition bytes32 (b : Z) : list byte := replicate 32 (zb b).

(** ** base58.rs *)

#[local] Instance Base58Error_eq_dec : EqDecision Base58Error.
Proof. solve_decision. Defined.
(** [encoded.replace_range(encoded.len() - 1.., "2")] *)
Definition replace_last (c : byte) (s : string) : string :=
  String.string_of_list_byte (removelast (String.list_byte_of_string s) ++ [c]).
Definition decodes_roundtrip_payload : Test :=
  let payload := replicate 20 x42 in
  match decode_check (encode_check x6f payload) with
  | Ok decoded => assert_eq decoded (x6f, payload)
  | _ => Panic
  end.
Definition rejects_bad_checksum : Test :=
  let encoded := replace_last x32 (encode_check x00 (replicate 20 x42)) in
  let? error := expect_err (decode_check encoded) in
  assert_eq error InvalidChecksum.
Definition rejects_too_short_payload : Test :=
  let? error := expect_err (decode_check "1") in
  assert_eq error InvalidLength.

(** ** ecdsa.rs and interpreter.rs *)

(** The key of a byte, and its signature of a digest with the type byte. *)
Definition signed_digest (key_byte : Z) (sighash : list byte) : Result unit (list byte * list byte) :=
  let? sk := expect_some (SecretKey_from_slice (bytes32 key_byte)) in
  let sig := sign_ecdsa sighash sk in
  Ok (Signature_serialize_der sig ++ [x01], PublicKey_serialize (PublicKey_from_secret_key sk)).
Definition verifies_known_signature_roundtrip : Test :=
  let sighash := bytes32 0xab in
  let? signed := signed_digest 1 sighash in
  expect (verify_der_signature signed.1 signed.2 sighash).
Definition signs_der_signature_with_hashtype_byte : Test :=
  let sighash := bytes32 0xef in
  let? sk := expect_some (SecretKey_from_slice (bytes32 3)) in
  let signature := sign_der_with_hashtype sk sighash x01 in
  check? assert_eq (last signature) (Some x01) ;;
  expect (verify_der_signature signature (PublicKey_serialize (PublicKey_from_secret_key sk)) sighash).
Definition rejects_tampered_signature : Test :=
  let sighash := bytes32 0xcd in
  let? signed := signed_digest 2 sighash in
  assert (is_err (verify_der_signature (flip_byte 10 signed.1) signed.2 sighash)).
Definition p2pkh_script_validates_known_signature : Test :=
  let sighash := bytes32 0x42 in
  let? ' (sig_bytes, pubkey_bytes) := signed_digest 0x11 sighash in
  let script_pubkey := p2pkh_script_pubkey (hash160 pubkey_bytes) in
  expect (verify_script (p2pkh_script_sig sig_bytes pubkey_bytes) script_pubkey sighash).
Definition p2pkh_rejects_bad_signature : Test :=
  let sighash := bytes32 0x99 in
  let? ' (sig_bytes, pubkey_bytes) := signed_digest 0x22 sighash in
  let script_pubkey := p2pkh_script_pubkey (hash160 pubkey_bytes) in
  let script_sig := p2pkh_script_sig (flip_byte 5 sig_bytes) pubkey_bytes in
  let? error := expect_err (verify_script script_sig script_pubkey sighash) in
  assert_eq error CheckSigFailed.
Example key_and_script_tests : all_pass [decodes_roundtrip_payload; rejects_bad_checksum;
  rejects_too_short_payload; verifies_known_signature_roundtrip; signs_der_signature_with_hashtype_byte;
  rejects_tampered_signature; p2pkh_script_validates_known_signature; p2pkh_rejects_bad_signature].
Proof. vm_compute. reflexivity. Qed.

(** ** pow.rs of the miner *)

Definition blank_header (bits : Z) : BlockHeader := {|
  hdr_version := 1; prev_blockhash := zero32; hdr_merkle_root := zero32; hdr_time := 0;
  hdr_bits := bits; hdr_nonce := 0 |}.
Definition mines_with_easy_target : Test :=
  let? hash := expect (mine easy (blank_header 0)).1 in
  assert_eq (length hash) 32%nat.
Definition mine_with_header_bits_rejects_invalid_compact_targets : Test :=
  let '(r, header) := mine_with_header_bits (blank_header 0) in
  let? found := expect r in
  check? assert (is_none found) ;;
  let header := blank_header 0x01800000 in
  let? found := expect (mine_with_header_bits header).1 in
  assert (is_none found).
Definition mine_respects_attempt_limit_constant : Test := assert (1000000 <=? MAX_NONCE_ATTEMPTS).
Example miner_limit_tests : all_pass [mine_with_header_bits_rejects_invalid_compact_targets;
  mine_respects_attempt_limit_constant].
Proof. vm_compute. reflexivity. Qed.
(** Only the first of the attempts is evaluated. *)
Example miner_easy_test : all_pass [mines_with_easy_target].
Proof. lazy. reflexivity. Qed.

(** ** disconnected_block_journal.rs *)

Definition block_at (height : Z) : Result unit Block :=
  test_child_block (bytes32 height) height (1231006505 + height).
Definition blocks_since_returns_entries_after_cursor : Test :=
  let? one := block_at 1 in
  let? two := block_at 2 in
  let journal := disconnected_with_capacity 4 in
  let journal := disconnected_record 5 two (disconnected_record 2 one journal) in
  let? blocks := expect (blocks_since journal 3) in
  check? assert_eq (length blocks) 1%nat ;;
  assert_eq (map block_hash blocks) [block_hash two].
Definition overrun_returns_recovery_error : Test :=
  let? one := block_at 1 in
  let? two := block_at 2 in
  let? three := block_at 3 in
  let journal := disconnected_record 1 one (disconnected_with_capacity 2) in
  let journal := disconnected_record 3 three (disconnected_record 2 two journal) in
  let? err := expect_err (blocks_since journal 0) in
  assert_eq err {| dr_cursor_seq := 0; dr_oldest_available := 2 |}.
Example disconnected_journal_tests : all_pass [blocks_since_returns_entries_after_cursor;
  overrun_returns_recovery_error].
Proof. vm_compute. reflexivity. Qed.

(** ** key.rs, sign.rs and wallet.rs *)

Definition rejects_zero_private_key : Test := assert (is_err (key_from_bytes (bytes32 0))).
Definition fixed_key : Result unit PrivateKey := expect (key_from_bytes (zeros_with [(31%nat, 1)])).
Definition sign_p2pkh_input_builds_script_sig_that_verifies : Test :=
  let? key := fixed_key in
  let address := address_p2pkh (key_pubkey_hash key) AddrMainnet in
  let prev_script := p2pkh_script_pubkey (addr_pubkey_hash address) in
  let prev_scripts := [prev_script] in
  let tx := {| tx_version := 1;
               tx_inputs := [{| previous_output := bytes32 0x42; txin_index := 0; script_sig := [];
                                txin_sequence := U32_MAX |}];
               tx_outputs := [{| txout_value := 4900000000; script_pubkey := [x51] |}];
               tx_lock_time := 0 |} in
  let '(r, tx) := sign_p2pkh_input 0 prev_scripts key tx in
  check? expect r ;;
  let? sighash := expect (sighash_all tx 0 prev_scripts) in
  let? input := expect_some (head (tx_inputs tx)) in
  expect (verify_script (script_sig input) prev_script sighash).

Definition wallet_genesis_block : Result unit Block :=
  test_mined (coinbase_block (test_header zero32 NETWORK_TIME) 0 5000000000).
Definition wallet_chain : Result unit Chain :=
  let? genesis := wallet_genesis_block in expect (new_genesis genesis NETWORK_TIME).
Definition block_paying (chain : Chain) (height : Z) (pubkey_hash : list byte) (value : Z)
    : Result unit Block :=
  let block := coinbase_block (test_header (tip_hash chain) (NETWORK_TIME + height)) height value in
  let? block := expect (lock_first_output (p2pkh_script_pubkey pubkey_hash) block) in
  let? block := test_merkle block in
  test_mined block.
(** A wallet that watches the address of the key. *)
Definition watching : Result unit (Wallet * list byte) :=
  let? key := fixed_key in
  let address := address_p2pkh (key_pubkey_hash key) AddrMainnet in
  Ok (watch_address address new_wallet, addr_pubkey_hash address).
Definition apply_or_panic (events : list ChainEvent) (chain : Chain) (w : Wallet) : Result unit Wallet :=
  let '(r, w) := apply_events events chain w in
  let? _ := expect r in Ok w.
(** The block of the tests is connected to a new chain and its events are taken. *)
Definition paid_chain (pubkey_hash : list byte) : Result unit (Block * list ChainEvent * Chain) :=
  let? chain := wallet_chain in
  let '(r, chain) := chain_take_events chain in
  let? _ := expect r in
  let? block := block_paying chain 1 pubkey_hash 2500000000 in
  let '(r, chain) := connect_block block chain in
  let? _ := expect r in
  let '(r, chain) := chain_take_events chain in
  let? events := expect r in
  Ok (block, events, chain).

Definition wallet_credits_matching_outputs_from_connected_blocks : Test :=
  let? ' (wallet, pubkey_hash) := watching in
  let? ' (_, events, chain) := paid_chain pubkey_hash in
  let? wallet := apply_or_panic events chain wallet in
  assert_eq (balance wallet) 2500000000.
Definition wallet_ignores_orphan_events : Test :=
  let? ' (wallet, _) := watching in
  let? chain := wallet_chain in
  let? wallet := apply_or_panic [OrphanAdded (bytes32 1) 1] chain wallet in
  assert_eq (balance wallet) 0.
Definition disconnected_block_removes_utxos_even_after_reorg : Test :=
  let? ' (wallet, pubkey_hash) := watching in
  let? ' (block, events, chain) := paid_chain pubkey_hash in
  let? wallet := apply_or_panic events chain wallet in
  check? assert_eq (balance wallet) 2500000000 ;;
  let? active_genesis_only := wallet_chain in
  let? wallet := apply_or_panic [BlockDisconnected 1 (block_hash block)] active_genesis_only wallet in
  assert_eq (balance wallet) 0.
Example wallet_unit_tests : all_pass [rejects_zero_private_key; sign_p2pkh_input_builds_script_sig_that_verifies;
  wallet_credits_matching_outputs_from_connected_blocks; wallet_ignores_orphan_events;
  disconnected_block_removes_utxos_even_after_reorg].
Proof. vm_compute. reflexivity. Qed.
