(* ===== verification/DiskTests.v ===== *)
(** * The unit tests of the file block store (bitrst-core/src/store/disk.rs)

    A test is a computation on an empty disk on which every system call works, with the
    lower-case hexadecimal encoder and the toy primitives.  A new store on the same disk is the
    reopening of the directory. *)

From stdpp Require Import prelude gmap strings list.
From Stdlib Require Import Strings.Byte.
From S2P Require Import Prelude Bytes Testing Crypto U256 Pow Wire Transaction Merkle Block Utxo Store DiskStore DiskExamples.
From S2P Require Import Chain ChainExamples TestSupport ChainTests.

Local Open Scope Z_scope.
Local Open Scope list_scope.

#[local] Existing Instance toy_crypto.
#[local] Existing Instance canonical_order.
#[local] Existing Instance lower_hex.

Definition DiskTest : Type → Type := SM (Disk * list Fault) unit.
Definition attempt_disk {A} (m : SM (Disk * list Fault) StoreError A) : DiskTest (Result StoreError A) := λ s,
  let '(r, s) := m s in (Ok r, s).
Definition must_disk {A} (m : SM (Disk * list Fault) StoreError A) : DiskTest A :=
  let! r := attempt_disk m in slift (expect r).
Definition on_empty_disk (m : DiskTest unit) : Test := (m (empty_disk Created, [])).1.
(** [fs::write] *)
Definition fs_write (name bytes : list byte) : DiskTest unit :=
  must_disk (let! i := atomic_syscall "" (open_truncate name) in write_all i bytes).
Definition file_exists (name : list byte) : DiskTest bool := must_disk (is_file name).

(** [Block::coinbase] of the header below, with the first nonce that meets the target. *)
Definition sample_block : DiskTest Block := slift
  (test_mined (coinbase_block {| hdr_version := 1; prev_blockhash := zero32; hdr_merkle_root := zero32;
                                 hdr_time := NETWORK_TIME; hdr_bits := TEST_BITS; hdr_nonce := 0 |}
                 0 5000000000)).
(** [store.get_block(&hash).expect("get").expect("some")], compared with the block. *)
Definition must_load (hash : list byte) (block : Block) : DiskTest unit :=
  let! found := must_disk (file_get_block hash) in
  let! loaded := slift (expect_some found) in
  slift (assert_eq loaded block).

Definition persists_block_across_reopen : Test := on_empty_disk (
  let! block := sample_block in
  let hash := block_hash block in
  do! must_disk file_store_new ;;
  do! must_disk (file_put_block block) ;;
  do! must_disk file_commit ;;
  do! must_disk file_store_new ;;
  must_load hash block).
Definition overwrite_is_idempotent : Test := on_empty_disk (
  let! block := sample_block in
  let hash := block_hash block in
  do! must_disk file_store_new ;;
  do! must_disk (file_put_block block) ;;
  do! must_disk (file_put_block block) ;;
  do! must_disk file_commit ;;
  must_load hash block).
Definition missing_block_returns_none : Test := on_empty_disk (
  do! must_disk file_store_new ;;
  let! found := must_disk (file_get_block (replicate 32 x09)) in
  slift (assert (is_none found))).
Definition corrupt_file_returns_contextual_error : Test := on_empty_disk (
  let! block := sample_block in
  let hash := block_hash block in
  do! fs_write (encode_hex hash) (str "not a block") ;;
  do! must_disk file_store_new ;;
  let! r := attempt_disk (file_get_block hash) in
  let! err := slift (expect_err r) in
  slift (assert (match err with Corrupt _ => true | _ => false end))).
Definition hash_mismatch_on_read_returns_error : Test := on_empty_disk (
  let! block := sample_block in
  let wrong_hash := replicate 32 x01 in
  do! fs_write (encode_hex wrong_hash) (serialize_block block) ;;
  do! must_disk file_store_new ;;
  let! r := attempt_disk (file_get_block wrong_hash) in
  let! err := slift (expect_err r) in
  slift (assert (match err with HashMismatch _ _ => true | _ => false end))).
Definition cleans_temp_residue_on_open : Test := on_empty_disk (
  let! block := sample_block in
  let temp := encode_hex (block_hash block) ++ str ".tmp" in
  do! fs_write temp (str "partial") ;;
  let! present := file_exists temp in
  do! slift (assert present) ;;
  do! must_disk file_store_new ;;
  let! present := file_exists temp in
  slift (assert (negb present))).
Definition cleans_invalid_residue_filenames_on_open : Test := on_empty_disk (
  do! fs_write (str "partial") (str "leftover") ;;
  do! fs_write (str "ZZ") (str "short") ;;
  do! must_disk file_store_new ;;
  let! partial := file_exists (str "partial") in
  do! slift (assert (negb partial)) ;;
  let! short := file_exists (str "ZZ") in
  slift (assert (negb short))).

Example store_tests : all_pass [persists_block_across_reopen; overwrite_is_idempotent;
  missing_block_returns_none].
Proof. vm_compute. reflexivity. Qed.
Example store_error_tests : all_pass [corrupt_file_returns_contextual_error;
  hash_mismatch_on_read_returns_error; cleans_temp_residue_on_open;
  cleans_invalid_residue_filenames_on_open].
Proof. vm_compute. reflexivity. Qed.
