(* ===== verification/CliWallet.v ===== *)
(** * The command line: [wallet] (src/cli/wallet, src/cli/secret.rs)

    Printing an address, reading a private key or an address back, and the balance of an
    address.  The [hex] crate's decoder and the bytes of a secret key are parameters. *)

From stdpp Require Import prelude gmap strings list pretty.
From Stdlib Require Import Strings.Byte.
From S2P Require Import Prelude Bytes Crypto U256 Pow Wire Transaction Merkle Block Utxo Script.
From S2P Require Import Sighash Journal Store DiskStore Chain ChainTx ChainInv ChainReorg.
From S2P Require Import ChainProps ChainTheorems Handles Message Wallet Miner Cli CliMining.

Local Open Scope Z_scope.
Local Open Scope list_scope.

(** ** [str::trim] *)

(** The UTF-8 encodings of the characters with the property White_Space. *)
Definition white_space : list (list byte) :=
  [[x09]; [x0a]; [x0b]; [x0c]; [x0d]; [x20]; [xc2; x85]; [xc2; xa0]; [xe1; x9a; x80];
   [xe2; x80; x80]; [xe2; x80; x81]; [xe2; x80; x82]; [xe2; x80; x83]; [xe2; x80; x84];
   [xe2; x80; x85]; [xe2; x80; x86]; [xe2; x80; x87]; [xe2; x80; x88]; [xe2; x80; x89];
   [xe2; x80; x8a]; [xe2; x80; xa8]; [xe2; x80; xa9]; [xe2; x80; xaf]; [xe2; x81; x9f];
   [xe3; x80; x80]].
Fixpoint strip (ws : list (list byte)) (bs : list byte) : option (list byte) :=
  match ws with
  | [] => None
  | w :: ws => if bool_decide (take (length w) bs = w) then Some (drop (length w) bs) else strip ws bs
  end.
(** Each character has at least one byte. *)
Fixpoint strip_all (fuel : nat) (ws : list (list byte)) (bs : list byte) : list byte :=
  match fuel with
  | O => bs
  | S fuel => match strip ws bs with Some bs => strip_all fuel ws bs | None => bs end
  end.
Definition trim (bs : list byte) : list byte :=
  let bs := strip_all (length bs) white_space bs in
  reverse (strip_all (length bs) (map reverse white_space) (reverse bs)).

(** The decoder of the [hex] crate. *)
Class HexDecoder `{hex : HexLib} := {
  decode_hex : list byte → option (list byte);
  decode_encode_hex bs : decode_hex (encode_hex bs) = Some bs
}.

Section wallet.
Context {crypto : CryptoLib} {order : HashOrder} {flags : BuildFlags} {hex : HexLib}.
Context {decoder : HexDecoder}.
(** [SecretKey::secret_bytes] of the secp256k1 crate. *)
Context (secret_bytes : SecretKey → list byte).

(** ** Private keys (secret.rs, address.rs) *)

(** [stdin] is what reading the standard input gives. *)
Definition resolve_private_key_hex (argv env : option (list byte)) (use_stdin : bool)
    (stdin : Result CliError (list byte)) : Result CliError (list byte) :=
  let from_argv := ok_or argv (InvalidInput NoPrivateKey) in
  if use_stdin then stdin
  else match env with
       | Some env_key =>
           let trimmed := trim env_key in
           if bool_decide (trimmed = []) then from_argv else Ok trimmed
       | None => from_argv
       end.

Definition parse_private_key_hex (hex_str : list byte) : Result CliError PrivateKey :=
  let? bytes := ok_or (decode_hex (trim hex_str)) (InvalidInput KeyNotHex) in
  if negb (zlen bytes =? 32) then Err (InvalidInput KeyNot32Bytes)
  else map_err CliWallet (key_from_bytes bytes).

Definition address_lines (network : NetworkArg) (address : Address) : list byte :=
  str "address: " ++ str (encoded address) ++ [x0a] ++ str "network: " ++ label network ++ [x0a].
Definition secret_line (key : PrivateKey) : list byte :=
  str "private_key: " ++ encode_hex (secret_bytes (inner key)).

Definition write_address_output (network : NetworkArg) (key : PrivateKey) (show_secret : bool)
    : SM Out CliError unit :=
  let address := address_p2pkh (key_pubkey_hash key) (wallet_network network) in
  do! write_line (str "address: " ++ str (encoded address)) ;;
  do! write_line (str "network: " ++ label network) ;;
  if show_secret then write_line (secret_line key) else sret ().

(** [key] is the generated key. *)
Definition run_new (network : NetworkArg) (show_secret : bool) (key : PrivateKey)
    : SM Out CliError unit :=
  write_address_output network key show_secret.
Definition run_derive (network : NetworkArg) (private_key_hex : list byte) (show_secret : bool)
    : SM Out CliError unit :=
  let! key := slift (parse_private_key_hex private_key_hex) in
  write_address_output network key show_secret.
Definition run_derive_from_sources (network : NetworkArg) (argv env : option (list byte))
    (use_stdin : bool) (stdin : Result CliError (list byte)) (show_secret : bool)
    : SM Out CliError unit :=
  let! hex_str := slift (resolve_private_key_hex argv env use_stdin stdin) in
  run_derive network hex_str show_secret.

(** ** Balance (balance.rs) *)

Definition parse_address (address : string) (network : NetworkArg) : Result CliError Address :=
  let? decoded := match decode_check address with
                  | Ok decoded => Ok decoded
                  | Err _ => Err InvalidAddress
                  | Panic => Panic
                  end in
  let '(version, payload) := decoded in
  if negb (bool_decide (version = arg_p2pkh_version network))
  then Err (AddressNetworkMismatch (label network))
  else if negb (zlen payload =? 20) then Err InvalidAddress
  else Ok (address_p2pkh payload (wallet_network network)).

(** [run] from [Wallet::new()] on. *)
Definition report_balance (network : NetworkArg) (address : Address) (handle : ChainHandle)
    : SM Out CliError unit :=
  let wallet := watch_address address new_wallet in
  let '(r, handle) := handle_take_events handle in
  let! events := slift (map_err CliChain r) in
  let! applied := slift (map_err CliChain (with_chain (apply_events events) handle)) in
  let '(r, wallet) := applied wallet in
  do! slift (map_err CliWallet r) ;;
  do! write_line (str "address: " ++ str (encoded address)) ;;
  do! write_line (str "network: " ++ label network) ;;
  do! write_line (str "balance_satoshis: " ++ decimal (balance wallet)) ;;
  do! write_line EPHEMERAL_NOTICE ;;
  sret ().
Definition run_balance (network : NetworkArg) (address : string) (network_time clock : option Z)
    : SM Out CliError unit :=
  let! address := slift (parse_address address network) in
  let! network_time := slift (resolve_network_time network_time clock) in
  let! handle := slift (ephemeral_chain network_time DEFAULT_BITS) in
  report_balance network address handle.

(** ** Lemmas *)

Lemma strip_none (ws : list (list byte)) (c : byte) bs :
  Forall (λ w, head w ≠ Some c ∧ w ≠ []) ws → strip ws (c :: bs) = None.
Proof.
  induction ws as [|w ws IH]; intros Hws; [done|]. apply Forall_cons in Hws as [[Hw Hne] Hws].
  cbn [strip]. rewrite bool_decide_false; [by apply IH|]. destruct w as [|x w]; [done|].
  intros [= -> _]. by apply Hw.
Qed.

Definition is_hex_digit (c : byte) : bool := in_bytes 0x30 0x39 c || in_bytes 0x61 0x66 c.

Lemma white_space_not_digit (c : byte) :
  is_hex_digit c = true →
  Forall (λ w, head w ≠ Some c ∧ w ≠ []) white_space ∧
  Forall (λ w, head w ≠ Some c ∧ w ≠ []) (map reverse white_space).
Proof.
  intros Hc. unfold white_space. cbn [map reverse rev_append].
  split; repeat constructor; try done; intros [= <-]; discriminate Hc.
Qed.

Lemma strip_all_stop fuel ws bs : strip ws bs = None → strip_all fuel ws bs = bs.
Proof. destruct fuel; [done|]. cbn [strip_all]. by intros ->. Qed.

(** Text that starts and ends with a digit is not changed; a final newline is removed. *)
Lemma trim_digits (bs : list byte) :
  Forall (λ c, is_hex_digit c = true) bs → trim bs = bs ∧ trim (bs ++ [x0a]) = bs.
Proof.
  intros Hbs. assert (∀ n (rest : list byte), bs ≠ [] → strip_all n white_space (bs ++ rest) = bs ++ rest) as Hfront.
  { intros n rest Hne. apply strip_all_stop. destruct bs as [|c bs]; [done|].
    apply Forall_cons in Hbs as [Hc _]. by apply strip_none, white_space_not_digit. }
  assert (∀ n, strip_all n (map reverse white_space) (reverse bs) = reverse bs) as Hback.
  { intros n. destruct bs as [|c bs _] using rev_ind; [by destruct n|]. rewrite reverse_snoc.
    apply strip_all_stop, strip_none, white_space_not_digit. apply Forall_app in Hbs as [_ Hc].
    by apply Forall_cons in Hc as [? _]. }
  destruct (decide (bs = [])) as [->|Hne]; [done|]. unfold trim. split.
  - pose proof (Hfront (length bs) [] Hne) as H. rewrite (right_id_L [] (++)) in H.
    rewrite H, Hback. apply reverse_involutive.
  - rewrite Hfront by done. rewrite reverse_snoc, length_app, Nat.add_comm. cbn [length Nat.add strip_all].
    assert (strip (map reverse white_space) (x0a :: reverse bs) = Some (reverse bs)) as -> by done.
    rewrite Hback. apply reverse_involutive.
Qed.

Context {laws : CryptoLaws crypto}.

Lemma decode_encode_check version payload :
  decode_check (encode_check version payload) = Ok (version, payload).
Proof.
  unfold decode_check, encode_check. rewrite bs58_roundtrip. cbn [ok_or rbind].
  set (body := version :: payload). assert (length (checksum body) = 4%nat) as Hl by apply length_checksum.
  rewrite length_app, Hl. destruct (Nat.ltb_spec (length body + 4) 5); [simpl in *; lia|].
  replace (length body + 4 - 4)%nat with (length body) by lia.
  rewrite take_app_length, drop_app_length, bool_decide_true by done. done.
Qed.

Lemma parse_printed_address network hash :
  length hash = 20%nat →
  let address := address_p2pkh hash (wallet_network network) in
  parse_address (encoded address) network = Ok address ∧
  ∀ other, other ≠ network →
    parse_address (encoded address) other = Err (AddressNetworkMismatch (label other)).
Proof.
  intros Hh address. unfold parse_address, address, address_p2pkh. cbn [encoded].
  rewrite decode_encode_check. cbn [rbind]. split.
  - destruct network; cbn [wallet_network p2pkh_version arg_p2pkh_version];
      rewrite bool_decide_true by done; unfold zlen; by rewrite Hh.
  - intros other Hne. by destruct network, other.
Qed.
End wallet.

(** ** Properties *)

Section properties.
Context {crypto : CryptoLib} {order : HashOrder} {flags : BuildFlags} {hex : HexLib}.
Context {decoder : HexDecoder}.

Lemma encode_hex_is_digits bs : Forall (λ c, is_hex_digit c = true) (encode_hex bs).
Proof. apply encode_hex_digits. Qed.

Lemma parse_printed_key kb sk (suffix : list byte) :
  suffix = [] ∨ suffix = [x0a] →
  length kb = 32%nat → SecretKey_from_slice kb = Some sk →
  parse_private_key_hex (encode_hex kb ++ suffix) = Ok {| inner := sk |}.
Proof.
  intros Hs Hl Hsk. unfold parse_private_key_hex, key_from_bytes.
  destruct (trim_digits (encode_hex kb) (encode_hex_is_digits kb)) as [H1 H2].
  assert (trim (encode_hex kb ++ suffix) = encode_hex kb) as ->.
  { destruct Hs as [-> | ->]; [by rewrite (right_id_L [] (++))|done]. }
  rewrite decode_encode_hex. cbn [ok_or rbind]. unfold zlen. rewrite Hl. cbn [negb].
  change (Z.of_nat 32 =? 32) with true. cbn [negb]. by rewrite Hsk.
Qed.

(** What the wallet commands print they accept.  From the hexadecimal bytes
    of a private key [wallet address] prints its address and key; the printed key, also with
    the newline that follows it, parses to the same key, and the printed address is accepted
    by [wallet balance] for the network it was printed for and refused, by name, for the
    other one. *)
Theorem wallet_output_is_accepted (laws : CryptoLaws crypto) (secret_bytes : SecretKey → list byte)
    (network : NetworkArg) (kb : list byte) (sk : SecretKey) (out : Out) :
  length kb = 32%nat → SecretKey_from_slice kb = Some sk → secret_bytes sk = kb →
  o_fault out = None →
  let key := {| inner := sk |} in
  let address := address_p2pkh (key_pubkey_hash key) (wallet_network network) in
  run_derive secret_bytes network (encode_hex kb) true out =
    (Ok (), printed (address_lines network address ++ secret_line secret_bytes key ++ [x0a]) out) ∧
  parse_private_key_hex (encode_hex (secret_bytes sk)) = Ok key ∧
  parse_private_key_hex (encode_hex (secret_bytes sk) ++ [x0a]) = Ok key ∧
  parse_address (encoded address) network = Ok address ∧
  ∀ other, other ≠ network →
    parse_address (encoded address) other = Err (AddressNetworkMismatch (label other)).
Proof.
  intros Hl Hsk Hbytes Ho key address.
  assert (parse_private_key_hex (encode_hex kb) = Ok key) as Hkey.
  { rewrite <- (right_id_L [] (++) (encode_hex kb)). apply parse_printed_key; [by left|done..]. }
  rewrite Hbytes. split_and!; [|exact Hkey|apply parse_printed_key; [by right|done..]|..].
  - unfold run_derive, sbind at 1, slift. rewrite Hkey. unfold write_address_output, sbind.
    rewrite !write_line_printed by done. unfold printed, address_lines. cbn [o_text].
    by rewrite <- !(assoc_L (++)).
  - by apply parse_printed_address, length_hash160.
  - by apply parse_printed_address, length_hash160.
Qed.

Definition balance_args : MineArgs := {|
  ma_count := 0; ma_value := 0; ma_time := None; ma_bits := DEFAULT_BITS; ma_network_time := None |}.
Lemma default_bits_usable :
  (∃ t, from_bits DEFAULT_BITS = Some t) ∧ ∃ w, block_work DEFAULT_BITS = Ok w.
Proof. split; eexists; vm_compute; reflexivity. Qed.

(** The chain of [tip], [wallet balance] and [node]. *)
Lemma default_chain_outcomes now :
  now ≠ 0 →
  ephemeral_chain now DEFAULT_BITS = Err (CliMine AttemptsExceeded) ∨
  ∃ gen c, ephemeral_chain now DEFAULT_BITS = Ok (new_lock c) ∧ reachable gen c ∧
    journal_read (event_journal c) 1.
Proof.
  intros Hnow. destruct default_bits_usable as [[t Ht] [w Hw]].
  destruct (ephemeral_chain_outcomes balance_args now (GENESIS_TIME + 1) t w Hnow)
    as [[He _]|(gen&c&He&Hm&_)]; [lia|exact Ht|exact Hw|by left|right].
  exists gen, c. split; [exact He|]. split; apply Hm.
Qed.

Lemma new_wallet_balance address : balance (watch_address address new_wallet) = 0.
Proof. reflexivity. Qed.

Definition zero_report (network : NetworkArg) (address : Address) : list byte :=
  address_lines network address ++ str "balance_satoshis: " ++ decimal 0 ++ [x0a] ++
  EPHEMERAL_NOTICE ++ [x0a].

(** All events of the chain have been taken: nothing is left for the wallet. *)
Lemma report_fresh network address c n out :
  journal_read (event_journal c) n → o_fault out = None →
  report_balance network address (new_lock c) out = (Ok (), printed (zero_report network address) out).
Proof.
  intros (log&Hlog&Hread&_) Ho. destruct (take_events_spec _ _ Hlog) as (r1&j&Htake&_&_&Hcase).
  rewrite decide_False in Hcase by (pose proof (jr_capacity _ _ Hlog); lia).
  destruct Hcase as [_ ->]. rewrite Hread in Htake. unfold zlen in Htake.
  rewrite Nat2Z.id, drop_all in Htake.
  unfold report_balance, handle_take_events, with_write, chain_take_events.
  cbn [poisoned contents new_lock]. rewrite Htake. cbn [map_err].
  unfold sbind at 1, slift at 1. unfold sbind at 1, slift at 1.
  unfold with_chain, with_read. cbn [poisoned contents map_err].
  unfold apply_events. cbn [sfor]. unfold sret at 1. cbn [map_err]. unfold sbind, slift.
  rewrite !write_line_printed by done. rewrite new_wallet_balance. unfold sret.
  f_equal. unfold printed, zero_report, address_lines. cbn [o_text].
  rewrite <- !(assoc_L (++)). reflexivity.
Qed.

(** The balance that [wallet balance] reports.  For every address that it
    accepts, it prints zero (unless the genesis block cannot be mined): the events of the
    genesis block were taken when the chain was made, so the wallet sees none. *)
Theorem reported_balance_is_zero (network : NetworkArg) (text : string) (address : Address)
    (network_time clock : option Z) (now : Z) (out : Out) :
  parse_address text network = Ok address →
  resolve_network_time network_time clock = Ok now → now ≠ 0 → o_fault out = None →
  run_balance network text network_time clock out = (Err (CliMine AttemptsExceeded), out) ∨
  run_balance network text network_time clock out =
    (Ok (), printed (zero_report network address) out).
Proof.
  intros Haddr Hres Hnow Ho. unfold run_balance.
  rewrite (sbind_run _ _ out address out) by (unfold slift; by rewrite Haddr).
  rewrite (sbind_run _ _ out now out) by (unfold slift; by rewrite Hres).
  destruct (default_chain_outcomes now Hnow) as [He|(gen&c&He&_&Hj)].
  - left. apply sbind_run_Err. unfold slift. by rewrite He.
  - right. rewrite (sbind_run _ _ out (new_lock c) out) by (unfold slift; by rewrite He).
    by eapply report_fresh.
Qed.
End properties.
