(* ===== verification/CliNode.v ===== *)
(** * The command line: [node] (src/cli/node.rs)

    The configuration of a node, the world it starts from, and its run: the listener, the
    seed connections, the poll loop until its signal or an error, the shutdown, the drop of
    the manager.  However a run ends, the node winds down. *)

From stdpp Require Import prelude gmap strings list relations.
From Stdlib Require Import Strings.Byte.
From S2P Require Import Prelude Bytes Crypto U256 Pow Wire Transaction Merkle Block Utxo Script.
From S2P Require Import Sighash Journal Store DiskStore Chain ChainTx ChainInv ChainReorg.
From S2P Require Import ChainProps ChainTheorems Mempool MempoolInv MempoolEvict MempoolSync.
From S2P Require Import MempoolTheorems Message Handshake Handles Relay RelayTheorems Wallet.
From S2P Require Import Miner Peer Peers PeersInv PeersTheorems PeersShutdown PeersDrive Cli CliMining CliWallet.

Local Open Scope string_scope.
Local Open Scope Z_scope.
Local Open Scope list_scope.

Record NodeArgs := {
  na_listen : SocketAddr;
  na_network : NetworkArg;
  na_max_inbound : Z;
  na_max_outbound : Z;
  na_seeds : list SocketAddr;
  na_network_time : option Z;
  no_connect_seeds : bool
}.
(** Without the channel that tests use. *)
Record NodeRunConfig := {
  nr_listen : SocketAddr;
  nr_network : NetworkArg;
  nr_max_inbound : Z;
  nr_max_outbound : Z;
  seed_strategy : SeedStrategy;
  nr_network_time : Z;
  nr_connect_seeds : bool
}.

Definition into_run_config (args : NodeArgs) (clock : option Z) : Result CliError NodeRunConfig :=
  let? network_time := resolve_network_time (na_network_time args) clock in
  let seed_strategy := if bool_decide (na_seeds args = []) then Builtin else Fixed (na_seeds args) in
  Ok {| nr_listen := na_listen args; nr_network := na_network args;
        nr_max_inbound := na_max_inbound args; nr_max_outbound := na_max_outbound args;
        seed_strategy := seed_strategy; nr_network_time := network_time;
        nr_connect_seeds := negb (no_connect_seeds args) |}.

Section node.
Context {crypto : CryptoLib} {order : HashOrder} {flags : BuildFlags}.

Definition peer_config (config : NodeRunConfig) : PeerManagerConfig := {|
  mc_network := p2p_network (nr_network config); listen_addr := nr_listen config;
  max_inbound := nr_max_inbound config; max_outbound := nr_max_outbound config;
  mc_seeds := seed_strategy config |}.
(** The manager that [run_with_chain] makes, with its accept loop. *)
Definition node_start (config : NodeRunConfig) (chain : ChainHandle) : World :=
  new_world (peer_config config) (chain, pool_with_limits default_limits).
(** [spawn_blocking(..).await]: a panic of the closure is a join error, with this text. *)
Definition join_blocking {A} (message : list byte) (r : Result CliError A) : Result CliError A :=
  match r with Panic => Err (CliIo message) | r => r end.
(** The chain of [run]. *)
Definition node_chain (join_message : list byte) (config : NodeRunConfig) : Result CliError ChainHandle :=
  let network_time := Z.max (nr_network_time config) GENESIS_TIME in
  join_blocking join_message (ephemeral_chain network_time DEFAULT_BITS).
(** [run], up to the start of its manager. *)
Definition node_world (join_message : list byte) (config : NodeRunConfig) : Result CliError World :=
  let? chain := node_chain join_message config in
  Ok (node_start config chain).
(** What [run_with_chain] makes of the report of [connect_seeds_report]. *)
Definition seeds_outcome (format_failures : list (SocketAddr * NetError) → list byte)
    (report : option SocketAddr * list (SocketAddr * NetError)) : Result CliError unit :=
  match report with
  | (Some _, _) | (None, []) => Ok ()
  | (None, _) =>
      match into_result format_failures report with
      | Err e => Err (CliNet e)
      | _ => Panic
      end
  end.

(** [start_listener]; [bound] is the outcome of [TcpListener::bind]. *)
Definition start_listener (bound : bool) : Result NetError unit :=
  if bound then Ok () else Err (Io "bind listener").

(** [run_poll_loop]: the signal comes while the loop waits, or a [poll] fails. *)
Inductive run_poll_loop : World → Result CliError unit → World → Prop :=
| loop_signal w w' : rtc idle_step w w' → run_poll_loop w (Ok ()) w'
| loop_error w w1 e w' :
    rtc idle_step w w1 → poll_returns w1 (Err e) w' → run_poll_loop w (Err (CliNet e)) w'
| loop_tick w w1 w2 r w' :
    rtc idle_step w w1 → poll_returns w1 (Ok ()) w2 → run_poll_loop w2 r w' →
    run_poll_loop w r w'.

(** [run_with_chain], from the new manager to its drop, with the state in which it stops
    using the manager and the state it leaves.  A listener that does not bind, or does not
    report its address, and exhausted seeds return at once; otherwise the manager is shut
    down, and the result of the loop is returned, or the error of the shutdown. *)
Inductive run_with_chain (format_failures : list (SocketAddr * NetError) → list byte)
    (config : NodeRunConfig) (chain : ChainHandle) : Result CliError unit → World → World → Prop :=
| run_unbound e :
    start_listener false = Err e →
    run_with_chain format_failures config chain (Err (CliNet e))
      (node_start config chain) (drop_manager (node_start config chain))
| run_unreported :
    run_with_chain format_failures config chain
      (Err (CliIo (str "listener did not report bound address")))
      (node_start config chain) (drop_manager (node_start config chain))
| run_unseeded report e w1 :
    nr_connect_seeds config = true →
    seeds_tried (seed_addresses (seed_strategy config) (p2p_network (nr_network config)))
      (node_start config chain) report w1 →
    seeds_outcome format_failures report = Err e →
    run_with_chain format_failures config chain (Err e) w1 (drop_manager w1)
| run_stopped report poll_result stopped w1 w2 w3 :
    (if nr_connect_seeds config
     then seeds_tried (seed_addresses (seed_strategy config) (p2p_network (nr_network config)))
            (node_start config chain) report w1 ∧
          seeds_outcome format_failures report = Ok ()
     else w1 = node_start config chain) →
    run_poll_loop w1 poll_result w2 → shutdown_returns w2 stopped w3 →
    run_with_chain format_failures config chain
      (let? _ := map_err CliNet stopped in poll_result) w2 (drop_manager w3).

(** [unwrap_err] does not panic. *)
Lemma seeds_outcome_returns f report : seeds_outcome f report ≠ Panic.
Proof. by destruct report as [[a|] [|x l]]. Qed.

Lemma default_limits_ok : limits_ok default_limits.
Proof. by split_and!. Qed.

Lemma node_chain_outcomes message config :
  node_chain message config = Err (CliMine AttemptsExceeded) ∨
  ∃ gen c, reachable gen c ∧ node_chain message config = Ok (new_lock c).
Proof.
  unfold node_chain. generalize (Z.max (nr_network_time config) GENESIS_TIME), (Z.le_max_r (nr_network_time config) GENESIS_TIME).
  intros now Hnow. assert (now ≠ 0) as Hne by (unfold GENESIS_TIME in *; lia).
  destruct (default_chain_outcomes now Hne) as [He|(gen&c&He&Hr&_)]; rewrite He; [by left|right].
  by exists gen, c.
Qed.
Lemma node_world_spec message config w0 :
  node_world message config = Ok w0 → ∃ gen c, reachable gen c ∧
    w0 = new_world (peer_config config) (new_lock c, pool_with_limits default_limits).
Proof.
  unfold node_world. destruct (node_chain_outcomes message config) as [He|(gen&c&Hr&He)]; rewrite He.
  { discriminate. }
  intros Heq. exists gen, c. split; [exact Hr|]. by injection Heq as <-.
Qed.
(** A node that starts has its genesis block, and in every state that its peers can bring
    about its chain and pool are reachable ones, unless [connect_block] has panicked. *)
Theorem node_stays_good (message : list byte) (config : NodeRunConfig) (w0 w : World) :
  0 ≤ nr_max_inbound config → 0 ≤ nr_max_outbound config →
  node_world message config = Ok w0 → rtc world_step w0 w →
  poisoned (w_shared w).1 = true ∨
  ∃ gen, lock_ok (reachable gen) (w_shared w).1 ∧ lock_ok (pool_reachable default_limits) (w_shared w).2.
Proof.
  intros Hi Ho Hstart Hrun. destruct (poisoned (w_shared w).1) eqn:Hp; [by left|right].
  apply node_world_spec in Hstart as (gen&c&Hr&->). exists gen.
  assert (shared_ok gen default_limits (new_lock c, pool_with_limits default_limits)) as Hsh.
  { split; (split; [done|]); [exact Hr|apply reach_new]. }
  destruct (reachable_world_inv gen default_limits default_limits_ok (peer_config config) Hi Ho _ w Hsh Hrun)
    as [_ _ _ _ _ Hs].
  exact (proj1 (Hs Hp)).
Qed.

(** ** A run *)

Lemma run_poll_loop_steps w r w' :
  job (w_manager w) = Idle → run_poll_loop w r w' →
  rtc world_step w w' ∧
  match r with
  | Ok _ => job (w_manager w') = Idle
  | Err e => ∃ ne, e = CliNet ne ∧ job (w_manager w') = Failed ne
  | Panic => False
  end.
Proof.
  intros Hj. induction 1 as [w w' Hi|w w1 e w' Hi Hp|w w1 w2 r w' Hi Hp Hl IH].
  - split; [by apply idle_steps|]. by rewrite (idle_steps_manager _ _ Hi).
  - split; [trans w1; [by apply idle_steps|by eapply poll_returns_steps]|]. exists e. by destruct Hp as (_&_&?).
  - destruct IH as [Hrun Hr]; [by destruct Hp as (_&_&?)|]. split; [|done].
    trans w1; [by apply idle_steps|]. trans w2; [by eapply poll_returns_steps|done].
Qed.

Lemma run_poll_loop_down w r w' :
  run_poll_loop w r w' → shutting_down (w_manager w) = false → shutting_down (w_manager w') = false.
Proof.
  induction 1 as [w w' Hi|w w1 e w' Hi Hp|w w1 w2 r w' Hi Hp Hl IH]; intros Hd;
    rewrite <- (idle_steps_down _ _ Hi) in Hd; [done|by eapply poll_returns_down|].
  by eapply IH, poll_returns_down.
Qed.

(** A run is steps of the node and leaves the manager dropped; every peer in its table when
    it was last used is being cancelled or has been told to stop. *)
Lemma run_with_chain_steps f config chain r wl w' :
  run_with_chain f config chain r wl w' →
  rtc world_step (node_start config chain) w' ∧ dropped w' ∧ r ≠ Panic ∧
  ∀ id, id ∈ entry_tasks (w_manager wl) → id ∈ w_cancelled w' ∨ told_in w' id.
Proof.
  intros Hrun. set (w := node_start config chain). assert (job (w_manager w) = Idle) as Hj by done.
  assert (∀ w1, job (w_manager w1) ≠ Dropped → rtc world_step w w1 →
    rtc world_step w (drop_manager w1) ∧ dropped (drop_manager w1)) as Hdrop.
  { intros w1 Hj1 Hr. split; [|apply drop_manager_dropped]. eapply rtc_r; [done|by apply step_drop]. }
  assert (∀ w1 id, shutting_down (w_manager w1) = false → id ∈ entry_tasks (w_manager w1) →
    id ∈ w_cancelled (drop_manager w1) ∨ told_in (drop_manager w1) id) as Habort.
  { intros w1 id Hd Hid. left. by apply drop_manager_aborts. }
  destruct Hrun as [e He| |report e w1 Hcs Hseeds Hout|report r rs w1 w2 w3 Hseeds Hloop Hstop].
  - destruct (Hdrop w) as [??]; [by rewrite Hj|done|]. split_and!; [done..|]. intros id. by apply Habort.
  - destruct (Hdrop w) as [??]; [by rewrite Hj|done|]. split_and!; [done..|]. intros id. by apply Habort.
  - destruct (seeds_tried_steps _ _ _ _ Hj Hseeds) as [Hr Hj1].
    destruct (Hdrop w1) as [??]; [by rewrite Hj1|done|]. split_and!; [done..|]. intros id. apply Habort.
    by rewrite (seeds_tried_down _ _ _ _ Hseeds).
  - assert (rtc world_step w w1 ∧ job (w_manager w1) = Idle ∧ shutting_down (w_manager w1) = false)
      as (Hr1&Hj1&Hd1).
    { destruct (nr_connect_seeds config); [|by rewrite Hseeds]. destruct Hseeds as [Hseeds _].
      rewrite (seeds_tried_down _ _ _ _ Hseeds). by destruct (seeds_tried_steps _ _ _ _ Hj Hseeds). }
    destruct (run_poll_loop_steps _ _ _ Hj1 Hloop) as [Hr2 Hres].
    pose proof (run_poll_loop_down _ _ _ Hloop Hd1) as Hd2.
    assert (rtc world_step w w2) as Hw2 by by trans w1.
    pose proof (reachable_silent _ _ _ Hw2) as Hsil2.
    destruct (shutdown_stops _ _ _ Hsil2 Hd2 Hstop) as (_&Htold&Hrs). destruct Hstop as [Hstop Hdown].
    assert (rtc world_step w w3) as Hw3.
    { trans w2; [done|]. eapply rtc_l; [|done]. apply step_shutdown.
      destruct r as [[]|e|]; [by left| |done]. right. destruct Hres as (ne&_&?). by exists ne. }
    assert (job (w_manager w3) ≠ Dropped) as Hnd by (destruct rs; [by rewrite Hdown..|done]).
    destruct (Hdrop w3 Hnd Hw3) as [??]. split_and!; [done|done| |].
    + destruct rs as [u|e|]; [|done..]. simpl. by intros ->.
    + intros id Hid. right. eapply world_step_keeps; [by apply step_drop|by eapply reachable_silent|].
      by apply Htold.
Qed.

(** C29 (liveness): however a node ends (its listener cannot be bound, no seed answers, its
    signal comes, a broadcast fails, or the shutdown does), it does not panic and it winds
    down.  When [run_with_chain] returns, every peer that was in the manager's table when it
    was last used has been told to stop, or its cancellation has been requested; and nobody
    holds a sender of commands for any task, so that a task that has not been registered yet
    ends as well.  No connection is added from then on.  And the node can then come to a state
    in which the task of every connection there ever was has ended and every inbound slot is
    free, by steps of its own: no peer need send anything and no connection need break, what
    the node has queued for them need only be taken. *)
Theorem node_winds_down (format_failures : list (SocketAddr * NetError) → list byte)
    (config : NodeRunConfig) (gen : Block) (c : Chain) (r : Result CliError unit) (wl w : World) :
  0 ≤ nr_max_inbound config → 0 ≤ nr_max_outbound config → reachable gen c →
  run_with_chain format_failures config (new_lock c) r wl w →
  r ≠ Panic ∧
  (∀ addr e, peers (w_manager wl) !! addr = Some e →
     e_task e ∈ w_cancelled w ∨
     ∃ t, w_tasks w !! e_task e = Some t ∧
       (closed t = true ∨ t_stage t = Closing ∨ Shutdown ∈ t_commands t)) ∧
  (∀ w', rtc world_step w w' →
     job (w_manager w') = Dropped ∧ dom (w_tasks w') = dom (w_tasks w) ∧ ∀ id, linked w' id = false) ∧
  ∃ w', rtc closing_step w w' ∧ w_reserved w' = 0 ∧
    ∀ id t, w_tasks w' !! id = Some t → t_stage t = Finished.
Proof.
  intros Hi Ho Hr Hrun.
  assert (shared_ok gen default_limits (new_lock c, pool_with_limits default_limits)) as Hsh.
  { split; (split; [done|]); [exact Hr|apply reach_new]. }
  destruct (run_with_chain_steps _ _ _ _ _ _ Hrun) as (Hsteps&Hd&Hp&Hstopped).
  split; [done|]. split; [intros addr e He; by apply Hstopped, (entry_task addr)|]. split.
  - intros w' Hw'. destruct (dropped_run _ _ Hw' Hd) as [Hd' ?].
    split; [apply Hd'|]. split; [done|]. intros id. by apply dropped_unlinked.
  - destruct (dropped_winds_down gen default_limits (peer_config config) _ w default_limits_ok Hi Ho Hsh Hsteps Hd)
      as (w'&?&_&?&?). by exists w'.
Qed.
End node.
