(* ===== verification/CliOutput.v ===== *)
(** * What the commands print (src/cli)

    A command writes whole lines and stops at the first one that cannot be written.  [prints]
    says this of a computation on the output, [session_prints] of one that also changes the
    chain of the command; both compose along the commands. *)

From stdpp Require Import prelude gmap strings list.
From Stdlib Require Import Strings.Byte.
From S2P Require Import Prelude Bytes Crypto U256 Pow Wire Transaction Merkle Block Utxo Script.
From S2P Require Import Sighash Journal Store DiskStore Chain Handles Message Wallet Miner Cli.

Local Open Scope list_scope.

Definition sound_out (text : list byte) : Out := {| o_text := text; o_fault := None |}.
(** An output that takes [n] more lines. *)
Definition broken_out (n : nat) (message text : list byte) : Out :=
  {| o_text := text; o_fault := Some (n, message) |}.
Definition lines_text (lines : list (list byte)) : list byte :=
  concat (map (λ line, line ++ [x0a]) lines).
Lemma lines_text_nil text : text ++ lines_text [] = text.
Proof. apply (right_id_L [] (++)). Qed.
Lemma lines_text_one line : lines_text [line] = line ++ [x0a].
Proof. apply (right_id_L [] (++)). Qed.
Lemma lines_text_app l1 l2 : lines_text (l1 ++ l2) = lines_text l1 ++ lines_text l2.
Proof. unfold lines_text. by rewrite map_app, concat_app. Qed.

(** A computation on the output, next to a state that it does not use; [on_out] is this with
    the chain of a session. *)
Definition beside {S A} (m : SM Out CliError A) : SM (S * Out) CliError A := λ '(h, o),
  let '(r, o) := m o in (r, (h, o)).

(** [m] from the state [h] prints the lines and returns [r], in the state [h'], unless the
    output breaks before. *)
Definition session_prints {S A} (m : SM (S * Out) CliError A) (h : S)
    (r : Result CliError A) (h' : S) (lines : list (list byte)) : Prop :=
  (∀ text, m (h, sound_out text) = (r, (h', sound_out (text ++ lines_text lines)))) ∧
  ∀ n message text,
    if decide (n < length lines)%nat then
      ∃ h2, m (h, broken_out n message text) =
        (Err (CliIo message), (h2, broken_out 0 message (text ++ lines_text (take n lines))))
    else m (h, broken_out n message text) =
      (r, (h', broken_out (n - length lines) message (text ++ lines_text lines))).
Definition prints {A} (m : SM Out CliError A) (r : Result CliError A) (lines : list (list byte)) : Prop :=
  session_prints (beside m) () r () lines.

(** It prints some lines, which satisfy [Q] when it succeeds. *)
Definition session_printer {A} (Q : list (list byte) → Prop) (m : SM (ChainHandle * Out) CliError A) : Prop :=
  ∀ h, ∃ r h' lines, session_prints m h r h' lines ∧ ∀ a, r = Ok a → Q lines.
Definition printer {A} (Q : list (list byte) → Prop) (m : SM Out CliError A) : Prop :=
  ∃ r lines, prints m r lines ∧ ∀ a, r = Ok a → Q lines.
Definition anything (lines : list (list byte)) : Prop := True.
Definition ends_with (line : list byte) (lines : list (list byte)) : Prop := last lines = Some line.

Section prints.
Context {S A B : Type}.
Implicit Types (lines : list (list byte)) (h : S).

Lemma session_prints_pure (m : SM (S * Out) CliError A) h r h' :
  (∀ o, m (h, o) = (r, (h', o))) → session_prints m h r h' [].
Proof.
  intros Hm. split; intros; [by rewrite Hm, lines_text_nil|].
  rewrite decide_False by (simpl; lia). by rewrite Hm, lines_text_nil, Nat.sub_0_r.
Qed.

Lemma session_prints_bind (m : SM (S * Out) CliError A) (f : A → SM (S * Out) CliError B) h a h1 l1 r h2 l2 :
  session_prints m h (Ok a) h1 l1 → session_prints (f a) h1 r h2 l2 →
  session_prints (sbind m f) h r h2 (l1 ++ l2).
Proof.
  intros [Hs1 Hb1] [Hs2 Hb2]. split.
  - intros text. unfold sbind. by rewrite Hs1, Hs2, lines_text_app, (assoc_L (++)).
  - intros n message text. specialize (Hb1 n message text). unfold sbind. rewrite length_app.
    destruct (decide (n < length l1)%nat) as [Hn|Hn].
    + rewrite decide_True by lia. destruct Hb1 as [h3 ->]. exists h3. by rewrite take_app_le by lia.
    + rewrite Hb1. specialize (Hb2 (n - length l1)%nat message (text ++ lines_text l1)).
      destruct (decide (n - length l1 < length l2)%nat).
      * rewrite decide_True by lia. destruct Hb2 as [h3 ->]. exists h3.
        rewrite take_app_ge by lia. by rewrite lines_text_app, (assoc_L (++)).
      * rewrite decide_False by lia. rewrite Hb2, lines_text_app, (assoc_L (++)).
        by rewrite Nat.sub_add_distr.
Qed.

(** What does not succeed is all that happens. *)
Definition stopped (r : Result CliError A) : Result CliError B :=
  match r with Err e => Err e | _ => Panic end.
Lemma session_prints_stop (m : SM (S * Out) CliError A)
    (f : A → SM (S * Out) CliError B) h r h1 lines :
  session_prints m h r h1 lines → (∀ a, r ≠ Ok a) →
  session_prints (sbind m f) h (stopped r) h1 lines.
Proof.
  intros [Hs Hb] Hr. split; [intros text|intros n message text; specialize (Hb n message text)];
    unfold sbind.
  - rewrite Hs. destruct r as [a|e|]; [by destruct (Hr a)|done..].
  - destruct (decide _); [destruct Hb as [h3 ->]; by exists h3|].
    rewrite Hb. destruct r as [a|e|]; [by destruct (Hr a)|done..].
Qed.
Lemma stopped_not_Ok r b : stopped r ≠ Ok b.
Proof. by destruct r. Qed.
End prints.

Lemma prints_exact {A} (m : SM Out CliError A) r lines :
  prints m r lines ↔
  (∀ text, m (sound_out text) = (r, sound_out (text ++ lines_text lines))) ∧
  ∀ n message text, m (broken_out n message text) =
    if decide (n < length lines)%nat
    then (Err (CliIo message), broken_out 0 message (text ++ lines_text (take n lines)))
    else (r, broken_out (n - length lines) message (text ++ lines_text lines)).
Proof.
  unfold prints, session_prints, beside. split; intros [Hs Hb]; split.
  - intros text. specialize (Hs text). destruct (m _). by injection Hs as -> ->.
  - intros n message text. specialize (Hb n message text). destruct (m _).
    destruct (decide _); [destruct Hb as [[] Hb]|]; by injection Hb as -> ->.
  - intros text. by rewrite Hs.
  - intros n message text. rewrite Hb. destruct (decide _); [by exists ()|done].
Qed.
Lemma prints_beside {S A} (m : SM Out CliError A) r lines (h : S) :
  prints m r lines → session_prints (beside m) h r h lines.
Proof.
  intros [Hs Hb]%prints_exact. unfold session_prints, beside. split.
  - intros text. by rewrite Hs.
  - intros n message text. rewrite Hb. destruct (decide _); [by exists h|done].
Qed.

Lemma session_prints_ext {S A} (m m' : SM (S * Out) CliError A) h r h' lines :
  (∀ s, m s = m' s) → session_prints m h r h' lines → session_prints m' h r h' lines.
Proof.
  intros Heq [Hs Hb]. split; intros; [by rewrite <- Heq|]. rewrite <- Heq. apply Hb.
Qed.

Section printers.
Context {A B : Type}.
Implicit Types (Q : list (list byte) → Prop).

Lemma printer_session Q (m : SM Out CliError A) : printer Q m → session_printer Q (on_out m).
Proof. intros (r&lines&Hp&HQ) h. exists r, h, lines. split; [by apply (prints_beside m)|done]. Qed.

Lemma session_printer_bind Q1 Q2 Q (m : SM (ChainHandle * Out) CliError A)
    (f : A → SM (ChainHandle * Out) CliError B) :
  (∀ l1 l2, Q1 l1 → Q2 l2 → Q (l1 ++ l2)) →
  session_printer Q1 m → (∀ a, session_printer Q2 (f a)) → session_printer Q (sbind m f).
Proof.
  intros HQ Hm Hf h. destruct (Hm h) as (r&h1&l1&Hp&HQ1).
  assert ((∃ a, r = Ok a) ∨ ∀ a, r ≠ Ok a) as [[a ->]|Hr] by (destruct r; [left; by eexists|by right..]).
  - destruct (Hf a h1) as (r2&h2&l2&Hp2&HQ2). exists r2, h2, (l1 ++ l2).
    split; [by eapply session_prints_bind|]. intros b Hb. eapply HQ; [by eapply HQ1|by eapply HQ2].
  - exists (stopped r), h1, l1. split; [by apply session_prints_stop|].
    intros b Hb. by destruct (stopped_not_Ok r b).
Qed.

Lemma session_printer_pure (m : SM (ChainHandle * Out) CliError A) :
  (∀ h, ∃ r h', ∀ o, m (h, o) = (r, (h', o))) → session_printer anything m.
Proof.
  intros Hm h. destruct (Hm h) as (r&h'&Heq). exists r, h', []. split; [|done].
  by apply session_prints_pure.
Qed.

Lemma printer_pure (r : Result CliError A) : printer (λ lines, lines = []) (slift r).
Proof. exists r, []. split; [|done]. by apply session_prints_pure. Qed.

Lemma beside_sbind {S} (m : SM Out CliError A) (f : A → SM Out CliError B) (s : S * Out) :
  beside (sbind m f) s = sbind (beside m) (λ a, beside (f a)) s.
Proof. destruct s as [h o]. unfold beside, sbind. by destruct (m o) as [[] ?]. Qed.

Lemma printer_bind Q1 Q2 Q (m : SM Out CliError A) (f : A → SM Out CliError B) :
  (∀ l1 l2, Q1 l1 → Q2 l2 → Q (l1 ++ l2)) →
  printer Q1 m → (∀ a, printer Q2 (f a)) → printer Q (sbind m f).
Proof.
  intros HQ (r&l1&Hp&HQ1) Hf.
  assert ((∃ a, r = Ok a) ∨ ∀ a, r ≠ Ok a) as [[a ->]|Hr] by (destruct r; [left; by eexists|by right..]).
  - destruct (Hf a) as (r2&l2&Hp2&HQ2). exists r2, (l1 ++ l2).
    split; [|intros b Hb; eapply HQ; [by eapply HQ1|by eapply HQ2]].
    exact (session_prints_ext _ _ _ _ _ _ (λ s, eq_sym (beside_sbind m f s)) (session_prints_bind _ _ _ _ _ _ _ _ _ Hp Hp2)).
  - exists (stopped r), l1. split; [|intros b Hb; by destruct (stopped_not_Ok r b)].
    exact (session_prints_ext _ _ _ _ _ _ (λ s, eq_sym (beside_sbind m f s)) (session_prints_stop _ (λ a, beside (f a)) _ _ _ _ Hp Hr)).
Qed.
End printers.

Lemma printer_weaken {A} (Q Q' : list (list byte) → Prop) (m : SM Out CliError A) :
  (∀ lines, Q lines → Q' lines) → printer Q m → printer Q' m.
Proof. intros HQ (r&lines&Hp&Hr). exists r, lines. split; [done|]. intros a Ha. by eapply HQ, Hr. Qed.
Lemma last_line_app line l1 l2 : anything l1 → ends_with line l2 → ends_with line (l1 ++ l2).
Proof. intros _ Hl. unfold ends_with. rewrite last_app. by rewrite Hl. Qed.
Lemma anything_app l1 l2 : anything l1 → anything l2 → anything (l1 ++ l2).
Proof. done. Qed.

Lemma write_line_prints line : prints (write_line line) (Ok ()) [line].
Proof.
  apply prints_exact. split; [intros text|intros [|n] message text]; cbn -[lines_text].
  - by rewrite lines_text_one.
  - by rewrite lines_text_nil.
  - by rewrite lines_text_one, Nat.sub_0_r.
Qed.
Lemma printer_write_line line : printer (ends_with line) (write_line line).
Proof. exists (Ok ()), [line]. split; [apply write_line_prints|done]. Qed.

(** The steps of a command: what comes before its last line, and its value. *)
Lemma printer_step {A B} line (m : SM Out CliError A) (f : A → SM Out CliError B) Q :
  printer Q m → (∀ a, printer (ends_with line) (f a)) → printer (ends_with line) (sbind m f).
Proof. intros Hm. apply (printer_bind anything _ _ m f (last_line_app line)). by eapply printer_weaken. Qed.
Lemma printer_value {A B} Q (m : SM Out CliError A) (g : A → B) :
  printer Q m → printer Q (sbind m (λ a, sret (g a))).
Proof.
  intros Hm. apply (printer_bind Q (λ lines, lines = []) Q m); [|done|].
  - intros l1 l2 ? ->. by rewrite (right_id_L [] (++)).
  - intros a. apply (printer_pure (Ok (g a))).
Qed.

(** Computations that only change the chain, and their compositions. *)
Lemma printer_anything {A} Q (m : SM Out CliError A) : printer Q m → printer anything m.
Proof. by apply printer_weaken. Qed.
Lemma printer_stop {A} Q (r : Result CliError A) : (∀ a, r ≠ Ok a) → printer Q (slift r).
Proof.
  intros Hr. exists r, []. split; [by apply session_prints_pure|]. intros a Ha. by destruct (Hr a).
Qed.
Lemma session_printer_slift {A} (r : Result CliError A) : session_printer anything (slift r).
Proof. apply session_printer_pure. intros h. by eexists _, _. Qed.
Lemma session_printer_on_chain {A} (m : SM ChainHandle ChainError A) : session_printer anything (on_chain m).
Proof.
  apply session_printer_pure. intros h. unfold on_chain. destruct (m h) as [r h']. by eexists _, _.
Qed.
Lemma session_printer_write line : session_printer anything (on_out (write_line line)).
Proof. apply printer_session. by eapply printer_anything, printer_write_line. Qed.
Lemma session_printer_then {A B} (m : SM (ChainHandle * Out) CliError A)
    (f : A → SM (ChainHandle * Out) CliError B) :
  session_printer anything m → (∀ a, session_printer anything (f a)) → session_printer anything (sbind m f).
Proof. by apply session_printer_bind. Qed.
Lemma session_printer_get {A} Q (g : ChainHandle → SM (ChainHandle * Out) CliError A) :
  (∀ h, session_printer Q (g h)) → session_printer Q (sbind sget (λ s, g s.1)).
Proof. intros Hg h. destruct (Hg h h) as (r&h'&lines&Hp&HQ). by exists r, h', lines. Qed.

(** A session from a chain of its own, which its end drops. *)
Lemma printer_of_session {A B} Q (m : SM (ChainHandle * Out) CliError A) h (g : A → ChainHandle → B) :
  session_printer Q m →
  printer Q (λ out,
    let '(r, (handle, out)) := m (h, out) in
    match r with
    | Ok a => (Ok (g a handle), out)
    | Err e => (Err e, out)
    | Panic => (Panic, out)
    end).
Proof.
  intros Hm. destruct (Hm h) as (r&h'&lines&[Hs Hb]&HQ).
  exists (match r with Ok a => Ok (g a h') | Err e => Err e | Panic => Panic end), lines.
  split; [|by destruct r; intros b Hb'; [eapply HQ|..]]. apply prints_exact. split.
  - intros text. rewrite Hs. by destruct r.
  - intros n message text. specialize (Hb n message text).
    destruct (decide _); [by destruct Hb as [h2 ->]|]. rewrite Hb. by destruct r.
Qed.
