(* ===== verification/CliDispatch.v ===== *)
(** * The command line: from the arguments to the exit status
      (src/main.rs, src/lib.rs, src/cli/mod.rs, src/cli/wallet/mod.rs)

    The argument parser of the clap crate is a parameter, as is the text of an error.  A
    [Host] is what a process finds around it.  Every command but [node] is a computation on
    the output; a run of [node] is a run of its manager and writes nothing to the output. *)

From stdpp Require Import prelude gmap strings list relations.
From Stdlib Require Import Strings.Byte.
From S2P Require Import Prelude Bytes Crypto U256 Pow Wire Transaction Merkle Block Utxo Script.
From S2P Require Import Sighash Journal Store DiskStore Chain ChainTx ChainInv ChainReorg.
From S2P Require Import ChainProps ChainTheorems Mempool MempoolTheorems Message Handshake Handles.
From S2P Require Import Relay Wallet Miner Peer Peers PeersDrive Cli CliMining CliWallet CliNode CliOutput.

Local Open Scope Z_scope.
Local Open Scope list_scope.

(** ** Commands *)

Record TipArgs := { ta_network_time : option Z }.
Record BalanceArgs := { ba_address : string; ba_network_time : option Z }.
Inductive WalletCommand :=
| WalletNew (show_secret : bool)
| WalletAddress (private_key : option (list byte)) (private_key_stdin show_secret : bool)
| WalletBalance (args : BalanceArgs).
Record WalletArgs := { wa_network : NetworkArg; wa_command : WalletCommand }.
Inductive Commands :=
| TipCommand (args : TipArgs)
| MineCommand (args : MineArgs)
| WalletCommands (args : WalletArgs)
| NodeCommand (args : NodeArgs).

(** What [main] returns; a panic ends the process with the status 101. *)
Inductive ExitCode := SUCCESS | FAILURE | PANICKED.

Section dispatch.
Context {crypto : CryptoLib} {order : HashOrder} {flags : BuildFlags} {hex : HexLib}.
Context {decoder : HexDecoder}.
Context (secret_bytes : SecretKey → list byte).
Context (format_failures : list (SocketAddr * NetError) → list byte).

(** The clock, the environment variable, the standard input, the key that the random
    generator gives, whether the runtime of [node] can be built, and the text of a join error. *)
Record Host := {
  clock : option Z;
  private_key_env : option (list byte);
  stdin : Result CliError (list byte);
  generated : PrivateKey;
  runtime : Result (list byte) unit;
  join_message : list byte
}.

(** [wallet::run] *)
Definition run_wallet (host : Host) (args : WalletArgs) : SM Out CliError unit :=
  match wa_command args with
  | WalletNew show_secret => run_new secret_bytes (wa_network args) show_secret (generated host)
  | WalletAddress private_key private_key_stdin show_secret =>
      run_derive_from_sources secret_bytes (wa_network args) private_key (private_key_env host)
        private_key_stdin (stdin host) show_secret
  | WalletBalance balance_args =>
      run_balance (wa_network args) (ba_address balance_args) (ba_network_time balance_args)
        (clock host)
  end.

(** The arms of [run_parsed] that write to the output. *)
Definition local_command (host : Host) (command : Commands) : option (SM Out CliError unit) :=
  match command with
  | TipCommand args => Some (run_tip (ta_network_time args) (clock host))
  | MineCommand args => Some (do! run_mine args (clock host) ;; sret ())
  | WalletCommands args => Some (run_wallet host args)
  | NodeCommand _ => None
  end.

(** The arm of [Node]; the last argument is the world that a manager has left, if one was
    made.  [None] is the case of a run that ends before. *)
Inductive run_node (host : Host) (args : NodeArgs) : Result CliError unit → option World → Prop :=
| node_refused e :
    into_run_config args (clock host) = Err e → run_node host args (Err e) None
| node_without_runtime config message :
    into_run_config args (clock host) = Ok config → runtime host = Err message →
    run_node host args (Err (CliIo message)) None
| node_without_chain config e :
    into_run_config args (clock host) = Ok config → runtime host = Ok () →
    node_chain (join_message host) config = Err e → run_node host args (Err e) None
| node_ran config chain r last w :
    into_run_config args (clock host) = Ok config → runtime host = Ok () →
    node_chain (join_message host) config = Ok chain → run_with_chain format_failures config chain r last w →
    run_node host args r (Some w).

(** [run_parsed], from the output to the output it leaves. *)
Inductive run_parsed (host : Host) : Commands → Out → Result CliError unit → Out → Prop :=
| parsed_local command m out r out' :
    local_command host command = Some m → m out = (r, out') → run_parsed host command out r out'
| parsed_node args out r w :
    run_node host args r w → run_parsed host (NodeCommand args) out r out.

(** [clap_parse] is [Cli::try_parse_from]. *)
Context (clap_parse : list (list byte) → option Commands) (show_error : CliError → list byte).

Inductive run_from (host : Host) (args : list (list byte)) (out : Out) : Result CliError unit → Out → Prop :=
| from_refused :
    clap_parse args = None → run_from host args out (Err Clap) out
| from_parsed command r out' :
    clap_parse args = Some command → run_parsed host command out r out' →
    run_from host args out r out'.

(** [main] for the result of [run]: its status, and what it writes on the error stream. *)
Definition main_exit (r : Result CliError unit) : ExitCode * list byte :=
  match r with
  | Ok () => (SUCCESS, [])
  | Err error => (FAILURE, str "error: " ++ show_error error ++ [x0a])
  | Panic => (PANICKED, [])
  end.
Inductive process (host : Host) (args : list (list byte)) (out : Out) : ExitCode → list byte → Out → Prop :=
| process_exits r out' :
    run_from host args out r out' →
    process host args out (main_exit r).1 (main_exit r).2 out'.

(** ** What the commands print *)







(** ** No panic *)









(** ** The exit status *)





(** Arguments that the parser refuses, [--help] among them, end in FAILURE and leave the
    output as it is. *)
Lemma refused_arguments_fail host args out code err out' :
  clap_parse args = None → process host args out code err out' →
  code = FAILURE ∧ err = str "error: " ++ show_error Clap ++ [x0a] ∧ out' = out.
Proof. intros Hno [r out1 [_|command r1 out2 Hparse _]]; [done|]. by rewrite Hno in Hparse. Qed.

Lemma run_node_returns host args r w :
  run_node host args r w → r ≠ Panic ∧ ∀ w', w = Some w' → dropped w'.
Proof.
  destruct 1 as [| | |config chain r2 last w2 _ _ _ Hrun]; [by split..|].
  destruct (run_with_chain_steps _ _ _ _ _ _ Hrun) as (_&?&?&_). split; [done|]. by intros ? [= <-].
Qed.

(** A [node] process leaves the output alone, does not panic, and its manager is dropped. *)
Lemma node_process host args node_args out code err out' :
  clap_parse args = Some (NodeCommand node_args) → process host args out code err out' →
  out' = out ∧ code ≠ PANICKED ∧
  ∃ r w, run_node host node_args r w ∧ (code, err) = main_exit r ∧ ∀ w', w = Some w' → dropped w'.
Proof.
  intros Hparse [r out1 [Hno|command r1 out2 Hparse' Hrun]]; [by rewrite Hno in Hparse|].
  rewrite Hparse in Hparse'. injection Hparse' as <-.
  inversion Hrun as [? ? ? ? ? Hlocal|? ? ? w Hnode]; subst; [done|]. split; [done|].
  destruct (run_node_returns _ _ _ _ Hnode) as [Hr Hw].
  split; [by destruct r1 as [[]|e|]|]. exists r1, w. by rewrite <- surjective_pairing.
Qed.

(** Without [--show-secret] nothing of the key but its address is printed. *)
Lemma secret_hidden network k1 k2 :
  key_pubkey_hash k1 = key_pubkey_hash k2 →
  write_address_output secret_bytes network k1 false = write_address_output secret_bytes network k2 false.
Proof. unfold write_address_output. by intros ->. Qed.
End dispatch.
