(* ===== verification/Shutdown.v ===== *)
(** * The shutdown signal (src/cli/shutdown.rs)

    [ShutdownTrigger] hands a signal to a waiter through the watch channel of tokio, which is
    an interface here: its operations, with what its documentation promises of them.  The
    triggers and the waiter act in any order; no signal is lost, however early it comes. *)

From stdpp Require Import prelude relations.
From S2P Require Import Prelude.

(** tokio's [watch] channel of a [bool].  [send] stores the value as long as there is a
    receiver; [wait_for], polled, is ready when the value satisfies its condition, or when no
    sender is left. *)
Class WatchChannel := {
  Watch : Type;
  channel : bool → Watch;
  current : Watch → bool;
  senders : Watch → nat;
  receivers : Watch → nat;
  send : bool → Watch → Watch;
  clone_sender : Watch → Watch;
  drop_sender : Watch → Watch;
  drop_receiver : Watch → Watch;
  wait_for : (bool → bool) → Watch → bool;
  channel_new v : current (channel v) = v ∧ senders (channel v) = 1 ∧ receivers (channel v) = 1;
  send_stores v w : receivers w ≠ 0 → current (send v w) = v;
  send_counts v w : senders (send v w) = senders w ∧ receivers (send v w) = receivers w;
  clone_sender_counts w :
    current (clone_sender w) = current w ∧ senders (clone_sender w) = S (senders w) ∧
    receivers (clone_sender w) = receivers w;
  drop_sender_counts w :
    current (drop_sender w) = current w ∧ senders (drop_sender w) = pred (senders w) ∧
    receivers (drop_sender w) = receivers w;
  drop_receiver_counts w :
    senders (drop_receiver w) = senders w ∧ receivers (drop_receiver w) = pred (receivers w);
  wait_for_ready p w : wait_for p w = true ↔ p (current w) = true ∨ senders w = 0
}.

(** The channel as a record of its value and its ends. *)
Record WatchState := { ws_value : bool; ws_senders : nat; ws_receivers : nat }.
#[export] Instance watch_state_channel : WatchChannel.
Proof.
  refine {|
    Watch := WatchState;
    channel v := {| ws_value := v; ws_senders := 1; ws_receivers := 1 |};
    current := ws_value; senders := ws_senders; receivers := ws_receivers;
    send v w := {| ws_value := if ws_receivers w is O then ws_value w else v;
                   ws_senders := ws_senders w; ws_receivers := ws_receivers w |};
    clone_sender w := {| ws_value := ws_value w; ws_senders := S (ws_senders w);
                         ws_receivers := ws_receivers w |};
    drop_sender w := {| ws_value := ws_value w; ws_senders := pred (ws_senders w);
                        ws_receivers := ws_receivers w |};
    drop_receiver w := {| ws_value := ws_value w; ws_senders := ws_senders w;
                          ws_receivers := pred (ws_receivers w) |};
    wait_for p w := p (ws_value w) || (ws_senders w =? 0)%nat |}; try done.
  - intros v [x s [|r]] Hr; [by destruct Hr|done].
  - intros p w. by rewrite orb_true_iff, Nat.eqb_eq.
Defined.

(** What a poll of [wait_for_shutdown_signal] gives on Unix: it panics when the handler of
    SIGTERM cannot be installed, and is ready after Ctrl-C or SIGTERM. *)
Definition wait_for_shutdown_signal (installed ctrl_c sigterm : bool) : Result unit bool :=
  if installed then Ok (ctrl_c || sigterm) else Panic.

Section trigger.
Context {watch : WatchChannel}.

Inductive Waiting := Pending | Completed | Cancelled.
(** The channel of the triggers, the future of [pair], and whether [signal] has been called. *)
Record ShutdownTrigger := { tx : Watch; wait : Waiting; signalled : bool }.

Definition pair : ShutdownTrigger := {| tx := channel false; wait := Pending; signalled := false |}.
Definition signal (t : ShutdownTrigger) : ShutdownTrigger :=
  {| tx := send true (tx t); wait := wait t; signalled := true |}.
(** A poll of the future, which ends with its receiver. *)
Definition poll_wait (t : ShutdownTrigger) : ShutdownTrigger :=
  match wait t with
  | Pending =>
      if wait_for (λ value, value) (tx t)
      then {| tx := drop_receiver (tx t); wait := Completed; signalled := signalled t |} else t
  | _ => t
  end.
Definition cancel_wait (t : ShutdownTrigger) : ShutdownTrigger :=
  match wait t with
  | Pending => {| tx := drop_receiver (tx t); wait := Cancelled; signalled := signalled t |}
  | _ => t
  end.

(** The holders of the triggers and of the future, in any order. *)
Inductive trigger_step (t : ShutdownTrigger) : ShutdownTrigger → Prop :=
| step_signal : senders (tx t) ≠ 0 → trigger_step t (signal t)
| step_clone :
    senders (tx t) ≠ 0 →
    trigger_step t {| tx := clone_sender (tx t); wait := wait t; signalled := signalled t |}
| step_drop_trigger :
    senders (tx t) ≠ 0 →
    trigger_step t {| tx := drop_sender (tx t); wait := wait t; signalled := signalled t |}
| step_poll : trigger_step t (poll_wait t)
| step_cancel : trigger_step t (cancel_wait t).

(** While the waiter waits the channel holds whether a signal was sent, and it ends only
    after a signal, or when no trigger is left to send one. *)
Record trigger_inv (t : ShutdownTrigger) : Prop := {
  ti_value : wait t = Pending → receivers (tx t) = 1 ∧ current (tx t) = signalled t;
  ti_completed : wait t = Completed → signalled t = true ∨ senders (tx t) = 0
}.

Lemma pair_inv : trigger_inv pair.
Proof. destruct (channel_new false) as (?&?&?). by split. Qed.

Lemma trigger_step_inv t t' : trigger_step t t' → trigger_inv t → trigger_inv t'.
Proof.
  intros Hstep Hinv. pose proof Hinv as [Hv Hc]. destruct Hstep as [Hs|Hs|Hs| |].
  - destruct (send_counts true (tx t)) as [_ Hr]. split; simpl; [|by left].
    intros [Hone _]%Hv. rewrite Hr. split; [done|]. apply send_stores. by rewrite Hone.
  - destruct (clone_sender_counts (tx t)) as (Hcur&_&Hr). split; simpl.
    + rewrite Hcur, Hr. apply Hv.
    + intros [?|?]%Hc; [by left|by destruct Hs].
  - destruct (drop_sender_counts (tx t)) as (Hcur&Hd&Hr). split; simpl.
    + rewrite Hcur, Hr. apply Hv.
    + intros [?|?]%Hc; [by left|by destruct Hs].
  - unfold poll_wait. destruct (wait t) eqn:Hw; [|done..].
    destruct (wait_for _ (tx t)) eqn:Hp; [|done].
    apply wait_for_ready in Hp. destruct (Hv eq_refl) as [_ Hcur]. split; [done|]. simpl. intros _.
    destruct (drop_receiver_counts (tx t)) as [-> _]. destruct Hp as [Hp|?]; [left|by right]. congruence.
  - unfold cancel_wait. destruct (wait t) eqn:Hw; [|done..]. by split.
Qed.

Lemma trigger_reachable t : rtc trigger_step pair t → trigger_inv t.
Proof.
  intros Hrun. pose proof pair_inv as Hinv. induction Hrun as [|t1 t2 t3 Hstep _ IH]; [done|].
  apply IH. by eapply trigger_step_inv.
Qed.

Lemma signalled_stays t t' : rtc trigger_step t t' → signalled t = true → signalled t' = true.
Proof.
  induction 1 as [|t1 t2 t3 Hstep _ IH]; [done|]. intros Hs. apply IH.
  destruct Hstep; simpl; [done..| |].
  - unfold poll_wait. destruct (wait t1); [by destruct (wait_for _ _)|done..].
  - unfold cancel_wait. by destruct (wait t1).
Qed.

(** No signal is lost: whatever happens before and after a call of [signal], the next poll
    of a future that is still waiting completes it.  And it completes only after a signal, or
    when all triggers have been dropped. *)
Theorem signal_is_not_lost (t1 t2 t3 : ShutdownTrigger) :
  rtc trigger_step pair t1 → trigger_step t1 t2 → signalled t2 = true → rtc trigger_step t2 t3 →
  (wait t3 ≠ Cancelled → wait (poll_wait t3) = Completed) ∧
  (signalled t1 = false → wait t1 = Completed → senders (tx t1) = 0).
Proof.
  intros Hrun1 Hstep Hsig Hrun3.
  assert (rtc trigger_step pair t3) as Hrun by (trans t1; [done|by eapply rtc_l]).
  pose proof (trigger_reachable _ Hrun) as [Hv3 _]. pose proof (trigger_reachable _ Hrun1) as [_ Hc1].
  split; [|intros Hs Hw; destruct (Hc1 Hw); [congruence|done]].
  pose proof (signalled_stays _ _ Hrun3 Hsig) as Hs3. unfold poll_wait.
  destruct (wait t3) eqn:Hw; [|done..]. intros _. destruct (Hv3 eq_refl) as [_ Hcur].
  by rewrite (proj2 (wait_for_ready (λ value, value) (tx t3))) by (left; congruence).
Qed.
End trigger.

(** Dropping the last trigger also ends the waiter, without a signal. *)
Lemma dropped_trigger_completes :
  let t := poll_wait {| tx := drop_sender (tx pair); wait := Pending; signalled := false |} in
  wait t = Completed ∧ signalled t = false.
Proof. by split. Qed.
(** A signal before the first poll. *)
Lemma early_signal_completes : wait (poll_wait (signal pair)) = Completed.
Proof. done. Qed.
