(* ===== verification/CliExamples.v ===== *)
(** * The command line on concrete arguments

    A decoder for the lower-case encoder of DiskExamples, a session that mines two blocks,
    and the hypotheses of the properties at concrete arguments. *)

From stdpp Require Import prelude gmap strings list pretty.
From Stdlib Require Import Strings.Byte.
From S2P Require Import Prelude Bytes Crypto U256 Pow Difficulty Wire Transaction Merkle Block.
From S2P Require Import Utxo Script Sighash Journal Store DiskStore DiskExamples Chain ChainTx.
From S2P Require Import ChainInv ChainReorg ChainProps ChainTheorems ChainExamples ChainExtend.
From S2P Require Import Handles Message Handshake Mempool Relay Wallet Miner Peer Peers PeersInv.
From S2P Require Import PeersShutdown PeersDrive PeersExamples Cli CliMining CliWallet CliNode CliOutput CliDispatch.

Local Open Scope Z_scope.
Local Open Scope list_scope.

#[local] Existing Instance toy_crypto.
#[local] Existing Instance canonical_order.
#[local] Existing Instance ex_flags.
#[local] Existing Instance lower_hex.

Fixpoint unhex_all (bs : list byte) : option (list byte) :=
  match bs with
  | [] => Some []
  | hi :: lo :: bs =>
      if is_hex_digit hi && is_hex_digit lo
      then rest ← unhex_all bs; Some (zb (unhex hi * 16 + unhex lo) :: rest) else None
  | _ => None
  end.

#[local] Instance lower_unhex : HexDecoder.
Proof.
  refine {| decode_hex := unhex_all |}. induction bs as [|b bs IH]; [done|].
  pose proof (hex_of_digits b) as Hd. apply Forall_cons in Hd as [Hhi Hd]. apply Forall_cons in Hd as [Hlo _].
  change (encode_hex (b :: bs)) with
    (hex_char (bz b / 16) :: hex_char (bz b mod 16) :: encode_hex bs).
  cbn [unhex_all]. unfold is_hex_digit. rewrite Hhi, Hlo. cbn [andb]. rewrite IH. simpl.
  by rewrite unhex_hex, zb_bz.
Defined.

(** ** Two blocks *)

Definition cx_now : Z := 1700000000.
Definition cx_out : Out := {| o_text := []; o_fault := None |}.
Definition cx_args : MineArgs := {|
  ma_count := 2; ma_value := 50; ma_time := None; ma_bits := 0x207fffff;
  ma_network_time := Some cx_now |}.

Lemma cx_bits_usable :
  (∃ t, from_bits (ma_bits cx_args) = Some t) ∧ ∃ w, block_work (ma_bits cx_args) = Ok w.
Proof. split; eexists; vm_compute; reflexivity. Qed.

(** The search does not give up and no hashes collide: this session mines. *)
Lemma cx_session_succeeds : is_ok (mine_session cx_args None cx_out).1 = true.
Proof. vm_compute. reflexivity. Qed.

Lemma mine_command_mines_witness :
  ∃ mined c, (mine_session cx_args None cx_out).1 = Ok (mined, new_lock c) ∧
    map mb_height mined = [1; 2].
Proof.
  destruct cx_bits_usable as [[t Ht] [w Hw]].
  destruct (mine_command_mines cx_args None cx_now cx_now t w cx_out) as [(e&H&_)|(mined&gen&new&c&H&_&_&_&Hh)];
    [split; [discriminate|reflexivity]|split; discriminate|exact Ht|exact Hw|reflexivity|discriminate
    |reflexivity|reflexivity|discriminate|reflexivity| |].
  - pose proof cx_session_succeeds as Hok. rewrite H in Hok. discriminate Hok.
  - exists mined, c. split; [exact (f_equal fst H)|exact Hh].
Defined.

(** ** Keys and balances *)

Definition cx_key : list byte := le_bytes 32 5.

Lemma wallet_output_is_accepted_witness :
  parse_private_key_hex (encode_hex cx_key ++ [x0a]) = Ok {| inner := 5 : @SecretKey toy_crypto |}.
Proof.
  destruct (wallet_output_is_accepted toy_laws (le_bytes 32) ArgTestnet cx_key 5 cx_out)
    as (_&_&H&_); [reflexivity|reflexivity|reflexivity|reflexivity|exact H].
Defined.

Definition cx_address : Address := address_p2pkh (le_bytes 20 7) AddrMainnet.
Lemma cx_address_parses : parse_address (encoded cx_address) ArgMainnet = Ok cx_address.
Proof. vm_compute. reflexivity. Qed.

Lemma reported_balance_is_zero_witness :
  (run_balance ArgMainnet (encoded cx_address) (Some cx_now) None cx_out =
    (Err (CliMine AttemptsExceeded), cx_out)) ∨
  run_balance ArgMainnet (encoded cx_address) (Some cx_now) None cx_out =
    (Ok (), printed (zero_report ArgMainnet cx_address) cx_out).
Proof.
  apply (reported_balance_is_zero ArgMainnet (encoded cx_address) cx_address (Some cx_now) None cx_now cx_out);
    [exact cx_address_parses|reflexivity|discriminate|reflexivity].
Defined.

(** ** A node that gets its signal *)

(** One peer has been accepted and registered; then the signal comes, and the peer does not
    end in time. *)
Definition cx_node : NodeRunConfig := {|
  nr_listen := loopback 18333; nr_network := ArgTestnet; nr_max_inbound := 8;
  nr_max_outbound := 8; seed_strategy := Builtin; nr_network_time := cx_now;
  nr_connect_seeds := false |}.
Definition cx_hs : HandshakeConfig := {| local_nonce := 1; hs_timeout := 60 |}.
Definition cx_start : World := node_start cx_node (new_lock ex_c0).
Definition cx_accepted : World := accept addr_a cx_hs 0 cx_start.
Definition cx_registered : World :=
  with_queues [] [{| r_addr := addr_a; r_direction := Inbound; r_task := 0 |}] None cx_accepted.
Definition cx_polled : World :=
  with_manager (set_job Idle (w_manager (begin_poll cx_registered))) (begin_poll cx_registered).
Definition cx_stop : list Action := [Tells; Aborts; Leaves].
Definition cx_down : World := default cx_start (perform_all cx_stop (begin_shutdown cx_polled)).

Lemma cx_accepts : w_accepted cx_accepted = Some {| r_addr := addr_a; r_direction := Inbound; r_task := 0 |}.
Proof. vm_compute. reflexivity. Qed.
Lemma cx_poll : poll_returns cx_registered (Ok ()) cx_polled.
Proof.
  split; [reflexivity|]. split; [|reflexivity]. apply rtc_once.
  split; [apply step_drained; reflexivity|exact I].
Qed.
Lemma cx_stops : shutdown_returns cx_polled (Ok ()) cx_down.
Proof.
  split; [|vm_compute; reflexivity]. apply (perform_all_sound cx_stop). unfold cx_down.
  assert (bool_decide (is_Some (perform_all cx_stop (begin_shutdown cx_polled))) = true) as H
    by (vm_compute; reflexivity).
  apply bool_decide_eq_true in H as [w Hw]. by rewrite Hw.
Qed.
Lemma cx_run f : run_with_chain f cx_node (new_lock ex_c0) (Ok ()) cx_polled (drop_manager cx_down).
Proof.
  apply (run_stopped _ _ _ (None, []) (Ok ()) (Ok ()) cx_start cx_polled cx_down); [reflexivity| |exact cx_stops].
  apply (loop_tick cx_start cx_registered cx_polled (Ok ()) cx_polled); [|exact cx_poll|by apply loop_signal].
  apply (rtc_l _ _ cx_accepted).
  - split; [apply step_accept; [reflexivity|reflexivity|split; split; [discriminate|reflexivity|discriminate|reflexivity]]|].
    split; reflexivity.
  - apply rtc_once. split; [|split; reflexivity].
    apply (step_register cx_accepted _ cx_accepts). reflexivity.
Qed.

Lemma node_winds_down_witness :
  (∃ e, peers (w_manager cx_polled) !! addr_a = Some e ∧ e_task e = 0%nat) ∧
  (∃ t, w_tasks (drop_manager cx_down) !! 0%nat = Some t ∧ t_stage t = Handshaking) ∧
  ∃ w', rtc closing_step (drop_manager cx_down) w' ∧ w_reserved w' = 0 ∧
    ∀ id t, w_tasks w' !! id = Some t → t_stage t = Finished.
Proof.
  split; [eexists; split; vm_compute; reflexivity|].
  split; [eexists; split; vm_compute; reflexivity|].
  exact (proj2 (proj2 (proj2 (node_winds_down (λ _, []) cx_node ex_genesis ex_c0 (Ok ()) cx_polled (drop_manager cx_down)
    ltac:(discriminate) ltac:(discriminate) ex_c0_reachable (cx_run _))))).
Defined.

(** ** The exit status of [wallet new] *)

Definition cx_secret : @SecretKey toy_crypto → list byte := le_bytes 32.
Definition cx_host : Host := {|
  clock := Some cx_now; private_key_env := None; stdin := Ok []; generated := {| inner := 5 : @SecretKey toy_crypto |};
  runtime := Ok (); join_message := [] |}.
Definition cx_wallet_new : Commands :=
  WalletCommands {| wa_network := ArgTestnet; wa_command := WalletNew false |}.


(** [wallet new] prints two lines; the notice of the chain commands is not among them. *)
Example wallet_new_prints :
  ∃ address, local_command cx_secret cx_host cx_wallet_new =
    Some (run_new cx_secret ArgTestnet false (generated cx_host)) ∧
  (run_new cx_secret ArgTestnet false (generated cx_host) (sound_out [])).2 =
    sound_out (lines_text [str "address: " ++ address; str "network: testnet"]).
Proof. eexists. split; [reflexivity|]. reflexivity. Qed.
